(* ===== verification/_CoqProject ===== *)
-Q . S2P
Prelude.v
Text.v
Proto.v
Codec.v
Varint.v
Frame.v
Common.v
WireIo.v
Endpoint.v
AuthLimiter.v
ServiceState.v
Session.v
Control.v
Registry.v
Directory.v
Relay.v
Accept.v
Drain.v
Quic.v
Heartbeat.v
ClientSession.v
Reconnect.v
Config.v
Lifecycle.v
Redaction.v
EndToEnd.v
System.v
Progress.v
CliConfig.v
CliRun.v
