(* ===== verification/Prelude.v ===== *)
(** * Eggtunnel: a verification of the reverse tunnel

    Eggtunnel is an authenticated TCP reverse tunnel.  A client opens one
    control Session to a server over TLS, WebSocket or QUIC, authenticates with
    a bearer token and registers services; the server listens for each of them,
    and for every external connection it asks the client, by [Open], to dial
    the service's target and to open a data stream, which is correlated with
    the waiting connection by a random ConnectionId.  The development models
    the three crates (crates/eggtunnel-proto, crates/eggtunnel,
    crates/eggtunnel-cli) as executable definitions over explicit state.

    ** Files

    This file: [result] with the [?] operator as monadic bind, bytes, machine
    integers at their width ([wrap], [checked_add], [saturating_add],
    [try_into]), big-endian words, the tactic [bools] and the list and map
    lemmas the components share.

    - [Text]: what the sources use of Rust's text and address parsing.
    - [Proto], [Codec], [Varint], [Frame]: crates/eggtunnel-proto/src/lib.rs.
      [Proto] has the identifiers, bounded newtypes, capabilities and messages;
      [Codec] the serde derivations over the class [Postcard] (its laws are
      [PostcardLaws]); [Varint] an instance of the format postcard documents;
      [Frame] is [encode_frame] and [decode_frame].
    - [Common]: common.rs (errors, tokens, bind policy, runtime policy,
      counters, snapshots; [begin_session] as a compare-exchange loop run by
      several threads).
    - [WireIo]: wire_io.rs ([read_message], [write_message]) over streams that
      may end, fail or stall, and what dropping a half-done read does.
    - [Endpoint]: endpoint.rs.
    - [AuthLimiter]: server/auth.rs (failure table, uniform refusal).
    - [Session]: server/session.rs, server/pending.rs, server/service.rs.  The
      live [Arc]s are a heap; each definition is one critical section and
      [data_step] interleaves them.
    - [Control]: server/control.rs.  [handshake] is [serve_control] up to
      [AuthOk]; [on_incoming] and its siblings are the arms of the loop;
      [world_step] runs any number of control loops over one server.
    - [Registry]: the Session registry through the same steps.
    - [Directory]: the contract of the server towards its operator, a directory
      of Sessions and published services with four operations, and the
      simulation of [world_step] by it.
    - [Relay]: [run_service] of server/service.rs, an external connection from
      its permit to the end of its relay task.
    - [Accept]: server/accept.rs (admission, [handle_connection], QUIC streams,
      [drain]); [ingress_step] is every step a server listening over TCP or
      QUIC can take.
    - [Drain]: the loop of [drain] step by step, while handlers end their
      handshakes and Sessions register, and the reaping of the handlers.
    - [Quic]: [handle_quic_connection] as a state machine beside its control
      task, and the accept loop over all handlers and detached tasks.
    - [ServiceState], [Heartbeat], [ClientSession], [Reconnect]:
      client/service_state.rs, client/heartbeat.rs, [run_session] of client.rs
      with client/open.rs, and client/reconnect.rs.
    - [Config]: client/config.rs, server/config.rs, pem.rs, server/tls.rs and
      the start functions and constructors of client.rs and server.rs.
    - [Lifecycle]: [Client], [Server] and their handles in client.rs and
      server.rs, beside the task they own, from the start to the end of
      [shutdown]; the end of a QUIC server.
    - [Redaction]: the [Debug] implementations of messages, tokens, identities
      and configurations, in the files that declare these types.
    - [EndToEnd]: client and server definitions run against each other, one
      exchange at a time.
    - [System]: both control loops of a Session joined by the messages in
      flight, among the other Sessions of the server ([system_step]).
    - [Progress]: infinite executions of that system in which each side reads
      on.
    - [CliConfig], [CliRun]: crates/eggtunnel-cli/src/main.rs.

    ** How code becomes definitions

    A function of the source is a definition of the same name where Rocq has
    it free (methods are prefixed by their type, [Limiter_new]).  A [select!]
    loop is one handler per arm, from the loop's state to a [Flow] (go on,
    break, return an error) and the next state; the order in which arms fire is
    an argument or a step relation, so theorems hold for every interleaving.
    What the network, the clock, the random source and other crates answer is
    an argument of the definition that asks.  An atomic counter is a 64-bit
    cell; a [Mutex]-protected map is a [gmap] changed within one definition; a
    oneshot sender is a token, and answers are returned beside the state.

    A step is at least one critical section, and sometimes several that follow
    each other: [handshake] is the exchange up to [AuthOk] with its awaits,
    [register_service] pushes to the bind table and raises the gauge,
    [SessionGuard_drop], [accept_data_hello] and [accept_external] take their
    locks one after the other, [drain_pass] the queues of all Sessions, and
    [snapshot] reads all counters at one moment.  Other tasks move between such
    steps and not inside them, so invariants are stated for the states between
    steps; a reader of the real counters may see a gauge and a table that are
    one critical section apart.  An aborted task is gone when its owner has let
    go of it, except where the code waits for it ([reap_step]) or leaves it
    ([tasks_gone], [left_behind]).  Random identifiers are fresh in every step
    that draws one.

    ** What is shown

    - Wire format: frames round-trip and stop at their own end; decoding is
      sound, and never needs more than the header to refuse; [read_message]
      over any segmentation is [decode_frame] on the bytes, with each failure
      in its place.
    - Authentication: a Session exists only for a peer that presented the
      token, is not throttled and fits the policy; every refusal looks the
      same; the limiter is a sliding window over the whole history, although it
      keeps a bounded table; [verify_token] decides equality.
    - Server accounting: in every reachable state of [world_step] and
      [ingress_step], gauges, bind table, registry, listeners and pending
      connections describe the same thing, and all ceilings hold; what the server shows is at every moment a state
      of the abstract directory, reached by its operations.
    - Owners: when [Server::shutdown] returns, over TCP, no control loop, no
      Session and no handshake is left, and no gauge, listener or bind either.
      In every execution in which the runtime serves the task within some
      delay, a cancelled server has returned within [shutdown_grace] and a
      number of delays that the policy bounds.  When [Client::shutdown]
      returns, the command queue is closed, the handles show no Session and
      every call returns with an error.  Over QUIC control tasks outlive the
      drain; they are cancelled, and letting them end leaves the same clean
      state.
    - Shutdown and QUIC: the drain terminates within a number of passes given by
      the handshakes under way, and has seen every Session by then; every QUIC
      Session has exactly one task; the teardown of a QUIC connection
      terminates, and only its own Session is gone then.
    - Data connections: a ConnectionId is claimed at most once, by the Session
      and the identity it was offered to, before its deadline, and its stream
      reaches the relay task that opened it; permits and running connections
      add up to the ceiling.
    - Client: every caller of a registration is answered exactly once; late
      acknowledgements commit only the transaction of the current generation;
      the Session's gauges return to zero; the supervisor is consistent between
      any two Sessions, with its back-off within bounds.
    - Both peers: a handshake, a registration and an open leave the two sides
      agreeing; along any run of a Session no unexpected message is read, no
      registration is forgotten, and the two sides agree on the services and
      their addresses whenever nothing is in flight.  If both sides keep
      reading while the Session lasts, every registration is answered.
    - Start-up: a client and a server start exactly as configured, or not.
    - Command line: what is accepted, that [check] predicts the start, that
      inputs are read once per reference, and that no secret can influence the
      output (two runs that differ in secrets only print the same).
    - Redaction: what [Debug] shows of a message, an identity or a
      configuration does not depend on its tokens, keys, SessionIds and
      ConnectionIds.

    Where the code does not do what its comments say, a theorem states what it
    does: a read abandoned inside a frame loses the stream position
    ([abandoned_read_desynchronises]); the late acknowledgement of an
    unregistered transaction ends the Session ([unregister_late_ack]); a
    Session that is seen by the drain before its queue is installed is never
    notified ([drain_notifies]); the ordinary end of a QUIC Session polls a
    finished task again and panics ([quic_ordinary_end_panics]); cancelling a
    client ends its Session within the poll that sees it, so that no Open task
    is given the drain window ([cancellation_abandons_tasks]).

    ** Bounds and fuel

    Loops are over lists the code iterates, over the rounds given as an
    argument, or over the four draws of the jitter.  Two definitions have fuel:
    the decoder of a sequence in [Codec], with the length of the input (an
    element takes at least one byte, so more cannot be read), and
    [run_teardown] in [Quic], with two more than the stream tasks to join, which
    [quic_teardown_terminates] shows to be enough.
    [usize] is 64 bits.  A [Duration] and an [Instant] are integer nanoseconds.

    ** Not modelled

    The byte streams of rustls, tungstenite and quinn, the relay's copy loop
    (the eggress crates): only their outcomes appear.  Postcard, TOML and PEM
    parsing are parameters.  The text of JSON, clap's argument parsing, log
    lines and zeroising of secrets do not change values; how the standard
    library prints numbers, addresses and quoted text is a parameter of
    [render].  The scheduler is not modelled: its fairness is a hypothesis of
    [registrations_answered] (each side reads on), its promptness one of
    [server_shutdown_completes] ([responsive]); [quic_shutdown_settles] shows a
    way to the end that is always open, and the other termination theorems
    bound the steps of the loop itself.  [system_step] has correlated
    registrations (not those of a 1.0 peer), no deadlines, no failed writes and
    no caller that gives up; what these do is stated for each side alone.
    Builds with optional features off are restrictions of the ones modelled;
    the crate roots only re-export, and tests, fuzz targets, examples and
    scripts are not part of the program. *)

From Stdlib Require Export ZArith Lia.
From Stdlib.Strings Require Byte.
From stdpp Require Export base relations gmap sets list strings numbers sorting option tactics.

Open Scope Z_scope.

(** ** Results

    Rust's [Result<A, E>], with the error type first so that [result E] is a
    monad in stdpp's sense: [x ← e; k] is the [?] operator. *)

Inductive result (E A : Type) : Type :=
| Ok (a : A)
| Err (e : E).
Arguments Ok {E A} a.
Arguments Err {E A} e.

#[export] Instance result_ret {E} : MRet (result E) := fun A a => Ok a.
#[export] Instance result_bind {E} : MBind (result E) :=
  fun A B f r => match r with Ok a => f a | Err e => Err e end.

Definition is_ok {E A} (r : result E A) : bool :=
  match r with Ok _ => true | Err _ => false end.

(** [Result::map_err]. *)
Definition map_err {E F A} (f : E → F) (r : result E A) : result F A :=
  match r with Ok a => Ok a | Err e => Err (f e) end.

(** [Option::ok_or]. *)
Definition ok_or {E A} (o : option A) (e : E) : result E A :=
  match o with Some a => Ok a | None => Err e end.

(** [if c { return Err(e); }]. *)
Definition ensure {E} (c : bool) (e : E) : result E unit :=
  if c then Ok tt else Err e.

Lemma ensure_ok {E} (c : bool) (e : E) u : ensure c e = Ok u → c = true.
Proof. by destruct c. Qed.

Lemma bind_ok {E A B} (r : result E A) (f : A → result E B) b :
  r ≫= f = Ok b → ∃ a, r = Ok a ∧ f a = Ok b.
Proof. destruct r; [eauto | done]. Qed.

Lemma map_err_ok {E F A} (f : E → F) (r : result E A) a :
  map_err f r = Ok a ↔ r = Ok a.
Proof. destruct r; simpl; naive_solver. Qed.

Lemma ok_or_ok {E A} (o : option A) (e : E) a : ok_or o e = Ok a ↔ o = Some a.
Proof. destruct o; simpl; naive_solver. Qed.

Lemma is_ok_true {E A} (r : result E A) : is_ok r = true ↔ ∃ a, r = Ok a.
Proof. destruct r; simpl; naive_solver. Qed.

(** ** Bytes and machine integers

    A [u8] is the kernel's [byte]; wider unsigned integers are [Z] values kept
    in [0 <= z < 2 ^ w], with the wrap-around of atomics, the [checked_*] and
    the [saturating_*] operations written out. *)

Abbreviation byte := Corelib.Init.Byte.byte.

Definition byte_val (b : byte) : Z := Z.of_N (Byte.to_N b).
Definition byte_of (z : Z) : byte :=
  default Byte.x00 (Byte.of_N (Z.to_N (z mod 256))).

Definition len {A} (l : list A) : Z := Z.of_nat (length l).

Definition fits (w z : Z) : bool := (0 <=? z) && (z <? 2 ^ w).
Definition umax (w : Z) : Z := 2 ^ w - 1.
Definition wrap (w z : Z) : Z := z mod 2 ^ w.
Definition checked_add (w a b : Z) : option Z :=
  if a + b <? 2 ^ w then Some (a + b) else None.
Definition saturating_add (w a b : Z) : Z := Z.min (a + b) (umax w).
Definition try_into (w z : Z) : option Z := if fits w z then Some z else None.

(** [to_be_bytes] over [n] bytes and [from_be_bytes]. *)
Fixpoint to_be (n : nat) (z : Z) : list byte :=
  match n with
  | O => []
  | S m => to_be m (z / 256) ++ [byte_of z]
  end.

Definition from_be (bs : list byte) : Z :=
  foldl (fun acc b => acc * 256 + byte_val b) 0 bs.

#[export] Instance byte_eq_dec : EqDecision byte := Byte.byte_eq_dec.

#[export] Program Instance byte_countable : Countable byte :=
  inj_countable Byte.to_N Byte.of_N _.
Next Obligation. intros b. apply Byte.of_to_N. Qed.

Lemma byte_val_range b : 0 <= byte_val b < 256.
Proof.
  unfold byte_val. pose proof (Byte.to_N_bounded b). lia.
Qed.

Lemma byte_of_val b : byte_of (byte_val b) = b.
Proof.
  unfold byte_of. rewrite Z.mod_small by apply byte_val_range.
  unfold byte_val. by rewrite N2Z.id, Byte.of_to_N.
Qed.

Lemma byte_val_of z : byte_val (byte_of z) = z mod 256.
Proof.
  unfold byte_of, byte_val.
  pose proof (Z.mod_pos_bound z 256 ltac:(lia)) as Hz.
  destruct (Byte.of_N (Z.to_N (z mod 256))) as [b|] eqn:E; simpl.
  - apply Byte.to_of_N in E. lia.
  - apply Byte.of_N_None_iff in E. lia.
Qed.

Lemma byte_val_inj b1 b2 : byte_val b1 = byte_val b2 → b1 = b2.
Proof. intros H. by rewrite <-(byte_of_val b1), H, byte_of_val. Qed.

Lemma len_nonneg {A} (l : list A) : 0 <= len l.
Proof. unfold len. lia. Qed.

Lemma len_nil {A} : len ([] : list A) = 0.
Proof. done. Qed.

Lemma len_cons {A} (x : A) l : len (x :: l) = 1 + len l.
Proof. unfold len. simpl. lia. Qed.

Lemma len_app {A} (l k : list A) : len (l ++ k) = len l + len k.
Proof. unfold len. rewrite length_app. lia. Qed.

Lemma length_to_be n z : length (to_be n z) = n.
Proof.
  revert z; induction n as [|n IH]; intros z; simpl; [done|].
  rewrite length_app, IH. simpl. lia.
Qed.

Lemma from_be_snoc bs b : from_be (bs ++ [b]) = from_be bs * 256 + byte_val b.
Proof. unfold from_be. by rewrite foldl_app. Qed.

Lemma from_to_be n z : 0 <= z < 256 ^ Z.of_nat n → from_be (to_be n z) = z.
Proof.
  revert z; induction n as [|n IH]; intros z Hz; simpl.
  - change (256 ^ Z.of_nat 0) with 1 in Hz. assert (z = 0) by lia. by subst.
  - rewrite Nat2Z.inj_succ, Z.pow_succ_r in Hz by lia.
    rewrite from_be_snoc, byte_val_of, IH.
    + pose proof (Z.div_mod z 256). lia.
    + split; [apply Z.div_pos; lia|]. apply Z.div_lt_upper_bound; lia.
Qed.

Lemma from_be_range bs : 0 <= from_be bs < 256 ^ len bs.
Proof.
  induction bs as [|b bs IH] using rev_ind.
  - unfold from_be, len. simpl. lia.
  - rewrite from_be_snoc, len_app, Z.pow_add_r by (apply len_nonneg || done).
    change (256 ^ len [b]) with 256.
    pose proof (byte_val_range b). nia.
Qed.

Lemma fits_iff w z : fits w z = true ↔ 0 <= z < 2 ^ w.
Proof. unfold fits. rewrite andb_true_iff, Z.leb_le, Z.ltb_lt. done. Qed.

Lemma wrap_small w z : 0 <= z < 2 ^ w → wrap w z = z.
Proof. intros. by apply Z.mod_small. Qed.

Lemma wrap_range w z : 0 <= w → 0 <= wrap w z < 2 ^ w.
Proof. intros. apply Z.mod_pos_bound. by apply Z.pow_pos_nonneg. Qed.

Lemma wrap_sub_add w a b : wrap w (wrap w (a + b) - b) = wrap w a.
Proof.
  unfold wrap. rewrite Zminus_mod_idemp_l. f_equal. lia.
Qed.

(** ** Slices *)

Lemma take_len_app {A} (l k : list A) n :
  n = len l → take (Z.to_nat n) (l ++ k) = l.
Proof. intros ->. unfold len. rewrite Nat2Z.id. apply take_app_length. Qed.

Lemma drop_len_app {A} (l k : list A) n :
  n = len l → drop (Z.to_nat n) (l ++ k) = k.
Proof. intros ->. unfold len. rewrite Nat2Z.id. apply drop_app_length. Qed.

Lemma len_take {A} (l : list A) n : 0 <= n <= len l → len (take (Z.to_nat n) l) = n.
Proof. unfold len. rewrite length_take. lia. Qed.

Lemma len_drop {A} (l : list A) n : 0 <= n <= len l → len (drop (Z.to_nat n) l) = len l - n.
Proof. unfold len. rewrite length_drop. lia. Qed.

Lemma filter_all {A} (P : A → Prop) `{∀ x, Decision (P x)} l : Forall P l → filter P l = l.
Proof.
  induction 1 as [|x l Hx _ IH]; [done|]. by rewrite filter_cons_True, IH.
Qed.

Lemma filter_none {A} (P : A → Prop) `{∀ x, Decision (P x)} l :
  Forall (fun x => ¬ P x) l → filter P l = [].
Proof.
  induction 1 as [|x l Hx _ IH]; [done|]. by rewrite filter_cons_False, IH.
Qed.

(** ** Values of a finite map

    What a walk over [HashMap::values] visits, in some order. *)

Section map_values.
Context {K A : Type} `{Countable K}.
Implicit Types m : gmap K A.

Definition values m : list A := (map_to_list m).*2.

Lemma values_empty : values ∅ = [].
Proof. unfold values. by rewrite map_to_list_empty. Qed.

Lemma values_insert m k x : m !! k = None → values (<[k := x]> m) ≡ₚ x :: values m.
Proof. intros. unfold values. by rewrite map_to_list_insert. Qed.

Lemma values_delete m k x : m !! k = Some x → values m ≡ₚ x :: values (delete k m).
Proof. intros. unfold values. by rewrite <-(map_to_list_delete m k x). Qed.

Lemma elem_of_values m x : x ∈ values m ↔ ∃ k, m !! k = Some x.
Proof.
  unfold values. rewrite list_elem_of_fmap. setoid_rewrite <-elem_of_map_to_list.
  split; [intros ([k y] & -> & ?); eauto | intros (k & ?); by exists (k, x)].
Qed.

Lemma length_values m : length (values m) = size m.
Proof. unfold values. by rewrite length_fmap, length_map_to_list. Qed.

Lemma map_to_list_filter (P : K * A → Prop) `{∀ x, Decision (P x)} m :
  map_to_list (filter P m) ≡ₚ filter P (map_to_list m).
Proof.
  rewrite map_filter_alt, map_to_list_to_map; [done|].
  apply (sublist_NoDup _ (map_to_list m).*1); [apply NoDup_fst_map_to_list|].
  apply fmap_sublist, sublist_filter.
Qed.

Lemma values_filter (Q : A → Prop) `{∀ x, Decision (Q x)} m :
  values (filter (fun kv => Q kv.2) m) ≡ₚ filter Q (values m).
Proof.
  unfold values. rewrite map_to_list_filter. generalize (map_to_list m). intros l.
  induction l as [|[k x] l IH]; [done|].
  destruct (decide (Q x)); [rewrite !filter_cons_True | rewrite !filter_cons_False]; simpl;
    rewrite ?filter_cons_True, ?filter_cons_False by done; by rewrite ?IH.
Qed.

Lemma values_split (f : A → bool) m :
  values m ≡ₚ filter (fun x => f x = true) (values m)
              ++ values (filter (fun kv => f kv.2 = false) m).
Proof.
  pose proof (values_filter (fun x => f x = false) m) as Hf. cbv beta in Hf. rewrite Hf.
  rewrite <-(filter_app_complement (fun x => f x = true)) at 1. f_equiv.
  erewrite list_filter_iff; [done|]. intros x. simpl. by rewrite not_true_iff_false.
Qed.

Lemma values_alter_Some (f : A → A) m k x :
  m !! k = Some x → values (alter f k m) ≡ₚ f x :: values (delete k m).
Proof.
  intros E. assert (alter f k m = <[k := f x]> (delete k m)) as ->.
  { apply map_eq. intros i. rewrite lookup_alter, lookup_insert, lookup_delete.
    repeat case_decide; simplify_eq; rewrite ?E; done. }
  apply values_insert, lookup_delete_eq.
Qed.

(** An in-place change that [g] does not see. *)
Lemma values_alter {B} (f : A → A) (g : A → B) m k :
  (∀ x, g (f x) = g x) → g <$> values (alter f k m) ≡ₚ g <$> values m.
Proof.
  intros Hg. destruct (m !! k) as [x|] eqn:E; [|by rewrite alter_id'].
  rewrite (values_alter_Some f m k x E), (values_delete m k x E). simpl. by rewrite Hg.
Qed.

Lemma values_alter_omap {B} (f : A → A) (g : A → option B) m k :
  (∀ x, g (f x) = g x) → omap g (values (alter f k m)) ≡ₚ omap g (values m).
Proof.
  intros Hg. destruct (m !! k) as [x|] eqn:E; [|by rewrite alter_id'].
  rewrite (values_alter_Some f m k x E), (values_delete m k x E). simpl. by rewrite Hg.
Qed.
End map_values.

Lemma NoDup_fmap_submultiset {A B} (f : A → B) (l l' extra : list A) :
  NoDup (f <$> l) → l ≡ₚ extra ++ l' → NoDup (f <$> l').
Proof.
  intros Hn Hp. rewrite Hp, fmap_app in Hn. by apply list.NoDup_app in Hn as (_ & _ & ?).
Qed.

(** ** Automation

    [tunnel] collects the size and range facts of the library; [res_simpl]
    takes apart one step of a chain of [?] operators; [break] splits the
    tests of a translated body. *)

Create HintDb tunnel.
Create Rewrite HintDb tunnel.
#[export] Hint Resolve len_nonneg byte_val_range : tunnel.
#[export] Hint Rewrite @len_nil @len_cons @len_app : tunnel.
#[export] Hint Rewrite length_to_be : tunnel.

Ltac len_lia := autorewrite with tunnel in *; unfold len in *; simpl in *; lia.

Ltac res_simpl :=
  repeat match goal with
  | H : ?r ≫= _ = Ok _ |- _ => apply bind_ok in H as (? & ? & H)
  | H : mret _ = Ok _ |- _ => injection H as H
  | H : Ok _ = Ok _ |- _ => injection H as H
  | H : Err _ = Ok _ |- _ => discriminate H
  | H : Ok _ = Err _ |- _ => discriminate H
  | H : ensure _ _ = Ok _ |- _ => apply ensure_ok in H
  | H : map_err _ _ = Ok _ |- _ => apply map_err_ok in H
  | H : ok_or _ _ = Ok _ |- _ => apply ok_or_ok in H
  | H : unit |- _ => destruct H
  end.

Ltac break :=
  repeat (case_match; simplify_eq/=).

Ltac bools :=
  repeat match goal with
  | H : _ && _ = true |- _ => apply andb_true_iff in H as [? ?]
  | H : _ || _ = false |- _ => apply orb_false_iff in H as [? ?]
  | H : negb _ = true |- _ => apply negb_true_iff in H
  | H : negb _ = false |- _ => apply negb_false_iff in H
  | H : (_ <? _) = true |- _ => apply Z.ltb_lt in H
  | H : (_ <? _) = false |- _ => apply Z.ltb_ge in H
  | H : (_ <=? _) = true |- _ => apply Z.leb_le in H
  | H : (_ <=? _) = false |- _ => apply Z.leb_gt in H
  | H : (_ =? _) = true |- _ => apply Z.eqb_eq in H
  | H : (_ =? _) = false |- _ => apply Z.eqb_neq in H
  | H : bool_decide _ = true |- _ => apply bool_decide_eq_true in H
  | H : bool_decide _ = false |- _ => apply bool_decide_eq_false in H
  end.

(** Permutations of concatenations, by counting occurrences. *)
Ltac perm_count :=
  repeat match goal with
  | H : ?l ≡ₚ _ |- _ => rewrite (Permutation_count_occ (fun x y => decide (x = y))) in H
  end;
  rewrite (Permutation_count_occ (fun x y => decide (x = y)));
  let x := fresh "x" in intros x;
  repeat match goal with
  | H : ∀ y, count_occ _ _ y = count_occ _ _ y |- _ => specialize (H x)
  end;
  rewrite ?count_occ_app in *; lia.
