(* ===== verification/Text.v ===== *)
(** * Text and network-address parsing of the Rust standard library

    The parts of [std] that the sources use on text: [str] as a sequence of
    Unicode scalar values with its UTF-8 length and bytes, the character
    classes, decimal parsing of integers and [Ipv6Addr::from_str].  Nothing of
    this file is code of the repository; the validators of [Proto], [Endpoint]
    and [CliConfig] are built on it. *)

From S2P Require Import Prelude.

(** A [str]: the list of its [char]s, each a Unicode scalar value. *)
Abbreviation rstr := (list Z).

Definition scalar (c : Z) : bool :=
  ((0 <=? c) && (c <=? 0xD7FF)) || ((0xE000 <=? c) && (c <=? 0x10FFFF)).

Definition valid_str (s : rstr) : bool := forallb scalar s.

(** A literal of the sources (ASCII). *)
Definition lit (s : string) : rstr :=
  (fun a => Z.of_N (Ascii.N_of_ascii a)) <$> String.list_ascii_of_string s.

(** [char::encode_utf8]; [str::len] and [str::bytes] are in bytes. *)
Definition utf8 (c : Z) : list Z :=
  if c <? 0x80 then [c]
  else if c <? 0x800 then [0xC0 + c / 64; 0x80 + c mod 64]
  else if c <? 0x10000 then
    [0xE0 + c / 4096; 0x80 + c / 64 mod 64; 0x80 + c mod 64]
  else
    [0xF0 + c / 262144; 0x80 + c / 4096 mod 64; 0x80 + c / 64 mod 64; 0x80 + c mod 64].

Definition str_bytes (s : rstr) : list Z := s ≫= utf8.
Definition str_len (s : rstr) : Z := len (str_bytes s).

(** [char::is_control] (general category Cc) and [char::is_whitespace]
    (the Unicode White_Space property). *)
Definition is_control (c : Z) : bool :=
  ((0 <=? c) && (c <=? 0x1F)) || ((0x7F <=? c) && (c <=? 0x9F)).

Definition is_whitespace (c : Z) : bool :=
  ((0x09 <=? c) && (c <=? 0x0D)) || (c =? 0x20) || (c =? 0x85) || (c =? 0xA0)
  || (c =? 0x1680) || ((0x2000 <=? c) && (c <=? 0x200A)) || (c =? 0x2028)
  || (c =? 0x2029) || (c =? 0x202F) || (c =? 0x205F) || (c =? 0x3000).

Definition is_ascii_digit (b : Z) : bool := (48 <=? b) && (b <=? 57).
Definition is_ascii_alphanumeric (b : Z) : bool :=
  is_ascii_digit b || ((65 <=? b) && (b <=? 90)) || ((97 <=? b) && (b <=? 122)).

(** [str::contains(char)] and [slice::contains]. *)
Definition has_char (c : Z) (s : rstr) : bool := existsb (Z.eqb c) s.

(** [str::find(char)] used to cut a string, and [str::rsplit_once(char)]. *)
Fixpoint cut_first (c : Z) (s : rstr) : option (rstr * rstr) :=
  match s with
  | [] => None
  | x :: s' =>
      if x =? c then Some ([], s')
      else '(a, b) ← cut_first c s'; Some (x :: a, b)
  end.

Fixpoint cut_last (c : Z) (s : rstr) : option (rstr * rstr) :=
  match s with
  | [] => None
  | x :: s' =>
      match cut_last c s' with
      | Some (a, b) => Some (x :: a, b)
      | None => if x =? c then Some ([], s') else None
      end
  end.

(** [str::strip_prefix(char)]. *)
Definition strip_prefix (c : Z) (s : rstr) : option rstr :=
  match s with
  | x :: s' => if x =? c then Some s' else None
  | [] => None
  end.

(** ** Integers in decimal: [u16::from_str] and the like *)

Definition digits_val (s : rstr) : Z := foldl (fun acc c => acc * 10 + (c - 48)) 0 s.

Definition parse_digits (w : Z) (s : rstr) : option Z :=
  if forallb is_ascii_digit s && (0 <? len s) && (digits_val s <? 2 ^ w)
  then Some (digits_val s) else None.

Definition parse_uint (w : Z) (s : rstr) : option Z :=
  match s with
  | 43 :: (_ :: _) as r => parse_digits w (tail r)
  | _ => parse_digits w s
  end.

(** ** [Ipv6Addr::from_str]

    The recursive-descent parser of [core::net::parser], over the bytes of the
    text: a parser returns the value and the rest, [None] leaves the input
    where it was ([read_atomically]). *)

Definition hex_digit (c : Z) : option Z :=
  if is_ascii_digit c then Some (c - 48)
  else if (65 <=? c) && (c <=? 70) then Some (c - 55)
  else if (97 <=? c) && (c <=? 102) then Some (c - 87)
  else None.

Definition to_digit (radix c : Z) : option Z :=
  d ← hex_digit c; if d <? radix then Some d else None.

Fixpoint span_digits (radix : Z) (s : list Z) : list Z * list Z :=
  match s with
  | [] => ([], [])
  | c :: s' =>
      match to_digit radix c with
      | Some d => let '(ds, r) := span_digits radix s' in (d :: ds, r)
      | None => ([], s)
      end
  end.

(** [read_number]: at most [max] digits, a value under [2 ^ w], and without
    [zero_prefix] no leading zero on a longer number. *)
Definition read_number (w radix : Z) (max : nat) (zero_prefix : bool) (s : list Z)
    : option (Z * list Z) :=
  let '(ds, r) := span_digits radix s in
  let v := foldl (fun acc d => acc * radix + d) 0 ds in
  if (0 <? length ds)%nat && (length ds <=? max)%nat && (v <? 2 ^ w)
     && (zero_prefix || negb (bool_decide (head ds = Some 0)) || (length ds =? 1)%nat)
  then Some (v, r) else None.

Definition read_given_char (c : Z) (s : list Z) : option (list Z) := strip_prefix c s.

Definition read_separator {A} (sep : Z) (i : nat) (inner : list Z → option (A * list Z))
    (s : list Z) : option (A * list Z) :=
  match i with
  | O => inner s
  | S _ => read_given_char sep s ≫= inner
  end.

Fixpoint read_octets (i n : nat) (s : list Z) : option (list Z * list Z) :=
  match n with
  | O => Some ([], s)
  | S n' =>
      '(o, r) ← read_separator 46 i (read_number 8 10 3 false) s;
      '(os, r') ← read_octets (S i) n' r;
      Some (o :: os, r')
  end.

Definition read_ipv4_addr (s : list Z) : option (list Z * list Z) := read_octets 0 4 s.

(** [read_groups] into a slice of [i + n] slots, from slot [i]: the groups
    read, whether they end in an embedded IPv4 address, and the rest. *)
Fixpoint read_groups (i n : nat) (s : list Z) : list Z * bool * list Z :=
  match n with
  | O => ([], false, s)
  | S n' =>
      let group :=
        match read_separator 58 i (read_number 16 16 4 true) s with
        | Some (g, r) =>
            let '(gs, v4, r') := read_groups (S i) n' r in (g :: gs, v4, r')
        | None => ([], false, s)
        end in
      match n' with
      | O => group
      | S _ =>
          match read_separator 58 i read_ipv4_addr s with
          | Some ([a; b; c; d], r) => ([a * 256 + b; c * 256 + d], true, r)
          | _ => group
          end
      end
  end.

Definition read_ipv6_addr (s : list Z) : option (list Z * list Z) :=
  let '(hd, hd4, r) := read_groups 0 8 s in
  if (length hd =? 8)%nat then Some (hd, r)
  else if hd4 then None
  else
    r1 ← read_given_char 58 r;
    r2 ← read_given_char 58 r1;
    let '(tl, _, r3) := read_groups 0 (7 - length hd) r2 in
    Some (hd ++ replicate (8 - length hd - length tl) 0 ++ tl, r3).

Definition parse_ipv6 (s : rstr) : option (list Z) :=
  match read_ipv6_addr (str_bytes s) with
  | Some (groups, []) => Some groups
  | _ => None
  end.

Definition is_ipv6 (s : rstr) : bool := bool_decide (is_Some (parse_ipv6 s)).

(** ** Facts *)

Example ipv6_accepts :
  forallb (fun s => is_ipv6 (lit s))
    ["::1"; "::"; "2001:db8::1"; "1:2:3:4:5:6:7:8"; "::ffff:127.0.0.1"; "fe80::1:2:3:4:5:6"] = true.
Proof. vm_compute. reflexivity. Qed.

Example ipv6_rejects :
  existsb (fun s => is_ipv6 (lit s))
    [""; ":"; ":::"; "foo:bar"; "1:2:3:4:5:6:7"; "1:2:3:4:5:6:7:8:9"; "12345::"; "::1%eth0";
     "::256.0.0.1"; "::01.2.3.4"; "not-an-address"; "1::2::3"] = false.
Proof. vm_compute. reflexivity. Qed.

Lemma utf8_len c : 1 <= len (utf8 c) <= 4.
Proof. unfold utf8. repeat case_match; simpl; unfold len; simpl; lia. Qed.

Lemma str_bytes_cons c s : str_bytes (c :: s) = utf8 c ++ str_bytes s.
Proof. done. Qed.

Lemma str_len_app s t : str_len (s ++ t) = str_len s + str_len t.
Proof. unfold str_len, str_bytes. by rewrite bind_app, len_app. Qed.

Lemma str_len_cons c s : str_len (c :: s) = len (utf8 c) + str_len s.
Proof. unfold str_len. by rewrite str_bytes_cons, len_app. Qed.

Lemma str_len_nonneg s : 0 <= str_len s.
Proof. apply len_nonneg. Qed.

Lemma len_le_str_len s : len s <= str_len s.
Proof.
  induction s as [|c s IH]; [done|].
  rewrite str_len_cons, len_cons. pose proof (utf8_len c). lia.
Qed.

(** A byte of the UTF-8 form below [0x80] is a character of its own. *)
Lemma str_bytes_all (f : Z → bool) s :
  (∀ b, 0x80 <= b → f b = false) → valid_str s = true →
  forallb f (str_bytes s) = forallb f s.
Proof.
  intros Hf. induction s as [|c s IH]; [done|].
  rewrite str_bytes_cons, forallb_app. unfold valid_str. cbn [forallb]. intros Hs. bools.
  rewrite IH by done. f_equal.
  assert (0 <= c) as Hc by (unfold scalar in *; lia).
  unfold utf8. repeat case_match; bools; simpl.
  - by rewrite andb_true_r.
  - rewrite (Hf (0xC0 + c / 64)), (Hf c) by (try (pose proof (Z.div_pos c 64)); lia). done.
  - rewrite (Hf (0xE0 + c / 4096)), (Hf c) by (try (pose proof (Z.div_pos c 4096)); lia). done.
  - rewrite (Hf (0xF0 + c / 262144)), (Hf c) by (try (pose proof (Z.div_pos c 262144)); lia). done.
Qed.

Lemma cut_first_app c s t : has_char c s = false → cut_first c (s ++ c :: t) = Some (s, t).
Proof.
  induction s as [|x s IH]; simpl; intros H.
  - by rewrite Z.eqb_refl.
  - bools. rewrite (proj2 (Z.eqb_neq x c)) by lia. by rewrite IH.
Qed.

Lemma cut_first_Some c s a b :
  cut_first c s = Some (a, b) → s = a ++ c :: b ∧ has_char c a = false.
Proof.
  revert a b; induction s as [|x s IH]; intros a b; simpl; [done|].
  destruct (x =? c) eqn:E; bools; [intros; simplify_eq; done|].
  intros ([a' b'] & H & ?)%bind_Some. simplify_eq.
  destruct (IH _ _ H) as [-> Ha]. split; [done|]. simpl.
  rewrite Ha. by rewrite (proj2 (Z.eqb_neq c x)) by lia.
Qed.

Lemma cut_last_none c s : cut_last c s = None ↔ has_char c s = false.
Proof.
  induction s as [|x s IH]; simpl; [done|].
  destruct (cut_last c s) as [[a b]|]; simpl.
  - split; [done|]. intros ?; bools. naive_solver.
  - destruct (x =? c) eqn:E; bools; subst.
    + by rewrite Z.eqb_refl.
    + rewrite (proj2 (Z.eqb_neq c x)) by lia. simpl. naive_solver.
Qed.

Lemma cut_last_Some c s a b :
  cut_last c s = Some (a, b) → s = a ++ c :: b ∧ has_char c b = false.
Proof.
  revert a b; induction s as [|x s IH]; intros a b; simpl; [done|].
  destruct (cut_last c s) as [[a' b']|] eqn:E; [intros; simplify_eq|].
  - destruct (IH _ _ eq_refl) as [-> ?]. done.
  - destruct (x =? c) eqn:Ex; bools; intros; simplify_eq.
    split; [done|]. by apply cut_last_none.
Qed.

Lemma cut_last_app c s t : has_char c t = false → cut_last c (s ++ c :: t) = Some (s, t).
Proof.
  intros Ht. induction s as [|x s IH]; simpl.
  - rewrite (proj2 (cut_last_none c t) Ht). by rewrite Z.eqb_refl.
  - by rewrite IH.
Qed.

Lemma has_char_app c s t : has_char c (s ++ t) = has_char c s || has_char c t.
Proof. apply existsb_app. Qed.

Lemma digits_no_char c s :
  is_ascii_digit c = false → forallb is_ascii_digit s = true → has_char c s = false.
Proof.
  intros Hc. induction s as [|x s IH]; [done|]. simpl. intros; bools.
  rewrite IH by done. destruct (c =? x) eqn:E; bools; [subst; congruence | done].
Qed.

Lemma digits_val_nonneg s : forallb is_ascii_digit s = true → 0 <= digits_val s.
Proof.
  unfold digits_val. assert (∀ acc, 0 <= acc → forallb is_ascii_digit s = true →
    0 <= foldl (fun acc c => acc * 10 + (c - 48)) acc s) as H; [|by apply H].
  induction s as [|c s IH]; intros acc Ha Hs; [done|]. cbn [foldl forallb] in *. bools.
  apply IH; [|done]. unfold is_ascii_digit in *. bools. lia.
Qed.

(** A string of digits is never a signed number, so [from_str] is
    [parse_digits] on it. *)
Lemma parse_uint_digits w s :
  forallb is_ascii_digit s = true → parse_uint w s = parse_digits w s.
Proof.
  intros H. destruct s as [|c [|d s]]; try done.
  - unfold parse_uint. simpl in H. repeat case_match; done.
  - simpl in H. bools. unfold parse_uint. repeat case_match; simplify_eq; done.
Qed.
