(* ===== verification/Proto.v ===== *)
(** * Wire vocabulary of crates/eggtunnel-proto/src/lib.rs

    Identifiers, bounded newtypes and their validating constructors,
    capability sets, message types and the payload structs.  A Rust newtype
    whose field is private is a record here; what its constructor guarantees
    is the boolean [wf_*] predicate beside it. *)

From S2P Require Import Prelude Text.

(** ** Constants and errors *)

Definition MAGIC : list byte := byte_of <$> [69; 84; 85; 78].
Definition HEADER_LEN : Z := 14.
Definition MAX_FRAME_BYTES : Z := 1024 * 1024.
Definition MAX_NAME_BYTES : Z := 128.
Definition MAX_DIAGNOSTIC_BYTES : Z := 256.
Definition MAX_CAPABILITIES : Z := 32.
Definition MAX_TARGET_HOST_BYTES : Z := 253.
Definition MAX_AUTH_TOKEN_BYTES : Z := 4096.
Definition PROTOCOL_MAJOR : Z := 1.
Definition PROTOCOL_MINOR : Z := 1.
Definition CAPABILITY_REGISTER_REJECT : Z := 1.
Definition CAPABILITY_DRAIN_DEADLINE : Z := 2.

Inductive ProtocolError :=
| InvalidMagic
| UnsupportedVersion (major minor : Z)
| UnknownMessage (id : Z)
| TruncatedFrame
| FrameTooLarge
| InvalidPayload
| InvalidName
| InvalidBind
| InvalidTarget
| UnexpectedMessage.

(** ** Identifiers *)

Record ProtocolVersion := mkProtocolVersion { pv_major : Z; pv_minor : Z }.

Definition CURRENT : ProtocolVersion :=
  mkProtocolVersion PROTOCOL_MAJOR PROTOCOL_MINOR.

Record SessionId := mkSessionId { sid_bytes : list byte }.
Record ServiceId := mkServiceId { svc_id : Z }.
Record ConnectionId := mkConnectionId { cid_bytes : list byte }.

(** [getrandom::fill] is the operating system's: its outcome is an argument. *)
Definition SessionId_generate (fill : option (list byte)) : option SessionId :=
  mkSessionId <$> fill.

Definition ConnectionId_generate (fill : option (list byte)) : option ConnectionId :=
  mkConnectionId <$> fill.

(** [fold(0u8, |diff, (a, b)| diff | (a ^ b)) == 0] over the zipped bytes. *)
Definition constant_time_eq (x y : ConnectionId) : bool :=
  foldl (fun diff '(a, b) => Z.lor diff (Z.lxor (byte_val a) (byte_val b))) 0
    (zip (cid_bytes x) (cid_bytes y)) =? 0.

#[export] Instance SessionId_eq_dec : EqDecision SessionId.
Proof. solve_decision. Defined.
#[export] Instance ServiceId_eq_dec : EqDecision ServiceId.
Proof. solve_decision. Defined.
#[export] Instance ConnectionId_eq_dec : EqDecision ConnectionId.
Proof. solve_decision. Defined.

#[export] Program Instance SessionId_countable : Countable SessionId :=
  inj_countable' sid_bytes mkSessionId _.
Next Obligation. by intros []. Qed.
#[export] Program Instance ServiceId_countable : Countable ServiceId :=
  inj_countable' svc_id mkServiceId _.
Next Obligation. by intros []. Qed.
#[export] Program Instance ConnectionId_countable : Countable ConnectionId :=
  inj_countable' cid_bytes mkConnectionId _.
Next Obligation. by intros []. Qed.

(** ** Bounded text *)

Record ServiceName := mkServiceName { sn_value : rstr }.

(** [b.is_ascii_alphanumeric() || b"-_.".contains(&b)]. *)
Definition name_byte (b : Z) : bool :=
  is_ascii_alphanumeric b || has_char b (lit "-_.").

Definition ServiceName_new (value : rstr) : result ProtocolError ServiceName :=
  if (str_len value =? 0) || (MAX_NAME_BYTES <? str_len value)
     || negb (forallb name_byte (str_bytes value))
  then Err InvalidName
  else Ok (mkServiceName value).

#[export] Instance ServiceName_eq_dec : EqDecision ServiceName.
Proof. solve_decision. Defined.
#[export] Program Instance ServiceName_countable : Countable ServiceName :=
  inj_countable' sn_value mkServiceName _.
Next Obligation. by intros []. Qed.

(** [is_format_char]: the [Cf] characters and the line separators refused. *)
Definition is_format_char (c : Z) : bool :=
  (c =? 0x00AD) || ((0x200B <=? c) && (c <=? 0x200F)) || ((0x2028 <=? c) && (c <=? 0x202E))
  || ((0x2060 <=? c) && (c <=? 0x2064)) || (c =? 0xFEFF).

(** The characters of [/?#@[]\<double quote>'<>] by code point. *)
Definition ambiguous_chars : rstr := [47; 63; 35; 64; 91; 93; 92; 34; 39; 60; 62].

Definition bad_host_char (c : Z) : bool :=
  is_whitespace c || is_control c || is_format_char c || has_char c ambiguous_chars.

Definition validate_target_host (host : rstr) : result ProtocolError unit :=
  if (str_len host =? 0) || (MAX_TARGET_HOST_BYTES <? str_len host)
     || existsb bad_host_char host
  then Err InvalidTarget
  else if has_char 58 host && negb (is_ipv6 host) then Err InvalidTarget
  else Ok tt.

Inductive RequestedBind :=
| Loopback (port : Z)
| Ip (address : list byte) (port : Z).

Record EffectiveBind := mkEffectiveBind { eb_address : list byte; eb_port : Z }.

Record TcpTarget := mkTcpTarget { tt_host : rstr; tt_port : Z }.

Definition TcpTarget_new (host : rstr) (port : Z) : result ProtocolError TcpTarget :=
  validate_target_host host ≫= fun _ =>
  if port =? 0 then Err InvalidTarget else Ok (mkTcpTarget host port).

Record BoundedDiagnostic := mkBoundedDiagnostic { bd_text : rstr }.

Definition BoundedDiagnostic_new (text : rstr) : result ProtocolError BoundedDiagnostic :=
  if MAX_DIAGNOSTIC_BYTES <? str_len text then Err InvalidPayload
  else if existsb (fun c => is_control c || is_format_char c) text then Err InvalidPayload
  else Ok (mkBoundedDiagnostic text).

#[export] Instance RequestedBind_eq_dec : EqDecision RequestedBind.
Proof. solve_decision. Defined.
#[export] Instance EffectiveBind_eq_dec : EqDecision EffectiveBind.
Proof. solve_decision. Defined.
#[export] Instance TcpTarget_eq_dec : EqDecision TcpTarget.
Proof. solve_decision. Defined.

(** ** Capability sets *)

Record Capabilities := mkCapabilities { cap_ids : list Z }.

(** [Vec::dedup]: consecutive repetitions collapse. *)
Fixpoint dedup (l : list Z) : list Z :=
  match l with
  | [] => []
  | x :: l' =>
      match dedup l' with
      | y :: r => if x =? y then y :: r else x :: y :: r
      | [] => [x]
      end
  end.

(** [ids.sort_unstable(); ids.dedup()]. *)
Definition normalize (ids : list Z) : list Z := dedup (merge_sort Z.le ids).

Definition Capabilities_new (ids : list Z) : result ProtocolError Capabilities :=
  if MAX_CAPABILITIES <? len ids then Err InvalidPayload
  else Ok (mkCapabilities (normalize ids)).

Definition supported : Capabilities :=
  mkCapabilities [CAPABILITY_REGISTER_REJECT; CAPABILITY_DRAIN_DEADLINE].

Definition has (c : Capabilities) (id : Z) : bool := existsb (Z.eqb id) (cap_ids c).

Definition intersect (c other : Capabilities) : Capabilities :=
  mkCapabilities (normalize (List.filter (has other) (cap_ids c))).

(** ** Message types *)

Inductive MessageType :=
| MT_ClientHello | MT_ServerHello | MT_Auth | MT_AuthOk | MT_RegisterService
| MT_RegisterAck | MT_UnregisterService | MT_Open | MT_OpenReject | MT_Ping
| MT_Pong | MT_Drain | MT_Error | MT_DataHello | MT_RegisterReject.

(** [message_type as u16]. *)
Definition MessageType_id (t : MessageType) : Z :=
  match t with
  | MT_ClientHello => 1 | MT_ServerHello => 2 | MT_Auth => 3 | MT_AuthOk => 4
  | MT_RegisterService => 5 | MT_RegisterAck => 6 | MT_UnregisterService => 7
  | MT_Open => 8 | MT_OpenReject => 9 | MT_Ping => 10 | MT_Pong => 11
  | MT_Drain => 12 | MT_Error => 13 | MT_DataHello => 14 | MT_RegisterReject => 15
  end.

Definition MessageType_try_from (value : Z) : result ProtocolError MessageType :=
  match value with
  | 1 => Ok MT_ClientHello
  | 2 => Ok MT_ServerHello
  | 3 => Ok MT_Auth
  | 4 => Ok MT_AuthOk
  | 5 => Ok MT_RegisterService
  | 6 => Ok MT_RegisterAck
  | 7 => Ok MT_UnregisterService
  | 8 => Ok MT_Open
  | 9 => Ok MT_OpenReject
  | 10 => Ok MT_Ping
  | 11 => Ok MT_Pong
  | 12 => Ok MT_Drain
  | 13 => Ok MT_Error
  | 14 => Ok MT_DataHello
  | 15 => Ok MT_RegisterReject
  | _ => Err (UnknownMessage value)
  end.

(** ** Payloads *)

Record ClientHello := mkClientHello
  { ch_version : ProtocolVersion; ch_capabilities : Capabilities }.
Record ServerHello := mkServerHello
  { sh_version : ProtocolVersion; sh_capabilities : Capabilities }.
Record Auth := mkAuth { auth_token : list byte }.
Record AuthOk := mkAuthOk { ao_session_id : SessionId }.
Record RegisterService := mkRegisterService
  { rs_service_id : ServiceId; rs_name : ServiceName;
    rs_requested_bind : RequestedBind; rs_target : TcpTarget }.
Record RegisterAck := mkRegisterAck
  { ra_service_id : ServiceId; ra_effective_bind : EffectiveBind }.
Record UnregisterService := mkUnregisterService { us_service_id : ServiceId }.
Record Open := mkOpen { op_service_id : ServiceId; op_connection_id : ConnectionId }.
Record OpenReject := mkOpenReject { or_connection_id : ConnectionId; or_code : Z }.
Record Ping := mkPing { ping_nonce : Z }.
Record Pong := mkPong { pong_nonce : Z }.
Record Drain := mkDrain { drain_deadline_ms : Z }.
Record ErrorMessage := mkErrorMessage { em_code : Z; em_diagnostic : BoundedDiagnostic }.
Record RegisterReject := mkRegisterReject
  { rj_service_id : ServiceId; rj_code : Z; rj_diagnostic : BoundedDiagnostic }.
Record DataHello := mkDataHello
  { dh_session_id : SessionId; dh_service_id : ServiceId; dh_connection_id : ConnectionId }.

Definition Auth_new (token : list byte) : result ProtocolError Auth :=
  if MAX_AUTH_TOKEN_BYTES <? len token then Err InvalidPayload else Ok (mkAuth token).

Inductive Message :=
| M_ClientHello (v : ClientHello)
| M_ServerHello (v : ServerHello)
| M_Auth (v : Auth)
| M_AuthOk (v : AuthOk)
| M_RegisterService (v : RegisterService)
| M_RegisterAck (v : RegisterAck)
| M_UnregisterService (v : UnregisterService)
| M_Open (v : Open)
| M_OpenReject (v : OpenReject)
| M_Ping (v : Ping)
| M_Pong (v : Pong)
| M_Drain (v : Drain)
| M_Error (v : ErrorMessage)
| M_DataHello (v : DataHello)
| M_RegisterReject (v : RegisterReject).

Definition kind (m : Message) : MessageType :=
  match m with
  | M_ClientHello _ => MT_ClientHello
  | M_ServerHello _ => MT_ServerHello
  | M_Auth _ => MT_Auth
  | M_AuthOk _ => MT_AuthOk
  | M_RegisterService _ => MT_RegisterService
  | M_RegisterAck _ => MT_RegisterAck
  | M_UnregisterService _ => MT_UnregisterService
  | M_Open _ => MT_Open
  | M_OpenReject _ => MT_OpenReject
  | M_Ping _ => MT_Ping
  | M_Pong _ => MT_Pong
  | M_Drain _ => MT_Drain
  | M_Error _ => MT_Error
  | M_DataHello _ => MT_DataHello
  | M_RegisterReject _ => MT_RegisterReject
  end.

(** ** What the Rust types guarantee

    The width of an integer field, the length of an array, the validity of a
    [String] and what a validating constructor accepts. *)

Definition wf_version (v : ProtocolVersion) : bool :=
  fits 16 (pv_major v) && fits 16 (pv_minor v).
Definition wf_id (b : list byte) : bool := (length b =? 16)%nat.
Definition wf_service_id (i : ServiceId) : bool := fits 64 (svc_id i).
Definition wf_name (n : ServiceName) : bool :=
  valid_str (sn_value n) && is_ok (ServiceName_new (sn_value n)).
Definition wf_bind (b : RequestedBind) : bool :=
  match b with
  | Loopback port => fits 16 port
  | Ip address port => wf_id address && fits 16 port
  end.
Definition wf_effective (b : EffectiveBind) : bool := wf_id (eb_address b) && fits 16 (eb_port b).
Definition wf_target (t : TcpTarget) : bool :=
  valid_str (tt_host t) && fits 16 (tt_port t) && is_ok (TcpTarget_new (tt_host t) (tt_port t)).
Definition wf_caps (c : Capabilities) : bool :=
  (len (cap_ids c) <=? MAX_CAPABILITIES) && forallb (fits 16) (cap_ids c)
  && bool_decide (normalize (cap_ids c) = cap_ids c).
Definition wf_diagnostic (d : BoundedDiagnostic) : bool :=
  valid_str (bd_text d) && is_ok (BoundedDiagnostic_new (bd_text d)).
Definition wf_auth (a : Auth) : bool := len (auth_token a) <=? MAX_AUTH_TOKEN_BYTES.

Definition wf_message (m : Message) : bool :=
  match m with
  | M_ClientHello v => wf_version (ch_version v) && wf_caps (ch_capabilities v)
  | M_ServerHello v => wf_version (sh_version v) && wf_caps (sh_capabilities v)
  | M_Auth v => wf_auth v
  | M_AuthOk v => wf_id (sid_bytes (ao_session_id v))
  | M_RegisterService v =>
      wf_service_id (rs_service_id v) && wf_name (rs_name v)
      && wf_bind (rs_requested_bind v) && wf_target (rs_target v)
  | M_RegisterAck v => wf_service_id (ra_service_id v) && wf_effective (ra_effective_bind v)
  | M_UnregisterService v => wf_service_id (us_service_id v)
  | M_Open v => wf_service_id (op_service_id v) && wf_id (cid_bytes (op_connection_id v))
  | M_OpenReject v => wf_id (cid_bytes (or_connection_id v)) && fits 16 (or_code v)
  | M_Ping v => fits 64 (ping_nonce v)
  | M_Pong v => fits 64 (pong_nonce v)
  | M_Drain v => fits 32 (drain_deadline_ms v)
  | M_Error v => fits 16 (em_code v) && wf_diagnostic (em_diagnostic v)
  | M_DataHello v =>
      wf_id (sid_bytes (dh_session_id v)) && wf_service_id (dh_service_id v)
      && wf_id (cid_bytes (dh_connection_id v))
  | M_RegisterReject v =>
      wf_service_id (rj_service_id v) && fits 16 (rj_code v) && wf_diagnostic (rj_diagnostic v)
  end.

(** ** Capability sets are sets *)

(** Strictly increasing lists: the normal form of a capability list. *)
Abbreviation ascending := (StronglySorted Z.lt).

Lemma elem_of_dedup x l : x ∈ dedup l ↔ x ∈ l.
Proof.
  induction l as [|y l IH]; simpl; [done|]. rewrite elem_of_cons, <-IH.
  destruct (dedup l) as [|z r]; [set_solver|].
  destruct (y =? z) eqn:E; bools; subst; set_solver.
Qed.

Lemma dedup_ascending l : StronglySorted Z.le l → ascending (dedup l).
Proof.
  induction 1 as [|x l Hl IH Hx]; simpl; [constructor|].
  destruct (dedup l) as [|y r] eqn:E; [repeat constructor|].
  assert (x <= y) by (rewrite list.Forall_forall in Hx; apply Hx, elem_of_dedup; rewrite E; set_solver).
  destruct (x =? y) eqn:Exy; bools; [done|].
  constructor; [done|]. inversion_clear IH as [|? ? ? Hr].
  constructor; [lia|]. eapply Forall_impl; [|exact Hr]. simpl. lia.
Qed.

Lemma normalize_ascending ids : ascending (normalize ids).
Proof.
  apply dedup_ascending, (StronglySorted_merge_sort _); intros ?; intros; lia.
Qed.

Lemma elem_of_normalize x ids : x ∈ normalize ids ↔ x ∈ ids.
Proof. unfold normalize. by rewrite elem_of_dedup, merge_sort_Permutation. Qed.

(** Strictly increasing lists with the same elements are equal. *)
Lemma ascending_ext l k : ascending l → ascending k → (∀ x, x ∈ l ↔ x ∈ k) → l = k.
Proof.
  intros Hl; revert k; induction Hl as [|x l Hl IH Hx]; intros k Hk Heq.
  - destruct k as [|y k]; [done|]. set_solver.
  - destruct Hk as [|y k Hk Hy]; [set_solver|].
    rewrite list.Forall_forall in Hx, Hy.
    assert (x = y) as ->.
    { assert (x ∈ y :: k) as [?|Hxk]%elem_of_cons by (apply Heq; set_solver); [done|].
      assert (y ∈ x :: l) as [?|Hyl]%elem_of_cons by (apply Heq; set_solver); [done|].
      specialize (Hx y Hyl). specialize (Hy x Hxk). lia. }
    f_equal. apply IH; [done|]. intros z.
    assert (y ∉ l) by (intros ?%Hx; lia). assert (y ∉ k) by (intros ?%Hy; lia).
    specialize (Heq z). set_solver.
Qed.

Lemma normalize_idemp ids : normalize (normalize ids) = normalize ids.
Proof.
  apply ascending_ext; try apply normalize_ascending.
  intros x. by rewrite elem_of_normalize.
Qed.

Lemma length_dedup l : (length (dedup l) <= length l)%nat.
Proof.
  induction l as [|x l IH]; simpl; [done|].
  destruct (dedup l) as [|y r]; simpl in *; [lia|]. destruct (x =? y); simpl in *; lia.
Qed.

Lemma len_normalize ids : len (normalize ids) <= len ids.
Proof.
  unfold len, normalize. pose proof (length_dedup (merge_sort Z.le ids)) as H.
  pose proof (Permutation_length (merge_sort_Permutation Z.le ids)). lia.
Qed.

Lemma has_true c id : has c id = true ↔ id ∈ cap_ids c.
Proof.
  unfold has. rewrite existsb_exists. setoid_rewrite <-list_elem_of_In.
  split; [intros (x & ? & ?); bools; by subst|]. intros ?; exists id. by rewrite Z.eqb_refl.
Qed.

Lemma has_intersect a b id : has (intersect a b) id = has a id && has b id.
Proof.
  apply eq_true_iff_eq. rewrite andb_true_iff, !has_true. unfold intersect. simpl.
  rewrite elem_of_normalize, (list_elem_of_In (List.filter _ _)), filter_In.
  by rewrite has_true, <-list_elem_of_In.
Qed.

Lemma merge_sort_in_fits w ids :
  forallb (fits w) ids = true → forallb (fits w) (normalize ids) = true.
Proof.
  rewrite !forallb_forall. intros H x Hx. apply H.
  by rewrite <-list_elem_of_In, <-elem_of_normalize, list_elem_of_In.
Qed.

Lemma Capabilities_new_wf ids c :
  forallb (fits 16) ids = true → Capabilities_new ids = Ok c → wf_caps c = true.
Proof.
  unfold Capabilities_new, wf_caps. intros Hf. case_match; intros; simplify_eq/=; bools.
  rewrite merge_sort_in_fits by done. rewrite bool_decide_eq_true_2 by apply normalize_idemp.
  pose proof (len_normalize ids). rewrite (proj2 (Z.leb_le _ _)) by lia. done.
Qed.

Lemma Capabilities_new_of_wf c : wf_caps c = true → Capabilities_new (cap_ids c) = Ok c.
Proof.
  unfold wf_caps, Capabilities_new. intros; bools. destruct c as [ids]; simpl in *.
  rewrite (proj2 (Z.ltb_ge _ _)) by lia. by f_equal; f_equal.
Qed.

(** ** Identifiers and names *)

Lemma xor_byte_zero a b : Z.lxor (byte_val a) (byte_val b) = 0 ↔ a = b.
Proof.
  rewrite Z.lxor_eq_0_iff. split; [apply byte_val_inj | by intros ->].
Qed.

Lemma ct_fold_zero acc l k :
  length l = length k →
  foldl (fun diff '(a, b) => Z.lor diff (Z.lxor (byte_val a) (byte_val b))) acc (zip l k) = 0
  ↔ acc = 0 ∧ l = k.
Proof.
  revert acc k; induction l as [|a l IH]; intros acc [|b k] Hl; simplify_eq/=; [naive_solver|].
  rewrite IH by lia. rewrite Z.lor_eq_0_iff, xor_byte_zero. naive_solver.
Qed.

Lemma name_byte_ascii b : 0x80 <= b → name_byte b = false.
Proof.
  intros Hb. unfold name_byte, is_ascii_alphanumeric, is_ascii_digit, has_char. simpl.
  rewrite !orb_false_iff, !andb_false_iff, !Z.leb_gt, !Z.eqb_neq. lia.
Qed.

Lemma name_len s : forallb name_byte s = true → str_len s = len s.
Proof.
  induction s as [|c s IH]; [done|]. simpl. intros; bools.
  rewrite str_len_cons, len_cons, IH by done. f_equal.
  destruct (Z.le_gt_cases 0x80 c); [by rewrite name_byte_ascii in * by done|].
  unfold utf8. by rewrite (proj2 (Z.ltb_lt c 0x80)) by lia.
Qed.

Lemma has_char_elem c s : has_char c s = true ↔ c ∈ s.
Proof.
  unfold has_char. rewrite existsb_exists. setoid_rewrite <-list_elem_of_In.
  split; [intros (x & ? & ?); bools; by subst|]. intros ?; exists c. by rewrite Z.eqb_refl.
Qed.

Lemma existsb_false_elem (f : Z → bool) s :
  existsb f s = false ↔ ∀ c, c ∈ s → f c = false.
Proof.
  induction s as [|x s IH]; simpl; [set_solver|].
  rewrite orb_false_iff, IH. set_solver.
Qed.

Lemma bad_host_char_false c :
  bad_host_char c = false ↔
  is_whitespace c = false ∧ is_control c = false ∧ is_format_char c = false ∧
  c ∉ ambiguous_chars.
Proof.
  unfold bad_host_char. rewrite !orb_false_iff, <-has_char_elem, not_true_iff_false. tauto.
Qed.

Lemma target_new_ok host port t :
  TcpTarget_new host port = Ok t ↔
  validate_target_host host = Ok tt ∧ port ≠ 0 ∧ t = mkTcpTarget host port.
Proof.
  unfold TcpTarget_new. destruct (validate_target_host host) as [[]|e]; simpl.
  - destruct (port =? 0) eqn:E; bools; naive_solver.
  - naive_solver.
Qed.

Lemma host_ok_iff host :
  validate_target_host host = Ok tt ↔
  1 <= str_len host <= MAX_TARGET_HOST_BYTES ∧
  existsb bad_host_char host = false ∧
  (has_char 58 host = true → is_ipv6 host = true).
Proof.
  unfold validate_target_host. pose proof (str_len_nonneg host) as Hn.
  destruct (existsb bad_host_char host).
  - rewrite orb_true_r. naive_solver.
  - rewrite orb_false_r. case_match eqn:E.
    + rewrite orb_true_iff, Z.eqb_eq, Z.ltb_lt in E. split; [done|lia].
    + rewrite orb_false_iff, Z.eqb_neq, Z.ltb_ge in E.
      destruct (has_char 58 host), (is_ipv6 host); simpl;
        (split; [intros; split_and?; try done; try lia | naive_solver]).
Qed.

(** ** Properties *)

(** [Capabilities::new] gives a set its one representation: it accepts a
    list exactly when it has at most 32 entries, the result is strictly
    increasing and contains exactly the listed identifiers, and any other
    accepted list with the same identifiers gives the same value. *)
Theorem capabilities_new_canonical ids :
  (is_ok (Capabilities_new ids) = true ↔ len ids <= MAX_CAPABILITIES) ∧
  ∀ c, Capabilities_new ids = Ok c →
    StronglySorted Z.lt (cap_ids c) ∧
    (∀ id, has c id = true ↔ id ∈ ids) ∧
    (∀ ids' c', Capabilities_new ids' = Ok c' → (∀ id, id ∈ ids ↔ id ∈ ids') → c' = c).
Proof.
  unfold Capabilities_new. split; [case_match; bools; simpl; split; done || lia|].
  intros c. case_match; intros [= <-]. setoid_rewrite has_true. simpl.
  split; [apply normalize_ascending|]. split; [intros; apply elem_of_normalize|].
  intros ids' c'. case_match; intros [= <-] Heq. f_equal.
  apply ascending_ext; try apply normalize_ascending.
  intros x. by rewrite !elem_of_normalize, Heq.
Qed.

(** Negotiation is bilateral: [intersect] contains an identifier exactly
    when both lists do, does not depend on which side computes it, and is in
    normal form, so both peers hold the same value. *)
Theorem intersect_bilateral a b :
  (∀ id, has (intersect a b) id = has a id && has b id) ∧
  intersect a b = intersect b a ∧
  StronglySorted Z.lt (cap_ids (intersect a b)).
Proof.
  split; [intros; apply has_intersect|]. split; [|apply normalize_ascending].
  assert (∀ x, x ∈ cap_ids (intersect a b) ↔ x ∈ cap_ids (intersect b a)) as Hx.
  { intros x. by rewrite <-!has_true, !has_intersect, andb_comm. }
  destruct (intersect a b) as [l] eqn:El, (intersect b a) as [k] eqn:Ek. f_equal.
  unfold intersect in *. simplify_eq. apply ascending_ext; try apply normalize_ascending. done.
Qed.

(** [ConnectionId::constant_time_eq] decides equality: folding the XOR of
    the zipped bytes is zero exactly for equal 16-byte identifiers. *)
Theorem constant_time_eq_correct x y :
  wf_id (cid_bytes x) = true → wf_id (cid_bytes y) = true →
  constant_time_eq x y = true ↔ x = y.
Proof.
  unfold wf_id, constant_time_eq. rewrite !Nat.eqb_eq. intros Hx Hy.
  rewrite Z.eqb_eq, ct_fold_zero by lia. destruct x, y; simpl in *. naive_solver.
Qed.

Lemma constant_time_eq_correct_witness :
  constant_time_eq (mkConnectionId (replicate 16 Byte.x07)) (mkConnectionId (replicate 16 Byte.x07))
  = true ↔ mkConnectionId (replicate 16 Byte.x07) = mkConnectionId (replicate 16 Byte.x07).
Proof.
  apply (constant_time_eq_correct
    (mkConnectionId (replicate 16 Byte.x07)) (mkConnectionId (replicate 16 Byte.x07)));
    reflexivity.
Defined.

(** [ServiceName::new] accepts exactly the names of 1 to 128 characters,
    each an ASCII letter, a digit or one of [-_.]: although the code measures
    and scans the UTF-8 bytes, no multi-byte character passes, so the number
    of bytes is the number of characters. *)
Theorem service_name_accepts value :
  valid_str value = true →
  (ServiceName_new value = Ok (mkServiceName value) ↔
     1 <= len value <= MAX_NAME_BYTES ∧ forallb name_byte value = true) ∧
  (is_ok (ServiceName_new value) = false → ServiceName_new value = Err InvalidName).
Proof.
  intros Hv. unfold ServiceName_new. rewrite (str_bytes_all _ _ name_byte_ascii Hv).
  split; [|by case_match].
  destruct (forallb name_byte value) eqn:Hn; simpl.
  - rewrite (name_len value) by done. pose proof (len_nonneg value). rewrite orb_false_r.
    case_match eqn:E.
    + rewrite orb_true_iff, Z.eqb_eq, Z.ltb_lt in E. split; [done|lia].
    + rewrite orb_false_iff, Z.eqb_neq, Z.ltb_ge in E. split; [lia|done].
  - rewrite orb_true_r. naive_solver.
Qed.

Lemma service_name_accepts_witness :
  ServiceName_new (lit "web-main") = Ok (mkServiceName (lit "web-main")).
Proof.
  apply (service_name_accepts (lit "web-main")); [reflexivity|].
  split; [vm_compute; split; congruence | reflexivity].
Defined.

(** The one host validator keeps a host unambiguous: a [TcpTarget] is
    built exactly from a non-zero port and a host of 1 to 253 bytes without
    whitespace, control, format or URL-authority characters, in which a colon
    occurs only if the whole host is an IPv6 literal. *)
Theorem tcp_target_accepts host port :
  (is_ok (TcpTarget_new host port) = true ↔
    port ≠ 0 ∧
    1 <= str_len host <= MAX_TARGET_HOST_BYTES ∧
    (∀ c, c ∈ host → is_whitespace c = false ∧ is_control c = false ∧
                     is_format_char c = false ∧ c ∉ ambiguous_chars) ∧
    (58 ∈ host → is_Some (parse_ipv6 host))) ∧
  (∀ t, TcpTarget_new host port = Ok t → tt_host t = host ∧ tt_port t = port).
Proof.
  split; [|intros t (_ & _ & ->)%target_new_ok; done].
  assert (is_ok (TcpTarget_new host port) = true ↔
          validate_target_host host = Ok tt ∧ port ≠ 0) as ->.
  { rewrite is_ok_true. setoid_rewrite target_new_ok. naive_solver. }
  rewrite host_ok_iff, existsb_false_elem. setoid_rewrite bad_host_char_false.
  rewrite has_char_elem. unfold is_ipv6. rewrite bool_decide_eq_true. naive_solver.
Qed.
