(* ===== verification/Codec.v ===== *)
(** * Payload encoding: the serde derivations over postcard

    The structs of crates/eggtunnel-proto/src/lib.rs derive [Serialize] and
    [Deserialize], and [encode_payload]/[decode_frame] run them through
    postcard.  Postcard is not part of the repository, so its primitive
    encodings are the class [Postcard], and what its format documents of them
    is [PostcardLaws].  The combinators are serde's data model (tuples,
    arrays, sequences, [try_from]); every codec below is one [derive]. *)

From S2P Require Import Prelude Text Proto.

(** [de] returns the value and the unread bytes ([take_from_bytes]). *)
Record codec (A : Type) := mkCodec
  { ser : A → option (list byte); de : list byte → option (A * list byte) }.
Arguments mkCodec {A} ser de.
Arguments ser {A} c _.
Arguments de {A} c _.

Class Postcard :=
  { pc_u8 : codec byte; pc_u16 : codec Z; pc_u32 : codec Z; pc_u64 : codec Z;
    pc_len : codec Z; pc_variant : codec Z; pc_str : codec rstr }.

(** [rest] is [bs] without its first bytes, at least [n] of them. *)
Definition consumes (n : Z) (bs rest : list byte) : Prop :=
  ∃ used, n <= len used ∧ bs = used ++ rest.

(** What a codec promises for the values satisfying [P]: they serialise, to
    between one and [sz] bytes, and are read back with the rest left alone; whatever
    is read satisfies [P] and consumes a non-empty prefix. *)
Record codec_ok {A} (c : codec A) (P : A → bool) (sz : A → Z) : Prop :=
  { ser_ok a : P a = true → ∃ bs, ser c a = Some bs ∧ 0 < len bs <= sz a ∧
      ∀ rest, de c (bs ++ rest) = Some (a, rest);
    de_ok bs a rest : de c bs = Some (a, rest) → P a = true ∧ consumes 1 bs rest }.

(** Postcard's documented wire format: a [u8] is one byte, wider integers are
    varints of at most [ceil(w / 7)] bytes, a variant index is a [u32]
    varint, a string its length in bytes and its UTF-8 form. *)
Class PostcardLaws (pc : Postcard) : Prop :=
  { u8_ok : codec_ok pc_u8 (fun _ => true) (fun _ => 1);
    u16_ok : codec_ok pc_u16 (fits 16) (fun _ => 3);
    u32_ok : codec_ok pc_u32 (fits 32) (fun _ => 5);
    u64_ok : codec_ok pc_u64 (fits 64) (fun _ => 10);
    len_ok : codec_ok pc_len (fits 64) (fun _ => 10);
    variant_ok : codec_ok pc_variant (fits 32) (fun _ => 5);
    str_ok : codec_ok pc_str (fun s => valid_str s && fits 64 (str_len s)) (fun s => 10 + str_len s) }.

(** ** serde's data model *)

Definition c_pair {A B} (c : codec A) (d : codec B) : codec (A * B) :=
  mkCodec (fun '(a, b) => x ← ser c a; y ← ser d b; Some (x ++ y))
          (fun bs => '(a, r) ← de c bs; '(b, r') ← de d r; Some ((a, b), r')).

(** A type serialised through [to] and read through the fallible [from]:
    struct fields, [#[serde(try_from = ...)]] and [deserialize_with]. *)
Definition c_try {A B} (c : codec A) (to : B → A) (from : A → option B) : codec B :=
  mkCodec (fun b => ser c (to b)) (fun bs => '(a, r) ← de c bs; b ← from a; Some (b, r)).

Fixpoint ser_all {A} (c : codec A) (l : list A) : option (list byte) :=
  match l with
  | [] => Some []
  | a :: l' => x ← ser c a; y ← ser_all c l'; Some (x ++ y)
  end.

(** [n] elements one after the other.  An element takes at least a byte, so
    more elements than bytes cannot be read: [fuel] is the input's length. *)
Fixpoint de_all {A} (c : codec A) (fuel : nat) (n : Z) (bs : list byte)
    : option (list A * list byte) :=
  if n <=? 0 then Some ([], bs)
  else match fuel with
       | O => None
       | S fuel' =>
           '(a, r) ← de c bs; '(l, r') ← de_all c fuel' (n - 1) r; Some (a :: l, r')
       end.

(** [[T; n]] is a tuple, without a length; [Vec<T>] has one in front. *)
Definition c_array {A} (c : codec A) (n : Z) : codec (list A) :=
  mkCodec (fun l => if len l =? n then ser_all c l else None)
          (fun bs => de_all c (length bs) n bs).

Definition c_seq {A} (c : codec A) (cl : codec Z) : codec (list A) :=
  mkCodec (fun l => x ← ser cl (len l); y ← ser_all c l; Some (x ++ y))
          (fun bs => '(n, r) ← de cl bs; de_all c (length r) n r).

Definition ok {E A} (r : result E A) : option A :=
  match r with Ok a => Some a | Err _ => None end.

(** ** The derivations *)

Section derives.
Context {pc : Postcard}.

Definition c_bytes16 : codec (list byte) := c_array pc_u8 16.

Definition c_ProtocolVersion : codec ProtocolVersion :=
  c_try (c_pair pc_u16 pc_u16) (fun v => (pv_major v, pv_minor v))
    (fun '(a, b) => Some (mkProtocolVersion a b)).

Definition c_SessionId : codec SessionId :=
  c_try c_bytes16 sid_bytes (fun b => Some (mkSessionId b)).
Definition c_ServiceId : codec ServiceId :=
  c_try pc_u64 svc_id (fun b => Some (mkServiceId b)).
Definition c_ConnectionId : codec ConnectionId :=
  c_try c_bytes16 cid_bytes (fun b => Some (mkConnectionId b)).

Definition c_ServiceName : codec ServiceName :=
  c_try pc_str sn_value (fun s => ok (ServiceName_new s)).

Definition c_RequestedBind : codec RequestedBind :=
  mkCodec
    (fun b => match b with
     | Loopback port => x ← ser pc_variant 0; y ← ser pc_u16 port; Some (x ++ y)
     | Ip address port =>
         x ← ser pc_variant 1; y ← ser (c_pair c_bytes16 pc_u16) (address, port); Some (x ++ y)
     end)
    (fun bs =>
       '(v, r) ← de pc_variant bs;
       if v =? 0 then '(port, r') ← de pc_u16 r; Some (Loopback port, r')
       else if v =? 1 then
         '(ap, r') ← de (c_pair c_bytes16 pc_u16) r; Some (Ip ap.1 ap.2, r')
       else None).

Definition c_EffectiveBind : codec EffectiveBind :=
  c_try (c_pair c_bytes16 pc_u16) (fun b => (eb_address b, eb_port b))
    (fun '(a, p) => Some (mkEffectiveBind a p)).

Definition c_TcpTarget : codec TcpTarget :=
  c_try (c_pair pc_str pc_u16) (fun t => (tt_host t, tt_port t))
    (fun '(h, p) => ok (TcpTarget_new h p)).

Definition c_Capabilities : codec Capabilities :=
  c_try (c_seq pc_u16 pc_len) cap_ids (fun ids => ok (Capabilities_new ids)).

Definition c_BoundedDiagnostic : codec BoundedDiagnostic :=
  c_try pc_str bd_text (fun s => ok (BoundedDiagnostic_new s)).

Definition c_ClientHello : codec ClientHello :=
  c_try (c_pair c_ProtocolVersion c_Capabilities) (fun h => (ch_version h, ch_capabilities h))
    (fun '(v, c) => Some (mkClientHello v c)).
Definition c_ServerHello : codec ServerHello :=
  c_try (c_pair c_ProtocolVersion c_Capabilities) (fun h => (sh_version h, sh_capabilities h))
    (fun '(v, c) => Some (mkServerHello v c)).

(** [deserialize_with = "bounded_bytes"]. *)
Definition bounded_bytes (value : list byte) : option (list byte) :=
  if MAX_AUTH_TOKEN_BYTES <? len value then None else Some value.

Definition c_Auth : codec Auth :=
  c_try (c_seq pc_u8 pc_len) auth_token (fun b => mkAuth <$> bounded_bytes b).
Definition c_AuthOk : codec AuthOk :=
  c_try c_SessionId ao_session_id (fun s => Some (mkAuthOk s)).
Definition c_RegisterService : codec RegisterService :=
  c_try (c_pair c_ServiceId (c_pair c_ServiceName (c_pair c_RequestedBind c_TcpTarget)))
    (fun r => (rs_service_id r, (rs_name r, (rs_requested_bind r, rs_target r))))
    (fun '(i, (n, (b, t))) => Some (mkRegisterService i n b t)).
Definition c_RegisterAck : codec RegisterAck :=
  c_try (c_pair c_ServiceId c_EffectiveBind) (fun r => (ra_service_id r, ra_effective_bind r))
    (fun '(i, b) => Some (mkRegisterAck i b)).
Definition c_UnregisterService : codec UnregisterService :=
  c_try c_ServiceId us_service_id (fun i => Some (mkUnregisterService i)).
Definition c_Open : codec Open :=
  c_try (c_pair c_ServiceId c_ConnectionId) (fun r => (op_service_id r, op_connection_id r))
    (fun '(i, c) => Some (mkOpen i c)).
Definition c_OpenReject : codec OpenReject :=
  c_try (c_pair c_ConnectionId pc_u16) (fun r => (or_connection_id r, or_code r))
    (fun '(i, c) => Some (mkOpenReject i c)).
Definition c_Ping : codec Ping := c_try pc_u64 ping_nonce (fun n => Some (mkPing n)).
Definition c_Pong : codec Pong := c_try pc_u64 pong_nonce (fun n => Some (mkPong n)).
Definition c_Drain : codec Drain := c_try pc_u32 drain_deadline_ms (fun n => Some (mkDrain n)).
Definition c_ErrorMessage : codec ErrorMessage :=
  c_try (c_pair pc_u16 c_BoundedDiagnostic) (fun e => (em_code e, em_diagnostic e))
    (fun '(c, d) => Some (mkErrorMessage c d)).
Definition c_RegisterReject : codec RegisterReject :=
  c_try (c_pair c_ServiceId (c_pair pc_u16 c_BoundedDiagnostic))
    (fun r => (rj_service_id r, (rj_code r, rj_diagnostic r)))
    (fun '(i, (c, d)) => Some (mkRegisterReject i c d)).
Definition c_DataHello : codec DataHello :=
  c_try (c_pair c_SessionId (c_pair c_ServiceId c_ConnectionId))
    (fun d => (dh_session_id d, (dh_service_id d, dh_connection_id d)))
    (fun '(s, (i, c)) => Some (mkDataHello s i c)).

End derives.

(** ** The combinators keep the promise *)

Lemma consumes_trans n m a b c :
  consumes n a b → consumes m b c → consumes (n + m) a c.
Proof.
  intros (u & ? & ->) (v & ? & ->). exists (u ++ v). rewrite len_app, app_assoc. split; [lia|done].
Qed.

Lemma consumes_le n m a b : consumes n a b → m <= n → consumes m a b.
Proof. intros (u & ? & ->) ?. exists u. split; [lia|done]. Qed.

Lemma consumes_refl a : consumes 0 a a.
Proof. by exists []. Qed.

Lemma pair_ok {A B} (c : codec A) (d : codec B) P Q s t :
  codec_ok c P s → codec_ok d Q t →
  codec_ok (c_pair c d) (fun p => P p.1 && Q p.2) (fun p => s p.1 + t p.2).
Proof.
  intros Hc Hd. split.
  - intros [a b] Hw. simpl in Hw. bools.
    destruct (ser_ok _ _ _ Hc a) as (x & Hx & ? & Hrx); [done|].
    destruct (ser_ok _ _ _ Hd b) as (y & Hy & ? & Hry); [done|].
    exists (x ++ y). simpl. rewrite Hx. simpl. rewrite Hy. simpl.
    split; [done|]. split; [rewrite len_app; simpl; lia|].
    intros rest. rewrite <-app_assoc, Hrx. simpl. by rewrite Hry.
  - intros bs [a b] rest. simpl.
    intros ([a' r] & Ha & H)%bind_Some. simpl in H.
    apply bind_Some in H as ([b' r'] & Hb & [= <- <- <-]).
    destruct (de_ok _ _ _ Hc _ _ _ Ha) as [-> Hu].
    destruct (de_ok _ _ _ Hd _ _ _ Hb) as [-> Hv].
    split; [done|]. eapply consumes_le; [by eapply consumes_trans|lia].
Qed.

Lemma try_ok {A B} (c : codec A) (to : B → A) (from : A → option B) P s Q t :
  codec_ok c P s →
  (∀ b, Q b = true → P (to b) = true ∧ from (to b) = Some b ∧ s (to b) <= t b) →
  (∀ a b, P a = true → from a = Some b → Q b = true) →
  codec_ok (c_try c to from) Q t.
Proof.
  intros Hc Hto Hfrom. split.
  - intros b (Hp & Hf & Hs)%Hto. destruct (ser_ok _ _ _ Hc _ Hp) as (x & Hx & ? & Hr).
    exists x. simpl. split; [done|]. split; [lia|].
    intros rest. rewrite Hr. simpl. by rewrite Hf.
  - intros bs b rest. simpl. intros ([a r] & Ha & H)%bind_Some. simpl in H.
    apply bind_Some in H as (b' & Hb & [= <- <-]).
    destruct (de_ok _ _ _ Hc _ _ _ Ha) as [Hp ?]. split; [|done]. by eapply Hfrom.
Qed.

Section sequences.
Context {A : Type} (c : codec A) (P : A → bool) (k : Z).
Hypothesis element_ok : codec_ok c P (fun _ => k).

Lemma ser_all_ok l :
  forallb P l = true →
  ∃ bs, ser_all c l = Some bs ∧ len bs <= k * len l ∧ (length l <= length bs)%nat ∧
    ∀ rest fuel, (length l <= fuel)%nat → de_all c fuel (len l) (bs ++ rest) = Some (l, rest).
Proof.
  induction l as [|a l IH]; simpl; intros Hl; bools.
  - exists []. split_and!; try done; [len_lia|]. intros rest []; done.
  - destruct IH as (y & Hy & ? & ? & Hry); [done|].
    destruct (ser_ok _ _ _ element_ok a) as (x & Hx & ? & Hrx); [done|].
    exists (x ++ y). rewrite Hx. simpl. rewrite Hy. simpl.
    split; [done|]. split; [rewrite len_app, len_cons; lia|].
    split; [rewrite length_app; unfold len in *; lia|].
    intros rest [|fuel] Hf; [lia|]. rewrite len_cons. cbn [de_all].
    pose proof (len_nonneg l). rewrite (proj2 (Z.leb_gt _ 0)) by lia.
    rewrite <-app_assoc, Hrx. simpl.
    replace (1 + len l - 1) with (len l) by lia. rewrite Hry by lia. done.
Qed.

Lemma de_all_ok fuel n bs l rest :
  0 <= n → de_all c fuel n bs = Some (l, rest) →
  forallb P l = true ∧ len l = n ∧ consumes n bs rest.
Proof.
  revert n bs l; induction fuel as [|fuel IH]; intros n bs l Hn; simpl;
    (case_match; bools; [intros [= <- <-]; split_and!;
      [done|len_lia|eapply consumes_le; [apply consumes_refl|lia]]|]); [done|].
  intros ([a r] & Ha & H')%bind_Some. simpl in H'.
  apply bind_Some in H' as ([l' r'] & Hl & [= <- <-]).
  destruct (de_ok _ _ _ element_ok _ _ _ Ha) as [Hp Hu].
  destruct (IH (n - 1) _ _ ltac:(lia) Hl) as (? & ? & Hv).
  simpl. rewrite Hp, len_cons. split_and!; [done|lia|].
  eapply consumes_le; [by eapply consumes_trans|lia].
Qed.

Lemma array_ok n :
  0 < n → codec_ok (c_array c n) (fun l => (len l =? n) && forallb P l) (fun _ => k * n).
Proof.
  intros Hn. split.
  - intros l Hl. bools. destruct (ser_all_ok l) as (x & Hx & ? & ? & Hr); [done|].
    exists x. simpl. rewrite (proj2 (Z.eqb_eq _ _)) by done. subst. split_and!; try done; [unfold len in *; lia|].
    intros rest. apply Hr. rewrite length_app. lia.
  - simpl. intros bs l rest (? & ? & ?)%de_all_ok; [|lia].
    rewrite (proj2 (Z.eqb_eq _ _)) by done. split; [done|]. eapply consumes_le; [done|lia].
Qed.

Lemma seq_ok cl :
  codec_ok cl (fits 64) (fun _ => 10) →
  codec_ok (c_seq c cl) (fun l => fits 64 (len l) && forallb P l) (fun l => 10 + k * len l).
Proof.
  intros Hc. split.
  - intros l Hl. bools. destruct (ser_all_ok l) as (y & Hy & ? & ? & Hry); [done|].
    destruct (ser_ok _ _ _ Hc (len l)) as (x & Hx & ? & Hrx); [done|].
    exists (x ++ y). simpl. rewrite Hx. simpl. rewrite Hy. simpl. rewrite len_app.
    pose proof (len_nonneg y). split_and!; [done|lia|lia|]. intros rest. rewrite <-app_assoc, Hrx. simpl.
    apply Hry. rewrite length_app. lia.
  - simpl. intros bs l rest ([n r] & Hn & H)%bind_Some. simpl in H.
    destruct (de_ok _ _ _ Hc _ _ _ Hn) as [Hf Hu].
    pose proof Hf as Hf'. apply fits_iff in Hf'.
    apply de_all_ok in H as (-> & -> & Hv); [|lia]. rewrite Hf.
    split; [done|]. eapply consumes_le; [by eapply consumes_trans|lia].
Qed.
End sequences.

Lemma ok_Some {E A} (r : result E A) a : ok r = Some a ↔ r = Ok a.
Proof. destruct r; simpl; naive_solver. Qed.

Lemma forallb_true {A} (l : list A) : forallb (fun _ => true) l = true.
Proof. by induction l. Qed.

Lemma wf_id_len b : wf_id b = true ↔ len b = 16.
Proof. unfold wf_id, len. rewrite Nat.eqb_eq. lia. Qed.

Section derives_ok.
Context {pc : Postcard} {laws : PostcardLaws pc}.

Lemma bytes16_ok : codec_ok c_bytes16 wf_id (fun _ => 16).
Proof.
  pose proof (array_ok pc_u8 _ 1 u8_ok 16 ltac:(lia)) as H.
  split.
  - intros a Ha. apply (ser_ok _ _ _ H). rewrite forallb_true. apply wf_id_len in Ha.
    by rewrite Ha.
  - intros bs a rest Hd. apply (de_ok _ _ _ H) in Hd as [Ha ?]. bools.
    by rewrite wf_id_len.
Qed.

(** A derived codec is a [c_try] over the codecs of the fields: the fields'
    promises, then the constructor's own equations. *)
Ltac derive_ok fields :=
  eapply try_ok;
  [ apply fields
  | intros []; simpl; intros; bools
  | intros; simpl in * ];
  repeat case_match; simplify_eq/=; bools; rewrite ?andb_true_iff; split_and?; eauto; try lia.

Abbreviation pairs := (pair_ok _ _ _ _ _ _).

Lemma version_ok : codec_ok c_ProtocolVersion wf_version (fun _ => 6).
Proof. unfold wf_version. derive_ok (pairs u16_ok u16_ok). Qed.

Lemma session_id_ok : codec_ok c_SessionId (fun i => wf_id (sid_bytes i)) (fun _ => 16).
Proof. derive_ok bytes16_ok. Qed.

Lemma service_id_ok : codec_ok c_ServiceId wf_service_id (fun _ => 10).
Proof. unfold wf_service_id. derive_ok u64_ok. Qed.

Lemma connection_id_ok : codec_ok c_ConnectionId (fun i => wf_id (cid_bytes i)) (fun _ => 16).
Proof. derive_ok bytes16_ok. Qed.

Lemma short_str_fits s n : str_len s <= n → n < 2 ^ 64 → fits 64 (str_len s) = true.
Proof. intros. apply fits_iff. pose proof (str_len_nonneg s). lia. Qed.

(** A validated newtype over [String]: what its constructor accepts it
    returns unchanged, and it accepts nothing longer than [max]. *)
Lemma newtype_ok {B} (new : rstr → result ProtocolError B) (get : B → rstr) max :
  (∀ s b, new s = Ok b → get b = s ∧ str_len s <= max) →
  (∀ b b', get b = get b' → b = b') → max < 2 ^ 64 →
  codec_ok (c_try pc_str get (fun s => ok (new s)))
    (fun b => valid_str (get b) && is_ok (new (get b))) (fun _ => 10 + max).
Proof.
  intros Hnew Hinj Hmax. eapply try_ok; [apply str_ok | |].
  - intros b Hb. bools. apply is_ok_true in H0 as [b' Hb'].
    destruct (Hnew _ _ Hb') as [<-%Hinj Hl].
    rewrite Hb', H, (short_str_fits _ max) by done. simpl. split_and!; [done|done|lia].
  - intros s b Hs Hb%ok_Some. cbv beta in Hs. apply andb_true_iff in Hs as [Hs _].
    destruct (Hnew _ _ Hb) as [-> _]. by rewrite Hs, Hb.
Qed.

Lemma service_name_ok : codec_ok c_ServiceName wf_name (fun _ => 138).
Proof.
  apply (newtype_ok ServiceName_new sn_value 128); [|intros [] []; naive_solver | lia].
  intros s n. unfold ServiceName_new, MAX_NAME_BYTES. case_match; intros [= <-]. bools.
  split; [done|lia].
Qed.

Lemma diagnostic_ok : codec_ok c_BoundedDiagnostic wf_diagnostic (fun _ => 266).
Proof.
  apply (newtype_ok BoundedDiagnostic_new bd_text 256); [|intros [] []; naive_solver | lia].
  intros s n. unfold BoundedDiagnostic_new, MAX_DIAGNOSTIC_BYTES.
  repeat case_match; intros [= <-]. bools. split; [done|lia].
Qed.

Lemma target_ok : codec_ok c_TcpTarget wf_target (fun _ => 266).
Proof.
  eapply try_ok; [apply (pairs str_ok u16_ok) | |]; unfold wf_target; simpl.
  - intros [h p]. simpl. intros Ht. bools. apply is_ok_true in H0 as [t Ht].
    pose proof Ht as (Hh & _ & ->)%target_new_ok.
    apply host_ok_iff in Hh as [[? Hl] _]. unfold MAX_TARGET_HOST_BYTES in Hl.
    rewrite H, H1, (short_str_fits h 253), ok_Some by lia. split_and!; [done|done|lia].
  - intros [h p] t. simpl. rewrite ok_Some. intros Hw Ht. bools.
    pose proof Ht as (_ & _ & ->)%target_new_ok. simpl. by rewrite H, H0, Ht.
Qed.

Lemma bind_codec_ok : codec_ok c_RequestedBind wf_bind (fun _ => 24).
Proof.
  pose proof (pairs bytes16_ok u16_ok) as Hp. split.
  - intros [port|address port] Hw; simpl in Hw.
    + destruct (ser_ok _ _ _ variant_ok 0 eq_refl) as (x & Hx & ? & Hrx).
      destruct (ser_ok _ _ _ u16_ok port Hw) as (y & Hy & ? & Hry).
      exists (x ++ y). simpl. rewrite Hx. simpl. rewrite Hy. simpl. rewrite len_app.
      split_and!; [done|lia|lia|]. intros rest. rewrite <-app_assoc, Hrx. simpl. by rewrite Hry.
    + destruct (ser_ok _ _ _ variant_ok 1 eq_refl) as (x & Hx & ? & Hrx).
      destruct (ser_ok _ _ _ Hp (address, port) Hw) as (y & Hy & ? & Hry).
      exists (x ++ y). cbn [ser c_RequestedBind]. rewrite Hx. cbn [mbind option_bind]. rewrite Hy.
      cbn [mbind option_bind]. rewrite len_app. split_and!; [done|lia|simpl in *; lia|].
      intros rest. cbn [de c_RequestedBind]. rewrite <-app_assoc, Hrx.
      cbn [mbind option_bind Z.eqb]. by rewrite Hry.
  - intros bs b rest. cbn [de c_RequestedBind]. intros ([v r] & Hv & H)%bind_Some. simpl in H.
    destruct (de_ok _ _ _ variant_ok _ _ _ Hv) as [_ Hu].
    case_match; [|case_match; [|done]]; apply bind_Some in H as ([a r'] & Ha & [= <- <-]).
    + destruct (de_ok _ _ _ u16_ok _ _ _ Ha) as [? Hw].
      split; [done|]. eapply consumes_le; [by eapply consumes_trans|lia].
    + destruct (de_ok _ _ _ Hp _ _ _ Ha) as [? Hw].
      split; [done|]. eapply consumes_le; [by eapply consumes_trans|lia].
Qed.

Lemma effective_ok : codec_ok c_EffectiveBind wf_effective (fun _ => 19).
Proof. unfold wf_effective. derive_ok (pairs bytes16_ok u16_ok). Qed.

Lemma capabilities_ok : codec_ok c_Capabilities wf_caps (fun _ => 106).
Proof.
  eapply try_ok; [apply (seq_ok pc_u16 _ 3 u16_ok _ len_ok) | |].
  - intros c Hc. rewrite ok_Some, Capabilities_new_of_wf by done.
    unfold wf_caps in Hc. bools. unfold MAX_CAPABILITIES in *. pose proof (len_nonneg (cap_ids c)).
    rewrite (proj2 (fits_iff 64 _)), H1 by lia. split_and!; [done|done|lia].
  - intros ids c Hi Hc%ok_Some. cbv beta in Hi. bools. by eapply Capabilities_new_wf.
Qed.

Lemma auth_ok : codec_ok c_Auth wf_auth (fun _ => 4106).
Proof.
  eapply try_ok; [apply (seq_ok pc_u8 _ 1 u8_ok _ len_ok) | |];
    unfold wf_auth, bounded_bytes, MAX_AUTH_TOKEN_BYTES.
  - intros [t] Ht. simpl in *. bools. pose proof (len_nonneg t).
    rewrite forallb_true, (proj2 (fits_iff 64 _)), (proj2 (Z.ltb_ge _ _)) by lia.
    split_and!; [done|done|lia].
  - intros t a _. case_match; [done|]. intros [= <-]. bools. by apply Z.leb_le.
Qed.

Lemma client_hello_ok :
  codec_ok c_ClientHello (fun v => wf_message (M_ClientHello v)) (fun _ => 112).
Proof. derive_ok (pairs version_ok capabilities_ok). Qed.

Lemma server_hello_ok :
  codec_ok c_ServerHello (fun v => wf_message (M_ServerHello v)) (fun _ => 112).
Proof. derive_ok (pairs version_ok capabilities_ok). Qed.

Lemma auth_ok_ok : codec_ok c_AuthOk (fun v => wf_message (M_AuthOk v)) (fun _ => 16).
Proof. derive_ok session_id_ok. Qed.

Lemma register_service_ok :
  codec_ok c_RegisterService (fun v => wf_message (M_RegisterService v)) (fun _ => 438).
Proof. derive_ok (pairs service_id_ok (pairs service_name_ok (pairs bind_codec_ok target_ok))). Qed.

Lemma register_ack_ok :
  codec_ok c_RegisterAck (fun v => wf_message (M_RegisterAck v)) (fun _ => 29).
Proof. derive_ok (pairs service_id_ok effective_ok). Qed.

Lemma unregister_ok :
  codec_ok c_UnregisterService (fun v => wf_message (M_UnregisterService v)) (fun _ => 10).
Proof. derive_ok service_id_ok. Qed.

Lemma open_ok : codec_ok c_Open (fun v => wf_message (M_Open v)) (fun _ => 26).
Proof. derive_ok (pairs service_id_ok connection_id_ok). Qed.

Lemma open_reject_ok :
  codec_ok c_OpenReject (fun v => wf_message (M_OpenReject v)) (fun _ => 19).
Proof. derive_ok (pairs connection_id_ok u16_ok). Qed.

Lemma ping_ok : codec_ok c_Ping (fun v => wf_message (M_Ping v)) (fun _ => 10).
Proof. derive_ok u64_ok. Qed.

Lemma pong_ok : codec_ok c_Pong (fun v => wf_message (M_Pong v)) (fun _ => 10).
Proof. derive_ok u64_ok. Qed.

Lemma drain_ok : codec_ok c_Drain (fun v => wf_message (M_Drain v)) (fun _ => 5).
Proof. derive_ok u32_ok. Qed.

Lemma error_ok : codec_ok c_ErrorMessage (fun v => wf_message (M_Error v)) (fun _ => 269).
Proof. derive_ok (pairs u16_ok diagnostic_ok). Qed.

Lemma register_reject_ok :
  codec_ok c_RegisterReject (fun v => wf_message (M_RegisterReject v)) (fun _ => 279).
Proof. derive_ok (pairs service_id_ok (pairs u16_ok diagnostic_ok)). Qed.

Lemma data_hello_ok :
  codec_ok c_DataHello (fun v => wf_message (M_DataHello v)) (fun _ => 42).
Proof. derive_ok (pairs session_id_ok (pairs service_id_ok connection_id_ok)). Qed.
End derives_ok.
