(* ===== verification/Varint.v ===== *)
(** * A concrete postcard: varints and length-prefixed UTF-8

    The wire format postcard documents, written out, with the laws the other
    files assume of it.  It is an instance for the concrete evaluations of the
    development; no theorem about the protocol depends on it. *)

From S2P Require Import Prelude Text Proto Codec.

Fixpoint varint (fuel : nat) (z : Z) : list byte :=
  match fuel with
  | O => []
  | S f => if z <? 128 then [byte_of z] else byte_of (128 + z mod 128) :: varint f (z / 128)
  end.

Fixpoint unvarint (fuel : nat) (bs : list byte) : option (Z * list byte) :=
  match fuel, bs with
  | S f, b :: r =>
      if byte_val b <? 128 then Some (byte_val b, r)
      else '(v, r') ← unvarint f r; Some (byte_val b - 128 + 128 * v, r')
  | _, _ => None
  end.

Definition c_varint (w : Z) (k : nat) : codec Z :=
  mkCodec (fun z => if fits w z then Some (varint k z) else None)
          (fun bs => '(v, r) ← unvarint k bs; if fits w v then Some (v, r) else None).

Definition c_byte : codec byte :=
  mkCodec (fun b => Some [b]) (fun bs => match bs with b :: r => Some (b, r) | [] => None end).

(** One character: the lead byte gives the length, the candidate is accepted
    when its own encoding is the bytes read. *)
Definition utf8_width (b : Z) : nat :=
  if b <? 0x80 then 1 else if b <? 0xE0 then 2 else if b <? 0xF0 then 3 else 4.

Definition utf8_value (l : list Z) : Z :=
  match l with
  | [a] => a
  | [a; b] => (a - 0xC0) * 64 + (b - 0x80)
  | [a; b; c] => (a - 0xE0) * 4096 + (b - 0x80) * 64 + (c - 0x80)
  | [a; b; c; d] => (a - 0xF0) * 262144 + (b - 0x80) * 4096 + (c - 0x80) * 64 + (d - 0x80)
  | _ => -1
  end.

Fixpoint unutf8 (fuel : nat) (l : list Z) : option rstr :=
  match l with
  | [] => Some []
  | a :: _ =>
      match fuel with
      | O => None
      | S f =>
          let n := utf8_width a in
          let c := utf8_value (take n l) in
          if scalar c && bool_decide (utf8 c = take n l)
          then s ← unutf8 f (drop n l); Some (c :: s) else None
      end
  end.

Definition c_utf8 : codec rstr :=
  mkCodec
    (fun s => if valid_str s && fits 64 (str_len s)
              then Some (varint 10 (str_len s) ++ (byte_of <$> str_bytes s)) else None)
    (fun bs =>
       '(n, r) ← de (c_varint 64 10) bs;
       if n <=? len r then
         s ← unutf8 (Z.to_nat n) (byte_val <$> take (Z.to_nat n) r); Some (s, drop (Z.to_nat n) r)
       else None).

#[export] Instance documented_postcard : Postcard :=
  {| pc_u8 := c_byte; pc_u16 := c_varint 16 3; pc_u32 := c_varint 32 5;
     pc_u64 := c_varint 64 10; pc_len := c_varint 64 10; pc_variant := c_varint 32 5;
     pc_str := c_utf8 |}.

(** ** Laws *)

Lemma len_varint_le k z : len (varint k z) <= Z.of_nat k.
Proof.
  revert z; induction k as [|k IH]; intros z; simpl; [done|].
  case_match; [len_lia|]. rewrite len_cons. specialize (IH (z / 128)). lia.
Qed.

Lemma len_varint k z : (0 < k)%nat → 0 < len (varint k z) <= Z.of_nat k.
Proof.
  intros Hk. split; [|apply len_varint_le]. destruct k; [lia|]. simpl. case_match; len_lia.
Qed.

Lemma unvarint_varint k z rest :
  (0 < k)%nat → 0 <= z < 128 ^ Z.of_nat k → unvarint k (varint k z ++ rest) = Some (z, rest).
Proof.
  revert z; induction k as [|k IH]; intros z Hk Hz; [lia|]. simpl.
  destruct (z <? 128) eqn:E; bools; simpl; rewrite byte_val_of.
  - rewrite (Z.mod_small z) by lia. by rewrite (proj2 (Z.ltb_lt z 128)).
  - pose proof (Z.mod_pos_bound z 128). rewrite (Z.mod_small (128 + _)) by lia.
    rewrite (proj2 (Z.ltb_ge (128 + _) 128)) by lia.
    rewrite Nat2Z.inj_succ, Z.pow_succ_r in Hz by lia.
    assert (1 <= z / 128 < 128 ^ Z.of_nat k) as Hd.
    { split; [apply Z.div_le_lower_bound; lia | apply Z.div_lt_upper_bound; lia]. }
    rewrite IH; [|destruct k; [simpl in Hd|]; lia|lia]. simpl.
    do 2 f_equal. pose proof (Z.div_mod z 128). lia.
Qed.

Lemma unvarint_suffix k bs v rest :
  unvarint k bs = Some (v, rest) → consumes 1 bs rest.
Proof.
  revert bs v; induction k as [|k IH]; intros [|b r] v; simpl; try done.
  case_match; [intros [= <- <-]; by exists [b]|].
  intros ([v' r'] & H' & [= _ <-])%bind_Some. apply IH in H' as (u & ? & ->).
  exists (b :: u). split; [len_lia|done].
Qed.

Lemma varint_ok w k :
  (0 < k)%nat → 2 ^ w <= 128 ^ Z.of_nat k →
  codec_ok (c_varint w k) (fits w) (fun _ => Z.of_nat k).
Proof.
  intros Hk Hw. split; simpl.
  - intros z Hz. rewrite Hz. eexists. split; [done|]. split; [by apply len_varint|].
    intros rest. pose proof Hz as Hz'. apply fits_iff in Hz'.
    rewrite unvarint_varint by lia. simpl. by rewrite Hz.
  - intros bs v rest ([v' r'] & Hu & H)%bind_Some. case_match; simplify_eq.
    split; [done|]. by eapply unvarint_suffix.
Qed.

Lemma byte_codec_ok : codec_ok c_byte (fun _ => true) (fun _ => 1).
Proof.
  split; simpl.
  - intros b _. by exists [b].
  - intros [|b r] a rest [= -> ->]. split; [done|]. by exists [a].
Qed.

Lemma utf8_value_utf8 c : scalar c = true → utf8_value (utf8 c) = c.
Proof.
  unfold scalar, utf8. intros _. repeat case_match; bools; simpl; [done|..];
    Z.to_euclidean_division_equations; lia.
Qed.

Lemma utf8_width_utf8 c rest a l :
  scalar c = true → utf8 c ++ rest = a :: l → utf8_width a = length (utf8 c).
Proof.
  unfold scalar, utf8, utf8_width. intros Hc.
  repeat match goal with |- context [if ?x <? ?y then _ else _] => destruct (Z.ltb_spec x y) end;
    simpl; intros [= <- <-]; try done; exfalso; Z.to_euclidean_division_equations; lia.
Qed.

Lemma utf8_bytes c : scalar c = true → Forall (fun b => 0 <= b < 256) (utf8 c).
Proof.
  unfold scalar, utf8. intros Hc.
  repeat case_match; bools; repeat constructor; Z.to_euclidean_division_equations; lia.
Qed.

Lemma unutf8_str s fuel :
  valid_str s = true → (length (str_bytes s) <= fuel)%nat → unutf8 fuel (str_bytes s) = Some s.
Proof.
  revert fuel; induction s as [|c s IH]; intros fuel; [by destruct fuel|].
  unfold valid_str. cbn [forallb]. intros Hs Hf. bools.
  rewrite str_bytes_cons in *. pose proof (utf8_len c) as Hl. unfold len in Hl.
  rewrite length_app in Hf.
  destruct (utf8 c ++ str_bytes s) as [|a l] eqn:E.
  { apply (f_equal length) in E. rewrite length_app in E. simpl in E. lia. }
  destruct fuel as [|fuel]; [lia|]. cbn [unutf8].
  rewrite (utf8_width_utf8 c (str_bytes s) a l), <-E by done.
  rewrite take_app_length, drop_app_length, utf8_value_utf8, H by done.
  rewrite bool_decide_eq_true_2 by done. simpl. rewrite IH by (done || lia). done.
Qed.

Lemma unutf8_sound fuel l s : unutf8 fuel l = Some s → valid_str s = true ∧ str_bytes s = l.
Proof.
  revert l s; induction fuel as [|fuel IH]; intros [|a l] s; simpl; try naive_solver.
  case_match eqn:E; [|done]. bools. intros (s' & Hs & [= <-])%bind_Some.
  apply IH in Hs as [Hv Hb]. unfold valid_str. cbn [forallb]. rewrite str_bytes_cons, Hb.
  split; [by rewrite H|]. rewrite H0. by rewrite take_drop.
Qed.

Lemma byte_val_of_str s :
  valid_str s = true → byte_val <$> (byte_of <$> str_bytes s) = str_bytes s.
Proof.
  intros Hs. rewrite <-list_fmap_compose. rewrite <-(list_fmap_id (str_bytes s)) at 2.
  apply list_fmap_ext. intros i b Hb%list_elem_of_lookup_2. simpl.
  rewrite byte_val_of. apply Z.mod_small. apply list_elem_of_bind in Hb as (c & Hb & Hc).
  unfold valid_str in Hs. rewrite forallb_forall in Hs.
  specialize (Hs c). rewrite <-list_elem_of_In in Hs. pose proof (utf8_bytes c (Hs Hc)) as Hu.
  rewrite list.Forall_forall in Hu. by apply Hu.
Qed.

Lemma utf8_codec_ok :
  codec_ok c_utf8 (fun s => valid_str s && fits 64 (str_len s)) (fun s => 10 + str_len s).
Proof.
  pose proof (varint_ok 64 10 ltac:(lia) ltac:(lia)) as Hv. split.
  - intros s Hs. cbn [ser c_utf8]. rewrite Hs. bools. eexists. split; [done|].
    split. { rewrite len_app. pose proof (len_varint 10 (str_len s)).
             pose proof (len_nonneg (byte_of <$> str_bytes s)). unfold str_len, len in *. rewrite length_fmap. lia. }
    intros rest. destruct (ser_ok _ _ _ Hv (str_len s)) as (x & Hx & _ & Hr); [done|].
    simpl in Hx. rewrite H0 in Hx. simplify_eq. rewrite <-app_assoc. cbn [de c_utf8]. rewrite Hr.
    cbn [mbind option_bind]. assert (str_len s = len (byte_of <$> str_bytes s)) as Hl.
    { unfold str_len, len. by rewrite length_fmap. }
    rewrite len_app, (proj2 (Z.leb_le _ _)) by (pose proof (len_nonneg rest); lia).
    rewrite take_len_app, drop_len_app, byte_val_of_str, unutf8_str; try done.
    unfold str_len, len. lia.
  - intros bs s rest. cbn [de c_utf8]. intros ([n r] & Hn & H)%bind_Some. cbv beta iota in H.
    destruct (de_ok _ _ _ Hv _ _ _ Hn) as [Hf Hu].
    destruct (n <=? len r) eqn:Hle; [|done]. bools.
    apply bind_Some in H as (s' & (Hs & Hb)%unutf8_sound & [= <- <-]).
    pose proof Hf as Hf'. apply fits_iff in Hf'. rewrite Hs. unfold str_len. rewrite Hb.
    assert (len (byte_val <$> take (Z.to_nat n) r) = n) as ->.
    { rewrite <-(len_take r n) at 2 by lia. unfold len. by rewrite length_fmap. }
    split; [done|]. apply (consumes_trans 1 0 _ r); [done|].
    exists (take (Z.to_nat n) r). rewrite take_drop. split; [apply len_nonneg|done].
Qed.

#[export] Instance documented_laws : PostcardLaws documented_postcard.
Proof.
  split; try (by apply varint_ok; lia).
  - apply byte_codec_ok.
  - apply utf8_codec_ok.
Qed.
