(* ===== verification/Frame.v ===== *)
(** * Frames: [encode_frame] and [decode_frame]

    A frame is a 14-byte header (magic, major, minor, message type, payload
    length, all big-endian) and the postcard form of the payload struct.
    Slices are [take]/[drop]; [usize] is 64 bits wide. *)

From S2P Require Import Prelude Text Proto Codec Varint.

Section frame.
Context {pc : Postcard}.

(** The [enc!] and [dec!] macros. *)
Definition enc {A} (c : codec A) (v : A) : result ProtocolError (list byte) :=
  ok_or (ser c v) InvalidPayload.

Definition dec {A} (c : codec A) (variant : A → Message) (payload : list byte)
    : result ProtocolError Message :=
  '(value, trailing) ← ok_or (de c payload) InvalidPayload;
  match trailing with
  | [] => Ok (variant value)
  | _ :: _ => Err InvalidPayload
  end.

Definition encode_payload (m : Message) : result ProtocolError (list byte) :=
  match m with
  | M_ClientHello v => enc c_ClientHello v
  | M_ServerHello v => enc c_ServerHello v
  | M_Auth v => enc c_Auth v
  | M_AuthOk v => enc c_AuthOk v
  | M_RegisterService v => enc c_RegisterService v
  | M_RegisterAck v => enc c_RegisterAck v
  | M_UnregisterService v => enc c_UnregisterService v
  | M_Open v => enc c_Open v
  | M_OpenReject v => enc c_OpenReject v
  | M_Ping v => enc c_Ping v
  | M_Pong v => enc c_Pong v
  | M_Drain v => enc c_Drain v
  | M_Error v => enc c_ErrorMessage v
  | M_DataHello v => enc c_DataHello v
  | M_RegisterReject v => enc c_RegisterReject v
  end.

Definition decode_payload (k : MessageType) (payload : list byte)
    : result ProtocolError Message :=
  match k with
  | MT_ClientHello => dec c_ClientHello M_ClientHello payload
  | MT_ServerHello => dec c_ServerHello M_ServerHello payload
  | MT_Auth => dec c_Auth M_Auth payload
  | MT_AuthOk => dec c_AuthOk M_AuthOk payload
  | MT_RegisterService => dec c_RegisterService M_RegisterService payload
  | MT_RegisterAck => dec c_RegisterAck M_RegisterAck payload
  | MT_UnregisterService => dec c_UnregisterService M_UnregisterService payload
  | MT_Open => dec c_Open M_Open payload
  | MT_OpenReject => dec c_OpenReject M_OpenReject payload
  | MT_Ping => dec c_Ping M_Ping payload
  | MT_Pong => dec c_Pong M_Pong payload
  | MT_Drain => dec c_Drain M_Drain payload
  | MT_Error => dec c_ErrorMessage M_Error payload
  | MT_DataHello => dec c_DataHello M_DataHello payload
  | MT_RegisterReject => dec c_RegisterReject M_RegisterReject payload
  end.

Definition header (major minor id n : Z) : list byte :=
  MAGIC ++ to_be 2 major ++ to_be 2 minor ++ to_be 2 id ++ to_be 4 n.

Definition encode_frame (m : Message) : result ProtocolError (list byte) :=
  payload ← encode_payload m;
  _ ← ensure (len payload <=? MAX_FRAME_BYTES) FrameTooLarge;
  payload_len ← ok_or (try_into 32 (len payload)) FrameTooLarge;
  Ok (header PROTOCOL_MAJOR PROTOCOL_MINOR (MessageType_id (kind m)) payload_len ++ payload).

(** [input[a..b]]. *)
Definition slice (a b : Z) (input : list byte) : list byte :=
  take (Z.to_nat (b - a)) (drop (Z.to_nat a) input).

Definition decode_frame (input : list byte) : result ProtocolError (Message * Z) :=
  _ ← ensure (negb (len input <? HEADER_LEN)) TruncatedFrame;
  _ ← ensure (bool_decide (slice 0 4 input = MAGIC)) InvalidMagic;
  let major := from_be (slice 4 6 input) in
  let minor := from_be (slice 6 8 input) in
  _ ← ensure (major =? PROTOCOL_MAJOR) (UnsupportedVersion major minor);
  k ← MessageType_try_from (from_be (slice 8 10 input));
  let n := from_be (slice 10 14 input) in
  _ ← ensure (negb (MAX_FRAME_BYTES <? n)) FrameTooLarge;
  total ← ok_or (checked_add 64 HEADER_LEN n) FrameTooLarge;
  _ ← ensure (negb (len input <? total)) TruncatedFrame;
  m ← decode_payload k (slice HEADER_LEN total input);
  Ok (m, total).

(** ** Payloads *)

Lemma try_from_id k : MessageType_try_from (MessageType_id k) = Ok k.
Proof. by destruct k. Qed.

Lemma id_fits k : 1 <= MessageType_id k <= 15.
Proof. destruct k; simpl; lia. Qed.

Lemma dec_prefix {A} (c : codec A) variant P sz v :
  codec_ok c P sz → P v = true →
  ∃ bs, enc c v = Ok bs ∧ 0 < len bs <= sz v ∧ dec c variant bs = Ok (variant v).
Proof.
  intros Hc Hv. destruct (ser_ok _ _ _ Hc v Hv) as (bs & Hs & Hl & Hd).
  exists bs. unfold enc, dec. rewrite Hs. specialize (Hd []). rewrite app_nil_r in Hd.
  by rewrite Hd.
Qed.

Lemma dec_wf {A} (c : codec A) (variant : A → Message) sz k bs m :
  codec_ok c (fun v => wf_message (variant v)) sz → (∀ v, kind (variant v) = k) →
  dec c variant bs = Ok m → wf_message m = true ∧ kind m = k.
Proof.
  intros Hc Hk. unfold dec. intros Hd. res_simpl. destruct x as [v trailing].
  destruct trailing; simplify_eq. apply (de_ok _ _ _ Hc) in H as [? _]. done.
Qed.

Lemma dec_nonempty {A} (c : codec A) variant P sz bs m :
  codec_ok c P sz → dec c variant bs = Ok m → 0 < len bs.
Proof.
  intros Hc. unfold dec. intros Hd. res_simpl. destruct x as [v trailing].
  apply (de_ok _ _ _ Hc) in H as (_ & u & ? & ->). rewrite len_app.
  pose proof (len_nonneg trailing). lia.
Qed.

Section codec_laws.
Context {laws : PostcardLaws pc}.

Lemma payload_roundtrip m :
  wf_message m = true →
  ∃ bs, encode_payload m = Ok bs ∧ 0 < len bs <= 4106 ∧ decode_payload (kind m) bs = Ok m.
Proof.
  intros Hm.
  assert (∀ A (c : codec A) variant (v : A) n,
    codec_ok c (fun v => wf_message (variant v)) (fun _ => n) → n <= 4106 →
    wf_message (variant v) = true →
    ∃ bs, enc c v = Ok bs ∧ 0 < len bs <= 4106 ∧ dec c variant bs = Ok (variant v)) as Hpay.
  { intros A c variant v n Hc Hn Hv.
    destruct (dec_prefix c variant _ _ v Hc Hv) as (bs & ? & ? & ?). exists bs. split_and!; [done|lia|lia|done]. }
  destruct m; simpl encode_payload; simpl decode_payload.
  - by eapply Hpay; [apply client_hello_ok|lia|].
  - by eapply Hpay; [apply server_hello_ok|lia|].
  - by eapply Hpay; [apply auth_ok|lia|].
  - by eapply Hpay; [apply auth_ok_ok|lia|].
  - by eapply Hpay; [apply register_service_ok|lia|].
  - by eapply Hpay; [apply register_ack_ok|lia|].
  - by eapply Hpay; [apply unregister_ok|lia|].
  - by eapply Hpay; [apply open_ok|lia|].
  - by eapply Hpay; [apply open_reject_ok|lia|].
  - by eapply Hpay; [apply ping_ok|lia|].
  - by eapply Hpay; [apply pong_ok|lia|].
  - by eapply Hpay; [apply drain_ok|lia|].
  - by eapply Hpay; [apply error_ok|lia|].
  - by eapply Hpay; [apply data_hello_ok|lia|].
  - by eapply Hpay; [apply register_reject_ok|lia|].
Qed.

Lemma payload_wf k bs m :
  decode_payload k bs = Ok m → (wf_message m = true ∧ kind m = k) ∧ 0 < len bs.
Proof.
  assert (∀ A (c : codec A) (variant : A → Message) sz,
    codec_ok c (fun v => wf_message (variant v)) sz → (∀ v, kind (variant v) = k) →
    dec c variant bs = Ok m → (wf_message m = true ∧ kind m = k) ∧ 0 < len bs) as H.
  { intros A c variant sz Hc Hk Hd. split; [by eapply dec_wf | by eapply dec_nonempty]. }
  destruct k; simpl; intros Hd; (eapply H in Hd; [exact Hd| |done]).
  - apply client_hello_ok.
  - apply server_hello_ok.
  - apply auth_ok.
  - apply auth_ok_ok.
  - apply register_service_ok.
  - apply register_ack_ok.
  - apply unregister_ok.
  - apply open_ok.
  - apply open_reject_ok.
  - apply ping_ok.
  - apply pong_ok.
  - apply drain_ok.
  - apply error_ok.
  - apply data_hello_ok.
  - apply register_reject_ok.
Qed.
End codec_laws.

(** ** Headers *)

Lemma slice_app a b l k : 0 <= a <= b → b <= len l → slice a b (l ++ k) = slice a b l.
Proof.
  intros Ha Hb. unfold slice, len in *.
  rewrite drop_app_le, take_app_le by (rewrite ?length_drop; lia). done.
Qed.

Lemma slice_mid l m k a b :
  a = len l → b = len l + len m → slice a b (l ++ m ++ k) = m.
Proof.
  intros -> ->. unfold slice. rewrite drop_len_app by done. by apply take_len_app; lia.
Qed.

Lemma len_header major minor id n : len (header major minor id n) = HEADER_LEN.
Proof. unfold header, len. by rewrite !length_app, !length_to_be. Qed.

Lemma header_slices major minor id n body :
  let input := header major minor id n ++ body in
  slice 0 4 input = MAGIC ∧ slice 4 6 input = to_be 2 major ∧ slice 6 8 input = to_be 2 minor ∧
  slice 8 10 input = to_be 2 id ∧ slice 10 14 input = to_be 4 n.
Proof.
  intros input. unfold input, header. rewrite <-!app_assoc. split_and!.
  - by apply (slice_mid []).
  - apply slice_mid; len_lia.
  - rewrite (app_assoc MAGIC). apply slice_mid; len_lia.
  - rewrite (app_assoc MAGIC), (app_assoc (_ ++ _)). apply slice_mid; len_lia.
  - rewrite (app_assoc MAGIC), (app_assoc (_ ++ _)), (app_assoc ((_ ++ _) ++ _)).
    apply slice_mid; len_lia.
Qed.

(** [decode_frame] on a header and what follows it. *)
Lemma decode_header major minor id n body :
  fits 16 major = true → fits 16 minor = true → fits 16 id = true → fits 32 n = true →
  decode_frame (header major minor id n ++ body) =
    (_ ← ensure (major =? PROTOCOL_MAJOR) (UnsupportedVersion major minor);
     k ← MessageType_try_from id;
     _ ← ensure (n <=? MAX_FRAME_BYTES) FrameTooLarge;
     _ ← ensure (n <=? len body) TruncatedFrame;
     m ← decode_payload k (take (Z.to_nat n) body);
     Ok (m, HEADER_LEN + n)).
Proof.
  rewrite !fits_iff. intros Hma Hmi Hid Hn.
  assert (len (header major minor id n ++ body) = HEADER_LEN + len body) as Hl
    by (by rewrite len_app, len_header).
  pose proof (len_nonneg body). unfold decode_frame. rewrite Hl.
  rewrite (proj2 (Z.ltb_ge (HEADER_LEN + len body) HEADER_LEN)) by lia.
  cbn [negb ensure mbind result_bind].
  assert (∀ w z, 0 <= z < 2 ^ (8 * Z.of_nat w) → from_be (to_be w z) = z) as Hbe.
  { intros w z Hz. apply from_to_be. by rewrite Z.pow_mul_r in Hz by lia. }
  destruct (header_slices major minor id n body) as (-> & -> & -> & -> & ->).
  rewrite !Hbe by done. rewrite bool_decide_eq_true_2 by done.
  cbn [ensure mbind result_bind]. destruct (major =? PROTOCOL_MAJOR); [|done].
  cbn [ensure mbind result_bind]. destruct (MessageType_try_from id); [|done].
  cbn [mbind result_bind]. rewrite <-Z.leb_antisym. destruct (n <=? MAX_FRAME_BYTES); [|done].
  cbn [ensure mbind result_bind].
  unfold checked_add, HEADER_LEN in *. rewrite (proj2 (Z.ltb_lt _ _)) by lia.
  cbn [ok_or mbind result_bind]. rewrite <-Z.leb_antisym.
  replace (14 + n <=? 14 + len body) with (n <=? len body)
    by (apply eq_true_iff_eq; rewrite !Z.leb_le; lia).
  destruct (n <=? len body); [|done]. cbn [ensure mbind result_bind]. unfold slice.
  rewrite drop_len_app by by rewrite len_header.
  by replace (14 + n - 14) with n by lia.
Qed.

(** ** Results of [decode_frame] *)

Lemma decode_payload_err k bs e : decode_payload k bs = Err e → e = InvalidPayload.
Proof.
  assert (∀ A (c : codec A) variant, dec c variant bs = Err e → e = InvalidPayload) as H.
  { intros A c variant. unfold dec. destruct (de c bs) as [[v [|]]|]; simpl; naive_solver. }
  destruct k; apply H.
Qed.

Lemma try_from_err id e : MessageType_try_from id = Err e → e = UnknownMessage id.
Proof. unfold MessageType_try_from. repeat case_match; naive_solver. Qed.

Lemma try_from_ok id k : MessageType_try_from id = Ok k → MessageType_id k = id.
Proof. unfold MessageType_try_from. repeat case_match; naive_solver. Qed.

Lemma try_from_total id : 1 <= id <= 15 → ∃ k, MessageType_try_from id = Ok k.
Proof.
  intros H. apply is_ok_true.
  assert (id ∈ [1; 2; 3; 4; 5; 6; 7; 8; 9; 10; 11; 12; 13; 14; 15]) as Hin.
  { rewrite !elem_of_cons. lia. }
  by repeat (apply elem_of_cons in Hin as [->|Hin]; [done|]); apply elem_of_nil in Hin.
Qed.

Lemma decode_total input m n :
  decode_frame input = Ok (m, n) →
  HEADER_LEN <= n <= len input ∧ n <= HEADER_LEN + MAX_FRAME_BYTES ∧
  ∃ k, decode_payload k (slice HEADER_LEN n input) = Ok m.
Proof.
  unfold decode_frame. intros H. res_simpl. simplify_eq. bools.
  unfold checked_add in *. case_match; simplify_eq.
  pose proof (from_be_range (slice 10 14 input)). split_and!; [lia|lia|lia|eauto].
Qed.

(** A verdict other than [TruncatedFrame] does not depend on later bytes. *)
Lemma decode_stable input rest :
  decode_frame input ≠ Err TruncatedFrame →
  decode_frame (input ++ rest) = decode_frame input.
Proof.
  unfold decode_frame. rewrite len_app. pose proof (len_nonneg rest).
  destruct (len input <? HEADER_LEN) eqn:Hh; [done|]. bools. unfold HEADER_LEN in *.
  rewrite (proj2 (Z.ltb_ge (len input + _) _)) by lia.
  rewrite !(slice_app 0 4), !(slice_app 4 6), !(slice_app 6 8), !(slice_app 8 10),
    !(slice_app 10 14) by lia.
  cbn [ensure negb mbind result_bind].
  destruct (bool_decide _); [|done]. cbn [ensure mbind result_bind].
  destruct (_ =? PROTOCOL_MAJOR); [|done]. cbn [ensure mbind result_bind].
  destruct (MessageType_try_from _) as [k|]; [|done]. cbn [mbind result_bind].
  pose proof (from_be_range (slice 10 14 input)) as Hr.
  set (n := from_be (slice 10 14 input)) in *.
  destruct (MAX_FRAME_BYTES <? n); [done|]. cbn [ensure negb mbind result_bind].
  unfold checked_add. case_match; [|done]. cbn [ok_or mbind result_bind].
  destruct (len input <? 14 + n) eqn:Ht; [done|]. bools.
  rewrite (proj2 (Z.ltb_ge (len input + _) _)) by lia. by rewrite slice_app by lia.
Qed.

Lemma decode_prefix input m n k :
  decode_frame input = Ok (m, n) → 0 <= k < n →
  decode_frame (take (Z.to_nat k) input) = Err TruncatedFrame.
Proof.
  intros Hd Hk. destruct (decode_total _ _ _ Hd) as [Hn _].
  assert (decode_frame (take (Z.to_nat k) input) = Err TruncatedFrame ∨
          decode_frame (take (Z.to_nat k) input) ≠ Err TruncatedFrame) as [|Hne]
    by (destruct (decode_frame (take _ _)) as [|[]]; naive_solver); [done|].
  pose proof (decode_stable _ (drop (Z.to_nat k) input) Hne) as Hs.
  rewrite take_drop, Hd in Hs. symmetry in Hs. apply decode_total in Hs as [Hs _].
  rewrite len_take in Hs by lia. lia.
Qed.

(** A payload that decodes to its message, framed. *)
Lemma frame_of_payload m p :
  encode_payload m = Ok p → len p <= MAX_FRAME_BYTES → decode_payload (kind m) p = Ok m →
  let bs := header PROTOCOL_MAJOR PROTOCOL_MINOR (MessageType_id (kind m)) (len p) ++ p in
  encode_frame m = Ok bs ∧ ∀ rest, decode_frame (bs ++ rest) = Ok (m, len bs).
Proof.
  intros Hp Hl Hd bs. pose proof (len_nonneg p) as Hp0. pose proof (id_fits (kind m)).
  assert (fits 32 (len p) = true) as Hf by (apply fits_iff; unfold MAX_FRAME_BYTES in *; lia).
  unfold bs. split.
  - unfold encode_frame, try_into. rewrite Hp. cbn [mbind result_bind].
    by rewrite (proj2 (Z.leb_le (len p) MAX_FRAME_BYTES)), Hf.
  - intros rest. rewrite <-app_assoc, decode_header by (done || apply fits_iff; lia).
    rewrite try_from_id, (len_app p), !(proj2 (Z.leb_le (len p) _))
      by (pose proof (len_nonneg rest); lia).
    cbn [ensure mbind result_bind]. rewrite take_len_app, Hd by done.
    by rewrite len_app, len_header.
Qed.

(** ** Properties *)

Section properties.
Context {laws : PostcardLaws pc}.

(** C7. Round trip: every message of the protocol encodes, to a frame of at
    most 4120 bytes, and decoding that frame in front of any other bytes
    returns the message and the exact number of bytes it took. *)
Theorem frame_roundtrip m :
  wf_message m = true →
  ∃ bs, encode_frame m = Ok bs ∧ len bs <= 4120 ∧
    ∀ rest, decode_frame (bs ++ rest) = Ok (m, len bs).
Proof.
  intros Hm. destruct (payload_roundtrip m Hm) as (p & Hp & Hl & Hd).
  destruct (frame_of_payload m p) as [He Hr]; [done|unfold MAX_FRAME_BYTES; lia|done|].
  eexists. split; [exact He|]. split; [|exact Hr].
  rewrite len_app, len_header. unfold HEADER_LEN. lia.
Qed.

(** C33. Whatever [decode_frame] accepts is a message its constructors could
    have built (no decoded name, host, diagnostic, capability list or token
    escapes its bound), the count is within the buffer and within the frame
    ceiling, and the message can be sent again and decodes to itself. *)
Theorem decode_frame_sound input m n :
  decode_frame input = Ok (m, n) →
  wf_message m = true ∧ HEADER_LEN <= n <= len input ∧ n <= HEADER_LEN + MAX_FRAME_BYTES ∧
  ∃ bs, encode_frame m = Ok bs ∧ decode_frame bs = Ok (m, len bs).
Proof.
  intros (? & ? & k & [[Hm _] _]%payload_wf)%decode_total. split_and!; try done; try lia.
  destruct (payload_roundtrip m Hm) as (p & Hp & Hl & Hd).
  destruct (frame_of_payload m p) as [He Hr]; [done|unfold MAX_FRAME_BYTES; lia|done|].
  eexists. split; [exact He|]. specialize (Hr []). by rewrite app_nil_r in Hr.
Qed.
End properties.

(** Incremental reading is safe: a verdict other than [TruncatedFrame] is
    the same however many bytes arrive later, and every strict prefix of an
    accepted frame is reported as truncated, never as an error or as a
    shorter frame. *)
Theorem decode_frame_incremental input :
  decode_frame input ≠ Err TruncatedFrame →
  (∀ rest, decode_frame (input ++ rest) = decode_frame input) ∧
  (∀ m n k, decode_frame input = Ok (m, n) → 0 <= k < n →
     decode_frame (take (Z.to_nat k) input) = Err TruncatedFrame).
Proof.
  intros H. split; [intros; by apply decode_stable|].
  intros m n k Hd Hk. by eapply decode_prefix.
Qed.

(** Hostile headers are refused from the header alone: for any 14-byte
    header with the right magic and whatever follows it, a foreign major
    version, an unknown message type and a declared length over the ceiling
    are reported in this order, before a byte of the payload is looked at;
    the minor version is never a reason to refuse. *)
Theorem decode_frame_header_first major minor id n body :
  fits 16 major = true → fits 16 minor = true → fits 16 id = true → fits 32 n = true →
  let verdict := decode_frame (header major minor id n ++ body) in
  (major ≠ PROTOCOL_MAJOR → verdict = Err (UnsupportedVersion major minor)) ∧
  (major = PROTOCOL_MAJOR → ¬ (1 <= id <= 15) → verdict = Err (UnknownMessage id)) ∧
  (major = PROTOCOL_MAJOR → 1 <= id <= 15 → MAX_FRAME_BYTES < n → verdict = Err FrameTooLarge) ∧
  (∀ minor', fits 16 minor' = true → major = PROTOCOL_MAJOR →
     verdict = decode_frame (header major minor' id n ++ body)).
Proof.
  intros Hma Hmi Hid Hn verdict. unfold verdict. rewrite decode_header by done. split_and!.
  - intros Hne. by rewrite (proj2 (Z.eqb_neq major _)).
  - intros -> Hne. simpl. destruct (MessageType_try_from id) as [k|e] eqn:E; simpl.
    + apply try_from_ok in E as <-. pose proof (id_fits k). lia.
    + by rewrite (try_from_err _ _ E).
  - intros -> Hi Hm. rewrite (proj2 (Z.leb_gt n MAX_FRAME_BYTES)) by done. simpl.
    by destruct (try_from_total id Hi) as [k ->].
  - intros minor' Hmi' ->. by rewrite decode_header.
Qed.
End frame.

(** ** Concrete frames *)

Definition sample_register : Message :=
  M_RegisterService (mkRegisterService (mkServiceId 7) (mkServiceName (lit "web-main"))
    (Ip (replicate 16 Byte.x00) 8080) (mkTcpTarget (lit "::1") 443)).

Definition sample_frame : list byte :=
  match encode_frame sample_register with Ok bs => bs | Err _ => [] end.

Lemma frame_roundtrip_witness :
  wf_message sample_register = true ∧
  ∃ bs, encode_frame sample_register = Ok bs ∧ len bs <= 4120 ∧
    ∀ rest, decode_frame (bs ++ rest) = Ok (sample_register, len bs).
Proof.
  split; [vm_compute; reflexivity|].
  apply (frame_roundtrip sample_register). vm_compute. reflexivity.
Defined.

Lemma decode_frame_sound_witness :
  wf_message sample_register = true ∧ HEADER_LEN <= 49 <= len sample_frame ∧
  49 <= HEADER_LEN + MAX_FRAME_BYTES ∧
  ∃ bs, encode_frame sample_register = Ok bs ∧ decode_frame bs = Ok (sample_register, len bs).
Proof. apply (decode_frame_sound sample_frame). vm_compute. reflexivity. Defined.

Lemma decode_frame_incremental_witness :
  (∀ rest, decode_frame (sample_frame ++ rest) = decode_frame sample_frame) ∧
  (∀ m n k, decode_frame sample_frame = Ok (m, n) → 0 <= k < n →
     decode_frame (take (Z.to_nat k) sample_frame) = Err TruncatedFrame).
Proof. apply (decode_frame_incremental sample_frame). vm_compute. discriminate. Defined.

Lemma decode_frame_header_first_witness :
  decode_frame (header 2 0 1 0 ++ []) = Err (UnsupportedVersion 2 0).
Proof. apply (decode_frame_header_first 2 0 1 0 []); try reflexivity. discriminate. Defined.
