(* ===== verification/Common.v ===== *)
(** * Shared policy, accounting and admission of crates/eggtunnel/src/common.rs

    Errors and their categories, secrets, bind admission, the finite runtime
    policy and the shared counters.  A [Duration] and an [Instant] are [Z]
    nanoseconds; [usize] and [u64] atomics are 64-bit cells that wrap. *)

From S2P Require Import Prelude Text Proto.

(** ** Errors *)

(** [std::io::ErrorKind]: the one kind the code distinguishes, and the rest. *)
Inductive ErrorKind := UnexpectedEof | OtherKind (code : Z).

Inductive TunnelError :=
| TE_Configuration (reason : string)
| TE_Io (k : ErrorKind)
| TE_Tls
| TE_Protocol (e : ProtocolError)
| TE_Authentication
| TE_Authorization
| TE_Disconnected
| TE_Cancelled
| TE_Timeout
| TE_Target
| TE_ResourceExhausted
| TE_ServiceAlreadyExists
| TE_PeerClosed.

Inductive TerminationCategory :=
| TC_Clean | TC_Cancelled | TC_Timeout | TC_Authentication | TC_Authorization | TC_Protocol
| TC_Transport | TC_Target | TC_ResourceExhausted | TC_PeerClosed | TC_Internal.

Definition termination_category (e : TunnelError) : TerminationCategory :=
  match e with
  | TE_Cancelled => TC_Cancelled
  | TE_Timeout => TC_Timeout
  | TE_Target => TC_Target
  | TE_ResourceExhausted => TC_ResourceExhausted
  | TE_PeerClosed => TC_PeerClosed
  | TE_Authentication => TC_Authentication
  | TE_Authorization => TC_Authorization
  | TE_ServiceAlreadyExists => TC_Authorization
  | TE_Protocol _ => TC_Protocol
  | TE_Io _ | TE_Tls | TE_Disconnected => TC_Transport
  | TE_Configuration _ => TC_Internal
  end.

#[export] Instance TerminationCategory_eq_dec : EqDecision TerminationCategory.
Proof. solve_decision. Defined.

(** ** Secrets and service descriptions *)

Record SecretToken := mkSecretToken { expose : list byte }.

Definition SecretToken_new (bytes : list byte) : result TunnelError SecretToken :=
  if (len bytes =? 0) || (MAX_AUTH_TOKEN_BYTES <? len bytes)
  then Err (TE_Configuration "token must contain 1..=4096 bytes")
  else Ok (mkSecretToken bytes).

Record ClientService := mkClientService
  { cs_id : ServiceId; cs_name : ServiceName; cs_requested_bind : RequestedBind;
    cs_target : TcpTarget }.

Record ServiceSpec := mkServiceSpec
  { ss_id : ServiceId; ss_name : ServiceName; ss_requested_bind : RequestedBind }.

#[export] Instance ClientService_eq_dec : EqDecision ClientService.
Proof. solve_decision. Defined.

(** ** Bind policy *)

Record BindPolicy := mkBindPolicy
  { allow_public_addresses : bool;
    allowed_addresses : list (list byte);
    allowed_port_ranges : list (Z * Z);
    allow_ephemeral_ports : bool;
    max_services_per_session : Z }.

Definition BindPolicy_default : BindPolicy := mkBindPolicy false [] [] true 64.
Definition loopback_only : BindPolicy := BindPolicy_default.

Definition BindPolicy_validate (p : BindPolicy) : result TunnelError unit :=
  if (max_services_per_session p =? 0) || (65536 <? max_services_per_session p)
     || (1024 <? len (allowed_addresses p))
     || existsb (fun '(start, stop) => (start =? 0) || (stop <? start)) (allowed_port_ranges p)
  then Err (TE_Configuration "bind policy is invalid")
  else Ok tt.

(** [SocketAddr]; the flow label and scope of an IPv6 socket are zero here. *)
Inductive SocketAddr :=
| V4 (ip : list byte) (port : Z)
| V6 (ip : list byte) (port : Z).

Definition LOCALHOST : list byte := replicate 15 Byte.x00 ++ [Byte.x01].

(** [Ipv6Addr::to_ipv4_mapped]: the prefix [::ffff:0:0/96]. *)
Definition mapped_prefix : list byte := replicate 10 Byte.x00 ++ [Byte.xff; Byte.xff].
Definition to_ipv4_mapped (ip : list byte) : option (list byte) :=
  if bool_decide (take 12 ip = mapped_prefix) then Some (drop 12 ip) else None.
Definition to_ipv6_mapped (ip4 : list byte) : list byte := mapped_prefix ++ ip4.

Definition is_loopback_octets (address : list byte) : bool :=
  if bool_decide (address = LOCALHOST) then true
  else match to_ipv4_mapped address with
       | Some mapped => bool_decide (head mapped = Some (byte_of 127))
       | None => false
       end.

Definition permits_address (p : BindPolicy) (address : list byte) (is_loopback : bool) : bool :=
  (is_loopback || allow_public_addresses p)
  && (bool_decide (allowed_addresses p = []) || bool_decide (address ∈ allowed_addresses p)).

Definition permits_port (p : BindPolicy) (port : Z) : bool :=
  if port =? 0 then allow_ephemeral_ports p
  else bool_decide (allowed_port_ranges p = [])
       || existsb (fun '(start, stop) => (start <=? port) && (port <=? stop)) (allowed_port_ranges p).

Definition bind_to_socket (request : RequestedBind) (p : BindPolicy) : result TunnelError SocketAddr :=
  match request with
  | Loopback port =>
      if negb (permits_address p LOCALHOST true) || negb (permits_port p port)
      then Err TE_Authorization else Ok (V6 LOCALHOST port)
  | Ip address port =>
      if negb (permits_address p address (is_loopback_octets address)) || negb (permits_port p port)
      then Err TE_Authorization else Ok (V6 address port)
  end.

(** ** Runtime policy *)

Definition from_millis (n : Z) : Z := n * 1000000.
Definition from_secs (n : Z) : Z := n * 1000000000.
Definition as_millis (d : Z) : Z := d / 1000000.

Record ResourceLimits := mkResourceLimits
  { sessions_limit : Z; services_per_session : Z; pending_per_session : Z;
    active_connections_per_session : Z; accepted_handshakes : Z; client_open_tasks : Z;
    control_queue : Z; client_command_queue : Z }.

Definition limit_values (l : ResourceLimits) : list Z :=
  [sessions_limit l; services_per_session l; pending_per_session l;
   active_connections_per_session l; accepted_handshakes l; client_open_tasks l;
   control_queue l; client_command_queue l].

Definition MAX_CONFIGURED_LIMIT : Z := 65536.

Definition ResourceLimits_validate (l : ResourceLimits) : result TunnelError unit :=
  if existsb (fun value => (value =? 0) || (MAX_CONFIGURED_LIMIT <? value)) (limit_values l)
  then Err (TE_Configuration "resource limits must be in 1..=65536")
  else Ok tt.

Definition ResourceLimits_default : ResourceLimits :=
  mkResourceLimits 128 64 128 128 64 128 128 32.

Record TimeoutPolicy := mkTimeoutPolicy
  { connect_timeout : Z; handshake_timeout : Z; control_idle : Z; pending_connection : Z;
    relay_drain : Z; shutdown_grace : Z; reconnect_initial : Z; reconnect_max : Z;
    heartbeat_interval : Z }.

Definition timeout_values (t : TimeoutPolicy) : list Z :=
  [connect_timeout t; handshake_timeout t; control_idle t; pending_connection t; relay_drain t;
   shutdown_grace t; reconnect_initial t; reconnect_max t; heartbeat_interval t].

Definition MAX_TIMEOUT : Z := from_secs 86400.

Definition TimeoutPolicy_validate (t : TimeoutPolicy) : result TunnelError unit :=
  if existsb (fun value => (value =? 0) || (MAX_TIMEOUT <? value)) (timeout_values t)
     || (reconnect_max t <? reconnect_initial t)
     || (control_idle t <=? heartbeat_interval t)
  then Err (TE_Configuration "timeout policy is invalid")
  else Ok tt.

Definition TimeoutPolicy_default : TimeoutPolicy :=
  mkTimeoutPolicy (from_secs 10) (from_secs 10) (from_secs 90) (from_secs 30) (from_secs 15)
    (from_secs 1) (from_millis 500) (from_secs 30) (from_secs 20).

Record RuntimePolicy := mkRuntimePolicy { limits : ResourceLimits; timeouts : TimeoutPolicy }.

Definition RuntimePolicy_default : RuntimePolicy :=
  mkRuntimePolicy ResourceLimits_default TimeoutPolicy_default.

Definition RuntimePolicy_validate (p : RuntimePolicy) : result TunnelError unit :=
  _ ← ResourceLimits_validate (limits p); TimeoutPolicy_validate (timeouts p).

(** ** Counters

    The atomics of [Counters] are cells named by their field; an update is one
    atomic read-modify-write, so a [fetch_*] is a function of the whole state
    and the value it returns is [load] of the state before. *)

Inductive Cell :=
| n_connected | n_sessions | n_services | n_pending | n_active_connections | n_open_tasks
| n_handshakes | n_high_water_sessions | n_high_water_services | n_high_water_pending
| n_high_water_active_connections | n_high_water_open_tasks | n_high_water_handshakes
| n_task_panics | n_reconnects | n_rejected | n_bytes_upstream | n_bytes_downstream
| n_session_generation.

#[export] Instance Cell_eq_dec : EqDecision Cell.
Proof. solve_decision. Defined.

Record HeartbeatState := mkHeartbeatState
  { last_pong_at : option Z; latest_rtt_ms : option Z; missed_heartbeats : Z }.

Definition HeartbeatState_default : HeartbeatState := mkHeartbeatState None None 0.

Record BindEntry := mkBindEntry
  { be_session : SessionId; be_service : ServiceId; be_bind : EffectiveBind }.

#[export] Instance BindEntry_eq_dec : EqDecision BindEntry.
Proof. solve_decision. Defined.

Record Counters := mkCounters
  { ctr_policy : RuntimePolicy;
    ctr_cell : Cell → Z;
    ctr_last_termination : option TerminationCategory;
    ctr_binds : list BindEntry;
    ctr_heartbeat : HeartbeatState }.

Definition with_policy (p : RuntimePolicy) : Counters :=
  mkCounters p (fun _ => 0) None [] HeartbeatState_default.

Definition load (f : Cell) (c : Counters) : Z := ctr_cell c f.

Definition store (f : Cell) (z : Z) (c : Counters) : Counters :=
  mkCounters (ctr_policy c) (fun g => if decide (g = f) then z else ctr_cell c g)
    (ctr_last_termination c) (ctr_binds c) (ctr_heartbeat c).

Definition fetch_add (f : Cell) (n : Z) (c : Counters) : Counters :=
  store f (wrap 64 (load f c + n)) c.
Definition fetch_sub (f : Cell) (n : Z) (c : Counters) : Counters :=
  store f (wrap 64 (load f c - n)) c.
Definition fetch_max (f : Cell) (n : Z) (c : Counters) : Counters :=
  store f (Z.max (load f c) n) c.

(** A gauge that goes up with its high-water mark. *)
Definition raise (gauge high : Cell) (c : Counters) : Counters :=
  let active := wrap 64 (load gauge c + 1) in
  fetch_max high active (fetch_add gauge 1 c).

(** [binds.lock()] and a mutation of the table; [Arc::make_mut] copies a table
    a reader still holds, so a table once read never changes. *)
Definition with_bind_table_mut (mutate : list BindEntry → list BindEntry) (c : Counters) : Counters :=
  mkCounters (ctr_policy c) (ctr_cell c) (ctr_last_termination c) (mutate (ctr_binds c))
    (ctr_heartbeat c).

Definition bind_table_shared (c : Counters) : list BindEntry := ctr_binds c.

Definition record_termination (t : TerminationCategory) (c : Counters) : Counters :=
  mkCounters (ctr_policy c) (ctr_cell c) (Some t) (ctr_binds c) (ctr_heartbeat c).

Definition set_heartbeat (h : HeartbeatState) (c : Counters) : Counters :=
  mkCounters (ctr_policy c) (ctr_cell c) (ctr_last_termination c) (ctr_binds c) h.

Definition record_heartbeat_missed (c : Counters) : Counters :=
  let h := ctr_heartbeat c in
  set_heartbeat (mkHeartbeatState (last_pong_at h) (latest_rtt_ms h)
                   (saturating_add 64 (missed_heartbeats h) 1)) c.

(** [now.saturating_duration_since(t)], and its milliseconds as a [u64]. *)
Definition saturating_duration_since (now t : Z) : Z := Z.max 0 (now - t).
Definition millis_since (now t : Z) : Z :=
  default (umax 64) (try_into 64 (as_millis (saturating_duration_since now t))).

Definition record_heartbeat_pong (now sent_at : Z) (c : Counters) : Counters :=
  set_heartbeat (mkHeartbeatState (Some now) (Some (millis_since now sent_at)) 0) c.

(** The outcome of a joined task: finished, cancelled or panicked. *)
Inductive JoinResult := Joined | JoinCancelled | JoinPanic.

Definition record_join_result (r : JoinResult) (c : Counters) : Counters :=
  match r with
  | JoinPanic => record_termination TC_Internal (fetch_add n_task_panics 1 c)
  | _ => c
  end.

(** [begin_session] with nobody else at the counter. *)
Definition begin_session (c : Counters) : result TunnelError (Z * Counters) :=
  next ← ok_or (checked_add 64 (load n_session_generation c) 1) TE_ResourceExhausted;
  Ok (next, set_heartbeat HeartbeatState_default (store n_session_generation next c)).

Record HeartbeatSnapshot := mkHeartbeatSnapshot
  { hs_session_generation : Z; hs_last_pong_age_ms : option Z; hs_latest_rtt_ms : option Z;
    hs_missed_heartbeats : Z }.

Record Snapshot := mkSnapshot
  { sn_connected : bool; sn_active_sessions : Z; sn_registered_services : Z;
    sn_pending_connections : Z; sn_active_connections : Z; sn_active_client_open_tasks : Z;
    sn_active_handshakes : Z; sn_high_water_sessions : Z; sn_high_water_services : Z;
    sn_high_water_pending_connections : Z; sn_high_water_active_connections : Z;
    sn_high_water_client_open_tasks : Z; sn_high_water_handshakes : Z; sn_task_panics : Z;
    sn_last_termination : option TerminationCategory; sn_heartbeat : HeartbeatSnapshot;
    sn_resource_limits : ResourceLimits; sn_reconnects : Z; sn_rejected_connections : Z;
    sn_bytes_upstream : Z; sn_bytes_downstream : Z; sn_effective_binds : list BindEntry }.

Definition snapshot (now : Z) (c : Counters) : Snapshot :=
  {| sn_connected := 0 <? load n_connected c;
     sn_active_sessions := load n_sessions c;
     sn_registered_services := load n_services c;
     sn_pending_connections := load n_pending c;
     sn_active_connections := load n_active_connections c;
     sn_active_client_open_tasks := load n_open_tasks c;
     sn_active_handshakes := load n_handshakes c;
     sn_high_water_sessions := load n_high_water_sessions c;
     sn_high_water_services := load n_high_water_services c;
     sn_high_water_pending_connections := load n_high_water_pending c;
     sn_high_water_active_connections := load n_high_water_active_connections c;
     sn_high_water_client_open_tasks := load n_high_water_open_tasks c;
     sn_high_water_handshakes := load n_high_water_handshakes c;
     sn_task_panics := load n_task_panics c;
     sn_last_termination := ctr_last_termination c;
     sn_heartbeat := mkHeartbeatSnapshot (load n_session_generation c)
       (millis_since now <$> last_pong_at (ctr_heartbeat c))
       (latest_rtt_ms (ctr_heartbeat c)) (missed_heartbeats (ctr_heartbeat c));
     sn_resource_limits := limits (ctr_policy c);
     sn_reconnects := load n_reconnects c;
     sn_rejected_connections := load n_rejected c;
     sn_bytes_upstream := load n_bytes_upstream c;
     sn_bytes_downstream := load n_bytes_downstream c;
     sn_effective_binds := bind_table_shared c |}.

(** ** [begin_session] under contention

    The loop of one thread, one shared access at a time: the load, then
    compare-exchange attempts.  A weak compare-exchange may fail though the
    value matched; a failure yields the value it observed. *)

Inductive Thread :=
| T_start
| T_loop (current : Z)
| T_won (generation : Z)
| T_exhausted.

Inductive thread_step : Z → Thread → Z → Thread → Prop :=
| step_load v : thread_step v T_start v (T_loop v)
| step_exhausted v current :
    checked_add 64 current 1 = None → thread_step v (T_loop current) v T_exhausted
| step_exchanged current next :
    checked_add 64 current 1 = Some next →
    thread_step current (T_loop current) next (T_won next)
| step_observed v current next :
    checked_add 64 current 1 = Some next → thread_step v (T_loop current) v (T_loop v).

(** Any thread moves; the threads share the generation cell. *)
Inductive contention : Z * list Thread → Z * list Thread → Prop :=
| thread_moves v v' ts i t t' :
    ts !! i = Some t → thread_step v t v' t' → contention (v, ts) (v', <[i := t']> ts).

Definition won (t : Thread) : option Z :=
  match t with T_won g => Some g | _ => None end.

Definition generations (ts : list Thread) : list Z := omap won ts.

(** ** Token verification

    [left.ct_eq(&right)] is the [subtle] crate's: an argument here. *)

Definition WIDTH : Z := MAX_AUTH_TOKEN_BYTES.

(** [arr[start..start + bytes.len()].copy_from_slice(bytes)]. *)
Definition copy_at (start : Z) (bytes arr : list byte) : list byte :=
  take (Z.to_nat start) arr ++ bytes ++ drop (Z.to_nat (start + len bytes)) arr.

Definition padded (bytes : list byte) : list byte :=
  copy_at WIDTH (to_be 2 (wrap 16 (len bytes)))
    (copy_at 0 bytes (replicate (Z.to_nat (WIDTH + 2)) Byte.x00)).

Definition verify_token (ct_eq : list byte → list byte → bool)
    (expected : SecretToken) (received : list byte) : bool :=
  if (WIDTH <? len (expose expected)) || (WIDTH <? len received) then false
  else ct_eq (padded (expose expected)) (padded received).

(** ** Lemmas: tokens *)

Lemma padded_app bytes :
  len bytes <= WIDTH →
  padded bytes =
    bytes ++ replicate (Z.to_nat (WIDTH - len bytes)) Byte.x00 ++ to_be 2 (len bytes).
Proof.
  unfold padded, copy_at. intros Hl. pose proof (len_nonneg bytes).
  set (n := Z.to_nat (WIDTH - len bytes)).
  assert (take (Z.to_nat 0) (replicate (Z.to_nat (WIDTH + 2)) Byte.x00) ++ bytes ++
            drop (Z.to_nat (0 + len bytes)) (replicate (Z.to_nat (WIDTH + 2)) Byte.x00)
          = (bytes ++ replicate n Byte.x00) ++ replicate 2 Byte.x00) as ->.
  { change (Z.to_nat 0) with 0%nat. rewrite take_0, app_nil_l.
    rewrite drop_replicate, <-app_assoc, <-replicate_add. do 2 f_equal. unfold n. lia. }
  rewrite wrap_small by (unfold WIDTH, MAX_AUTH_TOKEN_BYTES in *; lia).
  assert (len (bytes ++ replicate n Byte.x00) = WIDTH) as Hw.
  { rewrite len_app. unfold len at 2. rewrite length_replicate. unfold n. lia. }
  rewrite take_len_app by done. rewrite drop_ge.
  - by rewrite app_nil_r, <-app_assoc.
  - rewrite length_app, length_replicate. unfold len in *. rewrite length_to_be. lia.
Qed.

Lemma length_padded bytes : len bytes <= WIDTH → len (padded bytes) = WIDTH + 2.
Proof.
  intros. rewrite padded_app by done. pose proof (len_nonneg bytes).
  rewrite !len_app. unfold len in *. rewrite length_replicate, length_to_be. lia.
Qed.

Lemma padded_inj a b : len a <= WIDTH → len b <= WIDTH → padded a = padded b → a = b.
Proof.
  intros Ha Hb. rewrite !padded_app, !app_assoc by done. intros H.
  pose proof (len_nonneg a). pose proof (len_nonneg b).
  apply app_inj_2 in H as [Hp Hn]; [|by rewrite !length_to_be].
  apply (f_equal from_be) in Hn. unfold WIDTH, MAX_AUTH_TOKEN_BYTES in *.
  rewrite !from_to_be in Hn by (change (256 ^ Z.of_nat 2) with 65536; lia).
  apply app_inj_1 in Hp as [? _]; [done|]. unfold len in *. lia.
Qed.

(** ** Lemmas: counters *)

Lemma load_store f g z c : load f (store g z c) = if decide (f = g) then z else load f c.
Proof. done. Qed.

Lemma load_store_eq f z c : load f (store f z c) = z.
Proof. rewrite load_store. by rewrite decide_True. Qed.

Lemma load_store_ne f g z c : f ≠ g → load f (store g z c) = load f c.
Proof. intros. rewrite load_store. by rewrite decide_False. Qed.

(** ** Lemmas: generations *)

Lemma generations_insert ts i t t' :
  ts !! i = Some t → won t = None →
  generations (<[i := t']> ts) ≡ₚ option_list (won t') ++ generations ts.
Proof.
  intros Hi Ht. unfold generations.
  rewrite <-(take_drop_middle ts i t Hi) at 2.
  rewrite insert_take_drop by (by eapply lookup_lt_Some).
  rewrite !omap_app. simpl. rewrite Ht.
  destruct (won t'); simpl; [|done]. by rewrite <-Permutation_middle.
Qed.

Record contention_inv (v0 : Z) (s : Z * list Thread) : Prop :=
  { ci_range : v0 <= s.1 < 2 ^ 64;
    ci_generations : generations s.2 ≡ₚ seqZ (v0 + 1) (s.1 - v0);
    ci_loop i c : s.2 !! i = Some (T_loop c) → c <= s.1;
    ci_exhausted i : s.2 !! i = Some T_exhausted → s.1 = umax 64 }.

Lemma contention_preserves v0 s s' :
  contention_inv v0 s → contention s s' → contention_inv v0 s'.
Proof.
  intros [Hr Hg Hl Hx] Hstep. destruct Hstep as [v v' ts i t t' Hi Ht]. simpl in *.
  pose proof (lookup_lt_Some _ _ _ Hi) as Hlt.
  assert (∀ t2 j, <[i := t']> ts !! j = Some t2 → (j = i ∧ t2 = t') ∨ ts !! j = Some t2) as Hlook.
  { intros t2 j. destruct (decide (j = i)) as [->|].
    - rewrite list_lookup_insert_eq by done. naive_solver.
    - rewrite list_lookup_insert_ne by done. by right. }
  destruct Ht as [v|v cur Hc|cur next Hc|v cur next Hc]; unfold checked_add, umax in *;
    try (case_match; simplify_eq; bools); split; simpl; try lia;
    try (rewrite (generations_insert _ _ _ _ Hi) by done; simpl; try done);
    try (intros j c2 Hj; apply Hlook in Hj as [[-> ?]|Hj]; simplify_eq; try lia;
         specialize (Hl _ _ Hj); lia);
    try (intros j Hj; apply Hlook in Hj as [[-> ?]|Hj]; simplify_eq; unfold umax;
         first [specialize (Hx _ Hj); lia | specialize (Hl _ _ Hi); lia]).
  replace (cur + 1 - v0) with (cur - v0 + 1) by lia.
  rewrite seqZ_app, Hg by lia. replace (v0 + 1 + (cur - v0)) with (cur + 1) by lia.
  by rewrite Permutation_app_comm.
Qed.

(** ** Lemmas: policies *)

Lemma loopback_octets_iff address :
  wf_id address = true →
  is_loopback_octets address = true ↔
  address = LOCALHOST ∨ ∃ a b c, address = mapped_prefix ++ [byte_of 127; a; b; c].
Proof.
  unfold wf_id, is_loopback_octets, to_ipv4_mapped. rewrite Nat.eqb_eq. intros Hl.
  destruct (bool_decide (address = LOCALHOST)) eqn:E1; bools; [by naive_solver|].
  destruct (bool_decide (take 12 address = _)) eqn:E2; bools.
  - rewrite bool_decide_eq_true. split.
    + intros Hh. right. pose proof (length_drop address 12) as Hd. rewrite Hl in Hd.
      destruct (drop 12 address) as [|x [|a [|b [|c [|]]]]] eqn:E3; simplify_eq/=.
      exists a, b, c. rewrite <-(take_drop 12 address). by rewrite E2, E3.
    + intros [?|(a & b & c & ->)]; done.
  - split; [done|]. intros [?|(a & b & c & ->)]; [done|]. by destruct E2.
Qed.

Lemma ranges_iff p port :
  existsb (fun '(start, stop) => (start <=? port) && (port <=? stop)) (allowed_port_ranges p) = true
  ↔ ∃ start stop, (start, stop) ∈ allowed_port_ranges p ∧ start <= port <= stop.
Proof.
  rewrite existsb_exists. setoid_rewrite <-list_elem_of_In. split.
  - intros ([s e] & ? & ?). bools. exists s, e. split; [done|lia].
  - intros (s & e & ? & ?). exists (s, e). rewrite andb_true_iff, !Z.leb_le. done.
Qed.

Lemma existsb_range max l :
  existsb (fun value => (value =? 0) || (max <? value)) l = false ↔
  Forall (fun value => value ≠ 0 ∧ value <= max) l.
Proof.
  induction l as [|x l IH]; simpl; [by split|].
  rewrite !orb_false_iff, Forall_cons_iff, IH, Z.eqb_neq, Z.ltb_ge. done.
Qed.

Lemma limits_validate_ok l :
  ResourceLimits_validate l = Ok tt ↔ Forall (fun v => v ≠ 0 ∧ v <= MAX_CONFIGURED_LIMIT) (limit_values l).
Proof.
  unfold ResourceLimits_validate. rewrite <-existsb_range. by case_match.
Qed.

Lemma timeouts_validate_ok t :
  TimeoutPolicy_validate t = Ok tt ↔
  Forall (fun v => v ≠ 0 ∧ v <= MAX_TIMEOUT) (timeout_values t) ∧
  reconnect_initial t <= reconnect_max t ∧ heartbeat_interval t < control_idle t.
Proof.
  unfold TimeoutPolicy_validate. rewrite <-existsb_range.
  destruct (existsb _ _); simpl; [naive_solver|].
  destruct (reconnect_max t <? reconnect_initial t) eqn:E1; bools; simpl; [naive_solver lia|].
  destruct (control_idle t <=? heartbeat_interval t) eqn:E2; bools; naive_solver lia.
Qed.

(** ** Properties *)

(** Session generations are unique under contention: however any number
    of threads interleave their loads and weak compare-exchanges, the
    generations handed out are exactly [v0 + 1 .. v], each once; the counter
    never wraps, and a thread is refused only when it is exhausted. *)
Theorem begin_session_unique v0 n v ts :
  0 <= v0 < 2 ^ 64 →
  rtc contention (v0, replicate n T_start) (v, ts) →
  generations ts ≡ₚ seqZ (v0 + 1) (v - v0) ∧ NoDup (generations ts) ∧
  v0 <= v < 2 ^ 64 ∧ (T_exhausted ∈ ts → v = umax 64).
Proof.
  intros Hv0 Hrun.
  assert (contention_inv v0 (v, ts)) as [Hr Hg _ Hx].
  { refine (rtc_ind_r (contention_inv v0) _ _ _ _ Hrun).
    - split; simpl; [lia| |intros ?? [? _]%lookup_replicate; done|intros ? [? _]%lookup_replicate; done].
      rewrite Z.sub_diag. clear. induction n as [|n IH]; [done|]. exact IH.
    - intros. by eapply contention_preserves. }
  simpl in *. split_and!; [done| |lia|lia|].
  - rewrite Hg. apply NoDup_seqZ.
  - intros [i Hi]%list_elem_of_lookup. by eapply Hx.
Qed.

Lemma begin_session_unique_witness :
  generations [T_won 2; T_won 1] ≡ₚ seqZ 1 2 ∧ NoDup (generations [T_won 2; T_won 1]) ∧
  0 <= 2 < 2 ^ 64 ∧ (T_exhausted ∈ [T_won 2; T_won 1] → 2 = umax 64).
Proof.
  apply (begin_session_unique 0 2 2 [T_won 2; T_won 1]); [lia|].
  eapply rtc_l. { apply (thread_moves 0 0 _ 0%nat T_start (T_loop 0)); [done|constructor]. }
  eapply rtc_l. { apply (thread_moves 0 0 _ 1%nat T_start (T_loop 0)); [done|constructor]. }
  eapply rtc_l. { apply (thread_moves 0 1 _ 1%nat (T_loop 0) (T_won 1)); [done|by constructor]. }
  eapply rtc_l. { apply (thread_moves 1 1 _ 0%nat (T_loop 0) (T_loop 1)); [done|].
                  by apply (step_observed 1 0 1). }
  eapply rtc_l. { apply (thread_moves 1 2 _ 0%nat (T_loop 1) (T_won 2)); [done|by constructor]. }
  apply rtc_refl.
Defined.

Lemma wrap_sub a b : wrap 64 (wrap 64 a - b) = wrap 64 (a - b).
Proof. unfold wrap. apply Zminus_mod_idemp_l. Qed.

Lemma wrap_add a b : wrap 64 (wrap 64 a + b) = wrap 64 (a + b).
Proof. unfold wrap. apply Zplus_mod_idemp_l. Qed.

Lemma raise_gauge gauge high c : high ≠ gauge → load gauge (raise gauge high c) = wrap 64 (load gauge c + 1).
Proof. intros Hne. unfold raise, fetch_max, fetch_add. by rewrite load_store_ne, load_store_eq. Qed.

Lemma verify_token_iff ct_eq token bytes received :
  (∀ a b, length a = length b → ct_eq a b = true ↔ a = b) →
  SecretToken_new bytes = Ok token →
  verify_token ct_eq token received = true ↔ received = bytes.
Proof.
  intros Hct. unfold SecretToken_new, verify_token. case_match; intros [= <-]. simpl. bools.
  unfold WIDTH at 1 2. rewrite (proj2 (Z.ltb_ge _ _)) by done. simpl.
  case_match; bools.
  - split; [done|]. intros ->. lia.
  - fold WIDTH in *. rewrite Hct.
    + split; [|by intros ->]. intros Hp. symmetry. by apply padded_inj.
    + pose proof (length_padded bytes). pose proof (length_padded received).
      unfold len in *. lia.
Qed.

(** [verify_token] accepts exactly the configured token.  The one
    comparison of two padded 4098-byte buffers tells tokens of different
    lengths apart (padding does not alias) and, for a constructed
    [SecretToken], an over-long candidate is refused; [ct_eq] is assumed to
    decide equality of buffers of the same length. *)
Theorem verify_token_correct ct_eq token bytes received :
  (∀ a b, length a = length b → ct_eq a b = true ↔ a = b) →
  SecretToken_new bytes = Ok token →
  verify_token ct_eq token received = true ↔ received = bytes.
Proof. apply verify_token_iff. Qed.

Lemma verify_token_correct_witness :
  verify_token (fun a b => bool_decide (a = b)) (mkSecretToken [Byte.x41]) [Byte.x41; Byte.x00] = true
  ↔ [Byte.x41; Byte.x00] = [Byte.x41].
Proof.
  apply (verify_token_correct (fun a b => bool_decide (a = b)) (mkSecretToken [Byte.x41]) [Byte.x41]
           [Byte.x41; Byte.x00]).
  - intros a b _. apply bool_decide_eq_true.
  - reflexivity.
Defined.

(** C34. Bind admission: a socket is granted exactly when the policy allows
    the requested address and port, and it is the requested one.  Without the
    public switch the address is [::1] or IPv4-mapped [127.0.0.0/8]; an
    allow-list confines every request, the loopback one included; port 0
    needs the ephemeral switch and any other port one of the ranges, if any
    range is configured.  Every refusal is [Authorization]. *)
Theorem bind_to_socket_confined request p :
  wf_bind request = true →
  let ip := match request with Loopback _ => LOCALHOST | Ip a _ => a end in
  let port := match request with Loopback n => n | Ip _ n => n end in
  (bind_to_socket request p = Ok (V6 ip port) ↔
     ((ip = LOCALHOST ∨ ∃ a b c, ip = mapped_prefix ++ [byte_of 127; a; b; c]) ∨
      allow_public_addresses p = true) ∧
     (allowed_addresses p = [] ∨ ip ∈ allowed_addresses p) ∧
     (if port =? 0 then allow_ephemeral_ports p = true
      else allowed_port_ranges p = [] ∨
           ∃ start stop, (start, stop) ∈ allowed_port_ranges p ∧ start <= port <= stop)) ∧
  (∀ addr, bind_to_socket request p = Ok addr → addr = V6 ip port) ∧
  (∀ e, bind_to_socket request p = Err e → e = TE_Authorization).
Proof.
  intros Hw ip port.
  assert (bind_to_socket request p =
    if negb (permits_address p ip (is_loopback_octets ip)) || negb (permits_port p port)
    then Err TE_Authorization else Ok (V6 ip port)) as ->
    by (by destruct request).
  split; [|split; intros ?; case_match; naive_solver].
  assert (wf_id ip = true) as Hip by (destruct request; simpl in *; bools; done).
  rewrite <-(loopback_octets_iff _ Hip). unfold permits_address, permits_port.
  destruct (port =? 0); [|rewrite <-ranges_iff; destruct (existsb _ _)];
  destruct (is_loopback_octets ip), (allow_public_addresses p), (allow_ephemeral_ports p),
    (bool_decide (allowed_addresses p = [])) eqn:?, (bool_decide (ip ∈ _)) eqn:?,
    (bool_decide (allowed_port_ranges p = [])) eqn:?; bools; simpl; naive_solver.
Qed.

Lemma bind_to_socket_confined_witness :
  bind_to_socket (Loopback 8080) BindPolicy_default = Ok (V6 LOCALHOST 8080).
Proof.
  apply (bind_to_socket_confined (Loopback 8080) BindPolicy_default); [reflexivity|].
  split_and!; [left; left; reflexivity | left; reflexivity | left; reflexivity].
Defined.

(** Every ceiling and every timeout is finite and they fit together. *)
Definition finite_policy (p : RuntimePolicy) : Prop :=
  Forall (fun v => 1 <= v <= 65536) (limit_values (limits p)) ∧
  Forall (fun v => 1 <= v <= from_secs 86400) (timeout_values (timeouts p)) ∧
  reconnect_initial (timeouts p) <= reconnect_max (timeouts p) ∧
  heartbeat_interval (timeouts p) < control_idle (timeouts p).

Lemma policy_limits p : finite_policy p →
  1 <= services_per_session (limits p) <= 65536 ∧ 1 <= client_open_tasks (limits p) <= 65536 ∧
  1 <= control_queue (limits p) <= 65536.
Proof. intros (H & _). unfold limit_values in H. rewrite !Forall_cons_iff in H. tauto. Qed.

Lemma policy_reconnect p : finite_policy p →
  1 <= reconnect_initial (timeouts p) <= reconnect_max (timeouts p) ∧
  reconnect_max (timeouts p) <= from_secs 86400.
Proof.
  intros (_ & H & Hr & _). unfold timeout_values in H. rewrite !Forall_cons_iff in H.
  destruct H as (_ & _ & _ & _ & _ & _ & [? _] & [_ ?] & _). lia.
Qed.

Lemma validate_finite p :
  Forall (fun v => 0 <= v) (limit_values (limits p)) →
  Forall (fun v => 0 <= v) (timeout_values (timeouts p)) →
  RuntimePolicy_validate p = Ok tt ↔
  finite_policy p.
Proof.
  intros Hl Ht. unfold RuntimePolicy_validate, finite_policy.
  assert (∀ l max, Forall (fun v => 0 <= v) l →
    Forall (fun v => v ≠ 0 ∧ v <= max) l ↔ Forall (fun v => 1 <= v <= max) l) as Hpos.
  { intros l max H. induction H as [|x l Hx _ IH]; [by split|]. rewrite !Forall_cons_iff, IH.
    split; intros [? ?]; (split; [lia|done]). }
  rewrite <-(Hpos _ 65536 Hl), <-(Hpos _ _ Ht), <-timeouts_validate_ok.
  change 65536 with MAX_CONFIGURED_LIMIT. rewrite <-limits_validate_ok.
  destruct (ResourceLimits_validate _) as [[]|]; simpl; naive_solver.
Qed.

(** [RuntimePolicy::validate] accepts exactly the finite policies: every
    ceiling in 1..=65536, every timeout non-zero and at most a day, the
    initial back-off within the maximal one and the heartbeat interval
    shorter than the idle timeout. *)
Theorem runtime_policy_finite p :
  Forall (fun v => 0 <= v) (limit_values (limits p)) →
  Forall (fun v => 0 <= v) (timeout_values (timeouts p)) →
  RuntimePolicy_validate p = Ok tt ↔
  finite_policy p.
Proof. apply validate_finite. Qed.

Lemma runtime_policy_finite_witness : RuntimePolicy_validate RuntimePolicy_default = Ok tt.
Proof.
  apply (runtime_policy_finite RuntimePolicy_default);
    [repeat constructor; vm_compute; discriminate..|].
  split_and!; [repeat constructor; vm_compute; discriminate..| | ]; vm_compute; [discriminate|reflexivity].
Defined.
