(* ===== verification/WireIo.v ===== *)
(** * Framed I/O of crates/eggtunnel/src/wire_io.rs

    A peer's stream is what it will deliver: some bytes and how it ends.  An
    asynchronous read is a [poll]: ready with a value, or pending for as long
    as the stream stalls; what a timeout makes of a pending read is the
    caller's. *)

From S2P Require Import Prelude Text Proto Codec Varint Frame Common.

(** After the delivered bytes the stream is closed, fails or stays silent. *)
Inductive Ending := Closed | Broken (k : ErrorKind) | Stalled.

Record Reader := mkReader { available : list byte; ending : Ending }.

Inductive poll (A : Type) := Ready (a : A) | Pending.
Arguments Ready {A} a.
Arguments Pending {A}.

#[export] Instance poll_bind : MBind poll :=
  fun A B f p => match p with Ready a => f a | Pending => Pending end.

(** The outcome of an I/O step and the stream it leaves. *)
Abbreviation io A := (poll (result ErrorKind A * Reader)).

Definition advance (n : Z) (r : Reader) : Reader :=
  mkReader (drop (Z.to_nat n) (available r)) (ending r).

(** What the stream's end makes of a read that wants more. *)
Definition at_end {A} (on_close : result ErrorKind A) (r : Reader) : io A :=
  let r' := mkReader [] (ending r) in
  match ending r with
  | Closed => Ready (on_close, r')
  | Broken k => Ready (Err k, r')
  | Stalled => Pending
  end.

(** [AsyncReadExt::read_exact] into a buffer of [n] bytes. *)
Definition read_exact (n : Z) (r : Reader) : io (list byte) :=
  if n <=? len (available r)
  then Ready (Ok (take (Z.to_nat n) (available r)), advance n r)
  else at_end (Err UnexpectedEof) r.

(** [reader.take(n).read_to_end(&mut payload)]. *)
Definition take_read_to_end (n : Z) (r : Reader) : io (list byte) :=
  if n <=? len (available r)
  then Ready (Ok (take (Z.to_nat n) (available r)), advance n r)
  else at_end (Ok (available r)) r.

Definition io_error (error : ErrorKind) : TunnelError :=
  match error with
  | UnexpectedEof => TE_Protocol TruncatedFrame
  | _ => TE_Io error
  end.

Section wire.
Context {pc : Postcard}.

(** The checks between the two reads: [None] is the fall-through arm. *)
Definition check_header (h : list byte) : option TunnelError :=
  match decode_frame h with
  | Err TruncatedFrame => None
  | Err error => Some (TE_Protocol error)
  | Ok _ => Some (TE_Protocol InvalidPayload)
  end.

Definition finish_frame (n : Z) (h payload : list byte) : result TunnelError Message :=
  _ ← ensure (len payload =? n) (TE_Protocol TruncatedFrame);
  let frame := h ++ payload in
  '(message, consumed) ← map_err TE_Protocol (decode_frame frame);
  _ ← ensure (consumed =? len frame) (TE_Protocol InvalidPayload);
  Ok message.

Definition read_message (r : Reader) : poll (result TunnelError Message * Reader) :=
  '(h, r1) ← read_exact HEADER_LEN r;
  match h with
  | Err k => Ready (Err (io_error k), r1)
  | Ok h =>
      match check_header h with
      | Some e => Ready (Err e, r1)
      | None =>
          let n := from_be (slice 10 14 h) in
          if MAX_FRAME_BYTES <? n then Ready (Err (TE_Protocol FrameTooLarge), r1)
          else
            '(payload, r2) ← take_read_to_end n r1;
            match payload with
            | Err k => Ready (Err (io_error k), r2)
            | Ok payload => Ready (finish_frame n h payload, r2)
            end
      end
  end.

(** A read that is one arm of a [select!] is dropped when another arm is ready
    first.  A pending one has by then taken every byte the stream had, and the
    buffer it took them into goes with it. *)
Definition abandon_read (r : Reader) : Reader :=
  match read_message r with
  | Pending => mkReader [] (ending r)
  | Ready _ => r
  end.

(** The peer delivers more. *)
Definition arrive (bs : list byte) (en : Ending) (r : Reader) : Reader :=
  mkReader (available r ++ bs) en.

(** A writer is what it has sent and what becomes of the next [write_all]:
    all of it, or a failure after some bytes. *)
Inductive Sink := Accepts | Refuses (sent : Z) (k : ErrorKind).

Definition write_message (sink : Sink) (out : list byte) (m : Message)
    : result TunnelError unit * list byte :=
  match encode_frame m with
  | Err e => (Err (TE_Protocol e), out)
  | Ok frame =>
      match sink with
      | Accepts => (Ok tt, out ++ frame)
      | Refuses sent k => (Err (io_error k), out ++ take (Z.to_nat sent) frame)
      end
  end.

(** A sequence of messages through one stream. *)
Fixpoint write_all_messages (out : list byte) (ms : list Message) : result TunnelError (list byte) :=
  match ms with
  | [] => Ok out
  | m :: ms' =>
      match write_message Accepts out m with
      | (Ok _, out') => write_all_messages out' ms'
      | (Err e, _) => Err e
      end
  end.

Fixpoint read_messages (n : nat) (r : Reader) : poll (result TunnelError (list Message) * Reader) :=
  match n with
  | O => Ready (Ok [], r)
  | S n' =>
      '(m, r1) ← read_message r;
      match m with
      | Err e => Ready (Err e, r1)
      | Ok m =>
          '(ms, r2) ← read_messages n' r1;
          Ready ((ms ← ms; Ok (m :: ms)), r2)
      end
  end.

End wire.

(** ** Bounded writes

    What became of one framed write under a time budget.  Above this file the
    output of a peer is the list of messages it has completely written; that
    such a list is what the other side reads is [stream_roundtrip] below. *)

Inductive WriteOutcome := W_done | W_timeout | W_failed (k : ErrorKind).

Definition write_bounded (w : WriteOutcome) (out : list Message) (m : Message)
    : result TunnelError unit * list Message :=
  match w with
  | W_done => (Ok tt, out ++ [m])
  | W_timeout => (Err TE_Timeout, out)
  | W_failed k => (Err (io_error k), out)
  end.

(** A connection step as the sources write it: [select!] between cancellation
    and a [timeout] around an operation of a library. *)
Inductive Stage (E A : Type) := StageCancelled | StageTimeout | StageDone (r : result E A).
Arguments StageCancelled {E A}.
Arguments StageTimeout {E A}.
Arguments StageDone {E A} r.

Definition run_stage {E A} (f : E → TunnelError) (s : Stage E A) : result TunnelError A :=
  match s with
  | StageCancelled => Err TE_Cancelled
  | StageTimeout => Err TE_Timeout
  | StageDone r => map_err f r
  end.

(** How an arm of the loop ends: go on, [break], or [return Err]. *)
Inductive Flow := Continue | Break | Return (e : TunnelError).

(** What became of one framed read under a time budget. *)
Definition read_bounded (r : poll (result TunnelError Message)) : result TunnelError Message :=
  match r with Ready m => m | Pending => Err TE_Timeout end.

Section wire_lemmas.
Context {pc : Postcard}.

(** ** Lemmas

    A frame's verdict in two parts: what its first 14 bytes say, and then its
    payload. *)

Definition header_verdict (h : list byte) : result ProtocolError (MessageType * Z) :=
  _ ← ensure (bool_decide (slice 0 4 h = MAGIC)) InvalidMagic;
  _ ← ensure (from_be (slice 4 6 h) =? PROTOCOL_MAJOR)
        (UnsupportedVersion (from_be (slice 4 6 h)) (from_be (slice 6 8 h)));
  k ← MessageType_try_from (from_be (slice 8 10 h));
  _ ← ensure (negb (MAX_FRAME_BYTES <? from_be (slice 10 14 h))) FrameTooLarge;
  Ok (k, from_be (slice 10 14 h)).

Lemma slice_take a b n l :
  0 <= a <= b → b <= n → slice a b (take (Z.to_nat n) l) = slice a b l.
Proof.
  intros Ha Hb. unfold slice. rewrite skipn_firstn_comm, take_take. f_equal. lia.
Qed.

Lemma header_verdict_take input :
  header_verdict (take (Z.to_nat HEADER_LEN) input) = header_verdict input.
Proof. unfold header_verdict, HEADER_LEN. by rewrite !slice_take by lia. Qed.

Lemma header_verdict_ok h k n :
  header_verdict h = Ok (k, n) → n = from_be (slice 10 14 h) ∧ 0 <= n <= MAX_FRAME_BYTES.
Proof.
  unfold header_verdict. intros H. res_simpl. simplify_eq. bools.
  pose proof (from_be_range (slice 10 14 h)). split; [done|lia].
Qed.

Lemma header_verdict_err h e : header_verdict h = Err e → e ≠ TruncatedFrame.
Proof.
  unfold header_verdict, ensure. intros H. repeat case_match; simplify_eq/=; try done.
  all: destruct (MessageType_try_from _) eqn:E; simplify_eq/=; try done.
  all: try (by apply try_from_err in E as ->). all: repeat case_match; simplify_eq/=; done.
Qed.

Lemma decode_split input :
  HEADER_LEN <= len input →
  decode_frame input =
    ('(k, n) ← header_verdict input;
     _ ← ensure (HEADER_LEN + n <=? len input) TruncatedFrame;
     m ← decode_payload k (slice HEADER_LEN (HEADER_LEN + n) input);
     Ok (m, HEADER_LEN + n)).
Proof.
  intros Hl. unfold decode_frame, header_verdict.
  rewrite (proj2 (Z.ltb_ge (len input) HEADER_LEN)) by done. cbn [negb ensure mbind result_bind].
  destruct (bool_decide _); [|done]. cbn [ensure mbind result_bind].
  destruct (_ =? PROTOCOL_MAJOR); [|done]. cbn [ensure mbind result_bind].
  destruct (MessageType_try_from _); [|done]. cbn [mbind result_bind].
  destruct (MAX_FRAME_BYTES <? _) eqn:E; [done|]. bools. cbn [negb ensure mbind result_bind].
  unfold checked_add. rewrite (proj2 (Z.ltb_lt _ (2 ^ 64))).
  - cbn [ok_or mbind result_bind]. by rewrite <-Z.leb_antisym.
  - unfold HEADER_LEN, MAX_FRAME_BYTES in *. lia.
Qed.

Lemma short_header h :
  len h = HEADER_LEN →
  (∀ k n, header_verdict h = Ok (k, n) → n ≠ 0 → decode_frame h = Err TruncatedFrame) ∧
  (∀ e, header_verdict h = Err e → decode_frame h = Err e).
Proof.
  intros Hl. rewrite decode_split by lia. split.
  - intros k n H Hn. rewrite H. apply header_verdict_ok in H as [_ H]. cbn [mbind result_bind].
    by rewrite (proj2 (Z.leb_gt _ _)) by lia.
  - intros e H. by rewrite H.
Qed.

Section laws.
Context {laws : PostcardLaws pc}.

Lemma slice_nil a l : slice a a l = [].
Proof. unfold slice. by rewrite Z.sub_diag. Qed.

Lemma empty_payload k : decode_payload k [] = Err InvalidPayload.
Proof.
  destruct (decode_payload k []) as [m|e] eqn:E.
  - apply payload_wf in E as [_ E]. done.
  - by apply decode_payload_err in E as ->.
Qed.

(** [check_header] stops exactly at a bad header or an empty payload. *)
Lemma check_header_verdict h :
  len h = HEADER_LEN →
  check_header h =
    match header_verdict h with
    | Ok (_, n) => if n =? 0 then Some (TE_Protocol InvalidPayload) else None
    | Err e => Some (TE_Protocol e)
    end.
Proof.
  intros Hl. unfold check_header. destruct (short_header h Hl) as [Hok Herr].
  destruct (header_verdict h) as [[k n]|e] eqn:E.
  - destruct (n =? 0) eqn:En; bools; [|by rewrite (Hok k n)].
    subst. rewrite decode_split, E by lia. cbn [mbind result_bind].
    rewrite Hl, Z.leb_refl. cbn [ensure mbind result_bind].
    by rewrite Z.add_0_r, slice_nil, empty_payload.
  - rewrite (Herr e) by done. by pose proof (header_verdict_err _ _ E); destruct e.
Qed.

Lemma finish_frame_spec a k n :
  header_verdict a = Ok (k, n) → HEADER_LEN + n <= len a →
  finish_frame n (take (Z.to_nat HEADER_LEN) a)
    (take (Z.to_nat n) (drop (Z.to_nat HEADER_LEN) a)) =
  (m ← map_err TE_Protocol (decode_payload k (slice HEADER_LEN (HEADER_LEN + n) a)); Ok m).
Proof.
  intros Hv Hl. pose proof Hv as [_ Hn]%header_verdict_ok. unfold HEADER_LEN in *.
  unfold finish_frame. rewrite len_take by (rewrite len_drop; lia). rewrite Z.eqb_refl.
  cbn [ensure mbind result_bind].
  assert (take (Z.to_nat 14) a ++ take (Z.to_nat n) (drop (Z.to_nat 14) a) =
          take (Z.to_nat (14 + n)) a) as ->.
  { rewrite Z2Nat.inj_add by lia. apply take_take_drop. }
  rewrite decode_split by (rewrite len_take; unfold HEADER_LEN; lia).
  assert (header_verdict (take (Z.to_nat (14 + n)) a) = Ok (k, n)) as ->.
  { rewrite <-Hv. unfold header_verdict. by rewrite !slice_take by lia. }
  unfold HEADER_LEN. cbn [mbind result_bind]. rewrite len_take, Z.leb_refl, slice_take by lia.
  cbn [ensure mbind result_bind].
  destruct (decode_payload _ _); [|done]. cbn [mbind result_bind map_err].
  by rewrite Z.eqb_refl.
Qed.

(** How a read ends whose frame is not complete. *)
Definition incomplete (r : Reader) : poll (result TunnelError Message * Reader) :=
  match ending r with
  | Closed => Ready (Err (TE_Protocol TruncatedFrame), mkReader [] Closed)
  | Broken k => Ready (Err (io_error k), mkReader [] (Broken k))
  | Stalled => Pending
  end.

Lemma read_message_cases r :
  read_message r =
    if len (available r) <? HEADER_LEN then incomplete r
    else match header_verdict (available r) with
         | Err e => Ready (Err (TE_Protocol e), advance HEADER_LEN r)
         | Ok (k, n) =>
             if n =? 0 then Ready (Err (TE_Protocol InvalidPayload), advance HEADER_LEN r)
             else if len (available r) <? HEADER_LEN + n then incomplete r
             else Ready (map_err TE_Protocol
                    (decode_payload k (slice HEADER_LEN (HEADER_LEN + n) (available r))),
                    advance (HEADER_LEN + n) r)
         end.
Proof.
  destruct r as [a en]. unfold read_message, read_exact, at_end, incomplete. cbn [available ending].
  rewrite Z.ltb_antisym. destruct (HEADER_LEN <=? len a) eqn:Hh; bools; [|by destruct en].
  cbn [negb mbind poll_bind].
  assert (len (take (Z.to_nat HEADER_LEN) a) = HEADER_LEN) as Hlt
    by (apply len_take; unfold HEADER_LEN in *; lia).
  rewrite check_header_verdict, header_verdict_take by done.
  destruct (header_verdict a) as [[k n]|e] eqn:Hv; [|done].
  destruct (n =? 0) eqn:Hn0; [done|]. bools.
  pose proof Hv as [Hn Hr]%header_verdict_ok.
  replace (from_be (slice 10 14 (take (Z.to_nat HEADER_LEN) a))) with n
    by (rewrite Hn, slice_take; unfold HEADER_LEN; [done|lia..]).
  rewrite (proj2 (Z.ltb_ge _ n)) by lia.
  unfold take_read_to_end, at_end, advance. cbn [available ending].
  rewrite len_drop by (unfold HEADER_LEN in *; lia). rewrite Z.ltb_antisym.
  replace (n <=? len a - HEADER_LEN) with (HEADER_LEN + n <=? len a)
    by (apply eq_true_iff_eq; rewrite !Z.leb_le; lia).
  destruct (HEADER_LEN + n <=? len a) eqn:Hc; bools; cbn [negb mbind poll_bind].
  - rewrite (finish_frame_spec a k n) by done. rewrite drop_drop, <-Z2Nat.inj_add
      by (unfold HEADER_LEN; lia).
    by destruct (decode_payload _ _).
  - destruct en; cbn [mbind poll_bind]; try done. unfold finish_frame.
    by rewrite len_drop, (proj2 (Z.eqb_neq _ n)) by (unfold HEADER_LEN in *; lia).
Qed.

Lemma encode_decodes m :
  wf_message m = true → ∃ bs, encode_frame m = Ok bs ∧
    ∀ rest, decode_frame (bs ++ rest) = Ok (m, len bs).
Proof.
  intros Hm. destruct (payload_roundtrip m Hm) as (p & Hp & Hl & Hd).
  eexists. apply frame_of_payload; [done|unfold MAX_FRAME_BYTES; lia|done].
Qed.

Lemma read_complete a en m n :
  decode_frame a = Ok (m, n) →
  read_message (mkReader a en) = Ready (Ok m, advance n (mkReader a en)).
Proof.
  intros Hd. pose proof Hd as (Hn & _ & _)%decode_total.
  rewrite read_message_cases. cbn [available ending].
  rewrite decode_split in Hd by lia. rewrite (proj2 (Z.ltb_ge (len a) HEADER_LEN)) by lia.
  destruct (header_verdict a) as [[k j]|]; [|done]. cbn [mbind result_bind] in Hd.
  destruct (HEADER_LEN + j <=? len a) eqn:Hj; [|done]. cbn [ensure mbind result_bind] in Hd.
  destruct (decode_payload k _) as [m'|] eqn:Hp; [|done]. injection Hd as -> <-. bools.
  pose proof Hp as [_ Hlen]%payload_wf. destruct (j =? 0) eqn:Hj0; bools.
  - subst. rewrite Z.add_0_r, slice_nil in Hlen. by vm_compute in Hlen.
  - by rewrite (proj2 (Z.ltb_ge (len a) (HEADER_LEN + j))) by lia.
Qed.

(** ** Properties *)

(** C20. [read_message] is [decode_frame] on a stream, whatever the stream does
    afterwards: a complete frame is returned with exactly its bytes consumed;
    an incomplete one is a protocol truncation if the peer closes, the
    transport's own error if it fails and no answer while it stalls; any
    other verdict is that protocol error, after reading at most one frame's
    ceiling of bytes. *)
Theorem read_message_refines_decode r :
  match decode_frame (available r) with
  | Ok (m, n) => read_message r = Ready (Ok m, advance n r)
  | Err TruncatedFrame =>
      match ending r with
      | Closed => read_message r = Ready (Err (TE_Protocol TruncatedFrame), mkReader [] Closed)
      | Broken k => read_message r = Ready (Err (io_error k), mkReader [] (Broken k))
      | Stalled => read_message r = Pending
      end
  | Err e => ∃ n, HEADER_LEN <= n <= HEADER_LEN + MAX_FRAME_BYTES ∧
      read_message r = Ready (Err (TE_Protocol e), advance n r)
  end.
Proof.
  destruct r as [a en]. cbn [available ending].
  destruct (decode_frame a) as [[m n]|e] eqn:Hd; [by apply read_complete|].
  assert (incomplete (mkReader a en) = match en with
    | Closed => Ready (Err (TE_Protocol TruncatedFrame), mkReader [] Closed)
    | Broken k => Ready (Err (io_error k), mkReader [] (Broken k))
    | Stalled => Pending end) as Hinc by done.
  rewrite read_message_cases, Hinc. cbn [available ending]. clear Hinc.
  destruct (len a <? HEADER_LEN) eqn:Hh; bools.
  { unfold decode_frame in Hd. rewrite (proj2 (Z.ltb_lt (len a) HEADER_LEN)) in Hd by lia. simplify_eq/=.
    by destruct en. }
  rewrite decode_split in Hd by lia.
  destruct (header_verdict a) as [[k n]|e'] eqn:Hv; simplify_eq/=.
  - pose proof Hv as [_ Hr]%header_verdict_ok. rewrite Z.ltb_antisym.
    destruct (HEADER_LEN + n <=? len a) eqn:Hc; simplify_eq/=; bools.
    + destruct (decode_payload k _) as [|e'] eqn:Hp; simplify_eq/=.
      pose proof Hp as ->%decode_payload_err.
      destruct (n =? 0); eexists; (split; [|done]); unfold MAX_FRAME_BYTES in *; lia.
    + destruct (n =? 0) eqn:Hn0; [bools; lia|]. by destruct en.
  - assert (0 <= MAX_FRAME_BYTES) by done. pose proof (header_verdict_err _ _ Hv).
    destruct e; try (exists HEADER_LEN; split; [lia|done]). done.
Qed.

(** Messages survive the wire: any sequence of messages written one after
    the other is read back as the same sequence, leaving whatever follows,
    however the stream ends after it. *)
Theorem stream_roundtrip ms :
  Forall (fun m => wf_message m = true) ms →
  ∃ bs, write_all_messages [] ms = Ok bs ∧
    ∀ rest en, read_messages (length ms) (mkReader (bs ++ rest) en) =
               Ready (Ok ms, mkReader rest en).
Proof.
  intros Hms.
  assert (∀ out, ∃ bs, write_all_messages out ms = Ok (out ++ bs) ∧ ∀ rest en,
    read_messages (length ms) (mkReader (bs ++ rest) en) = Ready (Ok ms, mkReader rest en)) as H.
  { induction Hms as [|m ms Hm _ IH]; intros out.
    - exists []. by rewrite app_nil_r.
    - destruct (encode_decodes m Hm) as (b & Hb & Hd).
      destruct (IH (out ++ b)) as (bs & Hw & Hr). exists (b ++ bs).
      cbn [write_all_messages]. unfold write_message. rewrite Hb, Hw, app_assoc. split; [done|].
      intros rest en. rewrite <-app_assoc. cbn [length read_messages].
      rewrite (read_complete _ _ m (len b)) by apply Hd. unfold advance. cbn [mbind poll_bind available ending].
      rewrite drop_len_app by done. by rewrite Hr. }
  destruct (H []) as (bs & ? & ?). by exists bs.
Qed.

(** A frame without its first bytes does not begin with the magic. *)
Lemma beheaded_frame a b m :
  encode_frame m = Ok (a ++ b) → 0 < len a < 4 → ∃ x b', b = x :: b' ∧ head MAGIC ≠ Some x.
Proof.
  unfold encode_frame. intros H Ha. res_simpl.
  destruct a as [|? [|? [|? [|? a]]]]; unfold len in Ha; simpl in Ha; try lia;
    cbn [app] in H; injection H; intros; subst b; eexists _, _; (split; [reflexivity|discriminate]).
Qed.

(** C39. A framed read is not cancellation safe.  The control loops read frames
    in an arm of [select!], so a read that has the first bytes of a frame (one
    to three of them, inside the magic number) is dropped when another arm wins.  Had it been left alone, the rest of the
    frame would complete the message; after the drop the same bytes are
    refused as [InvalidMagic], which ends the Session although the peer sent
    a well-formed frame. *)
Theorem abandoned_read_desynchronises m a b rest en :
  wf_message m = true → encode_frame m = Ok (a ++ b) →
  0 < len a < 4 → HEADER_LEN <= len (b ++ rest) →
  read_message (arrive (b ++ rest) en (mkReader a Stalled)) = Ready (Ok m, mkReader rest en) ∧
  ∃ r, read_message (arrive (b ++ rest) en (abandon_read (mkReader a Stalled))) =
       Ready (Err (TE_Protocol InvalidMagic), r).
Proof.
  intros Hm He Ha Hl. unfold arrive. cbn [available]. split.
  - destruct (encode_decodes m Hm) as (bs & He' & Hd). rewrite He in He'. injection He' as <-.
    rewrite (app_assoc a), (read_complete _ _ m (len (a ++ b))) by apply Hd.
    unfold advance. cbn [available ending]. by rewrite drop_len_app.
  - assert (read_message (mkReader a Stalled) = Pending) as Hp.
    { rewrite read_message_cases. cbn [available]. by rewrite (proj2 (Z.ltb_lt _ _)) by (unfold HEADER_LEN; lia). }
    unfold abandon_read. rewrite Hp. cbn [available ending app]. eexists.
    rewrite read_message_cases. cbn [available]. rewrite (proj2 (Z.ltb_ge _ _)) by lia.
    destruct (beheaded_frame a b m He Ha) as (x & b' & -> & Hx).
    assert (header_verdict ((x :: b') ++ rest) = Err InvalidMagic) as ->; [|done].
    unfold header_verdict. rewrite (bool_decide_eq_false_2 (slice 0 4 _ = MAGIC)); [done|].
    intros Heq. apply Hx. by rewrite <-Heq.
Qed.
End laws.
End wire_lemmas.

Lemma abandoned_read_desynchronises_witness :
  ∃ r, read_message (arrive (drop 2 sample_frame ++ []) Stalled (abandon_read (mkReader (take 2 sample_frame) Stalled)))
       = Ready (Err (TE_Protocol InvalidMagic), r).
Proof.
  apply (abandoned_read_desynchronises sample_register (take 2 sample_frame) (drop 2 sample_frame) [] Stalled);
    [vm_compute; reflexivity|rewrite take_drop; vm_compute; reflexivity|split; vm_compute; reflexivity|].
  vm_compute. discriminate.
Defined.

Lemma stream_roundtrip_witness :
  ∃ bs, write_all_messages [] [sample_register; M_Ping (mkPing 5)] = Ok bs ∧
    ∀ rest en, read_messages 2 (mkReader (bs ++ rest) en) =
               Ready (Ok [sample_register; M_Ping (mkPing 5)], mkReader rest en).
Proof.
  apply (stream_roundtrip [sample_register; M_Ping (mkPing 5)]).
  repeat constructor; vm_compute; reflexivity.
Defined.

(** The one hypothesis of [read_message_refines_decode] is the class of laws. *)
Lemma read_message_refines_decode_witness :
  read_message (mkReader sample_frame Stalled) =
  Ready (Ok sample_register, advance 49 (mkReader sample_frame Stalled)).
Proof. exact (read_message_refines_decode (mkReader sample_frame Stalled)). Defined.
