(* ===== verification/Endpoint.v ===== *)
(** * [host:port] endpoints of crates/eggtunnel/src/endpoint.rs

    [Endpoint::parse] and its errors, and what it accepts as a grammar. *)

From S2P Require Import Prelude Text Proto.

Inductive EndpointError :=
| MissingPort | EmptyHost | UnbracketedIpv6 | AmbiguousHost | InvalidPort.

Record Endpoint := mkEndpoint { ep_text : rstr; ep_host : rstr; ep_port : Z }.

Definition validate_host (host : rstr) : result EndpointError unit :=
  map_err (fun _ => AmbiguousHost) (validate_target_host host).

(** The split of the text into host and port text: bracketed, then plain. *)
Definition split_bracketed (rest : rstr) : result EndpointError (rstr * rstr) :=
  '(host, after) ← ok_or (cut_first 93 rest) MissingPort;
  port_text ← ok_or (strip_prefix 58 after) MissingPort;
  _ ← ensure (negb (len host =? 0)) EmptyHost;
  _ ← ensure (is_ipv6 host) AmbiguousHost;
  Ok (host, port_text).

Definition split_plain (value : rstr) : result EndpointError (rstr * rstr) :=
  '(host, port_text) ← ok_or (cut_last 58 value) MissingPort;
  _ ← ensure (negb (len host =? 0)) EmptyHost;
  _ ← ensure (negb (has_char 58 host)) UnbracketedIpv6;
  Ok (host, port_text).

Definition parse_port (port_text : rstr) : result EndpointError Z :=
  _ ← ensure (negb ((len port_text =? 0) || negb (forallb is_ascii_digit (str_bytes port_text))))
        InvalidPort;
  port ← ok_or (parse_uint 16 port_text) InvalidPort;
  _ ← ensure (negb (port =? 0)) InvalidPort;
  Ok port.

Definition Endpoint_parse (value : rstr) : result EndpointError Endpoint :=
  '(host, port_text) ←
    match strip_prefix 91 value with
    | Some rest => split_bracketed rest
    | None => split_plain value
    end;
  _ ← validate_host host;
  port ← parse_port port_text;
  Ok (mkEndpoint value host port).

Definition websocket_url (e : Endpoint) : rstr := lit "wss://" ++ ep_text e ++ lit "/".

(** ** Lemmas *)

Lemma digit_ascii b : 0x80 <= b → is_ascii_digit b = false.
Proof. unfold is_ascii_digit. intros. rewrite andb_false_iff, !Z.leb_gt. lia. Qed.

Lemma valid_app s t : valid_str (s ++ t) = valid_str s && valid_str t.
Proof. apply forallb_app. Qed.

Lemma strip_prefix_Some c s r : strip_prefix c s = Some r ↔ s = c :: r.
Proof.
  destruct s as [|x s]; simpl; [naive_solver|].
  destruct (x =? c) eqn:E; bools; naive_solver.
Qed.

Lemma strip_prefix_None c s : strip_prefix c s = None ↔ ∀ r, s ≠ c :: r.
Proof.
  destruct s as [|x s]; simpl; [naive_solver|].
  destruct (x =? c) eqn:E; bools; naive_solver.
Qed.

(** A valid host has none of the characters that delimit it. *)
Lemma valid_host_no c host :
  validate_target_host host = Ok tt → c ∈ ambiguous_chars → has_char c host = false.
Proof.
  intros (_ & Hb & _)%host_ok_iff Hc. rewrite existsb_false_elem in Hb.
  apply not_true_iff_false. rewrite has_char_elem. intros Hin%Hb.
  apply bad_host_char_false in Hin as (_ & _ & _ & Hin). done.
Qed.

Lemma valid_host_nonempty host : validate_target_host host = Ok tt → host ≠ [].
Proof. intros (Hl & _ & _)%host_ok_iff ->. change (str_len []) with 0 in Hl. lia. Qed.

Lemma len_zero {A} (l : list A) : (len l =? 0) = true ↔ l = [].
Proof. rewrite Z.eqb_eq. unfold len. destruct l; simpl; [done|]. split; [lia|done]. Qed.

Lemma parse_port_iff s port :
  valid_str s = true →
  parse_port s = Ok port ↔
  s ≠ [] ∧ forallb is_ascii_digit s = true ∧ digits_val s = port ∧ 1 <= port <= 65535.
Proof.
  intros Hv. unfold parse_port. rewrite (str_bytes_all _ s digit_ascii Hv).
  destruct (len s =? 0) eqn:Hl; [apply len_zero in Hl; naive_solver|].
  assert (s ≠ []) as Hne by (by rewrite <-len_zero, not_true_iff_false).
  destruct (forallb is_ascii_digit s) eqn:Hd; [|naive_solver].
  cbn [orb negb ensure mbind result_bind]. rewrite parse_uint_digits by done.
  unfold parse_digits. rewrite Hd. pose proof (digits_val_nonneg s Hd).
  apply Z.eqb_neq in Hl. pose proof (len_nonneg s).
  rewrite (proj2 (Z.ltb_lt 0 (len s))) by lia. cbn [andb].
  destruct (digits_val s <? 2 ^ 16) eqn:Hb; bools; cbn [ok_or mbind result_bind].
  - destruct (digits_val s =? 0) eqn:Hz; bools; cbn [negb ensure mbind result_bind].
    + split; [done|lia].
    + split; [intros [= <-]; split_and!; try done; lia | naive_solver].
  - split; [done|lia].
Qed.

(** The two written forms of an endpoint. *)
Definition written (host digits value : rstr) : Prop :=
  (value = host ++ 58 :: digits ∧ has_char 58 host = false) ∨
  (value = 91 :: host ++ 93 :: 58 :: digits ∧ is_ipv6 host = true).

Lemma split_sound value host port_text :
  match strip_prefix 91 value with
  | Some rest => split_bracketed rest
  | None => split_plain value
  end = Ok (host, port_text) → written host port_text value.
Proof.
  destruct (strip_prefix 91 value) as [rest|] eqn:E; intros H.
  - apply strip_prefix_Some in E as ->. unfold split_bracketed in H. res_simpl.
    destruct x as [h a]. res_simpl. simplify_eq.
    apply cut_first_Some in H0 as [-> _]. apply strip_prefix_Some in H1 as ->. right. done.
  - unfold split_plain in H. res_simpl. destruct x as [h a]. res_simpl. simplify_eq.
    apply cut_last_Some in H0 as [-> _]. bools. by left.
Qed.

Lemma split_complete value host digits :
  validate_target_host host = Ok tt → forallb is_ascii_digit digits = true →
  written host digits value →
  match strip_prefix 91 value with
  | Some rest => split_bracketed rest
  | None => split_plain value
  end = Ok (host, digits).
Proof.
  intros Hh Hd. pose proof (valid_host_nonempty _ Hh) as Hne.
  assert ((len host =? 0) = false) as Hl by (by rewrite <-not_true_iff_false, len_zero).
  intros [[-> Hc]|[-> Hc]].
  - assert (strip_prefix 91 (host ++ 58 :: digits) = None) as ->.
    { apply strip_prefix_None. intros r E. destruct host as [|x h]; [done|]. simplify_eq/=.
      pose proof (valid_host_no 91 _ Hh ltac:(set_solver)) as Hx. done. }
    unfold split_plain. rewrite cut_last_app by (by apply digits_no_char).
    cbn [ok_or mbind result_bind]. rewrite Hl, Hc. done.
  - cbn [strip_prefix]. unfold split_bracketed.
    rewrite Z.eqb_refl, cut_first_app by (apply valid_host_no; [done|set_solver]).
    cbn [ok_or mbind result_bind strip_prefix]. rewrite Z.eqb_refl.
    cbn [ok_or mbind result_bind]. rewrite Hl, Hc. done.
Qed.

(** ** Properties *)

(** [Endpoint::parse] is exactly its documented grammar.  It accepts a
    text iff it is [host:digits] with no colon in the host, or
    [[host]:digits] with an IPv6 host, the host passes the validator shared
    with [TcpTarget], and the digits denote a port in 1..=65535; the parsed
    host and port are those, the text is kept, and the same host and port are
    always accepted as a wire target. *)
Theorem endpoint_parse_iff value e :
  valid_str value = true →
  Endpoint_parse value = Ok e ↔
  ep_text e = value ∧
  TcpTarget_new (ep_host e) (ep_port e) = Ok (mkTcpTarget (ep_host e) (ep_port e)) ∧
  ∃ digits, digits ≠ [] ∧ forallb is_ascii_digit digits = true ∧
    digits_val digits = ep_port e ∧ 1 <= ep_port e <= 65535 ∧
    written (ep_host e) digits value.
Proof.
  intros Hv. assert (∀ h d, written h d value → valid_str d = true) as Hvd.
  { intros h d [[-> _]|[-> _]]; unfold valid_str in *; simpl in Hv;
      rewrite forallb_app in Hv; simpl in Hv; bools; done. }
  unfold Endpoint_parse. split.
  - intros H. res_simpl. destruct x as [host pt]. res_simpl.
    unfold validate_host in *. res_simpl. simplify_eq. cbn [ep_text ep_host ep_port].
    apply split_sound in H0 as Hw.
    apply parse_port_iff in H2 as (? & ? & ? & ?); [|by eapply Hvd].
    split_and!; [done|apply target_new_ok; split_and!; [done|lia|done]|].
    by exists pt.
  - intros (<- & (Hh & _ & _)%target_new_ok & d & Hne & Hd & Hval & Hp & Hw).
    rewrite (split_complete _ _ _ Hh Hd Hw). cbn [mbind result_bind]. unfold validate_host.
    rewrite Hh. cbn [map_err mbind result_bind].
    rewrite (proj2 (parse_port_iff d (ep_port e) (Hvd _ _ Hw))) by done. by destruct e.
Qed.

Lemma endpoint_parse_iff_witness :
  Endpoint_parse (lit "[::1]:443") = Ok (mkEndpoint (lit "[::1]:443") (lit "::1") 443).
Proof.
  apply (endpoint_parse_iff (lit "[::1]:443")); [reflexivity|].
  split_and!; [reflexivity|reflexivity|]. exists (lit "443").
  split_and!; [discriminate|reflexivity|reflexivity|vm_compute; discriminate|vm_compute; discriminate|].
  right. split; reflexivity.
Defined.
