(* ===== verification/AuthLimiter.v ===== *)
(** * Authentication throttling of crates/eggtunnel/src/server/auth.rs

    The failure table is a [gmap] from peer address (4 or 16 octets) to the
    deque of failure instants, front first.  [reject_authentication] is the
    exit of every refused peer.  The specification is a sliding window over
    the whole history of recorded failures. *)

From S2P Require Import Prelude Text Proto Codec Varint Frame Common WireIo.

Abbreviation IpAddr := (list byte).

Definition AUTH_FAILURES_PER_SOURCE : Z := 10.
Definition AUTH_FAILURE_WINDOW : Z := from_secs 60.
Definition MAX_AUTH_SOURCES : Z := 1024.
Definition AUTH_FAILURE_DELAY : Z := from_millis 100.
Definition AUTH_FAILURE_WRITE_BUDGET : Z := from_secs 1.
Definition AUTH_FAILURE_CODE : Z := 4.

Record AuthFailureLimiter := mkLimiter
  { failures : gmap IpAddr (list Z); threshold : Z; window : Z; max_sources : Z }.

Definition Limiter_new (threshold window max_sources : Z) : AuthFailureLimiter :=
  mkLimiter ∅ threshold window max_sources.

(** The [while failures.front().is_some_and(..)] loop. *)
Fixpoint prune_front (window now : Z) (l : list Z) : list Z :=
  match l with
  | [] => []
  | at_ :: l' =>
      if window <=? saturating_duration_since now at_ then prune_front window now l' else l
  end.

Definition prune (lim : AuthFailureLimiter) (now : Z) : gmap IpAddr (list Z) :=
  omap (fun l => match prune_front (window lim) now l with [] => None | l' => Some l' end)
    (failures lim).

Definition with_failures (lim : AuthFailureLimiter) (m : gmap IpAddr (list Z)) : AuthFailureLimiter :=
  mkLimiter m (threshold lim) (window lim) (max_sources lim).

Definition is_blocked_at (lim : AuthFailureLimiter) (source : IpAddr) (now : Z)
    : bool * AuthFailureLimiter :=
  let sources := prune lim now in
  (match sources !! source with
   | Some l => threshold lim <=? len l
   | None => false
   end, with_failures lim sources).

(** [while deque.len() > threshold { deque.pop_front(); }]. *)
Definition keep_last {A} (k : Z) (l : list A) : list A := drop (Z.to_nat (len l - k)) l.

Definition record_failure_at (lim : AuthFailureLimiter) (source : IpAddr) (now : Z)
    : AuthFailureLimiter :=
  let sources := prune lim now in
  match sources !! source with
  | None =>
      if max_sources lim <=? Z.of_nat (size sources) then with_failures lim sources
      else with_failures lim (<[source := keep_last (threshold lim) [now]]> sources)
  | Some l => with_failures lim (<[source := keep_last (threshold lim) (l ++ [now])]> sources)
  end.

Definition authentication_failed : result ProtocolError Message :=
  d ← BoundedDiagnostic_new (lit "authentication failed");
  Ok (M_Error (mkErrorMessage AUTH_FAILURE_CODE d)).

(** [w] is what becomes of the write within its budget; it is ignored. *)
Definition reject_authentication (w : WriteOutcome) (out : list Message) (source : IpAddr) (now : Z)
    (lim : AuthFailureLimiter) (c : Counters)
    : result TunnelError unit * list Message * AuthFailureLimiter * Counters :=
  let lim' := record_failure_at lim source now in
  let c' := fetch_add n_rejected 1 c in
  match authentication_failed with
  | Err e => (Err (TE_Protocol e), out, lim', c')
  | Ok failure => (Err TE_Authentication, (write_bounded w out failure).2, lim', c')
  end.

(** ** Specification: a window over the history

    [history] has every recorded failure of a source, oldest first; nothing
    is ever removed.  A source is live while one of its failures is in the
    window; a new source is recorded only while fewer than [max_sources] are
    live. *)

Section window.
Variable threshold_ window_ max_sources_ : Z.

Abbreviation alive now := (fun t => now - t < window_).

Definition in_window (now : Z) (l : list Z) : list Z := filter (alive now) l.

Definition live_sources (now : Z) (h : gmap IpAddr (list Z)) : gmap IpAddr (list Z) :=
  omap (fun l => match in_window now l with [] => None | l' => Some l' end) h.

Definition spec_blocked (now : Z) (source : IpAddr) (h : gmap IpAddr (list Z)) : bool :=
  threshold_ <=? len (in_window now (default [] (h !! source))).

Definition spec_record (now : Z) (source : IpAddr) (h : gmap IpAddr (list Z))
    : gmap IpAddr (list Z) :=
  if bool_decide (is_Some (live_sources now h !! source))
     || (Z.of_nat (size (live_sources now h)) <? max_sources_)
  then <[source := default [] (h !! source) ++ [now]]> h
  else h.
End window.

(** A log of operations with their instants, and the verdicts they give. *)
Inductive LimiterOp := Query (source : IpAddr) | Failure (source : IpAddr).

Fixpoint run_limiter (lim : AuthFailureLimiter) (log : list (Z * LimiterOp)) : list bool :=
  match log with
  | [] => []
  | (now, Query s) :: log' =>
      let '(b, lim') := is_blocked_at lim s now in b :: run_limiter lim' log'
  | (now, Failure s) :: log' => run_limiter (record_failure_at lim s now) log'
  end.

Fixpoint run_window (th w mx : Z) (h : gmap IpAddr (list Z)) (log : list (Z * LimiterOp))
    : list bool :=
  match log with
  | [] => []
  | (now, Query s) :: log' => spec_blocked th w now s h :: run_window th w mx h log'
  | (now, Failure s) :: log' => run_window th w mx (spec_record w mx now s h) log'
  end.

(** The states after a log. *)
Definition limiter_step (lim : AuthFailureLimiter) (e : Z * LimiterOp) : AuthFailureLimiter :=
  match e.2 with
  | Query s => (is_blocked_at lim s e.1).2
  | Failure s => record_failure_at lim s e.1
  end.

Definition limiter_after (lim : AuthFailureLimiter) (log : list (Z * LimiterOp)) : AuthFailureLimiter :=
  foldl limiter_step lim log.

Definition window_step (w mx : Z) (h : gmap IpAddr (list Z)) (e : Z * LimiterOp)
    : gmap IpAddr (list Z) :=
  match e.2 with Query _ => h | Failure s => spec_record w mx e.1 s h end.

(** The instants at which a source failed, and its failures in the window. *)
Definition failed_at (source : IpAddr) (log : list (Z * LimiterOp)) : list Z :=
  omap (fun e => match e.2 with
                 | Failure s => if decide (s = source) then Some e.1 else None
                 | Query _ => None
                 end) log.

(** Instants do not go back. *)
Fixpoint monotone (last : Z) (log : list (Z * LimiterOp)) : Prop :=
  match log with
  | [] => True
  | (now, _) :: log' => last <= now ∧ monotone now log'
  end.

(** ** Lemmas: sorted deques *)

Section sorted.
Variable w : Z.
Abbreviation alive now := (fun t => now - t < w).

Lemma alive_all now x l :
  StronglySorted Z.le (x :: l) → now - x < w → filter (alive now) l = l.
Proof.
  intros Hs Hx. inversion_clear Hs as [|? ? _ Hf]. apply filter_all.
  rewrite list.Forall_forall in Hf |- *. intros y Hy%Hf. lia.
Qed.

Lemma prune_front_sorted now l :
  0 < w → StronglySorted Z.le l → prune_front w now l = in_window w now l.
Proof.
  intros Hw Hs. unfold in_window. induction l as [|x l IH]; [done|].
  cbn [prune_front]. unfold saturating_duration_since.
  destruct (w <=? Z.max 0 (now - x)) eqn:E; bools.
  - rewrite filter_cons_False by lia. apply IH. by inversion_clear Hs.
  - rewrite filter_cons_True by lia. by rewrite (alive_all now x) by (done || lia).
Qed.

Lemma sorted_filter P `{∀ x, Decision (P x)} l :
  StronglySorted Z.le l → StronglySorted Z.le (filter P l).
Proof.
  induction 1 as [|x l Hs IH Hf]; [constructor|].
  destruct (decide (P x)); [rewrite filter_cons_True by done|by rewrite filter_cons_False by done].
  constructor; [done|]. rewrite list.Forall_forall in Hf |- *.
  intros y [_ Hy]%list_elem_of_filter. by apply Hf.
Qed.

Lemma sorted_drop n l : StronglySorted Z.le l → StronglySorted Z.le (drop n l).
Proof.
  intros Hs. revert n. induction Hs as [|x l Hs IH Hf]; intros [|n]; simpl; by repeat constructor.
Qed.

Lemma sorted_snoc l now :
  StronglySorted Z.le l → Forall (fun t => t <= now) l → StronglySorted Z.le (l ++ [now]).
Proof.
  induction 1 as [|x l Hs IH Hf]; intros Hn; simpl; [repeat constructor|].
  inversion_clear Hn. constructor; [by apply IH|].
  apply Forall_app. split; [done|]. by repeat constructor.
Qed.

Lemma keep_last_all {A} k (l : list A) : len l <= k → keep_last k l = l.
Proof. intros. unfold keep_last. by replace (Z.to_nat _) with 0%nat by lia. Qed.

Lemma keep_last_nil {A} k : keep_last k ([] : list A) = [].
Proof. apply drop_nil. Qed.

Lemma keep_last_cons {A} k (x : A) l : 0 <= k → k <= len l → keep_last k (x :: l) = keep_last k l.
Proof.
  intros. unfold keep_last. rewrite len_cons.
  by replace (Z.to_nat (1 + len l - k)) with (S (Z.to_nat (len l - k))) by lia.
Qed.

Lemma len_keep_last {A} k (l : list A) : 0 <= k → len (keep_last k l) = Z.min k (len l).
Proof. intros. unfold keep_last, len. rewrite length_drop. lia. Qed.

Lemma keep_last_app {A} k (l : list A) x :
  1 <= k → keep_last k (keep_last k l ++ [x]) = keep_last k (l ++ [x]).
Proof.
  intros Hk. unfold keep_last, len. rewrite !length_app, length_drop. simpl.
  destruct (decide (Z.of_nat (length l) <= k)).
  - replace (Z.to_nat (Z.of_nat (length l) - k)) with 0%nat by lia. rewrite drop_0.
    do 2 f_equal. lia.
  - rewrite drop_app_le, drop_drop, drop_app_le by (rewrite ?length_drop; lia).
    do 2 f_equal. lia.
Qed.

Lemma filter_keep_last now k l :
  0 <= k → StronglySorted Z.le l →
  filter (alive now) (keep_last k l) = keep_last k (filter (alive now) l).
Proof.
  intros Hk Hs. induction l as [|x l IH]; [cbn [filter list_filter]; by rewrite !keep_last_nil|].
  assert (StronglySorted Z.le l) as Hl by (by inversion_clear Hs).
  destruct (decide (k <= len l)).
  - rewrite keep_last_cons by done. rewrite IH by done.
    destruct (decide (now - x < w)).
    + rewrite filter_cons_True, (alive_all now x) by done. by rewrite keep_last_cons.
    + by rewrite filter_cons_False.
  - rewrite keep_last_all by (rewrite len_cons; lia). rewrite keep_last_all; [done|].
    pose proof (length_filter (alive now) (x :: l)). unfold len in *. simpl in *. lia.
Qed.
End sorted.

(** ** The simulation

    At the last instant [now] the table is the live part of the history, cut
    to the last [threshold] failures of each source. *)

Section simulation.
Variable th w mx : Z.
Hypothesis th_pos : 1 <= th.
Hypothesis w_pos : 0 < w.

Record simulates (now : Z) (lim : AuthFailureLimiter) (h : gmap IpAddr (list Z)) : Prop :=
  { sim_params : threshold lim = th ∧ window lim = w ∧ max_sources lim = mx;
    sim_history s l : h !! s = Some l → StronglySorted Z.le l ∧ Forall (fun t => t <= now) l;
    sim_table : failures lim = keep_last th <$> live_sources w now h }.

Lemma in_window_later now now' l :
  now <= now' → in_window w now' (in_window w now l) = in_window w now' l.
Proof.
  intros Hn. unfold in_window. rewrite list_filter_filter. apply list_filter_iff.
  intros t. simpl. lia.
Qed.

Lemma prune_simulates now now' lim h :
  simulates now lim h → now <= now' →
  prune lim now' = keep_last th <$> live_sources w now' h.
Proof.
  intros [(_ & Hw & _) Hh Ht] Hn. apply map_eq. intros s. unfold prune.
  rewrite Hw, Ht. unfold live_sources. rewrite lookup_omap, !lookup_fmap, !lookup_omap.
  destruct (h !! s) as [l|] eqn:Hs; simpl; [|done]. destruct (Hh s l Hs) as [Hl _].
  pose proof (sorted_filter (fun t => now - t < w) l Hl) as Hf. fold (in_window w now l) in Hf.
  rewrite <-(in_window_later now now' l Hn).
  destruct (in_window w now l) as [|x l'] eqn:E; [done|]. rewrite <-E in *. simpl.
  rewrite prune_front_sorted by (done || by apply sorted_drop).
  unfold in_window at 1. rewrite filter_keep_last by (done || lia). fold (in_window w now' (in_window w now l)).
  destruct (in_window w now' (in_window w now l)) as [|y r] eqn:E'; [by rewrite keep_last_nil|]. simpl.
  destruct (keep_last th (y :: r)) eqn:Ek; [|done].
  apply (f_equal len) in Ek. rewrite len_keep_last in Ek by lia.
  rewrite len_cons in Ek. pose proof (len_nonneg r). rewrite len_nil in Ek. lia.
Qed.

Lemma live_lookup now h s :
  live_sources w now h !! s =
  match in_window w now (default [] (h !! s)) with [] => None | l => Some l end.
Proof. unfold live_sources. rewrite lookup_omap. by destruct (h !! s). Qed.

Lemma query_simulates now now' lim h s :
  simulates now lim h → now <= now' →
  (is_blocked_at lim s now').1 = spec_blocked th w now' s h ∧
  simulates now' (is_blocked_at lim s now').2 h.
Proof.
  intros Hsim Hn. pose proof (prune_simulates _ _ _ _ Hsim Hn) as Hp.
  destruct Hsim as [(Ht & Hw & Hm) Hh _]. unfold is_blocked_at, spec_blocked. simpl. split.
  - rewrite Hp, lookup_fmap, live_lookup, Ht.
    destruct (in_window w now' _) as [|x l] eqn:E; simpl.
    + symmetry. apply Z.leb_gt. rewrite len_nil. lia.
    + rewrite len_keep_last by lia. apply eq_true_iff_eq. rewrite !Z.leb_le. lia.
  - split; [done| |exact Hp]. intros s' l Hl. destruct (Hh s' l Hl) as [? Hf].
    split; [done|]. eapply Forall_impl; [|exact Hf]. simpl. lia.
Qed.

Lemma in_window_snoc now l : in_window w now (l ++ [now]) = in_window w now l ++ [now].
Proof.
  unfold in_window. rewrite list.filter_app. f_equal. rewrite filter_cons_True; [done|lia].
Qed.

Lemma failure_simulates now now' lim h s :
  simulates now lim h → now <= now' →
  simulates now' (record_failure_at lim s now') (spec_record w mx now' s h).
Proof.
  intros Hsim Hn. pose proof (prune_simulates _ _ _ _ Hsim Hn) as Hp.
  destruct Hsim as [(Ht & Hw & Hm) Hh _].
  assert (∀ s l, h !! s = Some l → StronglySorted Z.le l ∧ Forall (fun t => t <= now') l) as Hh'.
  { intros s' l Hl. destruct (Hh s' l Hl) as [? Hf]. split; [done|].
    eapply Forall_impl; [|exact Hf]. simpl. lia. }
  assert (∀ m, threshold (with_failures lim m) = th ∧ window (with_failures lim m) = w ∧
    max_sources (with_failures lim m) = mx) as Hpar by done.
  assert (∀ l, h !! s = l → simulates now' (with_failures lim
    (<[s := keep_last th (in_window w now' (default [] l) ++ [now'])]> (prune lim now')))
    (<[s := default [] l ++ [now']]> h)) as Hins.
  { intros l Hl. split; [apply Hpar| |].
    - intros s' l'. rewrite lookup_insert. case_decide; [|apply Hh'].
      intros [= <-]. destruct l as [l|]; simpl; [|by repeat constructor].
      destruct (Hh' s l Hl). split; [by apply sorted_snoc|]. apply Forall_app; by repeat constructor.
    - simpl. rewrite Hp. apply map_eq. intros s'. rewrite lookup_fmap, live_lookup, !lookup_insert.
      case_decide; [|by rewrite lookup_fmap, live_lookup].
      simpl. rewrite in_window_snoc. by destruct (in_window w now' _). }
  specialize (Hins _ eq_refl). unfold record_failure_at, spec_record. rewrite Hp, lookup_fmap.
  rewrite live_lookup in *. rewrite Ht, Hm, map_size_fmap, <-Hp.
  destruct (in_window w now' (default [] (h !! s))) as [|x l] eqn:E; simpl.
  - destruct (mx <=? _) eqn:Es.
    + rewrite Z.ltb_antisym, Es. simpl. split; [apply Hpar|apply Hh'|exact Hp].
    + rewrite Z.ltb_antisym, Es. simpl. exact Hins.
  - by rewrite <-(keep_last_app th (x :: l) now') in Hins by done.
Qed.
End simulation.

Lemma window_sublist w mx log h s :
  default [] (foldl (window_step w mx) h log !! s) `sublist_of` default [] (h !! s) ++ failed_at s log.
Proof.
  revert h; induction log as [|[now [q|f]] log IH]; intros h; simpl.
  - by rewrite app_nil_r.
  - apply IH.
  - etransitivity; [apply IH|]. unfold window_step. simpl.
    destruct (decide (f = s)) as [->|Hne]; unfold spec_record; case_match.
    + rewrite lookup_insert_eq. simpl. by rewrite <-app_assoc.
    + apply sublist_app; [done|]. by apply sublist_cons.
    + by rewrite lookup_insert_ne.
    + done.
Qed.

Lemma filter_sublist P `{∀ x : Z, Decision (P x)} (l k : list Z) :
  l `sublist_of` k → (length (filter P l) <= length (filter P k))%nat.
Proof.
  induction 1 as [|x l k _ IH|x l k _ IH]; [done| |];
    destruct (decide (P x)); rewrite ?filter_cons_True, ?filter_cons_False by done; simpl; lia.
Qed.

Section after.
Variable th w mx : Z.
Hypothesis th_pos : 1 <= th.
Hypothesis w_pos : 0 < w.

Lemma after_simulates log last lim h :
  simulates th w mx last lim h → monotone last log →
  ∃ now, simulates th w mx now (limiter_after lim log) (foldl (window_step w mx) h log) ∧
         last <= now ∧ ∀ t op, monotone last (log ++ [(t, op)]) → now <= t.
Proof.
  revert last lim h; induction log as [|[now op] log IH]; intros last lim h Hs Hm.
  - exists last. simpl. split_and!; [done|lia|]. by intros t op [? _].
  - destruct Hm as [Hle Hm].
    assert (simulates th w mx now (limiter_step lim (now, op)) (window_step w mx h (now, op))) as H'.
    { destruct op as [s|s]; [by eapply (query_simulates th w mx) | by eapply failure_simulates]. }
    destruct (IH _ _ _ H' Hm) as (now' & ? & ? & Ht). exists now'. split_and!; [done|lia|].
    intros t op' [_ Hm']. by eapply Ht.
Qed.

Lemma new_simulates last : simulates th w mx last (Limiter_new th w mx) ∅.
Proof.
  split; [done|by intros ???|]. simpl. unfold live_sources. by rewrite omap_empty, fmap_empty.
Qed.
End after.

Record bounded (lim : AuthFailureLimiter) : Prop :=
  { bounded_sources : Z.of_nat (size (failures lim)) <= Z.max 0 (max_sources lim);
    bounded_deque s l : failures lim !! s = Some l → 1 <= len l <= threshold lim }.

Lemma prune_front_le w now l : len (prune_front w now l) <= len l.
Proof.
  induction l as [|x l IH]; simpl; [done|]. case_match; [rewrite len_cons; lia|done].
Qed.

Lemma prune_bounded lim now : bounded lim → bounded (with_failures lim (prune lim now)).
Proof.
  intros [Hs Hd]. split; simpl.
  - assert (size (prune lim now) <= size (failures lim))%nat; [|lia].
    rewrite <-!size_dom. apply subseteq_size. intros s. rewrite !elem_of_dom. unfold prune.
    rewrite lookup_omap. by destruct (failures lim !! s); [|intros [? ?]].
  - intros s l. unfold prune. rewrite lookup_omap.
    destruct (failures lim !! s) as [k|] eqn:E; [|done]. simpl.
    destruct (prune_front _ _ k) as [|x k'] eqn:Ek; [done|]. intros [= <-].
    pose proof (prune_front_le (window lim) now k). rewrite Ek in *.
    specialize (Hd s k E). rewrite len_cons in *. pose proof (len_nonneg k'). lia.
Qed.

Lemma step_bounded lim e : 1 <= threshold lim → bounded lim → bounded (limiter_step lim e).
Proof.
  intros Hth Hb. destruct e as [now op]. pose proof (prune_bounded lim now Hb) as [Hs Hd].
  simpl in *. destruct op as [s|s]; unfold limiter_step; simpl; [done|].
  unfold record_failure_at.
  assert (∀ l, 1 <= len (keep_last (threshold lim) (l ++ [now])) <= threshold lim) as Hk.
  { intros l. rewrite len_keep_last, len_app by lia. pose proof (len_nonneg l). len_lia. }
  destruct (prune lim now !! s) as [l|] eqn:E; [|case_match; [done|bools]]; split; simpl.
  - by rewrite map_size_insert_Some.
  - intros s' l'. rewrite lookup_insert. case_decide; [intros [= <-]; apply Hk|apply Hd].
  - rewrite map_size_insert_None by done. lia.
  - intros s' l'. rewrite lookup_insert. case_decide; [intros [= <-]; apply (Hk [])|apply Hd].
Qed.

(** ** Properties *)

(** C19. The limiter is a sliding window: for any log of failures and queries
    whose instants do not go back, the verdicts of the bounded table are
    those of the window over the full history, although the table forgets
    expired failures, keeps only the last [threshold] of a source, and leaves
    new sources untracked while [max_sources] are live. *)
Theorem limiter_refines_window th w mx last log :
  1 <= th → 0 < w → monotone last log →
  run_limiter (Limiter_new th w mx) log = run_window th w mx ∅ log.
Proof.
  intros Hth Hw. assert (∀ lim h, simulates th w mx last lim h → monotone last log →
    run_limiter lim log = run_window th w mx h log) as H.
  { revert last; induction log as [|[now op] log IH]; intros last lim h Hs Hm; [done|].
    destruct Hm as [Hle Hm]. destruct op as [s|s]; cbn [run_limiter run_window].
    - destruct (query_simulates th w mx Hth Hw _ _ _ _ s Hs Hle) as [Hv Hs'].
      destruct (is_blocked_at lim s now) as [b lim']. simpl in *. rewrite Hv. f_equal. by eapply IH.
    - eapply IH; [|done]. by eapply failure_simulates. }
  apply H, new_simulates.
Qed.

Lemma limiter_refines_window_witness :
  run_limiter (Limiter_new 2 10 1)
    [(0, Failure [Byte.x01]); (1, Failure [Byte.x02]); (5, Failure [Byte.x01]);
     (6, Query [Byte.x01]); (6, Query [Byte.x02]); (11, Query [Byte.x01])]
  = [true; false; false] ∧
  run_limiter (Limiter_new 2 10 1) [(0, Failure [Byte.x01]); (6, Query [Byte.x01])] =
  run_window 2 10 1 ∅ [(0, Failure [Byte.x01]); (6, Query [Byte.x01])].
Proof.
  split; [vm_compute; reflexivity|].
  apply (limiter_refines_window 2 10 1 0); [lia|lia|]. simpl. lia.
Defined.

(** The limiter's memory is bounded whatever the clock and the peers do:
    after any log it tracks at most [max_sources] sources, each with between
    one and [threshold] instants. *)
Theorem limiter_bounded th w mx log :
  1 <= th → bounded (limiter_after (Limiter_new th w mx) log).
Proof.
  intros Hth. assert (∀ lim, threshold lim = th → bounded lim → bounded (limiter_after lim log)) as H.
  { induction log as [|e log IH]; intros lim Ht Hb; [done|]. simpl. apply IH.
    - destruct e as [now [s|s]]; unfold limiter_step, record_failure_at; simpl; [done|].
      by repeat case_match.
    - apply step_bounded; [lia|done]. }
  apply H; [done|]. split; simpl; [by rewrite map_size_empty; lia | done].
Qed.

Lemma limiter_bounded_witness :
  bounded (limiter_after (Limiter_new 10 (from_secs 60) 1024) [(7, Failure [Byte.x01])]).
Proof. apply (limiter_bounded 10 (from_secs 60) 1024 [(7, Failure [Byte.x01])]). lia. Defined.

(** Nobody is locked out without cause: a source is blocked only if it
    failed itself at least [threshold] times within the window, however full
    the table is of other sources. *)
Theorem blocked_only_for_own_failures th w mx last log s now :
  1 <= th → 0 < w → monotone last (log ++ [(now, Query s)]) →
  (is_blocked_at (limiter_after (Limiter_new th w mx) log) s now).1 = true →
  th <= len (in_window w now (failed_at s log)).
Proof.
  intros Hth Hw Hm Hb.
  assert (monotone last log) as Hm'.
  { clear -Hm. revert last Hm. induction log as [|[t op] log IH]; simpl; [done|]. naive_solver. }
  destruct (after_simulates th w mx Hth Hw log last _ _ (new_simulates th w mx last) Hm')
    as (t & Hsim & _ & Ht).
  destruct (query_simulates th w mx Hth Hw _ now _ _ s Hsim (Ht _ _ Hm)) as [Hv _].
  rewrite Hv in Hb. unfold spec_blocked in Hb. bools.
  pose proof (window_sublist w mx log ∅ s) as Hsub. rewrite lookup_empty in Hsub. simpl in Hsub.
  pose proof (filter_sublist (fun t => now - t < w) _ _ Hsub) as Hl.
  unfold in_window, len in *. lia.
Qed.

Lemma blocked_only_for_own_failures_witness :
  1 <= len (in_window 10 5 (failed_at [Byte.x01] [(0, Failure [Byte.x01])])).
Proof.
  apply (blocked_only_for_own_failures 1 10 4 0 [(0, Failure [Byte.x01])] [Byte.x01] 5);
    [lia|lia|simpl; lia|vm_compute; reflexivity].
Defined.
