(* ===== verification/ServiceState.v ===== *)
(** * Dynamic registration state of crates/eggtunnel/src/client/service_state.rs

    A oneshot [Sender] is a token; what is sent on it is the list of answers
    an operation returns beside the new state, and [closed] says which
    receivers are gone.  A [HashMap] is a [gmap]: where the code walks one,
    the order of the answers is the map's and no statement depends on it. *)

From S2P Require Import Prelude Text Proto Common.

Abbreviation Sender := nat.
Abbreviation Answer := (Sender * result TunnelError EffectiveBind)%type.

Record PendingRegistration := mkPending
  { pr_service : ClientService; pr_generation : Z; pr_reply : option Sender;
    pr_deadline : option Z }.

Inductive AckDisposition :=
| Commit (service : ClientService) (reply : option Sender)
| Abandoned
| AckStale (reply : option Sender)
| Unexpected.

Inductive RejectDisposition :=
| Reject (reply : option Sender)
| RejectStale (reply : option Sender)
| Unknown.

Inductive Expiry := E_None | E_Legacy | E_Correlated (n : nat).

Inductive RegistrationMode := LegacySerial | CorrelatedBounded (max_in_flight : Z).

Record ServiceState := mkState
  { st_desired : list ClientService;
    st_active : gmap ServiceId ClientService;
    st_pending : option PendingRegistration;
    st_in_flight : gmap ServiceId PendingRegistration;
    st_abandoned : gmap ServiceId Z;
    st_mode : RegistrationMode }.

Definition State_new (desired : list ClientService) : ServiceState :=
  mkState desired ∅ None ∅ ∅ LegacySerial.

(** Field updates. *)
Definition set_desired d (s : ServiceState) :=
  mkState d (st_active s) (st_pending s) (st_in_flight s) (st_abandoned s) (st_mode s).
Definition set_active a (s : ServiceState) :=
  mkState (st_desired s) a (st_pending s) (st_in_flight s) (st_abandoned s) (st_mode s).
Definition set_pending p (s : ServiceState) :=
  mkState (st_desired s) (st_active s) p (st_in_flight s) (st_abandoned s) (st_mode s).
Definition set_in_flight f (s : ServiceState) :=
  mkState (st_desired s) (st_active s) (st_pending s) f (st_abandoned s) (st_mode s).
Definition set_abandoned t (s : ServiceState) :=
  mkState (st_desired s) (st_active s) (st_pending s) (st_in_flight s) t (st_mode s).
Definition set_mode_field m (s : ServiceState) :=
  mkState (st_desired s) (st_active s) (st_pending s) (st_in_flight s) (st_abandoned s) m.

Definition duplicate_error (e : TunnelError) : TunnelError :=
  match e with
  | TE_Io _ | TE_Protocol _ => TE_Disconnected
  | _ => e
  end.

(** [if let Some(reply) = reply.take() { let _ = reply.send(Err(e)); }]. *)
Definition answer (reply : option Sender) (r : result TunnelError EffectiveBind) : list Answer :=
  match reply with Some t => [(t, r)] | None => [] end.

Definition finish_pending (error : TunnelError) (s : ServiceState) : list Answer * ServiceState :=
  let e := Err (duplicate_error error) in
  (match st_pending s with Some p => answer (pr_reply p) e | None => [] end
     ++ (values (st_in_flight s) ≫= fun txn => answer (pr_reply txn) e),
   set_abandoned ∅ (set_in_flight ∅ (set_pending None s))).

Definition set_mode (mode : RegistrationMode) (s : ServiceState) : list Answer * ServiceState :=
  let '(out, s1) := finish_pending TE_Disconnected s in
  (out, set_mode_field mode (set_abandoned ∅ s1)).

Definition activate_initial (s : ServiceState) : ServiceState :=
  set_active (foldl (fun m service => <[cs_id service := service]> m) ∅ (st_desired s)) s.

Definition unacknowledged (s : ServiceState) : Z :=
  (match st_pending s with Some _ => 1 | None => 0 end) + Z.of_nat (size (st_in_flight s)).

Definition min_deadline (l : list Z) : option Z :=
  match l with [] => None | x :: l' => Some (foldl Z.min x l') end.

Definition next_deadline (s : ServiceState) : option Z :=
  min_deadline
    (option_list (st_pending s ≫= pr_deadline)
       ++ omap pr_deadline (values (st_in_flight s))).

Definition overdue (now : Z) (p : PendingRegistration) : bool :=
  match pr_deadline p with Some deadline => deadline <=? now | None => false end.

Definition expire_overdue (now : Z) (s : ServiceState) : Expiry * list Answer * ServiceState :=
  let late := filter (fun txn => overdue now txn = true) (values (st_in_flight s)) in
  let out := late ≫= fun txn => answer (pr_reply txn) (Err TE_Timeout) in
  let s1 := set_in_flight (filter (fun kv => overdue now kv.2 = false) (st_in_flight s)) s in
  match st_pending s1 with
  | Some p =>
      if overdue now p
      then (E_Legacy, out ++ answer (pr_reply p) (Err TE_Timeout), set_pending None s1)
      else (if (0 <? length late)%nat then E_Correlated (length late) else E_None, out, s1)
  | None => (if (0 <? length late)%nat then E_Correlated (length late) else E_None, out, s1)
  end.

(** Same identifier or same name. *)
Definition clashes (service : ClientService) (other : ClientService) : bool :=
  bool_decide (cs_id other = cs_id service) || bool_decide (cs_name other = cs_name service).

Definition already_known (service : ClientService) (s : ServiceState) : bool :=
  existsb (clashes service) (st_desired s)
  || match st_pending s with Some p => clashes service (pr_service p) | None => false end
  || existsb (fun txn => clashes service (pr_service txn)) (values (st_in_flight s)).

(** On failure the reply goes back to the caller. *)
Definition begin (service : ClientService) (generation : Z) (reply : Sender) (s : ServiceState)
    : result (TunnelError * Sender) unit * ServiceState :=
  if already_known service s then (Err (TE_ServiceAlreadyExists, reply), s)
  else
    let s1 := set_abandoned (delete (cs_id service) (st_abandoned s)) s in
    let txn := mkPending service generation (Some reply) None in
    match st_mode s1 with
    | LegacySerial =>
        match st_pending s1 with
        | Some _ => (Err (TE_ResourceExhausted, reply), s1)
        | None => (Ok tt, set_pending (Some txn) s1)
        end
    | CorrelatedBounded max_in_flight =>
        if Z.max max_in_flight 1 <=? Z.of_nat (size (st_in_flight s1))
        then (Err (TE_ResourceExhausted, reply), s1)
        else (Ok tt, set_in_flight (<[cs_id service := txn]> (st_in_flight s1)) s1)
    end.

Inductive TransactionTake :=
| Found (txn : PendingRegistration)
| Mismatched
| Missing.

Definition take_transaction (id : ServiceId) (s : ServiceState) : TransactionTake * ServiceState :=
  match st_pending s with
  | Some p =>
      if decide (cs_id (pr_service p) = id) then (Found p, set_pending None s)
      else (Mismatched, s)
  | None =>
      match st_in_flight s !! id with
      | Some txn => (Found txn, set_in_flight (delete id (st_in_flight s)) s)
      | None => (Missing, s)
      end
  end.

Definition take_ack (closed : Sender → bool) (id : ServiceId) (generation : Z) (s : ServiceState)
    : AckDisposition * ServiceState :=
  let '(t, s1) := take_transaction id s in
  match t with
  | Found p =>
      if negb (pr_generation p =? generation) then (AckStale (pr_reply p), s1)
      else if match pr_reply p with Some r => closed r | None => true end then (Abandoned, s1)
      else (Commit (pr_service p) (pr_reply p), s1)
  | Mismatched | Missing =>
      match st_abandoned s1 !! id with
      | Some abandoned_generation =>
          (if abandoned_generation =? generation then Abandoned else AckStale None,
           set_abandoned (delete id (st_abandoned s1)) s1)
      | None => (Unexpected, s1)
      end
  end.

Definition take_reject (id : ServiceId) (generation : Z) (s : ServiceState)
    : RejectDisposition * ServiceState :=
  let '(t, s1) := take_transaction id s in
  match t with
  | Found p =>
      (if negb (pr_generation p =? generation) then RejectStale (pr_reply p)
       else Reject (pr_reply p), s1)
  | Mismatched | Missing =>
      match st_abandoned s1 !! id with
      | Some _ => (RejectStale None, set_abandoned (delete id (st_abandoned s1)) s1)
      | None => (Unknown, s1)
      end
  end.

(** The generic [Error] of legacy mode: the pending transaction's reply. *)
Definition reject (s : ServiceState) : option (option Sender) * ServiceState :=
  (pr_reply <$> st_pending s, set_pending None s).

Definition MAX_ABANDONED : nat := 256.

(** The bounded tombstone: a full table is cleared first. *)
Definition tombstone (id : ServiceId) (generation : Z) (s : ServiceState) : ServiceState :=
  let t := if (MAX_ABANDONED <=? size (st_abandoned s))%nat then ∅ else st_abandoned s in
  set_abandoned (<[id := generation]> t) s.

Definition abandon (id : ServiceId) (s : ServiceState) : list Answer * ServiceState :=
  match st_in_flight s !! id with
  | Some txn =>
      (answer (pr_reply txn) (Err TE_Timeout),
       tombstone id (pr_generation txn) (set_in_flight (delete id (st_in_flight s)) s))
  | None => ([], s)
  end.

Definition unregister (id : ServiceId) (s : ServiceState) : bool * list Answer * ServiceState :=
  let '(out1, s1) :=
    match st_pending s with
    | Some p =>
        if decide (cs_id (pr_service p) = id)
        then (answer (pr_reply p) (Err TE_Cancelled),
              tombstone id (pr_generation p) (set_pending None s))
        else ([], s)
    | None => ([], s)
    end in
  let out2 := match st_in_flight s1 !! id with
              | Some txn => answer (pr_reply txn) (Err TE_Cancelled)
              | None => []
              end in
  let s2 := set_in_flight (delete id (st_in_flight s1)) s1 in
  let s3 := set_desired (filter (fun service => cs_id service ≠ id) (st_desired s2)) s2 in
  (bool_decide (is_Some (st_active s3 !! id)), out1 ++ out2,
   set_active (delete id (st_active s3)) s3).

Definition commit (service : ClientService) (s : ServiceState) : ServiceState :=
  set_desired (st_desired s ++ [service])
    (set_active (<[cs_id service := service]> (st_active s)) s).

Definition clear_active (s : ServiceState) : ServiceState := set_active ∅ s.

(** The deadlines the Session loop arms through [pending_mut] and
    [in_flight_mut]. *)
Definition arm_pending (deadline : Z) (s : ServiceState) : ServiceState :=
  set_pending ((fun p => mkPending (pr_service p) (pr_generation p) (pr_reply p) (Some deadline))
                 <$> st_pending s) s.
Definition arm_in_flight (id : ServiceId) (deadline : Z) (s : ServiceState) : ServiceState :=
  set_in_flight (alter (fun p => mkPending (pr_service p) (pr_generation p) (pr_reply p) (Some deadline))
                   id (st_in_flight s)) s.

(** The Session loop takes the reply of a legacy transaction whose write
    timed out. *)
Definition take_pending_reply (s : ServiceState) : option Sender * ServiceState :=
  (st_pending s ≫= pr_reply,
   set_pending ((fun p => mkPending (pr_service p) (pr_generation p) None (pr_deadline p))
                  <$> st_pending s) s).

(** ** The operations as one step function

    [O_ack] and [O_begin] are what the Session loop does with the answer: a
    [Commit] is committed at once. *)

Inductive Op :=
| O_begin (service : ClientService) (generation : Z) (reply : Sender)
| O_ack (id : ServiceId) (generation : Z)
| O_reject (id : ServiceId) (generation : Z)
| O_reject_legacy
| O_take_reply
| O_abandon (id : ServiceId)
| O_unregister (id : ServiceId)
| O_expire (now : Z)
| O_arm_pending (deadline : Z)
| O_arm_in_flight (id : ServiceId) (deadline : Z)
| O_finish (error : TunnelError)
| O_set_mode (mode : RegistrationMode)
| O_activate
| O_clear_active.

(** Where the replies of a step go: answered by it, handed to the caller, or
    dropped. *)
Record Released := mkReleased
  { answered : list Sender; returned : list Sender; dropped : list Sender }.

Definition answers (l : list Answer) : Released := mkReleased (l.*1) [] [].
Definition returns (l : list Sender) : Released := mkReleased [] l [].
Definition nothing : Released := mkReleased [] [] [].

Definition begun (o : Op) : list Sender :=
  match o with O_begin _ _ reply => [reply] | _ => [] end.

Definition ack_step (closed : Sender → bool) (id : ServiceId) (generation : Z) (s : ServiceState)
    : Released * ServiceState :=
  match take_ack closed id generation s with
  | (Commit service reply, s1) => (returns (option_list reply), commit service s1)
  | (AckStale reply, s1) => (returns (option_list reply), s1)
  | (Abandoned, s1) =>
      (mkReleased [] [] match take_transaction id s with
                        | (Found p, _) => option_list (pr_reply p)
                        | _ => []
                        end, s1)
  | (Unexpected, s1) => (nothing, s1)
  end.

Definition apply (closed : Sender → bool) (o : Op) (s : ServiceState) : Released * ServiceState :=
  match o with
  | O_begin service generation reply =>
      match begin service generation reply s with
      | (Ok _, s') => (nothing, s')
      | (Err (_, r), s') => (returns [r], s')
      end
  | O_ack id generation => ack_step closed id generation s
  | O_reject id generation =>
      match take_reject id generation s with
      | (Reject reply, s') | (RejectStale reply, s') => (returns (option_list reply), s')
      | (Unknown, s') => (nothing, s')
      end
  | O_reject_legacy =>
      let '(r, s') := reject s in (returns (option_list (r ≫= id)), s')
  | O_take_reply => let '(r, s') := take_pending_reply s in (returns (option_list r), s')
  | O_abandon id => let '(out, s') := abandon id s in (answers out, s')
  | O_unregister id => let '(_, out, s') := unregister id s in (answers out, s')
  | O_expire now => let '(_, out, s') := expire_overdue now s in (answers out, s')
  | O_arm_pending d => (nothing, arm_pending d s)
  | O_arm_in_flight id d => (nothing, arm_in_flight id d s)
  | O_finish e => let '(out, s') := finish_pending e s in (answers out, s')
  | O_set_mode m => let '(out, s') := set_mode m s in (answers out, s')
  | O_activate => (nothing, activate_initial s)
  | O_clear_active => (nothing, clear_active s)
  end.

(** ** Transactions, services and replies of a state *)

Definition txns (s : ServiceState) : list PendingRegistration :=
  option_list (st_pending s) ++ values (st_in_flight s).

Definition services (s : ServiceState) : list ClientService :=
  st_desired s ++ (pr_service <$> txns s).

Definition held (s : ServiceState) : list Sender := omap pr_reply (txns s).

(** Identifiers and names are unique across everything desired or in flight;
    a mode only uses its own store; every table is bounded. *)
Record wf_state (s : ServiceState) : Prop :=
  { wf_ids : NoDup (cs_id <$> services s);
    wf_names : NoDup (cs_name <$> services s);
    wf_keys id p : st_in_flight s !! id = Some p → cs_id (pr_service p) = id;
    wf_mode : match st_mode s with
              | LegacySerial => st_in_flight s = ∅
              | CorrelatedBounded m =>
                  st_pending s = None ∧ Z.of_nat (size (st_in_flight s)) <= Z.max m 1
              end;
    wf_abandoned : (size (st_abandoned s) <= MAX_ABANDONED)%nat;
    wf_active id service :
      st_active s !! id = Some service → service ∈ st_desired s ∧ cs_id service = id }.

(** ** Lemmas: what each operation does to the transactions *)

Lemma answer_fst reply r : (answer reply r).*1 = option_list reply.
Proof. by destruct reply. Qed.

Lemma answers_fst (l : list PendingRegistration) r :
  (l ≫= fun txn => answer (pr_reply txn) r).*1 = omap pr_reply l.
Proof.
  induction l as [|p l IH]; [done|]. rewrite bind_cons, fmap_app, IH, answer_fst.
  simpl. by destruct (pr_reply p).
Qed.

Lemma omap_cons_reply (p : PendingRegistration) l :
  omap pr_reply (p :: l) = option_list (pr_reply p) ++ omap pr_reply l.
Proof. simpl. by destruct (pr_reply p). Qed.

Lemma take_transaction_cases id s :
  (∃ p s', take_transaction id s = (Found p, s') ∧ txns s ≡ₚ p :: txns s' ∧
     (wf_state s → cs_id (pr_service p) = id) ∧
     st_desired s' = st_desired s ∧ st_active s' = st_active s ∧
     st_abandoned s' = st_abandoned s ∧ st_mode s' = st_mode s ∧
     (st_pending s' = None) ∧ (st_in_flight s' = delete id (st_in_flight s) ∨ st_in_flight s' = st_in_flight s)) ∨
  (take_transaction id s = (Mismatched, s) ∨ take_transaction id s = (Missing, s)).
Proof.
  unfold take_transaction. destruct (st_pending s) as [p|] eqn:Hp.
  - destruct (decide _) as [Hid|]; [|by right; left]. left. exists p, (set_pending None s).
    unfold txns. rewrite Hp. simpl. naive_solver.
  - destruct (st_in_flight s !! id) as [p|] eqn:Hf; [|by right; right]. left.
    exists p, (set_in_flight (delete id (st_in_flight s)) s). split; [done|].
    split; [|split; [intros Hw; by eapply wf_keys|simpl; tauto]].
    unfold txns. simpl. rewrite Hp. simpl. by apply values_delete.
Qed.

(** Losing transactions, and nothing gained elsewhere, keeps the invariant. *)
Lemma wf_lose s s' extra :
  wf_state s →
  services s ≡ₚ extra ++ services s' →
  st_in_flight s' ⊆ st_in_flight s →
  (st_pending s' = None ∨ st_pending s' = st_pending s) →
  st_mode s' = st_mode s →
  (size (st_abandoned s') <= MAX_ABANDONED)%nat →
  (∀ id service, st_active s' !! id = Some service →
     st_active s !! id = Some service ∧ service ∈ st_desired s') →
  wf_state s'.
Proof.
  intros Hw Hs Hsub Hpend Hmode Hab Hact. destruct Hw as [Hi Hn Hk Hm _ Ha]. split.
  - by eapply NoDup_fmap_submultiset.
  - by eapply NoDup_fmap_submultiset.
  - intros id p Hp. apply Hk. by eapply lookup_weaken.
  - rewrite Hmode. destruct (st_mode s).
    + apply map_eq. intros i. rewrite lookup_empty. apply eq_None_not_Some. intros [p Hp].
      eapply lookup_weaken in Hp; [|done]. by rewrite Hm, lookup_empty in Hp.
    + destruct Hm as [Hp Hz]. split; [destruct Hpend; congruence|].
      pose proof (map_subseteq_size _ _ Hsub). lia.
  - done.
  - intros id service H. destruct (Hact _ _ H) as [Hold ?]. split; [done|]. by eapply Ha.
Qed.

Lemma services_txns_lose s s' p :
  st_desired s' = st_desired s → txns s ≡ₚ p ++ txns s' →
  services s ≡ₚ (pr_service <$> p) ++ services s'.
Proof.
  intros Hd Ht. unfold services. rewrite Hd, Ht, fmap_app, !app_assoc.
  by rewrite (Permutation_app_comm (st_desired s)).
Qed.

Lemma take_transaction_wf id s p s' :
  wf_state s → take_transaction id s = (Found p, s') →
  wf_state s' ∧ txns s ≡ₚ p :: txns s' ∧ services s ≡ₚ pr_service p :: services s' ∧
  cs_id (pr_service p) = id.
Proof.
  intros Hw Ht. destruct (take_transaction_cases id s) as
    [(p' & s'' & E & Hp & Hid & Hd & Ha & Hb & Hm & Hpn & Hf)|[E|E]]; rewrite E in Ht; simplify_eq.
  pose proof (services_txns_lose s s' [p] Hd Hp) as Hs.
  split; [|split_and!; [done|done|by apply Hid]].
  eapply wf_lose; try done.
  - destruct Hf as [-> | ->]; [apply delete_subseteq|done].
  - by left.
  - rewrite Hb. apply Hw.
  - intros i service H. rewrite Ha in H. split; [done|]. rewrite Hd. by eapply wf_active.
Qed.

(** ** Lemmas: the invariant, operation by operation *)

Lemma already_known_false service s :
  already_known service s = false ↔
  ∀ x, x ∈ services s → cs_id x ≠ cs_id service ∧ cs_name x ≠ cs_name service.
Proof.
  set (fresh := fun x => cs_id x ≠ cs_id service ∧ cs_name x ≠ cs_name service).
  assert (∀ x, clashes service x = false ↔ fresh x) as Hc.
  { intros x. unfold clashes, fresh. by rewrite orb_false_iff, !bool_decide_eq_false. }
  assert (∀ l, existsb (clashes service) l = false ↔ Forall fresh l) as He.
  { intros l. induction l as [|y l IH]; simpl; [by split|].
    by rewrite orb_false_iff, IH, Hc, Forall_cons_iff. }
  unfold already_known. rewrite !orb_false_iff, He.
  assert (existsb (fun txn => clashes service (pr_service txn)) (values (st_in_flight s)) =
          existsb (clashes service) (pr_service <$> values (st_in_flight s))) as ->.
  { generalize (values (st_in_flight s)). intros l.
    induction l as [|y l IH]; [done|]. cbn. f_equal. exact IH. }
  rewrite He. change (∀ x, x ∈ services s → _) with (∀ x, x ∈ services s → fresh x).
  rewrite <-list.Forall_forall. unfold services, txns. rewrite fmap_app, !list.Forall_app.
  destruct (st_pending s) as [p|]; simpl; rewrite ?Hc, ?Forall_cons_iff, Forall_nil_iff; tauto.
Qed.

Lemma wf_shrink_abandoned s t :
  wf_state s → (size t <= MAX_ABANDONED)%nat → wf_state (set_abandoned t s).
Proof. by intros [] ?; split. Qed.

Lemma size_delete_le {A} (m : gmap ServiceId A) i : (size (delete i m) <= size m)%nat.
Proof. apply map_subseteq_size, delete_subseteq. Qed.

Lemma begin_wf service g r s : wf_state s → wf_state (begin service g r s).2.
Proof.
  intros Hw. unfold begin. destruct (already_known service s) eqn:Hk; [done|].
  rewrite already_known_false in Hk.
  assert (wf_state (set_abandoned (delete (cs_id service) (st_abandoned s)) s)) as Hw1.
  { apply wf_shrink_abandoned; [done|]. pose proof (wf_abandoned _ Hw).
    pose proof (size_delete_le (st_abandoned s) (cs_id service)). lia. }
  set (s1 := set_abandoned _ s) in *. change (services s) with (services s1) in Hk.
  clearbody s1. pose proof Hw1 as [Hi Hn Hkey Hm Hb Ha].
  assert (∀ s', services s' ≡ₚ service :: services s1 →
    NoDup (cs_id <$> services s') ∧ NoDup (cs_name <$> services s')) as Hnd.
  { intros s' ->. simpl. rewrite !list.NoDup_cons, !list_elem_of_fmap. naive_solver. }
  destruct (st_mode s1) as [|m] eqn:Emode; simpl.
  - destruct (st_pending s1) as [p|] eqn:Ep; simpl; [done|].
    destruct (Hnd (set_pending (Some (mkPending service g (Some r) None)) s1)) as [? ?].
    { unfold services, txns. simpl. rewrite Ep. simpl. by rewrite <-Permutation_middle. }
    split; try done. simpl. by rewrite Emode.
  - destruct Hm as [Ep Hz]. case_match; bools; simpl; [done|].
    assert (st_in_flight s1 !! cs_id service = None) as Hf.
    { apply eq_None_not_Some. intros [p Hp]. destruct (Hk (pr_service p)) as [Hne _].
      - unfold services, txns. rewrite fmap_app, !elem_of_app. do 2 right.
        apply list_elem_of_fmap. exists p. split; [done|]. apply elem_of_values. eauto.
      - by rewrite (Hkey _ _ Hp) in Hne. }
    destruct (Hnd (set_in_flight (<[cs_id service := mkPending service g (Some r) None]> (st_in_flight s1)) s1)) as [? ?].
    { unfold services, txns. simpl. rewrite Ep, values_insert by done. simpl.
      by rewrite <-Permutation_middle. }
    split; try done; simpl.
    + intros i p. rewrite lookup_insert. case_decide; [naive_solver|apply Hkey].
    + rewrite Emode. split; [done|]. rewrite map_size_insert_None by done. lia.
Qed.

Lemma commit_wf service s :
  wf_state s → already_known service s = false → wf_state (commit service s).
Proof.
  intros [Hi Hn Hk Hm Hb Ha] Hnew. rewrite already_known_false in Hnew.
  assert (services (commit service s) ≡ₚ service :: services s) as Hp.
  { unfold services, commit, txns. simpl. rewrite <-app_assoc. simpl. by rewrite <-Permutation_middle. }
  split; try done.
  - rewrite Hp. simpl. rewrite list.NoDup_cons, list_elem_of_fmap. naive_solver.
  - rewrite Hp. simpl. rewrite list.NoDup_cons, list_elem_of_fmap. naive_solver.
  - intros i x. simpl. rewrite lookup_insert. case_decide as E.
    + intros [= <-]. split; [set_solver|done].
    + intros Hx. destruct (Ha _ _ Hx). split; [set_solver|done].
Qed.

Lemma not_known_after_take service s l :
  NoDup (cs_id <$> l) → NoDup (cs_name <$> l) → l ≡ₚ service :: services s →
  already_known service s = false.
Proof.
  intros Hi Hn Hp. rewrite Hp in Hi, Hn. simpl in *. apply list.NoDup_cons in Hi as [Hi _].
  apply list.NoDup_cons in Hn as [Hn _]. apply already_known_false. intros x Hx.
  split; intros E; [apply Hi | apply Hn]; rewrite <-E; by apply list_elem_of_fmap_2.
Qed.

Lemma tombstone_size id g s : (size (st_abandoned (tombstone id g s)) <= MAX_ABANDONED)%nat.
Proof.
  unfold tombstone. cbn [st_abandoned set_abandoned].
  assert (∀ (m : gmap ServiceId Z) x, size (<[id := x]> m) <= S (size m))%nat as Hi.
  { intros m x. rewrite map_size_insert. destruct (m !! id); unfold Datatypes.id; lia. }
  destruct (Nat.leb_spec MAX_ABANDONED (size (st_abandoned s))).
  - specialize (Hi ∅ g). rewrite map_size_empty in Hi. unfold MAX_ABANDONED. lia.
  - specialize (Hi (st_abandoned s) g). lia.
Qed.

(** Each operation that loses transactions, with the ones it loses. *)

Lemma expire_txns now s e out s' :
  expire_overdue now s = (e, out, s') →
  ∃ lost, txns s ≡ₚ lost ++ txns s' ∧ out.*1 ≡ₚ omap pr_reply lost ∧
    Forall (fun p => overdue now p = true) lost ∧
    Forall (fun p => overdue now p = false) (txns s') ∧
    st_desired s' = st_desired s ∧ st_active s' = st_active s ∧
    st_abandoned s' = st_abandoned s ∧ st_mode s' = st_mode s ∧
    st_in_flight s' ⊆ st_in_flight s ∧ (st_pending s' = None ∨ st_pending s' = st_pending s).
Proof.
  unfold expire_overdue.
  set (late := filter (fun txn => overdue now txn = true) (values (st_in_flight s))).
  set (kept := filter (fun kv => overdue now kv.2 = false) (st_in_flight s)).
  pose proof (values_split (overdue now) (st_in_flight s)) as Hv. fold late kept in Hv.
  assert (Forall (fun p => overdue now p = true) late) as Hlate
    by (apply list.Forall_forall; intros p [? _]%list_elem_of_filter; done).
  assert (Forall (fun p => overdue now p = false) (values kept)) as Hkept.
  { apply list.Forall_forall. intros p [k Hk]%elem_of_values.
    by apply map_lookup_filter_Some in Hk as [_ ?]. }
  assert (kept ⊆ st_in_flight s) as Hsub by apply map_filter_subseteq.
  unfold txns. simpl. destruct (st_pending s) as [p|] eqn:Hp; [destruct (overdue now p) eqn:Ho|];
    intros [= <- <- <-]; simpl; rewrite ?Hp; simpl.
  - exists (p :: late). rewrite Hv, fmap_app, answers_fst, answer_fst, omap_cons_reply.
    split_and!; try done; [apply Permutation_app_comm|by constructor|by left].
  - exists late. rewrite Hv, answers_fst. split_and!; try done; [|by constructor|by right].
    by rewrite Permutation_middle.
  - exists late. rewrite Hv, answers_fst. split_and!; try done. by right.
Qed.

Lemma abandon_txns id s out s' :
  abandon id s = (out, s') →
  ∃ lost, txns s ≡ₚ lost ++ txns s' ∧ out.*1 ≡ₚ omap pr_reply lost ∧
    st_desired s' = st_desired s ∧ st_active s' = st_active s ∧ st_mode s' = st_mode s ∧
    st_in_flight s' ⊆ st_in_flight s ∧ st_pending s' = st_pending s ∧
    ((size (st_abandoned s) <= MAX_ABANDONED)%nat → (size (st_abandoned s') <= MAX_ABANDONED)%nat).
Proof.
  unfold abandon. destruct (st_in_flight s !! id) as [txn|] eqn:E; intros [= <- <-].
  - exists [txn]. unfold txns.
    cbn [st_pending st_in_flight tombstone set_abandoned set_in_flight st_desired st_active st_mode].
    rewrite answer_fst, (values_delete _ _ _ E).
    split; [by rewrite <-Permutation_middle|]. split; [by rewrite omap_cons_reply, app_nil_r|].
    split_and!; try done; [apply delete_subseteq|]. intros _. apply tombstone_size.
  - exists []. by split_and!.
Qed.

Lemma unregister_txns id s b out s' :
  unregister id s = (b, out, s') →
  ∃ lost, txns s ≡ₚ lost ++ txns s' ∧ out.*1 ≡ₚ omap pr_reply lost ∧
    st_desired s' = filter (fun service => cs_id service ≠ id) (st_desired s) ∧
    st_active s' = delete id (st_active s) ∧ st_mode s' = st_mode s ∧
    st_in_flight s' ⊆ st_in_flight s ∧ (st_pending s' = None ∨ st_pending s' = st_pending s) ∧
    ((size (st_abandoned s) <= MAX_ABANDONED)%nat → (size (st_abandoned s') <= MAX_ABANDONED)%nat).
Proof.
  unfold unregister.
  set (step1 := match st_pending s with Some p => _ | None => _ end).
  assert (∃ lost1, txns s ≡ₚ lost1 ++ txns step1.2 ∧ step1.1.*1 = omap pr_reply lost1 ∧
    st_desired step1.2 = st_desired s ∧ st_active step1.2 = st_active s ∧
    st_mode step1.2 = st_mode s ∧ st_in_flight step1.2 = st_in_flight s ∧
    (st_pending step1.2 = None ∨ st_pending step1.2 = st_pending s) ∧
    ((size (st_abandoned s) <= MAX_ABANDONED)%nat →
     (size (st_abandoned step1.2) <= MAX_ABANDONED)%nat))
    as (lost1 & H1 & H2 & H3 & H4 & H5 & H6 & H7 & H8).
  { unfold step1. destruct (st_pending s) as [p|] eqn:Hp; [destruct (decide _)|].
    - exists [p]. cbn [fst snd]. rewrite answer_fst. unfold txns. rewrite Hp.
      split; [done|]. split; [by rewrite omap_cons_reply, app_nil_r|].
      split_and!; try done; [by left|]. intros _. apply tombstone_size.
    - exists []. split_and!; try done. by right.
    - exists []. split_and!; try done. by right. }
  clearbody step1. destruct step1 as [out1 s1]. cbn [fst snd] in *. intros [= _ <- <-].
  destruct (st_in_flight s1 !! id) as [txn|] eqn:E.
  - exists (lost1 ++ [txn]). rewrite fmap_app, answer_fst, H2, omap_app, omap_cons_reply, app_nil_r.
    rewrite H1, <-app_assoc. unfold txns at 1. rewrite (values_delete _ _ _ E).
    split; [by rewrite <-Permutation_middle|]. split_and!; try done; simpl; rewrite <-?H3, <-?H4, <-?H6; try done.
    apply delete_subseteq.
  - exists lost1. rewrite fmap_app, H2. simpl. rewrite app_nil_r.
    assert (delete id (st_in_flight s1) = st_in_flight s1) as Hd by (by apply delete_id).
    split_and!; try done; simpl; rewrite ?Hd, <-?H3, <-?H4, <-?H6; done.
Qed.

Lemma finish_txns e s out s' :
  finish_pending e s = (out, s') →
  txns s' = [] ∧ out.*1 ≡ₚ held s ∧ st_desired s' = st_desired s ∧ st_active s' = st_active s ∧
  st_mode s' = st_mode s ∧ st_abandoned s' = ∅ ∧ st_in_flight s' = ∅ ∧ st_pending s' = None.
Proof.
  unfold finish_pending. intros [= <- <-]. unfold txns, held, txns. simpl.
  rewrite values_empty, fmap_app, answers_fst, omap_app. split_and!; try done.
  destruct (st_pending s) as [p|]; [|done]. simpl. rewrite answer_fst. by destruct (pr_reply p).
Qed.

Lemma arm_pending_same d s :
  pr_service <$> txns (arm_pending d s) = pr_service <$> txns s ∧ held (arm_pending d s) = held s.
Proof.
  unfold held, txns, arm_pending. simpl. by destruct (st_pending s).
Qed.

Lemma arm_in_flight_same id d s :
  (pr_service <$> txns (arm_in_flight id d s)) ≡ₚ (pr_service <$> txns s) ∧
  held (arm_in_flight id d s) ≡ₚ held s.
Proof.
  unfold held, txns, arm_in_flight. simpl. rewrite !fmap_app, !omap_app.
  split; f_equiv; [by apply values_alter | by apply values_alter_omap].
Qed.

(** ** Lemmas: every operation keeps the invariant *)

Lemma ack_step_wf closed id g s : wf_state s → wf_state (ack_step closed id g s).2.
Proof.
  intros Hw. unfold ack_step, take_ack.
  destruct (take_transaction id s) as [t s1] eqn:Et. destruct t as [p| |].
  - pose proof (take_transaction_wf _ _ _ _ Hw Et) as (Hw1 & _ & Hs & _).
    repeat case_match; simplify_eq/=; try done.
    apply commit_wf; [done|]. eapply not_known_after_take; [apply Hw|apply Hw|done].
  - destruct (take_transaction_cases id s) as [(? & ? & E & _)|[E|E]]; rewrite E in Et; simplify_eq.
    repeat case_match; simplify_eq/=; try done; apply wf_shrink_abandoned; try done;
      (etransitivity; [apply size_delete_le|apply Hw]).
  - destruct (take_transaction_cases id s) as [(? & ? & E & _)|[E|E]]; rewrite E in Et; simplify_eq.
    repeat case_match; simplify_eq/=; try done; apply wf_shrink_abandoned; try done;
      (etransitivity; [apply size_delete_le|apply Hw]).
Qed.

Lemma take_reject_wf id g s : wf_state s → wf_state (take_reject id g s).2.
Proof.
  intros Hw. unfold take_reject.
  destruct (take_transaction id s) as [t s1] eqn:Et. destruct t as [p| |].
  - by pose proof (take_transaction_wf _ _ _ _ Hw Et) as (Hw1 & _).
  - destruct (take_transaction_cases id s) as [(? & ? & E & _)|[E|E]]; rewrite E in Et; simplify_eq.
    case_match; simpl; [|done]. apply wf_shrink_abandoned; [done|].
    etransitivity; [apply size_delete_le|apply Hw].
  - destruct (take_transaction_cases id s) as [(? & ? & E & _)|[E|E]]; rewrite E in Et; simplify_eq.
    case_match; simpl; [|done]. apply wf_shrink_abandoned; [done|].
    etransitivity; [apply size_delete_le|apply Hw].
Qed.

(** An operation that only loses transactions. *)
Lemma wf_lose_txns s s' lost :
  wf_state s → txns s ≡ₚ lost ++ txns s' →
  st_desired s' = st_desired s → st_active s' = st_active s →
  (size (st_abandoned s') <= MAX_ABANDONED)%nat → st_mode s' = st_mode s →
  st_in_flight s' ⊆ st_in_flight s → (st_pending s' = None ∨ st_pending s' = st_pending s) →
  wf_state s'.
Proof.
  intros Hw Ht Hd Ha Hb Hm Hf Hp.
  eapply wf_lose; [done|by apply services_txns_lose|done..|].
  intros id x. rewrite Ha, Hd. intros Hx. split; [done|]. by eapply wf_active.
Qed.

Lemma unregister_wf id s : wf_state s → wf_state (unregister id s).2.
Proof.
  intros Hw. destruct (unregister id s) as [[b out] s'] eqn:E.
  apply unregister_txns in E as (lost & Ht & _ & Hd & Ha & Hm & Hf & Hp & Hb). simpl.
  apply (wf_lose s _ (filter (fun x => cs_id x = id) (st_desired s) ++ (pr_service <$> lost))); try done.
  - unfold services. rewrite Hd, Ht, fmap_app.
    rewrite <-(filter_app_complement (fun x => cs_id x = id) (st_desired s)) at 1.
    rewrite <-!app_assoc. f_equiv. rewrite !app_assoc. f_equiv. apply Permutation_app_comm.
  - apply Hb, Hw.
  - intros i x. rewrite Ha, Hd, lookup_delete. case_decide; [done|]. intros Hx. split; [done|].
    destruct (wf_active _ Hw _ _ Hx) as [? <-]. by apply list_elem_of_filter.
Qed.

Lemma same_services_wf s s' :
  wf_state s → services s' ≡ₚ services s → st_desired s' = st_desired s →
  st_active s' = st_active s → st_abandoned s' = st_abandoned s → st_mode s' = st_mode s →
  (st_pending s = None → st_pending s' = None) →
  dom (st_in_flight s') = dom (st_in_flight s) →
  (∀ id p, st_in_flight s' !! id = Some p → cs_id (pr_service p) = id) →
  wf_state s'.
Proof.
  intros [Hi Hn Hk Hm Hb Ha] Hs Hd Hac Hab Hmo Hp Hdom Hkey. split.
  - by rewrite Hs.
  - by rewrite Hs.
  - done.
  - rewrite Hmo. destruct (st_mode s).
    + apply dom_empty_inv_L. by rewrite Hdom, Hm, dom_empty_L.
    + destruct Hm as [? Hz]. split; [auto|]. by rewrite <-size_dom, Hdom, size_dom.
  - by rewrite Hab.
  - by rewrite Hac, Hd.
Qed.

Lemma arm_wf s d id : wf_state s → wf_state (arm_pending d s) ∧ wf_state (arm_in_flight id d s).
Proof.
  intros Hw. split.
  - apply (same_services_wf s); try done.
    + unfold services. simpl. by rewrite (proj1 (arm_pending_same d s)).
    + simpl. by intros ->.
    + apply Hw.
  - apply (same_services_wf s); try done.
    + unfold services. simpl. f_equiv. apply arm_in_flight_same.
    + simpl. by rewrite dom_alter_L.
    + intros i p. simpl. rewrite lookup_alter. case_decide as Hi; [|apply Hw].
      destruct (st_in_flight s !! i) as [q|] eqn:Hq; [|by subst; rewrite Hq].
      subst. rewrite Hq. intros [= <-]. simpl. by eapply wf_keys.
Qed.

Lemma finish_wf e s : wf_state s → wf_state (finish_pending e s).2.
Proof.
  intros Hw. destruct (finish_pending e s) as [out s'] eqn:E.
  apply finish_txns in E as (Ht & _ & Hd & Ha & Hm & Hab & Hf & Hp). simpl.
  apply (wf_lose_txns s s' (txns s)); try done.
  - by rewrite Ht, app_nil_r.
  - rewrite Hab, map_size_empty. unfold MAX_ABANDONED. lia.
  - rewrite Hf. apply map_empty_subseteq.
  - by left.
Qed.

Lemma set_mode_wf m s : wf_state s → wf_state (set_mode m s).2.
Proof.
  intros Hw. pose proof (finish_wf TE_Disconnected s Hw) as Hw1. unfold set_mode.
  destruct (finish_pending TE_Disconnected s) as [out s1] eqn:E.
  apply finish_txns in E as (Ht & _ & Hd & Ha & _ & Hab & Hf & Hp). simpl in *.
  destruct Hw1 as [Hi Hn Hk _ _ Hact]. split; try done; simpl.
  - destruct m; [done|]. rewrite Hf, map_size_empty. split; [done|lia].
  - rewrite map_size_empty. unfold MAX_ABANDONED. lia.
Qed.

Lemma activate_wf s : wf_state s → wf_state (activate_initial s).
Proof.
  intros [Hi Hn Hk Hm Hb Ha]. split; try done. intros i x. simpl.
  assert (∀ l (m : gmap ServiceId ClientService), (∀ i x, m !! i = Some x → x ∈ st_desired s ∧ cs_id x = i) →
    l ⊆ st_desired s → ∀ i x,
    foldl (fun m service => <[cs_id service := service]> m) m l !! i = Some x →
    x ∈ st_desired s ∧ cs_id x = i) as H.
  { induction l as [|y l IH]; intros m Hmm Hl j z; simpl; [apply Hmm|].
    apply IH; [|set_solver]. intros k w. rewrite lookup_insert.
    case_decide; [intros [= <-]; set_solver|apply Hmm]. }
  apply (H (st_desired s) ∅); [by intros ??; rewrite lookup_empty|done].
Qed.

Lemma drop_pending_wf s p :
  wf_state s → (p = None ∨ ∃ q, st_pending s = Some q ∧ ∃ q', p = Some q' ∧ pr_service q' = pr_service q) →
  wf_state (set_pending p s).
Proof.
  intros Hw [->|(q & Hq & q' & -> & Hs)].
  - apply (wf_lose_txns s _ (option_list (st_pending s))); try done; [apply Hw|by left].
  - apply (same_services_wf s); try done; [|simpl; by rewrite Hq|apply Hw].
    unfold services, txns. simpl. rewrite Hq. simpl. by rewrite Hs.
Qed.

Lemma apply_wf closed o s : wf_state s → wf_state (apply closed o s).2.
Proof.
  intros Hw. destruct o as [service g r|id g|id g| | |id|id|now|d|id d|e|m| |]; simpl.
  - pose proof (begin_wf service g r s Hw). destruct (begin service g r s) as [[|[]] s']; done.
  - by apply ack_step_wf.
  - pose proof (take_reject_wf id g s Hw). by destruct (take_reject id g s) as [[] s'].
  - apply drop_pending_wf; [done|by left].
  - apply drop_pending_wf; [done|]. destruct (st_pending s); [right; naive_solver|by left].
  - destruct (abandon id s) as [out s'] eqn:E. apply abandon_txns in E as (lost & Ht & _ & ? & ? & ? & ? & ? & Hb).
    apply (wf_lose_txns s s' lost); try done; [|by right]. apply Hb, Hw.
  - pose proof (unregister_wf id s Hw). by destruct (unregister id s) as [[b out] s'].
  - destruct (expire_overdue now s) as [[e out] s'] eqn:E.
    apply expire_txns in E as (lost & Ht & _ & _ & _ & ? & ? & Hab & ? & ? & ?).
    apply (wf_lose_txns s s' lost); try done. rewrite Hab. apply Hw.
  - by apply arm_wf.
  - by apply arm_wf.
  - exact (finish_wf e s Hw).
  - exact (set_mode_wf m s Hw).
  - by apply activate_wf.
  - destruct Hw. split; try done.
Qed.

(** ** Lemmas: replies are neither lost nor duplicated *)

Lemma held_lose s s' lost : txns s ≡ₚ lost ++ txns s' → held s ≡ₚ omap pr_reply lost ++ held s'.
Proof. intros Ht. unfold held. by rewrite Ht, omap_app. Qed.

Lemma begin_held service g r s :
  wf_state s →
  match begin service g r s with
  | (Ok _, s') => held s' ≡ₚ r :: held s
  | (Err (_, r'), s') => r' = r ∧ held s' = held s
  end.
Proof.
  intros Hw. unfold begin. destruct (already_known service s) eqn:Hk; [done|].
  rewrite already_known_false in Hk.
  set (s1 := set_abandoned _ s). change (held s) with (held s1).
  assert (st_in_flight s1 !! cs_id service = None) as Hf.
  { apply eq_None_not_Some. intros [p Hp]. destruct (Hk (pr_service p)) as [Hne _].
    - unfold services, txns. rewrite fmap_app, !elem_of_app. do 2 right.
      apply list_elem_of_fmap. exists p. split; [done|]. apply elem_of_values. eauto.
    - by rewrite (wf_keys _ Hw _ _ Hp) in Hne. }
  clearbody s1. unfold held, txns. destruct (st_mode s1).
  - destruct (st_pending s1) as [p|] eqn:Ep; simpl; rewrite ?Ep; done.
  - destruct (_ <=? _); [done|]. simpl. rewrite values_insert by done. rewrite !omap_app. simpl.
    by rewrite <-Permutation_middle.
Qed.

Lemma ack_step_held closed id g s :
  let '(r, s') := ack_step closed id g s in
  held s ≡ₚ answered r ++ returned r ++ dropped r ++ held s' ∧
  Forall (fun t => closed t = true) (dropped r).
Proof.
  unfold ack_step, take_ack.
  destruct (take_transaction_cases id s) as [(p & s1 & -> & Ht & _)|[-> | ->]].
  - apply (held_lose s s1 [p]) in Ht. rewrite omap_cons_reply, app_nil_r in Ht.
    destruct (negb _); [by simpl|]. destruct (pr_reply p) as [t|] eqn:Er; [|by simpl].
    destruct (closed t) eqn:Ec; simpl in *; (split; [done|]); by repeat constructor.
  - destruct (st_abandoned s !! id); [destruct (_ =? g)|]; (split; [done|constructor]).
  - destruct (st_abandoned s !! id); [destruct (_ =? g)|]; (split; [done|constructor]).
Qed.

Lemma apply_held closed o s :
  wf_state s →
  let '(r, s') := apply closed o s in
  begun o ++ held s ≡ₚ answered r ++ returned r ++ dropped r ++ held s' ∧
  Forall (fun t => closed t = true) (dropped r).
Proof.
  intros Hw. destruct o as [service g r|id g|id g| | |id|id|now|d|id d|e|m| |];
    cbn [apply begun app].
  - pose proof (begin_held service g r s Hw) as H. destruct (begin service g r s) as [[[]|[e r']] s'].
    + by rewrite H.
    + by destruct H as [-> ->].
  - pose proof (ack_step_held closed id g s). by destruct (ack_step closed id g s).
  - unfold take_reject.
    destruct (take_transaction_cases id s) as [(p & s1 & -> & Ht & _)|[-> | ->]].
    + apply (held_lose s s1 [p]) in Ht. rewrite omap_cons_reply, app_nil_r in Ht. by destruct (negb _).
    + destruct (st_abandoned s !! id); (split; [done|constructor]).
    + destruct (st_abandoned s !! id); (split; [done|constructor]).
  - unfold reject, held, txns. simpl. destruct (st_pending s) as [p|]; simpl; [|done].
    by destruct (pr_reply p).
  - unfold take_pending_reply, held, txns. simpl. destruct (st_pending s) as [p|]; simpl; [|done].
    by destruct (pr_reply p).
  - destruct (abandon id s) as [out s'] eqn:E.
    apply abandon_txns in E as (lost & ->%held_lose & Ho & _). simpl. by rewrite Ho.
  - destruct (unregister id s) as [[b out] s'] eqn:E.
    apply unregister_txns in E as (lost & ->%held_lose & Ho & _). simpl. by rewrite Ho.
  - destruct (expire_overdue now s) as [[e out] s'] eqn:E.
    apply expire_txns in E as (lost & ->%held_lose & Ho & _). simpl. by rewrite Ho.
  - simpl. by rewrite (proj2 (arm_pending_same d s)).
  - simpl. by rewrite (proj2 (arm_in_flight_same id d s)).
  - destruct (finish_pending e s) as [out s'] eqn:E. apply finish_txns in E as (Ht & Ho & _).
    simpl. unfold held at 2. by rewrite Ht, Ho, app_nil_r.
  - unfold set_mode. destruct (finish_pending TE_Disconnected s) as [out s'] eqn:E.
    apply finish_txns in E as (Ht & Ho & _). simpl. unfold held at 2.
    change (txns (set_mode_field m (set_abandoned ∅ s'))) with (txns s').
    by rewrite Ht, Ho, app_nil_r.
  - done.
  - done.
Qed.

Fixpoint run (closed : Sender → bool) (ops : list Op) (s : ServiceState)
    : list Released * ServiceState :=
  match ops with
  | [] => ([], s)
  | o :: ops' =>
      let '(r, s1) := apply closed o s in
      let '(rs, s2) := run closed ops' s1 in (r :: rs, s2)
  end.

Lemma new_wf desired :
  NoDup (cs_id <$> desired) → NoDup (cs_name <$> desired) → wf_state (State_new desired).
Proof.
  intros Hi Hn.
  assert (services (State_new desired) = desired) as Hs.
  { unfold services, txns. simpl. rewrite values_empty. simpl. by rewrite app_nil_r. }
  split; rewrite ?Hs; try done; simpl.
  - rewrite map_size_empty. unfold MAX_ABANDONED. lia.
Qed.

Lemma run_wf closed ops s : wf_state s → wf_state (run closed ops s).2.
Proof.
  revert s; induction ops as [|o ops IH]; intros s Hw; [done|]. simpl.
  pose proof (apply_wf closed o s Hw). destruct (apply closed o s) as [r s1].
  specialize (IH s1). destruct (run closed ops s1). by apply IH.
Qed.

Lemma run_held closed ops s :
  wf_state s →
  let '(rs, s') := run closed ops s in
  (ops ≫= begun) ++ held s ≡ₚ
    (rs ≫= answered) ++ (rs ≫= returned) ++ (rs ≫= dropped) ++ held s' ∧
  Forall (fun t => closed t = true) (rs ≫= dropped).
Proof.
  revert s; induction ops as [|o ops IH]; intros s Hw; [done|].
  cbn [run]. rewrite bind_cons.
  pose proof (apply_wf closed o s Hw) as Hw1. pose proof (apply_held closed o s Hw) as H1.
  destruct (apply closed o s) as [r s1]. destruct H1 as [H1 Hd1]. simpl in Hw1.
  specialize (IH s1 Hw1). destruct (run closed ops s1) as [rs s2]. destruct IH as [H2 Hd2].
  rewrite !bind_cons. split; [|by apply Forall_app].
  clear Hd1 Hd2. perm_count.
Qed.

Lemma min_deadline_elem l d : min_deadline l = Some d → d ∈ l.
Proof.
  destruct l as [|x l]; [done|]. simpl. intros [= <-]. revert x; induction l as [|y l IH]; intros x; simpl.
  - set_solver.
  - specialize (IH (Z.min x y)). apply elem_of_cons in IH as [->|IH]; [|set_solver].
    destruct (Z.min_spec x y) as [[_ ->]|[_ ->]]; set_solver.
Qed.

(** ** Properties *)

(** The registration state stays consistent in every run: starting from
    services with distinct identifiers and names, after any sequence of
    operations no identifier and no name is desired or in flight twice, the
    legacy mode has no correlated transaction and the correlated mode no
    legacy one, the in-flight and tombstone tables are within their bounds,
    and every active service is a desired one. *)
Theorem service_state_invariant closed ops desired :
  NoDup (cs_id <$> desired) → NoDup (cs_name <$> desired) →
  wf_state (run closed ops (State_new desired)).2.
Proof. intros. by apply run_wf, new_wf. Qed.

(** C18. Every registration is answered exactly once: the replies handed to
    [begin] in a run are, with multiplicity, those answered by the state,
    those returned to the Session loop to answer, those whose caller is gone,
    and those still held; and nothing is held once a Session ends with
    [finish_pending]. *)
Theorem replies_conserved closed ops desired e :
  NoDup (cs_id <$> desired) → NoDup (cs_name <$> desired) →
  let '(rs, s) := run closed ops (State_new desired) in
  (ops ≫= begun) ≡ₚ (rs ≫= answered) ++ (rs ≫= returned) ++ (rs ≫= dropped) ++ held s ∧
  Forall (fun t => closed t = true) (rs ≫= dropped) ∧
  (finish_pending e s).1.*1 ≡ₚ held s ∧ held (finish_pending e s).2 = [].
Proof.
  intros Hi Hn. pose proof (run_held closed ops _ (new_wf desired Hi Hn)) as H.
  destruct (run closed ops (State_new desired)) as [rs s]. destruct H as [H Hd].
  unfold held in H at 1. unfold txns in H at 1. simpl in H.
  rewrite values_empty in H. simpl in H. rewrite app_nil_r in H.
  split_and!; [done|done| |].
  - destruct (finish_pending e s) as [out s'] eqn:E. by apply finish_txns in E as (_ & ? & _).
  - destruct (finish_pending e s) as [out s'] eqn:E. apply finish_txns in E as (Ht & _).
    unfold held. simpl. by rewrite Ht.
Qed.

(** C32. Only a current acknowledgement commits: [take_ack] commits a service
    only for a transaction of this identifier begun in this Session
    generation whose caller is still waiting, and it commits it once: the
    same acknowledgement again does not. *)
Theorem ack_commits_current closed id g s service reply s' :
  wf_state s → take_ack closed id g s = (Commit service reply, s') →
  (∃ txn, txn ∈ txns s ∧ pr_service txn = service ∧ cs_id service = id ∧
     pr_generation txn = g ∧ pr_reply txn = reply ∧
     ∃ t, reply = Some t ∧ closed t = false) ∧
  ∀ service' reply' g', (take_ack closed id g' s').1 ≠ Commit service' reply'.
Proof.
  intros Hw Ha. unfold take_ack in Ha. destruct (take_transaction id s) as [t s1] eqn:Et.
  destruct t as [p| |]; [|by repeat case_match..].
  pose proof (take_transaction_wf _ _ _ _ Hw Et) as (Hw1 & Ht & Hs & Hid).
  destruct (pr_generation p =? g) eqn:Eg; [|done]. simpl in Ha.
  destruct (pr_reply p) as [r|] eqn:Er; [|done]. destruct (closed r) eqn:Ec; [done|].
  simplify_eq. bools. split.
  - exists p. split_and!; try done; [rewrite Ht; set_solver | eauto].
  - intros service' reply' g' H. unfold take_ack in H.
    destruct (take_transaction _ s') as [t' s2] eqn:Et'.
    destruct t' as [q| |]; [|by repeat case_match..].
    pose proof (take_transaction_wf _ _ _ _ Hw1 Et') as (_ & Hq & _ & Hidq).
    pose proof (wf_ids _ Hw) as Hnd. rewrite Hs in Hnd. simpl in Hnd.
    apply list.NoDup_cons in Hnd as [Hnd _]. apply Hnd. rewrite <-Hidq.
    apply list_elem_of_fmap_2. unfold services. apply elem_of_app. right.
    apply list_elem_of_fmap_2. rewrite Hq. set_solver.
Qed.

(** The timeout sweep makes progress: after [expire_overdue now] no
    transaction is overdue, so the next deadline the Session loop waits for
    lies after [now]; everything removed was overdue, and its reply is
    answered. *)
Theorem expire_progress now s :
  let '(_, out, s') := expire_overdue now s in
  (∀ d, next_deadline s' = Some d → now < d) ∧
  ∃ lost, txns s ≡ₚ lost ++ txns s' ∧ Forall (fun p => overdue now p = true) lost ∧
    out.*1 ≡ₚ omap pr_reply lost.
Proof.
  destruct (expire_overdue now s) as [[e out] s'] eqn:E.
  apply expire_txns in E as (lost & Ht & Ho & Hl & Hk & _). split; [|by exists lost].
  intros d Hd. unfold next_deadline in Hd. apply min_deadline_elem in Hd.
  assert (∃ p, p ∈ txns s' ∧ pr_deadline p = Some d) as (p & Hp & Hpd).
  { apply elem_of_app in Hd as [Hd|Hd]; unfold txns.
    - destruct (st_pending s') as [p|]; simpl in Hd; [|set_solver].
      destruct (pr_deadline p) as [d'|] eqn:E; simpl in Hd; [|set_solver].
      exists p. split; [set_solver|]. rewrite E. set_solver.
    - apply list_elem_of_omap in Hd as (p & ? & ?). exists p. set_solver. }
  rewrite list.Forall_forall in Hk. specialize (Hk p Hp). unfold overdue in Hk. rewrite Hpd in Hk.
  bools. lia.
Qed.

(** C40. Withdrawing a registration that is still unacknowledged leaves a
    tombstone in the legacy mode, where the late acknowledgement is then
    cleaned up, but not in the correlated mode, where the same late
    acknowledgement is [Unexpected], which ends the whole Session. *)
Theorem unregister_late_ack closed id g txn s :
  wf_state s → pr_generation txn = g →
  (st_mode s = LegacySerial → st_pending s = Some txn → cs_id (pr_service txn) = id →
     (take_ack closed id g (unregister id s).2).1 = Abandoned) ∧
  (∀ m, st_mode s = CorrelatedBounded m → st_in_flight s !! id = Some txn →
     st_abandoned s !! id = None →
     (take_ack closed id g (unregister id s).2).1 = Unexpected).
Proof.
  intros Hw Hg. split.
  - intros Hm Hp Hid. unfold unregister. rewrite Hp, decide_True by done. simpl.
    unfold take_ack, take_transaction. simpl.
    assert (st_in_flight s = ∅) as -> by (pose proof (wf_mode _ Hw) as H; by rewrite Hm in H).
    rewrite delete_empty, lookup_empty. simpl. rewrite lookup_insert_eq. simpl.
    by rewrite (proj2 (Z.eqb_eq _ _)).
  - intros m Hm Hf Hab. pose proof (wf_mode _ Hw) as H. rewrite Hm in H. destruct H as [Hp _].
    unfold unregister. rewrite Hp. simpl. unfold take_ack, take_transaction. simpl.
    rewrite Hp, lookup_delete_eq. simpl. by rewrite Hab.
Qed.

(** ** Concrete runs *)

Definition sample_service (n : Z) (name : string) : ClientService :=
  mkClientService (mkServiceId n) (mkServiceName (lit name)) (Loopback 0)
    (mkTcpTarget (lit "127.0.0.1") 80).

Definition web : ClientService := sample_service 1 "web".
Definition ssh : ClientService := sample_service 2 "ssh".

Definition all_open : Sender → bool := fun _ => false.

Lemma web_nodup : NoDup (cs_id <$> [web]) ∧ NoDup (cs_name <$> [web]).
Proof. split; apply NoDup_singleton. Qed.

Lemma service_state_invariant_witness :
  wf_state (run all_open [O_set_mode (CorrelatedBounded 4); O_begin ssh 1 7; O_ack (mkServiceId 2) 1]
              (State_new [web])).2.
Proof.
  apply (service_state_invariant all_open
    [O_set_mode (CorrelatedBounded 4); O_begin ssh 1 7; O_ack (mkServiceId 2) 1] [web]);
    apply web_nodup.
Defined.

Lemma replies_conserved_witness :
  let '(rs, s) := run all_open [O_begin ssh 1 7; O_abandon (mkServiceId 9)] (State_new [web]) in
  ([O_begin ssh 1 7; O_abandon (mkServiceId 9)] ≫= begun) ≡ₚ
     (rs ≫= answered) ++ (rs ≫= returned) ++ (rs ≫= dropped) ++ held s ∧
  Forall (fun t => all_open t = true) (rs ≫= dropped) ∧
  (finish_pending TE_Timeout s).1.*1 ≡ₚ held s ∧ held (finish_pending TE_Timeout s).2 = [].
Proof.
  apply (replies_conserved all_open [O_begin ssh 1 7; O_abandon (mkServiceId 9)] [web] TE_Timeout);
    apply web_nodup.
Defined.

Definition ssh_pending : ServiceState :=
  (run all_open [O_set_mode (CorrelatedBounded 4); O_begin ssh 1 7] (State_new [web])).2.

Lemma ssh_pending_wf : wf_state ssh_pending.
Proof. by apply run_wf, new_wf; apply web_nodup. Qed.

Lemma ack_commits_current_witness :
  (take_ack all_open (mkServiceId 2) 1 ssh_pending).1 = Commit ssh (Some 7%nat) ∧
  (∀ service' reply' g',
    (take_ack all_open (mkServiceId 2) g'
       (take_ack all_open (mkServiceId 2) 1 ssh_pending).2).1 ≠ Commit service' reply').
Proof.
  split; [vm_compute; reflexivity|].
  apply (ack_commits_current all_open (mkServiceId 2) 1 ssh_pending ssh (Some 7%nat)).
  - apply ssh_pending_wf.
  - vm_compute. reflexivity.
Defined.

Lemma unregister_late_ack_witness :
  (take_ack all_open (mkServiceId 2) 1 (unregister (mkServiceId 2) ssh_pending).2).1 = Unexpected.
Proof.
  apply (unregister_late_ack all_open (mkServiceId 2) 1 (mkPending ssh 1 (Some 7%nat) None) ssh_pending)
    with (m := 4).
  - apply ssh_pending_wf.
  - reflexivity.
  - vm_compute. reflexivity.
  - vm_compute. reflexivity.
  - vm_compute. reflexivity.
Defined.
