(* ===== verification/Session.v ===== *)
(** * Server Sessions and pending connections

    Models crates/eggtunnel/src/server/session.rs, pending.rs and the parts of
    service.rs that touch them.  The [Arc<SessionContext>]s alive are a heap
    of contexts by address; the registry maps a Session id to an address, and
    a [Weak] upgrades exactly while its address is in the heap.  Every
    definition is one critical section of the code (one lock, or one atomic
    update), so their interleavings are the interleavings of the tasks. *)

From S2P Require Import Prelude Text Proto Common.

Abbreviation Principal := (option (list byte)).
Abbreviation Address := nat.

(** [data_tx] is the sending half of the relay task's oneshot channel. *)
Record PendingEntry := mkPendingEntry
  { pe_service_id : ServiceId; pe_expires : Z; pe_data_tx : nat }.

Record SessionContext := mkSessionContext
  { sc_id : SessionId;
    sc_principal : Principal;
    sc_cancelled : bool;
    sc_pending : gmap ConnectionId PendingEntry;
    sc_permits : Z;
    sc_control_tx : bool }.

Definition set_sc_pending p (x : SessionContext) :=
  mkSessionContext (sc_id x) (sc_principal x) (sc_cancelled x) p (sc_permits x) (sc_control_tx x).
Definition set_sc_permits n (x : SessionContext) :=
  mkSessionContext (sc_id x) (sc_principal x) (sc_cancelled x) (sc_pending x) n (sc_control_tx x).
Definition set_sc_cancelled (x : SessionContext) :=
  mkSessionContext (sc_id x) (sc_principal x) true (sc_pending x) (sc_permits x) (sc_control_tx x).
Definition set_sc_control_tx b (x : SessionContext) :=
  mkSessionContext (sc_id x) (sc_principal x) (sc_cancelled x) (sc_pending x) (sc_permits x) b.

Record Server := mkServer
  { heap : gmap Address SessionContext;
    entries : gmap SessionId Address;
    counters : Counters }.

Definition set_heap h (s : Server) := mkServer h (entries s) (counters s).
Definition set_entries e (s : Server) := mkServer (heap s) e (counters s).
Definition on_counters (f : Counters → Counters) (s : Server) :=
  mkServer (heap s) (entries s) (f (counters s)).
Definition on_context (a : Address) (f : SessionContext → SessionContext) (s : Server) :=
  set_heap (alter f a (heap s)) s.

Definition new_session_registry (p : RuntimePolicy) : Server := mkServer ∅ ∅ (with_policy p).

(** [Weak::upgrade] and [strong_count() > 0]. *)
Definition upgrade (s : Server) (a : Address) : option SessionContext := heap s !! a.
Definition alive (s : Server) (a : Address) : bool := bool_decide (is_Some (heap s !! a)).

(** ** session.rs *)

(** [Arc::new(SessionContext { .. })]: a context is born unregistered. *)
Definition new_context (id : SessionId) (p : Principal) (c : Counters) : SessionContext :=
  mkSessionContext id p false ∅ (active_connections_per_session (limits (ctr_policy c))) false.

Definition allocate (a : Address) (x : SessionContext) (s : Server) : Server :=
  set_heap (<[a := x]> (heap s)) s.

Definition register (a : Address) (id : SessionId) (max_sessions : Z) (s : Server)
    : result TunnelError unit * Server :=
  let active := filter (fun kv => alive s kv.2 = true) (entries s) in
  if max_sessions <=? Z.of_nat (size active)
  then (Err TE_ResourceExhausted, set_entries active s)
  else (Ok tt, set_entries (<[id := a]> active) s).

Definition live (s : Server) : list SessionContext :=
  omap (upgrade s) (values (entries s)).

Definition SessionGuard_new (s : Server) : Server :=
  on_counters (raise n_sessions n_high_water_sessions) s.

Definition SessionGuard_drop (a : Address) (id : SessionId) (s : Server) : Server :=
  let s1 := on_context a set_sc_cancelled s in
  let s2 := on_counters (fetch_sub n_sessions 1) s1 in
  let binds := ctr_binds (counters s2) in
  let kept := filter (fun b => be_session b ≠ id) binds in
  let removed := len binds - len kept in
  let s3 := on_counters (fun c => fetch_sub n_services removed (with_bind_table_mut (fun _ => kept) c)) s2 in
  set_entries (delete id (entries s3)) s3.

(** The last [Arc] of a context goes: [Drop for SessionContext]. *)
Definition SessionContext_drop (a : Address) (s : Server) : Server :=
  match heap s !! a with
  | Some x =>
      set_heap (delete a (heap s))
        (on_counters (fetch_sub n_pending (Z.of_nat (size (sc_pending x)))) s)
  | None => s
  end.

Definition HandshakeGuard_new (c : Counters) : Counters := raise n_handshakes n_high_water_handshakes c.
Definition HandshakeGuard_drop (c : Counters) : Counters := fetch_sub n_handshakes 1 c.

Definition record_saturation (c : Counters) : Counters :=
  record_termination TC_ResourceExhausted (fetch_add n_rejected 1 c).

(** ** pending.rs *)

(** [entries.remove(&connection_id)] under the lock, with the counter. *)
Definition claim (a : Address) (connection : ConnectionId) (s : Server)
    : option PendingEntry * Server :=
  match heap s !! a ≫= fun x => sc_pending x !! connection with
  | Some e =>
      (Some e,
       on_counters (fetch_sub n_pending 1)
         (on_context a (fun x => set_sc_pending (delete connection (sc_pending x)) x) s))
  | None => (None, s)
  end.

(** [closed] says which relay tasks no longer wait.  The stream is delivered
    to the task returned with [Ok]. *)
Definition accept_data_hello (closed : nat → bool) (now : Z) (hello : DataHello)
    (principal : Principal) (s : Server) : result TunnelError nat * Server :=
  let refuse e s := (Err e, on_counters (fetch_add n_rejected 1) s) in
  match entries s !! dh_session_id hello ≫= fun a => (a,.) <$> upgrade s a with
  | None => refuse TE_Authentication s
  | Some (a, session) =>
      if negb (bool_decide (sc_principal session = principal)) then refuse TE_Authentication s
      else
        let '(pending, s1) := claim a (dh_connection_id hello) s in
        match pending with
        | None => refuse TE_Authorization s1
        | Some e =>
            if negb (bool_decide (pe_service_id e = dh_service_id hello)) || (pe_expires e <=? now)
            then refuse TE_Authorization s1
            else if closed (pe_data_tx e) then (Err TE_Cancelled, s1)
            else (Ok (pe_data_tx e), s1)
        end
  end.

Definition remove_service_pending (a : Address) (service : ServiceId) (s : Server) : Server :=
  match heap s !! a with
  | Some x =>
      let kept := filter (fun kv => pe_service_id kv.2 ≠ service) (sc_pending x) in
      let removed := Z.of_nat (size (sc_pending x)) - Z.of_nat (size kept) in
      on_counters (fetch_sub n_pending removed) (on_context a (set_sc_pending kept) s)
  | None => s
  end.

Definition remove_all_pending (a : Address) (s : Server) : Server :=
  match heap s !! a with
  | Some x =>
      on_counters (fetch_sub n_pending (Z.of_nat (size (sc_pending x))))
        (on_context a (set_sc_pending ∅) s)
  | None => s
  end.

(** ** service.rs: one accepted external connection *)

(** The verdicts of the accept arm of [run_service]. *)
Inductive Accepted :=
| NoPermit
| NoRandomness
| PendingFull
| Offered (connection : ConnectionId).

(** From the accepted socket to the pending entry.  [fill] is the outcome of
    [ConnectionId::generate], [tx] the relay's channel; a permit that is not
    kept is returned when it goes out of scope. *)
Definition accept_external (a : Address) (service : ServiceId) (fill : option (list byte))
    (now : Z) (tx : nat) (s : Server) : Accepted * Server :=
  match heap s !! a with
  | None => (NoPermit, s)
  | Some x =>
      if sc_permits x <=? 0 then (NoPermit, on_counters record_saturation s)
      else match ConnectionId_generate fill with
      | None => (NoRandomness, on_counters (fetch_add n_rejected 1) s)
      | Some connection =>
          let policy := ctr_policy (counters s) in
          if pending_per_session (limits policy) <=? Z.of_nat (size (sc_pending x))
          then (PendingFull, on_counters record_saturation s)
          else
            let entry := mkPendingEntry service (now + pending_connection (timeouts policy)) tx in
            (Offered connection,
             on_counters (raise n_pending n_high_water_pending)
               (on_context a (fun x => set_sc_permits (sc_permits x - 1)
                                         (set_sc_pending (<[connection := entry]> (sc_pending x)) x)) s))
      end
  end.

(** [opens.try_send(..).is_err()]: the entry and the permit go back. *)
Definition offer_failed (a : Address) (connection : ConnectionId) (s : Server) : Server :=
  let s1 := (claim a connection s).2 in
  on_counters (fetch_add n_rejected 1) (on_context a (fun x => set_sc_permits (sc_permits x + 1) x) s1).

Definition ActiveConnectionGuard_new (c : Counters) : Counters :=
  raise n_active_connections n_high_water_active_connections c.

(** [Drop for ActiveConnectionGuard]; the permit it owns goes back too. *)
Definition ActiveConnectionGuard_drop (a : Address) (s : Server) : Server :=
  on_context a (fun x => set_sc_permits (sc_permits x + 1) x)
    (on_counters (fetch_sub n_active_connections 1) s).

(** The relay task after its wait: [outcome] has the correlated stream, if
    any, and [moved] the bytes the relay reports, clean or not. *)
Definition relay_resolved (a : Address) (connection : ConnectionId) (outcome : option (Z * Z)) (s : Server)
    : Server :=
  let s1 := (claim a connection s).2 in
  match outcome with
  | Some (up, down) =>
      on_counters (fun c => fetch_add n_bytes_downstream down (fetch_add n_bytes_upstream up c)) s1
  | None => s1
  end.

(** [socket_to_effective]. *)
Definition socket_to_effective (addr : SocketAddr) : EffectiveBind :=
  match addr with
  | V4 ip port => mkEffectiveBind (to_ipv6_mapped ip) port
  | V6 ip port => mkEffectiveBind ip port
  end.

(** ** Interleavings

    One step is one critical section of one task.  A context is allocated
    with an empty table; a fresh [ConnectionId] is not one already pending in
    its Session (16 random bytes). *)

Inductive data_step : Server → Server → Prop :=
| S_hello s closed now hello p : data_step s (accept_data_hello closed now hello p s).2
| S_reject s a c : data_step s (claim a c s).2
| S_remove_service s a svc : data_step s (remove_service_pending a svc s)
| S_remove_all s a : data_step s (remove_all_pending a s)
| S_accept s a svc fill now tx :
    (∀ x bytes, heap s !! a = Some x → fill = Some bytes →
       sc_pending x !! mkConnectionId bytes = None) →
    data_step s (accept_external a svc fill now tx s).2
| S_offer_failed s a c : data_step s (offer_failed a c s)
| S_active_new s : data_step s (on_counters ActiveConnectionGuard_new s)
| S_active_drop s a : data_step s (ActiveConnectionGuard_drop a s)
| S_relay s a c outcome : data_step s (relay_resolved a c outcome s).

Inductive step : Server → Server → Prop :=
| S_data s s' : data_step s s' → step s s'
| S_allocate s a x : heap s !! a = None → sc_pending x = ∅ → step s (allocate a x s)
| S_register s a id mx : step s (register a id mx s).2
| S_guard_new s : step s (SessionGuard_new s)
| S_guard_drop s a id : step s (SessionGuard_drop a id s)
| S_handshake_new s : step s (on_counters HandshakeGuard_new s)
| S_handshake_drop s : step s (on_counters HandshakeGuard_drop s)
| S_context_drop s a : step s (SessionContext_drop a s).

(** ** Accounting of pending connections *)

Definition pending_total (s : Server) : Z :=
  foldr (fun x n => Z.of_nat (size (sc_pending x)) + n) 0 (values (heap s)).

Record pending_inv (limit : Z) (s : Server) : Prop :=
  { pi_counter : load n_pending (counters s) = wrap 64 (pending_total s);
    pi_limit : pending_per_session (limits (ctr_policy (counters s))) = limit;
    pi_bounded a x : heap s !! a = Some x → Z.of_nat (size (sc_pending x)) <= Z.max 0 limit }.

Abbreviation psize x := (Z.of_nat (size (sc_pending x))).

Lemma total_perm l k :
  l ≡ₚ k → foldr (fun x n => psize x + n) 0 l = foldr (fun x n => psize x + n) 0 k.
Proof. induction 1; simpl; lia. Qed.

Lemma total_delete s a x :
  heap s !! a = Some x → pending_total s = psize x + pending_total (set_heap (delete a (heap s)) s).
Proof. intros H. unfold pending_total. by rewrite (total_perm _ _ (values_delete _ _ _ H)). Qed.

Lemma total_insert s a x :
  heap s !! a = None → pending_total (allocate a x s) = psize x + pending_total s.
Proof. intros H. unfold pending_total, allocate. simpl. by rewrite (total_perm _ _ (values_insert _ _ _ H)). Qed.

Lemma total_context s a f x :
  heap s !! a = Some x →
  pending_total (on_context a f s) = pending_total s + psize (f x) - psize x.
Proof.
  intros H. rewrite (total_delete s a x H). unfold pending_total, on_context. simpl.
  rewrite (total_perm _ _ (values_alter_Some f _ _ _ H)). simpl. lia.
Qed.

Lemma total_same s a f :
  (∀ x, sc_pending (f x) = sc_pending x) → pending_total (on_context a f s) = pending_total s.
Proof.
  intros Hf. destruct (heap s !! a) as [x|] eqn:E.
  - rewrite (total_context _ _ _ _ E), Hf. lia.
  - unfold pending_total, on_context. simpl. by rewrite alter_id'.
Qed.

(** The invariant only reads the pending cell, the policy and the tables. *)
Lemma pending_inv_frame limit s f :
  pending_inv limit s →
  (∀ c, load n_pending (f c) = load n_pending c) → (∀ c, ctr_policy (f c) = ctr_policy c) →
  pending_inv limit (on_counters f s).
Proof.
  intros [Hc Hl Hb] Hp Hpol. split; simpl; [by rewrite Hp|by rewrite Hpol|done].
Qed.

Lemma pending_inv_entries limit s e : pending_inv limit s → pending_inv limit (set_entries e s).
Proof. by intros []; split. Qed.

Lemma pending_inv_context limit s a f :
  pending_inv limit s → (∀ x, sc_pending (f x) = sc_pending x) →
  pending_inv limit (on_context a f s).
Proof.
  intros [Hc Hl Hb] Hf. split; [by rewrite total_same|done|].
  intros b x. simpl. rewrite lookup_alter. case_decide; [|apply Hb].
  destruct (heap s !! b) as [y|] eqn:E; [|by subst; rewrite E]. subst. rewrite E.
  intros [= <-]. rewrite Hf. by eapply Hb.
Qed.

(** A table that loses entries, with the counter lowered by as many. *)
Lemma pending_inv_lose limit s a x kept :
  pending_inv limit s → heap s !! a = Some x → kept ⊆ sc_pending x →
  pending_inv limit
    (on_counters (fetch_sub n_pending (psize x - Z.of_nat (size kept)))
       (on_context a (set_sc_pending kept) s)).
Proof.
  intros [Hc Hl Hb] Hx Hsub. split.
  - cbn [counters on_counters on_context set_heap]. unfold fetch_sub.
    rewrite load_store_eq, Hc, wrap_sub. unfold pending_total at 2. cbn [heap on_counters].
    fold (pending_total (on_context a (set_sc_pending kept) s)).
    rewrite (total_context _ _ _ _ Hx). simpl. f_equal. lia.
  - done.
  - intros b y. simpl. rewrite lookup_alter. case_decide; [|apply Hb]. subst. rewrite Hx. intros [= <-].
    simpl. pose proof (map_subseteq_size _ _ Hsub). specialize (Hb _ _ Hx). lia.
Qed.

Lemma on_context_ext s a x f g :
  heap s !! a = Some x → f x = g x → on_context a f s = on_context a g s.
Proof.
  intros Hx Hfg. unfold on_context, set_heap. f_equal. apply map_eq. intros b.
  rewrite !lookup_alter. case_decide; [|done]. subst. rewrite Hx. simpl. by rewrite Hfg.
Qed.

Lemma claim_inv limit a c s : pending_inv limit s → pending_inv limit (claim a c s).2.
Proof.
  intros Hi. unfold claim. destruct (heap s !! a) as [x|] eqn:Hx; [|done]. simpl.
  destruct (sc_pending x !! c) as [e|] eqn:He; [|done]. simpl.
  pose proof (pending_inv_lose limit s a x (delete c (sc_pending x)) Hi Hx (delete_subseteq _ _)) as H.
  rewrite (on_context_ext s a x _ (set_sc_pending (delete c (sc_pending x))) Hx) by done.
  replace (psize x - _) with 1 in H; [done|].
  rewrite <-(insert_delete_id _ _ _ He) at 1. rewrite map_size_insert_None by apply lookup_delete_eq. lia.
Qed.

Lemma context_drop_inv limit s a : pending_inv limit s → pending_inv limit (SessionContext_drop a s).
Proof.
  intros Hi. unfold SessionContext_drop. destruct (heap s !! a) as [x|] eqn:Ha; [|done].
  destruct Hi as [Hc Hl Hb]. split; [|done|].
  - cbn [counters set_heap on_counters]. unfold fetch_sub.
    rewrite load_store_eq, Hc, wrap_sub, (total_delete _ _ _ Ha).
    unfold pending_total, on_counters, set_heap. simpl. f_equal. lia.
  - intros b y. simpl. rewrite lookup_delete. case_decide; [done|apply Hb].
Qed.

Lemma data_step_pending_inv limit s s' : pending_inv limit s → data_step s s' → pending_inv limit s'.
Proof.
  intros Hi Hs. destruct Hs as [s closed now hello p|s a c
    |s a svc|s a|s a svc fill now tx Hfresh|s a c|s|s a|s a c o].
  - unfold accept_data_hello. destruct (_ ≫= _) as [[a x]|]; [|by apply pending_inv_frame].
    destruct (negb _); [by apply pending_inv_frame|].
    pose proof (claim_inv limit a (dh_connection_id hello) s Hi) as Hcl.
    destruct (claim a _ s) as [[e|] s1]; [|by apply pending_inv_frame].
    destruct (_ || _); [by apply pending_inv_frame|]. by destruct (closed _).
  - by apply claim_inv.
  - unfold remove_service_pending. destruct (heap s !! a) as [x|] eqn:Ha; [|done].
    apply pending_inv_lose; [done..|]. apply map_filter_subseteq.
  - unfold remove_all_pending. destruct (heap s !! a) as [x|] eqn:Ha; [|done].
    pose proof (pending_inv_lose limit s a x ∅ Hi Ha (map_empty_subseteq _)) as H.
    by rewrite map_size_empty, Z.sub_0_r in H.
  - unfold accept_external. destruct (heap s !! a) as [x|] eqn:Ha; [|done].
    destruct (_ <=? 0); [by apply pending_inv_frame|].
    destruct fill as [bytes|]; simpl; [|by apply pending_inv_frame].
    specialize (Hfresh x bytes eq_refl eq_refl).
    destruct (_ <=? _) eqn:Hle; [by apply pending_inv_frame|]. bools.
    destruct Hi as [Hc Hl Hb]. simpl.
    set (f := fun y : SessionContext => _). set (entry := mkPendingEntry _ _ _) in f.
    assert (psize (f x) = psize x + 1) as Hsz.
    { unfold f. simpl. rewrite map_size_insert_None by done. lia. }
    split.
    + unfold raise, fetch_max, fetch_add. cbn [counters on_counters].
      rewrite load_store_ne, load_store_eq by done. cbn [counters on_context set_heap].
      rewrite Hc, wrap_add. unfold pending_total at 2. cbn [heap on_counters].
      fold (pending_total (on_context a f s)). rewrite (total_context _ _ _ _ Ha). f_equal. lia.
    + done.
    + intros b y. simpl. rewrite lookup_alter. case_decide; [|apply Hb]. subst b. rewrite Ha.
      intros [= <-]. rewrite Hsz, <-Hl. lia.
  - apply pending_inv_frame; try done. apply pending_inv_context; [|done]. by apply claim_inv.
  - by apply pending_inv_frame.
  - apply pending_inv_context; [|done]. by apply pending_inv_frame.
  - unfold relay_resolved. pose proof (claim_inv limit a c s Hi).
    destruct o as [[up down]|]; [by apply pending_inv_frame|done].
Qed.

Lemma step_pending_inv limit s s' : pending_inv limit s → step s s' → pending_inv limit s'.
Proof.
  intros Hi Hs. destruct Hs as [s s' Hd|s a x Ha Hx|s a id mx|s|s a id|s|s|s a].
  - by eapply data_step_pending_inv.
  - destruct Hi as [Hc Hl Hb]. split; [|done|].
    + rewrite total_insert, Hx, map_size_empty by done. exact Hc.
    + intros b y. simpl. rewrite lookup_insert. case_decide; [|apply Hb].
      intros [= <-]. rewrite Hx, map_size_empty. lia.
  - unfold register. case_match; by apply pending_inv_entries.
  - by apply pending_inv_frame.
  - apply pending_inv_entries. do 2 (apply pending_inv_frame; [|done..]).
    by apply pending_inv_context.
  - by apply pending_inv_frame.
  - by apply pending_inv_frame.
  - by apply context_drop_inv.
Qed.

(** ** The registry *)

Lemma register_ok a id mx s s' :
  register a id mx s = (Ok tt, s') →
  entries s' !! id = Some a ∧ (∀ i b, entries s' !! i = Some b → i = id ∨ alive s b = true).
Proof.
  unfold register. case_match; intros [= <-]. simpl. split; [apply lookup_insert_eq|].
  intros i b. rewrite lookup_insert. case_decide; [by left|].
  intros Hb. right. by apply map_lookup_filter_Some in Hb as [_ ?].
Qed.

(** ** Properties *)

(** C21. The pending gauge is exact under every interleaving: whatever order
    the tasks take their steps in, [counters.pending] is the number of
    pending entries over the live Sessions, every Session has at most
    [pending_per_session] of them, and once no Session is alive the gauge is
    back at zero. *)
Theorem pending_accounting p s :
  rtc step (new_session_registry p) s →
  load n_pending (counters s) = wrap 64 (pending_total s) ∧
  (∀ a x, heap s !! a = Some x →
     Z.of_nat (size (sc_pending x)) <= Z.max 0 (pending_per_session (limits p))) ∧
  (heap s = ∅ → load n_pending (counters s) = 0).
Proof.
  intros Hr. assert (pending_inv (pending_per_session (limits p)) s) as [Hc Hl Hb].
  { refine (rtc_ind_r (pending_inv _) _ _ _ _ Hr).
    - split; [done|done|]. intros a x. simpl. by rewrite lookup_empty.
    - intros. by eapply step_pending_inv. }
  split_and!; [done|done|]. intros He. rewrite Hc. unfold pending_total. by rewrite He, values_empty.
Qed.

Lemma accept_data_hello_ok closed now hello principal s tx s' :
  accept_data_hello closed now hello principal s = (Ok tx, s') →
  ∃ a x e, entries s !! dh_session_id hello = Some a ∧ heap s !! a = Some x ∧
    sc_principal x = principal ∧ sc_pending x !! dh_connection_id hello = Some e ∧
    pe_service_id e = dh_service_id hello ∧ now < pe_expires e ∧
    pe_data_tx e = tx ∧ closed tx = false ∧ s' = (claim a (dh_connection_id hello) s).2.
Proof.
  intros H. unfold accept_data_hello, upgrade in H.
  destruct (entries s !! dh_session_id hello) as [a|] eqn:Ha; [|done]. simpl in H.
  destruct (heap s !! a) as [x|] eqn:Hx; [|done]. simpl in H.
  destruct (bool_decide (sc_principal x = principal)) eqn:Hp; [|done]. bools. simpl in H.
  unfold claim in *. rewrite Hx in *. simpl in H.
  destruct (sc_pending x !! dh_connection_id hello) as [e|] eqn:He; simpl in H; [|done].
  destruct (bool_decide (pe_service_id e = dh_service_id hello)) eqn:Hs; [|done]. bools.
  destruct (pe_expires e <=? now) eqn:Hn; [done|]. bools. simpl in H.
  destruct (closed (pe_data_tx e)) eqn:Hcl; [done|]. injection H as <- <-.
  exists a, x, e. rewrite Hx. simpl. rewrite He. split_and!; done.
Qed.

(** C31. A [DataHello] is delivered only to its own connection and only once:
    success means that the Session is registered and alive, its Principal is
    the one the data connection presents, and the [ConnectionId] was pending
    for this very Service, unexpired, with the relay still waiting; the entry
    is gone afterwards, so any later [DataHello] for the same Session and
    connection is refused. *)
Theorem data_hello_single_use closed now hello principal s tx s' :
  accept_data_hello closed now hello principal s = (Ok tx, s') →
  (∃ a x e, entries s !! dh_session_id hello = Some a ∧ heap s !! a = Some x ∧
     sc_principal x = principal ∧ sc_pending x !! dh_connection_id hello = Some e ∧
     pe_service_id e = dh_service_id hello ∧ now < pe_expires e ∧
     pe_data_tx e = tx ∧ closed tx = false) ∧
  ∀ closed' now' hello' principal',
    dh_session_id hello' = dh_session_id hello →
    dh_connection_id hello' = dh_connection_id hello →
    is_ok (accept_data_hello closed' now' hello' principal' s').1 = false.
Proof.
  intros (a & x & e & Ha & Hx & Hp & He & Hs & Hn & Htx & Hcl & ->)%accept_data_hello_ok.
  split; [by exists a, x, e|].
  intros closed' now' hello' principal' Hsid Hcid. unfold accept_data_hello, upgrade, claim.
  rewrite Hsid, Hcid, Hx. simpl. rewrite He. simpl. rewrite Ha. simpl. rewrite lookup_alter_eq, Hx. simpl.
  destruct (negb _); [done|]. by rewrite lookup_alter_eq, Hx; simpl; rewrite lookup_delete_eq.
Qed.

Definition sample_connection : ConnectionId := mkConnectionId (replicate 16 Byte.x05).
Definition sample_session : SessionId := mkSessionId (replicate 16 Byte.x09).

(** One Session with one pending connection of service 3. *)
Definition sample_server : Server :=
  (accept_external 0 (mkServiceId 3) (Some (replicate 16 Byte.x05)) 100 42
     (register 0 sample_session 8
        (allocate 0 (new_context sample_session None (with_policy RuntimePolicy_default))
           (new_session_registry RuntimePolicy_default))).2).2.

Definition sample_hello : DataHello :=
  mkDataHello sample_session (mkServiceId 3) sample_connection.

Lemma data_hello_single_use_witness :
  is_ok (accept_data_hello (fun _ => false) 200 sample_hello None
           (accept_data_hello (fun _ => false) 200 sample_hello None sample_server).2).1 = false.
Proof.
  apply (data_hello_single_use (fun _ => false) 200 sample_hello None sample_server 42%nat
           (accept_data_hello (fun _ => false) 200 sample_hello None sample_server).2);
    vm_compute; reflexivity.
Defined.

Lemma pending_accounting_witness :
  load n_pending (counters sample_server) = wrap 64 (pending_total sample_server).
Proof.
  apply (pending_accounting RuntimePolicy_default sample_server).
  eapply rtc_l; [apply (S_allocate _ 0%nat
    (new_context sample_session None (with_policy RuntimePolicy_default))); reflexivity|].
  eapply rtc_l; [apply (S_register _ 0%nat sample_session 8)|].
  eapply rtc_l; [apply S_data, (S_accept _ 0%nat (mkServiceId 3) (Some (replicate 16 Byte.x05)) 100 42%nat)|].
  - intros x bytes Hx [= <-]. vm_compute in Hx. injection Hx as <-. vm_compute. reflexivity.
  - apply rtc_refl.
Defined.

(** Every refused [DataHello] is counted, with one exception: a stream
    that correlates but whose relay task has stopped waiting is dropped as
    [Cancelled] without being counted. *)
Theorem data_hello_refusals_counted closed now hello principal s e s' :
  accept_data_hello closed now hello principal s = (Err e, s') →
  (e = TE_Authentication ∨ e = TE_Authorization ∨ e = TE_Cancelled) ∧
  (e ≠ TE_Cancelled →
     load n_rejected (counters s') = wrap 64 (load n_rejected (counters s) + 1)) ∧
  (e = TE_Cancelled → load n_rejected (counters s') = load n_rejected (counters s)).
Proof.
  unfold accept_data_hello, claim. intros H.
  repeat case_match; simplify_eq; simpl; (split_and!; [by auto|done|done]).
Qed.

Lemma data_hello_refusals_counted_witness :
  load n_rejected (counters (accept_data_hello (fun _ => true) 200 sample_hello None sample_server).2)
  = load n_rejected (counters sample_server).
Proof.
  apply (data_hello_refusals_counted (fun _ => true) 200 sample_hello None sample_server TE_Cancelled);
    vm_compute; reflexivity.
Defined.
