(* ===== verification/Control.v ===== *)
(** * The server's control loop: crates/eggtunnel/src/server/control.rs

    [serve_control] in three parts: the handshake up to [AuthOk], one handler
    per arm of its [select!] loop, and the teardown.  What the operating
    system decides (a write's outcome, whether a listener binds, random bytes)
    is an argument of the definition that asks for it. *)

From S2P Require Import Prelude Text Proto Codec Varint Frame Common WireIo AuthLimiter Session.

Definition REGISTRATION_ERROR_DUPLICATE : Z := 1.
Definition REGISTRATION_ERROR_BIND : Z := 2.
Definition REGISTRATION_ERROR_LISTENER : Z := 3.
Definition REGISTRATION_ERROR_ADMISSION : Z := 5.

(** A child [CancellationToken] of the Session, by the order of creation. *)
Abbreviation Token := nat.
Record ServiceEntry := mkServiceEntry { se_name : ServiceName; se_cancel : Token }.

(** The local state of one control loop.  [ct_children] are the service tasks
    spawned and not yet joined, each with the token it watches; [ct_tokens]
    counts the tokens created and [ct_cancelled] are those cancelled;
    [ct_out] is what the loop has written. *)
Record Control := mkControl
  { ct_address : Address;
    ct_session : SessionId;
    ct_negotiated : Capabilities;
    ct_services : gmap ServiceId ServiceEntry;
    ct_names : gset rstr;
    ct_children : list (ServiceId * Token);
    ct_tokens : Token;
    ct_cancelled : gset Token;
    ct_out : list Message;
    ct_peer_drain : option Z;
    ct_idle_expired : bool }.

Definition set_ct_out o (k : Control) :=
  mkControl (ct_address k) (ct_session k) (ct_negotiated k) (ct_services k) (ct_names k) (ct_children k)
    (ct_tokens k) (ct_cancelled k) o (ct_peer_drain k) (ct_idle_expired k).
Definition set_ct_services v n (k : Control) :=
  mkControl (ct_address k) (ct_session k) (ct_negotiated k) v n (ct_children k)
    (ct_tokens k) (ct_cancelled k) (ct_out k) (ct_peer_drain k) (ct_idle_expired k).
Definition set_ct_children c (k : Control) :=
  mkControl (ct_address k) (ct_session k) (ct_negotiated k) (ct_services k) (ct_names k) c
    (ct_tokens k) (ct_cancelled k) (ct_out k) (ct_peer_drain k) (ct_idle_expired k).
Definition spawn_child (service_id : ServiceId) (k : Control) :=
  mkControl (ct_address k) (ct_session k) (ct_negotiated k) (ct_services k) (ct_names k) (ct_children k ++ [(service_id, ct_tokens k)])
    (S (ct_tokens k)) (ct_cancelled k) (ct_out k) (ct_peer_drain k) (ct_idle_expired k).
Definition cancel_tokens (ts : gset Token) (k : Control) :=
  mkControl (ct_address k) (ct_session k) (ct_negotiated k) (ct_services k) (ct_names k) (ct_children k)
    (ct_tokens k) (ts ∪ ct_cancelled k) (ct_out k) (ct_peer_drain k) (ct_idle_expired k).
Definition set_ct_peer_drain d (k : Control) :=
  mkControl (ct_address k) (ct_session k) (ct_negotiated k) (ct_services k) (ct_names k) (ct_children k)
    (ct_tokens k) (ct_cancelled k) (ct_out k) (Some d) (ct_idle_expired k).
Definition set_ct_idle (k : Control) :=
  mkControl (ct_address k) (ct_session k) (ct_negotiated k) (ct_services k) (ct_names k) (ct_children k)
    (ct_tokens k) (ct_cancelled k) (ct_out k) (ct_peer_drain k) true.

(** [write(..).await?] inside an arm. *)
Definition write_or_return (w : WriteOutcome) (m : Message) (k : Control) : Flow * Control :=
  let '(r, out) := write_bounded w (ct_out k) m in
  (match r with Ok _ => Continue | Err e => Return e end, set_ct_out out k).

(** ** Registration *)

Definition registration_rejected : result ProtocolError BoundedDiagnostic :=
  BoundedDiagnostic_new (lit "service registration rejected").

Definition write_registration_response (w : WriteOutcome) (service_id : ServiceId) (code : Z)
    (k : Control) : Flow * Control :=
  match registration_rejected with
  | Err e => (Return (TE_Protocol e), k)
  | Ok diagnostic =>
      if has (ct_negotiated k) CAPABILITY_REGISTER_REJECT
      then write_or_return w (M_RegisterReject (mkRegisterReject service_id code diagnostic)) k
      else write_or_return w (M_Error (mkErrorMessage code diagnostic)) k
  end.

(** [TcpListener::bind] and [local_addr]: [listen addr] is [None] when the
    bind fails, [Some None] when the bound address cannot be read. *)
Definition register_service (listen : SocketAddr → option (option SocketAddr)) (w : WriteOutcome)
    (bind_policy : BindPolicy) (r : RegisterService) (k : Control) (s : Server)
    : Flow * Control * Server :=
  let service_id := rs_service_id r in
  let max_services := Z.min (max_services_per_session bind_policy)
                            (services_per_session (limits (ctr_policy (counters s)))) in
  let refuse code f :=
    (write_registration_response w service_id code k, on_counters f s) in
  let rejected := fetch_add n_rejected 1 in
  if max_services <=? Z.of_nat (size (ct_services k))
  then refuse REGISTRATION_ERROR_ADMISSION record_saturation
  else if bool_decide (is_Some (ct_services k !! service_id))
          || bool_decide (sn_value (rs_name r) ∈ ct_names k)
  then refuse REGISTRATION_ERROR_DUPLICATE rejected
  else match bind_to_socket (rs_requested_bind r) bind_policy with
  | Err _ => refuse REGISTRATION_ERROR_BIND rejected
  | Ok bind_addr =>
      match listen bind_addr with
      | None => refuse REGISTRATION_ERROR_LISTENER rejected
      | Some None => refuse REGISTRATION_ERROR_LISTENER rejected
      | Some (Some addr) =>
          let effective := socket_to_effective addr in
          let s1 := on_counters (with_bind_table_mut
                      (fun binds => binds ++ [mkBindEntry (ct_session k) service_id effective])) s in
          let service_cancel := ct_tokens k in
          let k1 := spawn_child service_id k in
          let k2 := set_ct_services
                      (<[service_id := mkServiceEntry (rs_name r) service_cancel]> (ct_services k1))
                      ({[sn_value (rs_name r)]} ∪ ct_names k1) k1 in
          let s2 := on_counters (raise n_services n_high_water_services) s1 in
          (write_or_return w (M_RegisterAck (mkRegisterAck service_id effective)) k2, s2)
      end
  end.

Definition unregister_service (service_id : ServiceId) (k : Control) (s : Server) : Control * Server :=
  match ct_services k !! service_id with
  | Some entry =>
      let k1 := set_ct_services (delete service_id (ct_services k))
                  (ct_names k ∖ {[sn_value (se_name entry)]})
                  (cancel_tokens {[se_cancel entry]} k) in
      let s1 := on_counters (fun c => fetch_sub n_services 1
                  (with_bind_table_mut (filter (fun b => be_session b ≠ ct_session k ∨
                                                         be_service b ≠ service_id)) c)) s in
      (k1, remove_service_pending (ct_address k) service_id s1)
  | None => (k, s)
  end.

(** ** The arms of the loop *)

Definition on_incoming (listen : SocketAddr → option (option SocketAddr)) (w : WriteOutcome)
    (bind_policy : BindPolicy) (incoming : result TunnelError Message) (k : Control) (s : Server)
    : Flow * Control * Server :=
  match incoming with
  | Ok (M_RegisterService r) => register_service listen w bind_policy r k s
  | Ok (M_UnregisterService u) =>
      let '(k1, s1) := unregister_service (us_service_id u) k s in (Continue, k1, s1)
  | Ok (M_OpenReject r) => (Continue, k, (claim (ct_address k) (or_connection_id r) s).2)
  | Ok (M_Ping p) => (write_or_return w (M_Pong (mkPong (ping_nonce p))) k, s)
  | Ok (M_Drain d) => (Break, set_ct_peer_drain (drain_deadline_ms d) k, s)
  | Ok _ => (Return (TE_Protocol UnexpectedMessage), k, s)
  | Err e => (Return e, k, s)
  end.

(** [Some(message) = open_rx.recv()]. *)
Definition on_queued (w : WriteOutcome) (m : Message) (k : Control) : Flow * Control :=
  let '(f, k1) := write_or_return w m k in
  match f with
  | Continue => (match m with M_Drain _ => Break | _ => Continue end, k1)
  | _ => (f, k1)
  end.

Definition on_idle (k : Control) : Flow * Control := (Break, set_ct_idle k).

Definition on_joined (child : ServiceId * Token) (r : JoinResult) (k : Control) (s : Server)
    : Control * Server :=
  (set_ct_children (filter (fun c => c ≠ child) (ct_children k)) k,
   on_counters (record_join_result r) s).

(** ** Teardown *)

(** The wait granted to in-flight relays when the peer drains, if any. *)
Definition drain_wait (k : Control) (p : RuntimePolicy) : option Z :=
  if has (ct_negotiated k) CAPABILITY_DRAIN_DEADLINE then
    match ct_peer_drain k with
    | Some peer_ms =>
        let effective := Z.min (from_millis peer_ms) (shutdown_grace (timeouts p)) in
        if effective =? 0 then None else Some effective
    | None => None
    end
  else None.

(** After the loop: every service token is cancelled, every child joined,
    every pending entry removed, then the Session guard is dropped. *)
Definition teardown (k : Control) (s : Server) : result TunnelError unit * Control * Server :=
  let k1 := set_ct_children []
              (cancel_tokens (list_to_set (se_cancel <$> (map_to_list (ct_services k)).*2)) k) in
  let s1 := remove_all_pending (ct_address k) s in
  (if ct_idle_expired k then Err TE_Timeout else Ok tt, k1,
   SessionGuard_drop (ct_address k) (ct_session k) s1).

(** An early [return] only drops the guard (and the child tasks with it). *)
Definition early_return (e : TunnelError) (k : Control) (s : Server)
    : result TunnelError unit * Server :=
  (Err e, SessionGuard_drop (ct_address k) (ct_session k) s).

(** ** The handshake *)

(** [refused_at] is the time a refusal is recorded, after the blocklist was
    consulted. *)
Record HandshakeIo := mkHandshakeIo
  { hello_write : WriteOutcome;
    auth_read : poll (result TunnelError Message);
    refused_at : Z;
    refusal_write : WriteOutcome;
    random_id : option (list byte);
    server_cancelled : bool;
    auth_ok_write : WriteOutcome }.

Record Peer := mkPeer { peer_source : IpAddr; peer_principal : Principal }.

(** The outcome: the loop to run, or the error [serve_control] returns; with
    what was written, the limiter and the server afterwards. *)
Record Handshake := mkHandshake
  { hs_result : result TunnelError Control; hs_out : list Message;
    hs_limiter : AuthFailureLimiter; hs_server : Server }.

(** The handshake slot is given back once, on every path. *)
Definition release_slot (s : Server) : Server := on_counters HandshakeGuard_drop s.

Definition refuse_peer (io : HandshakeIo) (peer : Peer) (out : list Message)
    (lim : AuthFailureLimiter) (s : Server) : Handshake :=
  let '(r, out', lim', c') :=
    reject_authentication (refusal_write io) out (peer_source peer) (refused_at io) lim (counters s) in
  mkHandshake (match r with Ok _ => Err TE_Authentication | Err e => Err e end) out' lim'
    (release_slot (mkServer (heap s) (entries s) c')).

(** From a verified token to [AuthOk]; [a] is where the context is allocated. *)
Definition establish (io : HandshakeIo) (peer : Peer) (a : Address) (negotiated : Capabilities)
    (out : list Message) (lim : AuthFailureLimiter) (s : Server) : Handshake :=
  let s1 := release_slot s in
  match SessionId_generate (random_id io) with
  | None => mkHandshake (Err (TE_Configuration "operating system randomness unavailable")) out lim s1
  | Some session_id =>
      if server_cancelled io then mkHandshake (Err TE_Cancelled) out lim s1
      else
        let s2 := allocate a (new_context session_id (peer_principal peer) (counters s1)) s1 in
        match register a session_id (sessions_limit (limits (ctr_policy (counters s2)))) s2 with
        | (Err e, s3) =>
            mkHandshake (Err e) out lim (SessionContext_drop a (on_counters record_saturation s3))
        | (Ok _, s3) =>
            let s4 := SessionGuard_new s3 in
            let k := mkControl a session_id negotiated ∅ ∅ [] 0 ∅ [] None false in
            match write_bounded (auth_ok_write io) out (M_AuthOk (mkAuthOk session_id)) with
            | (Err e, out') =>
                mkHandshake (Err e) out' lim
                  (SessionContext_drop a (SessionGuard_drop a session_id s4))
            | (Ok _, out') =>
                mkHandshake (Ok (set_ct_out out' k)) out' lim
                  (on_context a (set_sc_control_tx true) s4)
            end
        end
  end.

Definition handshake (ct_eq : list byte → list byte → bool) (io : HandshakeIo) (peer : Peer)
    (token : SecretToken) (hello : ClientHello) (now : Z) (a : Address)
    (lim : AuthFailureLimiter) (s : Server) : Handshake :=
  if negb (pv_major (ch_version hello) =? pv_major CURRENT) then
    let h := refuse_peer io peer [] lim s in
    mkHandshake (Err (TE_Protocol (UnsupportedVersion (pv_major (ch_version hello))
                                     (pv_minor (ch_version hello)))))
      (hs_out h) (hs_limiter h) (hs_server h)
  else
    let negotiated := intersect supported (ch_capabilities hello) in
    match write_bounded (hello_write io) [] (M_ServerHello (mkServerHello CURRENT negotiated)) with
    | (Err e, out) => mkHandshake (Err e) out lim (release_slot s)
    | (Ok _, out) =>
        match read_bounded (auth_read io) with
        | Err e => mkHandshake (Err e) out lim (release_slot s)
        | Ok (M_Auth auth) =>
            let token_verified := verify_token ct_eq token (auth_token auth) in
            let '(blocked, lim1) := is_blocked_at lim (peer_source peer) now in
            if negb token_verified || blocked then refuse_peer io peer out lim1 s
            else establish io peer a negotiated out lim1 s
        | Ok _ => refuse_peer io peer out lim s
        end
    end.

(** ** All Sessions together

    The server and the control loops running on it, by Session id.  A step is
    one arm of one loop, the start or the end of a loop, or a step of a data
    task.  A new Session id (16 random bytes) is not one in use. *)

Record World := mkWorld { w_server : Server; w_controls : gmap SessionId Control }.

Section world.
Variable policy : BindPolicy.

(** One arm of one running loop, its end, a step of a data task, or the end of
    a context: a running loop holds one of the [Arc]s of its own. *)
Inductive arm_step : World → World → Prop :=
| W_incoming s ks listen w incoming sid k f k' s' :
    ks !! sid = Some k → on_incoming listen w policy incoming k s = (f, k', s') →
    arm_step (mkWorld s ks) (mkWorld s' (<[sid := k']> ks))
| W_queued s ks w m sid k :
    ks !! sid = Some k → arm_step (mkWorld s ks) (mkWorld s (<[sid := (on_queued w m k).2]> ks))
| W_idle s ks sid k :
    ks !! sid = Some k → arm_step (mkWorld s ks) (mkWorld s (<[sid := (on_idle k).2]> ks))
| W_joined s ks sid k i r k' s' :
    ks !! sid = Some k → on_joined i r k s = (k', s') →
    arm_step (mkWorld s ks) (mkWorld s' (<[sid := k']> ks))
| W_teardown s ks sid k :
    ks !! sid = Some k → arm_step (mkWorld s ks) (mkWorld (teardown k s).2 (delete sid ks))
| W_return s ks sid k e :
    ks !! sid = Some k → arm_step (mkWorld s ks) (mkWorld (early_return e k s).2 (delete sid ks))
| W_context_drop s ks a :
    (∀ sid k, ks !! sid = Some k → ct_address k ≠ a) →
    arm_step (mkWorld s ks) (mkWorld (SessionContext_drop a s) ks)
| W_data s ks s' : data_step s s' → arm_step (mkWorld s ks) (mkWorld s' ks).

Inductive world_step : World → World → Prop :=
| W_start s ks ct_eq io peer token hello now a lim k h :
    handshake ct_eq io peer token hello now a lim s = h → hs_result h = Ok k →
    ks !! ct_session k = None → heap s !! a = None →
    world_step (mkWorld s ks) (mkWorld (hs_server h) (<[ct_session k := k]> ks))
| W_refused s ks ct_eq io peer token hello now a lim e h :
    handshake ct_eq io peer token hello now a lim s = h → hs_result h = Err e →
    (∀ bytes, random_id io = Some bytes → ks !! mkSessionId bytes = None) → heap s !! a = None →
    world_step (mkWorld s ks) (mkWorld (hs_server h) ks)
| W_arm w w' : arm_step w w' → world_step w w'.
End world.

(** ** Accounting of services *)

(** A Session's services by identifier, and its entries in the bind table. *)
Definition service_ids (k : Control) : list ServiceId := (map_to_list (ct_services k)).*1.
Definition binds_of (sid : SessionId) (binds : list BindEntry) : list ServiceId :=
  be_service <$> filter (fun b => be_session b = sid) binds.

Record control_wf (k : Control) : Prop :=
  { cw_names n : n ∈ ct_names k ↔ ∃ id e, ct_services k !! id = Some e ∧ sn_value (se_name e) = n;
    cw_distinct id id' e e' :
      ct_services k !! id = Some e → ct_services k !! id' = Some e' →
      se_name e = se_name e' → id = id' }.

Record world_inv (p : RuntimePolicy) (max : Z) (w : World) : Prop :=
  { wi_policy : ctr_policy (counters (w_server w)) = p;
    wi_services : load n_services (counters (w_server w)) =
                  wrap 64 (len (ctr_binds (counters (w_server w))));
    wi_sessions : load n_sessions (counters (w_server w)) =
                  wrap 64 (Z.of_nat (size (w_controls w)));
    wi_owner b : b ∈ ctr_binds (counters (w_server w)) → is_Some (w_controls w !! be_session b);
    wi_control sid k : w_controls w !! sid = Some k →
      ct_session k = sid ∧ control_wf k ∧ Z.of_nat (size (ct_services k)) <= Z.max 0 max ∧
      binds_of sid (ctr_binds (counters (w_server w))) ≡ₚ service_ids k }.

(** The part of the server the invariant reads. *)
Definition same_view (s s' : Server) : Prop :=
  ctr_binds (counters s') = ctr_binds (counters s) ∧
  load n_services (counters s') = load n_services (counters s) ∧
  load n_sessions (counters s') = load n_sessions (counters s) ∧
  ctr_policy (counters s') = ctr_policy (counters s).

#[export] Instance same_view_refl : Reflexive same_view.
Proof. by intros s. Qed.
#[export] Instance same_view_trans : Transitive same_view.
Proof. intros x y z (? & ? & ? & ?) (? & ? & ? & ?). repeat split; congruence. Qed.

Lemma same_view_context s a f : same_view s (on_context a f s).
Proof. done. Qed.

Lemma claim_view a c s : same_view s (claim a c s).2.
Proof. unfold claim. by destruct (_ ≫= _). Qed.

Lemma data_step_view s s' : data_step s s' → same_view s s'.
Proof.
  destruct 1 as [s closed now hello p|s a c|s a svc|s a|s a svc fill now tx _|s a c|s|s a|s a c o];
    try done.
  - unfold accept_data_hello. destruct (_ ≫= _) as [[a x]|]; [|done]. destruct (negb _); [done|].
    pose proof (claim_view a (dh_connection_id hello) s) as Hv.
    destruct (claim a _ s) as [[e|] s1]; [|done]. destruct (_ || _); [done|]. by destruct (closed _).
  - apply claim_view.
  - unfold remove_service_pending. by case_match.
  - unfold remove_all_pending. by case_match.
  - unfold accept_external. destruct (heap s !! a); [|done]. destruct (_ <=? 0); [done|].
    destruct fill; [|done]. simpl. by destruct (_ <=? _).
  - unfold offer_failed. apply (claim_view a c s).
  - unfold relay_resolved. destruct o as [[up down]|]; apply (claim_view a c s).
Qed.

Lemma world_inv_view p max s s' ks :
  world_inv p max (mkWorld s ks) → same_view s s' → world_inv p max (mkWorld s' ks).
Proof.
  intros [Hpol H1 H2 H3 H4] (Hb & Hs & Hn & Hp). simpl in *.
  split; simpl; rewrite ?Hp, ?Hb, ?Hs, ?Hn; done.
Qed.

(** Replacing a loop's state by one with the same services. *)
Lemma world_inv_control p max s ks sid k k' :
  world_inv p max (mkWorld s ks) → ks !! sid = Some k →
  ct_session k' = ct_session k → ct_services k' = ct_services k → ct_names k' = ct_names k →
  world_inv p max (mkWorld s (<[sid := k']> ks)).
Proof.
  intros [Hpol H1 H2 H3 H4] Hk Hs Hv Hn. simpl in *. split; simpl; [done|done| | |].
  - by rewrite map_size_insert_Some by (rewrite Hk; eauto).
  - intros b Hb. rewrite lookup_insert. case_decide; [done|]. by apply H3.
  - intros sid' k0. rewrite lookup_insert. case_decide; [|apply H4]. intros [= <-]. subst sid'.
    destruct (H4 _ _ Hk) as (? & [Hw1 Hw2] & ? & ?). unfold service_ids. rewrite Hs, Hv.
    split_and!; try done. split; rewrite ?Hv, ?Hn; done.
Qed.

Lemma write_or_return_same w m k :
  let k' := (write_or_return w m k).2 in
  ct_session k' = ct_session k ∧ ct_services k' = ct_services k ∧ ct_names k' = ct_names k.
Proof. by destruct w. Qed.

Lemma response_same w id code k :
  let k' := (write_registration_response w id code k).2 in
  ct_session k' = ct_session k ∧ ct_services k' = ct_services k ∧ ct_names k' = ct_names k.
Proof.
  unfold write_registration_response. destruct registration_rejected; [|done].
  by destruct (has _ _); destruct w.
Qed.

(** *** Registration *)

Lemma binds_of_app sid l k : binds_of sid (l ++ k) = binds_of sid l ++ binds_of sid k.
Proof. unfold binds_of. by rewrite list.filter_app, fmap_app. Qed.

Lemma service_ids_insert (m : gmap ServiceId ServiceEntry) id e :
  m !! id = None → (map_to_list (<[id := e]> m)).*1 ≡ₚ id :: (map_to_list m).*1.
Proof. intros H. by rewrite map_to_list_insert. Qed.

Lemma service_ids_delete (m : gmap ServiceId ServiceEntry) id e :
  m !! id = Some e → (map_to_list m).*1 ≡ₚ id :: (map_to_list (delete id m)).*1.
Proof. intros H. by rewrite <-(map_to_list_delete m id e). Qed.

Lemma control_wf_insert k id name tok :
  control_wf k → ct_services k !! id = None → sn_value name ∉ ct_names k →
  control_wf (set_ct_services (<[id := mkServiceEntry name tok]> (ct_services k))
                ({[sn_value name]} ∪ ct_names k) k).
Proof.
  intros [Hn Hd] Hid Hname.
  assert (∀ i e, ct_services k !! i = Some e → se_name e ≠ name) as Hfresh.
  { intros i e Hi <-. apply Hname, Hn. eauto. }
  split; simpl.
  - intros n. rewrite elem_of_union, elem_of_singleton, Hn. split.
    + intros [-> |(i & e & Hi & <-)].
      * exists id, (mkServiceEntry name tok). by rewrite lookup_insert_eq.
      * exists i, e. rewrite lookup_insert_ne; [done|]. intros ->. congruence.
    + intros (i & e & Hi & <-). rewrite lookup_insert in Hi. case_decide; simplify_eq/=; eauto.
  - intros i j e e'. rewrite !lookup_insert.
    repeat case_decide; intros ?? Heq; simplify_eq/=; try done.
    + by destruct (Hfresh j e').
    + by destruct (Hfresh i e).
    + by eapply Hd.
Qed.

Lemma control_wf_delete k id e :
  control_wf k → ct_services k !! id = Some e →
  control_wf (set_ct_services (delete id (ct_services k)) (ct_names k ∖ {[sn_value (se_name e)]}) k).
Proof.
  intros [Hn Hd] Hid. split; simpl.
  - intros n. rewrite elem_of_difference, elem_of_singleton, Hn. split.
    + intros [(i & e' & Hi & <-) Hne]. exists i, e'. rewrite lookup_delete_ne; [done|].
      intros ->. congruence.
    + intros (i & e' & Hi & <-). apply lookup_delete_Some in Hi as [Hne Hi]. split; [eauto|].
      intros Heq. apply Hne. eapply Hd; [done..|]. destruct e as [[]], e' as [[]]; simpl in *. congruence.
  - intros i j e1 e2 Hi Hj. apply lookup_delete_Some in Hi as [_ Hi], Hj as [_ Hj]. by eapply Hd.
Qed.

(** A registered service: the bind table, the gauge and the loop's tables. *)
Lemma register_inv p max s ks sid k id name tok bind k' s' :
  world_inv p max (mkWorld s ks) → ks !! sid = Some k →
  ct_services k !! id = None → sn_value name ∉ ct_names k →
  Z.of_nat (size (ct_services k)) < max →
  ct_session k' = ct_session k →
  ct_services k' = <[id := mkServiceEntry name tok]> (ct_services k) →
  ct_names k' = {[sn_value name]} ∪ ct_names k →
  ctr_binds (counters s') = ctr_binds (counters s) ++ [mkBindEntry (ct_session k) id bind] →
  load n_services (counters s') = wrap 64 (load n_services (counters s) + 1) →
  load n_sessions (counters s') = load n_sessions (counters s) →
  ctr_policy (counters s') = ctr_policy (counters s) →
  world_inv p max (mkWorld s' (<[sid := k']> ks)).
Proof.
  intros [Hpol H1 H2 H3 H4] Hk Hid Hname Hmax Hses Hserv Hnames Hb Hs Hn Hp. simpl in *.
  destruct (H4 _ _ Hk) as (Hsid & Hw & Hsz & Hbi). split; simpl; [congruence|..].
  - rewrite Hs, H1, wrap_add, Hb, len_app. done.
  - rewrite Hn, H2. by rewrite map_size_insert_Some by (rewrite Hk; eauto).
  - intros b. rewrite Hb, elem_of_app, list_elem_of_singleton. intros [Hold| ->].
    + rewrite lookup_insert. case_decide; [done|]. by apply H3.
    + simpl. rewrite Hsid, lookup_insert_eq. done.
  - intros sid' k0. rewrite lookup_insert, Hb, binds_of_app. case_decide.
    + intros [= <-]. subst sid'. unfold service_ids. rewrite Hses, Hserv. split_and!; [done| | |].
      * pose proof (control_wf_insert k id name tok Hw Hid Hname) as [Ha Hc].
        split; rewrite ?Hserv, ?Hnames; [apply Ha|apply Hc].
      * rewrite map_size_insert_None by done. lia.
      * rewrite service_ids_insert by done. unfold binds_of at 2. simpl.
        rewrite filter_cons_True by done. simpl. rewrite Hbi. unfold service_ids.
        by rewrite Permutation_app_comm.
    + intros Hk0. destruct (H4 _ _ Hk0) as (? & ? & ? & ?). split_and!; try done.
      unfold binds_of at 2. rewrite filter_cons_False by (simpl; congruence). simpl.
      by rewrite app_nil_r.
Qed.

(** *** Removal *)

Lemma binds_of_other sid' (P : BindEntry → Prop) `{∀ b, Decision (P b)} l :
  (∀ b, be_session b = sid' → P b) → binds_of sid' (filter P l) = binds_of sid' l.
Proof.
  intros HP. unfold binds_of. f_equal. rewrite list_filter_filter.
  apply list_filter_iff. intros b. naive_solver.
Qed.

Lemma length_filter_split {A} (P : A → Prop) `{∀ x, Decision (P x)} l :
  len l = len (filter P l) + len (filter (fun x => ¬ P x) l).
Proof.
  unfold len. rewrite <-(filter_app_complement P l) at 1. rewrite length_app. lia.
Qed.

Lemma binds_of_keep sid id l :
  binds_of sid (filter (fun b => be_session b ≠ sid ∨ be_service b ≠ id) l) =
  filter (fun i => i ≠ id) (binds_of sid l).
Proof.
  unfold binds_of. induction l as [|b l IH]; [done|]. rewrite !filter_cons.
  repeat (case_decide; simpl; rewrite ?filter_cons); try (f_equal; exact IH); try exact IH;
    exfalso; intuition congruence.
Qed.

Lemma binds_of_lost sid id l :
  length (filter (fun b => ¬ (be_session b ≠ sid ∨ be_service b ≠ id)) l) =
  length (filter (fun i => i = id) (binds_of sid l)).
Proof.
  unfold binds_of. induction l as [|b l IH]; [done|]. rewrite !filter_cons.
  repeat (case_decide; simpl; rewrite ?filter_cons); try (f_equal; exact IH); try exact IH;
    exfalso; intuition congruence.
Qed.

Lemma one_bind sid id l ids :
  binds_of sid l ≡ₚ id :: ids → id ∉ ids →
  len (filter (fun b => ¬ (be_session b ≠ sid ∨ be_service b ≠ id)) l) = 1 ∧
  binds_of sid (filter (fun b => be_session b ≠ sid ∨ be_service b ≠ id) l) ≡ₚ ids.
Proof.
  intros Hp Hni. rewrite binds_of_keep. unfold len. rewrite binds_of_lost, !Hp.
  rewrite filter_cons_True, filter_cons_False by naive_solver.
  rewrite filter_none, filter_all; [done|..]; apply list.Forall_forall; naive_solver.
Qed.

Lemma unregister_inv p max s ks sid k id k' s' :
  world_inv p max (mkWorld s ks) → ks !! sid = Some k →
  unregister_service id k s = (k', s') → world_inv p max (mkWorld s' (<[sid := k']> ks)).
Proof.
  intros Hi Hk. unfold unregister_service.
  destruct (ct_services k !! id) as [e|] eqn:He; intros [= <- <-]; [|by eapply world_inv_control].
  set (s1 := on_counters _ s). eapply world_inv_view;
    [|apply data_step_view, S_remove_service].
  destruct Hi as [Hpol H1 H2 H3 H4]. simpl in *. destruct (H4 _ _ Hk) as (<- & Hw & Hsz & Hb).
  unfold service_ids in Hb. rewrite (service_ids_delete _ _ _ He) in Hb.
  assert (id ∉ (map_to_list (delete id (ct_services k))).*1) as Hni.
  { intros ([i x] & ? & Hin)%list_elem_of_fmap. simplify_eq/=.
    apply elem_of_map_to_list in Hin. by rewrite lookup_delete_eq in Hin. }
  destruct (one_bind _ id _ _ Hb Hni) as [Hone Hrest].
  set (P := fun b => be_session b ≠ ct_session k ∨ be_service b ≠ id).
  assert (ctr_binds (counters s1) = filter P (ctr_binds (counters s))) as Hb1 by done.
  assert (load n_services (counters s1) = wrap 64 (load n_services (counters s) - 1)) as Hs1 by done.
  assert (load n_sessions (counters s1) = load n_sessions (counters s)) as Hn1 by done.
  assert (ctr_policy (counters s1) = ctr_policy (counters s)) as Hp1 by done.
  clearbody s1. split; simpl; [congruence|..].
  - rewrite Hb1, Hs1, H1, wrap_sub. f_equal.
    rewrite (length_filter_split P). unfold P in *. lia.
  - rewrite map_size_insert_Some by (rewrite Hk; eauto). by rewrite Hn1.
  - intros b Hin. rewrite Hb1 in Hin. apply list_elem_of_filter in Hin as [_ Hin].
    rewrite lookup_insert. case_decide; [done|]. by apply H3.
  - intros sid' k0. rewrite lookup_insert, Hb1. case_decide.
    + intros [= <-]. subst sid'. split_and!; [done|by destruct (control_wf_delete k id e Hw He); split| |done].
      simpl. rewrite map_size_delete_Some by (rewrite He; eauto). lia.
    + intros Hk0. destruct (H4 _ _ Hk0) as (? & ? & ? & ?). split_and!; try done.
      rewrite (binds_of_other sid' P); [done|]. intros b Hbs. left. congruence.
Qed.

(** *** The end of a Session *)

Lemma guard_drop_inv p max s ks sid k a :
  world_inv p max (mkWorld s ks) → ks !! sid = Some k →
  world_inv p max (mkWorld (SessionGuard_drop a (ct_session k) s) (delete sid ks)).
Proof.
  intros [Hpol H1 H2 H3 H4] Hk. simpl in *. destruct (H4 _ _ Hk) as (Hsid & _). rewrite Hsid.
  set (s' := SessionGuard_drop a sid s).
  set (P := fun b => be_session b ≠ sid).
  assert (ctr_binds (counters s') = filter P (ctr_binds (counters s))) as Hb by done.
  assert (load n_services (counters s') =
    wrap 64 (load n_services (counters s) - (len (ctr_binds (counters s)) - len (filter P (ctr_binds (counters s))))))
    as Hs by done.
  assert (load n_sessions (counters s') = wrap 64 (load n_sessions (counters s) - 1)) as Hn by done.
  assert (ctr_policy (counters s') = ctr_policy (counters s)) as Hp by done.
  clearbody s'. split; simpl; [congruence|..].
  - rewrite Hb, Hs, H1, wrap_sub. f_equal. lia.
  - rewrite Hn, H2, wrap_sub. f_equal.
    rewrite map_size_delete_Some by (rewrite Hk; eauto).
    assert (size ks ≠ 0%nat) by (apply map_size_non_empty_iff; intros ->; by rewrite lookup_empty in Hk).
    lia.
  - intros b Hin. rewrite Hb in Hin. apply list_elem_of_filter in Hin as [Hne Hin].
    rewrite lookup_delete_ne by done. by apply H3.
  - intros sid' k0 [Hne Hk0]%lookup_delete_Some. rewrite Hb.
    destruct (H4 _ _ Hk0) as (? & ? & ? & ?). split_and!; try done.
    rewrite (binds_of_other sid' P); [done|]. intros b Hbs. unfold P. congruence.
Qed.

(** *** The handshake *)

Lemma refuse_peer_view io peer out lim s : same_view s (hs_server (refuse_peer io peer out lim s)).
Proof. unfold refuse_peer, reject_authentication. by destruct authentication_failed. Qed.

Lemma register_view a id mx s : same_view s (register a id mx s).2.
Proof. unfold register. by case_match. Qed.

Lemma context_drop_view a s : same_view s (SessionContext_drop a s).
Proof. unfold SessionContext_drop. by case_match. Qed.

(** A Session that is counted in and out again before it has services. *)
Lemma guard_roundtrip_inv p max s s1 ks a sid :
  world_inv p max (mkWorld s ks) → same_view s s1 → ks !! sid = None →
  world_inv p max (mkWorld (SessionGuard_drop a sid (SessionGuard_new s1)) ks).
Proof.
  intros Hi Hv Hk. pose proof (world_inv_view _ _ _ _ _ Hi Hv) as [Hpol H1 H2 H3 H4]. simpl in *.
  set (s' := SessionGuard_drop a sid (SessionGuard_new s1)).
  assert (filter (fun b => be_session b ≠ sid) (ctr_binds (counters s1)) = ctr_binds (counters s1)) as Hf.
  { apply filter_all, list.Forall_forall. intros b [k Hb]%H3. congruence. }
  assert (ctr_binds (counters s') = ctr_binds (counters s1)) as Hb.
  { etransitivity; [|exact Hf]. done. }
  assert (load n_services (counters s') = load n_services (counters s1)) as Hs.
  { transitivity (wrap 64 (load n_services (counters s1) - (len (ctr_binds (counters s1)) -
      len (filter (fun b => be_session b ≠ sid) (ctr_binds (counters s1)))))); [done|].
    rewrite Hf, H1, wrap_sub. f_equal. lia. }
  assert (load n_sessions (counters s') = load n_sessions (counters s1)) as Hn.
  { transitivity (wrap 64 (wrap 64 (load n_sessions (counters s1) + 1) - 1)); [done|].
    rewrite H2, wrap_add, wrap_sub. f_equal. lia. }
  assert (ctr_policy (counters s') = ctr_policy (counters s1)) as Hp by done.
  clearbody s'. split; simpl; rewrite ?Hp, ?Hb, ?Hs, ?Hn; done.
Qed.

Lemma start_inv p max s s' ks k :
  world_inv p max (mkWorld s ks) → ks !! ct_session k = None →
  ct_services k = ∅ → ct_names k = ∅ →
  ctr_binds (counters s') = ctr_binds (counters s) →
  load n_services (counters s') = load n_services (counters s) →
  load n_sessions (counters s') = wrap 64 (load n_sessions (counters s) + 1) →
  ctr_policy (counters s') = ctr_policy (counters s) →
  world_inv p max (mkWorld s' (<[ct_session k := k]> ks)).
Proof.
  intros [Hpol H1 H2 H3 H4] Hk Hserv Hnames Hb Hs Hn Hp. simpl in *. split; simpl; [congruence|..].
  - by rewrite Hb, Hs.
  - rewrite Hn, H2, wrap_add, map_size_insert_None by done. f_equal. lia.
  - intros b. rewrite Hb. intros Hin. rewrite lookup_insert. case_decide; [done|]. by apply H3.
  - intros sid k0. rewrite lookup_insert, Hb. case_decide; [|apply H4]. intros [= <-]. subst sid.
    split; [done|]. split; [|split].
    + split; rewrite ?Hserv, ?Hnames.
      * intros n. split; [set_solver|]. intros (i & e & Hl & _). by rewrite lookup_empty in Hl.
      * intros i j e e' Hl. by rewrite lookup_empty in Hl.
    + rewrite Hserv, map_size_empty. lia.
    + unfold service_ids, binds_of. rewrite Hserv, map_to_list_empty. simpl.
      rewrite filter_none; [done|]. apply list.Forall_forall. intros b [k' Hb']%H3. congruence.
Qed.

(** What an accepted handshake leaves behind. *)
Lemma establish_cases p max io peer a negotiated out lim s ks :
  world_inv p max (mkWorld s ks) → heap s !! a = None →
  let h := establish io peer a negotiated out lim s in
  match hs_result h with
  | Ok k => ks !! ct_session k = None → world_inv p max (mkWorld (hs_server h) (<[ct_session k := k]> ks))
  | Err _ => (∀ bytes, random_id io = Some bytes → ks !! mkSessionId bytes = None) →
      world_inv p max (mkWorld (hs_server h) ks)
  end.
Proof.
  intros Hi Ha h. unfold h, establish.
  assert (same_view s (release_slot s)) as Hv0 by done.
  destruct (random_id io) as [bytes|] eqn:Er; simpl; [|intros _; by eapply world_inv_view].
  destruct (server_cancelled io); [intros _; by eapply world_inv_view|].
  set (s2 := allocate a _ (release_slot s)). assert (same_view s s2) as Hv2 by done.
  pose proof (register_view a (mkSessionId bytes) (sessions_limit (limits (ctr_policy (counters s2)))) s2) as Hr.
  destruct (register a _ _ s2) as [[[]|e] s3]; simpl in Hr.
  - assert (same_view s s3) as Hv3 by (by etransitivity).
    destruct (auth_ok_write io); simpl.
    + intros Hk. destruct Hv3 as (? & ? & Hn & ?).
      apply (start_inv p max s _ _ (mkControl a (mkSessionId bytes) negotiated ∅ ∅ [] 0 ∅ (out ++ [M_AuthOk (mkAuthOk (mkSessionId bytes))]) None false)); try done.
      transitivity (wrap 64 (load n_sessions (counters s3) + 1)); [done|by rewrite Hn].
    + intros Hf. eapply world_inv_view; [|apply context_drop_view].
      apply (guard_roundtrip_inv p max s s3); [done..|]. by apply Hf.
    + intros Hf. eapply world_inv_view; [|apply context_drop_view].
      apply (guard_roundtrip_inv p max s s3); [done..|]. by apply Hf.
  - simpl. intros _. eapply world_inv_view; [exact Hi|].
    etransitivity; [|apply context_drop_view]. by etransitivity.
Qed.

Lemma handshake_cases p max ct_eq io peer token hello now a lim s ks :
  world_inv p max (mkWorld s ks) → heap s !! a = None →
  let h := handshake ct_eq io peer token hello now a lim s in
  match hs_result h with
  | Ok k => ks !! ct_session k = None → world_inv p max (mkWorld (hs_server h) (<[ct_session k := k]> ks))
  | Err _ => (∀ bytes, random_id io = Some bytes → ks !! mkSessionId bytes = None) →
      world_inv p max (mkWorld (hs_server h) ks)
  end.
Proof.
  intros Hi Ha h. unfold h, handshake.
  assert (∀ out lim, let r := refuse_peer io peer out lim s in
    (∃ e, hs_result r = Err e) ∧ world_inv p max (mkWorld (hs_server r) ks)) as Href.
  { intros out' lim'. split.
    - unfold refuse_peer, reject_authentication. destruct authentication_failed; simpl; eauto.
    - eapply world_inv_view; [exact Hi|apply refuse_peer_view]. }
  destruct (negb _); [intros _; apply Href|].
  destruct (write_bounded _ _ _) as [[[]|e] out]; [|intros _; by eapply world_inv_view].
  destruct (read_bounded _) as [m|e]; [|intros _; by eapply world_inv_view].
  assert (∀ out lim, match hs_result (refuse_peer io peer out lim s) with
    | Ok k => ks !! ct_session k = None →
        world_inv p max (mkWorld (hs_server (refuse_peer io peer out lim s)) (<[ct_session k := k]> ks))
    | Err _ => (∀ bytes, random_id io = Some bytes → ks !! mkSessionId bytes = None) →
        world_inv p max (mkWorld (hs_server (refuse_peer io peer out lim s)) ks)
    end) as Href'.
  { intros out' lim'. destruct (Href out' lim') as [[e He] Hw]. by rewrite He. }
  destruct m; lazymatch goal with |- context [is_blocked_at] => idtac | _ => apply Href' end.
  destruct (is_blocked_at _ _ _) as [blocked lim1]. destruct (_ || _); [apply Href'|].
  by apply establish_cases.
Qed.

(** *** Every step *)

(** The registration bound of the policy in force. *)
Definition service_bound (policy : BindPolicy) (p : RuntimePolicy) : Z :=
  Z.min (max_services_per_session policy) (services_per_session (limits p)).

Lemma register_service_inv policy p listen w r k s ks sid f k' s' :
  world_inv p (service_bound policy p) (mkWorld s ks) →
  ks !! sid = Some k → register_service listen w policy r k s = (f, k', s') →
  world_inv p (service_bound policy p) (mkWorld s' (<[sid := k']> ks)).
Proof.
  intros Hi Hk. pose proof (wi_policy _ _ _ Hi) as Hp. simpl in Hp. unfold register_service. rewrite Hp. fold (service_bound policy p).
  assert (∀ code g, same_view s (on_counters g s) →
    (write_registration_response w (rs_service_id r) code k, on_counters g s) = (f, k', s') →
    world_inv p (service_bound policy p) (mkWorld s' (<[sid := k']> ks))) as Href.
  { intros code g Hv Heq. pose proof (response_same w (rs_service_id r) code k) as (Ha & Hb & Hc).
    destruct (write_registration_response _ _ _ _) as [f0 k0]. simplify_eq/=.
    eapply world_inv_control; [|done..]. by eapply world_inv_view. }
  destruct (_ <=? _) eqn:Hsz; [by apply Href|]. apply Z.leb_gt in Hsz.
  destruct (_ || _) eqn:Hd; [by apply Href|].
  apply orb_false_iff in Hd as [Hid%bool_decide_eq_false Hname%bool_decide_eq_false].
  apply eq_None_not_Some in Hid.
  destruct (bind_to_socket _ _) as [addr|]; [|by apply Href].
  destruct (listen addr) as [[bound|]|]; [|by apply Href..].
  match goal with |- (write_or_return w ?m ?k2, _) = _ → _ =>
    pose proof (write_or_return_same w m k2) as (Ha & Hb & Hc);
    destruct (write_or_return w m k2) as [f0 k0] end.
  intros [= <- <- <-].
  apply (register_inv _ _ s ks sid k (rs_service_id r) (rs_name r) (ct_tokens k) (socket_to_effective bound));
    try done; by apply raise_gauge.
Qed.

Lemma on_incoming_inv policy p listen w incoming k s ks sid f k' s' :
  world_inv p (service_bound policy p) (mkWorld s ks) →
  ks !! sid = Some k → on_incoming listen w policy incoming k s = (f, k', s') →
  world_inv p (service_bound policy p) (mkWorld s' (<[sid := k']> ks)).
Proof.
  intros Hi Hk. unfold on_incoming.
  assert (world_inv p (service_bound policy p) (mkWorld s (<[sid := k]> ks))) as Hsame
    by by eapply world_inv_control.
  destruct incoming as [m|e]; [|by intros [= _ <- <-]].
  destruct m; try by intros [= _ <- <-].
  - intros. by eapply register_service_inv.
  - destruct (unregister_service _ k s) as [k1 s1] eqn:Hu. intros [= _ <- <-].
    by eapply unregister_inv.
  - intros [= _ <- <-]. eapply world_inv_view; [exact Hsame|apply claim_view].
  - destruct (write_or_return _ _ k) as [f0 k0] eqn:Hw. intros [= _ <- <-].
    pose proof (write_or_return_same w (M_Pong (mkPong (ping_nonce v))) k) as (Ha & Hb & Hc).
    rewrite Hw in *. by eapply world_inv_control.
  - intros [= _ <- <-]. by eapply world_inv_control.
Qed.

Lemma arm_step_inv policy p w w' :
  arm_step policy w w' → world_inv p (service_bound policy p) w →
  world_inv p (service_bound policy p) w'.
Proof.
  destruct 1 as [s ks listen w0 incoming sid k f k' s' Hk Hs
    |s ks w0 m sid k Hk|s ks sid k Hk|s ks sid k i r k' s' Hk Hs|s ks sid k Hk|s ks sid k e Hk|s ks a Ha|s ks s' Hd];
    intros Hi.
  - by eapply on_incoming_inv.
  - pose proof (write_or_return_same w0 m k) as (? & ? & ?). unfold on_queued.
    destruct (write_or_return w0 m k) as [[] k1]; by eapply world_inv_control.
  - by eapply world_inv_control.
  - injection Hs as <- <-. eapply world_inv_view; [by eapply world_inv_control|]. by destruct r.
  - unfold teardown. simpl. eapply guard_drop_inv; [|done]. eapply world_inv_view; [done|].
    apply data_step_view, S_remove_all.
  - by eapply guard_drop_inv.
  - eapply world_inv_view; [done|]. apply context_drop_view.
  - eapply world_inv_view; [done|]. by apply data_step_view.
Qed.

Lemma world_step_inv policy p w w' :
  world_step policy w w' → world_inv p (service_bound policy p) w →
  world_inv p (service_bound policy p) w'.
Proof.
  destruct 1 as [s ks ct_eq io peer token hello now a lim k h Hh Hr Hk Ha
    |s ks ct_eq io peer token hello now a lim e h Hh Hr Hf Ha|w w' Hs]; intros Hi;
    [..|by eapply arm_step_inv];
    pose proof (handshake_cases _ _ ct_eq io peer token hello now a lim s ks Hi Ha) as Hc;
    simpl in Hc; rewrite Hh, Hr in Hc; by apply Hc.
Qed.

(** ** Listeners *)

(** Every listener task still running is that of a registered service or has
    been told to stop, and no registered service's task has been. *)
Record listeners_wf (k : Control) : Prop :=
  { lw_children id tok : (id, tok) ∈ ct_children k →
      tok ∈ ct_cancelled k ∨ (∃ e, ct_services k !! id = Some e ∧ se_cancel e = tok);
    lw_live id e : ct_services k !! id = Some e →
      (se_cancel e ∉ ct_cancelled k) ∧ (se_cancel e < ct_tokens k)%nat;
    lw_unique id id' e e' : ct_services k !! id = Some e → ct_services k !! id' = Some e' →
      se_cancel e = se_cancel e' → id = id';
    lw_fresh tok : tok ∈ ct_cancelled k → (tok < ct_tokens k)%nat }.

(** Writing, and what else leaves the tables alone. *)
Definition same_listeners (k k' : Control) : Prop :=
  ct_services k' = ct_services k ∧ ct_children k' = ct_children k ∧
  ct_tokens k' = ct_tokens k ∧ ct_cancelled k' = ct_cancelled k.

Lemma same_listeners_wf k k' : same_listeners k k' → listeners_wf k → listeners_wf k'.
Proof. intros (H1 & H2 & H3 & H4) [? ? ? ?]. split; rewrite ?H1, ?H2, ?H3, ?H4; done. Qed.

Lemma write_listeners w m k : same_listeners k (write_or_return w m k).2.
Proof. by destruct w. Qed.

Lemma response_listeners w id code k : same_listeners k (write_registration_response w id code k).2.
Proof.
  unfold write_registration_response. destruct registration_rejected; [|done].
  by destruct (has _ _); destruct w.
Qed.

Lemma spawn_listener k id name names :
  listeners_wf k → ct_services k !! id = None →
  listeners_wf (set_ct_services (<[id := mkServiceEntry name (ct_tokens k)]> (ct_services k)) names
                  (spawn_child id k)).
Proof.
  intros [Hc Hl Hu Hf] Hid. split; simpl.
  - intros i tok. rewrite elem_of_app, list_elem_of_singleton. intros [Hin|[= -> ->]].
    + destruct (Hc _ _ Hin) as [|(e & He & Ht)]; [by left|right]. exists e.
      rewrite lookup_insert_ne; [done|]. intros ->. congruence.
    + right. eexists. by rewrite lookup_insert_eq.
  - intros i e. rewrite lookup_insert. case_decide.
    + intros [= <-]. simpl. split; [|lia]. intros Hin%Hf. lia.
    + intros [? ?]%Hl. split; [done|lia].
  - intros i j e e'. rewrite !lookup_insert. repeat case_decide; intros ?? Heq; simplify_eq/=; try done.
    + destruct (Hl j e') as [_ ?]; [done|lia].
    + destruct (Hl i e) as [_ ?]; [done|lia].
    + by eapply Hu.
  - intros tok ?%Hf. lia.
Qed.

Lemma unregister_listener k s id : listeners_wf k → listeners_wf (unregister_service id k s).1.
Proof.
  intros [Hc Hl Hu Hf]. unfold unregister_service.
  destruct (ct_services k !! id) as [e|] eqn:He; [|done]. split; simpl.
  - intros i tok Hin. destruct (Hc _ _ Hin) as [|(e' & He' & <-)]; [set_solver|].
    destruct (decide (i = id)) as [->|Hne]; [simplify_eq; set_solver|].
    right. exists e'. by rewrite lookup_delete_ne.
  - intros i e' [Hne Hi]%lookup_delete_Some. destruct (Hl _ _ Hi) as [Hni Hlt]. split; [|done].
    rewrite elem_of_union, elem_of_singleton. intros [Heq|?]; [|done]. apply Hne. by eapply Hu.
  - intros i j e1 e2 [_ Hi]%lookup_delete_Some [_ Hj]%lookup_delete_Some. by eapply Hu.
  - intros tok. rewrite elem_of_union, elem_of_singleton. intros [->|?%Hf]; [|done]. by apply Hl in He as [].
Qed.

Lemma on_incoming_listeners listen w policy incoming k s :
  listeners_wf k → listeners_wf (on_incoming listen w policy incoming k s).1.2.
Proof.
  intros Hk. unfold on_incoming. destruct incoming as [m|e]; [|done]. destruct m; try done; simpl.
  - unfold register_service.
    destruct (_ <=? _); [eapply same_listeners_wf, Hk; apply response_listeners|].
    destruct (_ || _) eqn:Hd; [eapply same_listeners_wf, Hk; apply response_listeners|].
    apply orb_false_iff in Hd as [Hid%bool_decide_eq_false _]. apply eq_None_not_Some in Hid.
    destruct (bind_to_socket _ _) as [addr|]; [|eapply same_listeners_wf, Hk; apply response_listeners].
    destruct (listen addr) as [[bound|]|]; [|eapply same_listeners_wf, Hk; apply response_listeners..].
    eapply same_listeners_wf; [apply write_listeners|]. exact (spawn_listener k _ _ _ Hk Hid).
  - pose proof (unregister_listener k s (us_service_id v) Hk) as Hu.
    by destruct (unregister_service _ k s).
  - eapply same_listeners_wf, Hk; apply write_listeners.
  - by eapply same_listeners_wf, Hk.
Qed.

Lemma handshake_tables ct_eq io peer token hello now a lim s k :
  hs_result (handshake ct_eq io peer token hello now a lim s) = Ok k →
  ct_services k = ∅ ∧ ct_children k = [] ∧ ct_tokens k = 0%nat ∧ ct_cancelled k = ∅.
Proof.
  unfold handshake, refuse_peer, establish, reject_authentication, write_bounded.
  repeat case_match; intros; simplify_eq/=; done.
Qed.

Lemma arm_step_listeners policy w w' :
  arm_step policy w w' → map_Forall (fun _ => listeners_wf) (w_controls w) →
  map_Forall (fun _ => listeners_wf) (w_controls w').
Proof.
  destruct 1 as [s ks listen w0 incoming sid k f k' s' Hk Hs
    |s ks w0 m sid k Hk|s ks sid k Hk|s ks sid k i r k' s' Hk Hs|s ks sid k Hk|s ks sid k e Hk|s ks a Ha|s ks s' Hd];
    simpl; intros Hi; try done; try (by apply map_Forall_delete); apply map_Forall_insert_2; try done.
  - pose proof (on_incoming_listeners listen w0 policy incoming k s (Hi _ _ Hk)) as Hl.
    by rewrite Hs in Hl.
  - eapply same_listeners_wf, (Hi _ _ Hk). pose proof (write_listeners w0 m k) as Hw. unfold on_queued.
    by destruct (write_or_return w0 m k) as [[] k1].
  - by eapply same_listeners_wf, (Hi _ _ Hk).
  - injection Hs as <- <-. destruct (Hi _ _ Hk) as [Hc Hl Hu Hf]. split; simpl; try done.
    intros id tok [_ Hin]%list_elem_of_filter. by apply Hc.
Qed.

Lemma world_step_listeners policy w w' :
  world_step policy w w' → map_Forall (fun _ => listeners_wf) (w_controls w) →
  map_Forall (fun _ => listeners_wf) (w_controls w').
Proof.
  destruct 1 as [s ks ct_eq io peer token hello now a lim k h Hh Hr Hk Ha
    |s ks ct_eq io peer token hello now a lim e h Hh Hr Hf Ha|w w' Hs]; intros Hi;
    [|done|by eapply arm_step_listeners].
  simpl. apply map_Forall_insert_2; [|done].
  rewrite <-Hh in Hr. apply handshake_tables in Hr as (H1 & H2 & H3 & H4).
  split; rewrite ?H1, ?H2, ?H3, ?H4; set_solver.
Qed.

(** ** Properties *)

Definition idle_world (p : RuntimePolicy) : World := mkWorld (new_session_registry p) ∅.

Lemma world_reachable policy p w :
  rtc (world_step policy) (idle_world p) w →
  world_inv p (service_bound policy p) w ∧ map_Forall (fun _ => listeners_wf) (w_controls w).
Proof.
  intros Hr. assert (world_inv p (service_bound policy p) (idle_world p)) as Hi.
  { split; simpl; try done.
    intros b Hb. by apply elem_of_nil in Hb. }
  assert (map_Forall (fun _ => listeners_wf) (w_controls (idle_world p))) as Hl by apply map_Forall_empty.
  induction Hr as [|w1 w2 w3 Hs _ IH]; [done|].
  apply IH; [by eapply world_step_inv|by eapply world_step_listeners].
Qed.

(** C5. Under every interleaving of Sessions starting, being refused,
    registering, unregistering, draining, idling out, failing and being torn
    down, with data connections in between: the services gauge is the length
    of the bind table and the sessions gauge the number of running control
    loops (both modulo 2^64, as the atomics are); the bind table lists for
    each running Session exactly its registered services and nothing for a
    Session that has ended; a Session never holds more services than the
    smaller of the two configured bounds; and no two of its services share a
    name. *)
Theorem service_accounting policy p w :
  rtc (world_step policy) (idle_world p) w →
  load n_services (counters (w_server w)) = wrap 64 (len (ctr_binds (counters (w_server w)))) ∧
  load n_sessions (counters (w_server w)) = wrap 64 (Z.of_nat (size (w_controls w))) ∧
  (∀ b, b ∈ ctr_binds (counters (w_server w)) → is_Some (w_controls w !! be_session b)) ∧
  (∀ sid k, w_controls w !! sid = Some k →
     binds_of sid (ctr_binds (counters (w_server w))) ≡ₚ service_ids k ∧
     Z.of_nat (size (ct_services k)) <= Z.max 0 (service_bound policy p) ∧
     ∀ id id' e e', ct_services k !! id = Some e → ct_services k !! id' = Some e' →
       se_name e = se_name e' → id = id').
Proof.
  intros [[_ H1 H2 H3 H4] _]%world_reachable. split_and!; [done..|].
  intros sid k Hk. destruct (H4 _ _ Hk) as (_ & Hw & Hsz & Hb). split_and!; [done..|]. apply Hw.
Qed.

(** No listener outlives its registration.  In every reachable state,
    every service task a Session still has to join either belongs to a
    service that is registered or has had its own cancellation token
    cancelled, also when a service identifier has been unregistered and
    registered again; and the task of a registered service has not. *)
Theorem listeners_owned policy p w sid k :
  rtc (world_step policy) (idle_world p) w → w_controls w !! sid = Some k →
  (∀ id tok, (id, tok) ∈ ct_children k →
     tok ∈ ct_cancelled k ∨ (∃ e, ct_services k !! id = Some e ∧ se_cancel e = tok)) ∧
  (∀ id e, ct_services k !! id = Some e → ¬ se_cancel e ∈ ct_cancelled k).
Proof.
  intros [_ Hl]%world_reachable Hk. destruct (Hl _ _ Hk) as [Hc Hv _ _]. split; [done|].
  intros id e He. by apply Hv in He as [].
Qed.

(** C2. A Session is established only for an authenticated peer.  When the
    handshake yields a control loop, the client's major version is the
    server's, an [Auth] frame arrived in time with exactly the configured
    token, the peer's address was not blocked, and the Session is already in
    the registry; the peer was sent the server's hello and then [AuthOk], in
    this order and nothing else, and the capabilities in force are those both
    sides have. *)
Theorem handshake_authenticates ct_eq io peer bytes token hello now a lim s k :
  (∀ x y, length x = length y → ct_eq x y = true ↔ x = y) →
  SecretToken_new bytes = Ok token →
  let h := handshake ct_eq io peer token hello now a lim s in
  hs_result h = Ok k →
  pv_major (ch_version hello) = pv_major CURRENT ∧
  (∃ auth, auth_read io = Ready (Ok (M_Auth auth)) ∧ auth_token auth = bytes) ∧
  (is_blocked_at lim (peer_source peer) now).1 = false ∧
  entries (hs_server h) !! ct_session k = Some a ∧
  ct_negotiated k = intersect supported (ch_capabilities hello) ∧
  hs_out h = [M_ServerHello (mkServerHello CURRENT (ct_negotiated k)); M_AuthOk (mkAuthOk (ct_session k))].
Proof.
  intros Hct Htok h. unfold h, handshake.
  destruct (negb _) eqn:Hv; [done|]. apply negb_false_iff, Z.eqb_eq in Hv.
  destruct (write_bounded _ _ _) as [[[]|e] out] eqn:Hw; [|done].
  assert (out = [M_ServerHello (mkServerHello CURRENT (intersect supported (ch_capabilities hello)))]) as ->
    by (by destruct (hello_write io); simplify_eq/=).
  destruct (read_bounded _) as [m|e] eqn:Hm; [|done].
  assert (auth_read io = Ready (Ok m)) as Hready by (destruct (auth_read io); simplify_eq/=; congruence).
  assert (∀ out lim, hs_result (refuse_peer io peer out lim s) ≠ Ok k) as Href.
  { intros out' lim'. unfold refuse_peer, reject_authentication. by destruct authentication_failed. }
  destruct m as [| |auth| | | | | | | | | | | |]; try (intros Hr; by apply Href in Hr).
  destruct (is_blocked_at _ _ _) as [blocked lim1]. destruct (_ || _) eqn:Hb; [intros Hr; by apply Href in Hr|].
  apply orb_false_iff in Hb as [Hver%negb_false_iff ->]. intros Hr.
  assert (∃ auth0, auth_read io = Ready (Ok (M_Auth auth0)) ∧ auth_token auth0 = bytes) as Hauth.
  { exists auth. split; [done|]. by eapply verify_token_iff. }
  revert Hr. unfold establish. destruct (SessionId_generate _); [|done].
  destruct (server_cancelled io); [done|]. unfold register. destruct (_ <=? _); [done|].
  destruct (auth_ok_write io); [|done..]. simpl. intros [= <-]. simpl.
  split_and!; try done. by rewrite lookup_insert_eq.
Qed.

(** C35. Every refused credential looks the same from outside.  Once the
    hello is written and an [Auth] frame is read, a wrong token and a blocked
    source get the same answer, whatever the token and whatever the limiter
    holds: [Error] with code 4 after the server's hello, the error
    [Authentication]; the failure is recorded against the source, the
    rejection is counted, the handshake slot is given back and no Session
    exists. *)
Theorem refusal_uniform ct_eq io peer bytes token hello now a lim s auth :
  (∀ x y, length x = length y → ct_eq x y = true ↔ x = y) →
  SecretToken_new bytes = Ok token →
  pv_major (ch_version hello) = pv_major CURRENT →
  hello_write io = W_done → refusal_write io = W_done →
  auth_read io = Ready (Ok (M_Auth auth)) →
  auth_token auth ≠ bytes ∨ (is_blocked_at lim (peer_source peer) now).1 = true →
  let h := handshake ct_eq io peer token hello now a lim s in
  hs_result h = Err TE_Authentication ∧
  (∃ d, hs_out h = [M_ServerHello (mkServerHello CURRENT (intersect supported (ch_capabilities hello)));
                    M_Error (mkErrorMessage AUTH_FAILURE_CODE d)] ∧
        BoundedDiagnostic_new (lit "authentication failed") = Ok d) ∧
  hs_limiter h = record_failure_at (is_blocked_at lim (peer_source peer) now).2 (peer_source peer)
                   (refused_at io) ∧
  load n_rejected (counters (hs_server h)) = wrap 64 (load n_rejected (counters s) + 1) ∧
  load n_handshakes (counters (hs_server h)) = wrap 64 (load n_handshakes (counters s) - 1) ∧
  heap (hs_server h) = heap s ∧ entries (hs_server h) = entries s.
Proof.
  intros Hct Htok Hv Hw1 Hw2 Hr Hbad h. unfold h, handshake.
  rewrite Hv, Z.eqb_refl, Hw1, Hr. cbn [negb write_bounded read_bounded].
  assert (negb (verify_token ct_eq token (auth_token auth)) ||
            (is_blocked_at lim (peer_source peer) now).1 = true) as Hrefuse.
  { destruct (verify_token _ _ _) eqn:Hver; [|done]. simpl.
    apply (verify_token_iff ct_eq token bytes) in Hver; [|done..]. by destruct Hbad. }
  destruct (is_blocked_at _ _ _) as [blocked lim1]. cbn [fst snd] in Hrefuse |- *. rewrite Hrefuse.
  unfold refuse_peer, reject_authentication. rewrite Hw2. split_and!; try done. by eexists.
Qed.

Lemma response_written service_id code k :
  ∃ d, registration_rejected = Ok d ∧
  write_registration_response W_done service_id code k =
  (Continue, set_ct_out (ct_out k ++ [if has (ct_negotiated k) CAPABILITY_REGISTER_REJECT
                                      then M_RegisterReject (mkRegisterReject service_id code d)
                                      else M_Error (mkErrorMessage code d)]) k).
Proof. eexists. split; [done|]. unfold write_registration_response. simpl. by destruct (has _ _). Qed.

(** A refused registration, up to the reason for its code. *)
Ltac rejected_with :=
  match goal with |- context [write_registration_response W_done ?id ?code ?k] =>
    let d := fresh "d" in let Hd := fresh "Hd" in let Hresp := fresh "Hresp" in
    destruct (response_written id code k) as (d & Hd & Hresp); rewrite Hresp; simpl;
    split; [done|]; eexists; split; [done|]; right; exists code, d; split_and!; try done
  end.

Lemma register_service_answer listen policy r k s :
  let '(f, k', s') := register_service listen W_done policy r k s in
  let bound := service_bound policy (ctr_policy (counters s)) in
  let full := bound <= Z.of_nat (size (ct_services k)) in
  let known := is_Some (ct_services k !! rs_service_id r) ∨ sn_value (rs_name r) ∈ ct_names k in
  f = Continue ∧ ∃ m, ct_out k' = ct_out k ++ [m] ∧
  ((∃ addr local effective,
      ¬ full ∧ ¬ known ∧ bind_to_socket (rs_requested_bind r) policy = Ok addr ∧
      listen addr = Some (Some local) ∧ effective = socket_to_effective local ∧
      m = M_RegisterAck (mkRegisterAck (rs_service_id r) effective) ∧
      se_name <$> ct_services k' !! rs_service_id r = Some (rs_name r) ∧
      ctr_binds (counters s') =
        ctr_binds (counters s) ++ [mkBindEntry (ct_session k) (rs_service_id r) effective]) ∨
   (∃ code d, registration_rejected = Ok d ∧
      m = (if has (ct_negotiated k) CAPABILITY_REGISTER_REJECT
           then M_RegisterReject (mkRegisterReject (rs_service_id r) code d)
           else M_Error (mkErrorMessage code d)) ∧
      (code = 5 ∧ full ∨
       code = 1 ∧ ¬ full ∧ known ∨
       code = 2 ∧ ¬ full ∧ ¬ known ∧ (∃ e, bind_to_socket (rs_requested_bind r) policy = Err e) ∨
       code = 3 ∧ ¬ full ∧ ¬ known ∧ (∃ addr, bind_to_socket (rs_requested_bind r) policy = Ok addr ∧
                                         ¬ ∃ local, listen addr = Some (Some local))) ∧
      ct_services k' = ct_services k ∧ ct_names k' = ct_names k ∧ ct_children k' = ct_children k ∧
      ctr_binds (counters s') = ctr_binds (counters s) ∧
      load n_rejected (counters s') = wrap 64 (load n_rejected (counters s) + 1))).
Proof.
  unfold register_service, service_bound.
  destruct (_ <=? _) eqn:Hfull; [apply Z.leb_le in Hfull|apply Z.leb_gt in Hfull].
  { rejected_with. by left. }
  destruct (_ || _) eqn:Hk.
  { rejected_with. right; left. apply orb_true_iff in Hk.
    rewrite !bool_decide_eq_true in Hk. split_and!; [done|lia|done]. }
  apply orb_false_iff in Hk as [Hid%bool_decide_eq_false Hname%bool_decide_eq_false].
  destruct (bind_to_socket _ _) as [addr|e] eqn:Hbind.
  2: { rejected_with. right; right; left. split_and!; [done|lia|tauto|eauto]. }
  destruct (listen addr) as [[bound|]|] eqn:Hlisten.
  - simpl. split; [done|]. eexists; split; [done|]. left. exists addr, bound. eexists.
    split_and!; try done; [lia|tauto|]. by rewrite lookup_insert_eq.
  - rejected_with. right; right; right. split_and!; [done|lia|tauto|].
    exists addr. split; [done|]. rewrite Hlisten. by intros [? ?].
  - rejected_with. right; right; right. split_and!; [done|lia|tauto|].
    exists addr. split; [done|]. rewrite Hlisten. by intros [? ?].
Qed.

(** Every [RegisterService] request gets exactly one answer, and the
    answer is the truth.  [RegisterAck] carries the address the listener was
    bound to, which the bind policy granted for the request, and then the
    service is in the Session's table and in the bind table; otherwise the
    answer is [RegisterReject] for that service where the capability was
    negotiated and the generic [Error] where it was not, with the code of the
    failed stage, the tables are as before and the rejection is counted. *)
Theorem registration_answered listen policy r k s :
  let '(f, k', s') := register_service listen W_done policy r k s in
  let bound := service_bound policy (ctr_policy (counters s)) in
  let full := bound <= Z.of_nat (size (ct_services k)) in
  let known := is_Some (ct_services k !! rs_service_id r) ∨ sn_value (rs_name r) ∈ ct_names k in
  f = Continue ∧ ∃ m, ct_out k' = ct_out k ++ [m] ∧
  ((∃ addr local effective,
      ¬ full ∧ ¬ known ∧ bind_to_socket (rs_requested_bind r) policy = Ok addr ∧
      listen addr = Some (Some local) ∧ effective = socket_to_effective local ∧
      m = M_RegisterAck (mkRegisterAck (rs_service_id r) effective) ∧
      se_name <$> ct_services k' !! rs_service_id r = Some (rs_name r) ∧
      ctr_binds (counters s') =
        ctr_binds (counters s) ++ [mkBindEntry (ct_session k) (rs_service_id r) effective]) ∨
   (∃ code d, registration_rejected = Ok d ∧
      m = (if has (ct_negotiated k) CAPABILITY_REGISTER_REJECT
           then M_RegisterReject (mkRegisterReject (rs_service_id r) code d)
           else M_Error (mkErrorMessage code d)) ∧
      (code = 5 ∧ full ∨
       code = 1 ∧ ¬ full ∧ known ∨
       code = 2 ∧ ¬ full ∧ ¬ known ∧ (∃ e, bind_to_socket (rs_requested_bind r) policy = Err e) ∨
       code = 3 ∧ ¬ full ∧ ¬ known ∧ (∃ addr, bind_to_socket (rs_requested_bind r) policy = Ok addr ∧
                                         ¬ ∃ local, listen addr = Some (Some local))) ∧
      ct_services k' = ct_services k ∧ ct_names k' = ct_names k ∧ ct_children k' = ct_children k ∧
      ctr_binds (counters s') = ctr_binds (counters s) ∧
      load n_rejected (counters s') = wrap 64 (load n_rejected (counters s) + 1))).
Proof. apply register_service_answer. Qed.

(** *** Witnesses *)

Definition sample_ct_eq (x y : list byte) : bool := bool_decide (x = y).
Definition sample_token : list byte := [Byte.x73; Byte.x33].
Definition sample_io (presented : list byte) : HandshakeIo :=
  mkHandshakeIo W_done (Ready (Ok (M_Auth (mkAuth presented)))) 7 W_done
    (Some (replicate 16 Byte.x09)) false W_done.
Definition sample_peer : Peer := mkPeer [Byte.x0a; Byte.x00; Byte.x00; Byte.x01] None.
Definition sample_client : ClientHello := mkClientHello CURRENT (mkCapabilities [1]).
Definition sample_handshake (presented : list byte) : Handshake :=
  handshake sample_ct_eq (sample_io presented) sample_peer (mkSecretToken sample_token) sample_client 5
    0%nat (Limiter_new 10 60 1024) (new_session_registry RuntimePolicy_default).
Definition sample_sid : SessionId := mkSessionId (replicate 16 Byte.x09).
Definition sample_control : Control :=
  mkControl 0%nat sample_sid (mkCapabilities [1]) ∅ ∅ [] 0 ∅
    [M_ServerHello (mkServerHello CURRENT (mkCapabilities [1])); M_AuthOk (mkAuthOk sample_sid)] None false.
Definition sample_listen (a : SocketAddr) : option (option SocketAddr) := Some (Some (V4 [Byte.x7f; Byte.x00; Byte.x00; Byte.x01] 4000)).
Definition sample_request : RegisterService :=
  mkRegisterService (mkServiceId 3) (mkServiceName (lit "web")) (Loopback 0) (mkTcpTarget (lit "localhost") 80).
Definition sample_registered : Flow * Control * Server :=
  on_incoming sample_listen W_done BindPolicy_default (Ok (M_RegisterService sample_request))
    sample_control (hs_server (sample_handshake sample_token)).
Definition sample_world : World :=
  mkWorld sample_registered.2 (<[sample_sid := sample_registered.1.2]> {[sample_sid := sample_control]}).

Lemma sample_ct_eq_spec x y : length x = length y → sample_ct_eq x y = true ↔ x = y.
Proof. intros _. apply bool_decide_eq_true. Qed.

(** One Session that has registered one service. *)
Lemma sample_world_reachable :
  rtc (world_step BindPolicy_default) (idle_world RuntimePolicy_default) sample_world.
Proof.
  eapply rtc_l.
  - apply (W_start _ (new_session_registry RuntimePolicy_default) ∅ sample_ct_eq (sample_io sample_token)
      sample_peer (mkSecretToken sample_token) sample_client 5 0%nat (Limiter_new 10 60 1024) sample_control
      (sample_handshake sample_token)); vm_compute; reflexivity.
  - eapply rtc_l; [|apply rtc_refl].
    apply W_arm, (W_incoming _ _ _ sample_listen W_done (Ok (M_RegisterService sample_request)) sample_sid
             sample_control sample_registered.1.1); vm_compute; reflexivity.
Qed.

Lemma service_accounting_witness :
  load n_services (counters (w_server sample_world)) = 1 ∧
  load n_services (counters (w_server sample_world)) = wrap 64 (len (ctr_binds (counters (w_server sample_world)))).
Proof.
  split; [vm_compute; reflexivity|].
  apply (service_accounting BindPolicy_default RuntimePolicy_default sample_world), sample_world_reachable.
Defined.

Lemma listeners_owned_witness :
  length (ct_children sample_registered.1.2) = 1%nat ∧
  (∀ id tok, (id, tok) ∈ ct_children sample_registered.1.2 →
   tok ∈ ct_cancelled sample_registered.1.2 ∨
   (∃ e, ct_services sample_registered.1.2 !! id = Some e ∧ se_cancel e = tok)).
Proof.
  split; [vm_compute; reflexivity|].
  apply (listeners_owned BindPolicy_default RuntimePolicy_default sample_world sample_sid);
    [apply sample_world_reachable|vm_compute; reflexivity].
Defined.

Lemma handshake_authenticates_witness :
  entries (hs_server (sample_handshake sample_token)) !! sample_sid = Some 0%nat.
Proof.
  apply (handshake_authenticates sample_ct_eq (sample_io sample_token) sample_peer sample_token
    (mkSecretToken sample_token) sample_client 5 0%nat (Limiter_new 10 60 1024)
    (new_session_registry RuntimePolicy_default) sample_control);
    [apply sample_ct_eq_spec|vm_compute; reflexivity..].
Defined.

Lemma refusal_uniform_witness : hs_result (sample_handshake [Byte.x00]) = Err TE_Authentication.
Proof.
  apply (refusal_uniform sample_ct_eq (sample_io [Byte.x00]) sample_peer sample_token
    (mkSecretToken sample_token) sample_client 5 0%nat (Limiter_new 10 60 1024)
    (new_session_registry RuntimePolicy_default) (mkAuth [Byte.x00]));
    [apply sample_ct_eq_spec|vm_compute; reflexivity..|left; discriminate].
Defined.
