(* ===== verification/Registry.v ===== *)
(** * The Session registry under all interleavings

    [Control] runs every control loop of the server at once.  Here the
    registry of crates/eggtunnel/src/server/session.rs is followed through the
    same steps: its weak entries are exactly the running Sessions, so the
    ceiling that [SessionContext::register] enforces on entries bounds the
    Sessions themselves, and the pending gauge stays exact. *)

From S2P Require Import Prelude Text Proto Codec Varint Frame Common WireIo AuthLimiter Session Control.

(** ** What a step leaves alone *)

(** Same entries, and the same Sessions at the same addresses. *)
Definition same_registry (s s' : Server) : Prop :=
  entries s' = entries s ∧ (∀ a, sc_id <$> heap s' !! a = sc_id <$> heap s !! a).

#[export] Instance same_registry_refl : Reflexive same_registry.
Proof. by intros s. Qed.
#[export] Instance same_registry_trans : Transitive same_registry.
Proof. intros x y z [? H1] [? H2]. split; [congruence|]. intros a. by rewrite H2, H1. Qed.

Lemma counters_registry f s s' : same_registry s s' → same_registry s (on_counters f s').
Proof. done. Qed.

Lemma context_registry a f s : (∀ x, sc_id (f x) = sc_id x) → same_registry s (on_context a f s).
Proof.
  intros Hf. split; [done|]. intros b. simpl. rewrite lookup_alter. case_decide; [|done]. subst.
  destruct (heap s !! b); simpl; [by rewrite Hf|done].
Qed.

Create HintDb registry.
#[export] Hint Resolve counters_registry : registry.
#[export] Hint Extern 0 (same_registry ?s ?s) => reflexivity : registry.
#[export] Hint Extern 2 (same_registry _ (on_context _ _ _)) => apply context_registry; by intros [] : registry.

Lemma claim_registry a c s : same_registry s (claim a c s).2.
Proof. unfold claim. destruct (_ ≫= _); simpl; auto with registry. Qed.

Lemma remove_service_registry a svc s : same_registry s (remove_service_pending a svc s).
Proof. unfold remove_service_pending. destruct (heap s !! a); auto with registry. Qed.

Lemma remove_all_registry a s : same_registry s (remove_all_pending a s).
Proof. unfold remove_all_pending. destruct (heap s !! a); auto with registry. Qed.
#[export] Hint Resolve claim_registry remove_service_registry remove_all_registry : registry.

Lemma data_hello_registry closed now hello p s : same_registry s (accept_data_hello closed now hello p s).2.
Proof.
  unfold accept_data_hello. destruct (_ ≫= _) as [[a x]|]; [|done]. destruct (negb _); [done|].
  pose proof (claim_registry a (dh_connection_id hello) s) as Hv.
  destruct (claim a _ s) as [[e|] s1]; [|done]. destruct (_ || _); [done|]. by destruct (closed _).
Qed.

Lemma data_step_registry s s' : data_step s s' → same_registry s s'.
Proof.
  destruct 1 as [s closed now hello p|s a c|s a svc|s a|s a svc fill now tx _|s a c|s|s a|s a c o];
    auto with registry.
  - apply data_hello_registry.
  - unfold accept_external. destruct (heap s !! a); [|done]. destruct (_ <=? 0); [done|].
    destruct fill; [|done]. simpl. destruct (_ <=? _); [done|]. apply counters_registry.
    by apply context_registry.
  - unfold offer_failed. apply counters_registry. etransitivity; [apply (claim_registry a c s)|].
    by apply context_registry.
  - unfold ActiveConnectionGuard_drop. by etransitivity; [|apply context_registry].
  - unfold relay_resolved. destruct o as [[up down]|]; apply (claim_registry a c s).
Qed.

Lemma on_incoming_registry listen w policy incoming k s :
  same_registry s (on_incoming listen w policy incoming k s).2.
Proof.
  destruct incoming as [m|e]; [|done]. destruct m; try done; simpl; auto with registry.
  - unfold register_service. repeat case_match; done.
  - unfold unregister_service. destruct (ct_services k !! _); [|done].
    etransitivity; [|apply remove_service_registry]. done.
Qed.

Lemma on_incoming_control listen w policy incoming k s :
  let k' := (on_incoming listen w policy incoming k s).1.2 in
  ct_session k' = ct_session k ∧ ct_address k' = ct_address k.
Proof.
  destruct incoming as [m|e]; [|done]. destruct m; try done; simpl; try (by destruct w).
  - unfold register_service, write_registration_response.
    repeat case_match; simpl; try done; by destruct w.
  - unfold unregister_service. by destruct (ct_services k !! _).
Qed.

(** ** The handshake *)

(** Every weak entry upgrades: pruning finds nothing. *)
Definition entries_alive (s : Server) : Prop :=
  ∀ sid a, entries s !! sid = Some a → is_Some (heap s !! a).

Lemma register_alive a sid mx x s :
  entries_alive s →
  register a sid mx (allocate a x s) =
  if mx <=? Z.of_nat (size (entries s)) then (Err TE_ResourceExhausted, allocate a x s)
  else (Ok tt, set_entries (<[sid := a]> (entries s)) (allocate a x s)).
Proof.
  intros Hl. unfold register.
  assert (filter (fun kv => alive (allocate a x s) kv.2 = true) (entries (allocate a x s)) = entries s) as ->.
  { apply map_filter_id. intros i b Hb. unfold alive. simpl. apply bool_decide_eq_true_2.
    rewrite lookup_insert. case_decide; [done|]. by eapply Hl. }
  by case_match.
Qed.

(** A context that is allocated and dropped again. *)
Lemma drop_allocated a x (h : gmap Address SessionContext) : h !! a = None → delete a (<[a := x]> h) = h.
Proof. apply delete_insert_id. Qed.

(** What a handshake does to the registry: nothing when it fails; when it
    succeeds it adds a fresh context with the peer's identity, under a fresh
    entry and within the ceiling. *)
Definition registers (io : HandshakeIo) (peer : Peer) (a : Address) (s : Server) (h : Handshake) : Prop :=
  match hs_result h with
  | Ok k => ∃ x, random_id io = Some (sid_bytes (ct_session k)) ∧ ct_address k = a ∧
      sc_id x = ct_session k ∧ sc_principal x = peer_principal peer ∧ sc_control_tx x = true ∧
      heap (hs_server h) = <[a := x]> (heap s) ∧
      entries (hs_server h) = <[ct_session k := a]> (entries s) ∧
      Z.of_nat (size (entries s)) < sessions_limit (limits (ctr_policy (counters s)))
  | Err _ => (∀ bytes, random_id io = Some bytes → entries s !! mkSessionId bytes = None) →
      heap (hs_server h) = heap s ∧ entries (hs_server h) = entries s
  end.

Lemma establish_registry io peer a negotiated out lim s :
  heap s !! a = None → entries_alive s →
  registers io peer a s (establish io peer a negotiated out lim s).
Proof.
  intros Ha Hl. unfold registers, establish. destruct (random_id io) as [bytes|] eqn:Er; simpl; [|done].
  destruct (server_cancelled io); [done|].
  set (x := new_context _ _ _). rewrite (register_alive a _ _ x (release_slot s)) by exact Hl.
  destruct (_ <=? _) eqn:Hle; simpl; bools.
  - intros _. unfold SessionContext_drop. simpl. rewrite lookup_insert_eq. simpl.
    by rewrite drop_allocated.
  - assert (∀ s4 y, heap s4 = <[a := y]> (heap s) → heap (SessionContext_drop a s4) = heap s ∧
      entries (SessionContext_drop a s4) = entries s4) as Hdrop.
    { intros s4 y Hh. unfold SessionContext_drop. rewrite Hh, lookup_insert_eq. simpl.
      by rewrite drop_allocated. }
    destruct (auth_ok_write io); simpl.
    + exists (set_sc_control_tx true x). split_and!; try done. by rewrite alter_insert_eq.
    + intros Hf. edestruct Hdrop as [-> ->]; [simpl; by rewrite alter_insert_eq|]. split; [done|]. simpl.
      rewrite delete_insert_id; [done|]. by apply Hf.
    + intros Hf. edestruct Hdrop as [-> ->]; [simpl; by rewrite alter_insert_eq|]. split; [done|]. simpl.
      rewrite delete_insert_id; [done|]. by apply Hf.
Qed.

Lemma refuse_peer_registry io peer out lim s :
  let h := refuse_peer io peer out lim s in
  (∃ e, hs_result h = Err e) ∧ heap (hs_server h) = heap s ∧ entries (hs_server h) = entries s.
Proof. unfold refuse_peer, reject_authentication. destruct authentication_failed; simpl; eauto. Qed.

Lemma handshake_registry ct_eq io peer token hello now a lim s :
  heap s !! a = None → entries_alive s →
  registers io peer a s (handshake ct_eq io peer token hello now a lim s).
Proof.
  intros Ha Hl. unfold handshake.
  assert (∀ out lim0, registers io peer a s (refuse_peer io peer out lim0 s)) as Href.
  { intros out lim0. unfold registers.
    by destruct (refuse_peer_registry io peer out lim0 s) as ([e ->] & -> & ->). }
  destruct (negb _); [unfold registers; intros _; apply (refuse_peer_registry io peer [] lim s)|].
  destruct (write_bounded _ _ _) as [[[]|e] out]; [|done].
  destruct (read_bounded _) as [m|e]; [|done].
  destruct m; lazymatch goal with |- context [is_blocked_at] => idtac | _ => apply Href end.
  destruct (is_blocked_at _ _ _) as [blocked lim1]. destruct (_ || _); [apply Href|].
  by apply establish_registry.
Qed.

(** ** The invariant *)

Record registry_inv (w : World) : Prop :=
  { ri_running sid k : w_controls w !! sid = Some k →
      ct_session k = sid ∧ entries (w_server w) !! sid = Some (ct_address k) ∧
      sc_id <$> heap (w_server w) !! ct_address k = Some sid;
    ri_entry sid a : entries (w_server w) !! sid = Some a → is_Some (w_controls w !! sid) }.

Lemma registry_alive w : registry_inv w → entries_alive (w_server w).
Proof.
  intros [Hr He] sid a Ha. destruct (He _ _ Ha) as [k Hk]. destruct (Hr _ _ Hk) as (_ & Hs & Hx).
  rewrite Ha in Hs. injection Hs as ->. by destruct (heap (w_server w) !! ct_address k).
Qed.

Lemma registry_unused w sid : registry_inv w → w_controls w !! sid = None → entries (w_server w) !! sid = None.
Proof.
  intros [_ He] Hk. destruct (entries _ !! sid) eqn:E; [|done]. apply He in E as [k ?]. congruence.
Qed.

(** A step that keeps the registry, perhaps with a new state of one loop. *)
Lemma registry_inv_same s s' ks : registry_inv (mkWorld s ks) → same_registry s s' → registry_inv (mkWorld s' ks).
Proof.
  intros [Hr He] [Hs Hh]. split; simpl in *; rewrite Hs; [|done].
  intros sid k Hk. by rewrite Hh; apply Hr.
Qed.

Lemma registry_inv_control s ks sid k k' :
  registry_inv (mkWorld s ks) → ks !! sid = Some k →
  ct_session k' = ct_session k → ct_address k' = ct_address k →
  registry_inv (mkWorld s (<[sid := k']> ks)).
Proof.
  intros [Hr He] Hk Hs Ha. split; simpl in *.
  - intros i k0. rewrite lookup_insert. case_decide; [|apply Hr]. intros [= <-]. subst.
    rewrite Hs, Ha. by apply Hr.
  - intros i a Hi. rewrite lookup_insert. case_decide; [by eexists|]. by eapply He.
Qed.

(** The loop of a Session ends: its guard is dropped. *)
Lemma registry_inv_end s ks sid k :
  registry_inv (mkWorld s ks) → ks !! sid = Some k →
  registry_inv (mkWorld (SessionGuard_drop (ct_address k) (ct_session k) s) (delete sid ks)).
Proof.
  intros [Hr He] Hk. simpl in *. destruct (Hr _ _ Hk) as (-> & _ & _). split; simpl.
  - intros i k0 [Hne Hi]%lookup_delete_Some. rewrite lookup_delete_ne by done.
    destruct (Hr _ _ Hi) as (? & ? & Hx). split_and!; [done..|].
    rewrite lookup_alter. case_decide as Hc; [|done]. destruct (Hr _ _ Hk) as (_ & _ & Hy).
    rewrite Hc in Hy. congruence.
  - intros i a [Hne Hi]%lookup_delete_Some. rewrite lookup_delete_ne by done. by eapply He.
Qed.

Lemma registry_inv_drop s ks a :
  registry_inv (mkWorld s ks) → (∀ sid k, ks !! sid = Some k → ct_address k ≠ a) →
  registry_inv (mkWorld (SessionContext_drop a s) ks).
Proof.
  intros [Hr He] Ha. unfold SessionContext_drop. destruct (heap s !! a) as [x|] eqn:Hx; [|done].
  split; simpl in *; [|done]. intros sid k Hk. rewrite lookup_delete_ne; [by apply Hr|]. by apply not_eq_sym, (Ha sid).
Qed.

Lemma arm_step_registry policy w w' : arm_step policy w w' → registry_inv w → registry_inv w'.
Proof.
  destruct 1 as [s ks listen w0 incoming sid k f k' s' Hk Hs
    |s ks w0 m sid k Hk|s ks sid k Hk|s ks sid k i r k' s' Hk Hs|s ks sid k Hk|s ks sid k e Hk|s ks a Ha|s ks s' Hd];
    intros Hi.
  - pose proof (on_incoming_registry listen w0 policy incoming k s) as H1.
    destruct (on_incoming_control listen w0 policy incoming k s) as [H2 H3]. rewrite Hs in H1, H2, H3.
    eapply registry_inv_same; [by eapply registry_inv_control|done].
  - eapply registry_inv_control; [done..| |]; unfold on_queued, write_or_return; by destruct w0.
  - by eapply registry_inv_control.
  - injection Hs as <- <-. eapply registry_inv_same; [by eapply registry_inv_control|]. by destruct r.
  - apply registry_inv_end; [|done]. eapply registry_inv_same; [done|]. apply remove_all_registry.
  - by apply registry_inv_end.
  - by apply registry_inv_drop.
  - eapply registry_inv_same; [done|]. by apply data_step_registry.
Qed.

(** A handshake's outcome, taken up by the world. *)
Lemma registers_inv io peer a s ks h :
  registry_inv (mkWorld s ks) → heap s !! a = None → registers io peer a s h →
  match hs_result h with
  | Ok k => ks !! ct_session k = None → registry_inv (mkWorld (hs_server h) (<[ct_session k := k]> ks))
  | Err _ => (∀ bytes, random_id io = Some bytes → ks !! mkSessionId bytes = None) →
      registry_inv (mkWorld (hs_server h) ks)
  end.
Proof.
  intros Hi Ha Hr. pose proof Hi as [Hrun He]. simpl in *. unfold registers in Hr.
  destruct (hs_result h) as [k|e].
  - destruct Hr as (x & _ & Hka & Hx & _ & _ & Hh & Hen & _). intros Hk. split; simpl; rewrite Hen, ?Hh.
    + intros sid k0. rewrite !lookup_insert. case_decide as Hc.
      * intros [= <-]. subst. split_and!; [done..|]. rewrite decide_True by done. simpl. by rewrite Hx.
      * intros Hk0. destruct (Hrun _ _ Hk0) as (? & ? & Hy). split_and!; [done..|].
        rewrite decide_False; [done|]. intros ->. by rewrite Ha in Hy.
    + intros sid b. rewrite !lookup_insert. case_decide; [by eexists|]. apply He.
  - intros Hf. destruct Hr as [Hh Hen].
    { intros bytes Hb. apply (registry_unused _ _ Hi), (Hf _ Hb). }
    eapply registry_inv_same; [done|]. split; [done|]. by rewrite Hh.
Qed.

Lemma world_step_registry policy w w' : world_step policy w w' → registry_inv w → registry_inv w'.
Proof.
  destruct 1 as [s ks ct_eq io peer token hello now a lim k h Hh Hr Hk Ha
    |s ks ct_eq io peer token hello now a lim e h Hh Hr Hf Ha|w w' Hs]; intros Hi;
    [..|by eapply arm_step_registry];
    pose proof (handshake_registry ct_eq io peer token hello now a lim s Ha (registry_alive _ Hi)) as Hreg;
    rewrite Hh in Hreg; apply registers_inv with (ks := ks) in Hreg; try done; rewrite Hr in Hreg; by apply Hreg.
Qed.

Lemma world_registry policy p w : rtc (world_step policy) (idle_world p) w → registry_inv w.
Proof.
  intros Hr. refine (rtc_ind_r registry_inv _ _ _ _ Hr).
  - split; simpl; intros ? ?; by rewrite lookup_empty.
  - intros. by eapply world_step_registry.
Qed.

(** ** The ceiling on Sessions *)

Lemma arm_step_entries policy w w' :
  arm_step policy w w' → entries (w_server w') ⊆ entries (w_server w).
Proof.
  destruct 1 as [s ks listen w0 incoming sid k f k' s' Hk Hs
    |s ks w0 m sid k Hk|s ks sid k Hk|s ks sid k i r k' s' Hk Hs|s ks sid k Hk|s ks sid k e Hk|s ks a Ha|s ks s' Hd];
    simpl; try done.
  - destruct (on_incoming_registry listen w0 policy incoming k s) as [H1 _]. rewrite Hs in H1. by rewrite <-H1.
  - by injection Hs as <- <-.
  - destruct (remove_all_registry (ct_address k) s) as [-> _]. apply delete_subseteq.
  - apply delete_subseteq.
  - unfold SessionContext_drop. by case_match.
  - by destruct (data_step_registry _ _ Hd) as [-> _].
Qed.

(** The registry never holds more than the ceiling, so no more loops run. *)
Definition within_ceiling (p : RuntimePolicy) (w : World) : Prop :=
  Z.of_nat (size (entries (w_server w))) <= Z.max 0 (sessions_limit (limits p)).

Lemma registers_ceiling p io peer a s ks ks' h :
  ctr_policy (counters s) = p → registers io peer a s h → within_ceiling p (mkWorld s ks) →
  (∀ bytes, random_id io = Some bytes → entries s !! mkSessionId bytes = None) →
  within_ceiling p (mkWorld (hs_server h) ks').
Proof.
  unfold within_ceiling, registers. simpl. intros <- Hr Hc Hf. destruct (hs_result h) as [k|e].
  - destruct Hr as (x & Hrand & _ & _ & _ & _ & _ & -> & Hlt).
    rewrite map_size_insert_None; [lia|]. apply Hf in Hrand. by destruct (ct_session k).
  - by destruct (Hr Hf) as [_ ->].
Qed.

Lemma world_step_ceiling policy p w w' :
  world_step policy w w' → registry_inv w → ctr_policy (counters (w_server w)) = p →
  within_ceiling p w → within_ceiling p w'.
Proof.
  destruct 1 as [s ks ct_eq io peer token hello now a lim k h Hh Hr Hk Ha
    |s ks ct_eq io peer token hello now a lim e h Hh Hr Hf Ha|w w' Hs]; intros Hi Hp Hc.
  - pose proof (handshake_registry ct_eq io peer token hello now a lim s Ha (registry_alive _ Hi)) as Hreg.
    rewrite Hh in Hreg. eapply registers_ceiling; [done..|]. unfold registers in Hreg. rewrite Hr in Hreg.
    destruct Hreg as (x & Hrand & _). rewrite Hrand. intros bytes [= <-].
    apply (registry_unused _ _ Hi). by destruct (ct_session k).
  - pose proof (handshake_registry ct_eq io peer token hello now a lim s Ha (registry_alive _ Hi)) as Hreg.
    rewrite Hh in Hreg. eapply registers_ceiling; [done..|]. intros bytes Hb.
    apply (registry_unused _ _ Hi), (Hf _ Hb).
  - apply arm_step_entries, map_subseteq_size in Hs. unfold within_ceiling in *. lia.
Qed.

Lemma registry_dom w : registry_inv w → dom (w_controls w) = dom (entries (w_server w)).
Proof.
  intros [Hr He]. apply set_eq. intros sid. rewrite !elem_of_dom. split.
  - intros [k Hk]. apply Hr in Hk as (_ & -> & _). eauto.
  - intros [a Ha]. by eapply He.
Qed.

Lemma world_ceiling policy p w :
  rtc (world_step policy) (idle_world p) w →
  Z.of_nat (size (w_controls w)) <= Z.max 0 (sessions_limit (limits p)).
Proof.
  intros Hr. assert (registry_inv w) as Hi by (by eapply world_registry).
  rewrite <-size_dom, (registry_dom _ Hi), size_dom.
  refine (rtc_ind_r (fun w => rtc (world_step policy) (idle_world p) w → within_ceiling p w) _ _ _ _ Hr Hr).
  - intros _. unfold within_ceiling. simpl. rewrite map_size_empty. lia.
  - intros w1 w2 Hr1 Hs IH _. eapply world_step_ceiling; [done|by eapply world_registry| |by apply IH].
    by destruct (world_reachable _ _ _ Hr1) as [[] _].
Qed.

(** ** Pending connections *)

Section pending.
Variable limit : Z.
Abbreviation ok := (pending_inv limit).

Lemma arm_step_pending policy w w' : arm_step policy w w' → ok (w_server w) → ok (w_server w').
Proof.
  destruct 1 as [s ks listen w0 incoming sid k f k' s' Hk Hs
    |s ks w0 m sid k Hk|s ks sid k Hk|s ks sid k i r k' s' Hk Hs|s ks sid k Hk|s ks sid k e Hk|s ks a Ha|s ks s' Hd];
    simpl; intros Hi; try done.
  - replace s' with (on_incoming listen w0 policy incoming k s).2 by (by rewrite Hs).
    destruct incoming as [m|e]; [|done]. destruct m; try done; simpl.
    + unfold register_service. repeat case_match; try done; simpl; repeat apply pending_inv_frame; done.
    + unfold unregister_service. destruct (ct_services k !! _); [|done]. simpl.
      eapply data_step_pending_inv, S_remove_service. by apply pending_inv_frame.
    + by apply claim_inv.
  - injection Hs as <- <-. apply pending_inv_frame; [done|by destruct r..].
  - eapply step_pending_inv, S_guard_drop. by eapply data_step_pending_inv, S_remove_all.
  - by eapply step_pending_inv, S_guard_drop.
  - by apply context_drop_inv.
  - by eapply data_step_pending_inv.
Qed.

Lemma refuse_peer_pending io peer out lim s : ok s → ok (hs_server (refuse_peer io peer out lim s)).
Proof.
  intros [Hc Hl Hb]. unfold refuse_peer, reject_authentication.
  destruct authentication_failed; by split.
Qed.

Lemma establish_pending io peer a negotiated out lim s :
  heap s !! a = None → ok s → ok (hs_server (establish io peer a negotiated out lim s)).
Proof.
  intros Ha Hi. unfold establish.
  assert (ok (release_slot s)) as Hi1 by (by apply pending_inv_frame).
  destruct (SessionId_generate _) as [sid|]; [|done]. destruct (server_cancelled io); [done|].
  set (x := new_context _ _ _).
  assert (ok (allocate a x (release_slot s))) as Hi2 by (eapply step_pending_inv; [done|by apply S_allocate]).
  set (mx := sessions_limit _). pose proof (step_pending_inv _ _ _ Hi2 (S_register _ a sid mx)) as Hi3.
  destruct (register a sid mx _) as [[[]|e] s3]; simpl in *.
  - assert (ok (SessionGuard_new s3)) as Hi4 by (by apply pending_inv_frame).
    destruct (auth_ok_write io); simpl; [by apply pending_inv_context|..];
      apply context_drop_inv; by eapply step_pending_inv, S_guard_drop.
  - apply context_drop_inv. by apply pending_inv_frame.
Qed.

Lemma handshake_pending ct_eq io peer token hello now a lim s :
  heap s !! a = None → ok s → ok (hs_server (handshake ct_eq io peer token hello now a lim s)).
Proof.
  intros Ha Hi. assert (ok (release_slot s)) as Hi1 by (by apply pending_inv_frame). unfold handshake.
  destruct (negb _); [by apply refuse_peer_pending|].
  destruct (write_bounded _ _ _) as [[[]|e] out]; [|done].
  destruct (read_bounded _) as [m|e]; [|done].
  destruct m; lazymatch goal with
    | |- context [is_blocked_at] => idtac | _ => by apply refuse_peer_pending end.
  destruct (is_blocked_at _ _ _) as [blocked lim1]. destruct (_ || _); [by apply refuse_peer_pending|].
  by apply establish_pending.
Qed.
End pending.

(** ** Properties *)

(** C9. The registry is exact and bounded.  In every reachable state of the
    server, the registry's weak entries are exactly the running Sessions, each
    pointing at the live context of its own loop, so a [DataHello] can only
    reach the Session it names; and however many peers authenticate at once,
    no more Sessions run than [limits.sessions] allows. *)
Theorem sessions_bounded policy p w :
  rtc (world_step policy) (idle_world p) w →
  registry_inv w ∧
  (∀ sid a, entries (w_server w) !! sid = Some a ↔
     ∃ k, w_controls w !! sid = Some k ∧ ct_address k = a) ∧
  (∀ sid k, w_controls w !! sid = Some k →
     ∃ x, heap (w_server w) !! ct_address k = Some x ∧ sc_id x = sid) ∧
  Z.of_nat (size (w_controls w)) <= Z.max 0 (sessions_limit (limits p)).
Proof.
  intros Hr. pose proof (world_registry _ _ _ Hr) as Hi. split; [done|]. destruct Hi as [Hrun He]. split_and!.
  - intros sid a. split.
    + intros Ha. destruct (He _ _ Ha) as [k Hk]. exists k. split; [done|].
      destruct (Hrun _ _ Hk) as (_ & Hs & _). congruence.
    + intros (k & Hk & <-). by apply Hrun.
  - intros sid k Hk. destruct (Hrun _ _ Hk) as (_ & _ & Hx). by apply fmap_Some in Hx as (x & -> & ->); eauto.
  - by eapply world_ceiling.
Qed.

Lemma sessions_bounded_witness :
  size (w_controls sample_world) = 1%nat ∧
  Z.of_nat (size (w_controls sample_world)) <= Z.max 0 (sessions_limit (limits RuntimePolicy_default)).
Proof.
  split; [vm_compute; reflexivity|].
  apply (sessions_bounded BindPolicy_default RuntimePolicy_default sample_world), sample_world_reachable.
Defined.
