(* ===== verification/Directory.v ===== *)
(** * What a server promises its users: a directory of published services

    An abstract specification of crates/eggtunnel/src/server: a finite map
    from the Sessions to the services they have published, with the address
    each is reachable at.  Sessions join and leave, services are published and
    withdrawn, and the ceilings and the uniqueness of identifiers and names
    hold by construction.  The server of [Control] implements it: each of its
    steps is one step of the directory or none, and what a [Snapshot] shows is
    read off the directory. *)

From S2P Require Import Prelude Text Proto Codec Varint Frame Common WireIo AuthLimiter Session Control Registry.

(** ** The specification *)

Abbreviation Published := (ServiceName * EffectiveBind)%type.
Abbreviation Directory := (gmap SessionId (gmap ServiceId Published)).

Section specification.
Variables max_sessions max_services : Z.

Inductive directory_step : Directory → Directory → Prop :=
| Dir_join d sid :
    d !! sid = None → Z.of_nat (size d) < max_sessions →
    directory_step d (<[sid := ∅]> d)
| Dir_publish d sid m id name bind :
    d !! sid = Some m → m !! id = None → (∀ id' e, m !! id' = Some e → e.1 ≠ name) →
    Z.of_nat (size m) < max_services →
    directory_step d (<[sid := <[id := (name, bind)]> m]> d)
| Dir_withdraw d sid m id :
    d !! sid = Some m → is_Some (m !! id) →
    directory_step d (<[sid := delete id m]> d)
| Dir_leave d sid :
    is_Some (d !! sid) → directory_step d (delete sid d).
End specification.

(** One step or none. *)
Definition stutters {A} (R : relation A) (x y : A) : Prop := y = x ∨ R x y.

Lemma stutters_rtc {A} (R : relation A) x y : stutters R x y → rtc R x y.
Proof. intros [->|H]; [apply rtc_refl|by apply rtc_once]. Qed.

(** What the directory shows: the table of addresses and the two totals. *)
Definition shown (d : Directory) : list BindEntry :=
  map_to_list d ≫= fun '(sid, m) => (fun '(id, (_, bind)) => mkBindEntry sid id bind) <$> map_to_list m.

(** ** The implementation's directory *)

(** The address of a service in the bind table. *)
Definition bind_of (sid : SessionId) (id : ServiceId) (binds : list BindEntry) : option EffectiveBind :=
  be_bind <$> head (filter (fun b => be_session b = sid ∧ be_service b = id) binds).

Definition published (sid : SessionId) (binds : list BindEntry) (m : gmap ServiceId ServiceEntry)
    : gmap ServiceId Published :=
  map_imap (fun id e => pair (se_name e) <$> bind_of sid id binds) m.

Definition directory (w : World) : Directory :=
  map_imap (fun sid k => Some (published sid (ctr_binds (counters (w_server w))) (ct_services k))) (w_controls w).

(** ** Lemmas *)

Lemma lookup_directory s ks sid :
  directory (mkWorld s ks) !! sid =
  (fun k => published sid (ctr_binds (counters s)) (ct_services k)) <$> ks !! sid.
Proof. unfold directory. rewrite map_lookup_imap. simpl. by destruct (ks !! sid). Qed.

Lemma lookup_published sid binds m id :
  published sid binds m !! id = (e ← m !! id; pair (se_name e) <$> bind_of sid id binds).
Proof. unfold published. by rewrite map_lookup_imap. Qed.

Lemma bind_of_app_other sid id b l :
  be_session b ≠ sid ∨ be_service b ≠ id → bind_of sid id (l ++ [b]) = bind_of sid id l.
Proof.
  intros Hb. unfold bind_of. rewrite list.filter_app, filter_cons_False by tauto. simpl. by rewrite app_nil_r.
Qed.

Lemma bind_of_none sid id l : ¬ (id ∈ binds_of sid l) → bind_of sid id l = None.
Proof.
  intros Hn. unfold bind_of. rewrite filter_none; [done|]. apply list.Forall_forall. intros b Hb [<- <-]. apply Hn.
  unfold binds_of. apply list_elem_of_fmap_2, list_elem_of_filter. done.
Qed.

Lemma bind_of_app_new sid id bind l :
  ¬ (id ∈ binds_of sid l) → bind_of sid id (l ++ [mkBindEntry sid id bind]) = Some bind.
Proof.
  intros Hn. unfold bind_of. rewrite list.filter_app, filter_cons_True by done.
  pose proof (bind_of_none sid id l Hn) as Hb. unfold bind_of in Hb. by destruct (filter _ l).
Qed.

Lemma bind_of_filter (P : BindEntry → Prop) `{∀ b, Decision (P b)} sid id l :
  (∀ b, be_session b = sid → be_service b = id → P b) → bind_of sid id (filter P l) = bind_of sid id l.
Proof.
  intros HP. unfold bind_of. f_equal. f_equal. induction l as [|b l IH]; [done|].
  destruct (decide (be_session b = sid ∧ be_service b = id)) as [[? ?]|Hn].
  - rewrite (filter_cons_True P) by auto. rewrite !filter_cons_True by done. by rewrite IH.
  - destruct (decide (P b)); [rewrite (filter_cons_True P) by done|rewrite (filter_cons_False P) by done];
      rewrite !(filter_cons_False (fun b => be_session b = sid ∧ be_service b = id)) by done; done.
Qed.

Lemma bind_of_elem sid id l bind : bind_of sid id l = Some bind → mkBindEntry sid id bind ∈ l.
Proof.
  unfold bind_of. destruct (filter _ l) as [|b l'] eqn:E; [done|]. simpl. intros [= <-].
  assert (b ∈ filter (fun b => be_session b = sid ∧ be_service b = id) l) as Hb by (rewrite E; by left).
  apply list_elem_of_filter in Hb as [[<- <-] Hb]. by destruct b.
Qed.

Lemma bind_of_some sid id l : id ∈ binds_of sid l → is_Some (bind_of sid id l).
Proof.
  intros (b & -> & [Hs Hb]%list_elem_of_filter)%list_elem_of_fmap. unfold bind_of.
  destruct (filter (fun b0 => be_session b0 = sid ∧ be_service b0 = be_service b) l) as [|b' l'] eqn:E; [|by eexists].
  exfalso. assert (b ∈ filter (fun b0 => be_session b0 = sid ∧ be_service b0 = be_service b) l) as Hin
    by (by apply list_elem_of_filter).
  rewrite E in Hin. by apply elem_of_nil in Hin.
Qed.

(** *** The arms of a loop *)

Abbreviation binds s := (ctr_binds (counters s)).

(** A refused registration leaves the tables alone. *)
Ltac refused :=
  match goal with |- context [write_registration_response ?w ?id ?code ?k] =>
    pose proof (response_same w id code k) as (_ & ? & _);
    destruct (write_registration_response w id code k); by left
  end.

Lemma register_service_change listen w policy r k s :
  let '(_, k', s') := register_service listen w policy r k s in
  (ct_services k' = ct_services k ∧ binds s' = binds s) ∨
  (∃ tok bind, Z.of_nat (size (ct_services k)) < service_bound policy (ctr_policy (counters s)) ∧
     ct_services k !! rs_service_id r = None ∧ (sn_value (rs_name r) ∉ ct_names k) ∧
     ct_services k' = <[rs_service_id r := mkServiceEntry (rs_name r) tok]> (ct_services k) ∧
     binds s' = binds s ++ [mkBindEntry (ct_session k) (rs_service_id r) bind]).
Proof.
  unfold register_service, service_bound.
  destruct (_ <=? _) eqn:Hfull; [refused|]. destruct (_ || _) eqn:Hk; [refused|]. bools.
  destruct (bind_to_socket _ _) as [addr|e]; [|refused].
  destruct (listen addr) as [[local|]|]; [|refused..].
  match goal with |- context [write_or_return w ?m ?k2] => pose proof (write_or_return_same w m k2) as (_ & Hs & _);
    destruct (write_or_return w m k2) as [f k'] end.
  right. exists (ct_tokens k), (socket_to_effective local). split_and!; try done.
  by apply eq_None_not_Some.
Qed.

Lemma on_incoming_change listen w policy incoming k s :
  let '(_, k', s') := on_incoming listen w policy incoming k s in
  (ct_services k' = ct_services k ∧ binds s' = binds s) ∨
  (∃ id name tok bind, Z.of_nat (size (ct_services k)) < service_bound policy (ctr_policy (counters s)) ∧
     ct_services k !! id = None ∧ (sn_value name ∉ ct_names k) ∧
     ct_services k' = <[id := mkServiceEntry name tok]> (ct_services k) ∧
     binds s' = binds s ++ [mkBindEntry (ct_session k) id bind]) ∨
  (∃ id, is_Some (ct_services k !! id) ∧ ct_services k' = delete id (ct_services k) ∧
     binds s' = filter (fun b => be_session b ≠ ct_session k ∨ be_service b ≠ id) (binds s)).
Proof.
  unfold on_incoming. destruct incoming as [m|e]; [|by left]. destruct m; try by left.
  - pose proof (register_service_change listen w policy v k s) as Hr.
    destruct (register_service _ _ _ _ _ _) as [[f k'] s'].
    destruct Hr as [?|(tok & bind & ?)]; [by left|]. right; left. eauto.
  - unfold unregister_service. destruct (ct_services k !! us_service_id v) as [e|] eqn:E; [|by left].
    right; right. exists (us_service_id v). split_and!; [by eexists|done|].
    cbn [snd]. set (s1 := on_counters _ s).
    by destruct (data_step_view _ _ (S_remove_service s1 (ct_address k) (us_service_id v))) as (-> & _).
  - left. split; [done|]. by destruct (claim_view (ct_address k) (or_connection_id v) s) as (Hb & _).
  - destruct (write_or_return _ _ k) as [f k'] eqn:E. left.
    pose proof (write_or_return_same w (M_Pong (mkPong (ping_nonce v))) k) as (_ & Hs & _). by rewrite E in Hs.
Qed.

(** *** The directory along a step *)

Lemma directory_view s s' ks : binds s' = binds s → directory (mkWorld s' ks) = directory (mkWorld s ks).
Proof. intros Hb. apply map_eq. intros sid. by rewrite !lookup_directory, Hb. Qed.

Lemma directory_control s s' ks sid k k' :
  ks !! sid = Some k → ct_services k' = ct_services k → binds s' = binds s →
  directory (mkWorld s' (<[sid := k']> ks)) = directory (mkWorld s ks).
Proof.
  intros Hk Hs Hb. apply map_eq. intros i. rewrite !lookup_directory, Hb, lookup_insert.
  case_decide as Hi; [|done]. subst i. rewrite Hk. simpl. by rewrite Hs.
Qed.

Lemma directory_end s s' ks sid :
  binds s' = filter (fun b => be_session b ≠ sid) (binds s) →
  directory (mkWorld s' (delete sid ks)) = delete sid (directory (mkWorld s ks)).
Proof.
  intros Hb. apply map_eq. intros i. rewrite lookup_delete, !lookup_directory, lookup_delete.
  case_decide as Hi; [done|]. destruct (ks !! i) as [k|]; [|done]. simpl. f_equal. apply map_eq. intros id.
  rewrite !lookup_published, Hb. destruct (ct_services k !! id); [|done]. simpl. f_equal.
  apply bind_of_filter. congruence.
Qed.

Lemma directory_start s s' ks k :
  binds s' = binds s → ct_services k = ∅ →
  directory (mkWorld s' (<[ct_session k := k]> ks)) = <[ct_session k := ∅]> (directory (mkWorld s ks)).
Proof.
  intros Hb Hs. apply map_eq. intros i. rewrite lookup_insert, !lookup_directory, lookup_insert, Hb.
  case_decide as Hi; [|done]. simpl. rewrite Hs. unfold published. by rewrite map_imap_empty.
Qed.

Lemma directory_publish s s' ks sid k k' id name tok bind :
  ks !! sid = Some k → ct_session k = sid → ¬ (id ∈ binds_of sid (binds s)) →
  ct_services k' = <[id := mkServiceEntry name tok]> (ct_services k) →
  binds s' = binds s ++ [mkBindEntry (ct_session k) id bind] →
  directory (mkWorld s' (<[sid := k']> ks)) =
  <[sid := <[id := (name, bind)]> (published sid (binds s) (ct_services k))]> (directory (mkWorld s ks)).
Proof.
  intros Hk Hsid Hn Hs Hb. rewrite Hsid in Hb. apply map_eq. intros i. rewrite lookup_insert, !lookup_directory, lookup_insert.
  case_decide as Hi.
  - subst i. simpl. f_equal. apply map_eq. intros j. rewrite lookup_insert, !lookup_published, Hs, Hb, lookup_insert.
    case_decide as Hj; [subst j; simpl; by rewrite bind_of_app_new|].
    destruct (ct_services k !! j); [|done]. simpl. f_equal. apply bind_of_app_other. by right.
  - destruct (ks !! i) as [k0|]; [|done]. simpl. f_equal. apply map_eq. intros j. rewrite !lookup_published, Hb.
    destruct (ct_services k0 !! j); [|done]. simpl. f_equal. apply bind_of_app_other. by left.
Qed.

Lemma directory_withdraw s s' ks sid k k' id :
  ks !! sid = Some k → ct_session k = sid → ct_services k' = delete id (ct_services k) →
  binds s' = filter (fun b => be_session b ≠ ct_session k ∨ be_service b ≠ id) (binds s) →
  directory (mkWorld s' (<[sid := k']> ks)) =
  <[sid := delete id (published sid (binds s) (ct_services k))]> (directory (mkWorld s ks)).
Proof.
  intros Hk Hsid Hs Hb. rewrite Hsid in Hb. apply map_eq. intros i. rewrite lookup_insert, !lookup_directory, lookup_insert.
  case_decide as Hi.
  - subst i. simpl. f_equal. apply map_eq. intros j. rewrite lookup_delete, !lookup_published, Hs, Hb, lookup_delete.
    case_decide as Hj; [done|]. destruct (ct_services k !! j); [|done]. simpl. f_equal. apply bind_of_filter. naive_solver.
  - destruct (ks !! i) as [k0|]; [|done]. simpl. f_equal. apply map_eq. intros j. rewrite !lookup_published, Hb.
    destruct (ct_services k0 !! j); [|done]. simpl. f_equal. apply bind_of_filter. naive_solver.
Qed.

(** A handshake leaves the bind table alone, but for a guard that is dropped
    again. *)
Lemma handshake_binds ct_eq io peer token hello now a lim s :
  let h := handshake ct_eq io peer token hello now a lim s in
  binds (hs_server h) = binds s ∨
  (∃ bytes, random_id io = Some bytes ∧ (∃ e, hs_result h = Err e) ∧
     binds (hs_server h) = filter (fun b => be_session b ≠ mkSessionId bytes) (binds s)).
Proof.
  intros h. unfold h, handshake. assert (∀ out lim', binds (hs_server (refuse_peer io peer out lim' s)) = binds s) as Href.
  { intros out lim'. by destruct (refuse_peer_view io peer out lim' s) as (? & _). }
  destruct (negb _); [left; apply Href|]. destruct (write_bounded _ _ _) as [[[]|e] out]; [|by left].
  destruct (read_bounded _) as [m|e]; [|by left].
  destruct m; lazymatch goal with |- context [is_blocked_at] => idtac | _ => left; apply Href end.
  destruct (is_blocked_at _ _ _) as [blocked lim1]. destruct (_ || _); [left; apply Href|].
  unfold establish. destruct (random_id io) as [bytes|] eqn:Er; simpl; [|by left].
  destruct (server_cancelled io); [by left|]. set (s2 := allocate a _ _).
  pose proof (register_view a (mkSessionId bytes) (sessions_limit (limits (ctr_policy (counters s2)))) s2) as (Hr & _).
  destruct (register a _ _ s2) as [[[]|e] s3]; simpl in *.
  - assert (binds s3 = binds s) as Hb by done.
    assert (∀ s4, binds (SessionContext_drop a s4) = binds s4) as Hd by (intros s4; by destruct (context_drop_view a s4)).
    destruct (auth_ok_write io); simpl; [by left|..]; right; exists bytes; (split_and!; [done|by eexists|]);
      rewrite Hd; simpl; by rewrite Hb.
  - left. by destruct (context_drop_view a (on_counters record_saturation s3)) as (-> & _).
Qed.

(** *** Reading the tables of a reachable server *)

Lemma NoDup_fmap_elem {A B} (f : A → B) l x y : NoDup (f <$> l) → x ∈ l → y ∈ l → f x = f y → x = y.
Proof.
  induction l as [|z l IH]; [by intros _ ?%elem_of_nil|]. rewrite fmap_cons, list.NoDup_cons. intros [Hz Hn].
  rewrite !elem_of_cons. intros [->|Hx] [->|Hy] Hf; try done; [..|by apply IH].
  - destruct Hz. rewrite Hf. by apply list_elem_of_fmap_2.
  - destruct Hz. rewrite <-Hf. by apply list_elem_of_fmap_2.
Qed.

Lemma NoDup_groups {A B} `{EqDecision B} (g : A → B) l : (∀ i, NoDup (filter (fun x => g x = i) l)) → NoDup l.
Proof.
  induction l as [|x l IH]; intros Hf; [apply NoDup_nil_2|]. apply list.NoDup_cons. split.
  - intros Hx. specialize (Hf (g x)). rewrite filter_cons_True in Hf by done.
    apply list.NoDup_cons in Hf as [Hn _]. apply Hn. by apply list_elem_of_filter.
  - apply IH. intros i. specialize (Hf i). destruct (decide (g x = i)).
    + rewrite filter_cons_True in Hf by done. by apply list.NoDup_cons in Hf as [_ ?].
    + by rewrite filter_cons_False in Hf.
Qed.

Lemma NoDup_shown (d : Directory) : NoDup (shown d).
Proof.
  unfold shown. pose proof (NoDup_fst_map_to_list d) as Hn. revert Hn. generalize (map_to_list d) as l.
  induction l as [|[sid m] l IH]; intros Hn; [apply NoDup_nil_2|]. simpl in *. apply list.NoDup_cons in Hn as [Hs Hn].
  apply list.NoDup_app. split_and!; [| |by apply IH].
  - apply (NoDup_fmap_1 be_service). rewrite <-list_fmap_compose.
    erewrite list_fmap_ext; [apply (NoDup_fst_map_to_list m)|]. by intros i [id [name bind]] _.
  - intros b ([id [name bind]] & -> & _)%list_elem_of_fmap ([sid' m'] & Hb & Hin)%list_elem_of_bind.
    apply list_elem_of_fmap in Hb as ([id' [name' bind']] & [= <- _ _] & _). apply Hs.
    by apply (list_elem_of_fmap_2 fst) in Hin.
Qed.

Section reachable.
Variables (p : RuntimePolicy) (max : Z) (s : Server) (ks : gmap SessionId Control).
Hypothesis inv : world_inv p max (mkWorld s ks).

Lemma bind_known sid k id : ks !! sid = Some k → id ∈ binds_of sid (binds s) ↔ is_Some (ct_services k !! id).
Proof.
  intros Hk. destruct (wi_control _ _ _ inv _ _ Hk) as (_ & _ & _ & Hb). simpl in Hb. rewrite Hb. unfold service_ids.
  rewrite list_elem_of_fmap. split.
  - intros ([i e] & -> & He%elem_of_map_to_list). by eexists.
  - intros [e He]. exists (id, e). by rewrite elem_of_map_to_list.
Qed.

Lemma dom_published sid k : ks !! sid = Some k → dom (published sid (binds s) (ct_services k)) = dom (ct_services k).
Proof.
  intros Hk. apply set_eq. intros id. rewrite !elem_of_dom, lookup_published. split.
  - destruct (ct_services k !! id) as [e|] eqn:E; [by eexists|]. by intros [? ?].
  - intros He. pose proof He as [e E]. rewrite E. simpl. apply fmap_is_Some, bind_of_some. by apply (bind_known sid k).
Qed.

Lemma published_name sid k id e : published sid (binds s) (ct_services k) !! id = Some e →
  ∃ entry, ct_services k !! id = Some entry ∧ se_name entry = e.1.
Proof.
  rewrite lookup_published. destruct (ct_services k !! id) as [entry|]; [|done]. simpl.
  intros (b & _ & ->)%fmap_Some. by exists entry.
Qed.

Lemma dom_directory : dom (directory (mkWorld s ks)) = dom ks.
Proof. apply set_eq. intros sid. by rewrite !elem_of_dom, lookup_directory, fmap_is_Some. Qed.

Lemma unused_binds sid : ks !! sid = None → filter (fun b => be_session b ≠ sid) (binds s) = binds s.
Proof.
  intros Hn. apply filter_all, list.Forall_forall. intros b [k Hb]%(wi_owner _ _ _ inv) Hs. simpl in Hb. congruence.
Qed.

(** The keys of the table are unique. *)
Lemma bind_unique b b' :
  b ∈ binds s → b' ∈ binds s → be_session b = be_session b' → be_service b = be_service b' → b = b'.
Proof.
  intros Hb Hb' Hs Hv. destruct (wi_owner _ _ _ inv _ Hb) as [k Hk]. simpl in Hk.
  destruct (wi_control _ _ _ inv _ _ Hk) as (_ & _ & _ & Hp). simpl in Hp.
  assert (NoDup (binds_of (be_session b) (binds s))) as Hn by (rewrite Hp; apply NoDup_fst_map_to_list).
  unfold binds_of in Hn. apply (NoDup_fmap_elem be_service (filter (fun b0 => be_session b0 = be_session b) (binds s))); try done.
  - by apply list_elem_of_filter.
  - by apply list_elem_of_filter.
Qed.

Lemma binds_NoDup : NoDup (binds s).
Proof.
  apply (NoDup_groups be_session). intros sid. destruct (ks !! sid) as [k|] eqn:Hk.
  - destruct (wi_control _ _ _ inv _ _ Hk) as (_ & _ & _ & Hp). simpl in Hp. apply (NoDup_fmap_1 be_service).
    change (NoDup (binds_of sid (binds s))). rewrite Hp. apply NoDup_fst_map_to_list.
  - rewrite filter_none; [apply NoDup_nil_2|]. apply list.Forall_forall. intros b [k Hb]%(wi_owner _ _ _ inv) Hs.
    simpl in Hb. congruence.
Qed.

(** The bind table is what the directory shows. *)
Lemma elem_of_shown d b :
  b ∈ shown d ↔ ∃ m name, d !! be_session b = Some m ∧ m !! be_service b = Some (name, be_bind b).
Proof.
  unfold shown. rewrite list_elem_of_bind. split.
  - intros ([sid m] & Hb & Hd%elem_of_map_to_list). apply list_elem_of_fmap in Hb as ([id [name bind]] & -> & Hm%elem_of_map_to_list).
    simpl. eauto.
  - intros (m & name & Hd & Hm). exists (be_session b, m). split; [|by apply elem_of_map_to_list].
    apply list_elem_of_fmap. exists (be_service b, (name, be_bind b)). split; [by destruct b|by apply elem_of_map_to_list].
Qed.

Lemma shown_directory : shown (directory (mkWorld s ks)) ≡ₚ binds s.
Proof.
  apply NoDup_Permutation; [apply NoDup_shown|apply binds_NoDup|]. intros b. rewrite elem_of_shown. split.
  - intros (m & name & Hd & Hm). rewrite lookup_directory in Hd. apply fmap_Some in Hd as (k & Hk & ->).
    rewrite lookup_published in Hm. destruct (ct_services k !! be_service b); [|done]. simpl in Hm.
    apply fmap_Some in Hm as (bind & Hbind%bind_of_elem & [= _ Eb]). rewrite <-Eb in Hbind. by destruct b.
  - intros Hb. destruct (wi_owner _ _ _ inv _ Hb) as [k Hk]. simpl in Hk.
    assert (be_service b ∈ binds_of (be_session b) (binds s)) as Hin
      by (apply list_elem_of_fmap_2; by apply list_elem_of_filter).
    destruct (bind_of_some _ _ _ Hin) as [bind Hbind]. pose proof (bind_of_elem _ _ _ _ Hbind) as Hb'.
    assert (be_bind b = bind) as Eb by exact (f_equal be_bind (bind_unique b _ Hb Hb' eq_refl eq_refl)).
    apply (bind_known _ k) in Hin as [e He]; [|done].
    exists (published (be_session b) (binds s) (ct_services k)), (se_name e). rewrite Eb.
    rewrite lookup_directory, Hk. split; [done|]. by rewrite lookup_published, He; simpl; rewrite Hbind.
Qed.
End reachable.

(** *** Every step *)

Lemma arm_step_directory policy p n w w' :
  arm_step policy w w' → world_inv p (service_bound policy p) w →
  stutters (directory_step n (service_bound policy p)) (directory w) (directory w').
Proof.
  destruct 1 as [s ks listen w0 incoming sid k f k' s' Hk Hs
    |s ks w0 m sid k Hk|s ks sid k Hk|s ks sid k i r k' s' Hk Hs|s ks sid k Hk|s ks sid k e Hk|s ks a Ha|s ks s' Hd];
    intros Hi.
  - pose proof (on_incoming_change listen w0 policy incoming k s) as Hc. rewrite Hs in Hc.
    destruct (wi_control _ _ _ Hi _ _ Hk) as (Hsid & [Hnames _] & _ & _).
    assert (directory (mkWorld s ks) !! sid = Some (published sid (binds s) (ct_services k))) as Hd
      by (by rewrite lookup_directory, Hk).
    destruct Hc as [[Hv Hb]|[(id & name & tok & bind & Hsz & Hn & Hnm & Hv & Hb)|(id & He & Hv & Hb)]].
    + rewrite (directory_control s s' ks sid k k') by done. by left.
    + assert (¬ (id ∈ binds_of sid (binds s))) as Hnb by (rewrite (bind_known _ _ _ _ Hi sid k) by done; rewrite Hn; by intros [? ?]).
      rewrite (directory_publish s s' ks sid k k' id name tok bind) by done. right.
      apply Dir_publish; [done|by rewrite lookup_published, Hn| |].
      * intros id' e' He'. apply published_name in He' as (entry & He' & <-). intros Heq. apply Hnm, Hnames.
        exists id', entry. by rewrite Heq.
      * rewrite <-size_dom, (dom_published _ _ _ _ Hi sid k), size_dom by done.
        pose proof (wi_policy _ _ _ Hi) as Hp. simpl in Hp. by rewrite Hp in Hsz.
    + rewrite (directory_withdraw s s' ks sid k k' id) by done. right.
      apply Dir_withdraw; [done|]. by rewrite <-elem_of_dom, (dom_published _ _ _ _ Hi sid k), elem_of_dom.
  - pose proof (write_or_return_same w0 m k) as (_ & Hv & _).
    rewrite (directory_control s s ks sid k); [by left|done| |done]. unfold on_queued.
    by destruct (write_or_return w0 m k) as [[] k1].
  - rewrite (directory_control s s ks sid k); [by left|done..].
  - injection Hs as <- <-. rewrite (directory_control s _ ks sid k); [by left|done|done|by destruct r].
  - destruct (wi_control _ _ _ Hi _ _ Hk) as (Hsid & _). rewrite (directory_end s).
    + right; apply Dir_leave. by rewrite lookup_directory, Hk.
    + simpl. rewrite Hsid. by destruct (data_step_view _ _ (S_remove_all s (ct_address k))) as (-> & _).
  - destruct (wi_control _ _ _ Hi _ _ Hk) as (Hsid & _). rewrite (directory_end s).
    + right; apply Dir_leave. by rewrite lookup_directory, Hk.
    + simpl. by rewrite Hsid.
  - rewrite (directory_view s (SessionContext_drop a s)); [by left|]. by destruct (context_drop_view a s) as (-> & _).
  - rewrite (directory_view s s'); [by left|]. by destruct (data_step_view _ _ Hd) as (-> & _).
Qed.

Lemma world_step_directory policy p w w' :
  world_step policy w w' → world_inv p (service_bound policy p) w → registry_inv w →
  stutters (directory_step (sessions_limit (limits p)) (service_bound policy p)) (directory w) (directory w').
Proof.
  destruct 1 as [s ks ct_eq io peer token hello now a lim k h Hh Hr Hk Ha
    |s ks ct_eq io peer token hello now a lim e h Hh Hr Hf Ha|w w' Hs]; intros Hi Hreg; [..|by apply arm_step_directory].
  - pose proof (handshake_registry ct_eq io peer token hello now a lim s Ha (registry_alive _ Hreg)) as Hh1.
    pose proof (handshake_binds ct_eq io peer token hello now a lim s) as Hh2.
    unfold registers in Hh1. rewrite Hh in Hh1, Hh2. cbv zeta in Hh2. rewrite Hr in Hh1, Hh2.
    destruct Hh1 as (x & _ & _ & _ & _ & _ & _ & _ & Hlt).
    destruct Hh2 as [Hb|(bytes & _ & [e He] & _)]; [|done].
    rewrite <-Hh in Hr. apply handshake_tables in Hr as (Hserv & _).
    rewrite (directory_start s) by done. right; apply Dir_join; [by rewrite lookup_directory, Hk|].
    pose proof (wi_policy _ _ _ Hi) as Hp. simpl in Hp. rewrite Hp in Hlt. rewrite <-size_dom, dom_directory, size_dom.
    pose proof (registry_dom _ Hreg) as Hd. simpl in Hd. by rewrite <-(size_dom ks), Hd, size_dom.
  - pose proof (handshake_binds ct_eq io peer token hello now a lim s) as Hh2. rewrite Hh in Hh2. cbv zeta in Hh2.
    rewrite (directory_view s (hs_server h)); [by left|]. destruct Hh2 as [Hb|(bytes & Hrand & _ & Hb)]; [done|].
    rewrite Hb. apply (unused_binds _ _ _ _ Hi). by apply Hf.
Qed.

(** ** Properties *)

(** C6. The server implements the directory.  Along every run of a server,
    every step of the implementation (a handshake that succeeds or fails, any
    arm of any control loop, the end of a Session, a step of a data task) is
    one step of the directory or none, starting from the empty one: a Session
    joins only below the ceiling on Sessions, and a service is published only
    in a Session, below the ceiling on services, under an identifier and a
    name the Session does not use yet.  And what a [Snapshot] reports is the
    directory: the table of effective binds lists exactly its services with
    their addresses, and the gauges of Sessions and services are its sizes. *)
Theorem server_refines_directory policy p w :
  rtc (world_step policy) (idle_world p) w →
  let d := directory w in
  let step := directory_step (sessions_limit (limits p)) (service_bound policy p) in
  rtc step ∅ d ∧
  (∀ w', world_step policy w w' → stutters step d (directory w')) ∧
  ctr_binds (counters (w_server w)) ≡ₚ shown d ∧
  load n_sessions (counters (w_server w)) = wrap 64 (Z.of_nat (size d)) ∧
  load n_services (counters (w_server w)) = wrap 64 (len (shown d)).
Proof.
  intros Hr d step. destruct (world_reachable _ _ _ Hr) as [Hi _].
  assert (∀ w', world_step policy w w' → stutters step d (directory w')) as Hstep.
  { intros w' Hs. apply world_step_directory; [done..|]. by eapply world_registry. }
  destruct w as [s ks]. pose proof (shown_directory _ _ _ _ Hi) as Hsh. split_and!; [|done|by symmetry|..].
  - clear Hstep Hsh. unfold d. clear d Hi. revert Hr. generalize (mkWorld s ks). intros w Hr.
    refine (rtc_ind_r (fun w => rtc (world_step policy) (idle_world p) w → rtc step ∅ (directory w)) _ _ _ _ Hr Hr).
    + intros _. unfold directory. simpl. rewrite map_imap_empty. apply rtc_refl.
    + intros w1 w2 Hr1 Hs IH _. destruct (world_reachable _ _ _ Hr1) as [Hi1 _].
      etransitivity; [by apply IH|]. apply stutters_rtc, world_step_directory; [done..|]. by eapply world_registry.
  - rewrite (wi_sessions _ _ _ Hi). unfold d. by rewrite <-(size_dom (directory _)), dom_directory, size_dom.
  - rewrite (wi_services _ _ _ Hi). unfold len, d. by rewrite Hsh.
Qed.

(** ** Witness: one Session with one service *)

Lemma server_refines_directory_witness :
  size (directory sample_world) = 1%nat ∧ load n_services (counters (w_server sample_world)) = 1 ∧
  ctr_binds (counters (w_server sample_world)) ≡ₚ shown (directory sample_world).
Proof.
  destruct (server_refines_directory BindPolicy_default RuntimePolicy_default sample_world sample_world_reachable)
    as (_ & _ & H1 & _ & H2).
  split; [vm_compute; reflexivity|]. split; [rewrite H2; vm_compute; reflexivity|exact H1].
Defined.
