(* ===== verification/Relay.v ===== *)
(** * External connections and their relay tasks

    [run_service] of crates/eggtunnel/src/server/service.rs, for any number of
    services and Sessions at once: an accepted connection from its permit to
    the end of its relay task, beside the other critical sections of [Session]
    on the same tables.  A relay is known by the channel its data stream is
    sent on; a task holds an [Arc] of its Session's context. *)

From S2P Require Import Prelude Text Proto Common Session.

(** [Opening]: the accept arm holds the permit and has recorded the pending
    entry.  [Waiting]: the task runs and waits for its data stream.
    [Relaying]: it has it. *)
Inductive Phase := Opening | Waiting | Relaying.

#[export] Instance Phase_eq_dec : EqDecision Phase.
Proof. solve_decision. Defined.

Record Relay := mkRelay
  { rl_address : Address; rl_service : ServiceId; rl_connection : ConnectionId; rl_phase : Phase }.

Definition set_phase p (r : Relay) : Relay := mkRelay (rl_address r) (rl_service r) (rl_connection r) p.

Record Relays := mkRelays { rw_server : Server; rw_relays : gmap nat Relay; rw_next : nat }.

Definition on_server (f : Server → Server) (w : Relays) : Relays :=
  mkRelays (f (rw_server w)) (rw_relays w) (rw_next w).

Definition relays_new (p : RuntimePolicy) : Relays := mkRelays (new_session_registry p) ∅ 0.

(** The accept arm up to the pending entry; every channel is new. *)
Definition on_external (a : Address) (service : ServiceId) (fill : option (list byte)) (now : Z) (w : Relays)
    : Relays :=
  let tx := rw_next w in
  match accept_external a service fill now tx (rw_server w) with
  | (Offered connection, s) => mkRelays s (<[tx := mkRelay a service connection Opening]> (rw_relays w)) (S tx)
  | (_, s) => mkRelays s (rw_relays w) (S tx)
  end.

(** [opens.try_send] succeeds: the guard takes the permit, the task is
    spawned. *)
Definition opened (tx : nat) (r : Relay) (w : Relays) : Relays :=
  mkRelays (on_counters ActiveConnectionGuard_new (rw_server w)) (<[tx := set_phase Waiting r]> (rw_relays w))
    (rw_next w).

(** [opens.try_send] fails. *)
Definition open_failed (tx : nat) (r : Relay) (w : Relays) : Relays :=
  mkRelays (offer_failed (rl_address r) (rl_connection r) (rw_server w)) (delete tx (rw_relays w)) (rw_next w).

(** The task ends and its guard is dropped. *)
Definition relay_ended (tx : nat) (r : Relay) (w : Relays) : Relays :=
  mkRelays (ActiveConnectionGuard_drop (rl_address r) (rw_server w)) (delete tx (rw_relays w)) (rw_next w).

(** The wait ends, with a data stream or without; the entry is removed if it
    is still there. *)
Definition wait_ended (tx : nat) (r : Relay) (data : bool) (w : Relays) : Relays :=
  let w1 := on_server (relay_resolved (rl_address r) (rl_connection r) None) w in
  if data then mkRelays (rw_server w1) (<[tx := set_phase Relaying r]> (rw_relays w1)) (rw_next w1)
  else relay_ended tx r w1.

(** The relay reports what it moved, clean or not. *)
Definition relay_reported (tx : nat) (r : Relay) (up down : Z) (w : Relays) : Relays :=
  relay_ended tx r
    (on_server (on_counters (fun c => fetch_add n_bytes_downstream down (fetch_add n_bytes_upstream up c))) w).

(** [relays.abort_all()], or the listener's own task is aborted: what the task
    owns is dropped, the pending entry stays for [remove_service_pending]. *)
Definition aborted (tx : nat) (r : Relay) (w : Relays) : Relays :=
  match rl_phase r with
  | Opening =>
      mkRelays (on_context (rl_address r) (fun x => set_sc_permits (sc_permits x + 1) x) (rw_server w))
        (delete tx (rw_relays w)) (rw_next w)
  | _ => relay_ended tx r w
  end.

(** Sending on a oneshot fails once its receiver is gone. *)
Definition receiver_gone (w : Relays) (tx : nat) : bool :=
  match rw_relays w !! tx with
  | Some r => match rl_phase r with Relaying => true | _ => false end
  | None => true
  end.

(** The steps of the relays, and of the tasks that share their tables.  A
    context is dropped only when no task holds it. *)
Inductive relay_step : Relays → Relays → Prop :=
| R_external w a service fill now : relay_step w (on_external a service fill now w)
| R_opened w tx r : rw_relays w !! tx = Some r → rl_phase r = Opening → relay_step w (opened tx r w)
| R_open_failed w tx r : rw_relays w !! tx = Some r → rl_phase r = Opening → relay_step w (open_failed tx r w)
| R_wait_ended w tx r data :
    rw_relays w !! tx = Some r → rl_phase r = Waiting → relay_step w (wait_ended tx r data w)
| R_reported w tx r up down :
    rw_relays w !! tx = Some r → rl_phase r = Relaying → relay_step w (relay_reported tx r up down w)
| R_aborted w tx r : rw_relays w !! tx = Some r → relay_step w (aborted tx r w)
| R_hello w now hello p :
    relay_step w (on_server (fun s => (accept_data_hello (receiver_gone w) now hello p s).2) w)
| R_reject w a c : relay_step w (on_server (fun s => (claim a c s).2) w)
| R_remove_service w a service : relay_step w (on_server (remove_service_pending a service) w)
| R_remove_all w a : relay_step w (on_server (remove_all_pending a) w)
| R_allocate w a id p :
    heap (rw_server w) !! a = None →
    relay_step w (on_server (fun s => allocate a (new_context id p (counters s)) s) w)
| R_register w a id mx : relay_step w (on_server (fun s => (register a id mx s).2) w)
| R_guard_new w : relay_step w (on_server SessionGuard_new w)
| R_guard_drop w a id : relay_step w (on_server (SessionGuard_drop a id) w)
| R_context_drop w a :
    (∀ tx r, rw_relays w !! tx = Some r → rl_address r ≠ a) →
    relay_step w (on_server (SessionContext_drop a) w).

(** ** Counting tasks *)

Definition count (P : Relay → bool) (m : gmap nat Relay) : Z :=
  Z.of_nat (size (filter (fun kv => P kv.2 = true) m)).

Lemma count_delete P m tx r :
  m !! tx = Some r → count P (delete tx m) = count P m - (if P r then 1 else 0).
Proof.
  intros Hr. unfold count. rewrite map_filter_delete. destruct (P r) eqn:HP.
  - assert (filter (fun kv => P kv.2 = true) m !! tx = Some r) as Hf by (by apply map_lookup_filter_Some).
    rewrite map_size_delete, Hf. pose proof (map_size_ne_0_lookup_2 _ tx (mk_is_Some _ _ Hf)). lia.
  - rewrite delete_id; [lia|]. apply map_lookup_filter_None. right. intros ? ?. simplify_eq. simpl. by rewrite HP.
Qed.

Lemma count_insert P m tx r :
  m !! tx = None → count P (<[tx := r]> m) = count P m + (if P r then 1 else 0).
Proof.
  intros Hr. unfold count. destruct (P r) eqn:HP.
  - rewrite map_filter_insert_True by done. rewrite map_size_insert_None; [lia|].
    apply map_lookup_filter_None. by left.
  - rewrite map_filter_insert_not' by (simpl; naive_solver congruence). lia.
Qed.

Lemma count_update P m tx r r' :
  m !! tx = Some r → count P (<[tx := r']> m) = count P m - (if P r then 1 else 0) + (if P r' then 1 else 0).
Proof.
  intros Hr. rewrite <-insert_delete_eq, count_insert by apply lookup_delete_eq. by rewrite (count_delete P m tx r).
Qed.

Lemma count_none P m : (∀ tx r, m !! tx = Some r → P r = false) → count P m = 0.
Proof.
  intros HP. unfold count. replace (filter _ m) with (∅ : gmap nat Relay); [done|].
  symmetry. apply map_empty. intros tx. apply map_lookup_filter_None. right. intros r Hr. simpl.
  by rewrite (HP _ _ Hr).
Qed.

Lemma count_nonneg P m : 0 <= count P m.
Proof. unfold count. lia. Qed.

(** The tasks of one Session, which hold a permit each, and the tasks that are
    counted by the gauge. *)
Definition at_address (a : Address) (r : Relay) : bool := bool_decide (rl_address r = a).
Definition guarded (r : Relay) : bool := bool_decide (rl_phase r ≠ Opening).

(** ** The invariant *)

Definition pending_at (s : Server) (a : Address) (c : ConnectionId) : option PendingEntry :=
  heap s !! a ≫= fun x => sc_pending x !! c.

Abbreviation active s := (load n_active_connections (counters s)).
Abbreviation ceiling s := (active_connections_per_session (limits (ctr_policy (counters s)))).

Record relays_inv (limit : Z) (w : Relays) : Prop :=
  { ri_policy : ceiling (rw_server w) = limit;
    ri_permits a x : heap (rw_server w) !! a = Some x →
      0 <= sc_permits x ∧ sc_permits x + count (at_address a) (rw_relays w) = limit;
    ri_alive tx r : rw_relays w !! tx = Some r → is_Some (heap (rw_server w) !! rl_address r);
    ri_gauge : active (rw_server w) = wrap 64 (count guarded (rw_relays w));
    ri_next tx r : rw_relays w !! tx = Some r → (tx < rw_next w)%nat;
    ri_pending a c e : pending_at (rw_server w) a c = Some e → (pe_data_tx e < rw_next w)%nat;
    ri_link a c e r : pending_at (rw_server w) a c = Some e → rw_relays w !! pe_data_tx e = Some r →
      rl_address r = a ∧ rl_service r = pe_service_id e ∧ rl_connection r = c ∧ rl_phase r ≠ Relaying }.

(** Steps that take no permit and add no entry. *)
Record shrinks (s s' : Server) : Prop :=
  { sh_permits a : sc_permits <$> heap s' !! a = sc_permits <$> heap s !! a;
    sh_pending a c e : pending_at s' a c = Some e → pending_at s a c = Some e;
    sh_active : active s' = active s;
    sh_policy : ctr_policy (counters s') = ctr_policy (counters s) }.

Lemma shrinks_refl s : shrinks s s.
Proof. done. Qed.

Lemma shrinks_trans s1 s2 s3 : shrinks s1 s2 → shrinks s2 s3 → shrinks s1 s3.
Proof.
  intros [Hp Hd Ha Hc] [Hp' Hd' Ha' Hc']. split; [|auto|congruence..]. intros a. by rewrite Hp', Hp.
Qed.

Lemma shrinks_counters s f :
  (∀ c, load n_active_connections (f c) = load n_active_connections c) → (∀ c, ctr_policy (f c) = ctr_policy c) →
  shrinks s (on_counters f s).
Proof. intros Ha Hp. split; [done|done|apply Ha|apply Hp]. Qed.

Lemma shrinks_context s a f :
  (∀ x, sc_permits (f x) = sc_permits x) →
  (∀ x c e, heap s !! a = Some x → sc_pending (f x) !! c = Some e → sc_pending x !! c = Some e) →
  shrinks s (on_context a f s).
Proof.
  intros Hp Hd. split; try done.
  - intros b. simpl. rewrite lookup_alter. case_decide; [|done]. subst. destruct (heap s !! b); simpl; [|done].
    by rewrite Hp.
  - intros b c e. unfold pending_at. simpl. rewrite lookup_alter. case_decide; [|done]. subst.
    destruct (heap s !! b) as [x|] eqn:E; simpl; [|done]. by apply Hd.
Qed.

Lemma shrinks_entries s e : shrinks s (set_entries e s).
Proof. done. Qed.

Create HintDb shrinks.
#[export] Hint Resolve shrinks_refl shrinks_entries : shrinks.

Lemma claim_shrinks a c s : shrinks s (claim a c s).2.
Proof.
  unfold claim. destruct (_ ≫= _); [|auto with shrinks]. eapply shrinks_trans; [|by apply shrinks_counters].
  apply shrinks_context; [done|]. intros x c' e _. simpl. intros [_ ?]%lookup_delete_Some. done.
Qed.

Lemma hello_shrinks closed now hello p s : shrinks s (accept_data_hello closed now hello p s).2.
Proof.
  unfold accept_data_hello. destruct (_ ≫= _) as [[a x]|]; [|by apply shrinks_counters].
  destruct (negb _); [by apply shrinks_counters|]. pose proof (claim_shrinks a (dh_connection_id hello) s) as Hc.
  destruct (claim a (dh_connection_id hello) s) as [[e|] s1]; simpl in *.
  - destruct (_ || _); [|by destruct (closed _)]. eapply shrinks_trans; [done|by apply shrinks_counters].
  - eapply shrinks_trans; [done|by apply shrinks_counters].
Qed.

Lemma remove_service_shrinks a service s : shrinks s (remove_service_pending a service s).
Proof.
  unfold remove_service_pending. destruct (heap s !! a) as [x|] eqn:Hx; [|auto with shrinks].
  eapply shrinks_trans; [|by apply shrinks_counters]. apply shrinks_context; [done|].
  intros y c e Hy. simplify_eq. simpl. by intros [? _]%map_lookup_filter_Some.
Qed.

Lemma remove_all_shrinks a s : shrinks s (remove_all_pending a s).
Proof.
  unfold remove_all_pending. destruct (heap s !! a); [|auto with shrinks].
  eapply shrinks_trans; [|by apply shrinks_counters]. apply shrinks_context; [done|]. intros y c e _. simpl.
  by rewrite lookup_empty.
Qed.

Lemma register_shrinks a id mx s : shrinks s (register a id mx s).2.
Proof. unfold register. case_match; apply shrinks_entries. Qed.

Lemma guard_drop_shrinks a id s : shrinks s (SessionGuard_drop a id s).
Proof.
  unfold SessionGuard_drop. eapply shrinks_trans; [|apply shrinks_entries].
  eapply shrinks_trans; [|by apply shrinks_counters]. eapply shrinks_trans; [|by apply shrinks_counters].
  by apply shrinks_context.
Qed.
#[export] Hint Resolve claim_shrinks hello_shrinks remove_service_shrinks remove_all_shrinks register_shrinks
  guard_drop_shrinks : shrinks.

Lemma shrinks_inv limit w s : relays_inv limit w → shrinks (rw_server w) s → relays_inv limit (on_server (fun _ => s) w).
Proof.
  intros [Hl Hp Ha Hg Hn Hd Hk] [Sp Sd Sa Sc]. split; simpl; try done.
  - by rewrite Sc.
  - intros a x Hx. specialize (Sp a). rewrite Hx in Sp. simpl in Sp. symmetry in Sp.
    apply fmap_Some in Sp as (y & Hy & ->). by apply Hp.
  - intros tx r Hr. specialize (Sp (rl_address r)). destruct (Ha _ _ Hr) as [x Hx]. rewrite Hx in Sp.
    apply fmap_Some in Sp as (y & Hy & _). eauto.
  - by rewrite Sa.
  - intros a c e He. by eapply Hd, Sd.
  - intros a c e r He. by eapply Hk, Sd.
Qed.

(** ** Every step keeps the invariant *)

Lemma guarded_opening r : rl_phase r = Opening → guarded r = false.
Proof. intros Hr. unfold guarded. by rewrite Hr. Qed.
Lemma guarded_task r : rl_phase r ≠ Opening → guarded r = true.
Proof. apply bool_decide_true. Qed.

Definition permit_back (x : SessionContext) : SessionContext := set_sc_permits (sc_permits x + 1) x.

Lemma pending_permits s a f b c :
  (∀ x, sc_pending (f x) = sc_pending x) → pending_at (on_context a f s) b c = pending_at s b c.
Proof.
  intros Hf. unfold pending_at. simpl. rewrite lookup_alter. case_decide; [|done]. subst.
  destruct (heap s !! b); simpl; [|done]. by rewrite Hf.
Qed.

(** A task ends: its permit goes back, and the gauge fits the tasks left. *)
Lemma release_inv limit w tx r f :
  relays_inv limit w → rw_relays w !! tx = Some r →
  ctr_policy (f (counters (rw_server w))) = ctr_policy (counters (rw_server w)) →
  load n_active_connections (f (counters (rw_server w))) = wrap 64 (count guarded (delete tx (rw_relays w))) →
  relays_inv limit
    (mkRelays (on_context (rl_address r) permit_back (on_counters f (rw_server w))) (delete tx (rw_relays w))
       (rw_next w)).
Proof.
  intros [Hl Hp Ha Hg Hn Hd Hk] Hr Hpol Hact. split; simpl.
  - by rewrite Hpol.
  - intros a x. rewrite (count_delete _ _ _ _ Hr), lookup_alter. unfold at_address at 2. case_decide as Heq.
    + subst. rewrite bool_decide_true by done. destruct (heap (rw_server w) !! rl_address r) as [y|] eqn:Hy; [|done].
      intros [= <-]. simpl. destruct (Hp _ _ Hy). lia.
    + rewrite bool_decide_false by done. intros Hx. destruct (Hp _ _ Hx). lia.
  - intros tx' r' [_ Hr']%lookup_delete_Some. rewrite lookup_alter.
    case_decide; [apply fmap_is_Some|]; by eapply Ha.
  - done.
  - intros tx' r' [_ Hr']%lookup_delete_Some. by eapply Hn.
  - intros a c e. rewrite pending_permits by done. apply Hd.
  - intros a c e r'. rewrite pending_permits by done. intros He [_ Hr']%lookup_delete_Some. by eapply Hk.
Qed.

Lemma relay_ended_inv limit w tx r :
  relays_inv limit w → rw_relays w !! tx = Some r → rl_phase r ≠ Opening → relays_inv limit (relay_ended tx r w).
Proof.
  intros Hi Hr Hph. apply (release_inv limit w tx r (fetch_sub n_active_connections 1)); try done.
  unfold fetch_sub. rewrite load_store_eq, (ri_gauge _ _ Hi), wrap_sub, (count_delete _ _ _ _ Hr).
  by rewrite guarded_task.
Qed.

Lemma unguarded_count limit w tx r :
  relays_inv limit w → rw_relays w !! tx = Some r → rl_phase r = Opening →
  active (rw_server w) = wrap 64 (count guarded (delete tx (rw_relays w))).
Proof.
  intros Hi Hr Hph. rewrite (ri_gauge _ _ Hi), (count_delete _ _ _ _ Hr).
  rewrite guarded_opening by done. f_equal. lia.
Qed.

Lemma open_failed_inv limit w tx r :
  relays_inv limit w → rw_relays w !! tx = Some r → rl_phase r = Opening → relays_inv limit (open_failed tx r w).
Proof.
  intros Hi Hr Hph.
  pose proof (shrinks_inv _ _ _ Hi (claim_shrinks (rl_address r) (rl_connection r) (rw_server w))) as Hc.
  apply (release_inv limit _ tx r (fetch_add n_rejected 1) Hc Hr); [done|].
  unfold fetch_add. rewrite load_store_ne by done. by apply (unguarded_count limit _ tx r Hc).
Qed.

Lemma aborted_inv limit w tx r :
  relays_inv limit w → rw_relays w !! tx = Some r → relays_inv limit (aborted tx r w).
Proof.
  intros Hi Hr. unfold aborted. destruct (rl_phase r) eqn:Hph; [|apply relay_ended_inv; try done; by rewrite Hph..].
  pose proof (unguarded_count _ _ _ _ Hi Hr Hph) as Hg.
  pose proof (release_inv limit w tx r (fun c => c) Hi Hr eq_refl Hg) as Hrel.
  by destruct w as [[]].
Qed.

(** A task moves on: it keeps its permit. *)
Lemma phase_inv limit w tx r p f :
  relays_inv limit w → rw_relays w !! tx = Some r →
  ctr_policy (f (counters (rw_server w))) = ctr_policy (counters (rw_server w)) →
  load n_active_connections (f (counters (rw_server w))) =
    wrap 64 (count guarded (<[tx := set_phase p r]> (rw_relays w))) →
  (p = Relaying → pending_at (rw_server w) (rl_address r) (rl_connection r) = None) →
  relays_inv limit (mkRelays (on_counters f (rw_server w)) (<[tx := set_phase p r]> (rw_relays w)) (rw_next w)).
Proof.
  intros [Hl Hp Ha Hg Hn Hd Hk] Hr Hpol Hact Hnone. split; simpl.
  - by rewrite Hpol.
  - intros a x Hx. rewrite (count_update _ _ _ _ _ Hr). unfold at_address at 2 3. simpl. destruct (Hp _ _ Hx). lia.
  - intros tx' r' [[<- <-]|[_ ?]]%lookup_insert_Some; [by apply (Ha _ _ Hr)|by eapply Ha].
  - done.
  - intros tx' r' [[<- <-]|[_ ?]]%lookup_insert_Some; by eapply Hn.
  - done.
  - intros a c e r' He [[Heq <-]|[_ ?]]%lookup_insert_Some; [|by eapply Hk]. rewrite Heq in Hr.
    destruct (Hk _ _ _ _ He Hr) as (Hea & ? & Hec & _). simpl. split_and!; try done. intros Hrel.
    specialize (Hnone Hrel). rewrite Hea, Hec in Hnone. change (pending_at (rw_server w) a c = Some e) in He.
    congruence.
Qed.

Lemma opened_inv limit w tx r :
  relays_inv limit w → rw_relays w !! tx = Some r → rl_phase r = Opening → relays_inv limit (opened tx r w).
Proof.
  intros Hi Hr Hph. apply phase_inv; try done. rewrite (count_update _ _ _ _ _ Hr).
  unfold ActiveConnectionGuard_new. rewrite raise_gauge by done. rewrite (ri_gauge _ _ Hi), wrap_add.
  rewrite (guarded_opening r), guarded_task by done. f_equal. lia.
Qed.

Lemma claim_gone a c s : pending_at (claim a c s).2 a c = None.
Proof.
  unfold claim. fold (pending_at s a c). destruct (pending_at s a c) as [e|] eqn:E; simpl; [|done].
  unfold pending_at. simpl. rewrite lookup_alter_eq. destruct (heap s !! a); simpl; [|done]. apply lookup_delete_eq.
Qed.

Lemma wait_ended_inv limit w tx r data :
  relays_inv limit w → rw_relays w !! tx = Some r → rl_phase r = Waiting → relays_inv limit (wait_ended tx r data w).
Proof.
  intros Hi Hr Hph. unfold wait_ended.
  pose proof (shrinks_inv _ _ _ Hi (claim_shrinks (rl_address r) (rl_connection r) (rw_server w))) as Hc.
  destruct data; [|apply (relay_ended_inv limit _ tx r Hc Hr); by rewrite Hph].
  pose proof (phase_inv limit _ tx r Relaying (fun c => c) Hc Hr eq_refl) as Hrel. simpl in Hrel.
  unfold relay_resolved. destruct ((claim (rl_address r) (rl_connection r) (rw_server w)).2) as [h en cs] eqn:E.
  simpl. rewrite E. apply Hrel.
  - rewrite (count_update _ _ _ _ _ Hr). rewrite !guarded_task by (simpl; congruence).
    pose proof (ri_gauge _ _ Hc) as Hg. cbn [on_server rw_server rw_relays counters] in *. rewrite Hg. f_equal. lia.
  - intros _. rewrite <-E. apply claim_gone.
Qed.

Lemma reported_inv limit w tx r up down :
  relays_inv limit w → rw_relays w !! tx = Some r → rl_phase r = Relaying →
  relays_inv limit (relay_reported tx r up down w).
Proof.
  intros Hi Hr Hph. apply relay_ended_inv; [|done|by rewrite Hph].
  apply (shrinks_inv _ _ _ Hi). by apply shrinks_counters.
Qed.

(** A channel that was never used names no task and no entry. *)
Lemma unused_inv limit w s :
  relays_inv limit w → shrinks (rw_server w) s → relays_inv limit (mkRelays s (rw_relays w) (S (rw_next w))).
Proof.
  intros Hi Hs. pose proof (shrinks_inv _ _ _ Hi Hs) as [Hl Hp Ha Hg Hn Hd Hk]. split; simpl in *; try done.
  - intros tx r Hr. specialize (Hn _ _ Hr). lia.
  - intros a c e He. specialize (Hd _ _ _ He). lia.
Qed.

Lemma entry_added s f a x n connection e b c e' :
  heap s !! a = Some x →
  pending_at (on_counters f (on_context a (fun x => set_sc_permits (n x)
    (set_sc_pending (<[connection := e]> (sc_pending x)) x)) s)) b c = Some e' →
  (b = a ∧ c = connection ∧ e' = e) ∨ pending_at s b c = Some e'.
Proof.
  intros Hx. unfold pending_at. simpl. rewrite lookup_alter. case_decide; [|by right]. subst. rewrite Hx. simpl.
  intros [[<- <-]|[_ ?]]%lookup_insert_Some; [by left|by right].
Qed.

Lemma external_inv limit w a service fill now :
  relays_inv limit w → relays_inv limit (on_external a service fill now w).
Proof.
  intros Hi. unfold on_external, accept_external.
  destruct (heap (rw_server w) !! a) as [x|] eqn:Hx; [|by apply unused_inv].
  destruct (sc_permits x <=? 0) eqn:Hpm; [by apply unused_inv; [|apply shrinks_counters]|].
  destruct (ConnectionId_generate fill) as [connection|]; [|by apply unused_inv; [|apply shrinks_counters]].
  destruct (pending_per_session _ <=? _); [by apply unused_inv; [|apply shrinks_counters]|]. bools.
  destruct Hi as [Hl Hp Ha Hg Hn Hd Hk].
  assert (rw_relays w !! rw_next w = None) as Hfresh.
  { destruct (rw_relays w !! rw_next w) as [r|] eqn:E; [|done]. specialize (Hn _ _ E). lia. }
  split; simpl.
  - done.
  - intros b y. rewrite (count_insert _ _ _ _ Hfresh), lookup_alter. unfold at_address at 2. simpl.
    case_decide as Hb; [subst b|].
    + rewrite Hx, bool_decide_true by done. intros [= <-]. simpl. destruct (Hp _ _ Hx). lia.
    + rewrite bool_decide_false by done. intros Hy. destruct (Hp _ _ Hy). lia.
  - intros tx r Hr. rewrite lookup_alter. apply lookup_insert_Some in Hr as [[<- <-]|[_ Hr]]; simpl.
    + rewrite decide_True by done. rewrite Hx. by eexists.
    + case_decide as Heq; [rewrite Heq; apply fmap_is_Some|]; by eapply Ha.
  - rewrite (count_insert _ _ _ _ Hfresh), guarded_opening by done. rewrite Z.add_0_r. apply Hg.
  - intros tx r [[<- <-]|[_ Hr]]%lookup_insert_Some; [lia|]. specialize (Hn _ _ Hr). lia.
  - intros b c e He. destruct (entry_added _ _ _ _ _ _ _ _ _ _ Hx He) as [(-> & -> & ->)|He']; simpl; [lia|].
    specialize (Hd _ _ _ He'). lia.
  - intros b c e r He Hr. destruct (entry_added _ _ _ _ _ _ _ _ _ _ Hx He) as [(-> & -> & ->)|He'].
    + simpl in Hr. rewrite lookup_insert_eq in Hr. by simplify_eq.
    + specialize (Hd _ _ _ He'). rewrite lookup_insert_ne in Hr by lia. by eapply Hk.
Qed.

Lemma allocate_inv limit w a id p :
  0 <= limit → relays_inv limit w → heap (rw_server w) !! a = None →
  relays_inv limit (on_server (fun s => allocate a (new_context id p (counters s)) s) w).
Proof.
  intros H0 [Hl Hp Ha Hg Hn Hd Hk] Hnone.
  assert (∀ tx r, rw_relays w !! tx = Some r → rl_address r ≠ a) as Hfree.
  { intros tx r Hr <-. destruct (Ha _ _ Hr). congruence. }
  assert (∀ b c e, pending_at (allocate a (new_context id p (counters (rw_server w))) (rw_server w)) b c = Some e →
    pending_at (rw_server w) b c = Some e) as Hpend.
  { intros b c e. unfold pending_at. simpl. destruct (decide (b = a)) as [->|Hb].
    - by rewrite lookup_insert_eq.
    - by rewrite lookup_insert_ne. }
  split; simpl; try done.
  - intros b x [[<- <-]|[_ Hx]]%lookup_insert_Some; [|by apply Hp]. simpl. rewrite Hl, count_none; [lia|].
    intros tx r Hr. by apply bool_decide_false, (Hfree tx).
  - intros tx r Hr. rewrite lookup_insert_ne by (apply not_eq_sym; by eapply Hfree). by eapply Ha.
  - intros b c e He. by eapply Hd, Hpend.
  - intros b c e r He. by eapply Hk, Hpend.
Qed.

Lemma relay_context_inv limit w a :
  relays_inv limit w → (∀ tx r, rw_relays w !! tx = Some r → rl_address r ≠ a) →
  relays_inv limit (on_server (SessionContext_drop a) w).
Proof.
  intros Hi Hfree. unfold on_server, SessionContext_drop.
  destruct (heap (rw_server w) !! a) as [x|] eqn:Hx; [|by destruct w]. destruct Hi as [Hl Hp Ha Hg Hn Hd Hk].
  assert (∀ b c e, pending_at (set_heap (delete a (heap (rw_server w))) (on_counters (fetch_sub n_pending
    (Z.of_nat (size (sc_pending x)))) (rw_server w))) b c = Some e → pending_at (rw_server w) b c = Some e) as Hpend.
  { intros b c e. unfold pending_at. simpl. destruct (decide (b = a)) as [->|Hb].
    - by rewrite lookup_delete_eq.
    - by rewrite lookup_delete_ne. }
  split; simpl; try done.
  - intros b y [_ Hy]%lookup_delete_Some. by apply Hp.
  - intros tx r Hr. rewrite lookup_delete_ne by (apply not_eq_sym; by eapply Hfree). by eapply Ha.
  - intros b c e He. by eapply Hd, Hpend.
  - intros b c e r He. by eapply Hk, Hpend.
Qed.

Lemma relay_step_inv limit w w' : 0 <= limit → relays_inv limit w → relay_step w w' → relays_inv limit w'.
Proof.
  intros H0 Hi Hs. destruct Hs; eauto using external_inv, opened_inv, open_failed_inv, wait_ended_inv, reported_inv,
    aborted_inv, allocate_inv, relay_context_inv; apply (shrinks_inv _ _ _ Hi); auto with shrinks.
  by apply shrinks_counters.
Qed.

Lemma relays_reachable p w :
  0 <= active_connections_per_session (limits p) → rtc relay_step (relays_new p) w →
  relays_inv (active_connections_per_session (limits p)) w.
Proof.
  intros H0 Hr. refine (rtc_ind_r (relays_inv _) _ _ _ w Hr); [|eauto using relay_step_inv]. by split.
Qed.

(** ** Properties *)

(** C23. External connections are bounded, counted and correlated.  Whatever
    the interleaving of listeners, relay tasks, data streams, aborts and ending
    Sessions: the free permits of a Session and its running connections always
    add up to the configured ceiling, so no Session ever has more; the
    active-connections gauge is the number of relay tasks; and a data stream
    that is accepted goes to the task that opened exactly that connection, for
    that service and in that Session, which is still waiting for it. *)
Theorem relays_accounted p w :
  0 <= active_connections_per_session (limits p) → rtc relay_step (relays_new p) w →
  (∀ a x, heap (rw_server w) !! a = Some x →
     sc_permits x + count (at_address a) (rw_relays w) = active_connections_per_session (limits p) ∧
     count (at_address a) (rw_relays w) <= active_connections_per_session (limits p)) ∧
  load n_active_connections (counters (rw_server w)) = wrap 64 (count guarded (rw_relays w)) ∧
  (∀ now hello principal tx s,
     accept_data_hello (receiver_gone w) now hello principal (rw_server w) = (Ok tx, s) →
     ∃ r, rw_relays w !! tx = Some r ∧ rl_phase r ≠ Relaying ∧
       entries (rw_server w) !! dh_session_id hello = Some (rl_address r) ∧
       rl_service r = dh_service_id hello ∧ rl_connection r = dh_connection_id hello).
Proof.
  intros H0 Hr. destruct (relays_reachable _ _ H0 Hr) as [_ Hp _ Hg _ _ Hk]. split_and!; [|done|].
  - intros a x Hx. destruct (Hp _ _ Hx). split; [done|lia].
  - intros now hello principal tx s. unfold accept_data_hello.
    destruct (_ ≫= _) as [[a x]|] eqn:E; [|done]. apply bind_Some in E as (a' & Ha & E).
    apply fmap_Some in E as (x' & Hx & [= -> ->]). destruct (negb (bool_decide (_ = principal))); [done|].
    unfold claim. fold (pending_at (rw_server w) a' (dh_connection_id hello)).
    destruct (pending_at (rw_server w) a' (dh_connection_id hello)) as [e|] eqn:He; [|done].
    destruct (_ || _) eqn:Hc; [done|]. apply orb_false_iff in Hc as [Hsv%negb_false_iff _]. bools.
    unfold receiver_gone. destruct (rw_relays w !! pe_data_tx e) as [r|] eqn:Hrl; [|done].
    destruct (Hk _ _ _ _ He Hrl) as (<- & Hs & <- & Hph). destruct (rl_phase r) eqn:Hphr; try done;
      (intros [= <- _]; exists r; split_and!; congruence).
Qed.

(** ** Witness: one connection, opened and waiting *)

Definition sample_session : SessionId := mkSessionId (replicate 16 Byte.x01).
Definition sample_registered_relays : Relays :=
  on_server (fun s => (register 0%nat sample_session 8 s).2)
    (on_server (fun s => allocate 0%nat (new_context sample_session None (counters s)) s)
       (relays_new RuntimePolicy_default)).
Definition sample_relay : Relay :=
  mkRelay 0%nat (mkServiceId 7) (mkConnectionId (replicate 16 Byte.x02)) Opening.
Definition sample_relays : Relays :=
  opened 0 sample_relay
    (on_external 0%nat (mkServiceId 7) (Some (replicate 16 Byte.x02)) 0 sample_registered_relays).
Definition sample_data_hello : DataHello :=
  mkDataHello sample_session (mkServiceId 7) (mkConnectionId (replicate 16 Byte.x02)).

Lemma sample_relays_reachable : rtc relay_step (relays_new RuntimePolicy_default) sample_relays.
Proof.
  eapply rtc_l; [by apply (R_allocate _ 0%nat sample_session None)|].
  eapply rtc_l; [apply (R_register _ 0%nat sample_session 8)|].
  eapply rtc_l; [apply (R_external _ 0%nat (mkServiceId 7) (Some (replicate 16 Byte.x02)) 0)|].
  apply rtc_once. apply R_opened; [vm_compute|]; reflexivity.
Qed.

Lemma relays_accounted_witness :
  load n_active_connections (counters (rw_server sample_relays)) = wrap 64 (count guarded (rw_relays sample_relays)) ∧
  ∃ r, rw_relays sample_relays !! 0%nat = Some r ∧ rl_phase r ≠ Relaying ∧
    entries (rw_server sample_relays) !! sample_session = Some (rl_address r) ∧
    rl_service r = mkServiceId 7 ∧ rl_connection r = mkConnectionId (replicate 16 Byte.x02).
Proof.
  assert (0 <= active_connections_per_session (limits RuntimePolicy_default)) as H0 by (vm_compute; discriminate).
  destruct (relays_accounted _ _ H0 sample_relays_reachable) as (_ & Hg & Hd). split; [exact Hg|].
  destruct (accept_data_hello (receiver_gone sample_relays) 1 sample_data_hello None (rw_server sample_relays))
    as [r s] eqn:E. apply (Hd 1 sample_data_hello None 0%nat s). rewrite E. f_equal.
  change r with (r, s).1. rewrite <-E. vm_compute. reflexivity.
Defined.
