(* ===== verification/Accept.v ===== *)
(** * Ingress: crates/eggtunnel/src/server/accept.rs

    The accept loops of the TCP/TLS, WebSocket and QUIC servers: handshake
    admission, the role a connection takes from its first message, the data
    streams of a QUIC connection and the drain at shutdown.  What TLS,
    WebSocket and QUIC answer is an input of the definition that asks; the
    digest of a certificate (SHA-256) is an argument. *)

From S2P Require Import Prelude Text Proto Codec Varint Frame Common WireIo AuthLimiter Session Control Registry.

(** ** The state of an accept loop

    [ac_admission] are the free handshake permits and [ac_handshaking] counts
    the handler tasks that still own one, with their [HandshakeGuard]; the
    running control loops are in [ac_world]. *)

Record AcceptContext := mkAccept
  { ac_world : World;
    ac_limiter : AuthFailureLimiter;
    ac_bind_policy : BindPolicy;
    ac_admission : Z;
    ac_handshaking : nat }.

Definition set_world w (x : AcceptContext) :=
  mkAccept w (ac_limiter x) (ac_bind_policy x) (ac_admission x) (ac_handshaking x).
Definition set_slots n h (x : AcceptContext) :=
  mkAccept (ac_world x) (ac_limiter x) (ac_bind_policy x) n h.
Definition counting (f : Counters → Counters) (x : AcceptContext) :=
  set_world (mkWorld (on_counters f (w_server (ac_world x))) (w_controls (ac_world x))) x.

Definition AcceptContext_new (bind_policy : BindPolicy) (p : RuntimePolicy) : AcceptContext :=
  mkAccept (idle_world p) (Limiter_new AUTH_FAILURES_PER_SOURCE AUTH_FAILURE_WINDOW MAX_AUTH_SOURCES)
    bind_policy (accepted_handshakes (limits p)) 0.

(** ** Admission *)

Definition AcceptContext_admit (x : AcceptContext) : bool * AcceptContext :=
  if 0 <? ac_admission x
  then (true, set_slots (ac_admission x - 1) (ac_handshaking x) x)
  else (false, counting record_saturation x).

(** The accept arm of [server_loop]: admission, then the guard, then the task. *)
Definition on_accept (accepted : bool) (x : AcceptContext) : AcceptContext :=
  if accepted then
    match AcceptContext_admit x with
    | (true, x1) =>
        set_slots (ac_admission x1) (S (ac_handshaking x1)) (counting HandshakeGuard_new x1)
    | (false, x1) => x1
    end
  else x.

(** [listener.accept_connection]: a connection, [Ok(None)] or an error. *)
Inductive QuicAccepted := QuicConnection | QuicListenerClosed | QuicAcceptFailed.

(** The accept arm of [quic_server_loop_with_admission]. *)
Definition on_quic_accept (accepted : QuicAccepted) (x : AcceptContext) : Flow * AcceptContext :=
  match accepted with
  | QuicConnection => (Continue, on_accept true x)
  | QuicListenerClosed => (Break, x)
  | QuicAcceptFailed => (Continue, counting (fetch_add n_rejected 1) x)
  end.

(** ** One connection *)

Inductive ServerTls := Eggress | Mutual.

Section connection.
Variable digest : list byte → list byte.
Variable ct_eq : list byte → list byte → bool.

Definition certificate_principal (certificate_der : list byte) : list byte := digest certificate_der.

(** The TLS stage yields the certificates the peer presented, if any. *)
Definition accept_tls (tls : ServerTls) (accepted : Stage unit (option (list (list byte))))
    : result TunnelError Principal :=
  peer_certificates ← run_stage (fun _ => TE_Tls) accepted;
  match tls with
  | Eggress => Ok None
  | Mutual => Ok (certificate_principal <$> (peer_certificates ≫= head))
  end.

Definition upgrade_websocket (websocket : bool) (upgraded : poll (result unit unit))
    : result TunnelError unit :=
  if negb websocket then Ok tt
  else match upgraded with
       | Pending => Err TE_Timeout
       | Ready r => map_err (fun _ => TE_Protocol UnexpectedMessage) r
       end.

Record ConnectionIo := mkConnectionIo
  { ci_tls : Stage unit (option (list (list byte)));
    ci_websocket : poll (result unit unit);
    ci_first : poll (result TunnelError Message);
    ci_handshake : HandshakeIo }.

(** What became of a connection: it is over, its stream went to the relay
    task [tx], or it runs a control loop. *)
Inductive Served := Ended (e : TunnelError) | Delivered (tx : nat) | Serving (k : Control).

(** [serve_control] up to its loop. *)
Definition serve_hello (io : HandshakeIo) (peer : Peer) (token : SecretToken) (hello : ClientHello)
    (now : Z) (a : Address) (lim : AuthFailureLimiter) (s : Server)
    : Served * AuthFailureLimiter * Server :=
  let h := handshake ct_eq io peer token hello now a lim s in
  (match hs_result h with Ok k => Serving k | Err e => Ended e end, hs_limiter h, hs_server h).

Definition deliver (closed : nat → bool) (now : Z) (hello : DataHello) (principal : Principal) (s : Server)
    : Served * Server :=
  let '(r, s1) := accept_data_hello closed now hello principal s in
  (match r with Ok tx => Delivered tx | Err e => Ended e end, s1).

Definition unexpected (s : Server) : Served * Server :=
  (Ended (TE_Protocol UnexpectedMessage), on_counters (fetch_add n_rejected 1) s).

(** The first message decides the role of the connection. *)
Definition handle_connection (tls : ServerTls) (websocket : bool) (io : ConnectionIo) (source : IpAddr)
    (token : SecretToken) (closed : nat → bool) (now : Z) (a : Address)
    (lim : AuthFailureLimiter) (s : Server) : Served * AuthFailureLimiter * Server :=
  let opened :=
    principal ← accept_tls tls (ci_tls io);
    _ ← upgrade_websocket websocket (ci_websocket io);
    first ← read_bounded (ci_first io);
    Ok (principal, first) in
  match opened with
  | Err e => (Ended e, lim, release_slot s)
  | Ok (principal, M_DataHello hello) =>
      let '(r, s1) := deliver closed now hello principal s in (r, lim, release_slot s1)
  | Ok (principal, M_ClientHello hello) =>
      serve_hello (ci_handshake io) (mkPeer source principal) token hello now a lim s
  | Ok (_, _) => let '(r, s1) := unexpected s in (r, lim, release_slot s1)
  end.

(** [handle_quic_connection] up to its loop: the first stream is the control
    stream.  The transport proves no identity. *)
Definition handle_quic_connection (stream : Stage unit unit) (first : poll (result TunnelError Message))
    (io : HandshakeIo) (source : IpAddr) (token : SecretToken) (now : Z) (a : Address)
    (lim : AuthFailureLimiter) (s : Server) : Served * AuthFailureLimiter * Server :=
  let opened := _ ← run_stage (fun _ => TE_Disconnected) stream; read_bounded first in
  match opened with
  | Err e => (Ended e, lim, release_slot s)
  | Ok (M_ClientHello hello) => serve_hello io (mkPeer source None) token hello now a lim s
  | Ok _ => let '(r, s1) := unexpected s in (r, lim, release_slot s1)
  end.

(** [handle_quic_data_stream]. *)
Definition handle_quic_data_stream (first : Stage TunnelError Message) (closed : nat → bool) (now : Z)
    (s : Server) : Served * Server :=
  match run_stage (fun e => e) first with
  | Err e => (Ended e, s)
  | Ok (M_DataHello hello) => deliver closed now hello None s
  | Ok _ => unexpected s
  end.
End connection.

(** The handler task takes up the outcome: the permit and the guard are gone
    by then, an error is recorded, a Session goes on in its loop. *)
Definition handled (outcome : Served * AuthFailureLimiter * Server) (x : AcceptContext) : AcceptContext :=
  let '(r, lim, s) := outcome in
  let slots := mkAccept (mkWorld s (w_controls (ac_world x))) lim (ac_bind_policy x)
                 (ac_admission x + 1) (pred (ac_handshaking x)) in
  match r with
  | Serving k => set_world (mkWorld s (<[ct_session k := k]> (w_controls (ac_world x)))) slots
  | Ended e => counting (record_termination (termination_category e)) slots
  | Delivered _ => slots
  end.

(** A handler that is aborted while it shakes hands. *)
Definition abort_handshake (x : AcceptContext) : AcceptContext :=
  counting HandshakeGuard_drop (set_slots (ac_admission x + 1) (pred (ac_handshaking x)) x).

(** ** The data streams of a QUIC connection *)

Record QuicStreams := mkQuicStreams { qs_admission : Z; qs_running : nat }.

Definition QuicStreams_new (max_active_data_streams : Z) : QuicStreams :=
  mkQuicStreams max_active_data_streams 0.

(** [accepted = connection.accept_stream()]. *)
Definition on_quic_stream (accepted : bool) (q : QuicStreams) (c : Counters) : Flow * QuicStreams * Counters :=
  if accepted then
    if 0 <? qs_admission q
    then (Continue, mkQuicStreams (qs_admission q - 1) (S (qs_running q)), c)
    else (Continue, q, record_termination TC_ResourceExhausted (fetch_add n_rejected 1 c))
  else (Return TE_Disconnected, q, c).

(** A data stream task ends, is joined, and its permit goes back. *)
Definition on_quic_joined (r : JoinResult) (q : QuicStreams) (c : Counters) : QuicStreams * Counters :=
  (mkQuicStreams (qs_admission q + 1) (pred (qs_running q)), record_join_result r c).

(** [result = &mut control]: the task returned, panicked or was aborted. *)
Inductive ControlEnded := ControlReturned (r : result TunnelError unit) | ControlPanicked | ControlAborted.

Definition on_quic_control (ended : ControlEnded) (c : Counters) : Flow * Counters :=
  (Break,
   match ended with
   | ControlReturned (Ok _) => c
   | ControlReturned (Err e) => record_termination (termination_category e) c
   | ControlPanicked => record_termination TC_Internal (fetch_add n_task_panics 1 c)
   | ControlAborted => c
   end).

(** ** Drain *)

Definition drain_deadline (p : RuntimePolicy) : Z :=
  default (umax 32) (try_into 32 (as_millis (shutdown_grace (timeouts p)))).

(** One pass over the live Sessions; [room] says whose control queue takes a
    message.  The result has the Sessions that got their [Drain]. *)
Definition drain_pass (room : SessionId → bool) (notified : gset SessionId) (s : Server)
    : gset SessionId * list SessionId :=
  foldl (fun '(seen, sent) session =>
           if bool_decide (sc_id session ∈ seen) then (seen, sent)
           else ({[sc_id session]} ∪ seen,
                 if sc_control_tx session && room (sc_id session) then sent ++ [sc_id session] else sent))
    (notified, []) (live s).

(** The passes until the deadline, one per wake-up; each sees the server as it
    is then. *)
Fixpoint drain_passes (notified : gset SessionId) (passes : list (Server * (SessionId → bool)))
    : list SessionId :=
  match passes with
  | [] => []
  | (s, room) :: passes' =>
      let '(seen, sent) := drain_pass room notified s in sent ++ drain_passes seen passes'
  end.

Definition drain_message (p : RuntimePolicy) : Message := M_Drain (mkDrain (drain_deadline p)).

(** After the deadline: every live Session is cancelled. *)
Definition force_cancel (s : Server) : Server :=
  foldr (fun a s => on_context a set_sc_cancelled s) s (values (entries s)).

(** [handlers.abort_all()] and the joins: every control loop is dropped with
    its guard, every handshake with its permit.  A Session's context goes with
    the last of the service tasks that hold it; those are aborted with their
    loop, but nothing waits for them. *)
Definition reap_controls (w : World) : World :=
  mkWorld (foldr (fun k s => (early_return TE_Cancelled k s).2) (w_server w) (values (w_controls w))) ∅.
Definition reap_contexts (w : World) : World :=
  mkWorld (foldr SessionContext_drop (w_server w) (map_to_list (heap (w_server w))).*1) (w_controls w).

Definition shutdown (x : AcceptContext) : AcceptContext :=
  let w := mkWorld (force_cancel (w_server (ac_world x))) (w_controls (ac_world x)) in
  Nat.iter (ac_handshaking x) abort_handshake (set_world (reap_controls w) x).

Definition tasks_gone (x : AcceptContext) : AcceptContext := set_world (reap_contexts (ac_world x)) x.

(** ** All steps of a server

    A handler steps only while it holds its permit; a new context is allocated
    at a free address and new identifiers (16 random bytes) are not in use. *)

Definition fresh (io : HandshakeIo) (a : Address) (w : World) : Prop :=
  heap (w_server w) !! a = None ∧
  (∀ bytes, random_id io = Some bytes → w_controls w !! mkSessionId bytes = None).

Inductive Listening := OverTcp | OverQuic.

Inductive ingress_step : Listening → AcceptContext → AcceptContext → Prop :=
| I_accept x accepted : ingress_step OverTcp x (on_accept accepted x)
| I_quic_accept x accepted : ingress_step OverQuic x (on_quic_accept accepted x).2
| I_handled x digest ct_eq tls websocket io source token closed now a :
    (0 < ac_handshaking x)%nat → fresh (ci_handshake io) a (ac_world x) →
    ingress_step OverTcp x (handled (handle_connection digest ct_eq tls websocket io source token closed now a
                               (ac_limiter x) (w_server (ac_world x))) x)
| I_quic_handled x ct_eq stream first io source token now a :
    (0 < ac_handshaking x)%nat → fresh io a (ac_world x) →
    ingress_step OverQuic x (handled (handle_quic_connection ct_eq stream first io source token now a
                               (ac_limiter x) (w_server (ac_world x))) x)
| I_quic_stream x first closed now :
    ingress_step OverQuic x (set_world (mkWorld (handle_quic_data_stream first closed now (w_server (ac_world x))).2
                                 (w_controls (ac_world x))) x)
| I_quic_admission x accepted q :
    ingress_step OverQuic x (counting (fun c => (on_quic_stream accepted q c).2) x)
| I_quic_control x ended : ingress_step OverQuic x (counting (fun c => (on_quic_control ended c).2) x)
| I_arm t x w : arm_step (ac_bind_policy x) (ac_world x) w → ingress_step t x (set_world w x)
| I_joined t x r : ingress_step t x (counting (record_join_result r) x)
| I_terminated t x e : ingress_step t x (counting (record_termination (termination_category e)) x).

(** ** Admission *)

Abbreviation slots s := (load n_handshakes (counters s)).

(** Whatever a handler does, it gives its slot back exactly once. *)
Definition slot_released (s s' : Server) : Prop := slots s' = wrap 64 (slots s - 1).

Lemma context_drop_slots a s : slots (SessionContext_drop a s) = slots s.
Proof. unfold SessionContext_drop. by case_match. Qed.

Lemma register_slots a sid mx s : slots (register a sid mx s).2 = slots s.
Proof. unfold register. by case_match. Qed.

Lemma claim_slots a c s : slots (claim a c s).2 = slots s.
Proof. unfold claim. by destruct (_ ≫= _). Qed.

Lemma data_hello_slots closed now hello p s : slots (accept_data_hello closed now hello p s).2 = slots s.
Proof.
  unfold accept_data_hello. destruct (_ ≫= _) as [[a x]|]; [|done]. destruct (negb _); [done|].
  pose proof (claim_slots a (dh_connection_id hello) s) as Hv.
  destruct (claim a _ s) as [[e|] s1]; [|done]. destruct (_ || _); [done|]. by destruct (closed _).
Qed.

Lemma data_step_slots s s' : data_step s s' → slots s' = slots s.
Proof.
  destruct 1 as [s closed now hello p|s a c|s a svc|s a|s a svc fill now tx _|s a c|s|s a|s a c o]; try done.
  - apply data_hello_slots.
  - apply claim_slots.
  - unfold remove_service_pending. by case_match.
  - unfold remove_all_pending. by case_match.
  - unfold accept_external. destruct (heap s !! a); [|done]. destruct (_ <=? 0); [done|].
    destruct fill; [|done]. simpl. by destruct (_ <=? _).
  - unfold offer_failed. apply (claim_slots a c s).
  - unfold relay_resolved. destruct o as [[up down]|]; apply (claim_slots a c s).
Qed.

Lemma arm_step_slots policy w w' : arm_step policy w w' → slots (w_server w') = slots (w_server w).
Proof.
  destruct 1 as [s ks listen w0 incoming sid k f k' s' Hk Hs
    |s ks w0 m sid k Hk|s ks sid k Hk|s ks sid k i r k' s' Hk Hs|s ks sid k Hk|s ks sid k e Hk|s ks a Ha|s ks s' Hd];
    simpl; try done.
  - replace s' with (on_incoming listen w0 policy incoming k s).2 by (by rewrite Hs).
    destruct incoming as [m|e]; [|done]. destruct m; try done; simpl.
    + unfold register_service. by repeat case_match.
    + unfold unregister_service. destruct (ct_services k !! _); [|done]. unfold remove_service_pending. by case_match.
    + apply claim_slots.
  - injection Hs as <- <-. by destruct r.
  - unfold remove_all_pending. by case_match.
  - apply context_drop_slots.
  - by apply data_step_slots.
Qed.

Lemma refuse_peer_slots io peer out lim s : slot_released s (hs_server (refuse_peer io peer out lim s)).
Proof. unfold refuse_peer, reject_authentication. by destruct authentication_failed. Qed.

Lemma establish_slots io peer a negotiated out lim s :
  slot_released s (hs_server (establish io peer a negotiated out lim s)).
Proof.
  unfold establish, slot_released. destruct (SessionId_generate _) as [sid|]; [|done].
  destruct (server_cancelled io); [done|]. set (s2 := allocate _ _ _). set (mx := sessions_limit _).
  pose proof (register_slots a sid mx s2) as Hr.
  destruct (register a sid mx s2) as [[[]|e] s3]; simpl in *.
  - destruct (auth_ok_write io); simpl; [done|by rewrite context_drop_slots..].
  - by rewrite context_drop_slots.
Qed.

Lemma handshake_slots ct_eq io peer token hello now a lim s :
  slot_released s (hs_server (handshake ct_eq io peer token hello now a lim s)).
Proof.
  unfold handshake. destruct (negb _); [apply (refuse_peer_slots io peer [] lim s)|].
  destruct (write_bounded _ _ _) as [[[]|e] out]; [|done]. destruct (read_bounded _) as [m|e]; [|done].
  destruct m; lazymatch goal with
    | |- context [is_blocked_at] => idtac | _ => apply refuse_peer_slots end.
  destruct (is_blocked_at _ _ _) as [blocked lim1]. destruct (_ || _); [apply refuse_peer_slots|].
  apply establish_slots.
Qed.

(** ** The invariant of a server *)

Record ingress_inv (bp : BindPolicy) (p : RuntimePolicy) (x : AcceptContext) : Prop :=
  { gi_policy : ac_bind_policy x = bp;
    gi_world : world_inv p (service_bound bp p) (ac_world x);
    gi_registry : registry_inv (ac_world x);
    gi_pending : pending_inv (pending_per_session (limits p)) (w_server (ac_world x));
    gi_slots : slots (w_server (ac_world x)) = wrap 64 (Z.of_nat (ac_handshaking x));
    gi_admission : ac_admission x + Z.of_nat (ac_handshaking x) = accepted_handshakes (limits p);
    gi_free : 0 <= ac_admission x }.

(** An update of counters that none of this reads. *)
Definition neutral (f : Counters → Counters) : Prop :=
  ∀ c, ctr_binds (f c) = ctr_binds c ∧ ctr_policy (f c) = ctr_policy c ∧
    load n_services (f c) = load n_services c ∧ load n_sessions (f c) = load n_sessions c ∧
    load n_pending (f c) = load n_pending c ∧ load n_handshakes (f c) = load n_handshakes c.

(** The same for a server, its registry kept. *)
Record unseen (s s' : Server) : Prop :=
  { us_view : same_view s s';
    us_registry : same_registry s s';
    us_pending limit : pending_inv limit s → pending_inv limit s';
    us_slots : slots s' = slots s }.

Lemma neutral_unseen f s : neutral f → unseen s (on_counters f s).
Proof.
  intros Hf. destruct (Hf (counters s)) as (? & ? & ? & ? & ? & ?). split; try done.
  intros limit Hi. apply pending_inv_frame; [done| |]; intros c; by destruct (Hf c) as (? & ? & ? & ? & ? & ?).
Qed.

Lemma data_step_unseen s s' : data_step s s' → unseen s s'.
Proof.
  intros Hd. split; [by apply data_step_view|by apply data_step_registry| |by apply data_step_slots].
  intros limit Hi. by eapply data_step_pending_inv.
Qed.

Lemma unseen_inv bp p x s' :
  ingress_inv bp p x → unseen (w_server (ac_world x)) s' →
  ingress_inv bp p (set_world (mkWorld s' (w_controls (ac_world x))) x).
Proof.
  intros [Hb Hw Hr Hp Hs Ha Hf] [H1 H2 H3 H4]. destruct x as [[s ks] lim bp0 n h]. simpl in *.
  split; simpl; try done.
  - by eapply world_inv_view.
  - by eapply registry_inv_same.
  - by apply H3.
  - congruence.
Qed.

Lemma counting_inv bp p x f : ingress_inv bp p x → neutral f → ingress_inv bp p (counting f x).
Proof. intros Hi Hf. apply unseen_inv; [done|]. by apply neutral_unseen. Qed.

(** ** The handlers *)

(** A handler either ends without a Session, having at most claimed a pending
    connection or counted a rejection, or goes through [serve_control]. *)
Inductive handler_outcome (io : HandshakeIo) (a : Address) (lim : AuthFailureLimiter) (s : Server)
    : Served * AuthFailureLimiter * Server → Prop :=
| HO_closed r s1 :
    (∀ k, r ≠ Serving k) → unseen s s1 → handler_outcome io a lim s (r, lim, release_slot s1)
| HO_hello ct_eq peer token hello now :
    handler_outcome io a lim s (serve_hello ct_eq io peer token hello now a lim s).

Lemma unseen_refl s : unseen s s.
Proof. by split. Qed.

Lemma unexpected_outcome io a lim s :
  handler_outcome io a lim s (let '(r, s1) := unexpected s in (r, lim, release_slot s1)).
Proof. apply HO_closed; [done|]. by apply neutral_unseen. Qed.

Lemma deliver_outcome closed now hello principal s :
  let '(r, s1) := deliver closed now hello principal s in (∀ k, r ≠ Serving k) ∧ unseen s s1.
Proof.
  pose proof (data_step_unseen _ _ (S_hello s closed now hello principal)) as Hu. unfold deliver.
  destruct (accept_data_hello _ _ _ _ _) as [[tx|e] s1]; by split.
Qed.

Lemma handle_connection_outcome digest ct_eq tls websocket io source token closed now a lim s :
  handler_outcome (ci_handshake io) a lim s
    (handle_connection digest ct_eq tls websocket io source token closed now a lim s).
Proof.
  unfold handle_connection. destruct (_ ≫= _) as [[principal m]|e].
  - destruct m; try apply unexpected_outcome; [apply HO_hello|].
    pose proof (deliver_outcome closed now v principal s) as Hd.
    destruct (deliver _ _ _ _ _) as [r s1]. destruct Hd. by apply HO_closed.
  - apply HO_closed; [done|apply unseen_refl].
Qed.

Lemma handle_quic_outcome ct_eq stream first io source token now a lim s :
  handler_outcome io a lim s (handle_quic_connection ct_eq stream first io source token now a lim s).
Proof.
  unfold handle_quic_connection. destruct (_ ≫= _) as [m|e].
  - destruct m; try apply unexpected_outcome. apply HO_hello.
  - apply HO_closed; [done|apply unseen_refl].
Qed.

Lemma slot_back h z : (0 < h)%nat → z = wrap 64 (Z.of_nat h) → wrap 64 (z - 1) = wrap 64 (Z.of_nat (pred h)).
Proof. intros Hh ->. rewrite wrap_sub. f_equal. lia. Qed.

(** A handler's outcome, with the loop it may have started. *)
Lemma handled_core bp p x lim s' ks' :
  ingress_inv bp p x → (0 < ac_handshaking x)%nat →
  world_inv p (service_bound bp p) (mkWorld s' ks') → registry_inv (mkWorld s' ks') →
  pending_inv (pending_per_session (limits p)) s' → slot_released (w_server (ac_world x)) s' →
  ingress_inv bp p (mkAccept (mkWorld s' ks') lim (ac_bind_policy x)
                      (ac_admission x + 1) (pred (ac_handshaking x))).
Proof.
  intros [Hb Hw Hr Hp Hs Ha Hf] Hh H1 H2 H3 H4. split; simpl; try done; [|lia..].
  unfold slot_released in H4. rewrite H4. by apply slot_back.
Qed.

(** The handshake of one connection; its slot is given back and a Session it
    started runs. *)
Lemma handshake_moved bp p x ct_eq io peer token hello now a :
  ingress_inv bp p x → (0 < ac_handshaking x)%nat → fresh io a (ac_world x) →
  let h := handshake ct_eq io peer token hello now a (ac_limiter x) (w_server (ac_world x)) in
  let moved ks := mkAccept (mkWorld (hs_server h) ks) (hs_limiter h) (ac_bind_policy x)
                    (ac_admission x + 1) (pred (ac_handshaking x)) in
  match hs_result h with
  | Ok k => w_controls (ac_world x) !! ct_session k = None ∧
            ingress_inv bp p (moved (<[ct_session k := k]> (w_controls (ac_world x))))
  | Err _ => ingress_inv bp p (moved (w_controls (ac_world x)))
  end.
Proof.
  intros Hi Hh [Ha Hf]. pose proof Hi as [Hb Hw Hr Hp Hs Had Hfree].
  assert (ac_world x = mkWorld (w_server (ac_world x)) (w_controls (ac_world x))) as Ew by (by destruct (ac_world x)).
  set (s := w_server (ac_world x)) in *. set (ks := w_controls (ac_world x)) in *. rewrite Ew in Hw, Hr.
  pose proof (handshake_registry ct_eq io peer token hello now a (ac_limiter x) s Ha (registry_alive _ Hr)) as Hreg.
  pose proof (handshake_cases _ _ ct_eq io peer token hello now a (ac_limiter x) s ks Hw Ha) as Hcase.
  pose proof (registers_inv _ _ _ _ _ _ Hr Ha Hreg) as Hri.
  pose proof (handshake_pending _ ct_eq io peer token hello now a (ac_limiter x) s Ha Hp) as Hpi.
  pose proof (handshake_slots ct_eq io peer token hello now a (ac_limiter x) s) as Hsl.
  unfold registers in *. cbv zeta in Hcase |- *.
  destruct (hs_result (handshake _ _ _ _ _ _ _ _ _)) as [k|e].
  - assert (ks !! ct_session k = None) as Hk.
    { destruct Hreg as (y & Hrand & _). apply Hf in Hrand. by destruct (ct_session k). }
    split; [done|]. exact (handled_core bp p x _ _ _ Hi Hh (Hcase Hk) (Hri Hk) Hpi Hsl).
  - exact (handled_core bp p x _ _ _ Hi Hh (Hcase Hf) (Hri Hf) Hpi Hsl).
Qed.

Lemma handled_inv bp p x io a outcome :
  ingress_inv bp p x → (0 < ac_handshaking x)%nat → fresh io a (ac_world x) →
  handler_outcome io a (ac_limiter x) (w_server (ac_world x)) outcome →
  ingress_inv bp p (handled outcome x).
Proof.
  intros Hi Hh Hf Ho. destruct Ho as [r s1 Hns [H1 H2 H3 H4]|ct_eq peer token hello now].
  - pose proof Hi as [Hb Hw Hr Hp Hs Had Hfree]. destruct x as [[s ks] lim bp0 n h]. simpl in *.
    assert (ingress_inv bp p (mkAccept (mkWorld (release_slot s1) ks) lim bp0 (n + 1) (pred h))) as Hc.
    { apply (handled_core bp p _ lim _ _ Hi Hh).
      - eapply world_inv_view; [|exact H1]. done.
      - by eapply registry_inv_same.
      - apply pending_inv_frame; [by apply H3|done..].
      - unfold slot_released. simpl. by rewrite <-H4. }
    destruct r as [e|tx|k]; [by apply counting_inv|done|by destruct (Hns k)].
  - pose proof (handshake_moved bp p x ct_eq io peer token hello now a Hi Hh Hf) as Hm.
    unfold serve_hello, handled. cbv zeta in Hm. destruct (hs_result _) as [k|e]; [by destruct Hm|].
    by apply counting_inv.
Qed.

Lemma ingress_step_inv bp p t x x' : ingress_step t x x' → ingress_inv bp p x → ingress_inv bp p x'.
Proof.
  assert (∀ x accepted, ingress_inv bp p x → ingress_inv bp p (on_accept accepted x)) as Hacc.
  { intros y [] Hi; [|done]. unfold on_accept, AcceptContext_admit. destruct (0 <? ac_admission y) eqn:Hn; [|by apply counting_inv].
    bools. destruct Hi as [Hb Hw Hr Hp Hs Ha Hf]. destruct y as [[s ks] lim bp0 n h]. simpl in *.
    split; simpl; try done; [..|lia|lia].
    - by apply (world_inv_view _ _ s).
    - by apply (registry_inv_same s).
    - by apply pending_inv_frame.
    - change (load n_handshakes (raise n_handshakes n_high_water_handshakes (counters s)) = wrap 64 (Z.of_nat (S h))).
      rewrite raise_gauge, Hs, wrap_add by done. f_equal. lia. }
  destruct 1 as [x accepted|x accepted|x digest ct_eq tls websocket io source token closed now a Hh Hf
    |x ct_eq stream first io source token now a Hh Hf|x first closed now|x accepted q|x ended|t x w Ha|t x r|t x e]; intros Hi.
  - by apply Hacc.
  - destruct accepted; [by apply Hacc|done|by apply counting_inv].
  - eapply handled_inv; [done..|]. apply handle_connection_outcome.
  - eapply handled_inv; [done..|]. apply handle_quic_outcome.
  - apply unseen_inv; [done|]. unfold handle_quic_data_stream.
    destruct (run_stage _ _) as [m|e]; [|apply unseen_refl].
    destruct m; try (by apply neutral_unseen).
    pose proof (deliver_outcome closed now v None (w_server (ac_world x))) as Hd.
    destruct (deliver _ _ _ _ _). by destruct Hd.
  - apply counting_inv; [done|]. intros c. unfold on_quic_stream. by destruct accepted, (0 <? qs_admission q).
  - apply counting_inv; [done|]. intros c. by destruct ended as [[]| |].
  - destruct Hi as [Hb Hw Hr Hp Hs Had Hfree]. subst bp. split; simpl; try done.
    + by eapply arm_step_inv.
    + by eapply arm_step_registry.
    + by eapply arm_step_pending.
    + rewrite <-Hs. by eapply arm_step_slots.
  - apply counting_inv; [done|]. intros c. by destruct r.
  - by apply counting_inv.
Qed.

(** No step takes the registry above its ceiling. *)
Lemma unseen_ceiling p s s' ks ks' :
  unseen s s' → within_ceiling p (mkWorld s ks) → within_ceiling p (mkWorld s' ks').
Proof. intros [_ [He _] _ _]. unfold within_ceiling. simpl. by rewrite He. Qed.

Lemma handled_ceiling bp p x io a outcome :
  ingress_inv bp p x → fresh io a (ac_world x) →
  handler_outcome io a (ac_limiter x) (w_server (ac_world x)) outcome →
  within_ceiling p (ac_world x) → within_ceiling p (ac_world (handled outcome x)).
Proof.
  intros Hi [Ha Hf] Ho Hc. destruct x as [[s ks] lim bp0 n h]. simpl in *.
  destruct Ho as [r s1 Hns Hu|ct_eq peer token hello now].
  - pose proof (unseen_ceiling p _ _ ks ks Hu Hc) as Hc1. by destruct r.
  - pose proof (gi_registry _ _ _ Hi) as Hr. simpl in Hr.
    pose proof (handshake_registry ct_eq io peer token hello now a lim s Ha (registry_alive _ Hr)) as Hreg.
    assert (∀ ks', within_ceiling p (mkWorld (hs_server (handshake ct_eq io peer token hello now a lim s)) ks')) as Hh.
    { intros ks'. eapply registers_ceiling; [apply (gi_world _ _ _ Hi)|exact Hreg|exact Hc|].
      intros bytes Hb. exact (registry_unused _ _ Hr (Hf _ Hb)). }
    unfold serve_hello, handled. destruct (hs_result _); apply Hh.
Qed.

Lemma ingress_step_ceiling bp p t x x' :
  ingress_step t x x' → ingress_inv bp p x → within_ceiling p (ac_world x) → within_ceiling p (ac_world x').
Proof.
  destruct 1 as [x accepted|x accepted|x digest ct_eq tls websocket io source token closed now a Hh Hf
    |x ct_eq stream first io source token now a Hh Hf|x first closed now|x accepted q|x ended|t x w Ha|t x r|t x e];
    intros Hi Hc; try done.
  - destruct accepted; [|done]. simpl. unfold AcceptContext_admit. by destruct (0 <? ac_admission x).
  - destruct accepted; [|done..]. simpl. unfold AcceptContext_admit. by destruct (0 <? ac_admission x).
  - eapply handled_ceiling; [done..|apply handle_connection_outcome|done].
  - eapply handled_ceiling; [done..|apply handle_quic_outcome|done].
  - destruct x as [[s ks] lim bp0 n h]. simpl in *. eapply unseen_ceiling; [|exact Hc].
    unfold handle_quic_data_stream. destruct (run_stage _ _) as [m|e]; [|apply unseen_refl].
    destruct m; try (by apply neutral_unseen).
    pose proof (deliver_outcome closed now v None s) as Hd. destruct (deliver _ _ _ _ _). by destruct Hd.
  - apply arm_step_entries, map_subseteq_size in Ha. unfold within_ceiling in *. simpl. lia.
Qed.

(** ** Shutdown *)

Lemma force_cancel_unseen s : unseen s (force_cancel s).
Proof.
  unfold force_cancel. generalize (values (entries s)) as l. induction l as [|a l [H1 H2 H3 H4]]; [apply unseen_refl|].
  simpl. set (s1 := foldr _ s l) in *. split.
  - etransitivity; [exact H1|]. apply same_view_context.
  - etransitivity; [exact H2|]. by apply context_registry.
  - intros limit Hi. apply pending_inv_context; [by apply H3|done].
  - done.
Qed.

Lemma force_cancel_entries s : entries (force_cancel s) = entries s.
Proof. unfold force_cancel. by induction (values (entries s)). Qed.

Lemma force_cancel_live s a x :
  a ∈ values (entries s) → heap (force_cancel s) !! a = Some x → sc_cancelled x = true.
Proof.
  unfold force_cancel. generalize (values (entries s)) as l. induction l as [|b l IH]; [by intros ?%elem_of_nil|].
  simpl. rewrite lookup_alter. case_decide as Hb.
  - intros _ Hx. by apply fmap_Some in Hx as (y & _ & ->).
  - intros [->|Ha]%elem_of_cons; [done|]. by apply IH.
Qed.

(** Ending every loop is a run of the world. *)
Lemma reap_list policy s l ks :
  NoDup l.*1 → (∀ sid, sid ∈ l.*1 → ks !! sid = None) →
  rtc (arm_step policy) (mkWorld s (list_to_map l ∪ ks))
    (mkWorld (foldr (fun k s => (early_return TE_Cancelled k s).2) s l.*2) ks).
Proof.
  revert ks. induction l as [|[sid k] l IH]; simpl; intros ks Hn Hf.
  - by rewrite (left_id_L ∅ (∪)).
  - apply list.NoDup_cons in Hn as [Hsid Hn]. rewrite <-insert_union_l, insert_union_r.
    2: { by apply not_elem_of_list_to_map_1. }
    eapply rtc_r.
    + apply (IH (<[sid := k]> ks)); [done|]. intros i Hi. rewrite lookup_insert_ne; [|by intros ->].
      apply Hf. by right.
    + assert (ks = delete sid (<[sid := k]> ks)) as E by (rewrite delete_insert_id; [done|apply Hf; by left]).
      rewrite E at 2. apply (W_return _ _ _ _ _ TE_Cancelled), lookup_insert_eq.
Qed.

Lemma reap_controls_run policy w : rtc (arm_step policy) w (reap_controls w).
Proof.
  destruct w as [s ks]. pose proof (reap_list policy s (map_to_list ks) ∅ (NoDup_fst_map_to_list ks)) as H.
  rewrite list_to_map_to_list, (right_id_L ∅ (∪)) in H. apply H. intros. apply lookup_empty.
Qed.

Lemma drop_list_run policy s l : rtc (arm_step policy) (mkWorld s ∅) (mkWorld (foldr SessionContext_drop s l) ∅).
Proof.
  induction l as [|a l IH]; simpl; [done|]. eapply rtc_r; [exact IH|]. apply W_context_drop.
  intros sid k Hk. by rewrite lookup_empty in Hk.
Qed.

Lemma drop_list_heap s l a : heap (foldr SessionContext_drop s l) !! a = if decide (a ∈ l) then None else heap s !! a.
Proof.
  induction l as [|b l IH]; simpl; [done|]. set (s1 := foldr _ s l) in *.
  assert (heap (SessionContext_drop b s1) = delete b (heap s1)) as ->.
  { unfold SessionContext_drop. destruct (heap s1 !! b) as [y|] eqn:E; [done|]. by rewrite delete_id. }
  rewrite lookup_delete, IH. repeat case_decide; set_solver.
Qed.

Lemma reap_contexts_run policy w :
  w_controls w = ∅ →
  let w' := reap_contexts w in rtc (arm_step policy) w w' ∧ w_controls w' = ∅ ∧ heap (w_server w') = ∅.
Proof.
  destruct w as [s ks]. simpl. intros ->. split_and!; [apply (drop_list_run policy)|done|].
  apply map_eq. intros a. rewrite drop_list_heap, lookup_empty. case_decide as Ha; [done|].
  destruct (heap s !! a) as [x|] eqn:E; [|done].
  exfalso. apply Ha, list_elem_of_fmap. exists (a, x). split; [done|]. by apply elem_of_map_to_list.
Qed.

Lemma rtc_arm_inv bp p x w :
  ingress_inv bp p x → rtc (arm_step bp) (ac_world x) w → ingress_inv bp p (set_world w x).
Proof.
  intros Hi Hr. remember (ac_world x) as w0 eqn:E. revert x Hi E.
  induction Hr as [w0|w0 w1 w2 Hs _ IH]; intros x Hi E; subst; [by destruct x|].
  apply (IH (set_world w1 x)); [|done]. eapply (ingress_step_inv _ _ OverTcp); [|exact Hi]. apply I_arm.
  by rewrite (gi_policy _ _ _ Hi).
Qed.

Lemma abort_handshake_inv bp p x :
  ingress_inv bp p x → (0 < ac_handshaking x)%nat → ingress_inv bp p (abort_handshake x).
Proof.
  intros Hi Hh. pose proof Hi as [Hb Hw Hr Hp Hs Ha Hf]. destruct x as [[s ks] lim bp0 n h]. simpl in *.
  refine (handled_core bp p _ lim (release_slot s) ks Hi Hh _ _ _ _).
  - by apply (world_inv_view _ _ s).
  - by apply (registry_inv_same s).
  - by apply pending_inv_frame.
  - done.
Qed.

Lemma abort_all_handshakes bp p n x :
  ingress_inv bp p x → (n <= ac_handshaking x)%nat →
  let y := Nat.iter n abort_handshake x in
  ingress_inv bp p y ∧ (ac_handshaking y + n = ac_handshaking x)%nat ∧
  w_controls (ac_world y) = w_controls (ac_world x) ∧ heap (w_server (ac_world y)) = heap (w_server (ac_world x)).
Proof.
  intros Hi. induction n as [|n IH]; simpl; intros Hn; [split_and!; [done|lia|done..]|].
  destruct IH as (H1 & H2 & H3 & H4); [lia|]. set (y := Nat.iter n abort_handshake x) in *.
  split_and!; [apply abort_handshake_inv; [done|lia]|simpl; lia|done..].
Qed.

(** ** Drain *)

(** Every entry of the registry points at a context of its own Session. *)
Definition registry_wf (s : Server) : Prop :=
  ∀ sid a, entries s !! sid = Some a → sc_id <$> heap s !! a = Some sid.

Lemma registry_inv_wf w : registry_inv w → registry_wf (w_server w).
Proof.
  intros [Hr He] sid a Ha. destruct (He _ _ Ha) as [k Hk]. destruct (Hr _ _ Hk) as (_ & Hs & Hx).
  rewrite Ha in Hs. by injection Hs as ->.
Qed.

Lemma live_distinct s : registry_wf s → NoDup (sc_id <$> live s).
Proof.
  intros Hw. unfold live, values, upgrade.
  assert (∀ l : list (SessionId * Address), NoDup l.*1 → Forall (fun e => sc_id <$> heap s !! e.2 = Some e.1) l →
    sc_id <$> omap (fun a => heap s !! a) l.*2 = l.*1) as Hl.
  { induction l as [|[sid a] l IH]; simpl; [done|]. intros [_ Hn]%list.NoDup_cons [Hx Hf]%Forall_cons_iff.
    simpl in Hx. apply fmap_Some in Hx as (x & -> & ->). simpl. f_equal. by apply IH. }
  rewrite Hl; [apply NoDup_fst_map_to_list|apply NoDup_fst_map_to_list|].
  apply list.Forall_forall. intros [sid a] Hin%elem_of_map_to_list. by apply Hw.
Qed.

Definition session_ready (room : SessionId → bool) (s : Server) (sid : SessionId) : Prop :=
  ∃ x, x ∈ live s ∧ sc_id x = sid ∧ sc_control_tx x = true ∧ room sid = true.
Definition seen_live (s : Server) (sid : SessionId) : Prop := sid ∈ (sc_id <$> live s).

(** A pass in closed form. *)
Definition wants (room : SessionId → bool) (notified : gset SessionId) (x : SessionContext) : Prop :=
  ¬ (sc_id x ∈ notified) ∧ (sc_control_tx x && room (sc_id x)) = true.
#[export] Instance wants_dec room notified x : Decision (wants room notified x).
Proof. unfold wants. apply _. Defined.

Lemma drain_pass_closed room notified s :
  NoDup (sc_id <$> live s) →
  drain_pass room notified s =
  (list_to_set (sc_id <$> live s) ∪ notified, sc_id <$> filter (wants room notified) (live s)).
Proof.
  unfold drain_pass. induction (live s) as [|y l IH] using rev_ind; intros Hn.
  - simpl. by rewrite (left_id_L ∅ (∪)).
  - rewrite fmap_app in Hn. apply list.NoDup_app in Hn as (Hn & Hy & _).
    rewrite foldl_app, (IH Hn), list.filter_app, !fmap_app, list_to_set_app_L. simpl.
    assert (sc_id y ∉ (sc_id <$> l)) as Hfresh by set_solver.
    case_bool_decide as Hc; rewrite elem_of_union, elem_of_list_to_set in Hc.
    + rewrite filter_cons_False by (unfold wants; set_solver). simpl. rewrite app_nil_r. f_equal. set_solver.
    + f_equal; [set_solver|]. destruct (_ && _) eqn:Hb.
      * by rewrite filter_cons_True by (unfold wants; set_solver).
      * rewrite filter_cons_False by (unfold wants; intros []; congruence). by rewrite app_nil_r.
Qed.

Lemma elem_of_sent room notified s sid :
  sid ∈ (sc_id <$> filter (wants room notified) (live s)) ↔ (sid ∉ notified) ∧ session_ready room s sid.
Proof.
  rewrite list_elem_of_fmap. unfold wants, session_ready. setoid_rewrite list_elem_of_filter.
  setoid_rewrite andb_true_iff. naive_solver.
Qed.

Lemma NoDup_sent room notified s : NoDup (sc_id <$> live s) → NoDup (sc_id <$> filter (wants room notified) (live s)).
Proof. intros Hn. eapply sublist_NoDup; [exact Hn|]. apply fmap_sublist, sublist_filter. Qed.

(** The [i]-th pass is the first that sees the Session, and finds it ready. *)
Definition first_ready (passes : list (Server * (SessionId → bool))) (sid : SessionId) : Prop :=
  ∃ i s room, passes !! i = Some (s, room) ∧ session_ready room s sid ∧
    (∀ j s' room', (j < i)%nat → passes !! j = Some (s', room') → ¬ seen_live s' sid).

Lemma drain_passes_spec passes notified :
  Forall (fun q => NoDup (sc_id <$> live q.1)) passes →
  NoDup (drain_passes notified passes) ∧
  (∀ sid, sid ∈ drain_passes notified passes ↔ (sid ∉ notified) ∧ first_ready passes sid).
Proof.
  revert notified. induction passes as [|[s room] passes IH]; intros notified Hf.
  - simpl. split; [apply NoDup_nil_2|]. intros sid. split; [by intros ?%elem_of_nil|].
    by intros (_ & i & s & room & H & _).
  - apply Forall_cons_iff in Hf as [Hn Hf]. simpl in Hn. simpl. rewrite drain_pass_closed by done.
    destruct (IH (list_to_set (sc_id <$> live s) ∪ notified) Hf) as [IHn IHs]. split.
    + apply list.NoDup_app. split_and!; [by apply NoDup_sent| |done].
      intros sid Hs%elem_of_sent Hs'%IHs. destruct Hs as (_ & x & Hx & <- & _). apply (proj1 Hs').
      apply elem_of_union_l, elem_of_list_to_set. by apply list_elem_of_fmap_2.
    + intros sid. rewrite elem_of_app, elem_of_sent, IHs, not_elem_of_union, elem_of_list_to_set.
      unfold first_ready. split.
      * intros [(Hs & Hr)|((Hl & Hs) & i & s1 & room1 & Hi & Hr & Hj)]; (split; [done|]).
        -- exists 0%nat, s, room. split_and!; [done..|]. intros. lia.
        -- exists (S i), s1, room1. split_and!; [done..|]. intros [|j] s' room' Hlt; simpl; [by intros [= <- <-]|].
           apply Hj. lia.
      * intros (Hs & [|i] & s1 & room1 & Hi & Hr & Hj); simpl in Hi; [simplify_eq; by left|right].
        split; [split; [|done]; by apply (Hj 0%nat s room); [lia|]|]. exists i, s1, room1. split_and!; [done..|].
        intros j s' room' Hlt. apply (Hj (S j)). lia.
Qed.

(** A server without control loops. *)
Lemma idle_clean bp p x :
  ingress_inv bp p x → w_controls (ac_world x) = ∅ →
  let s := w_server (ac_world x) in
  entries s = ∅ ∧ ctr_binds (counters s) = [] ∧ load n_sessions (counters s) = 0 ∧ load n_services (counters s) = 0 ∧
  let z := tasks_gone x in
  heap (w_server (ac_world z)) = ∅ ∧ load n_pending (counters (w_server (ac_world z))) = 0.
Proof.
  intros Hi Hc. pose proof Hi as [_ [_ Hsv Hse How _] [_ Hen] _ _ _ _].
  assert (ctr_binds (counters (w_server (ac_world x))) = []) as Hb.
  { destruct (ctr_binds _) as [|b l] eqn:E; [done|]. destruct (How b) as [k Hk]; [rewrite ?E; by left|].
    by rewrite Hc, lookup_empty in Hk. }
  destruct (reap_contexts_run bp (ac_world x) Hc) as (Hrun & _ & Hheap).
  pose proof (rtc_arm_inv _ _ _ _ Hi Hrun) as [_ _ _ [Hpc _ _] _ _ _].
  cbn [ac_world set_world] in Hpc.
  rewrite Hb, Hc in *. split_and!; try done.
  - apply map_eq. intros sid. rewrite lookup_empty. destruct (entries _ !! sid) eqn:E; [|done].
    apply Hen in E as [k Hk]. by rewrite lookup_empty in Hk.
  - unfold tasks_gone. cbn [ac_world set_world]. rewrite Hpc. unfold pending_total. by rewrite Hheap, values_empty.
Qed.

(** After the drain has cancelled, aborted and joined. *)
Lemma shutdown_clean bp p x :
  ingress_inv bp p x →
  let y := shutdown x in
  ingress_inv bp p y ∧ w_controls (ac_world y) = ∅ ∧ ac_handshaking y = 0%nat.
Proof.
  intros Hi. unfold shutdown.
  pose proof (unseen_inv _ _ _ _ Hi (force_cancel_unseen _)) as Hi1. set (w := mkWorld _ _) in *.
  pose proof (rtc_arm_inv _ _ _ _ Hi1 (reap_controls_run bp w)) as Hi2.
  destruct (abort_all_handshakes bp p (ac_handshaking x) (set_world (reap_controls w) x)) as (Hy & Hn & Hc & _);
    [done|done|].
  split_and!; [done|by rewrite Hc|]. cbn [ac_handshaking set_world] in Hn. lia.
Qed.

(** ** Properties *)

Lemma ingress_start bp p : 0 <= accepted_handshakes (limits p) → ingress_inv bp p (AcceptContext_new bp p).
Proof.
  intros Hl. destruct (world_reachable bp p (idle_world p)) as [Hw _]; [apply rtc_refl|].
  split; try done. simpl. lia.
Qed.

Lemma ingress_reachable bp p t x :
  finite_policy p → rtc (ingress_step t) (AcceptContext_new bp p) x →
  ingress_inv bp p x ∧ 1 <= accepted_handshakes (limits p) <= 65536.
Proof.
  intros (Hl & _) Hr. unfold limit_values in Hl. rewrite !Forall_cons_iff in Hl.
  assert (1 <= accepted_handshakes (limits p) <= 65536) as Hb by tauto. split; [|done].
  refine (rtc_ind_r (ingress_inv bp p) _ _ _ _ Hr).
  - apply ingress_start. lia.
  - intros. by eapply ingress_step_inv.
Qed.

(** C24. Unauthenticated peers are bounded.  In every reachable state of a
    server with a valid policy, over TCP, WebSocket or QUIC, whatever
    connections arrive and however their TLS, first message, hello or
    credentials fail: the free permits and the connections still shaking hands
    add up to [accepted_handshakes], the handshake gauge counts exactly those
    connections, and so never exceeds that limit.  Every path gives the permit
    and the guard back exactly once. *)
Theorem handshakes_bounded bp p t x :
  finite_policy p → rtc (ingress_step t) (AcceptContext_new bp p) x →
  ac_admission x + Z.of_nat (ac_handshaking x) = accepted_handshakes (limits p) ∧
  load n_handshakes (counters (w_server (ac_world x))) = Z.of_nat (ac_handshaking x) ∧
  0 <= load n_handshakes (counters (w_server (ac_world x))) <= accepted_handshakes (limits p).
Proof.
  intros Hp Hr. destruct (ingress_reachable _ _ _ _ Hp Hr) as [[_ _ _ _ Hs Ha Hf] Hb].
  rewrite Hs. assert (wrap 64 (Z.of_nat (ac_handshaking x)) = Z.of_nat (ac_handshaking x)) as ->; [|lia].
  apply Z.mod_small. lia.
Qed.

(** Shutdown leaves nothing behind.  From every reachable state of a TCP
    or WebSocket server with a valid policy, once the drain has cancelled the
    live Sessions, aborted its handlers and joined them, no Session runs, the
    registry and the bind table are empty, the gauges of Sessions, services and
    handshakes are zero, and every handshake permit is back; and when the
    service tasks aborted with their Sessions are gone too, so are the contexts
    and the pending connections. *)
Theorem shutdown_leaves_nothing bp p x :
  finite_policy p → rtc (ingress_step OverTcp) (AcceptContext_new bp p) x →
  let y := shutdown x in let s := w_server (ac_world y) in
  w_controls (ac_world y) = ∅ ∧ entries s = ∅ ∧ ctr_binds (counters s) = [] ∧
  load n_sessions (counters s) = 0 ∧ load n_services (counters s) = 0 ∧
  load n_handshakes (counters s) = 0 ∧ ac_admission y = accepted_handshakes (limits p) ∧
  let z := tasks_gone y in
  heap (w_server (ac_world z)) = ∅ ∧ load n_pending (counters (w_server (ac_world z))) = 0.
Proof.
  intros Hp Hr. destruct (ingress_reachable _ _ _ _ Hp Hr) as [Hi _].
  destruct (shutdown_clean bp p x Hi) as (Hy & Hc & Hh). cbv zeta in *.
  destruct (idle_clean bp p _ Hy Hc) as (H1 & H2 & H3 & H4 & H5 & H6).
  pose proof (gi_slots _ _ _ Hy) as Hs. pose proof (gi_admission _ _ _ Hy) as Ha. rewrite Hh in Hs, Ha.
  split_and!; try done. lia.
Qed.

(** C25. The first message decides what a connection becomes, and the identity
    TLS proved goes with it.  A control Session exists only after a
    [ClientHello] that [serve_control] accepted, and its context carries the
    peer identity of this very connection (the digest of the leaf certificate
    under mTLS, none otherwise); a stream is delivered only for a [DataHello]
    naming a live Session with the same identity; everything else ends with an
    error and leaves the registry as it was.  In all cases the handshake slot
    is given back. *)
Theorem connection_role digest ct_eq tls websocket io source token closed now a lim s :
  heap s !! a = None → entries_alive s →
  (∀ bytes, random_id (ci_handshake io) = Some bytes → entries s !! mkSessionId bytes = None) →
  let '(r, _, s') := handle_connection digest ct_eq tls websocket io source token closed now a lim s in
  slot_released s s' ∧
  match r with
  | Serving k => ∃ principal hello x,
      accept_tls digest tls (ci_tls io) = Ok principal ∧ ci_first io = Ready (Ok (M_ClientHello hello)) ∧
      hs_result (handshake ct_eq (ci_handshake io) (mkPeer source principal) token hello now a lim s) = Ok k ∧
      entries s' !! ct_session k = Some a ∧ heap s' !! a = Some x ∧ sc_principal x = principal
  | Delivered tx => ∃ principal hello b y e,
      accept_tls digest tls (ci_tls io) = Ok principal ∧ ci_first io = Ready (Ok (M_DataHello hello)) ∧
      entries s !! dh_session_id hello = Some b ∧ heap s !! b = Some y ∧ sc_principal y = principal ∧
      sc_pending y !! dh_connection_id hello = Some e ∧ pe_data_tx e = tx
  | Ended _ => same_registry s s'
  end.
Proof.
  intros Ha Hl Hf. unfold handle_connection.
  destruct (accept_tls digest tls (ci_tls io)) as [principal|e] eqn:Et; simpl; [|done].
  destruct (upgrade_websocket _ _) as [[]|e]; simpl; [|done].
  destruct (ci_first io) as [[m|e]|] eqn:Em; simpl; [|done..].
  destruct m; try done.
  - unfold serve_hello.
    pose proof (handshake_slots ct_eq (ci_handshake io) (mkPeer source principal) token v now a lim s) as Hs.
    pose proof (handshake_registry ct_eq (ci_handshake io) (mkPeer source principal) token v now a lim s Ha Hl) as Hr.
    unfold registers in Hr. destruct (hs_result _) as [k|e] eqn:E; (split; [exact Hs|]).
    + destruct Hr as (x & _ & _ & _ & Hp & _ & -> & -> & _). exists principal, v, x.
      split_and!; try done; apply lookup_insert_eq.
    + destruct (Hr Hf) as [Hh He]. split; [done|]. by rewrite Hh.
  - pose proof (data_hello_slots closed now v principal s) as Hs.
    pose proof (data_hello_registry closed now v principal s) as Hr.
    unfold deliver. destruct (accept_data_hello _ _ _ _ _) as [[tx|e] s1] eqn:Eh; simpl in *;
      (split; [unfold slot_released; by rewrite <-Hs|]); [|done].
    apply accept_data_hello_ok in Eh as (b & y & e & ? & ? & ? & ? & _ & _ & ? & _). by exists principal, v, b, y, e.
Qed.

(** C36. Drain notifies each Session at most once, and exactly those that are
    ready when it first sees them.  Over any passes, each seeing the server as
    it is then, the Sessions that are sent a [Drain] are those whose control
    queue exists and has room in the first pass in which they are live.  So a
    Session that is registered but still writing its [AuthOk], and has no
    queue yet, is marked as notified all the same and never learns of the
    drain, however ready it is in a later pass.  After the deadline every
    registered Session is cancelled. *)
Theorem drain_notifies passes :
  Forall (fun q => registry_wf q.1) passes →
  NoDup (drain_passes ∅ passes) ∧
  (∀ sid, sid ∈ drain_passes ∅ passes ↔ first_ready passes sid) ∧
  (∀ s sid a x, entries s !! sid = Some a → heap (force_cancel s) !! a = Some x → sc_cancelled x = true).
Proof.
  intros Hf. destruct (drain_passes_spec passes ∅) as [Hn Hs].
  { eapply list.Forall_impl; [exact Hf|]. intros q Hq. by apply live_distinct. }
  split_and!; [done| |].
  - intros sid. rewrite Hs. set_solver.
  - intros s sid a x Ha. apply force_cancel_live. apply elem_of_values. eauto.
Qed.

(** The tasks of one QUIC connection: a stream arrives or a task is joined. *)
Inductive quic_step : QuicStreams → QuicStreams → Prop :=
| Q_stream q accepted c : quic_step q (on_quic_stream accepted q c).1.2
| Q_joined q r c : (0 < qs_running q)%nat → quic_step q (on_quic_joined r q c).1.

(** The data streams of a QUIC connection are bounded: however streams
    arrive and end, the free permits and the running tasks add up to the
    ceiling, so at most that many run; a stream over the ceiling starts
    nothing. *)
Theorem quic_streams_bounded max q :
  0 <= max → rtc quic_step (QuicStreams_new max) q →
  qs_admission q + Z.of_nat (qs_running q) = max ∧ 0 <= Z.of_nat (qs_running q) <= max.
Proof.
  intros Hm Hr.
  assert (qs_admission q + Z.of_nat (qs_running q) = max ∧ 0 <= qs_admission q) as [? ?]; [|lia].
  refine (rtc_ind_r (fun q => qs_admission q + Z.of_nat (qs_running q) = max ∧ 0 <= qs_admission q) _ _ _ _ Hr).
  - simpl. lia.
  - intros y z _ [y' accepted c|y' r c Hpos] IH; [|simpl; lia].
    unfold on_quic_stream. destruct accepted, (0 <? qs_admission y') eqn:E; simpl; bools; lia.
Qed.

(** ** Witnesses: one connection is accepted, and one control Session starts *)

Lemma default_finite : finite_policy RuntimePolicy_default.
Proof.
  split_and!; [repeat constructor; vm_compute; discriminate..| | ]; vm_compute; [discriminate|reflexivity].
Qed.

Definition sample_accepted : AcceptContext :=
  on_accept true (AcceptContext_new BindPolicy_default RuntimePolicy_default).

Definition sample_connection_io : ConnectionIo :=
  mkConnectionIo (StageDone (Ok (Some [[Byte.x30]]))) Pending (Ready (Ok (M_ClientHello sample_client)))
    (sample_io sample_token).

Definition sample_outcome : Served * AuthFailureLimiter * Server :=
  handle_connection (fun c => c) sample_ct_eq Mutual false sample_connection_io (peer_source sample_peer)
    (mkSecretToken sample_token) (fun _ => false) 5 0 (ac_limiter sample_accepted)
    (w_server (ac_world sample_accepted)).

Definition sample_ingress : AcceptContext := handled sample_outcome sample_accepted.

Lemma sample_accepted_reachable :
  rtc (ingress_step OverTcp) (AcceptContext_new BindPolicy_default RuntimePolicy_default) sample_accepted.
Proof. apply rtc_once, I_accept. Qed.

Lemma sample_ingress_reachable :
  rtc (ingress_step OverTcp) (AcceptContext_new BindPolicy_default RuntimePolicy_default) sample_ingress.
Proof.
  eapply rtc_r; [apply sample_accepted_reachable|].
  apply (I_handled sample_accepted (fun c => c) sample_ct_eq Mutual false sample_connection_io); [vm_compute; lia|].
  split; [reflexivity|]. intros bytes _. reflexivity.
Qed.

Lemma handshakes_bounded_witness :
  load n_handshakes (counters (w_server (ac_world sample_accepted))) = 1.
Proof.
  pose proof (handshakes_bounded BindPolicy_default RuntimePolicy_default OverTcp sample_accepted
    default_finite sample_accepted_reachable) as (_ & H & _).
  rewrite H. reflexivity.
Defined.

Lemma shutdown_leaves_nothing_witness :
  size (w_controls (ac_world sample_ingress)) = 1%nat ∧ w_controls (ac_world (shutdown sample_ingress)) = ∅.
Proof.
  split; [vm_compute; reflexivity|].
  refine (proj1 (shutdown_leaves_nothing BindPolicy_default RuntimePolicy_default sample_ingress
    default_finite sample_ingress_reachable)).
Defined.

Lemma connection_role_witness :
  slot_released (w_server (ac_world sample_accepted)) sample_outcome.2.
Proof.
  pose proof (connection_role (fun c => c) sample_ct_eq Mutual false sample_connection_io
    (peer_source sample_peer) (mkSecretToken sample_token) (fun _ => false) 5 0 (ac_limiter sample_accepted)
    (w_server (ac_world sample_accepted)) eq_refl
    (fun sid a H => False_ind _ (eq_ind None (fun o => match o with None => True | Some _ => False end) I _ H))
    (fun bytes _ => eq_refl)) as H.
  fold sample_outcome in H. destruct sample_outcome as [[r lim] s']. exact (proj1 H).
Defined.

(** A Session between its registration and its [AuthOk], and a moment later. *)
Definition sample_registering : Server :=
  SessionGuard_new (register 0 sample_sid 8
    (allocate 0 (new_context sample_sid None (with_policy RuntimePolicy_default))
       (new_session_registry RuntimePolicy_default))).2.
Definition sample_greeted : Server := on_context 0 (set_sc_control_tx true) sample_registering.

Lemma sample_registry_wf s :
  entries s = entries sample_registering → (sc_id <$> heap s !! 0%nat) = Some sample_sid → registry_wf s.
Proof.
  assert (entries sample_registering = {[sample_sid := 0%nat]}) as E.
  { unfold sample_registering. rewrite register_alive; [done|]. by intros ? ?. }
  intros He Hh sid a Ha. rewrite He, E in Ha. by apply lookup_singleton_Some in Ha as [<- <-].
Qed.

Lemma drain_notifies_witness :
  drain_passes ∅ [(sample_greeted, fun _ => true)] = [sample_sid] ∧
  drain_passes ∅ [(sample_registering, fun _ => true); (sample_greeted, fun _ => true)] = [] ∧
  NoDup (drain_passes ∅ [(sample_registering, fun _ => true); (sample_greeted, fun _ => true)]).
Proof.
  split; [vm_compute; reflexivity|]. split; [vm_compute; reflexivity|].
  apply drain_notifies. rewrite !Forall_cons_iff, Forall_nil_iff.
  split; [apply sample_registry_wf; reflexivity|]. split; [apply sample_registry_wf; reflexivity|exact I].
Defined.

Lemma quic_streams_bounded_witness :
  let q := (on_quic_stream true (on_quic_stream true (QuicStreams_new 1) (with_policy RuntimePolicy_default)).1.2
              (with_policy RuntimePolicy_default)).1.2 in
  qs_running q = 1%nat ∧ 0 <= Z.of_nat (qs_running q) <= 1.
Proof.
  split; [reflexivity|]. apply (quic_streams_bounded 1); [lia|].
  eapply rtc_l; [apply Q_stream|]. eapply rtc_l; [apply Q_stream|]. apply rtc_refl.
Defined.
