(* ===== verification/Drain.v ===== *)
(** * The drain loop: crates/eggtunnel/src/server/accept.rs

    [AcceptContext::drain] as it runs: interest in the registry is armed, the
    live Sessions are enumerated and notified, and the loop waits for the next
    registration or the deadline, while the handlers and the control loops of
    the server go on.  The listener is gone by then, so no connection is
    accepted any more. *)

From S2P Require Import Prelude Text Proto Codec Varint Frame Common WireIo AuthLimiter Session Control Registry Accept.

(** ** The loop *)

Inductive DrainPhase := D_arm | D_enumerate | D_wait | D_reap.

(** [dr_changed] says that the armed [Notified] has fired; [dr_passes] are the
    enumerations so far, each with the server it saw and the queues that had
    room, and [dr_steps] counts the steps of the loop itself. *)
Record Draining := mkDraining
  { dr_context : AcceptContext;
    dr_phase : DrainPhase;
    dr_notified : gset SessionId;
    dr_sent : list SessionId;
    dr_changed : bool;
    dr_passes : list (Server * (SessionId → bool));
    dr_steps : nat }.

Definition drain_start (x : AcceptContext) : Draining := mkDraining x D_arm ∅ [] false [] 0.

(** [changed.as_mut().enable()]. *)
Definition drain_arm (d : Draining) : Draining :=
  mkDraining (dr_context d) D_enumerate (dr_notified d) (dr_sent d) false (dr_passes d) (S (dr_steps d)).

(** The [for] loop over [SessionContext::live]. *)
Definition drain_enumerate (room : SessionId → bool) (d : Draining) : Draining :=
  let s := w_server (ac_world (dr_context d)) in
  let '(seen, sent) := drain_pass room (dr_notified d) s in
  mkDraining (dr_context d) D_wait seen (dr_sent d ++ sent) (dr_changed d) (dr_passes d ++ [(s, room)]) (S (dr_steps d)).

(** [timeout_at(deadline, changed).await] polls [changed] first; [None] while
    it waits. *)
Definition drain_await (elapsed : bool) (d : Draining) : option Draining :=
  let next phase := mkDraining (dr_context d) phase (dr_notified d) (dr_sent d) (dr_changed d) (dr_passes d) (S (dr_steps d)) in
  if dr_changed d then Some (next D_arm) else if elapsed then Some (next D_reap) else None.

(** The next step of the loop, if it has one now. *)
Definition drain_next (room : SessionId → bool) (elapsed : bool) (d : Draining) : option Draining :=
  match dr_phase d with
  | D_arm => Some (drain_arm d)
  | D_enumerate => Some (drain_enumerate room d)
  | D_wait => drain_await elapsed d
  | D_reap => None
  end.

Definition registered (x : AcceptContext) : gset SessionId := dom (entries (w_server (ac_world x))).

Definition on_context_step (x : AcceptContext) (woken : bool) (d : Draining) : Draining :=
  mkDraining x (dr_phase d) (dr_notified d) (dr_sent d) (dr_changed d || woken) (dr_passes d) (dr_steps d).

(** A step of the loop, or of the server around it.  Nothing is accepted any
    more; [register] wakes the waiters, and only a handler that ends its
    handshake registers. *)
Inductive drain_step (t : Listening) : Draining → Draining → Prop :=
| DR_own d room elapsed d' : drain_next room elapsed d = Some d' → drain_step t d d'
| DR_server d x' woken :
    ingress_step t (dr_context d) x' →
    (ac_handshaking x' <= ac_handshaking (dr_context d))%nat →
    (woken = true → ac_handshaking x' < ac_handshaking (dr_context d))%nat →
    (woken = false → registered x' ⊆ registered (dr_context d)) →
    drain_step t d (on_context_step x' woken d).

(** The rest of [drain] over TCP: the live Sessions are cancelled, the handlers
    aborted and joined. *)
Definition drain_end (d : Draining) : AcceptContext := shutdown (dr_context d).

(** The same, one handler at a time.  [reap_start] cancels the live Sessions and
    aborts the handlers; an aborted handler is dropped when its task is next
    taken up, and may finish what it is doing before, but nothing is accepted
    any more.  [join_next] returns when no handler is left. *)
Definition handlers_left (x : AcceptContext) : nat := ac_handshaking x + size (w_controls (ac_world x)).

Definition reap_start (x : AcceptContext) : AcceptContext :=
  set_world (mkWorld (force_cancel (w_server (ac_world x))) (w_controls (ac_world x))) x.

Definition abort_control (sid : SessionId) (k : Control) (x : AcceptContext) : AcceptContext :=
  set_world (mkWorld (early_return TE_Cancelled k (w_server (ac_world x))).2 (delete sid (w_controls (ac_world x)))) x.

Inductive reap_step : AcceptContext → AcceptContext → Prop :=
| RP_handshake x : (0 < ac_handshaking x)%nat → reap_step x (abort_handshake x)
| RP_control x sid k : w_controls (ac_world x) !! sid = Some k → reap_step x (abort_control sid k x)
| RP_running x x' :
    ingress_step OverTcp x x' → (handlers_left x' <= handlers_left x)%nat → reap_step x x'.

(** ** Lemmas *)

Definition pending_wake (d : Draining) : nat := if dr_changed d then 1 else 0.

(** How many steps the loop has left: a pass takes three, and only a handler
    that ends its handshake makes it do another one. *)
Definition drain_measure (d : Draining) : nat :=
  3 * ac_handshaking (dr_context d) +
  match dr_phase d with
  | D_arm => 3
  | D_enumerate => 3 * pending_wake d + 2
  | D_wait => 3 * pending_wake d + 1
  | D_reap => 0
  end.

Lemma drain_next_measure room elapsed d d' :
  drain_next room elapsed d = Some d' → dr_context d' = dr_context d ∧ dr_steps d' = S (dr_steps d) ∧
  (drain_measure d' < drain_measure d)%nat.
Proof.
  unfold drain_next, drain_measure, drain_arm, drain_enumerate, drain_await, pending_wake.
  destruct (dr_phase d); try done.
  - intros [= <-]. simpl. split_and!; [done..|lia].
  - destruct (drain_pass _ _ _) as [seen sent]. intros [= <-]. simpl. split_and!; [done..|lia].
  - destruct (dr_changed d); [|destruct elapsed; [|done]]; intros [= <-]; simpl; split_and!; try done; lia.
Qed.

Lemma drain_step_measure t d d' :
  drain_step t d d' → (dr_steps d' + drain_measure d' <= dr_steps d + drain_measure d)%nat.
Proof.
  intros [d0 room elapsed d1 Hn|d0 x' woken _ Hle Hlt _].
  - apply drain_next_measure in Hn as (_ & Hs & Hm). lia.
  - unfold drain_measure, pending_wake. simpl. destruct woken; [specialize (Hlt eq_refl)|]; destruct (dr_changed d0), (dr_phase d0); simpl; lia.
Qed.

Lemma drain_passes_app notified passes s room :
  drain_passes notified (passes ++ [(s, room)]) =
  drain_passes notified passes ++
  (drain_pass room (foldl (fun seen q => (drain_pass q.2 seen q.1).1) notified passes) s).2.
Proof.
  revert notified. induction passes as [|[s' room'] passes IH]; intros notified; simpl.
  - destruct (drain_pass room notified s) as [seen sent]. by rewrite app_nil_r.
  - destruct (drain_pass room' notified s') as [seen sent]. by rewrite IH, app_assoc.
Qed.

(** What the loop has sent and seen, by its passes; and what it has seen of the
    registry. *)
Record drain_inv bp p (d : Draining) : Prop :=
  { di_ingress : ingress_inv bp p (dr_context d);
    di_notified : dr_notified d = foldl (fun seen q => (drain_pass q.2 seen q.1).1) ∅ (dr_passes d);
    di_sent : dr_sent d = drain_passes ∅ (dr_passes d);
    di_passes : Forall (fun q => registry_wf q.1) (dr_passes d);
    di_count : (3 * length (dr_passes d) + match dr_phase d with D_enumerate => 1 | _ => 0 end <=
                dr_steps d + match dr_phase d with D_wait => 1 | _ => 0 end)%nat;
    di_seen : (dr_phase d = D_wait ∨ dr_phase d = D_reap) → dr_changed d = false →
      registered (dr_context d) ⊆ dr_notified d }.

Lemma drain_pass_sees room notified s :
  registry_wf s → dom (entries s) ⊆ (drain_pass room notified s).1.
Proof.
  intros Hw sid [a Ha]%elem_of_dom. rewrite drain_pass_closed by (by apply live_distinct). simpl.
  apply elem_of_union_l, elem_of_list_to_set. pose proof (Hw _ _ Ha) as (x & Hx & Hsid)%fmap_Some. rewrite Hsid.
  apply list_elem_of_fmap_2. unfold live, upgrade. apply list_elem_of_omap. exists a. split; [|done].
  apply elem_of_values. by exists sid.
Qed.

Lemma drain_next_inv bp p room elapsed d d' :
  drain_next room elapsed d = Some d' → drain_inv bp p d → drain_inv bp p d'.
Proof.
  intros Hn [Hi Hno Hse Hpa Hco Hsn]. unfold drain_next in Hn. destruct (dr_phase d) eqn:Hp; try done.
  - injection Hn as <-. split; simpl; try done; try lia. by intros [|].
  - injection Hn as <-. unfold drain_enumerate.
    pose proof (registry_inv_wf _ (gi_registry _ _ _ Hi)) as Hw.
    pose proof (drain_pass_sees room (dr_notified d) _ Hw) as Hsees.
    destruct (drain_pass _ _ _) as [seen sent] eqn:E. split; simpl; try done.
    + rewrite foldl_app, <-Hno. simpl. by rewrite E.
    + by rewrite drain_passes_app, <-Hno, E, Hse.
    + rewrite Forall_app, Forall_cons_iff, Forall_nil_iff. done.
    + rewrite length_app. simpl. lia.
  - unfold drain_await in Hn. destruct (dr_changed d) eqn:Hc; [|destruct elapsed; [|done]]; injection Hn as <-.
    + split; simpl; try done; try lia.
    + split; simpl; try done; try lia. intros _ _. apply Hsn; [by left|done].
Qed.

Lemma drain_step_inv bp p t d d' : drain_step t d d' → drain_inv bp p d → drain_inv bp p d'.
Proof.
  intros Hs Hd. destruct Hs as [d room elapsed d' Hn|d x' woken Hs Hle Hlt Hreg]; [by eapply drain_next_inv|].
  destruct Hd as [Hi Hno Hse Hpa Hco Hsn]. split; simpl; try done.
  - by eapply ingress_step_inv.
  - intros Hp [Hc ->]%orb_false_iff. etransitivity; [by apply Hreg|]. by apply Hsn.
Qed.

Lemma drain_reachable bp p t x d :
  finite_policy p → rtc (ingress_step t) (AcceptContext_new bp p) x → rtc (drain_step t) (drain_start x) d →
  drain_inv bp p d ∧ (dr_steps d + drain_measure d <= 3 * ac_handshaking x + 3)%nat ∧
  rtc (ingress_step t) (AcceptContext_new bp p) (dr_context d).
Proof.
  intros Hp Hx Hr. destruct (ingress_reachable _ _ _ _ Hp Hx) as [Hi _].
  refine (rtc_ind_r (fun d => drain_inv bp p d ∧ (dr_steps d + drain_measure d <= 3 * ac_handshaking x + 3)%nat ∧
    rtc (ingress_step t) (AcceptContext_new bp p) (dr_context d)) _ _ _ _ Hr).
  - split_and!; [|unfold drain_measure; simpl; lia|done]. split; simpl; try done. by intros [|].
  - intros d1 d2 _ Hs (Hd & Hm & Hc). split_and!; [by eapply drain_step_inv|apply drain_step_measure in Hs; lia|].
    destruct Hs as [d1 room elapsed d2 Hn|d1 x' woken Hs Hle Hlt Hreg].
    + apply drain_next_measure in Hn as (-> & _). done.
    + by eapply rtc_r.
Qed.

(** ** Lemmas: reaping *)

Lemma reap_start_inv bp p x : ingress_inv bp p x → ingress_inv bp p (reap_start x).
Proof. intros Hi. exact (unseen_inv _ _ _ _ Hi (force_cancel_unseen _)). Qed.

Lemma reap_step_inv bp p x x' : reap_step x x' → ingress_inv bp p x → ingress_inv bp p x'.
Proof.
  destruct 1 as [x Hh|x sid k Hk|x x' Hs _]; intros Hi; [by apply abort_handshake_inv| |by eapply ingress_step_inv].
  apply rtc_arm_inv; [done|]. apply rtc_once. destruct x as [[s ks] lim bp0 n h]. by apply W_return.
Qed.

(** The handlers are as many as the two ceilings allow. *)
Lemma reap_step_ceiling bp p x x' :
  reap_step x x' → ingress_inv bp p x → within_ceiling p (ac_world x) → within_ceiling p (ac_world x').
Proof.
  destruct 1 as [x Hh|x sid k Hk|x x' Hs _]; intros Hi Hc; [done| |by eapply ingress_step_ceiling].
  destruct x as [[s ks] lim bp0 n h].
  pose proof (arm_step_entries bp _ _ (W_return bp s ks sid k TE_Cancelled Hk)) as Hs%map_subseteq_size.
  unfold within_ceiling in *. simpl in *. lia.
Qed.

Lemma ingress_reachable_ceiling bp p t x :
  finite_policy p → rtc (ingress_step t) (AcceptContext_new bp p) x → within_ceiling p (ac_world x).
Proof.
  intros Hp Hr. refine (rtc_ind_r (fun x => rtc (ingress_step t) (AcceptContext_new bp p) x → within_ceiling p (ac_world x))
    _ _ _ _ Hr Hr).
  - intros _. unfold within_ceiling. simpl. rewrite map_size_empty. lia.
  - intros y z Hy Hs IH _. destruct (ingress_reachable _ _ _ _ Hp Hy) as [Hi _].
    eapply ingress_step_ceiling; [done..|]. by apply IH.
Qed.

Lemma handlers_bound bp p x :
  ingress_inv bp p x → within_ceiling p (ac_world x) →
  Z.of_nat (handlers_left x) <= accepted_handshakes (limits p) + Z.max 0 (sessions_limit (limits p)).
Proof.
  intros [_ _ Hr _ _ Ha Hf] Hc. unfold handlers_left, within_ceiling in *.
  rewrite <-size_dom, <-(registry_dom _ Hr), size_dom in Hc. lia.
Qed.

Lemma reap_controls_steps x l ks :
  NoDup l.*1 → (∀ sid, sid ∈ l.*1 → ks !! sid = None) →
  rtc reap_step (set_world (mkWorld (w_server (ac_world x)) (list_to_map l ∪ ks)) x)
    (set_world (mkWorld (foldr (fun k s => (early_return TE_Cancelled k s).2) (w_server (ac_world x)) l.*2) ks) x).
Proof.
  revert ks. induction l as [|[sid k] l IH]; simpl; intros ks Hn Hf; [by rewrite (left_id_L ∅ (∪))|].
  apply list.NoDup_cons in Hn as [Hsid Hn]. rewrite <-insert_union_l, insert_union_r.
  2: { by apply not_elem_of_list_to_map_1. }
  eapply rtc_r.
  - apply (IH (<[sid := k]> ks)); [done|]. intros i Hi. rewrite lookup_insert_ne; [|by intros ->].
    apply Hf. by right.
  - set (y := set_world _ x). pose proof (RP_control y sid k (lookup_insert_eq _ _ _)) as Hs.
    unfold y, abort_control in Hs. simpl in Hs. rewrite delete_insert_id in Hs; [exact Hs|]. apply Hf. by left.
Qed.

(** [drain_end] is one order in which the handlers can be reaped. *)
Lemma drain_end_reaps d : rtc reap_step (reap_start (dr_context d)) (drain_end d).
Proof.
  unfold drain_end, shutdown. set (x := dr_context d). set (w := mkWorld (force_cancel _) _).
  etransitivity.
  - pose proof (reap_controls_steps (reap_start x) (map_to_list (w_controls w)) ∅ (NoDup_fst_map_to_list _)) as H.
    rewrite list_to_map_to_list, (right_id_L ∅ (∪)) in H. apply H. intros. apply lookup_empty.
  - set (y := set_world (reap_controls w) x). change (rtc reap_step y (Nat.iter (ac_handshaking y) abort_handshake y)).
    generalize y as y0. clear. intros y.
    assert (∀ n, (n <= ac_handshaking y)%nat → rtc reap_step y (Nat.iter n abort_handshake y) ∧
      (ac_handshaking (Nat.iter n abort_handshake y) + n = ac_handshaking y)%nat) as H; [|by apply H].
    induction n as [|n IH]; intros Hn; simpl; [split; [done|lia]|]. destruct IH as [Hr Hc]; [lia|].
    split; [|lia]. eapply rtc_r; [exact Hr|]. apply RP_handshake. lia.
Qed.

Lemma notified_seen passes sid :
  Forall (fun q => registry_wf q.1) passes →
  sid ∈ foldl (fun seen q => (drain_pass q.2 seen q.1).1) ∅ passes → ∃ s r, (s, r) ∈ passes ∧ seen_live s sid.
Proof.
  intros Hf. induction passes as [|[s r] passes IH] using rev_ind; [by intros ?%elem_of_empty|].
  apply Forall_app in Hf as [Hf [Hw _]%Forall_cons_iff]. rewrite foldl_app. simpl.
  rewrite drain_pass_closed by (by apply live_distinct). simpl. intros [Hs|Hs]%elem_of_union.
  - exists s, r. split; [apply elem_of_app; right; by left|]. by apply elem_of_list_to_set in Hs.
  - destruct (IH Hf Hs) as (s' & r' & Hin & Hl). exists s', r'. split; [apply elem_of_app; by left|done].
Qed.

(** ** Properties *)

(** C16. The drain terminates, however handshakes end and Sessions register
    meanwhile.  From every reachable state of a server in which [n]
    connections are still shaking hands, the drain enumerates the Sessions at
    most [n + 1] times and takes at most [3 * (n + 1)] steps of its own before
    it stops waiting; it never gets stuck on the way: once the deadline has
    passed it always has a next step. *)
Theorem drain_terminates bp p t x d :
  finite_policy p → rtc (ingress_step t) (AcceptContext_new bp p) x → rtc (drain_step t) (drain_start x) d →
  (length (dr_passes d) <= ac_handshaking x + 1)%nat ∧
  (dr_steps d <= 3 * (ac_handshaking x + 1))%nat ∧
  (dr_phase d ≠ D_reap → ∀ room, is_Some (drain_next room true d)).
Proof.
  intros Hp Hx Hr. destruct (drain_reachable _ _ _ _ _ Hp Hx Hr) as ([_ _ _ _ Hco _] & Hm & _).
  unfold drain_measure, drain_next, drain_await in *. split_and!.
  - destruct (dr_phase d); lia.
  - lia.
  - intros Hph room. destruct (dr_phase d); try done. by destruct (dr_changed d).
Qed.

(** C15. No Session escapes the drain.  When the drain stops waiting at its
    deadline, every Session registered by then, also one that registered after
    the drain began, has been seen by one of its passes: those that were ready
    when first seen have been sent exactly one [Drain].  Over TCP, what follows
    (the live Sessions are cancelled, the handlers aborted and joined) leaves no
    Session, no published address and no handshake slot taken. *)
Theorem drain_complete bp p t x d d' room :
  finite_policy p → rtc (ingress_step t) (AcceptContext_new bp p) x → rtc (drain_step t) (drain_start x) d →
  drain_next room true d = Some d' → dr_phase d' = D_reap →
  registered (dr_context d') ⊆ dr_notified d' ∧
  (∀ sid, sid ∈ registered (dr_context d') → ∃ s r, (s, r) ∈ dr_passes d' ∧ seen_live s sid) ∧
  NoDup (dr_sent d') ∧ (∀ sid, sid ∈ dr_sent d' ↔ first_ready (dr_passes d') sid) ∧
  (t = OverTcp → let y := drain_end d' in
     w_controls (ac_world y) = ∅ ∧ registered y = ∅ ∧ ctr_binds (counters (w_server (ac_world y))) = [] ∧
     ac_admission y = accepted_handshakes (limits p)).
Proof.
  intros Hp Hx Hr Hn Hph. destruct (drain_reachable _ _ _ _ _ Hp Hx Hr) as (Hd & _ & _).
  pose proof (drain_next_inv _ _ _ _ _ _ Hn Hd) as [Hi Hno Hse Hpa _ Hsn].
  assert (dr_changed d' = false) as Hc.
  { unfold drain_next, drain_arm, drain_enumerate, drain_await in Hn. destruct (dr_phase d); simplify_eq/=; try done.
    - destruct (drain_pass _ _ _). by simplify_eq/=.
    - destruct (dr_changed d) eqn:E; by simplify_eq/=. }
  destruct (drain_passes_spec (dr_passes d') ∅) as [Hnd Hsent].
  { eapply list.Forall_impl; [exact Hpa|]. intros q Hq. by apply live_distinct. }
  split_and!; [by apply Hsn; [right|]| |by rewrite Hse| |].
  - intros sid Hsid. apply notified_seen; [done|]. rewrite <-Hno. apply Hsn; [by right|done..].
  - intros sid. rewrite Hse, Hsent. set_solver.
  - intros _. destruct (shutdown_clean _ _ _ Hi) as (Hy & H1 & Hh). unfold registered, drain_end. cbv zeta in *.
    destruct (idle_clean _ _ _ Hy H1) as (H2 & H3 & _). pose proof (gi_admission _ _ _ Hy) as Ha. rewrite Hh in Ha.
    split_and!; [done|by rewrite H2, dom_empty_L|done|lia].
Qed.

(** ** Witnesses: one Session is running when the drain begins *)

Definition sample_waiting : Draining :=
  drain_enumerate (fun _ => true) (drain_arm (drain_start sample_ingress)).

Lemma sample_waiting_reachable : rtc (drain_step OverTcp) (drain_start sample_ingress) sample_waiting.
Proof.
  eapply rtc_l; [apply (DR_own OverTcp _ (fun _ => true) false), eq_refl|].
  apply rtc_once, (DR_own OverTcp _ (fun _ => true) false). reflexivity.
Qed.

Lemma sample_waiting_phase : dr_phase sample_waiting = D_wait ∧ dr_changed sample_waiting = false.
Proof. unfold sample_waiting, drain_enumerate. by destruct (drain_pass _ _ _). Qed.

Lemma drain_terminates_witness :
  (length (dr_passes sample_waiting) <= 1)%nat ∧ is_Some (drain_next (fun _ => true) true sample_waiting).
Proof.
  destruct (drain_terminates BindPolicy_default RuntimePolicy_default OverTcp sample_ingress sample_waiting default_finite
    sample_ingress_reachable sample_waiting_reachable) as (H1 & _ & H2).
  split; [exact H1|]. apply H2. rewrite (proj1 sample_waiting_phase). discriminate.
Defined.

Lemma drain_complete_witness :
  ∃ d, drain_next (fun _ => true) true sample_waiting = Some d ∧ registered (dr_context d) ⊆ dr_notified d ∧
       registered (drain_end d) = ∅.
Proof.
  assert (∃ d, drain_next (fun _ => true) true sample_waiting = Some d ∧ dr_phase d = D_reap) as (d & E & Hd).
  { unfold drain_next, drain_await. destruct sample_waiting_phase as [-> ->]. by eexists. }
  destruct (drain_complete BindPolicy_default RuntimePolicy_default OverTcp sample_ingress sample_waiting d (fun _ => true)
    default_finite sample_ingress_reachable sample_waiting_reachable E Hd) as (H1 & _ & _ & _ & H2).
  exists d. split; [exact E|]. split; [exact H1|]. exact (proj1 (proj2 (H2 eq_refl))).
Defined.
