(* ===== verification/Quic.v ===== *)
(** * QUIC connections: crates/eggtunnel/src/server/accept.rs

    The life of a QUIC connection from [accept_connection] to the end of its
    handler: the control stream and the task that serves it, the loop over
    data streams, and the teardown (cancel, close, abort, join, await).  The
    handler owns a [JoinSet] of stream tasks and the [JoinHandle] of its
    control task; a handle that is dropped detaches its task.  The server
    around it is [AcceptContext], as for the other transports. *)

From S2P Require Import Prelude Text Proto Codec Varint Frame Common WireIo AuthLimiter Session Control Registry Accept.

(** ** The tasks of a connection *)

(** The control task spawned from [serve_control]: in its handshake, where it
    owns the permit and the guard, in the loop of its Session, or over. *)
Inductive ControlTask :=
| Handshaking (hello : ClientHello)
| Looping (sid : SessionId)
| Over (ended : ControlEnded).

Definition is_finished (t : ControlTask) : bool := match t with Over _ => true | _ => false end.

(** What the loop of a connection holds.  [cn_taken] says that the [select!]
    arm has already taken the output of the control handle. *)
Record Connection := mkConnection
  { cn_streams : QuicStreams;
    cn_control : ControlTask;
    cn_taken : bool;
    cn_cancelled : bool;
    cn_closed : bool }.

Definition set_streams q (c : Connection) :=
  mkConnection q (cn_control c) (cn_taken c) (cn_cancelled c) (cn_closed c).
Definition set_control t (c : Connection) :=
  mkConnection (cn_streams c) t (cn_taken c) (cn_cancelled c) (cn_closed c).
Definition set_taken (c : Connection) :=
  mkConnection (cn_streams c) (cn_control c) true (cn_cancelled c) (cn_closed c).

(** Where the handler task is: before its loop, in it, joining its streams,
    awaiting its control task, or at its end. *)
Inductive Handler :=
| H_opening
| H_loop (c : Connection)
| H_joining (c : Connection)
| H_awaiting (c : Connection)
| H_ended (r : result TunnelError unit)
| H_panicked.

(** The wrapper around the handler records the category of an error. *)
Definition handler_returned (r : result TunnelError unit) (x : AcceptContext) : Handler * AcceptContext :=
  (H_ended r, match r with
              | Ok _ => x
              | Err e => counting (record_termination (termination_category e)) x
              end).

(** ** Up to the loop: the control stream and its first message *)

Definition on_opened (max_active_data_streams : Z) (stream : Stage unit unit)
    (first : poll (result TunnelError Message)) (x : AcceptContext) : Handler * AcceptContext :=
  match _ ← run_stage (fun _ => TE_Disconnected) stream; read_bounded first with
  | Err e => handler_returned (Err e) (abort_handshake x)
  | Ok (M_ClientHello hello) =>
      (H_loop (mkConnection (QuicStreams_new max_active_data_streams) (Handshaking hello) false false false), x)
  | Ok _ =>
      handler_returned (Err (TE_Protocol UnexpectedMessage))
        (abort_handshake (counting (fetch_add n_rejected 1) x))
  end.

(** ** The control task *)

(** The handshake of [serve_control]; QUIC proves no identity. *)
Definition control_handshake (ct_eq : list byte → list byte → bool) (io : HandshakeIo) (source : IpAddr)
    (token : SecretToken) (now : Z) (a : Address) (hello : ClientHello) (x : AcceptContext)
    : ControlTask * AcceptContext :=
  let w := ac_world x in
  let h := handshake ct_eq io (mkPeer source None) token hello now a (ac_limiter x) (w_server w) in
  let admitted ks := mkAccept (mkWorld (hs_server h) ks) (hs_limiter h) (ac_bind_policy x)
                       (ac_admission x + 1) (pred (ac_handshaking x)) in
  match hs_result h with
  | Ok k => (Looping (ct_session k), admitted (<[ct_session k := k]> (w_controls w)))
  | Err e => (Over (ControlReturned (Err e)), admitted (w_controls w))
  end.

(** How a control loop ends by itself: the teardown after a [break], or an
    early return. *)
Definition control_return (early : option TunnelError) (sid : SessionId) (x : AcceptContext)
    : ControlTask * AcceptContext :=
  let w := ac_world x in
  match w_controls w !! sid with
  | Some k =>
      let '(r, s) := match early with
                     | Some e => early_return e k (w_server w)
                     | None => let '(r, _, s) := teardown k (w_server w) in (r, s)
                     end in
      (Over (ControlReturned r), set_world (mkWorld s (delete sid (w_controls w))) x)
  | None => (Looping sid, x)
  end.

(** The future of the task is dropped, by an abort or by a panic: what it owns
    goes with it. *)
Definition drop_task (ended : ControlEnded) (t : ControlTask) (x : AcceptContext) : ControlTask * AcceptContext :=
  match t with
  | Handshaking _ => (Over ended, abort_handshake x)
  | Looping sid =>
      (Over ended,
       match w_controls (ac_world x) !! sid with
       | Some k => set_world (mkWorld (early_return TE_Cancelled k (w_server (ac_world x))).2
                                (delete sid (w_controls (ac_world x)))) x
       | None => x
       end)
  | Over _ => (t, x)
  end.

(** ** The loop and what follows it *)

(** [connection_cancel.cancel(); connection.close(..); streams.abort_all()]. *)
Definition leave_loop (c : Connection) : Handler :=
  H_joining (mkConnection (cn_streams c) (cn_control c) (cn_taken c) true true).

Definition on_connection_cancelled (c : Connection) (x : AcceptContext) : Handler * AcceptContext := (leave_loop c, x).

(** [result = &mut control], once the task is over. *)
Definition on_control (c : Connection) (x : AcceptContext) : Handler * AcceptContext :=
  match cn_control c with
  | Over ended => (leave_loop (set_taken c), counting (fun n => (on_quic_control ended n).2) x)
  | _ => (H_loop c, x)
  end.

(** [accepted = connection.accept_stream()]: an error leaves the function at
    the [?]; the stream tasks are aborted with their set. *)
Definition on_stream (accepted : bool) (c : Connection) (x : AcceptContext) : Handler * AcceptContext :=
  let n := counters (w_server (ac_world x)) in
  match on_quic_stream accepted (cn_streams c) n with
  | (Return e, _, _) => handler_returned (Err e) x
  | (_, q, _) => (H_loop (set_streams q c), counting (fun n => (on_quic_stream accepted (cn_streams c) n).2) x)
  end.

(** A stream task is joined, in the loop. *)
Definition on_joined_stream (r : JoinResult) (c : Connection) (x : AcceptContext) : Handler * AcceptContext :=
  let n := counters (w_server (ac_world x)) in
  (H_loop (set_streams (on_quic_joined r (cn_streams c) n).1 c),
   counting (fun n => (on_quic_joined r (cn_streams c) n).2) x).

(** [while let Some(result) = streams.join_next().await]. *)
Definition join_next (r : JoinResult) (c : Connection) (x : AcceptContext) : Handler * AcceptContext :=
  match qs_running (cn_streams c) with
  | O => (H_awaiting c, x)
  | S _ =>
      let n := counters (w_server (ac_world x)) in
      (H_joining (set_streams (on_quic_joined r (cn_streams c) n).1 c),
       counting (fun n => (on_quic_joined r (cn_streams c) n).2) x)
  end.

(** What polling a handle does whose output was already taken.  The contract
    of [Future] leaves it open: it may panic, block forever or answer. *)
Inductive PolledAgain := PanicsAgain | PendingForever | ReadyAgain.

(** [if !control.is_finished() { control.abort(); } let _ = control.await;]. *)
Definition await_control (again : PolledAgain) (c : Connection) (x : AcceptContext) : Handler * AcceptContext :=
  let '(t, x1) := if is_finished (cn_control c) then (cn_control c, x)
                  else drop_task ControlAborted (cn_control c) x in
  if cn_taken c then
    match again with
    | PanicsAgain => (H_panicked, x1)
    | PendingForever => (H_awaiting (set_control t c), x1)
    | ReadyAgain => (H_ended (Ok tt), x1)
    end
  else (H_ended (Ok tt), x1).

(** The handler from the end of its loop on, with the results of its joins. *)
Fixpoint run_teardown (again : PolledAgain) (results : nat → JoinResult) (fuel : nat) (h : Handler)
    (x : AcceptContext) : Handler * AcceptContext :=
  match fuel with
  | O => (h, x)
  | S fuel' =>
      match h with
      | H_joining c =>
          let '(h1, x1) := join_next (results (qs_running (cn_streams c))) c x in
          run_teardown again results fuel' h1 x1
      | H_awaiting c =>
          let '(h1, x1) := await_control again c x in run_teardown again results fuel' h1 x1
      | _ => (h, x)
      end
  end.

(** The control task a dropped handler leaves behind. *)
Definition left_behind (h : Handler) : list ControlTask :=
  match h with
  | H_loop c | H_joining c | H_awaiting c => if is_finished (cn_control c) then [] else [cn_control c]
  | _ => []
  end.

(** [handlers.abort_all()], for one handler. *)
Definition abort_handler (h : Handler) (x : AcceptContext) : AcceptContext :=
  match h with H_opening => abort_handshake x | _ => x end.

(** ** The QUIC server

    The handlers in their [JoinSet] and the control tasks that no handle
    refers to any more. *)

Record QuicServer := mkQuicServer
  { qv_context : AcceptContext; qv_handlers : list Handler; qv_detached : list ControlTask }.

Definition QuicServer_new (bind_policy : BindPolicy) (p : RuntimePolicy) : QuicServer :=
  mkQuicServer (AcceptContext_new bind_policy p) [] [].

(** The accept arm of [quic_server_loop_with_admission]. *)
Definition quic_accept (accepted : QuicAccepted) (v : QuicServer) : Flow * QuicServer :=
  let '(f, x) := on_quic_accept accepted (qv_context v) in
  let handlers := match accepted with
                  | QuicConnection =>
                      if (AcceptContext_admit (qv_context v)).1 then qv_handlers v ++ [H_opening]
                      else qv_handlers v
                  | _ => qv_handlers v
                  end in
  (f, mkQuicServer x handlers (qv_detached v)).

(** The result the accept loop sees when it joins a handler. *)
Definition handler_result (h : Handler) : option JoinResult :=
  match h with H_ended _ => Some Joined | H_panicked => Some JoinPanic | _ => None end.

Section steps.
Variable again : PolledAgain.
Variable max_active_data_streams : Z.

(** What a control task does on its own. *)
Inductive task_step : ControlTask → AcceptContext → ControlTask → AcceptContext → Prop :=
| T_handshake hello x ct_eq io source token now a :
    fresh io a (ac_world x) →
    let r := control_handshake ct_eq io source token now a hello x in
    task_step (Handshaking hello) x r.1 r.2
| T_return sid x early :
    let r := control_return early sid x in task_step (Looping sid) x r.1 r.2
| T_panic t x :
    let r := drop_task ControlPanicked t x in task_step t x r.1 r.2.

(** The handler's own steps; the last argument is the control task it lets go
    of. *)
Inductive handler_step : Handler → AcceptContext → Handler → AcceptContext → list ControlTask → Prop :=
| HS_opened x stream first :
    let r := on_opened max_active_data_streams stream first x in
    handler_step H_opening x r.1 r.2 []
| HS_cancelled c x : handler_step (H_loop c) x (on_connection_cancelled c x).1 (on_connection_cancelled c x).2 []
| HS_control c x : handler_step (H_loop c) x (on_control c x).1 (on_control c x).2 []
| HS_stream c x :
    let r := on_stream true c x in handler_step (H_loop c) x r.1 r.2 []
| HS_disconnected c x :
    let r := on_stream false c x in handler_step (H_loop c) x r.1 r.2 (left_behind (H_loop c))
| HS_joined c x result :
    (0 < qs_running (cn_streams c))%nat →
    let r := on_joined_stream result c x in handler_step (H_loop c) x r.1 r.2 []
| HS_join_next c x result :
    let r := join_next result c x in handler_step (H_joining c) x r.1 r.2 []
| HS_await c x :
    let r := await_control again c x in handler_step (H_awaiting c) x r.1 r.2 [].

(** The control task of a handler that still has one. *)
Definition on_task (f : ControlTask → ControlTask → Prop) (h h' : Handler) : Prop :=
  match h, h' with
  | H_loop c, H_loop c' | H_joining c, H_joining c' | H_awaiting c, H_awaiting c' =>
      f (cn_control c) (cn_control c') ∧ c' = set_control (cn_control c') c
  | _, _ => False
  end.

(** One step of the server: a connection arrives, a handler or a control task
    steps, a handler is joined or aborted, a stream task presents its message,
    or a control loop runs one of its arms. *)
Inductive quic_server_step : QuicServer → QuicServer → Prop :=
| V_accept v accepted : quic_server_step v (quic_accept accepted v).2
| V_handler x h l1 l2 d h' x' d' :
    handler_step h x h' x' d' →
    quic_server_step (mkQuicServer x (l1 ++ h :: l2) d) (mkQuicServer x' (l1 ++ h' :: l2) (d' ++ d))
| V_task x h l1 l2 d h' x' :
    on_task (fun t t' => task_step t x t' x') h h' →
    quic_server_step (mkQuicServer x (l1 ++ h :: l2) d) (mkQuicServer x' (l1 ++ h' :: l2) d)
| V_detached x l t t' d1 d2 x' :
    task_step t x t' x' →
    quic_server_step (mkQuicServer x l (d1 ++ t :: d2)) (mkQuicServer x' l (d1 ++ t' :: d2))
| V_reaped x h l1 l2 d r :
    handler_result h = Some r →
    quic_server_step (mkQuicServer x (l1 ++ h :: l2) d)
      (mkQuicServer (counting (record_join_result r) x) (l1 ++ l2) d)
| V_aborted x h l1 l2 d :
    quic_server_step (mkQuicServer x (l1 ++ h :: l2) d)
      (mkQuicServer (abort_handler h x) (l1 ++ l2) (left_behind h ++ d))
| V_data x l d first closed now :
    quic_server_step (mkQuicServer x l d)
      (mkQuicServer (set_world (mkWorld (handle_quic_data_stream first closed now (w_server (ac_world x))).2
                                  (w_controls (ac_world x))) x) l d)
| V_arm x l d w :
    arm_step (ac_bind_policy x) (ac_world x) w → dom (w_controls w) = dom (w_controls (ac_world x)) →
    quic_server_step (mkQuicServer x l d) (mkQuicServer (set_world w x) l d).
End steps.

(** ** What a task owns

    A handshake slot, or the loop of a Session. *)

Definition task_slots (t : ControlTask) : nat := match t with Handshaking _ => 1 | _ => 0 end.
Definition task_sids (t : ControlTask) : list SessionId := match t with Looping sid => [sid] | _ => [] end.

Definition handler_tasks (h : Handler) : list ControlTask :=
  match h with H_loop c | H_joining c | H_awaiting c => [cn_control c] | _ => [] end.
Definition handler_slots (h : Handler) : nat :=
  (match h with H_opening => 1 | _ => 0 end + sum_list_with task_slots (handler_tasks h))%nat.
Definition handler_sids (h : Handler) : list SessionId := handler_tasks h ≫= task_sids.

Definition running (x : AcceptContext) : list SessionId := (map_to_list (w_controls (ac_world x))).*1.

Definition streams_wf (max : Z) (q : QuicStreams) : Prop :=
  qs_admission q + Z.of_nat (qs_running q) = max ∧ 0 <= qs_admission q.

(** The output of the control handle is taken only after the loop, and only of
    a task that is over; the streams are joined before the control task is
    awaited. *)
Definition handler_wf (max : Z) (h : Handler) : Prop :=
  match h with
  | H_loop c => streams_wf max (cn_streams c) ∧ cn_taken c = false
  | H_joining c =>
      streams_wf max (cn_streams c) ∧ cn_cancelled c = true ∧ cn_closed c = true ∧
      (cn_taken c = true → is_finished (cn_control c) = true)
  | H_awaiting c =>
      streams_wf max (cn_streams c) ∧ qs_running (cn_streams c) = 0%nat ∧
      cn_cancelled c = true ∧ cn_closed c = true ∧
      (cn_taken c = true → is_finished (cn_control c) = true)
  | _ => True
  end.

Record quic_inv (bp : BindPolicy) (p : RuntimePolicy) (max : Z) (v : QuicServer) : Prop :=
  { qi_ingress : ingress_inv bp p (qv_context v);
    qi_slots : ac_handshaking (qv_context v) =
      (sum_list_with handler_slots (qv_handlers v) + sum_list_with task_slots (qv_detached v))%nat;
    qi_sids : running (qv_context v) ≡ₚ (qv_handlers v ≫= handler_sids) ++ (qv_detached v ≫= task_sids);
    qi_handlers : Forall (handler_wf max) (qv_handlers v) }.

(** A step gives up the slots [n] and the loops [l] for [n'] and [l']. *)
Record moves bp p (n : nat) (l : list SessionId) (x : AcceptContext)
    (n' : nat) (l' : list SessionId) (x' : AcceptContext) : Prop :=
  { mv_inv : ingress_inv bp p x';
    mv_slots : (ac_handshaking x' + n = ac_handshaking x + n')%nat;
    mv_sids : running x' ++ l ≡ₚ running x ++ l' }.

Lemma running_insert x sid k s lim n h :
  w_controls (ac_world x) !! sid = None →
  running (mkAccept (mkWorld s (<[sid := k]> (w_controls (ac_world x)))) lim (ac_bind_policy x) n h) ≡ₚ sid :: running x.
Proof. intros Hn. unfold running. simpl. by rewrite map_to_list_insert. Qed.

Lemma running_delete x sid k s :
  w_controls (ac_world x) !! sid = Some k →
  running x ≡ₚ sid :: running (set_world (mkWorld s (delete sid (w_controls (ac_world x)))) x).
Proof. intros Hk. unfold running. simpl. by rewrite <-(map_to_list_delete (w_controls (ac_world x)) sid k). Qed.

Lemma elem_of_running x sid : sid ∈ running x ↔ is_Some (w_controls (ac_world x) !! sid).
Proof.
  unfold running. rewrite list_elem_of_fmap. setoid_rewrite is_Some_alt. split.
  - intros ([i k] & -> & Hk%elem_of_map_to_list). simpl. by rewrite Hk.
  - destruct (_ !! sid) as [k|] eqn:E; [|done]. intros _. exists (sid, k). by rewrite elem_of_map_to_list.
Qed.

(** Nothing of this is moved by a change of counters. *)
Lemma moves_counting bp p n l x f : ingress_inv bp p x → neutral f → moves bp p n l x n l (counting f x).
Proof. intros Hi Hf. split; [by apply counting_inv|done|done]. Qed.

Lemma moves_refl bp p n l x : ingress_inv bp p x → moves bp p n l x n l x.
Proof. by split. Qed.

Lemma moves_abort bp p x : ingress_inv bp p x → (0 < ac_handshaking x)%nat → moves bp p 1 [] x 0 [] (abort_handshake x).
Proof. intros Hi Hh. split; [by apply abort_handshake_inv|simpl; lia|done]. Qed.

(** A running loop ends, one way or another. *)
Lemma moves_loop_end bp p x sid k s :
  ingress_inv bp p x → w_controls (ac_world x) !! sid = Some k →
  s = (teardown k (w_server (ac_world x))).2 ∨ (∃ e, s = (early_return e k (w_server (ac_world x))).2) →
  moves bp p 0 [sid] x 0 [] (set_world (mkWorld s (delete sid (w_controls (ac_world x)))) x).
Proof.
  intros Hi Hk Hs. split; [|done|].
  - eapply rtc_arm_inv; [exact Hi|]. apply rtc_once. destruct (ac_world x) as [s0 ks]. simpl in *.
    destruct Hs as [->|[e ->]]; [by apply W_teardown|by apply (W_return _ _ _ _ _ e)].
  - rewrite app_nil_r, (running_delete x sid k s) by done. apply Permutation_app_comm.
Qed.

(** Moves compose with what the other tasks own. *)
Lemma moves_frame bp p n l x n' l' x' N R :
  moves bp p n l x n' l' x' → ac_handshaking x = (n + N)%nat → running x ≡ₚ l ++ R →
  ac_handshaking x' = (n' + N)%nat ∧ running x' ≡ₚ l' ++ R.
Proof. intros [_ Hn Hl] Hx Hr. split; [lia|]. perm_count. Qed.

(** *** Control tasks *)

(** What the rest of the invariant says about a task. *)
Definition owned (t : ControlTask) (x : AcceptContext) : Prop :=
  (task_slots t <= ac_handshaking x)%nat ∧ Forall (fun sid => is_Some (w_controls (ac_world x) !! sid)) (task_sids t).

Abbreviation task_moves bp p t x t' x' := (moves bp p (task_slots t) (task_sids t) x (task_slots t') (task_sids t') x').

Lemma control_handshake_moves bp p ct_eq io source token now a hello x :
  ingress_inv bp p x → (0 < ac_handshaking x)%nat → fresh io a (ac_world x) →
  let r := control_handshake ct_eq io source token now a hello x in
  task_moves bp p (Handshaking hello) x r.1 r.2.
Proof.
  intros Hi Hh Hf. unfold control_handshake.
  pose proof (handshake_moved bp p x ct_eq io (mkPeer source None) token hello now a Hi Hh Hf) as Hm.
  cbv zeta in Hm |- *. destruct (hs_result _) as [k|e].
  - destruct Hm as [Hk Hm]. split; [exact Hm|simpl; lia|]. simpl. rewrite app_nil_r, running_insert by done.
    apply Permutation_cons_append.
  - split; [exact Hm|simpl; lia|done].
Qed.

Lemma control_return_moves bp p early sid x :
  ingress_inv bp p x → is_Some (w_controls (ac_world x) !! sid) →
  let r := control_return early sid x in task_moves bp p (Looping sid) x r.1 r.2.
Proof.
  intros Hi [k Hk]. unfold control_return. rewrite Hk. destruct early as [e|].
  - apply (moves_loop_end bp p x sid k); [done..|]. right. by exists e.
  - destruct (teardown k _) as [[r k'] s] eqn:E. apply (moves_loop_end bp p x sid k); [done..|]. left. by rewrite E.
Qed.

Lemma drop_task_moves bp p ended t x :
  ingress_inv bp p x → owned t x → let r := drop_task ended t x in task_moves bp p t x r.1 r.2.
Proof.
  intros Hi [Hn Hs]. destruct t as [hello|sid|e]; simpl in *.
  - apply moves_abort; [done|lia].
  - apply Forall_cons_iff in Hs as [[k Hk] _]. rewrite Hk. apply (moves_loop_end bp p x sid k); [done..|].
    right. by exists TE_Cancelled.
  - by apply moves_refl.
Qed.

Lemma task_step_moves bp p t x t' x' :
  task_step t x t' x' → ingress_inv bp p x → owned t x → task_moves bp p t x t' x'.
Proof.
  intros Hs Hi Ho. destruct Hs as [hello x ct_eq io source token now a Hf r|sid x early r|t x r].
  - apply control_handshake_moves; [done| |done]. destruct Ho as [Ho _]. simpl in Ho. lia.
  - destruct Ho as [_ [Hk _]%Forall_cons_iff]. by apply control_return_moves.
  - by apply drop_task_moves.
Qed.

(** A task that is over stays over. *)
Lemma task_step_over e x t' x' : task_step (Over e) x t' x' → t' = Over e ∧ x' = x.
Proof. inversion 1; by simplify_eq/=. Qed.

(** *** Handlers *)

Lemma streams_new max : 0 <= max → streams_wf max (QuicStreams_new max).
Proof. intros. split; simpl; lia. Qed.

Lemma streams_accepted max q n : streams_wf max q → streams_wf max (on_quic_stream true q n).1.2.
Proof. intros [? ?]. unfold on_quic_stream. destruct (0 <? qs_admission q) eqn:E; bools; split; simpl; lia. Qed.

Lemma streams_joined max q r n : streams_wf max q → (0 < qs_running q)%nat → streams_wf max (on_quic_joined r q n).1.
Proof. intros [? ?] ?. split; simpl; lia. Qed.

Lemma neutral_stream accepted q : neutral (fun n => (on_quic_stream accepted q n).2).
Proof. intros n. unfold on_quic_stream. by destruct accepted, (0 <? qs_admission q). Qed.

Lemma neutral_joined r q : neutral (fun n => (on_quic_joined r q n).2).
Proof. intros n. by destruct r. Qed.

Lemma neutral_control ended : neutral (fun n => (on_quic_control ended n).2).
Proof. intros n. by destruct ended as [[]| |]. Qed.

Lemma counting_moves bp p f n l x n' l' x' : neutral f → moves bp p n l x n' l' x' → moves bp p n l x n' l' (counting f x').
Proof. intros Hf [Hi Hn Hl]. split; [by apply counting_inv|done|done]. Qed.

Lemma on_opened_moves bp p max stream first x :
  0 <= max → ingress_inv bp p x → (0 < ac_handshaking x)%nat →
  let r := on_opened max stream first x in
  moves bp p 1 [] x (handler_slots r.1) (handler_sids r.1) r.2 ∧ handler_wf max r.1.
Proof.
  intros Hmax Hi Hh. unfold on_opened.
  assert (moves bp p 1 [] x 0 [] (abort_handshake (counting (fetch_add n_rejected 1) x))) as Hrej.
  { pose proof (moves_abort bp p (counting (fetch_add n_rejected 1) x)) as [? ? ?]; [by apply counting_inv|done|].
    by split. }
  destruct (_ ≫= _) as [m|e]; [|split; [|done]; apply counting_moves; [done|by apply moves_abort]].
  destruct m; try (split; [by apply counting_moves|done]).
  split; [by apply moves_refl|]. simpl. split; [by apply streams_new|done].
Qed.

Lemma await_control_moves again bp p max c x :
  ingress_inv bp p x → handler_wf max (H_awaiting c) → owned (cn_control c) x →
  let r := await_control again c x in
  moves bp p (task_slots (cn_control c)) (task_sids (cn_control c)) x (handler_slots r.1) (handler_sids r.1) r.2 ∧
  handler_wf max r.1.
Proof.
  intros Hi (Hq & Hr & Hc & Hcl & Ht) Ho. unfold await_control.
  pose proof (drop_task_moves bp p ControlAborted _ x Hi Ho) as Hm.
  destruct (cn_control c) as [hello|sid|e] eqn:E; cbn [is_finished] in *.
  - destruct (drop_task _ _ _) as [t x1] eqn:Ed. simpl in Ed. injection Ed as <- <-.
    destruct (cn_taken c); [by specialize (Ht eq_refl)|by split].
  - destruct (drop_task _ _ _) as [t x1] eqn:Ed. simpl in Ed. injection Ed as <- <-.
    destruct (cn_taken c); [by specialize (Ht eq_refl)|by split].
  - simpl in Hm. destruct (cn_taken c) eqn:Et; [|by split].
    destruct again; (split; [by apply moves_refl|]); done.
Qed.

(** A handler step accounts for the control task it lets go of. *)
Lemma handler_step_moves again bp p max h x h' x' d :
  handler_step again max h x h' x' d → 0 <= max →
  ingress_inv bp p x → handler_wf max h → (handler_slots h <= ac_handshaking x)%nat →
  Forall (fun sid => is_Some (w_controls (ac_world x) !! sid)) (handler_sids h) →
  moves bp p (handler_slots h) (handler_sids h) x
    (handler_slots h' + sum_list_with task_slots d) (handler_sids h' ++ (d ≫= task_sids)) x' ∧ handler_wf max h'.
Proof.
  intros Hs Hmax Hi Hw Hn Hl.
  destruct Hs as [x stream first r|c x|c x|c x r|c x r|c x result Hpos r|c x result r|c x r];
    rewrite ?Nat.add_0_r, ?app_nil_r.
  - apply on_opened_moves; [done..|]. exact Hn.
  - split; [by apply moves_refl|]. destruct Hw as [Hq Ht]. simpl. split_and!; [done..|]. by rewrite Ht.
  - unfold on_control. destruct (cn_control c) as [hello|sid|e] eqn:E; [by split; [apply moves_refl|]..|].
    destruct Hw as [Hq Ht]. split; [|simpl; by rewrite E].
    apply counting_moves; [apply neutral_control|]. unfold handler_slots, handler_sids. simpl. rewrite E. by apply moves_refl.
  - destruct Hw as [Hq Ht]. pose proof (streams_accepted max (cn_streams c) (counters (w_server (ac_world x))) Hq) as Hq'.
    unfold r, on_stream. unfold on_quic_stream in *. destruct (0 <? _); simpl in *;
      (split; [|done]); (apply counting_moves; [by intros n|by apply moves_refl]).
  - split; [|done]. apply counting_moves; [done|]. unfold handler_slots, handler_sids. simpl.
    destruct (cn_control c) as [hello|sid|e]; simpl; by apply moves_refl.
  - destruct Hw as [Hq Ht]. split; [|split; [by apply streams_joined|done]].
    apply counting_moves; [apply neutral_joined|]. by apply moves_refl.
  - destruct Hw as (Hq & Hc & Hcl & Ht). unfold r, join_next. destruct (qs_running _) as [|m] eqn:E.
    + split; [by apply moves_refl|]. by split_and!.
    + split; [apply counting_moves; [apply neutral_joined|by apply moves_refl]|].
      split; [apply streams_joined; [done|lia]|done].
  - unfold handler_slots, handler_sids in Hn, Hl |- *. simpl in Hn, Hl |- *. rewrite ?Nat.add_0_r, ?app_nil_r in *.
    apply await_control_moves; [done..|]. split; [lia|done].
Qed.

Lemma on_task_handler f max h h' :
  on_task f h h' →
  ∃ t t', f t t' ∧ handler_slots h = task_slots t ∧ handler_sids h = task_sids t ∧
    handler_slots h' = task_slots t' ∧ handler_sids h' = task_sids t' ∧
    (handler_wf max h → (is_finished t = true → t' = t) → handler_wf max h').
Proof.
  unfold on_task, handler_slots, handler_sids. destruct h as [|c|c|c|r|], h' as [|c'|c'|c'|r'|]; try done;
    intros [Hf ->]; simpl; exists (cn_control c), (cn_control c'); rewrite !Nat.add_0_r, !app_nil_r;
    (split_and!; [done..|]).
  - by intros [? ?] _.
  - intros (? & ? & ? & Ht) Hfin. split_and!; [done..|]. intros Hk. by rewrite (Hfin (Ht Hk)), Ht.
  - intros (? & ? & ? & ? & Ht) Hfin. split_and!; [done..|]. intros Hk. by rewrite (Hfin (Ht Hk)), Ht.
Qed.

(** *** The server *)

Lemma sum_split {A} (f : A → nat) l1 (h : A) l2 :
  sum_list_with f (l1 ++ h :: l2) = (f h + sum_list_with f (l1 ++ l2))%nat.
Proof. rewrite !sum_list_with_app. simpl. lia. Qed.

Lemma bind_split {A B} (f : A → list B) l1 (h : A) l2 : (l1 ++ h :: l2) ≫= f ≡ₚ f h ++ ((l1 ++ l2) ≫= f).
Proof. by rewrite !bind_app, bind_cons, (Permutation_app_swap_app (l1 ≫= f)). Qed.

(** One handler is replaced, tasks are let go. *)
Lemma quic_inv_handler bp p max x x' l1 l2 d h h' d' :
  quic_inv bp p max (mkQuicServer x (l1 ++ h :: l2) d) →
  moves bp p (handler_slots h) (handler_sids h) x
    (handler_slots h' + sum_list_with task_slots d') (handler_sids h' ++ (d' ≫= task_sids)) x' →
  handler_wf max h' → quic_inv bp p max (mkQuicServer x' (l1 ++ h' :: l2) (d' ++ d)).
Proof.
  intros [Hi Hn Hs Hw] Hm Hh. cbn [qv_context qv_handlers qv_detached] in *.
  rewrite sum_split in Hn. rewrite bind_split in Hs. rewrite <-Nat.add_assoc in Hn. rewrite <-app_assoc in Hs.
  destruct (moves_frame _ _ _ _ _ _ _ _ _ _ Hm Hn Hs) as [Hn' Hs']. split; simpl.
  - apply Hm.
  - rewrite sum_split, (sum_list_with_app task_slots d' d). lia.
  - rewrite bind_split, (bind_app task_sids d' d). perm_count.
  - rewrite Forall_app, Forall_cons_iff in *. tauto.
Qed.

Lemma quic_inv_owned bp p max x l1 l2 d h :
  quic_inv bp p max (mkQuicServer x (l1 ++ h :: l2) d) →
  handler_wf max h ∧ (handler_slots h <= ac_handshaking x)%nat ∧
  Forall (fun sid => is_Some (w_controls (ac_world x) !! sid)) (handler_sids h).
Proof.
  intros [Hi Hn Hs Hw]. cbn [qv_context qv_handlers qv_detached] in *.
  rewrite sum_split in Hn. rewrite bind_split in Hs. rewrite Forall_app, Forall_cons_iff in Hw.
  split_and!; [tauto|lia|]. apply list.Forall_forall. intros sid Hsid. apply elem_of_running. rewrite Hs.
  by do 2 apply elem_of_app, or_introl.
Qed.

(** A handler goes away; [x'] is what its end does to the server. *)
Lemma quic_inv_gone bp p max x x' l1 l2 d h d' :
  quic_inv bp p max (mkQuicServer x (l1 ++ h :: l2) d) →
  moves bp p (handler_slots h) (handler_sids h) x (sum_list_with task_slots d') (d' ≫= task_sids) x' →
  quic_inv bp p max (mkQuicServer x' (l1 ++ l2) (d' ++ d)).
Proof.
  intros Hq Hm. destruct (quic_inv_handler _ _ _ _ x' _ _ _ _ (H_ended (Ok tt)) d' Hq) as [Hi Hn Hs Hw]; [done..|].
  cbn [qv_context qv_handlers qv_detached] in *. split; simpl; [done| | |].
  - by rewrite sum_split in Hn.
  - by rewrite bind_split in Hs.
  - rewrite Forall_app, Forall_cons_iff in Hw. rewrite Forall_app. tauto.
Qed.

(** A detached task steps. *)
Lemma quic_inv_detached bp p max x x' l d1 d2 t t' :
  quic_inv bp p max (mkQuicServer x l (d1 ++ t :: d2)) →
  (owned t x → task_moves bp p t x t' x') → quic_inv bp p max (mkQuicServer x' l (d1 ++ t' :: d2)).
Proof.
  intros [Hi Hn Hs Hw] Hm. cbn [qv_context qv_handlers qv_detached] in *.
  rewrite sum_split in Hn. rewrite bind_split in Hs.
  assert (owned t x) as Ho.
  { split; [lia|]. apply list.Forall_forall. intros sid Hsid. apply elem_of_running. rewrite Hs.
    apply elem_of_app. right. apply elem_of_app. by left. }
  apply Hm in Ho. clear Hm. rewrite (Permutation_app_swap_app _ (task_sids t)) in Hs.
  destruct (moves_frame _ _ _ _ _ _ _ _ (sum_list_with handler_slots l + sum_list_with task_slots (d1 ++ d2)) _ Ho ltac:(lia) Hs)
    as [Hn' Hs']. split; simpl; [apply Ho| | |done].
  - rewrite sum_split. lia.
  - rewrite (bind_split task_sids). perm_count.
Qed.

(** What leaves the slots and the loops alone. *)
Lemma quic_inv_context bp p max x x' l d :
  quic_inv bp p max (mkQuicServer x l d) → moves bp p 0 [] x 0 [] x' → quic_inv bp p max (mkQuicServer x' l d).
Proof.
  intros [Hi Hn Hs Hw] [Hi' Hn' Hs']. rewrite !app_nil_r in Hs'. split; simpl in *; [done|lia| |done]. by rewrite Hs'.
Qed.

Lemma quic_accept_inv bp p max accepted v : quic_inv bp p max v → quic_inv bp p max (quic_accept accepted v).2.
Proof.
  destruct v as [x l d]. intros Hq. pose proof Hq as [Hi Hn Hs Hw]. simpl in *.
  pose proof (ingress_step_inv bp p _ _ _ (I_quic_accept x accepted) Hi) as Hi'.
  unfold quic_accept. simpl. destruct accepted; simpl in *.
  2,3: by apply (quic_inv_context bp p max x); [done|split].
  unfold on_accept, AcceptContext_admit in *. destruct (0 <? ac_admission x); simpl in *.
  - split; simpl; [done| |by rewrite bind_app, app_nil_r|by rewrite Forall_app, Forall_cons_iff, Forall_nil_iff].
    rewrite sum_list_with_app. simpl. change (handler_slots H_opening) with 1%nat. lia.
  - by apply (quic_inv_context bp p max x); [done|split].
Qed.

Lemma abort_handler_moves bp p h x :
  ingress_inv bp p x → (handler_slots h <= ac_handshaking x)%nat →
  moves bp p (handler_slots h) (handler_sids h) x
    (sum_list_with task_slots (left_behind h)) (left_behind h ≫= task_sids) (abort_handler h x).
Proof.
  intros Hi Hn. unfold handler_slots, handler_sids in *. destruct h as [|c|c|c|r|]; simpl in *.
  - by apply moves_abort.
  - destruct (cn_control c); simpl; by apply moves_refl.
  - destruct (cn_control c); simpl; by apply moves_refl.
  - destruct (cn_control c); simpl; by apply moves_refl.
  - by apply moves_refl.
  - by apply moves_refl.
Qed.

Lemma quic_server_step_inv again bp p max v v' :
  0 <= max → quic_server_step again max v v' → quic_inv bp p max v → quic_inv bp p max v'.
Proof.
  intros Hmax Hstep Hq. pose proof (qi_ingress _ _ _ _ Hq) as Hi.
  destruct Hstep as [v accepted|x h l1 l2 d h' x' d' Hs|x h l1 l2 d h' x' Ht|x l t t' d1 d2 x' Ht
    |x h l1 l2 d r Hr|x h l1 l2 d|x l d first closed now|x l d w Ha Hd]; simpl in Hi.
  - by apply quic_accept_inv.
  - destruct (quic_inv_owned _ _ _ _ _ _ _ _ Hq) as (Hw & Hn & Hl).
    destruct (handler_step_moves _ _ _ _ _ _ _ _ _ Hs Hmax Hi Hw Hn Hl) as [Hm Hw'].
    by apply (quic_inv_handler _ _ _ x _ _ _ _ h).
  - destruct (quic_inv_owned _ _ _ _ _ _ _ _ Hq) as (Hw & Hn & Hl).
    apply (on_task_handler _ max) in Ht as (t & t' & Ht & E1 & E2 & E3 & E4 & Hwf).
    rewrite E1, E2 in *. pose proof (task_step_moves bp p _ _ _ _ Ht Hi (conj Hn Hl)) as Hm.
    refine (quic_inv_handler _ _ _ x _ _ _ _ h h' [] Hq _ _).
    + by rewrite E1, E2, E3, E4, Nat.add_0_r, app_nil_r.
    + apply Hwf; [done|]. destruct t as [hello|sid|e]; [done..|]. intros _. by apply task_step_over in Ht as [-> _].
  - apply (quic_inv_detached _ _ _ x _ _ _ _ t); [done|]. by apply task_step_moves.
  - apply (quic_inv_gone _ _ _ x _ _ _ _ h []); [done|]. apply counting_moves; [by intros n; destruct r|].
    destruct h; try done; by apply moves_refl.
  - apply (quic_inv_gone _ _ _ x _ _ _ _ h); [done|]. destruct (quic_inv_owned _ _ _ _ _ _ _ _ Hq) as (_ & Hn & _).
    by apply abort_handler_moves.
  - apply (quic_inv_context _ _ _ x); [done|]. split; [|done|done].
    by eapply ingress_step_inv; [apply I_quic_stream|].
  - apply (quic_inv_context _ _ _ x); [done|]. split; [|done|].
    + by eapply ingress_step_inv; [apply (I_arm OverQuic)|].
    + rewrite !app_nil_r. apply NoDup_Permutation; [apply NoDup_fst_map_to_list..|]. intros sid.
      rewrite !elem_of_running. simpl. by rewrite <-!elem_of_dom, Hd.
Qed.

Lemma quic_reachable again bp p max v :
  finite_policy p → 0 <= max → rtc (quic_server_step again max) (QuicServer_new bp p) v → quic_inv bp p max v.
Proof.
  intros Hp Hmax Hr. refine (rtc_ind_r (quic_inv bp p max) _ _ _ _ Hr).
  - destruct (ingress_reachable bp p OverQuic _ Hp (rtc_refl _ _)) as [Hi _]. by split.
  - intros. by eapply quic_server_step_inv.
Qed.

(** ** Teardown *)

(** The joins end after as many steps as there are stream tasks, and then the
    control task is awaited. *)
Lemma run_joins again results max c x l1 l2 d fuel :
  ∃ q f, qs_running q = 0%nat ∧ neutral f ∧ ((∀ i, results i ≠ JoinPanic) → ∀ n, f n = n) ∧
  run_teardown again results (qs_running (cn_streams c) + 1 + fuel) (H_joining c) x =
  run_teardown again results fuel (H_awaiting (set_streams q c)) (counting f x) ∧
  rtc (quic_server_step again max) (mkQuicServer x (l1 ++ H_joining c :: l2) d)
    (mkQuicServer (counting f x) (l1 ++ H_awaiting (set_streams q c) :: l2) d).
Proof.
  remember (qs_running (cn_streams c)) as m eqn:Em. revert c x Em.
  induction m as [|m IH]; intros c x Em; simpl; rewrite <-Em; unfold join_next; rewrite <-Em.
  - exists (cn_streams c), (fun n => n). split_and!; [done..| |].
    + by destruct c, x as [[[] ?] ? ? ? ?].
    + apply rtc_once. pose proof (HS_join_next again max c x Joined) as Hs. simpl in Hs. unfold join_next in Hs.
      rewrite <-Em in Hs. apply (V_handler again max _ _ l1 l2 d) in Hs. simpl in Hs.
      by destruct c, x as [[[] ?] ? ? ? ?].
  - set (r := results (S m)). set (c' := set_streams _ c). set (x' := counting _ x).
    destruct (IH c' x') as (q & f & Hq & Hf & Hp & Hrun & Hrtc); [simpl; by rewrite <-Em|].
    exists q, (fun n => f (record_join_result r n)). split_and!; [done| | |exact Hrun|].
    + intros n. destruct (Hf (record_join_result r n)) as (? & ? & ? & ? & ? & ?). by destruct r.
    + intros Hnp n. rewrite (Hp Hnp). unfold r. specialize (Hnp (S m)). by destruct (results (S m)).
    + eapply rtc_l; [|exact Hrtc]. pose proof (HS_join_next again max c x r) as Hs. simpl in Hs. unfold join_next in Hs.
      rewrite <-Em in Hs. exact (V_handler again max _ _ l1 l2 d _ _ _ Hs).
Qed.

(** The control task of a handler that is awaited is over, and the Session it
    served has ended. *)
Lemma moves_sids bp p t x x' sid :
  moves bp p (task_slots t) (task_sids t) x 0 [] x' → NoDup (running x) →
  is_Some (w_controls (ac_world x') !! sid) ↔ is_Some (w_controls (ac_world x) !! sid) ∧ t ≠ Looping sid.
Proof.
  intros [_ _ Hs] Hn. rewrite <-!elem_of_running. rewrite app_nil_r in Hs. rewrite <-Hs in Hn |- *.
  destruct t as [hello|sid'|e]; simpl in *; rewrite ?app_nil_r; [naive_solver| |naive_solver].
  apply list.NoDup_app in Hn as (_ & Hd & _). rewrite elem_of_app, list_elem_of_singleton. split.
  - intros Hr. split; [by left|]. intros [= ->]. apply (Hd sid); [done|]. by left.
  - by intros [[Hr| ->] Ht].
Qed.

Lemma await_not_taken again c x :
  cn_taken c = false →
  await_control again c x = (H_ended (Ok tt), (drop_task ControlAborted (cn_control c) x).2).
Proof. unfold await_control. intros ->. by destruct (cn_control c). Qed.

(** The whole teardown, as a run of the server. *)
Lemma run_teardown_ends again results max bp p c x l1 l2 d :
  again ≠ PendingForever → quic_inv bp p max (mkQuicServer x (l1 ++ H_joining c :: l2) d) →
  let '(h, y) := run_teardown again results (qs_running (cn_streams c) + 2) (H_joining c) x in
  h = (if cn_taken c then match again with PanicsAgain => H_panicked | _ => H_ended (Ok tt) end else H_ended (Ok tt)) ∧
  moves bp p (task_slots (cn_control c)) (task_sids (cn_control c)) x 0 [] y ∧
  rtc (quic_server_step again max) (mkQuicServer x (l1 ++ H_joining c :: l2) d) (mkQuicServer y (l1 ++ h :: l2) d).
Proof.
  intros Hag Hq. destruct (quic_inv_owned _ _ _ _ _ _ _ _ Hq) as (Hw & Hn & Hl).
  destruct Hw as (_ & _ & _ & Ht).
  destruct (run_joins again results max c x l1 l2 d 1) as (q & f & _ & Hf & _ & Hrun & Hrtc).
  replace (qs_running (cn_streams c) + 2)%nat with (qs_running (cn_streams c) + 1 + 1)%nat by lia. rewrite Hrun. simpl.
  pose proof (qi_ingress _ _ _ _ Hq) as Hi. simpl in Hi.
  unfold handler_slots, handler_sids in Hn, Hl. simpl in Hn, Hl. rewrite Nat.add_0_r in Hn. rewrite app_nil_r in Hl.
  pose proof (drop_task_moves bp p ControlAborted (cn_control c) (counting f x) (counting_inv _ _ _ _ Hi Hf) (conj Hn Hl)) as Hm.
  pose proof (HS_await again max (set_streams q c) (counting f x)) as Hs. cbv zeta in Hs.
  apply (V_handler again max _ _ l1 l2 d) in Hs.
  destruct (await_control again (set_streams q c) (counting f x)) as [h y] eqn:E. simpl in Hs.
  assert (h = (if cn_taken c then match again with PanicsAgain => H_panicked | _ => H_ended (Ok tt) end else H_ended (Ok tt)) ∧
    y = (drop_task ControlAborted (cn_control c) (counting f x)).2) as [Eh Ey].
  { destruct (cn_taken c) eqn:Etk.
    - specialize (Ht eq_refl). unfold await_control in E. simpl in E. rewrite Ht, Etk in E.
      destruct (cn_control c); try done. by destruct again; simplify_eq/=.
    - rewrite await_not_taken in E by done. by injection E as <- <-. }
  split_and!; [done| |].
  - subst y. destruct (cn_control c), Hm as [? ? ?]; by split.
  - eapply rtc_r; [exact Hrtc|exact Hs].
Qed.

(** ** Properties *)

(** C13. Every Session of a QUIC server has exactly one task that serves it,
    and every task its bounds.  In every reachable state, whatever streams
    arrive, however handlers and control tasks end, are aborted or let go: the
    running control loops are exactly the Sessions of the control tasks, each
    served by one task, so the Session gauge counts them; the free handshake
    permits, the handlers still opening and the control tasks still shaking
    hands add up to [accepted_handshakes]; and no connection runs more than
    [max_active_data_streams] stream tasks. *)
Theorem quic_sessions_owned again bp p max v :
  finite_policy p → 0 <= max → rtc (quic_server_step again max) (QuicServer_new bp p) v →
  let x := qv_context v in
  let tasks := (qv_handlers v ≫= handler_tasks) ++ qv_detached v in
  (∀ sid, is_Some (w_controls (ac_world x) !! sid) ↔ Looping sid ∈ tasks) ∧ NoDup (tasks ≫= task_sids) ∧
  load n_sessions (counters (w_server (ac_world x))) = wrap 64 (len (tasks ≫= task_sids)) ∧
  ac_admission x + Z.of_nat (sum_list_with handler_slots (qv_handlers v) + sum_list_with task_slots (qv_detached v)) =
    accepted_handshakes (limits p) ∧
  (∀ c, c ∈ (qv_handlers v ≫= fun h => match h with H_loop c | H_joining c | H_awaiting c => [c] | _ => [] end) →
     Z.of_nat (qs_running (cn_streams c)) <= max).
Proof.
  intros Hp Hmax Hr x tasks. destruct (quic_reachable again bp p max v Hp Hmax Hr) as [Hi Hn Hs Hw]. fold x in Hi, Hn, Hs.
  assert (running x ≡ₚ tasks ≫= task_sids) as Hrun.
  { unfold tasks. rewrite bind_app, Hs. f_equiv. clear. induction (qv_handlers v) as [|h l IH]; [done|].
    rewrite !bind_cons, bind_app, IH. done. }
  split_and!.
  - intros sid. rewrite <-elem_of_running, Hrun, list_elem_of_bind. split.
    + intros (t & Ht & Hin). destruct t; simpl in Ht; try by apply elem_of_nil in Ht.
      by apply list_elem_of_singleton in Ht as ->.
    + intros Hin. exists (Looping sid). split; [by left|done].
  - rewrite <-Hrun. apply NoDup_fst_map_to_list.
  - rewrite (wi_sessions _ _ _ (gi_world _ _ _ Hi)). unfold len. rewrite <-Hrun. unfold running.
    by rewrite length_fmap, length_map_to_list.
  - rewrite <-Hn. apply Hi.
  - intros c (h & Hc & Hin)%list_elem_of_bind. rewrite list.Forall_forall in Hw. specialize (Hw _ Hin).
    destruct h as [|c'|c'|c'|r|]; try (by apply elem_of_nil in Hc); apply list_elem_of_singleton in Hc as ->.
    + destruct Hw as [[? ?] _]. lia.
    + destruct Hw as [[? ?] _]. lia.
    + destruct Hw as [[? ?] _]. lia.
Qed.

(** C17. The teardown of a QUIC connection terminates and leaves nothing
    behind.  A handler that has left its loop by a [break] is at its end after
    joining its stream tasks and two steps more, whatever the tasks return:
    by then its control task is over, the Session it served (if any) is gone
    from the server while every other Session still runs, and a handshake slot
    it held is free again.  The handler returns [Ok(())], except when the
    [select!] arm had taken the output of the control handle: then the last
    [control.await] polls a finished handle again, which panics. *)
Theorem quic_teardown_terminates again results bp p max v c l1 l2 :
  finite_policy p → 0 <= max → again ≠ PendingForever →
  rtc (quic_server_step again max) (QuicServer_new bp p) v → qv_handlers v = l1 ++ H_joining c :: l2 →
  let x := qv_context v in
  let '(h, y) := run_teardown again results (qs_running (cn_streams c) + 2) (H_joining c) x in
  h = (if cn_taken c then match again with PanicsAgain => H_panicked | _ => H_ended (Ok tt) end else H_ended (Ok tt)) ∧
  (∀ sid, is_Some (w_controls (ac_world y) !! sid) ↔
     is_Some (w_controls (ac_world x) !! sid) ∧ cn_control c ≠ Looping sid) ∧
  dom (entries (w_server (ac_world y))) = dom (w_controls (ac_world y)) ∧
  ac_admission y = ac_admission x + Z.of_nat (task_slots (cn_control c)) ∧
  rtc (quic_server_step again max) v (mkQuicServer y (l1 ++ h :: l2) (qv_detached v)).
Proof.
  intros Hp Hmax Hag Hr Hl x. pose proof (quic_reachable again bp p max v Hp Hmax Hr) as Hq.
  destruct v as [x0 l d]. simpl in *. subst x l.
  pose proof (run_teardown_ends again results max bp p c x0 l1 l2 d Hag Hq) as Ht.
  destruct (run_teardown _ _ _ _ _) as [h y]. destruct Ht as (Hh & Hm & Hrtc). split_and!; [done| | | |done].
  - intros sid. apply (moves_sids bp p); [done|]. apply NoDup_fst_map_to_list.
  - symmetry. apply registry_dom, (gi_registry _ _ _ (mv_inv _ _ _ _ _ _ _ _ Hm)).
  - pose proof (gi_admission _ _ _ (mv_inv _ _ _ _ _ _ _ _ Hm)) as H1.
    pose proof (gi_admission _ _ _ (qi_ingress _ _ _ _ Hq)) as H2. simpl in H2. destruct Hm as [_ Hn _]. lia.
Qed.

(** C37. An ordinary end of a QUIC Session is counted as a panic.  When the
    control task returns and the loop takes its output, the handler goes
    through its teardown without any stream task having panicked, polls the
    handle once more and panics there (a finished [JoinHandle] that is polled
    again does); the accept loop that joins the handler then adds one to
    [task_panics] and reports [Internal] as the last termination. *)
Theorem quic_ordinary_end_panics results c x ended :
  (∀ i, results i ≠ JoinPanic) → cn_control c = Over (ControlReturned ended) →
  let '(h1, x1) := on_control c x in
  let '(h2, x2) := run_teardown PanicsAgain results (qs_running (cn_streams c) + 2) h1 x1 in
  ∃ r, handler_result h2 = Some r ∧
  let n := counters (w_server (ac_world x)) in
  let n' := counters (w_server (ac_world (counting (record_join_result r) x2))) in
  load n_task_panics n' = wrap 64 (load n_task_panics n + 1) ∧
  ctr_last_termination n' = Some TC_Internal.
Proof.
  intros Hr Hc. unfold on_control. rewrite Hc. unfold leave_loop.
  set (c1 := mkConnection _ _ _ _ _). set (x1 := counting _ x).
  destruct (run_joins PanicsAgain results 0 c1 x1 [] [] [] 1) as (q & f & _ & _ & Hf & Hrun & _).
  replace (qs_running (cn_streams c) + 2)%nat with (qs_running (cn_streams c1) + 1 + 1)%nat by (simpl; lia).
  rewrite Hrun. simpl. unfold await_control. simpl. rewrite Hc. simpl. exists JoinPanic. split; [done|].
  rewrite (Hf Hr). split; [|done]. by destruct ended.
Qed.

(** ** Witnesses: a connection with one data stream, at its end *)

Definition sample_opened : Handler * AcceptContext :=
  on_opened 1 (StageDone (Ok tt)) (Ready (Ok (M_ClientHello sample_client)))
    (qv_context (quic_accept QuicConnection (QuicServer_new BindPolicy_default RuntimePolicy_default)).2).
Definition sample_served : ControlTask * AcceptContext :=
  control_handshake sample_ct_eq (sample_io sample_token) (peer_source sample_peer) (mkSecretToken sample_token) 5 0
    sample_client sample_opened.2.
Definition sample_quic_connection : Connection :=
  mkConnection (mkQuicStreams 0 1) (Looping sample_sid) false false false.
Definition sample_quic (h : Handler) : QuicServer :=
  mkQuicServer (on_stream true (set_streams (QuicStreams_new 1) sample_quic_connection) sample_served.2).2 [h] [].

Lemma sample_quic_serving again :
  rtc (quic_server_step again 1) (QuicServer_new BindPolicy_default RuntimePolicy_default)
    (sample_quic (H_loop sample_quic_connection)).
Proof.
  eapply rtc_l; [apply (V_accept again 1 _ QuicConnection)|].
  eapply rtc_l; [apply (V_handler again 1 _ _ [] [] []), (HS_opened again 1 _ (StageDone (Ok tt))
    (Ready (Ok (M_ClientHello sample_client))))|].
  eapply rtc_l; [|apply rtc_once; exact (V_handler again 1 _ _ [] [] [] _ _ _
    (HS_stream again 1 (set_streams (QuicStreams_new 1) sample_quic_connection) sample_served.2))].
  apply (V_task again 1 _ _ [] []).
  assert (sample_served.1 = Looping sample_sid) as E by (vm_compute; reflexivity).
  pose proof (T_handshake sample_client sample_opened.2 sample_ct_eq (sample_io sample_token) (peer_source sample_peer)
    (mkSecretToken sample_token) 5 0) as Ht. cbv zeta in Ht. fold sample_served in Ht. rewrite E in Ht.
  split; [|reflexivity]. apply Ht. split; [reflexivity|]. intros bytes _. reflexivity.
Qed.

Lemma sample_quic_joining again :
  rtc (quic_server_step again 1) (QuicServer_new BindPolicy_default RuntimePolicy_default)
    (sample_quic (leave_loop sample_quic_connection)).
Proof.
  eapply rtc_r; [apply sample_quic_serving|].
  exact (V_handler again 1 _ _ [] [] [] _ _ _ (HS_cancelled again 1 sample_quic_connection _)).
Qed.

Lemma quic_sessions_owned_witness :
  is_Some (w_controls (ac_world (qv_context (sample_quic (H_loop sample_quic_connection)))) !! sample_sid) ∧
  load n_sessions (counters (w_server (ac_world (qv_context (sample_quic (H_loop sample_quic_connection)))))) = 1.
Proof.
  destruct (quic_sessions_owned PanicsAgain BindPolicy_default RuntimePolicy_default 1
    (sample_quic (H_loop sample_quic_connection)) default_finite ltac:(lia) (sample_quic_serving _)) as (Hs & _ & Hn & _).
  split; [|rewrite Hn; reflexivity]. apply Hs. by left.
Defined.

Lemma quic_teardown_terminates_witness :
  let r := run_teardown PanicsAgain (fun _ => JoinCancelled) 3 (leave_loop sample_quic_connection)
             (qv_context (sample_quic (leave_loop sample_quic_connection))) in
  r.1 = H_ended (Ok tt) ∧ ¬ is_Some (w_controls (ac_world r.2) !! sample_sid).
Proof.
  pose proof (quic_teardown_terminates PanicsAgain (fun _ => JoinCancelled) BindPolicy_default RuntimePolicy_default 1
    (sample_quic (leave_loop sample_quic_connection)) _ [] [] default_finite ltac:(lia) ltac:(discriminate)
    (sample_quic_joining _) eq_refl) as H. cbv zeta in H |- *.
  change (qs_running _ + 2)%nat with 3%nat in H. unfold leave_loop in *.
  destruct (run_teardown _ _ _ _ _) as [h y]. destruct H as (Hh & Hs & _). split; [exact Hh|].
  intros [_ Hc]%Hs. by apply Hc.
Defined.

Lemma quic_ordinary_end_panics_witness :
  let c := set_control (Over (ControlReturned (Err TE_Disconnected))) sample_quic_connection in
  let r := on_control c (qv_context (sample_quic (H_loop c))) in
  cn_control c = Over (ControlReturned (Err TE_Disconnected)) ∧
  ∃ j, handler_result (run_teardown PanicsAgain (fun _ => JoinCancelled) 3 r.1 r.2).1 = Some j.
Proof.
  cbv zeta. split; [reflexivity|].
  pose proof (quic_ordinary_end_panics (fun _ => JoinCancelled)
    (set_control (Over (ControlReturned (Err TE_Disconnected))) sample_quic_connection)
    (qv_context (sample_quic (H_loop (set_control (Over (ControlReturned (Err TE_Disconnected))) sample_quic_connection))))
    (Err TE_Disconnected) ltac:(discriminate) eq_refl) as H.
  destruct (on_control _ _) as [h1 x1]. change (qs_running _ + 2)%nat with 3%nat in H.
  cbn [fst snd]. destruct (run_teardown _ _ _ _ _) as [h2 x2]. destruct H as (j & Hj & _). exists j. exact Hj.
Defined.
