(* ===== verification/Heartbeat.v ===== *)
(** * Heartbeat probes of crates/eggtunnel/src/client/heartbeat.rs

    The probe state of one Session: a wrapping nonce and at most one probe
    that waits for its answer. *)

From S2P Require Import Prelude.

Record Heartbeat := mkHeartbeat { hb_nonce : Z; hb_outstanding : option (Z * Z) }.

Definition Heartbeat_new : Heartbeat := mkHeartbeat 0 None.

Definition has_outstanding (h : Heartbeat) : bool := bool_decide (is_Some (hb_outstanding h)).

Definition next_nonce (h : Heartbeat) : Z * Heartbeat :=
  let nonce := wrap 64 (hb_nonce h + 1) in (nonce, mkHeartbeat nonce (hb_outstanding h)).

Definition mark_sent (nonce sent_at : Z) (h : Heartbeat) : Heartbeat :=
  match hb_outstanding h with
  | None => mkHeartbeat (hb_nonce h) (Some (nonce, sent_at))
  | Some _ => h
  end.

Definition matching_pong (nonce : Z) (h : Heartbeat) : option Z * Heartbeat :=
  match hb_outstanding h with
  | Some (expected, sent_at) =>
      if expected =? nonce then (Some sent_at, mkHeartbeat (hb_nonce h) None) else (None, h)
  | None => (None, h)
  end.
