(* ===== verification/ClientSession.v ===== *)
(** * The client's Session: crates/eggtunnel/src/client.rs and client/open.rs

    [run_session] in the parts it has: the handshake, the registration of the
    configured services, one handler per arm of the [select!] loop, and the
    end of the Session.  Open tasks ([handle_open]) run beside the loop.  The
    outcome of every network operation is an argument. *)

From S2P Require Import Prelude Text Proto Codec Varint Frame Common WireIo ServiceState Heartbeat.

(** ** Small functions of client.rs *)

Definition negotiate_capabilities (offered received : Capabilities) : Capabilities :=
  intersect offered received.

Definition registration_error_code (code : Z) : TunnelError :=
  if code =? 1 then TE_ServiceAlreadyExists
  else if code =? 5 then TE_ResourceExhausted
  else TE_Authorization.

Definition registration_error (error : ErrorMessage) : TunnelError :=
  registration_error_code (em_code error).

Definition OpenTaskGuard_new (c : Counters) : Counters := raise n_open_tasks n_high_water_open_tasks c.
Definition OpenTaskGuard_drop (c : Counters) : Counters := fetch_sub n_open_tasks 1 c.
Definition CounterGuard_drop (c : Counters) : Counters := store n_sessions 0 c.

Definition registration (service : ClientService) : Message :=
  M_RegisterService (mkRegisterService (cs_id service) (cs_name service)
                       (cs_requested_bind service) (cs_target service)).

(** ** The Session's state

    [sl_queue] is the bounded channel of outgoing messages and [sl_out] what
    has been written; [sl_running] are the Open tasks that still hold their
    permit; [sl_answers] and [sl_unregistered] are the replies sent to callers
    so far. *)

Record Loop := mkLoop
  { sl_session : SessionId;
    sl_generation : Z;
    sl_negotiated : Capabilities;
    sl_state : ServiceState;
    sl_counters : Counters;
    sl_permits : Z;
    sl_running : list Open;
    sl_queue : list Message;
    sl_out : list Message;
    sl_heartbeat : Heartbeat;
    sl_cancelled : bool;
    sl_timed_out : bool;
    sl_peer_drain : option Z;
    sl_answers : list Answer;
    sl_unregistered : list Sender }.

(** Field updates. *)
Definition set_sl_state v (l : Loop) :=
  mkLoop (sl_session l) (sl_generation l) (sl_negotiated l) v (sl_counters l) (sl_permits l)
    (sl_running l) (sl_queue l) (sl_out l) (sl_heartbeat l) (sl_cancelled l) (sl_timed_out l)
    (sl_peer_drain l) (sl_answers l) (sl_unregistered l).
Definition set_sl_counters v (l : Loop) :=
  mkLoop (sl_session l) (sl_generation l) (sl_negotiated l) (sl_state l) v (sl_permits l)
    (sl_running l) (sl_queue l) (sl_out l) (sl_heartbeat l) (sl_cancelled l) (sl_timed_out l)
    (sl_peer_drain l) (sl_answers l) (sl_unregistered l).
Definition set_sl_permits v (l : Loop) :=
  mkLoop (sl_session l) (sl_generation l) (sl_negotiated l) (sl_state l) (sl_counters l) v
    (sl_running l) (sl_queue l) (sl_out l) (sl_heartbeat l) (sl_cancelled l) (sl_timed_out l)
    (sl_peer_drain l) (sl_answers l) (sl_unregistered l).
Definition set_sl_running v (l : Loop) :=
  mkLoop (sl_session l) (sl_generation l) (sl_negotiated l) (sl_state l) (sl_counters l)
    (sl_permits l) v (sl_queue l) (sl_out l) (sl_heartbeat l) (sl_cancelled l) (sl_timed_out l)
    (sl_peer_drain l) (sl_answers l) (sl_unregistered l).
Definition set_sl_queue v (l : Loop) :=
  mkLoop (sl_session l) (sl_generation l) (sl_negotiated l) (sl_state l) (sl_counters l)
    (sl_permits l) (sl_running l) v (sl_out l) (sl_heartbeat l) (sl_cancelled l) (sl_timed_out l)
    (sl_peer_drain l) (sl_answers l) (sl_unregistered l).
Definition set_sl_out v (l : Loop) :=
  mkLoop (sl_session l) (sl_generation l) (sl_negotiated l) (sl_state l) (sl_counters l)
    (sl_permits l) (sl_running l) (sl_queue l) v (sl_heartbeat l) (sl_cancelled l)
    (sl_timed_out l) (sl_peer_drain l) (sl_answers l) (sl_unregistered l).
Definition set_sl_heartbeat v (l : Loop) :=
  mkLoop (sl_session l) (sl_generation l) (sl_negotiated l) (sl_state l) (sl_counters l)
    (sl_permits l) (sl_running l) (sl_queue l) (sl_out l) v (sl_cancelled l) (sl_timed_out l)
    (sl_peer_drain l) (sl_answers l) (sl_unregistered l).
Definition set_sl_cancelled v (l : Loop) :=
  mkLoop (sl_session l) (sl_generation l) (sl_negotiated l) (sl_state l) (sl_counters l)
    (sl_permits l) (sl_running l) (sl_queue l) (sl_out l) (sl_heartbeat l) v (sl_timed_out l)
    (sl_peer_drain l) (sl_answers l) (sl_unregistered l).
Definition set_sl_timed_out v (l : Loop) :=
  mkLoop (sl_session l) (sl_generation l) (sl_negotiated l) (sl_state l) (sl_counters l)
    (sl_permits l) (sl_running l) (sl_queue l) (sl_out l) (sl_heartbeat l) (sl_cancelled l) v
    (sl_peer_drain l) (sl_answers l) (sl_unregistered l).
Definition set_sl_peer_drain v (l : Loop) :=
  mkLoop (sl_session l) (sl_generation l) (sl_negotiated l) (sl_state l) (sl_counters l)
    (sl_permits l) (sl_running l) (sl_queue l) (sl_out l) (sl_heartbeat l) (sl_cancelled l)
    (sl_timed_out l) v (sl_answers l) (sl_unregistered l).
Definition set_sl_answers v (l : Loop) :=
  mkLoop (sl_session l) (sl_generation l) (sl_negotiated l) (sl_state l) (sl_counters l)
    (sl_permits l) (sl_running l) (sl_queue l) (sl_out l) (sl_heartbeat l) (sl_cancelled l)
    (sl_timed_out l) (sl_peer_drain l) v (sl_unregistered l).
Definition set_sl_unregistered v (l : Loop) :=
  mkLoop (sl_session l) (sl_generation l) (sl_negotiated l) (sl_state l) (sl_counters l)
    (sl_permits l) (sl_running l) (sl_queue l) (sl_out l) (sl_heartbeat l) (sl_cancelled l)
    (sl_timed_out l) (sl_peer_drain l) (sl_answers l) v.

Definition policy_of (l : Loop) : RuntimePolicy := ctr_policy (sl_counters l).
Definition correlated (l : Loop) : bool := has (sl_negotiated l) CAPABILITY_REGISTER_REJECT.
Definition count (f : Counters → Counters) (l : Loop) : Loop := set_sl_counters (f (sl_counters l)) l.
Definition reply_with (a : list Answer) (l : Loop) : Loop := set_sl_answers (sl_answers l ++ a) l.

(** [out_tx.try_send]: the channel has [control_queue] places. *)
Definition try_send (m : Message) (l : Loop) : bool * Loop :=
  if len (sl_queue l) <? control_queue (limits (policy_of l))
  then (true, set_sl_queue (sl_queue l ++ [m]) l)
  else (false, l).

Definition write_control (w : WriteOutcome) (m : Message) (l : Loop) : result TunnelError unit * Loop :=
  let '(r, out) := write_bounded w (sl_out l) m in (r, set_sl_out out l).

(** ** From the connection to the ready Session *)

Record ConnectIo := mkConnectIo
  { ci_hello_write : WriteOutcome;
    ci_hello_read : poll (result TunnelError Message);
    ci_auth_write : WriteOutcome;
    ci_auth_read : poll (result TunnelError Message);
    ci_register : ServiceId → WriteOutcome * poll (result TunnelError Message) }.

Definition authenticate (io : ConnectIo) (token : SecretToken) (negotiated : Capabilities)
    (out : list Message) : result TunnelError (SessionId * Capabilities) * list Message :=
  match Auth_new (expose token) with
  | Err e => (Err (TE_Protocol e), out)
  | Ok auth =>
      match write_bounded (ci_auth_write io) out (M_Auth auth) with
      | (Err e, out1) => (Err e, out1)
      | (Ok _, out1) =>
          (match read_bounded (ci_auth_read io) with
           | Ok (M_AuthOk ok) => Ok (ao_session_id ok, negotiated)
           | Ok _ => Err TE_Authentication
           | Err e => Err e
           end, out1)
      end
  end.

Definition client_handshake (io : ConnectIo) (token : SecretToken)
    : result TunnelError (SessionId * Capabilities) * list Message :=
  let offered := supported in
  match write_bounded (ci_hello_write io) [] (M_ClientHello (mkClientHello CURRENT offered)) with
  | (Err e, out) => (Err e, out)
  | (Ok _, out) =>
      match read_bounded (ci_hello_read io) with
      | Err e => (Err e, out)
      | Ok (M_ServerHello hello) =>
          if pv_major (sh_version hello) =? pv_major CURRENT
          then authenticate io token (negotiate_capabilities offered (sh_capabilities hello)) out
          else (Err (TE_Protocol UnexpectedMessage), out)
      | Ok _ => (Err (TE_Protocol UnexpectedMessage), out)
      end
  end.

(** One configured service after the other; any refusal fails the Session. *)
Fixpoint register_initial (io : ServiceId → WriteOutcome * poll (result TunnelError Message))
    (session : SessionId) (desired : list ClientService) (out : list Message) (c : Counters)
    : result TunnelError unit * list Message * Counters :=
  match desired with
  | [] => (Ok tt, out, c)
  | service :: rest =>
      let '(w, reply) := io (cs_id service) in
      match write_bounded w out (registration service) with
      | (Err e, out1) => (Err e, out1, c)
      | (Ok _, out1) =>
          match read_bounded reply with
          | Err e => (Err e, out1, c)
          | Ok (M_RegisterAck ack) =>
              if decide (ra_service_id ack = cs_id service)
              then register_initial io session rest out1
                     (with_bind_table_mut
                        (fun binds => binds ++ [mkBindEntry session (cs_id service) (ra_effective_bind ack)]) c)
              else (Err TE_Authorization, out1, c)
          | Ok _ => (Err TE_Authorization, out1, c)
          end
      end
  end.

(** What [run_session] has done when the loop starts, or when it gives up
    before: the reconnect delay is reset only by a ready Session. *)
Record Started := mkStarted
  { sa_result : result TunnelError Loop; sa_out : list Message; sa_state : ServiceState;
    sa_counters : Counters; sa_delay : Z; sa_answers : list Answer }.

Definition ready (session : SessionId) (generation : Z) (negotiated : Capabilities)
    (out : list Message) (answers : list Answer) (s : ServiceState) (c : Counters) : Loop :=
  let s1 := activate_initial s in
  let c1 := store n_sessions 1 (store n_services (len (st_desired s1)) (store n_connected 1 c)) in
  mkLoop session generation negotiated s1 c1 (client_open_tasks (limits (ctr_policy c1))) [] [] out
    Heartbeat_new false false None answers [].

Definition start_session (io : ConnectIo) (token : SecretToken) (s : ServiceState) (c : Counters)
    (delay : Z) : Started :=
  match client_handshake io token with
  | (Err e, out) => mkStarted (Err e) out s c delay []
  | (Ok (session, negotiated), out) =>
      match begin_session c with
      | Err e => mkStarted (Err e) out s c delay []
      | Ok (generation, c1) =>
          let mode := if has negotiated CAPABILITY_REGISTER_REJECT
                      then CorrelatedBounded (client_command_queue (limits (ctr_policy c1)))
                      else LegacySerial in
          let '(answers, s1) := set_mode mode s in
          let s2 := clear_active s1 in
          match register_initial (ci_register io) session (st_desired s2) out c1 with
          | (Err e, out1, c2) => mkStarted (Err e) out1 s2 c2 delay answers
          | (Ok _, out1, c2) =>
              let l := ready session generation negotiated out1 answers s2 c2 in
              mkStarted (Ok l) out1 (sl_state l) (sl_counters l)
                (reconnect_initial (timeouts (policy_of l))) answers
          end
      end
  end.

(** ** The arms of the loop *)

Definition on_cancelled (w : WriteOutcome) (l : Loop) : Flow * Loop :=
  let ms := as_millis (relay_drain (timeouts (policy_of l))) in
  let drain := M_Drain (mkDrain (default (umax 32) (try_into 32 ms))) in
  (Break, (write_control w drain (set_sl_cancelled true l)).2).

Definition on_tick (now : Z) (l : Loop) : Flow * Loop :=
  if has_outstanding (sl_heartbeat l) then (Continue, count record_heartbeat_missed l)
  else
    let '(nonce, h) := next_nonce (sl_heartbeat l) in
    let l1 := set_sl_heartbeat h l in
    match try_send (M_Ping (mkPing nonce)) l1 with
    | (true, l2) => (Continue, set_sl_heartbeat (mark_sent nonce now (sl_heartbeat l2)) l2)
    | (false, l2) => (Continue, count record_heartbeat_missed l2)
    end.

Definition on_deadline (now : Z) (l : Loop) : Flow * Loop :=
  let '(expiry, out, s) := expire_overdue now (sl_state l) in
  let l1 := reply_with out (set_sl_state s l) in
  match expiry with
  | E_None => (Continue, l1)
  | E_Legacy => (Break, set_sl_timed_out true l1)
  | E_Correlated _ => (Continue, l1)
  end.

Definition on_open (open : Open) (l : Loop) : Loop :=
  let refuse category code :=
    (try_send (M_OpenReject (mkOpenReject (op_connection_id open) code))
       (count (fun c => record_termination category (fetch_add n_rejected 1 c)) l)).2 in
  match st_active (sl_state l) !! op_service_id open with
  | None => refuse TC_Authorization 1
  | Some service =>
      if sl_permits l <=? 0 then refuse TC_ResourceExhausted 2
      else set_sl_running (sl_running l ++ [open])
             (set_sl_permits (sl_permits l - 1) (count OpenTaskGuard_new l))
  end.

(** The rest of the [RegisterAck] arm once the acknowledgement is committed. *)
Definition committed (ack : RegisterAck) (service : ClientService) (reply : option Sender) (l : Loop) : Loop :=
  let l1 := count (with_bind_table_mut
              (fun binds => binds ++ [mkBindEntry (sl_session l) (cs_id service) (ra_effective_bind ack)])) l in
  let s := commit service (sl_state l1) in
  let n := Z.of_nat (size (st_active s)) in
  reply_with (answer reply (Ok (ra_effective_bind ack)))
    (count (fun c => fetch_max n_high_water_services n (store n_services n c)) (set_sl_state s l1)).

Definition on_ack (closed : Sender → bool) (w : WriteOutcome) (ack : RegisterAck) (l : Loop)
    : Flow * Loop :=
  let '(disposition, s) := take_ack closed (ra_service_id ack) (sl_generation l) (sl_state l) in
  let l1 := set_sl_state s l in
  match disposition with
  | Unexpected => (Return (TE_Protocol UnexpectedMessage), l1)
  | AckStale reply => (Continue, reply_with (answer reply (Err TE_Disconnected)) l1)
  | Abandoned =>
      (Continue, (write_control w (M_UnregisterService (mkUnregisterService (ra_service_id ack))) l1).2)
  | Commit service reply => (Continue, committed ack service reply l1)
  end.

Definition on_error (error : ErrorMessage) (l : Loop) : Flow * Loop :=
  let '(rejected, s) := reject (sl_state l) in
  let l1 := set_sl_state s l in
  match rejected with
  | Some reply => (Continue, reply_with (answer reply (Err (registration_error error))) l1)
  | None => (Return TE_Authorization, l1)
  end.

Definition on_reject (r : RegisterReject) (l : Loop) : Flow * Loop :=
  if negb (correlated l) then (Return (TE_Protocol UnexpectedMessage), l)
  else
    let '(disposition, s) := take_reject (rj_service_id r) (sl_generation l) (sl_state l) in
    let l1 := set_sl_state s l in
    match disposition with
    | Reject reply => (Continue, reply_with (answer reply (Err (registration_error_code (rj_code r)))) l1)
    | RejectStale reply => (Continue, reply_with (answer reply (Err TE_Disconnected)) l1)
    | Unknown => (Return (TE_Protocol UnexpectedMessage), l1)
    end.

Definition on_pong (now nonce : Z) (l : Loop) : Loop :=
  let '(sent, h) := matching_pong nonce (sl_heartbeat l) in
  let l1 := set_sl_heartbeat h l in
  match sent with
  | Some sent_at => count (record_heartbeat_pong now sent_at) l1
  | None => l1
  end.

Definition on_message (closed : Sender → bool) (now : Z) (w : WriteOutcome)
    (incoming : result TunnelError Message) (l : Loop) : Flow * Loop :=
  match incoming with
  | Ok (M_Open open) => (Continue, on_open open l)
  | Ok (M_Ping ping) => (Continue, (try_send (M_Pong (mkPong (ping_nonce ping))) l).2)
  | Ok (M_Pong pong) => (Continue, on_pong now (pong_nonce pong) l)
  | Ok (M_RegisterAck ack) => on_ack closed w ack l
  | Ok (M_Error error) => on_error error l
  | Ok (M_RegisterReject r) => on_reject r l
  | Ok (M_Drain drain) =>
      (Break, set_sl_cancelled true (set_sl_peer_drain (Some (drain_deadline_ms drain)) l))
  | Ok _ => (Return (TE_Protocol UnexpectedMessage), l)
  | Err e => (Return e, l)
  end.

(** [Some(message) = out_rx.recv()]: the message leaves the queue first. *)
Definition on_outgoing (w : WriteOutcome) (l : Loop) : Flow * Loop :=
  match sl_queue l with
  | [] => (Continue, l)
  | m :: queue =>
      let '(r, l1) := write_control w m (set_sl_queue queue l) in
      (match r with Ok _ => Continue | Err e => Return e end, l1)
  end.

(** [ClientCommand::Register].  [now] is the time after the write. *)
Definition arm_deadline (id : ServiceId) (deadline : Z) (s : ServiceState) : ServiceState :=
  match st_mode s with
  | LegacySerial => arm_pending deadline s
  | CorrelatedBounded _ => arm_in_flight id deadline s
  end.

Definition register_timed_out (id : ServiceId) (l : Loop) : Flow * Loop :=
  match st_mode (sl_state l) with
  | LegacySerial =>
      let '(reply, s) := take_pending_reply (sl_state l) in
      (Break, set_sl_timed_out true (reply_with (answer reply (Err TE_Timeout)) (set_sl_state s l)))
  | CorrelatedBounded _ =>
      let '(out, s) := abandon id (sl_state l) in
      (Continue, reply_with out (set_sl_state s l))
  end.

Definition on_register (closed : Sender → bool) (w : WriteOutcome) (now : Z) (service : ClientService)
    (reply : Sender) (l : Loop) : Flow * Loop :=
  let p := policy_of l in
  if services_per_session (limits p) <=?
       saturating_add 64 (len (st_desired (sl_state l))) (unacknowledged (sl_state l))
  then (Continue, reply_with [(reply, Err TE_ResourceExhausted)] l)
  else if closed reply then (Continue, l)
  else match begin service (sl_generation l) reply (sl_state l) with
  | (Err (e, r), s) => (Continue, reply_with [(r, Err e)] (set_sl_state s l))
  | (Ok _, s) =>
      let '(_, l1) := write_control w (registration service) (set_sl_state s l) in
      match w with
      | W_done =>
          let deadline := now + handshake_timeout (timeouts p) in
          (Continue, set_sl_state (arm_deadline (cs_id service) deadline (sl_state l1)) l1)
      | W_failed k => (Return (io_error k), l1)
      | W_timeout => register_timed_out (cs_id service) l1
      end
  end.

(** [ClientCommand::Unregister]. *)
Definition on_unregister (w : WriteOutcome) (id : ServiceId) (reply : Sender) (l : Loop) : Flow * Loop :=
  let '(was_present, out, s) := unregister id (sl_state l) in
  let l1 := reply_with out (set_sl_state s l) in
  let request := M_UnregisterService (mkUnregisterService id) in
  if was_present then
    let l2 := count (fun c => with_bind_table_mut (filter (fun b => be_service b ≠ id))
                (store n_services (Z.of_nat (size (st_active s))) c)) l1 in
    match write_control w request l2 with
    | (Err e, l3) => (Return e, l3)
    | (Ok _, l3) => (Continue, set_sl_unregistered (sl_unregistered l3 ++ [reply]) l3)
    end
  else
    let l2 := (write_control w request l1).2 in
    (Continue, set_sl_unregistered (sl_unregistered l2 ++ [reply]) l2).

Definition on_task_joined (r : JoinResult) (l : Loop) : Loop := count (record_join_result r) l.

(** ** client/open.rs *)

(** A step of [handle_open] raced against cancellation and a time budget. *)
Inductive TargetError := Refused | Failed.

(** [std::io::Error::other]. *)
Definition Other : ErrorKind := OtherKind 0.

Definition target_error (e : TargetError) : TunnelError :=
  match e with
  | Refused => TE_Target
  | Failed => TE_Io Other
  end.

(** The data path: TCP, TLS and perhaps a WebSocket on top; or a QUIC stream. *)
Inductive DataPath :=
| TcpTls (tcp : Stage TunnelError unit) (tls : Stage unit unit) (websocket : option (Stage unit unit))
| Quic (stream : Stage unit unit).

Definition connect_data (d : DataPath) : result TunnelError unit :=
  match d with
  | TcpTls tcp tls websocket =>
      _ ← run_stage (fun e => e) tcp;
      _ ← run_stage (fun _ => TE_Tls) tls;
      match websocket with Some ws => run_stage (fun _ => TE_Tls) ws | None => Ok tt end
  | Quic stream => run_stage (fun _ => TE_Disconnected) stream
  end.

(** [oi_relayed] are the bytes the relay reports, up and down, whether it
    ended well or not. *)
Record OpenIo := mkOpenIo
  { oi_target : Stage TargetError unit; oi_data : DataPath; oi_hello : WriteOutcome;
    oi_relayed : Z * Z }.

Definition data_hello (session : SessionId) (open : Open) (service : ClientService) : Message :=
  M_DataHello (mkDataHello session (cs_id service) (op_connection_id open)).

Definition handle_open (io : OpenIo) (open : Open) (service : ClientService) (l : Loop)
    : list Message * Loop :=
  let attempt :=
    _ ← run_stage target_error (oi_target io);
    _ ← connect_data (oi_data io);
    (write_bounded (oi_hello io) [] (data_hello (sl_session l) open service)).1 in
  match attempt with
  | Ok _ =>
      ([data_hello (sl_session l) open service],
       count (fun c => fetch_add n_bytes_downstream (oi_relayed io).2
                         (fetch_add n_bytes_upstream (oi_relayed io).1 c)) l)
  | Err _ =>
      ([],
       if sl_cancelled l then l
       else match try_send (M_OpenReject (mkOpenReject (op_connection_id open) 1)) l with
            | (true, l1) => l1
            | (false, l1) => count (fetch_add n_rejected 1) l1
            end)
  end.

(** The task is over: its guard and its permit go. *)
Definition release_open (i : nat) (l : Loop) : Loop :=
  set_sl_running (delete i (sl_running l))
    (set_sl_permits (sl_permits l + 1) (count OpenTaskGuard_drop l)).

(** ** The end of the Session *)

Definition client_drain_wait (l : Loop) : Z :=
  let grace := shutdown_grace (timeouts (policy_of l)) in
  match sl_peer_drain l with
  | Some peer_ms =>
      if has (sl_negotiated l) CAPABILITY_DRAIN_DEADLINE then Z.min (from_millis peer_ms) grace else grace
  | None => grace
  end.

(** The tasks still running are aborted, each with its guard, which a worker of
    the runtime drops; here it is gone at once. *)
Fixpoint abort_all (n : nat) (c : Counters) : Counters :=
  match n with O => c | S n' => abort_all n' (OpenTaskGuard_drop c) end.

Definition drop_tasks (l : Loop) : Loop :=
  set_sl_running [] (set_sl_permits (sl_permits l + len (sl_running l))
    (count (abort_all (length (sl_running l))) l)).

Definition finish_session (cancelled : bool) (l : Loop) : result TunnelError unit * Loop :=
  let l1 := count (store n_connected 0) (drop_tasks l) in
  let pending_error := if sl_timed_out l1 then TE_Timeout
                       else if cancelled then TE_Cancelled else TE_Disconnected in
  let '(out, s) := finish_pending pending_error (sl_state l1) in
  (if sl_timed_out l then Err TE_Timeout else Ok tt,
   count CounterGuard_drop (reply_with out (set_sl_state (clear_active s) l1))).

(** A [return] from inside the loop only drops what it owns. *)
Definition abandon_session (e : TunnelError) (l : Loop) : result TunnelError unit * Loop :=
  (Err e, count CounterGuard_drop (drop_tasks l)).

(** ** The loop as a step relation

    One arm, or the end of one Open task. *)

Section loop.
Variable closed : Sender → bool.

Inductive loop_step : Loop → Flow → Loop → Prop :=
| L_cancelled l w : loop_step l (on_cancelled w l).1 (on_cancelled w l).2
| L_tick l now : loop_step l (on_tick now l).1 (on_tick now l).2
| L_deadline l now : loop_step l (on_deadline now l).1 (on_deadline now l).2
| L_message l now w m : loop_step l (on_message closed now w m l).1 (on_message closed now w m l).2
| L_outgoing l w : loop_step l (on_outgoing w l).1 (on_outgoing w l).2
| L_register l w now service reply :
    loop_step l (on_register closed w now service reply l).1 (on_register closed w now service reply l).2
| L_unregister l w id reply : loop_step l (on_unregister w id reply l).1 (on_unregister w id reply l).2
| L_joined l r : loop_step l Continue (on_task_joined r l)
| L_open_done l io i open service :
    sl_running l !! i = Some open →
    loop_step l Continue (release_open i (handle_open io open service l).2).

(** An Open task ends by itself. *)
Inductive task_ends : Loop → Loop → Prop :=
| TE_open l io i open service :
    sl_running l !! i = Some open → task_ends l (release_open i (handle_open io open service l).2).

(** A Session from the ready state: the loop runs while arms continue.  Once it
    is left, the Open tasks have the drain window to end; [finish_session]
    aborts those that are left. *)
Inductive session_run : Loop → result TunnelError unit → Loop → Prop :=
| R_step l l' r e : loop_step l Continue l' → session_run l' r e → session_run l r e
| R_break l l' l1 cancelled : loop_step l Break l' → rtc task_ends l' l1 →
    session_run l (finish_session cancelled l1).1 (finish_session cancelled l1).2
| R_return l l' e : loop_step l (Return e) l' →
    session_run l (abandon_session e l').1 (abandon_session e l').2.
End loop.

(** ** The invariant *)

Definition active_ids (s : ServiceState) : list ServiceId := (map_to_list (st_active s)).*1.

Section invariant.
Variable pol : RuntimePolicy.

Record loop_inv (l : Loop) : Prop :=
  { li_wf : wf_state (sl_state l);
    li_desired : cs_id <$> st_desired (sl_state l) ≡ₚ active_ids (sl_state l);
    li_binds : be_service <$> ctr_binds (sl_counters l) ≡ₚ active_ids (sl_state l);
    li_gauge : load n_services (sl_counters l) = Z.of_nat (size (st_active (sl_state l)));
    li_bound : len (services (sl_state l)) <= services_per_session (limits (policy_of l));
    li_tasks : load n_open_tasks (sl_counters l) = wrap 64 (len (sl_running l));
    li_permits : 0 <= sl_permits l ∧
                 sl_permits l + len (sl_running l) = client_open_tasks (limits (policy_of l));
    li_queue : len (sl_queue l) <= Z.max 0 (control_queue (limits (policy_of l)));
    li_policy : services_per_session (limits (policy_of l)) <= umax 64;
    li_fixed : policy_of l = pol }.

(** What most arms leave alone. *)
Definition same_counts (c c' : Counters) : Prop :=
  ctr_binds c' = ctr_binds c ∧ load n_services c' = load n_services c ∧
  load n_open_tasks c' = load n_open_tasks c ∧ ctr_policy c' = ctr_policy c.

Record quiet (l l' : Loop) : Prop :=
  { q_state : sl_state l' = sl_state l;
    q_counts : same_counts (sl_counters l) (sl_counters l');
    q_permits : sl_permits l' = sl_permits l;
    q_running : sl_running l' = sl_running l;
    q_queue : len (sl_queue l') <= Z.max (len (sl_queue l)) (control_queue (limits (policy_of l))) }.

#[export] Instance quiet_refl : Reflexive quiet.
Proof. intros l. split; try done. lia. Qed.
#[export] Instance quiet_trans : Transitive quiet.
Proof.
  intros x y z [H1 (A & B & C & D) H2 H3 H4] [G1 (A' & B' & C' & D') G2 G3 G4].
  split; [congruence|repeat split; congruence|congruence..|].
  unfold policy_of in *. rewrite D in G4. lia.
Qed.

Lemma quiet_inv l l' : quiet l l' → loop_inv l → loop_inv l'.
Proof.
  intros [Hs (Hb & Hg & Ht & Hp) Hpe Hr Hq] [H1 H2 H3 H4 H5 H6 H7 H8 H9 H10].
  unfold policy_of in *. split; unfold policy_of; rewrite ?Hs, ?Hb, ?Hg, ?Ht, ?Hp, ?Hpe, ?Hr; try done.
  lia.
Qed.

Lemma try_send_quiet m l : quiet l (try_send m l).2.
Proof.
  unfold try_send. destruct (_ <? _) eqn:E; [|done]. bools. split; try done.
  simpl. rewrite len_app. change (len [m]) with 1. lia.
Qed.

Lemma write_quiet w m l : quiet l (write_control w m l).2.
Proof. destruct w; (split; try done; simpl; lia). Qed.

Lemma count_quiet f l : same_counts (sl_counters l) (f (sl_counters l)) → quiet l (count f l).
Proof. intros H. split; try done. simpl. lia. Qed.

Lemma reply_quiet a l : quiet l (reply_with a l).
Proof. split; try done. simpl. lia. Qed.

(** Closes [quiet] where only fields it does not read have changed. *)
Ltac quiet := solve [split; try done; simpl; lia].

(** A new registration state with the same services in use. *)
Lemma state_inv l s :
  loop_inv l → wf_state s → st_desired s = st_desired (sl_state l) → st_active s = st_active (sl_state l) →
  len (txns s) <= Z.max (len (txns (sl_state l)))
                        (services_per_session (limits (policy_of l)) - len (st_desired (sl_state l))) →
  loop_inv (set_sl_state s l).
Proof.
  intros [H1 H2 H3 H4 H5 H6 H7 H8 H9 H10] Hw Hd Ha Ht. split; try done; simpl; unfold active_ids in *;
    rewrite ?Hd, ?Ha; try done.
  unfold services in *. rewrite Hd, len_app in *. unfold len in *. rewrite length_fmap in *.
  change (policy_of (set_sl_state s l)) with (policy_of l). lia.
Qed.

Lemma unacknowledged_txns s : unacknowledged s = len (txns s).
Proof.
  unfold unacknowledged, txns. rewrite len_app. unfold len. rewrite length_values.
  destruct (st_pending s); simpl; lia.
Qed.

(** *** Registration operations that leave the services in use alone *)

(** [s'] has the services of [s] and no more transactions than [s]. *)
Record fewer (s s' : ServiceState) : Prop :=
  { fw_wf : wf_state s';
    fw_desired : st_desired s' = st_desired s;
    fw_active : st_active s' = st_active s;
    fw_txns : len (txns s') <= len (txns s) }.

Lemma fewer_inv l s : loop_inv l → fewer (sl_state l) s → loop_inv (set_sl_state s l).
Proof. intros Hi [? ? ? ?]. apply state_inv; try done. lia. Qed.

Lemma fewer_lost s s' lost :
  wf_state s' → st_desired s' = st_desired s → st_active s' = st_active s →
  txns s ≡ₚ lost ++ txns s' → fewer s s'.
Proof. intros ? ? ? Ht. split; try done. unfold len. rewrite Ht, length_app. lia. Qed.

Lemma take_fewer id s p s' : wf_state s → take_transaction id s = (Found p, s') → fewer s s'.
Proof.
  intros Hw Ht. destruct (take_transaction_wf _ _ _ _ Hw Ht) as (? & Hp & _).
  destruct (take_transaction_cases id s) as [(p' & s'' & E & _ & _ & Hd & Ha & _)|[E|E]];
    rewrite E in Ht; simplify_eq. by apply (fewer_lost s s' [p]).
Qed.

Lemma forget_fewer s id : wf_state s → fewer s (set_abandoned (delete id (st_abandoned s)) s).
Proof.
  intros Hw. split; try done. apply wf_shrink_abandoned; [done|].
  pose proof (wf_abandoned _ Hw). pose proof (size_delete_le (st_abandoned s) id). lia.
Qed.

Lemma fewer_refl s : wf_state s → fewer s s.
Proof. by split. Qed.

Lemma take_ack_fewer closed id g s d s' :
  wf_state s → take_ack closed id g s = (d, s') →
  fewer s s' ∧ ∀ service reply, d = Commit service reply →
    cs_id service = id ∧ services s ≡ₚ service :: services s'.
Proof.
  intros Hw. unfold take_ack. destruct (take_transaction id s) as [t s1] eqn:Ht.
  destruct t as [p| |].
  - pose proof (take_fewer _ _ _ _ Hw Ht) as Hf.
    destruct (take_transaction_wf _ _ _ _ Hw Ht) as (_ & _ & Hs & Hid).
    destruct (negb _); [intros [= <- <-]; by split|].
    destruct (match pr_reply p with Some r => closed r | None => true end); intros [= <- <-]; [by split|].
    split; [done|]. by intros ?? [= <- <-].
  - destruct (take_transaction_cases id s) as [(?&?&E&_)|[E|E]]; rewrite E in Ht; simplify_eq.
    destruct (st_abandoned s1 !! id); [destruct (_ =? _)|]; intros [= <- <-]; split; try done;
      first [by apply forget_fewer|by apply fewer_refl].
  - destruct (take_transaction_cases id s) as [(?&?&E&_)|[E|E]]; rewrite E in Ht; simplify_eq.
    destruct (st_abandoned s1 !! id); [destruct (_ =? _)|]; intros [= <- <-]; split; try done;
      first [by apply forget_fewer|by apply fewer_refl].
Qed.

Lemma take_reject_fewer id g s : wf_state s → fewer s (take_reject id g s).2.
Proof.
  intros Hw. unfold take_reject. destruct (take_transaction id s) as [t s1] eqn:Ht.
  destruct t as [p| |]; [by eapply take_fewer| |];
    (destruct (take_transaction_cases id s) as [(?&?&E&_)|[E|E]]; rewrite E in Ht; simplify_eq);
    (destruct (st_abandoned s1 !! id); [by apply forget_fewer|by apply fewer_refl]).
Qed.

Lemma expire_fewer now s e out s' : wf_state s → expire_overdue now s = (e, out, s') → fewer s s'.
Proof.
  intros Hw He. pose proof (apply_wf (fun _ => false) (O_expire now) s Hw) as Hw'. simpl in Hw'.
  rewrite He in Hw'. apply expire_txns in He as (lost & Ht & _ & _ & _ & Hd & Ha & _).
  by apply (fewer_lost s s' lost).
Qed.

Lemma abandon_fewer id s out s' : wf_state s → abandon id s = (out, s') → fewer s s'.
Proof.
  intros Hw He. pose proof (apply_wf (fun _ => false) (O_abandon id) s Hw) as Hw'. simpl in Hw'.
  rewrite He in Hw'. apply abandon_txns in He as (lost & Ht & _ & Hd & Ha & _).
  by apply (fewer_lost s s' lost).
Qed.

Lemma reject_fewer s : wf_state s → fewer s (reject s).2.
Proof.
  intros Hw. pose proof (apply_wf (fun _ => false) O_reject_legacy s Hw) as Hw'.
  by apply (fewer_lost s _ (option_list (st_pending s))).
Qed.

Lemma take_reply_fewer s : wf_state s → fewer s (take_pending_reply s).2.
Proof.
  intros Hw. pose proof (apply_wf (fun _ => false) O_take_reply s Hw) as Hw'.
  split; try done. unfold txns. simpl. destruct (st_pending s); simpl; rewrite ?len_cons; lia.
Qed.

Lemma arm_fewer id d s : wf_state s → fewer s (arm_deadline id d s).
Proof.
  intros Hw. destruct (arm_wf s d id Hw) as [Hp Hf]. unfold arm_deadline. destruct (st_mode s).
  - split; try done. unfold txns. simpl. destruct (st_pending s); simpl; rewrite ?len_cons; lia.
  - split; try done. unfold txns. simpl. rewrite !len_app. unfold len. rewrite !length_values, <-!size_dom, dom_alter_L. lia.
Qed.

Lemma begin_more service g r s :
  wf_state s → let s' := (begin service g r s).2 in
  wf_state s' ∧ st_desired s' = st_desired s ∧ st_active s' = st_active s ∧
  len (txns s') <= len (txns s) + 1.
Proof.
  intros Hw s'. pose proof (begin_wf service g r s Hw) as Hw'. fold s' in Hw'. unfold s', begin in *.
  destruct (already_known service s); simpl in *; [split_and!; try done; lia|].
  destruct (st_mode s); simpl in *.
  - destruct (st_pending s) as [p|] eqn:Hp; simpl in *; split_and!; try done; unfold txns; simpl;
      rewrite Hp, ?len_app; simpl; rewrite ?len_cons, ?len_nil; lia.
  - destruct (_ <=? _); simpl in *; split_and!; try done; unfold txns; simpl.
    + lia.
    + rewrite !len_app. unfold len. rewrite !length_values, map_size_insert.
      destruct (st_in_flight s !! cs_id service); unfold Datatypes.id; lia.
Qed.

(** *** The arms *)

Lemma on_open_inv open l : loop_inv l → loop_inv (on_open open l).
Proof.
  intros Hi. assert (∀ cat code, loop_inv (try_send (M_OpenReject (mkOpenReject (op_connection_id open) code))
       (count (fun c => record_termination cat (fetch_add n_rejected 1 c)) l)).2) as Href.
  { intros cat code. eapply quiet_inv; [apply try_send_quiet|]. eapply quiet_inv; [|done]. by apply count_quiet. }
  unfold on_open. destruct (st_active _ !! _); [|apply Href]. destruct (_ <=? 0) eqn:Hp; [apply Href|]. bools.
  destruct Hi as [H1 H2 H3 H4 H5 H6 [H7 H7'] H8 H9 H10]. split; try done; simpl.
  - rewrite H6, wrap_add, len_app. done.
  - rewrite len_app. change (len [open]) with 1.
    change (policy_of _) with (policy_of l) at 1. lia.
Qed.

Lemma commit_ids service s :
  cs_id service ∉ active_ids s → active_ids (commit service s) ≡ₚ cs_id service :: active_ids s.
Proof.
  intros Hni. unfold active_ids. simpl. rewrite map_to_list_insert; [done|].
  apply eq_None_not_Some. intros [x Hx]. apply Hni. apply list_elem_of_fmap.
  exists (cs_id service, x). split; [done|]. by apply elem_of_map_to_list.
Qed.

Lemma active_ids_size s : len (active_ids s) = Z.of_nat (size (st_active s)).
Proof. unfold len, active_ids. by rewrite length_fmap, length_map_to_list. Qed.

Lemma committed_inv ack service reply s l :
  loop_inv l → fewer (sl_state l) s → services (sl_state l) ≡ₚ service :: services s →
  loop_inv (committed ack service reply (set_sl_state s l)).
Proof.
  intros Hi [Hw Hd Ha Ht] Hs. unfold committed. eapply quiet_inv; [apply reply_quiet|].
  destruct Hi as [H1 H2 H3 H4 H5 H6 H7 H8 H9 H10].
  assert (already_known service s = false) as Hnew.
  { eapply not_known_after_take; [apply H1..|done]. }
  assert (cs_id service ∉ active_ids s) as Hni.
  { unfold active_ids in *. rewrite Ha, <-H2, <-Hd. intros (x & Hx & Hin)%list_elem_of_fmap.
    rewrite already_known_false in Hnew. destruct (Hnew x) as [Hne _]; [|done].
    unfold services. apply elem_of_app. by left. }
  pose proof (commit_ids service s Hni) as Hc.
  unfold active_ids in H2, H3. rewrite <-Ha in H2, H3. fold (active_ids s) in H2, H3.
  split; simpl.
  - by apply commit_wf.
  - rewrite fmap_app, Hc, Hd, H2. simpl. by rewrite <-Permutation_cons_append.
  - rewrite fmap_app, Hc, H3. simpl. by rewrite <-Permutation_cons_append.
  - done.
  - unfold len. rewrite <-(Permutation_length (l := service :: services s)).
    + rewrite <-Hs. exact H5.
    + unfold services. simpl. rewrite <-app_assoc. simpl. by rewrite <-Permutation_middle.
  - done.
  - done.
  - done.
  - done.
  - done.
Qed.

Lemma on_ack_inv closed w ack l : loop_inv l → loop_inv (on_ack closed w ack l).2.
Proof.
  intros Hi. unfold on_ack. destruct (take_ack _ _ _ _) as [d s] eqn:Ht.
  destruct (take_ack_fewer _ _ _ _ _ _ (li_wf _ Hi) Ht) as [Hf Hc].
  pose proof (fewer_inv _ _ Hi Hf) as Hs. destruct d as [service reply| |reply|]; simpl.
  - apply committed_inv; [done..|]. by eapply Hc.
  - eapply quiet_inv; [apply write_quiet|done].
  - eapply quiet_inv; [apply reply_quiet|done].
  - done.
Qed.

Lemma on_error_inv e l : loop_inv l → loop_inv (on_error e l).2.
Proof.
  intros Hi. pose proof (reject_fewer _ (li_wf _ Hi)) as Hf. unfold on_error.
  destruct (reject (sl_state l)) as [[reply|] s]; simpl in *; [|by apply fewer_inv].
  eapply quiet_inv; [apply reply_quiet|by apply fewer_inv].
Qed.

Lemma on_reject_inv r l : loop_inv l → loop_inv (on_reject r l).2.
Proof.
  intros Hi. unfold on_reject. destruct (negb _); [done|].
  pose proof (take_reject_fewer (rj_service_id r) (sl_generation l) _ (li_wf _ Hi)) as Hf.
  destruct (take_reject _ _ _) as [d s]. pose proof (fewer_inv _ _ Hi Hf) as Hs.
  destruct d; simpl; try done; (eapply quiet_inv; [apply reply_quiet|done]).
Qed.

Lemma on_deadline_inv now l : loop_inv l → loop_inv (on_deadline now l).2.
Proof.
  intros Hi. unfold on_deadline. destruct (expire_overdue now _) as [[e out] s] eqn:He.
  pose proof (fewer_inv _ _ Hi (expire_fewer _ _ _ _ _ (li_wf _ Hi) He)) as Hs.
  assert (loop_inv (reply_with out (set_sl_state s l))) as Hr
    by (eapply quiet_inv; [apply reply_quiet|done]).
  destruct e; simpl; try done. eapply quiet_inv, Hr; quiet.
Qed.

Lemma on_pong_inv now n l : loop_inv l → loop_inv (on_pong now n l).
Proof.
  intros Hi. unfold on_pong. destruct (matching_pong n _) as [[sent|] h]; eapply quiet_inv, Hi; quiet.
Qed.

Lemma on_tick_inv now l : loop_inv l → loop_inv (on_tick now l).2.
Proof.
  intros Hi. unfold on_tick. destruct (has_outstanding _); simpl; [eapply quiet_inv, Hi; quiet|].
  match goal with |- context [try_send ?m ?l1] =>
    pose proof (try_send_quiet m l1) as Hq; destruct (try_send m l1) as [[] l2] end; simpl in *.
  - eapply quiet_inv; [|eapply quiet_inv; [exact Hq|]]; [quiet|]. eapply quiet_inv, Hi; quiet.
  - eapply quiet_inv; [|eapply quiet_inv; [exact Hq|]]; [quiet|]. eapply quiet_inv, Hi; quiet.
Qed.

Lemma on_message_inv closed now w m l : loop_inv l → loop_inv (on_message closed now w m l).2.
Proof.
  intros Hi. unfold on_message. destruct m as [m|e]; [|done]. destruct m; try done; simpl.
  - by apply on_ack_inv.
  - by apply on_open_inv.
  - eapply quiet_inv; [apply try_send_quiet|done].
  - by apply on_pong_inv.
  - eapply quiet_inv, Hi; quiet.
  - by apply on_error_inv.
  - by apply on_reject_inv.
Qed.

Lemma on_outgoing_inv w l : loop_inv l → loop_inv (on_outgoing w l).2.
Proof.
  intros Hi. unfold on_outgoing. destruct (sl_queue l) as [|m q] eqn:Hq; [done|].
  assert (quiet l (set_sl_queue q l)) as Hs.
  { split; try done. simpl. rewrite Hq, len_cons. pose proof (len_nonneg q). lia. }
  pose proof (write_quiet w m (set_sl_queue q l)) as Hw.
  destruct (write_control _ _ _) as [r l1]. simpl in *. by eapply quiet_inv, Hi; etransitivity.
Qed.

Lemma on_register_inv closed w now service reply l :
  loop_inv l → loop_inv (on_register closed w now service reply l).2.
Proof.
  intros Hi. unfold on_register. destruct (_ <=? _) eqn:Hfull.
  { eapply quiet_inv; [apply reply_quiet|done]. }
  destruct (closed reply); [done|]. bools. rewrite unacknowledged_txns in Hfull.
  destruct (begin_more service (sl_generation l) reply _ (li_wf _ Hi)) as (Hw & Hd & Ha & Ht).
  assert (loop_inv (set_sl_state (begin service (sl_generation l) reply (sl_state l)).2 l)) as Hs.
  { apply state_inv; try done. pose proof (li_policy _ Hi). unfold saturating_add in Hfull. lia. }
  destruct (begin _ _ _ _) as [[[]|[e r]] s]; simpl in Hs; [|eapply quiet_inv; [apply reply_quiet|done]].
  pose proof (quiet_inv _ _ (write_quiet w (registration service) _) Hs) as Hl.
  destruct (write_control w _ _) as [r l1]. simpl in Hl. destruct w; simpl.
  - apply fewer_inv; [done|]. apply arm_fewer, Hl.
  - unfold register_timed_out. destruct (st_mode _).
    + pose proof (take_reply_fewer _ (li_wf _ Hl)) as Hf. destruct (take_pending_reply _) as [r0 s0]. simpl in *.
      eapply quiet_inv; [|by apply fewer_inv]. quiet.
    + destruct (abandon _ _) as [out s0] eqn:Hab. simpl.
      eapply quiet_inv; [apply reply_quiet|]. apply fewer_inv; [done|].
      eapply abandon_fewer; [apply Hl|done].
  - done.
Qed.

Lemma delete_ids s id : id ∈ active_ids s →
  active_ids s ≡ₚ id :: (map_to_list (delete id (st_active s))).*1.
Proof.
  intros ([i x] & -> & Hin)%list_elem_of_fmap. apply elem_of_map_to_list in Hin. unfold active_ids.
  by rewrite <-(map_to_list_delete _ i x).
Qed.

Lemma filter_ids {A} (f : A → ServiceId) id l ids :
  f <$> l ≡ₚ id :: ids → id ∉ ids → f <$> filter (fun x => f x ≠ id) l ≡ₚ ids.
Proof.
  intros Hp Hni. assert (f <$> filter (fun x => f x ≠ id) l = filter (fun i => i ≠ id) (f <$> l)) as ->.
  { clear. induction l as [|x l IH]; [done|]. rewrite fmap_cons, !filter_cons.
    repeat case_decide; try done. rewrite fmap_cons. f_equal. exact IH. }
  rewrite Hp, filter_cons_False, filter_all; [done| |naive_solver].
  apply list.Forall_forall. intros x Hx ->. done.
Qed.

Lemma filter_ids_none {A} (f : A → ServiceId) id l ids :
  f <$> l ≡ₚ ids → id ∉ ids → filter (fun x => f x ≠ id) l = l.
Proof.
  intros Hp Hni. apply filter_all, list.Forall_forall. intros x Hx <-. apply Hni. rewrite <-Hp.
  by apply list_elem_of_fmap_2.
Qed.

Lemma on_unregister_inv w id reply l : loop_inv l → loop_inv (on_unregister w id reply l).2.
Proof.
  intros Hi. unfold on_unregister.
  assert (wf_state (unregister id (sl_state l)).2) as Hw by apply unregister_wf, Hi.
  destruct (unregister id _) as [[b out] s] eqn:Hu. simpl in Hw.
  assert (b = bool_decide (is_Some (st_active (sl_state l) !! id))) as Hb.
  { unfold unregister in Hu. destruct (st_pending (sl_state l)) as [p|]; [destruct (decide _)|]; simplify_eq; done. }
  apply unregister_txns in Hu as (lost & Ht & _ & Hd & Ha & _).
  destruct Hi as [H1 H2 H3 H4 H5 H6 H7 H8 H9 H10].
  assert (len (services s) <= len (services (sl_state l))) as Hlen.
  { unfold services, len. rewrite Hd, !length_app, !length_fmap, (Permutation_length Ht), length_app.
    pose proof (length_filter (fun service => cs_id service ≠ id) (st_desired (sl_state l))). lia. }
  assert (active_ids s = (map_to_list (delete id (st_active (sl_state l)))).*1) as Hids
    by (unfold active_ids; by rewrite Ha).
  assert (id ∉ active_ids s) as Hni.
  { rewrite Hids. intros ([i x] & ? & Hin)%list_elem_of_fmap. simplify_eq/=.
    apply elem_of_map_to_list in Hin. by rewrite lookup_delete_eq in Hin. }
  assert (∀ l1, quiet l1 (set_sl_unregistered (sl_unregistered l1 ++ [reply]) l1)) as Hq by (intros; quiet).
  destruct b; symmetry in Hb.
  - apply bool_decide_eq_true in Hb.
    assert (id ∈ active_ids (sl_state l)) as Hin.
    { destruct Hb as [x Hx]. apply list_elem_of_fmap. exists (id, x). split; [done|].
      by apply elem_of_map_to_list. }
    rewrite (delete_ids _ _ Hin), <-Hids in H2, H3.
    match goal with |- context [write_control w ?m ?l2] =>
      pose proof (write_quiet w m l2) as Hwq; assert (loop_inv l2) as H end.
    { split; try done; simpl; rewrite ?Hd.
      - by apply filter_ids.
      - by apply filter_ids.
      - change (policy_of _) with (policy_of l). lia. }
    destruct (write_control w _ _) as [[[]|e] l3]; simpl in *; [eapply quiet_inv; [apply Hq|]|];
      by eapply quiet_inv.
  - apply bool_decide_eq_false, eq_None_not_Some in Hb.
    assert (active_ids s = active_ids (sl_state l)) as Hsame.
    { rewrite Hids. unfold active_ids. by rewrite delete_id. }
    eapply quiet_inv; [apply Hq|]. eapply quiet_inv; [apply write_quiet|].
    eapply quiet_inv; [apply reply_quiet|]. split; try done; simpl.
    + rewrite Hd, Hsame. rewrite Hsame in Hni. by rewrite (filter_ids_none _ _ _ _ H2).
    + by rewrite Hsame.
    + rewrite Ha, delete_id by done. done.
    + change (policy_of _) with (policy_of l). lia.
Qed.

Lemma handle_open_quiet io open service l : quiet l (handle_open io open service l).2.
Proof.
  unfold handle_open. destruct (_ ≫= _); simpl; [quiet|]. destruct (sl_cancelled l); [done|].
  match goal with |- context [try_send ?m l] =>
    pose proof (try_send_quiet m l) as Hq; destruct (try_send m l) as [[] l1] end; [done|].
  etransitivity; [exact Hq|]. by apply count_quiet.
Qed.

Lemma release_open_inv i open l : loop_inv l → sl_running l !! i = Some open → loop_inv (release_open i l).
Proof.
  intros [H1 H2 H3 H4 H5 H6 H7 H8 H9 H10] Hr.
  assert (len (delete i (sl_running l)) = len (sl_running l) - 1) as Hlen.
  { unfold len. rewrite length_delete by (by rewrite Hr). apply lookup_lt_Some in Hr. lia. }
  split; try done; simpl; rewrite Hlen.
  - rewrite H6, wrap_sub. done.
  - change (policy_of _) with (policy_of l). lia.
Qed.

Lemma loop_step_inv closed l f l' : loop_step closed l f l' → loop_inv l → loop_inv l'.
Proof.
  destruct 1 as [l w|l now|l now|l now w m|l w|l w now service reply|l w id reply|l r|l io i open service Hr];
    intros Hi.
  - unfold on_cancelled. eapply quiet_inv; [apply write_quiet|]. eapply quiet_inv, Hi; quiet.
  - by apply on_tick_inv.
  - by apply on_deadline_inv.
  - by apply on_message_inv.
  - by apply on_outgoing_inv.
  - by apply on_register_inv.
  - by apply on_unregister_inv.
  - eapply quiet_inv, Hi. apply count_quiet. by destruct r.
  - pose proof (handle_open_quiet io open service l) as Hq.
    eapply (release_open_inv i open); [by eapply quiet_inv|]. by rewrite (q_running _ _ Hq).
Qed.

(** *** The ready Session *)

Lemma register_initial_ok io session desired out c out' c' :
  register_initial io session desired out c = (Ok tt, out', c') →
  be_service <$> ctr_binds c' = (be_service <$> ctr_binds c) ++ (cs_id <$> desired) ∧
  ctr_policy c' = ctr_policy c ∧ load n_open_tasks c' = load n_open_tasks c.
Proof.
  revert out c. induction desired as [|service rest IH]; intros out c; simpl.
  { intros [= <- <-]. by rewrite app_nil_r. }
  destruct (io (cs_id service)) as [w reply]. destruct (write_bounded _ _ _) as [[[]|] out1]; [|done].
  destruct (read_bounded reply) as [m|]; [|done]. destruct m; try done. destruct (decide _); [|done].
  intros H. apply IH in H as (-> & -> & ->). simpl. rewrite fmap_app, <-app_assoc. done.
Qed.

Lemma activate_ids s : wf_state s → active_ids (activate_initial s) ≡ₚ cs_id <$> st_desired s.
Proof.
  intros Hw. pose proof (wf_ids _ Hw) as Hn. unfold services in Hn. rewrite fmap_app in Hn.
  apply list.NoDup_app in Hn as [Hn _]. unfold active_ids, activate_initial. simpl.
  assert (∀ l (m : gmap ServiceId ClientService), NoDup (cs_id <$> l) →
    (∀ x, x ∈ l → m !! cs_id x = None) →
    (map_to_list (foldl (fun m service => <[cs_id service := service]> m) m l)).*1 ≡ₚ
    (cs_id <$> l) ++ (map_to_list m).*1) as H.
  { induction l as [|x l IH]; intros m Hnd Hm; [done|]. rewrite fmap_cons in Hnd.
    apply list.NoDup_cons in Hnd as [Hx Hnd]. cbn [foldl]. rewrite IH; [|done|].
    - rewrite map_to_list_insert by (apply Hm; left). rewrite fmap_cons. simpl.
      by rewrite <-Permutation_middle.
    - intros y Hy. rewrite lookup_insert_ne; [apply Hm; by right|]. intros Heq. apply Hx. rewrite Heq.
      by apply list_elem_of_fmap_2. }
  rewrite H; [|done|done]. by rewrite map_to_list_empty, app_nil_r.
Qed.

Lemma set_mode_effect m s :
  st_desired (set_mode m s).2 = st_desired s ∧ txns (set_mode m s).2 = [].
Proof. split; [done|]. unfold txns. simpl. by rewrite values_empty. Qed.

Lemma start_loop_inv io token s c delay l :
  wf_state s → len (st_desired s) <= services_per_session (limits pol) →
  finite_policy pol → ctr_policy c = pol → ctr_binds c = [] → load n_open_tasks c = 0 →
  sa_result (start_session io token s c delay) = Ok l → loop_inv l.
Proof.
  intros Hw Hlim (Hpol1 & Hpol2 & _)%policy_limits Hpc Hb Ht. unfold start_session.
  destruct (client_handshake io token) as [[[session negotiated]|] out]; [|done].
  unfold begin_session. destruct (checked_add 64 _ 1) as [next|]; cbn [ok_or mbind result_bind]; [|done].
  set (mode := if has negotiated _ then _ else _).
  pose proof (set_mode_wf mode s Hw) as Hw1. pose proof (set_mode_effect mode s) as [Hd Htx].
  destruct (set_mode mode s) as [answers s1]. simpl in *.
  destruct (register_initial _ _ _ _ _) as [[[[]|e] out1] c2] eqn:Hr; [|done].
  apply register_initial_ok in Hr as (Hb2 & Hp2 & Ht2). simpl in *. intros [= <-].
  assert (wf_state (clear_active s1)) as Hw2 by (by destruct Hw1; split).
  pose proof (activate_ids _ Hw2) as Hids. pose proof (active_ids_size (activate_initial (clear_active s1))) as Hsz.
  split; simpl.
  - by apply activate_wf.
  - symmetry. exact Hids.
  - rewrite Hids, Hb2, Hb. done.
  - change (len (st_desired s1) = Z.of_nat (size (st_active (activate_initial (clear_active s1))))).
    rewrite <-Hsz. unfold len. by rewrite Hids, length_fmap.
  - unfold services. change (txns (activate_initial (clear_active s1))) with (txns s1). rewrite Htx, app_nil_r.
    simpl. rewrite Hd. unfold policy_of. simpl. by rewrite Hp2, Hpc.
  - transitivity (load n_open_tasks c2); [done|]. by rewrite Ht2.
  - unfold policy_of, len. simpl. rewrite Hp2, Hpc. lia.
  - unfold len. simpl. lia.
  - unfold policy_of. simpl. rewrite Hp2, Hpc. unfold umax. lia.
  - unfold policy_of. simpl. congruence.
Qed.

(** *** The end *)

Lemma abort_all_load n c :
  load n_open_tasks (abort_all n c) = wrap 64 (load n_open_tasks c - Z.of_nat n) ∨ n = 0%nat.
Proof.
  revert c. induction n as [|n IH]; intros c; [by right|]. left. cbn [abort_all].
  assert (load n_open_tasks (OpenTaskGuard_drop c) = wrap 64 (load n_open_tasks c - 1)) as Hc by done.
  destruct (IH (OpenTaskGuard_drop c)) as [-> | ->]; cbn [abort_all]; rewrite Hc; [rewrite wrap_sub|]; f_equal; lia.
Qed.

Lemma abort_all_same n c :
  ctr_policy (abort_all n c) = ctr_policy c ∧ ctr_binds (abort_all n c) = ctr_binds c.
Proof. revert c. induction n as [|n IH]; intros c; [done|]. simpl. destruct (IH (OpenTaskGuard_drop c)) as [-> ->]. done. Qed.

Lemma drop_tasks_gauge l : loop_inv l → load n_open_tasks (sl_counters (drop_tasks l)) = 0.
Proof.
  intros Hi. unfold drop_tasks. cbn [count sl_counters set_sl_running set_sl_permits set_sl_counters].
  pose proof (li_tasks _ Hi) as Ht.
  destruct (abort_all_load (length (sl_running l)) (sl_counters l)) as [-> | Hz].
  - rewrite Ht, wrap_sub. unfold len. by rewrite Z.sub_diag.
  - rewrite Hz. cbn [abort_all]. rewrite Ht. unfold len. by rewrite Hz.
Qed.

Lemma tasks_end_inv l l' : rtc task_ends l l' → loop_inv l → loop_inv l'.
Proof.
  induction 1 as [|x y z [l io i open service Ho] _ IH]; [done|]. intros Hi. apply IH.
  exact (loop_step_inv _ _ _ _ (L_open_done (fun _ => false) l io i open service Ho) Hi).
Qed.

(** What every way out of a Session leaves behind. *)
Record left_clean (l : Loop) : Prop :=
  { lc_wf : wf_state (sl_state l);
    lc_bound : len (st_desired (sl_state l)) <= services_per_session (limits pol);
    lc_tasks : load n_open_tasks (sl_counters l) = 0;
    lc_sessions : load n_sessions (sl_counters l) = 0;
    lc_running : sl_running l = [];
    lc_policy : ctr_policy (sl_counters l) = pol }.

Lemma desired_bound l : loop_inv l → len (st_desired (sl_state l)) <= services_per_session (limits pol).
Proof.
  intros Hi. pose proof (li_bound _ Hi) as H. rewrite (li_fixed _ Hi) in H.
  unfold services in H. rewrite len_app in H.
  pose proof (len_nonneg (pr_service <$> txns (sl_state l))). lia.
Qed.

Lemma finish_clean cancelled l : loop_inv l → left_clean (finish_session cancelled l).2.
Proof.
  intros Hi. pose proof (drop_tasks_gauge l Hi) as Ht. pose proof (desired_bound l Hi) as Hd.
  unfold finish_session. set (e := if sl_timed_out _ then _ else _).
  pose proof (finish_wf e (sl_state l) (li_wf _ Hi)) as Hw.
  pose proof (abort_all_same (length (sl_running l)) (sl_counters l)) as [Hp _].
  split; try done; [by destruct Hw; split|]. rewrite <-(li_fixed _ Hi). exact Hp.
Qed.

Lemma abandon_clean e l : loop_inv l → left_clean (abandon_session e l).2.
Proof.
  intros Hi. pose proof (drop_tasks_gauge l Hi) as Ht. pose proof (desired_bound l Hi) as Hd.
  pose proof (abort_all_same (length (sl_running l)) (sl_counters l)) as [Hp _].
  split; try done; [apply Hi|]. rewrite <-(li_fixed _ Hi). exact Hp.
Qed.

Lemma session_run_clean closed l r l' : session_run closed l r l' → loop_inv l → left_clean l'.
Proof.
  induction 1 as [l l' r e Hs _ IH|l l' l1 cancelled Hs He|l l' e Hs]; intros Hi;
    pose proof (loop_step_inv _ _ _ _ Hs Hi) as Hi'.
  - by apply IH.
  - apply finish_clean. by eapply tasks_end_inv.
  - by apply abandon_clean.
Qed.
End invariant.

(** ** Properties *)

Definition loop_moves (closed : Sender → bool) (l l' : Loop) : Prop := ∃ f, loop_step closed l f l'.

Lemma loop_moves_inv pol closed l l' : rtc (loop_moves closed) l l' → loop_inv pol l → loop_inv pol l'.
Proof.
  induction 1 as [|x y z [f Hs] _ IH]; [done|]. intros Hi. apply IH. by eapply loop_step_inv.
Qed.

(** C22. A ready client Session keeps its books.  Whatever order messages,
    commands, timeouts, write failures and finished Open tasks come in: the
    bind table lists exactly the active services, which are exactly the
    desired ones, and the services gauge counts them; services desired or in
    flight never exceed the per-Session limit; the Open-task gauge counts the
    running tasks and never exceeds its limit; the outgoing queue stays within
    its bound. *)
Theorem client_session_accounting closed io token s c delay l0 l :
  wf_state s → finite_policy (ctr_policy c) →
  len (st_desired s) <= services_per_session (limits (ctr_policy c)) →
  ctr_binds c = [] → load n_open_tasks c = 0 →
  sa_result (start_session io token s c delay) = Ok l0 → rtc (loop_moves closed) l0 l →
  be_service <$> ctr_binds (sl_counters l) ≡ₚ active_ids (sl_state l) ∧
  cs_id <$> st_desired (sl_state l) ≡ₚ active_ids (sl_state l) ∧
  load n_services (sl_counters l) = len (active_ids (sl_state l)) ∧
  len (st_desired (sl_state l)) + unacknowledged (sl_state l) <= services_per_session (limits (ctr_policy c)) ∧
  load n_open_tasks (sl_counters l) = len (sl_running l) ∧
  len (sl_running l) <= client_open_tasks (limits (ctr_policy c)) ∧
  len (sl_queue l) <= control_queue (limits (ctr_policy c)).
Proof.
  intros Hw Hpol Hd Hb Ht Hs Hr.
  pose proof (start_loop_inv _ io token s c delay l0 Hw Hd Hpol eq_refl Hb Ht Hs) as Hi.
  apply (loop_moves_inv _ _ _ _ Hr) in Hi as [H1 H2 H3 H4 H5 H6 H7 H8 _ H10].
  rewrite H10 in *. apply policy_limits in Hpol as (_ & Hopen & Hq).
  rewrite active_ids_size, unacknowledged_txns. unfold services in H5. rewrite len_app in H5.
  unfold len in H5 at 2. rewrite length_fmap in H5. pose proof (len_nonneg (sl_running l)).
  split_and!; try done; try lia. rewrite H6. apply wrap_small. lia.
Qed.

(** No Open is dropped silently.  One that is not admitted (no such active
    service, or no permit left) is answered with an [OpenReject] for its
    connection if the queue has room, is counted as rejected either way and
    starts nothing.  One that is admitted becomes a task, and when the task
    ends in a Session that has not been cancelled, it has introduced the data
    connection with exactly the Session, service and connection of the Open,
    or has queued an [OpenReject] for the connection, or has counted a
    rejection because the queue was full. *)
Theorem open_answered open l :
  let l' := on_open open l in
  let refused code := M_OpenReject (mkOpenReject (op_connection_id open) code) in
  let admitted := sl_running l' = sl_running l ++ [open] in
  let answered code (a b : Loop) :=
    sl_queue b = sl_queue a ++ [refused code] ∨
    sl_queue b = sl_queue a ∧ control_queue (limits (policy_of a)) <= len (sl_queue a) in
  (admitted ∧ is_Some (st_active (sl_state l) !! op_service_id open) ∧ 0 < sl_permits l ∨
   sl_running l' = sl_running l ∧ answered (if decide (st_active (sl_state l) !! op_service_id open = None) then 1 else 2) l l' ∧
   load n_rejected (sl_counters l') = wrap 64 (load n_rejected (sl_counters l) + 1)) ∧
  ∀ io service l1, sl_cancelled l1 = false →
    let '(data, l2) := handle_open io open service l1 in
    data = [M_DataHello (mkDataHello (sl_session l1) (cs_id service) (op_connection_id open))] ∨
    data = [] ∧ (sl_queue l2 = sl_queue l1 ++ [refused 1] ∨
                 load n_rejected (sl_counters l2) = wrap 64 (load n_rejected (sl_counters l1) + 1)).
Proof.
  cbv zeta. split.
  - unfold on_open. destruct (st_active _ !! _) as [service|]; [destruct (_ <=? 0) eqn:Hp; bools|].
    + right. rewrite decide_False by done. unfold try_send.
      destruct (_ <? _) eqn:E; simpl; bools; split_and!; try done; [by left|right; split; done].
    + left. split_and!; [done|by eexists|done].
    + right. rewrite decide_True by done. unfold try_send.
      destruct (_ <? _) eqn:E; simpl; bools; split_and!; try done; [by left|right; split; done].
  - intros io service l1 Hc. unfold handle_open. destruct (_ ≫= _) as [[]|e]; [by left|]. right.
    rewrite Hc. split; [done|]. unfold try_send. destruct (_ <? _); simpl; [by left|by right].
Qed.

(** *** A Session with one configured service *)

Definition sample_ack (id : ServiceId) : WriteOutcome * poll (result TunnelError Message) :=
  (W_done, Ready (Ok (M_RegisterAck (mkRegisterAck id (mkEffectiveBind (replicate 16 Byte.x00) 4000))))).
Definition sample_connect : ConnectIo :=
  mkConnectIo W_done (Ready (Ok (M_ServerHello (mkServerHello CURRENT (mkCapabilities [1]))))) W_done
    (Ready (Ok (M_AuthOk (mkAuthOk (mkSessionId (replicate 16 Byte.x09)))))) sample_ack.
Definition sample_started : Started :=
  start_session sample_connect (mkSecretToken [Byte.x73]) (State_new [web])
    (with_policy RuntimePolicy_default) (from_millis 500).
Definition sample_loop : Loop :=
  match sa_result sample_started with
  | Ok l => l
  | Err _ => ready (mkSessionId []) 0 supported [] [] (State_new []) (with_policy RuntimePolicy_default)
  end.

Lemma default_policy_finite : finite_policy RuntimePolicy_default.
Proof. split_and!; [repeat constructor; vm_compute; discriminate..| | ]; vm_compute; [discriminate|done]. Qed.

Lemma client_session_accounting_witness :
  be_service <$> ctr_binds (sl_counters sample_loop) ≡ₚ active_ids (sl_state sample_loop) ∧
  load n_services (sl_counters sample_loop) = 1.
Proof.
  split; [|vm_compute; reflexivity].
  apply (client_session_accounting (fun _ => false) sample_connect (mkSecretToken [Byte.x73]) (State_new [web])
    (with_policy RuntimePolicy_default) (from_millis 500) sample_loop sample_loop);
    [apply new_wf; apply web_nodup|apply default_policy_finite|vm_compute; discriminate|
     vm_compute; reflexivity..|apply rtc_refl].
Defined.
