(* ===== verification/Reconnect.v ===== *)
(** * The client's supervisor: crates/eggtunnel/src/client/reconnect.rs

    The loop every transport runs: attempts, commands while disconnected, the
    end of an attempt, the jittered back-off and the decision to stop.  What
    the operating system's random source and the transport do are arguments. *)

From S2P Require Import Prelude Text Proto Codec Varint Frame Common WireIo ServiceState Heartbeat.
From S2P Require Import ClientSession.

Inductive SessionDisposition := Retry | Terminal.

Record ReconnectSupervisor := mkSupervisor { sv_services : ServiceState; sv_delay : Z }.

Definition Supervisor_new (services : list ClientService) (initial_delay : Z) : ReconnectSupervisor :=
  mkSupervisor (State_new services) initial_delay.

(** ** Commands while disconnected *)

Inductive ClientCommand :=
| Register (service : ClientService) (reply : Sender)
| Unregister (id : ServiceId) (reply : Sender).

(** The answers to registrations, and the unregistrations confirmed. *)
Definition apply_disconnected_command (s : ServiceState) (command : ClientCommand)
    : list Answer * list Sender * ServiceState :=
  match command with
  | Register _ reply => ([(reply, Err TE_Disconnected)], [], s)
  | Unregister id reply => let '(_, out, s') := unregister id s in (out, [reply], s')
  end.

Fixpoint drain_disconnected_commands (commands : list ClientCommand) (s : ServiceState)
    : list Answer * list Sender * ServiceState :=
  match commands with
  | [] => ([], [], s)
  | command :: rest =>
      let '(a, u, s1) := apply_disconnected_command s command in
      let '(a', u', s2) := drain_disconnected_commands rest s1 in
      (a ++ a', u ++ u', s2)
  end.

(** ** The end of an attempt *)

Definition terminal (e : TunnelError) : bool :=
  match e with
  | TE_Authentication | TE_Authorization | TE_ResourceExhausted | TE_Configuration _ => true
  | _ => false
  end.

Definition finish (r : result TunnelError unit) (c : Counters) : SessionDisposition * Counters :=
  let c1 := with_bind_table_mut (fun _ => []) (store n_services 0 (store n_connected 0 c)) in
  match r with
  | Err e => (if terminal e then Terminal else Retry, record_termination (termination_category e) c1)
  | Ok _ => (Retry, c1)
  end.

(** ** Back-off *)

(** [fill i] is the [i]-th draw of the random source, [None] its failure. *)
Fixpoint jitter_loop (attempts : nat) (fill : nat → option Z) (i : nat) (max range zone : Z) : Z :=
  match attempts with
  | O => max
  | S n =>
      match fill i with
      | None => max
      | Some value => if value <? zone then value mod range else jitter_loop n fill (S i) max range zone
      end
  end.

Definition jitter_max (delay : Z) : Z := Z.min (as_millis delay / 4) 7500.
Definition jitter_zone (range : Z) : Z := umax 64 - umax 64 mod range.

Definition random_jitter_ms (fill : nat → option Z) (delay : Z) : Z :=
  let max := jitter_max delay in
  if max =? 0 then 0
  else let range := max + 1 in jitter_loop 4 fill 0 max range (jitter_zone range).

(** A [Duration] has at most [u64::MAX] seconds and a fraction; its addition
    panics beyond that ([None]), its [saturating_mul] stops there. *)
Definition DURATION_MAX : Z := umax 64 * 1000000000 + 999999999.
Definition duration_add (a b : Z) : option Z := if a + b <=? DURATION_MAX then Some (a + b) else None.
Definition duration_saturating_mul (a n : Z) : Z := Z.min (a * n) DURATION_MAX.

(** The outcome: may the loop go on; [waited] is the sleep it chose.  [before]
    and [during] say when the supervisor was cancelled. *)
Record Backoff := mkBackoff
  { bo_continue : bool; bo_waited : option Z; bo_supervisor : ReconnectSupervisor; bo_counters : Counters }.

Definition backoff (fill : nat → option Z) (before during : bool) (v : ReconnectSupervisor) (c : Counters)
    : option Backoff :=
  if before then Some (mkBackoff false None v c)
  else
    let jitter := random_jitter_ms fill (sv_delay v) in
    let reconnect_max := reconnect_max (timeouts (ctr_policy c)) in
    match duration_add (sv_delay v) (from_millis jitter) with
    | None => None
    | Some sum =>
        let delay := Z.min sum reconnect_max in
        if during then Some (mkBackoff false (Some delay) v c)
        else
          Some (mkBackoff true (Some delay)
                  (mkSupervisor (sv_services v) (Z.min (duration_saturating_mul (sv_delay v) 2) reconnect_max))
                  (fetch_add n_reconnects 1 c))
    end.

(** ** Cancellation during a Session *)

Section cancellation.
Variable closed : Sender → bool.

(** Where a poll of [run_session] can stop inside its loop: at the [select!], or
    at the write of an arm, which has done by then what comes before it. *)
Inductive suspended (l : Loop) : Loop → Prop :=
| U_select : suspended l l
| U_cancelled : suspended l (set_sl_cancelled true l)
| U_outgoing m queue : sl_queue l = m :: queue → suspended l (set_sl_queue queue l)
| U_ack ack s :
    take_ack closed (ra_service_id ack) (sl_generation l) (sl_state l) = (Abandoned, s) →
    suspended l (set_sl_state s l)
| U_register service reply s :
    saturating_add 64 (len (st_desired (sl_state l))) (unacknowledged (sl_state l)) <
      services_per_session (limits (policy_of l)) →
    closed reply = false → begin service (sl_generation l) reply (sl_state l) = (Ok tt, s) →
    suspended l (set_sl_state s l)
| U_unregister id reply :
    suspended l (set_sl_unregistered (sl_unregistered l) (on_unregister W_timeout id reply l).2).

(** The poll of [run_session] after the token is cancelled.  The arms of its
    [select!] are tried in a random order, so any that is ready may come before
    the cancellation arm, and Open tasks end meanwhile on other workers.  When
    the loop is left, the poll goes on into the teardown, which stops at
    [join_next] while a task still runs; the timer of the window does not fire
    in the poll that makes it, unless the window has no length. *)
Inductive session_poll : Loop → poll (result TunnelError unit) → Loop → Prop :=
| P_turn l l1 r l2 : loop_step closed l Continue l1 → session_poll l1 r l2 → session_poll l r l2
| P_suspended l l1 : suspended l l1 → session_poll l Pending l1
| P_return l e l1 :
    loop_step closed l (Return e) l1 →
    session_poll l (Ready (abandon_session e l1).1) (abandon_session e l1).2
| P_waits l l1 l2 :
    loop_step closed l Break l1 → rtc task_ends l1 l2 → sl_running l2 ≠ [] → session_poll l Pending l2
| P_finished l l1 l2 :
    loop_step closed l Break l1 → rtc task_ends l1 l2 → sl_running l2 = [] ∨ client_drain_wait l2 = 0 →
    session_poll l (Ready (finish_session true l2).1) (finish_session true l2).2.

(** [drive]'s own [select!] watches the same token.  It polls its two branches
    in a random order, and when the token's is the one that is ready, it drops
    the Session where it stands. *)
Inductive select_cancelled : Loop → result TunnelError unit → Loop → Prop :=
| SC_token l l1 :
    rtc task_ends l l1 → select_cancelled l (abandon_session TE_Cancelled l1).1 (abandon_session TE_Cancelled l1).2
| SC_session l r l1 : session_poll l (Ready r) l1 → select_cancelled l r l1
| SC_dropped l l1 :
    session_poll l Pending l1 →
    select_cancelled l (abandon_session TE_Cancelled l1).1 (abandon_session TE_Cancelled l1).2.
End cancellation.

(** ** The loop *)

Section drive.
Variable token : SecretToken.
Variable closed : Sender → bool.

(** One attempt, up to its result.  The commands are those taken while no
    Session is up; an attempt is also cut short by cancellation, which drops
    whatever it was doing. *)
Inductive attempt : ReconnectSupervisor → Counters → result TunnelError unit →
                    ReconnectSupervisor → Counters → Prop :=
| A_failed v c commands e a u s :
    drain_disconnected_commands commands (sv_services v) = (a, u, s) →
    attempt v c (Err e) (mkSupervisor s (sv_delay v)) c
| A_start_failed v c commands a u s io d e e' :
    drain_disconnected_commands commands (sv_services v) = (a, u, s) →
    start_session io token s c (sv_delay v) = d → sa_result d = Err e → e' = e ∨ e' = TE_Cancelled →
    attempt v c (Err e') (mkSupervisor (sa_state d) (sa_delay d)) (sa_counters d)
| A_session v c commands a u s io d l r l' :
    drain_disconnected_commands commands (sv_services v) = (a, u, s) →
    start_session io token s c (sv_delay v) = d → sa_result d = Ok l → session_run closed l r l' →
    attempt v c r (mkSupervisor (sl_state l') (sa_delay d)) (sl_counters l')
| A_session_cancelled v c commands a u s io d l l1 l2 :
    drain_disconnected_commands commands (sv_services v) = (a, u, s) →
    start_session io token s c (sv_delay v) = d → sa_result d = Ok l → rtc (loop_moves closed) l l1 →
    suspended closed l1 l2 →
    attempt v c (Err TE_Cancelled)
      (mkSupervisor (sl_state (abandon_session TE_Cancelled l2).2) (sa_delay d))
      (sl_counters (abandon_session TE_Cancelled l2).2).

Inductive Drive := Running (v : ReconnectSupervisor) (c : Counters) | Stopped (v : ReconnectSupervisor) (c : Counters).

Inductive drive_step : Drive → Drive → Prop :=
| D_cancelled v c : drive_step (Running v c) (Stopped v c)
| D_terminal v c r v1 c1 c2 :
    attempt v c r v1 c1 → finish r c1 = (Terminal, c2) →
    drive_step (Running v c) (Stopped v1 c2)
| D_retry v c r v1 c1 c2 fill before during b :
    attempt v c r v1 c1 → finish r c1 = (Retry, c2) →
    backoff fill before during v1 c2 = Some b →
    drive_step (Running v c)
      ((if bo_continue b then Running else Stopped) (bo_supervisor b) (bo_counters b)).
End drive.

(** ** Lemmas: back-off *)

Lemma jitter_loop_range n fill i max range zone :
  0 <= max → range = max + 1 → 0 <= jitter_loop n fill i max range zone <= max.
Proof.
  intros Hm ->. revert i. induction n as [|n IH]; intros i; cbn [jitter_loop]; [lia|].
  destruct (fill i) as [value|]; [|lia]. destruct (_ <? _); [|apply IH].
  pose proof (Z.mod_pos_bound value (max + 1)). lia.
Qed.

Lemma jitter_range fill delay :
  0 <= delay → 0 <= random_jitter_ms fill delay <= jitter_max delay.
Proof.
  intros Hd. assert (0 <= jitter_max delay) as Hm.
  { unfold jitter_max, as_millis. pose proof (Z.div_pos delay 1000000). pose proof (Z.div_pos (delay / 1000000) 4). lia. }
  unfold random_jitter_ms. destruct (_ =? 0) eqn:E; [bools; lia|]. by apply jitter_loop_range.
Qed.

(** A quarter of the delay, in the same unit. *)
Lemma jitter_quarter fill delay :
  0 <= delay → 0 <= from_millis (random_jitter_ms fill delay) /\ 4 * from_millis (random_jitter_ms fill delay) <= delay.
Proof.
  intros Hd. pose proof (jitter_range fill delay Hd) as Hj. unfold jitter_max, as_millis, from_millis in *.
  set (j := random_jitter_ms fill delay) in *. clearbody j.
  pose proof (Z.mul_div_le delay 1000000). pose proof (Z.mul_div_le (delay / 1000000) 4). lia.
Qed.

Definition backed_off (initial max : Z) (n : nat) : Z := Z.min (initial * 2 ^ Z.of_nat n) max.

Lemma backed_off_S initial max n :
  0 <= initial → 0 <= max → Z.min (backed_off initial max n * 2) max = backed_off initial max (S n).
Proof.
  intros Hi Hm. unfold backed_off. rewrite Nat2Z.inj_succ, Z.pow_succ_r by lia.
  assert (0 <= initial * 2 ^ Z.of_nat n) by (apply Z.mul_nonneg_nonneg; lia). lia.
Qed.

Lemma backoff_waits fill v c :
  0 <= sv_delay v <= reconnect_max (timeouts (ctr_policy c)) →
  reconnect_max (timeouts (ctr_policy c)) <= from_secs 86400 →
  ∃ wait, backoff fill false false v c =
    Some (mkBackoff true (Some wait)
      (mkSupervisor (sv_services v) (Z.min (sv_delay v * 2) (reconnect_max (timeouts (ctr_policy c)))))
      (fetch_add n_reconnects 1 c)) ∧
    sv_delay v <= wait <= reconnect_max (timeouts (ctr_policy c)) ∧ 4 * wait <= 5 * sv_delay v.
Proof.
  intros Hd Hm. pose proof (jitter_quarter fill (sv_delay v) ltac:(lia)) as [Hj0 Hj].
  assert (from_secs 86400 * 2 <= DURATION_MAX) as Hmax by (vm_compute; discriminate).
  unfold backoff, duration_add. rewrite (proj2 (Z.leb_le _ _)) by lia.
  eexists. split; [|split; [|]].
  - do 3 f_equal. unfold duration_saturating_mul. lia.
  - lia.
  - lia.
Qed.

(** ** Lemmas: the loop *)

Lemma drain_commands_effect commands s a u s' :
  drain_disconnected_commands commands s = (a, u, s') → wf_state s →
  wf_state s' ∧ len (st_desired s') <= len (st_desired s).
Proof.
  revert s a u s'. induction commands as [|command rest IH]; intros s a u s'; simpl.
  { intros [= <- <- <-] Hw. by split. }
  destruct (apply_disconnected_command s command) as [[a1 u1] s1] eqn:Hc.
  destruct (drain_disconnected_commands rest s1) as [[a2 u2] s2] eqn:Hr. intros [= <- <- <-] Hw.
  assert (wf_state s1 ∧ len (st_desired s1) <= len (st_desired s)) as [Hw1 Hd1].
  { destruct command as [service reply|id reply]; simpl in Hc; [by simplify_eq|].
    pose proof (unregister_wf id s Hw) as Hu. destruct (unregister id s) as [[b out] s0] eqn:E. simplify_eq.
    split; [done|]. apply unregister_txns in E as (_ & _ & _ & Hd & _). rewrite Hd. unfold len.
    pose proof (length_filter (fun service => cs_id service ≠ id) (st_desired s)). lia. }
  destruct (IH _ _ _ _ Hr Hw1). split; [done|lia].
Qed.

Lemma register_initial_cells io session desired out c r out' c' :
  register_initial io session desired out c = (r, out', c') →
  ctr_policy c' = ctr_policy c ∧ ∀ f, load f c' = load f c.
Proof.
  revert out c. induction desired as [|service rest IH]; intros out c; simpl; [by intros [= _ _ <-]|].
  destruct (io (cs_id service)) as [w reply]. destruct (write_bounded _ _ _) as [[[]|] out1]; [|by intros [= _ _ <-]].
  destruct (read_bounded reply) as [m|]; [|by intros [= _ _ <-]].
  destruct m; try by intros [= _ _ <-]. destruct (decide _); [|by intros [= _ _ <-]]. by intros [Hp Hl]%IH.
Qed.

Lemma start_failed io token s c delay e :
  let d := start_session io token s c delay in
  wf_state s → sa_result d = Err e →
  wf_state (sa_state d) ∧ st_desired (sa_state d) = st_desired s ∧ sa_delay d = delay ∧
  ctr_policy (sa_counters d) = ctr_policy c ∧
  load n_open_tasks (sa_counters d) = load n_open_tasks c ∧
  load n_sessions (sa_counters d) = load n_sessions c.
Proof.
  intros d Hw. unfold d, start_session.
  destruct (client_handshake io token) as [[[session negotiated]|] out]; [|done].
  unfold begin_session. destruct (checked_add 64 _ 1) as [next|]; cbn [ok_or mbind result_bind]; [|done].
  set (mode := if has negotiated _ then _ else _).
  pose proof (set_mode_wf mode s Hw) as Hw1. pose proof (set_mode_effect mode s) as [Hd _].
  destruct (set_mode mode s) as [answers s1]. cbn [snd] in *.
  destruct (register_initial _ _ _ _ _) as [[[[]|e'] out1] c2] eqn:Hr; [done|]. intros _.
  apply register_initial_cells in Hr as [Hp Hl].
  cbn [sa_state sa_delay sa_counters]. rewrite Hp, !Hl. split; [by destruct Hw1; split|]. done.
Qed.

Lemma start_ready_delay io token s c delay l :
  let d := start_session io token s c delay in
  sa_result d = Ok l → sa_delay d = reconnect_initial (timeouts (policy_of l)).
Proof.
  intros d. unfold d, start_session.
  destruct (client_handshake io token) as [[[session negotiated]|] out]; [|done].
  destruct (begin_session c) as [[g c1]|]; [|done].
  destruct (set_mode _ s) as [answers s1].
  destruct (register_initial _ _ _ _ _) as [[[[]|e'] out1] c2]; [|done]. by intros [= <-].
Qed.

(** ** Lemmas: a suspended Session *)

(** An arm that is suspended has done what it does when its write fails, up to
    the reply to an unregistration. *)
Lemma suspended_moves closed l l1 :
  suspended closed l l1 → ∃ l2 u, rtc (loop_moves closed) l l2 ∧ l1 = set_sl_unregistered u l2.
Proof.
  assert (∀ f l2, loop_step closed l f l2 →
    ∃ l3 u, rtc (loop_moves closed) l l3 ∧ l2 = set_sl_unregistered u l3) as Hone.
  { intros f l2 Hs. exists l2, (sl_unregistered l2). split; [apply rtc_once; by exists f|by destruct l2]. }
  destruct 1 as [| |m queue Hq|ack s Ha|service reply s Hb Hc Hbe|id reply].
  - exists l, (sl_unregistered l). split; [done|by destruct l].
  - exact (Hone _ _ (L_cancelled closed l W_timeout)).
  - pose proof (Hone _ _ (L_outgoing closed l W_timeout)) as H. unfold on_outgoing in H. by rewrite Hq in H.
  - pose proof (Hone _ _ (L_message closed l 0 W_timeout (Ok (M_RegisterAck ack)))) as H.
    cbn [on_message] in H. unfold on_ack in H. by rewrite Ha in H.
  - pose proof (Hone _ _ (L_register closed l (W_failed UnexpectedEof) 0 service reply)) as H. unfold on_register in H.
    by rewrite (proj2 (Z.leb_gt _ _) Hb), Hc, Hbe in H.
  - exists (on_unregister W_timeout id reply l).2, (sl_unregistered l). split; [|done].
    apply rtc_once. eexists. apply (L_unregister closed l W_timeout id reply).
Qed.

Lemma suspended_inv pol closed l l1 : suspended closed l l1 → loop_inv pol l → loop_inv pol l1.
Proof.
  intros (l2 & u & Hr & ->)%suspended_moves Hi. apply (loop_moves_inv _ _ _ _ Hr) in Hi. by destruct Hi; split.
Qed.

Section drive_lemmas.
Variable token : SecretToken.
Variable closed : Sender → bool.
Variable p : RuntimePolicy.
Hypothesis Hp : finite_policy p.

(** What holds when an attempt is over, and what when [finish] is too. *)
Record after_attempt (v : ReconnectSupervisor) (c : Counters) : Prop :=
  { aa_wf : wf_state (sv_services v);
    aa_bound : len (st_desired (sv_services v)) <= services_per_session (limits p);
    aa_delay : reconnect_initial (timeouts p) <= sv_delay v <= reconnect_max (timeouts p);
    aa_policy : ctr_policy c = p;
    aa_tasks : load n_open_tasks c = 0;
    aa_sessions : load n_sessions c = 0 }.

Record between (v : ReconnectSupervisor) (c : Counters) : Prop :=
  { bt_after : after_attempt v c;
    bt_binds : ctr_binds c = [];
    bt_connected : load n_connected c = 0;
    bt_services : load n_services c = 0 }.

Lemma left_clean_after l d :
  left_clean p l → reconnect_initial (timeouts p) <= d <= reconnect_max (timeouts p) →
  after_attempt (mkSupervisor (sl_state l) d) (sl_counters l).
Proof. by intros []; split. Qed.

Lemma attempt_after v c r v' c' : attempt token closed v c r v' c' → between v c → after_attempt v' c'.
Proof.
  pose proof (policy_reconnect p Hp) as Hrec.
  intros Ha [[Hw Hb Hd Hpol Ht Hn] Hbinds _ _].
  assert (∀ s io l, wf_state s → len (st_desired s) <= services_per_session (limits p) →
    sa_result (start_session io token s c (sv_delay v)) = Ok l → loop_inv p l) as Hstart
    by (intros; by eapply start_loop_inv).
  assert (∀ commands a u s, drain_disconnected_commands commands (sv_services v) = (a, u, s) →
    wf_state s ∧ len (st_desired s) <= services_per_session (limits p)) as Hdrain.
  { intros commands a u s Hc. destruct (drain_commands_effect _ _ _ _ _ Hc Hw). split; [done|lia]. }
  destruct Ha as [v c commands e a u s Hc|v c commands a u s io d e e' Hc Hs He _
    |v c commands a u s io d l r l' Hc Hs Hl Hr|v c commands a u s io d l l1 l2 Hc Hs Hl Hr Hu];
    destruct (Hdrain _ _ _ _ Hc) as [Hws Hbs].
  - by split.
  - subst d. destruct (start_failed io token s c (sv_delay v) e Hws He) as (H1 & H2 & H3 & H4 & H5 & H6).
    split; cbn [sv_services sv_delay]; rewrite ?H2, ?H3, ?H4, ?H5, ?H6; done.
  - subst d. pose proof (Hstart _ _ _ Hws Hbs Hl) as Hi. rewrite (start_ready_delay _ _ _ _ _ _ Hl), (li_fixed _ _ Hi).
    apply left_clean_after; [|lia]. by eapply session_run_clean.
  - subst d. pose proof (Hstart _ _ _ Hws Hbs Hl) as Hi. rewrite (start_ready_delay _ _ _ _ _ _ Hl), (li_fixed _ _ Hi).
    apply left_clean_after; [|lia]. eapply abandon_clean, suspended_inv; [done|]. by eapply loop_moves_inv.
Qed.

Lemma finish_between r v c : after_attempt v c → between v (finish r c).2.
Proof.
  intros [Hw Hb Hd Hpol Ht Hn]. unfold finish. destruct r as [[]|e]; (split; [by split|done..]).
Qed.

Lemma backoff_between fill before during v c :
  between v c → ∃ b, backoff fill before during v c = Some b ∧ between (bo_supervisor b) (bo_counters b).
Proof.
  intros [[Hw Hb Hd Hpol Ht Hn] Hbi Hc Hs]. pose proof (policy_reconnect p Hp) as Hrec.
  destruct before; [eexists; split; [done|]; split; [by split|done..]|].
  destruct (backoff_waits fill v c) as (wait & Hok & _ & _); [rewrite Hpol; lia..|].
  destruct during.
  - unfold backoff in *. destruct (duration_add _ _); [|done]. eexists. split; [done|]. split; [by split|done..].
  - eexists. split; [done|]. rewrite Hpol.
    split; [split; try done; cbn [bo_supervisor sv_delay]; lia|done..].
Qed.
Definition drive_supervisor (d : Drive) : ReconnectSupervisor :=
  match d with Running v _ | Stopped v _ => v end.
Definition drive_counters (d : Drive) : Counters := match d with Running _ c | Stopped _ c => c end.

Lemma drive_step_between x y :
  drive_step token closed x y →
  between (drive_supervisor x) (drive_counters x) → between (drive_supervisor y) (drive_counters y).
Proof.
  destruct 1 as [v c|v c r v1 c1 c2 Ha Hf|v c r v1 c1 c2 fill before during b Ha Hf Hb]; [done|..];
    intros H0; pose proof (finish_between r _ _ (attempt_after _ _ _ _ _ Ha H0)) as Hfin;
    rewrite Hf in Hfin; simpl in Hfin; [done|].
  destruct (backoff_between fill before during _ _ Hfin) as (b' & Hb' & Hbt).
  rewrite Hb in Hb'. injection Hb' as <-. by destruct (bo_continue b).
Qed.

Lemma drive_between x y : rtc (drive_step token closed) x y →
  between (drive_supervisor x) (drive_counters x) → between (drive_supervisor y) (drive_counters y).
Proof. induction 1 as [|x y z Hs _ IH]; [done|]. intros H0. by apply IH, (drive_step_between x). Qed.
End drive_lemmas.

(** ** Properties *)

(** Nothing of a Session outlives it.  Whenever the supervisor is between
    attempts or has stopped, whatever happened before (refused handshakes,
    Sessions cut off in any state, cancellations, commands while
    disconnected): the bind table is empty, the connected flag and the
    service, Session and Open-task gauges are zero, the desired services are
    well formed and within the limit, the delay is within its configured
    bounds and the next back-off cannot overflow. *)
Theorem supervisor_between_sessions token closed p desired d :
  finite_policy p → NoDup (cs_id <$> desired) → NoDup (cs_name <$> desired) →
  len desired <= services_per_session (limits p) →
  rtc (drive_step token closed)
    (Running (Supervisor_new desired (reconnect_initial (timeouts p))) (with_policy p)) d →
  let v := drive_supervisor d in
  let c := drive_counters d in
  ctr_binds c = [] ∧ load n_connected c = 0 ∧ load n_services c = 0 ∧ load n_sessions c = 0 ∧
  load n_open_tasks c = 0 ∧ wf_state (sv_services v) ∧
  len (st_desired (sv_services v)) <= services_per_session (limits p) ∧
  reconnect_initial (timeouts p) <= sv_delay v <= reconnect_max (timeouts p) ∧
  ∀ fill before during, is_Some (backoff fill before during v c).
Proof.
  intros Hp Hi Hn Hl Hr v c.
  assert (between p v c) as Hb.
  { apply (drive_between token closed p Hp _ _ Hr). pose proof (policy_reconnect p Hp).
    split; [split; try done; [by apply new_wf|simpl; lia]|done..]. }
  pose proof Hb as [[] ? ? ?]. split_and!; try done; try lia.
  intros fill before during. destruct (backoff_between p Hp fill before during v c Hb) as (b & -> & _). done.
Qed.

(** [n] failures in a row, each followed by a completed back-off. *)
Fixpoint retries (n : nat) (fill : nat → nat → option Z) (v : ReconnectSupervisor) (c : Counters)
    : option (list Z * ReconnectSupervisor * Counters) :=
  match n with
  | O => Some ([], v, c)
  | S n' =>
      '(waits, v1, c1) ← retries n' fill v c;
      b ← backoff (fill n') false false v1 c1;
      Some (waits ++ option_list (bo_waited b), bo_supervisor b, bo_counters b)
  end.

Lemma retries_policy n fill v c waits v' c' :
  retries n fill v c = Some (waits, v', c') → ctr_policy c' = ctr_policy c.
Proof.
  revert waits v' c'. induction n as [|n IH]; intros waits v' c'; cbn [retries]; [by intros [= _ _ <-]|].
  destruct (retries n fill v c) as [[[w1 v1] c1]|] eqn:E; [|done]. cbn [mbind option_bind].
  specialize (IH _ _ _ eq_refl). unfold backoff. destruct (duration_add _ _); [|done]. by intros [= _ _ <-].
Qed.

(** The back-off schedule.  After [n] failed attempts in a row the delay is
    the initial one doubled [n] times, capped at the maximum; every wait lies
    between the delay then in force and a quarter more, and never above the
    maximum, whatever the random source returns and also when it fails; each
    completed wait counts one reconnect; and no addition overflows. *)
Theorem backoff_schedule n fill v c :
  finite_policy (ctr_policy c) → sv_delay v = reconnect_initial (timeouts (ctr_policy c)) →
  let initial := reconnect_initial (timeouts (ctr_policy c)) in
  let max := reconnect_max (timeouts (ctr_policy c)) in
  ∃ waits v' c', retries n fill v c = Some (waits, v', c') ∧
    sv_delay v' = backed_off initial max n ∧ sv_services v' = sv_services v ∧
    ((0 < n)%nat → load n_reconnects c' = wrap 64 (load n_reconnects c + Z.of_nat n)) ∧
    length waits = n ∧
    ∀ k wait, waits !! k = Some wait →
      backed_off initial max k <= wait <= max ∧ 4 * wait <= 5 * backed_off initial max k.
Proof.
  intros Hp Hv initial max. pose proof (policy_reconnect _ Hp) as Hrec. fold initial max in Hrec, Hv.
  induction n as [|n IH].
  { exists [], v, c. split_and!; try done; [|lia]. rewrite Hv. unfold backed_off. simpl. lia. }
  destruct IH as (waits & v' & c' & Hr & Hd & Hs & Hn & Hlen & Hw). cbn [retries]. rewrite Hr. cbn [mbind option_bind].
  assert (ctr_policy c' = ctr_policy c) as Hpol by (by eapply retries_policy).
  assert (0 <= backed_off initial max n <= max) as Hbd.
  { unfold backed_off. assert (0 <= initial * 2 ^ Z.of_nat n) by (apply Z.mul_nonneg_nonneg; lia). lia. }
  destruct (backoff_waits (fill n) v' c') as (wait & Hb & Hwait & Hq); [rewrite Hpol, ?Hd; fold max; lia..|].
  rewrite Hb. cbn [mbind option_bind bo_waited bo_supervisor bo_counters option_list].
  rewrite Hpol in Hwait. fold max in Hwait. rewrite Hd in Hwait, Hq.
  do 3 eexists. split; [done|]. cbn [sv_delay sv_services]. split_and!.
  - rewrite Hd, Hpol. fold max. apply backed_off_S; lia.
  - done.
  - intros _. transitivity (wrap 64 (load n_reconnects c' + 1)); [done|].
    destruct n as [|n]; [|rewrite Hn, wrap_add by lia; f_equal; lia]. simpl in Hr. simplify_eq. done.
  - rewrite length_app, Hlen. simpl. lia.
  - intros k w Hk. apply lookup_app_Some in Hk as [Hk|[Hge Hk]]; [by apply Hw|].
    apply list_lookup_singleton_Some in Hk as [Hz <-]. replace k with n by lia. lia.
Qed.

(** The jitter is unbiased.  Of the draws [random_jitter_ms] accepts, each
    value from zero to the maximal jitter is produced by equally many (the
    bound for acceptance is a multiple of the range), and fewer draws than the
    range has values are refused. *)
Theorem jitter_unbiased delay j :
  0 <= delay → 0 <= j <= jitter_max delay →
  let range := jitter_max delay + 1 in
  let zone := jitter_zone range in
  umax 64 - zone < range ∧
  ∀ value, (0 <= value < zone ∧ value mod range = j) ↔
           ∃ q, 0 <= q < zone / range ∧ value = q * range + j.
Proof.
  intros Hd Hj range zone. assert (0 < range) as Hr by (unfold range; lia).
  pose proof (Z.mod_pos_bound (umax 64) range Hr) as Hmod.
  assert (zone = range * (umax 64 / range)) as Hz.
  { unfold zone, jitter_zone. pose proof (Z.div_mod (umax 64) range). lia. }
  split; [unfold zone, jitter_zone; lia|]. intros value.
  assert (zone / range = umax 64 / range) as -> by (rewrite Hz, Z.mul_comm, Z.div_mul; lia).
  split.
  - intros [Hv Hm]. exists (value / range). pose proof (Z.div_mod value range).
    split; [|lia]. split; [apply Z.div_pos; lia|]. apply Z.div_lt_upper_bound; lia.
  - intros (q & Hq & ->). split.
    + assert (q * range <= (umax 64 / range - 1) * range) by (apply Z.mul_le_mono_nonneg_r; lia).
      unfold range in *. split; [|lia]. assert (0 <= q * (jitter_max delay + 1)) by (apply Z.mul_nonneg_nonneg; lia). lia.
    + rewrite Z.add_comm, Z.mod_add by lia. apply Z.mod_small. unfold range. lia.
Qed.

(** Turns of a Session's loop that stay in it. *)
Definition loop_continues (closed : Sender → bool) (l l' : Loop) : Prop := loop_step closed l Continue l'.

Lemma session_run_continues closed l0 l r l' :
  rtc (loop_continues closed) l0 l → session_run closed l r l' → session_run closed l0 r l'.
Proof. induction 1; [done|]. intros. eapply R_step; eauto. Qed.

Lemma continues_moves closed l0 l : rtc (loop_continues closed) l0 l → rtc (loop_moves closed) l0 l.
Proof. apply rtc_subrel. intros x y Hs. by exists Continue. Qed.

Lemma tasks_end_moves closed l l1 : rtc task_ends l l1 → rtc (loop_moves closed) l l1.
Proof. apply rtc_subrel. intros x y [l2 io i open service Ho]. exists Continue. by apply L_open_done. Qed.

(** A poll of a cancelled Session is a part of its run: to the end, by an arm
    that returns or by the teardown, or to where it is suspended. *)
Lemma session_poll_run closed l r l' :
  session_poll closed l r l' →
  match r with
  | Pending => ∃ l1, rtc (loop_moves closed) l l1 ∧ suspended closed l1 l'
  | Ready r =>
      session_run closed l r l' ∧
      ∃ l1, rtc (loop_moves closed) l l1 ∧
        ((∃ e, (r, l') = abandon_session e l1) ∨
         (r, l') = finish_session true l1 ∧ (sl_running l1 = [] ∨ client_drain_wait l1 = 0))
  end.
Proof.
  induction 1 as [l l1 r l2 Hs _ IH|l l1 Hu|l e l1 Hs|l l1 l2 Hs He _|l l1 l2 Hs He Hw].
  - assert (loop_moves closed l l1) as Hm by (by eexists). destruct r as [r|].
    + destruct IH as [Hrun (l3 & Hr & H)]. split; [by eapply R_step|]. exists l3. split; [by eapply rtc_l|done].
    + destruct IH as (l3 & Hr & H). exists l3. split; [by eapply rtc_l|done].
  - exists l. by split.
  - split; [by apply R_return|]. exists l1. split; [apply rtc_once; by eexists|]. left. by exists e.
  - exists l2. split; [|constructor]. eapply rtc_l; [by eexists|by apply tasks_end_moves].
  - split; [by eapply R_break|]. exists l2. split; [eapply rtc_l; [by eexists|by apply tasks_end_moves]|]. right.
    split; [by destruct (finish_session true l2)|done].
Qed.

(** How the [select!] of [drive] ends: the Session is dropped where it is
    suspended, or has come to its own end. *)
Lemma select_cancelled_cases closed l r l' :
  select_cancelled closed l r l' →
  (∃ l1 l2, rtc (loop_moves closed) l l1 ∧ suspended closed l1 l2 ∧ (r, l') = abandon_session TE_Cancelled l2) ∨
  session_run closed l r l' ∧
  ∃ l1, rtc (loop_moves closed) l l1 ∧
    ((∃ e, (r, l') = abandon_session e l1) ∨
     (r, l') = finish_session true l1 ∧ (sl_running l1 = [] ∨ client_drain_wait l1 = 0)).
Proof.
  intros [l1 l2 He|l1 r1 l2 Hp%session_poll_run|l1 l2 Hp%session_poll_run]; [left|by right|left].
  - exists l2, l2. split_and!; [by apply tasks_end_moves|constructor|done].
  - destruct Hp as (l3 & Hr & Hu). by exists l3, l2.
Qed.

(** C38. Cancelling a client does not drain its Session.  [drive] waits for the
    Session in a [select!] that watches the token the Session itself watches,
    so the attempt is over with the poll in which the cancellation is seen,
    whatever the order of the branches, whichever arms of the Session are ready
    besides and whatever Open tasks end meanwhile.  It ends in one of three
    ways.  The Session is dropped with [Cancelled]: all tasks that still run
    are aborted, and no registration in flight is answered.  Or an arm returns
    an error first, which does the same.  Or the Session ends by its own
    teardown: only if no Open task is left to wait for (or the window to wait
    has no length), so that no task is ever given the [shutdown_grace] window.
    All of these are attempts of the supervisor.  A Session with a running
    task can be dropped both before it has sent its Drain and after it. *)
Theorem cancellation_abandons_tasks token closed v c io l0 l :
  sa_result (start_session io token (sv_services v) c (sv_delay v)) = Ok l0 →
  rtc (loop_continues closed) l0 l →
  (∀ r l', select_cancelled closed l r l' →
     (∃ v', sv_services v' = sl_state l' ∧ attempt token closed v c r v' (sl_counters l')) ∧
     sl_running l' = [] ∧
     ∃ l1 l2, rtc (loop_moves closed) l l1 ∧ suspended closed l1 l2 ∧
       ((∃ e, r = Err e ∧ sl_state l' = sl_state l2 ∧ sl_answers l' = sl_answers l2 ∧ sl_out l' = sl_out l2 ∧
              sl_permits l' = sl_permits l2 + len (sl_running l2)) ∨
        (r, l') = finish_session true l2 ∧ (sl_running l2 = [] ∨ client_drain_wait l2 = 0))) ∧
  (sl_running l ≠ [] →
     select_cancelled closed l (Err TE_Cancelled) (abandon_session TE_Cancelled l).2 ∧
     ∀ w, select_cancelled closed l (Err TE_Cancelled) (abandon_session TE_Cancelled (on_cancelled w l).2).2).
Proof.
  intros Hs Hr. pose proof (continues_moves _ _ _ Hr) as Hm. split.
  - intros r l' [(l1 & l2 & Hl & Hu & E)|[Hrun (l1 & Hl & Hend)]]%select_cancelled_cases.
    + injection E as -> ->. split_and!; [|done|].
      * eexists (mkSupervisor _ _). split; [reflexivity|].
        eapply (A_session_cancelled _ _ _ _ [] [] [] (sv_services v) io _ l0 l1 l2 eq_refl eq_refl Hs); [|done].
        by etransitivity.
      * exists l1, l2. split_and!; [done..|]. left. by exists TE_Cancelled.
    + split_and!.
      * eexists (mkSupervisor _ _). split; [reflexivity|].
        eapply (A_session _ _ _ _ [] [] [] _ _ _ _ _ _ eq_refl eq_refl Hs). by eapply session_run_continues.
      * destruct Hend as [[e E]|[E _]]; [by injection E as _ ->|]. unfold finish_session in E.
        destruct (finish_pending _ _). by injection E as _ ->.
      * exists l1, l1. split_and!; [done|constructor|]. destruct Hend as [[e E]|Hend]; [left|by right].
        injection E as -> ->. by exists e.
  - intros Hb. split; [exact (SC_token closed l l (rtc_refl _ _))|]. intros w.
    apply (SC_dropped closed l (on_cancelled w l).2).
    apply (P_waits closed l (on_cancelled w l).2); [exact (L_cancelled closed l w)|done|by destruct w].
Qed.

(** *** Witnesses *)

Definition sample_supervisor : ReconnectSupervisor := Supervisor_new [web] (from_millis 500).
Definition sample_finished : Counters := (finish (Err TE_Timeout) (with_policy RuntimePolicy_default)).2.
Definition sample_backoff : Backoff :=
  match backoff (fun _ => None) false false sample_supervisor sample_finished with
  | Some b => b
  | None => mkBackoff false None sample_supervisor sample_finished
  end.

(** A connection that timed out, and the back-off after it. *)
Lemma sample_retry :
  drive_step (mkSecretToken [Byte.x73]) (fun _ => false)
    (Running sample_supervisor (with_policy RuntimePolicy_default))
    (Running (bo_supervisor sample_backoff) (bo_counters sample_backoff)).
Proof.
  assert (backoff (fun _ => None) false false sample_supervisor sample_finished = Some sample_backoff) as Hb
    by (vm_compute; reflexivity).
  change Running with (if bo_continue sample_backoff then Running else Stopped) at 2.
  eapply (D_retry _ _ _ _ (Err TE_Timeout)); [|reflexivity|exact Hb].
  exact (A_failed _ _ sample_supervisor _ [] TE_Timeout [] [] (State_new [web]) eq_refl).
Qed.

Lemma supervisor_between_sessions_witness :
  ctr_binds (bo_counters sample_backoff) = [] ∧ sv_delay (bo_supervisor sample_backoff) = from_millis 1000.
Proof.
  split; [|vm_compute; reflexivity].
  refine (proj1 (supervisor_between_sessions (mkSecretToken [Byte.x73]) (fun _ => false) RuntimePolicy_default
    [web] (Running (bo_supervisor sample_backoff) (bo_counters sample_backoff)) _ _ _ _ _));
    [apply default_policy_finite|apply web_nodup..|vm_compute; discriminate|].
  eapply rtc_l; [apply sample_retry|apply rtc_refl].
Defined.

(** A Session with one Open task, cancelled. *)
Definition sample_open : Open := mkOpen (cs_id web) (mkConnectionId (replicate 16 Byte.x05)).
Definition sample_busy : Loop := (on_message (fun _ => false) 0 W_done (Ok (M_Open sample_open)) sample_loop).2.

Lemma cancellation_abandons_tasks_witness :
  sl_running sample_busy ≠ [] ∧
  select_cancelled (fun _ => false) sample_busy (Err TE_Cancelled) (abandon_session TE_Cancelled sample_busy).2.
Proof.
  assert (sl_running sample_busy ≠ []) as Hb by (vm_compute; discriminate). split; [exact Hb|].
  refine (proj1 (proj2 (cancellation_abandons_tasks (mkSecretToken [Byte.x73]) (fun _ => false)
    (Supervisor_new [web] (from_millis 500)) (with_policy RuntimePolicy_default) sample_connect sample_loop
    sample_busy _ _) Hb)); [reflexivity|].
  apply rtc_once. exact (L_message (fun _ => false) sample_loop 0 W_done (Ok (M_Open sample_open))).
Defined.

Lemma backoff_schedule_witness :
  ∃ waits v' c', retries 3 (fun _ _ => None) (Supervisor_new [] (from_millis 500)) (with_policy RuntimePolicy_default)
    = Some (waits, v', c') ∧ sv_delay v' = from_millis 4000.
Proof.
  destruct (backoff_schedule 3 (fun _ _ => None) (Supervisor_new [] (from_millis 500))
    (with_policy RuntimePolicy_default)) as (waits & v' & c' & Hr & Hd & _);
    [apply default_policy_finite|vm_compute; reflexivity|].
  exists waits, v', c'. split; [exact Hr|]. rewrite Hd. vm_compute. reflexivity.
Defined.

Lemma jitter_unbiased_witness : umax 64 - jitter_zone (jitter_max (from_millis 500) + 1) < jitter_max (from_millis 500) + 1.
Proof.
  refine (proj1 (jitter_unbiased (from_millis 500) 7 _ _)); [|split]; vm_compute; discriminate.
Defined.
