(* ===== verification/Config.v ===== *)
(** * Configuration and start-up

    The builders of crates/eggtunnel/src/client/config.rs and
    server/config.rs, their validation, the reading of PEM material (pem.rs),
    the construction of TLS configurations (server/tls.rs and client.rs) and
    the start of a client or a server from a validated configuration
    (client.rs, server.rs), with every optional transport of the crate
    enabled.  Rustls, the PEM parser, the outbound-proxy parser and the socket
    calls are the class [Libraries]. *)

From S2P Require Import Prelude Text Proto Codec Varint Frame Common WireIo Endpoint.
From S2P Require Import AuthLimiter Session Control Registry Accept.
From S2P Require Import ServiceState Heartbeat ClientSession Reconnect.

Abbreviation Pem := (list byte).

(** The code of other crates: what it builds, and whether it does.  An
    iterator over the sections of a PEM text is the list of its items. *)
Class Libraries :=
  { Cert : Type; Key : Type; Roots : Type; Verifier : Type; ClientTls : Type; ServerConfigTls : Type; Proxy : Type;
    pem_certs : Pem → list (result unit Cert);
    pem_keys : Pem → list (result unit Key);
    no_roots : Roots;
    platform_roots : Roots;
    add_root : Roots → Cert → option Roots;
    client_tls : option Pem → option ClientTls;
    client_auth_tls : Roots → list Cert → Key → option ClientTls;
    server_tls : Pem → Pem → option ServerConfigTls;
    client_verifier : Roots → option Verifier;
    verified_tls : Verifier → list Cert → Key → option ServerConfigTls;
    from_pproxy_uri : rstr → option Proxy }.

(** [Iterator::collect] into a [Result]: the items up to the first error. *)
Fixpoint collect {E A} (l : list (result E A)) : result E (list A) :=
  match l with
  | [] => Ok []
  | r :: l' => a ← r; k ← collect l'; Ok (a :: k)
  end.

(** ** client/config.rs *)

Inductive Connector := TcpTargetConnector | Application (id : nat).

(** [TcpStream::connect] of the default connector: which error it reports. *)
Definition ConnectionRefused : ErrorKind := OtherKind 1.
Definition tcp_target_error (k : ErrorKind) : TargetError :=
  match k with
  | OtherKind 1 => Refused
  | _ => Failed
  end.

Record ClientConfig := mkClientConfig
  { cc_server_addr : rstr; cc_tls_server_name : rstr; cc_ca_pem : option Pem; cc_token : SecretToken;
    cc_services : list ClientService }.

Inductive ClientTransportProfile := ClientTcpTls | ClientQuic | ClientWebSocket.

Record ClientIdentity := mkClientIdentity { id_certificate_pem : Pem; id_private_key_pem : Pem }.

Record ClientBuilder := mkClientBuilder
  { cb_config : ClientConfig; cb_connector : Connector; cb_profile : ClientTransportProfile;
    cb_policy : RuntimePolicy; cb_identity : option ClientIdentity; cb_outbound_proxy : option rstr }.

Definition ClientBuilder_new (config : ClientConfig) : ClientBuilder :=
  mkClientBuilder config TcpTargetConnector ClientTcpTls RuntimePolicy_default None None.
Definition with_connector c (b : ClientBuilder) :=
  mkClientBuilder (cb_config b) c (cb_profile b) (cb_policy b) (cb_identity b) (cb_outbound_proxy b).
Definition client_transport p (b : ClientBuilder) :=
  mkClientBuilder (cb_config b) (cb_connector b) p (cb_policy b) (cb_identity b) (cb_outbound_proxy b).
Definition client_runtime_policy p (b : ClientBuilder) :=
  mkClientBuilder (cb_config b) (cb_connector b) (cb_profile b) p (cb_identity b) (cb_outbound_proxy b).
Definition with_identity i (b : ClientBuilder) :=
  mkClientBuilder (cb_config b) (cb_connector b) (cb_profile b) (cb_policy b) (Some i) (cb_outbound_proxy b).
Definition outbound_proxy u (b : ClientBuilder) :=
  mkClientBuilder (cb_config b) (cb_connector b) (cb_profile b) (cb_policy b) (cb_identity b) (Some u).

(** ** client.rs: validation *)

(** The two [HashSet]s of [validate_config]. *)
Fixpoint unique_services (ids : gset ServiceId) (names : gset rstr) (l : list ClientService) : bool :=
  match l with
  | [] => true
  | service :: l' =>
      if bool_decide (cs_id service ∈ ids) || bool_decide (sn_value (cs_name service) ∈ names) then false
      else unique_services ({[cs_id service]} ∪ ids) ({[sn_value (cs_name service)]} ∪ names) l'
  end.

Definition parse_server_addr (config : ClientConfig) : result TunnelError Endpoint :=
  map_err (fun _ => TE_Configuration "server_addr must be a host:port endpoint")
    (Endpoint_parse (cc_server_addr config)).

Definition client_validate_config (config : ClientConfig) (policy : RuntimePolicy) : result TunnelError unit :=
  _ ← parse_server_addr config;
  _ ← ensure (negb ((len (cc_tls_server_name config) =? 0) || (253 <? str_len (cc_tls_server_name config))))
        (TE_Configuration "TLS server name is invalid");
  _ ← ensure (negb (services_per_session (limits policy) <? len (cc_services config)))
        (TE_Configuration "service count exceeds the configured per-session limit");
  _ ← ensure (unique_services ∅ ∅ (cc_services config))
        (TE_Configuration "service IDs and names must be unique");
  ensure (negb (from_option (fun pem => MAX_FRAME_BYTES <? len pem) false (cc_ca_pem config)))
    (TE_Configuration "custom CA bundle exceeds configured size limit").

Section client.
Context `{Libraries}.

Definition parse_outbound_proxy (proxy_chain : rstr) : result TunnelError Proxy :=
  ok_or (from_pproxy_uri proxy_chain) (TE_Configuration "invalid outbound proxy chain").

Definition validate_outbound_proxy (proxy_chain : rstr) : result TunnelError unit :=
  _ ← parse_outbound_proxy proxy_chain; Ok tt.

Definition validate_client_profile (config : ClientConfig) (profile : ClientTransportProfile)
    (has_identity : bool) (outbound : option rstr) (policy : RuntimePolicy) : result TunnelError unit :=
  _ ← RuntimePolicy_validate policy;
  _ ← client_validate_config config policy;
  let has_outbound_proxy := bool_decide (is_Some outbound) in
  _ ← match profile with
      | ClientQuic =>
          ensure (negb (bool_decide (is_Some (cc_ca_pem config)) || has_identity || has_outbound_proxy))
            (TE_Configuration "Eggress QUIC currently supports platform roots and bearer auth only")
      | _ => Ok tt
      end;
  _ ← match profile with
      | ClientWebSocket =>
          ensure (negb has_identity) (TE_Configuration "WebSocket transport currently does not support mTLS")
      | _ => Ok tt
      end;
  _ ← ensure (negb (has_identity && has_outbound_proxy))
        (TE_Configuration "outbound proxy mode currently does not support mTLS");
  match outbound with
  | Some chain => _ ← parse_outbound_proxy chain; Ok tt
  | None => Ok tt
  end.

Definition ClientBuilder_validate (b : ClientBuilder) : result TunnelError unit :=
  validate_client_profile (cb_config b) (cb_profile b) (bool_decide (is_Some (cb_identity b)))
    (cb_outbound_proxy b) (cb_policy b).

(** ** pem.rs *)

Definition MAX_CERTS : Z := 32.

Definition certificates (pem : Pem) : result unit (list Cert) :=
  certs ← collect (take (Z.to_nat (MAX_CERTS + 1)) (pem_certs pem));
  if (len certs =? 0) || (MAX_CERTS <? len certs) then Err tt else Ok certs.

Definition private_key (pem : Pem) : result unit Key :=
  _ ← ensure (negb (MAX_FRAME_BYTES <? len pem)) tt;
  match pem_keys pem with
  | [] => Err tt
  | Err _ :: _ => Err tt
  | Ok key :: [] => Ok key
  | Ok _ :: _ :: _ => Err tt
  end.

(** ** TLS material *)

Fixpoint add_roots (roots : Roots) (certs : list Cert) : result TunnelError Roots :=
  match certs with
  | [] => Ok roots
  | cert :: certs' => roots' ← ok_or (add_root roots cert) TE_Tls; add_roots roots' certs'
  end.

Definition read_certificates (pem : Pem) : result TunnelError (list Cert) :=
  map_err (fun _ => TE_Tls) (certificates pem).

Definition build_tls_config (ca_pem : option Pem) : result TunnelError ClientTls :=
  ok_or (client_tls ca_pem) TE_Tls.

Definition build_mtls_tls_config (config : ClientConfig) (identity : ClientIdentity)
    : result TunnelError ClientTls :=
  roots ← match cc_ca_pem config with
          | Some ca_pem => ca_certs ← read_certificates ca_pem; add_roots no_roots ca_certs
          | None => Ok platform_roots
          end;
  certs ← read_certificates (id_certificate_pem identity);
  key ← map_err (fun _ => TE_Tls) (private_key (id_private_key_pem identity));
  ok_or (client_auth_tls roots certs key) TE_Tls.

(** ** client.rs: start *)

Inductive Transport :=
| StreamTransport (endpoint : Endpoint) (server_name : rstr) (tls : ClientTls) (websocket : bool)
    (outbound : option Proxy)
| QuicTransport (endpoint : Endpoint) (server_name : rstr) (insecure : bool) (streams : Z).

(** A started client: what its task drives, and the handle's queue. *)
Record Client := mkClient
  { cl_transport : Transport; cl_connector : Connector; cl_token : SecretToken;
    cl_supervisor : ReconnectSupervisor; cl_counters : Counters; cl_commands : Z }.

(** [runtime] says whether the caller runs inside a Tokio runtime. *)
Definition start_with_tls_config (runtime : bool) (config : ClientConfig) (connector : Connector)
    (tls : ClientTls) (websocket : bool) (outbound : option Proxy) (policy : RuntimePolicy)
    : result TunnelError Client :=
  _ ← ensure runtime (TE_Configuration "Client::start requires a caller-owned Tokio runtime");
  _ ← client_validate_config config policy;
  endpoint ← parse_server_addr config;
  Ok (mkClient (StreamTransport endpoint (cc_tls_server_name config) tls websocket outbound) connector
        (cc_token config) (Supervisor_new (cc_services config) (reconnect_initial (timeouts policy)))
        (with_policy policy) (client_command_queue (limits policy))).

Definition start_quic_profile (runtime : bool) (config : ClientConfig) (connector : Connector)
    (insecure : bool) (policy : RuntimePolicy) : result TunnelError Client :=
  _ ← ensure runtime (TE_Configuration "Client::start_quic requires a caller-owned Tokio runtime");
  _ ← client_validate_config config policy;
  _ ← ensure (negb (bool_decide (is_Some (cc_ca_pem config))))
        (TE_Configuration "Eggress QUIC currently uses platform roots; custom CA bundles are unsupported");
  endpoint ← parse_server_addr config;
  Ok (mkClient (QuicTransport endpoint (cc_tls_server_name config) insecure (client_open_tasks (limits policy)))
        connector (cc_token config)
        (Supervisor_new (cc_services config) (reconnect_initial (timeouts policy)))
        (with_policy policy) (client_command_queue (limits policy))).

Definition parse_optional_proxy (outbound : option rstr) : result TunnelError (option Proxy) :=
  match outbound with
  | Some chain => proxy ← parse_outbound_proxy chain; Ok (Some proxy)
  | None => Ok None
  end.

Definition start_profile (runtime : bool) (config : ClientConfig) (connector : Connector)
    (profile : ClientTransportProfile) (identity : option ClientIdentity) (outbound : option rstr)
    (policy : RuntimePolicy) : result TunnelError Client :=
  _ ← validate_client_profile config profile (bool_decide (is_Some identity)) outbound policy;
  match identity with
  | Some identity =>
      tls ← build_mtls_tls_config config identity;
      start_with_tls_config runtime config connector tls false None policy
  | None =>
      match profile with
      | ClientTcpTls =>
          tls ← build_tls_config (cc_ca_pem config);
          proxy ← parse_optional_proxy outbound;
          start_with_tls_config runtime config connector tls false proxy policy
      | ClientQuic => start_quic_profile runtime config connector false policy
      | ClientWebSocket =>
          tls ← build_tls_config (cc_ca_pem config);
          proxy ← parse_optional_proxy outbound;
          start_with_tls_config runtime config connector tls true proxy policy
      end
  end.

Definition ClientBuilder_start (runtime : bool) (b : ClientBuilder) : result TunnelError Client :=
  start_profile runtime (cb_config b) (cb_connector b) (cb_profile b) (cb_identity b) (cb_outbound_proxy b)
    (cb_policy b).

(** The convenience constructors of [Client]. *)
Definition Client_start runtime config := ClientBuilder_start runtime (ClientBuilder_new config).
Definition start_with_connector runtime config connector :=
  ClientBuilder_start runtime (with_connector connector (ClientBuilder_new config)).
Definition start_websocket runtime config :=
  ClientBuilder_start runtime (client_transport ClientWebSocket (ClientBuilder_new config)).
Definition start_websocket_with_connector runtime config connector :=
  ClientBuilder_start runtime
    (client_transport ClientWebSocket (with_connector connector (ClientBuilder_new config))).
Definition start_with_outbound_proxy runtime config proxy_chain :=
  ClientBuilder_start runtime (outbound_proxy proxy_chain (ClientBuilder_new config)).
Definition start_with_outbound_proxy_and_connector runtime config proxy_chain connector :=
  ClientBuilder_start runtime (outbound_proxy proxy_chain (with_connector connector (ClientBuilder_new config))).
Definition start_websocket_with_outbound_proxy runtime config proxy_chain :=
  ClientBuilder_start runtime
    (outbound_proxy proxy_chain (client_transport ClientWebSocket (ClientBuilder_new config))).
Definition start_websocket_with_outbound_proxy_and_connector runtime config proxy_chain connector :=
  ClientBuilder_start runtime
    (outbound_proxy proxy_chain
      (client_transport ClientWebSocket (with_connector connector (ClientBuilder_new config)))).
Definition start_quic runtime config :=
  ClientBuilder_start runtime (client_transport ClientQuic (ClientBuilder_new config)).
Definition start_quic_with_connector runtime config connector :=
  ClientBuilder_start runtime (client_transport ClientQuic (with_connector connector (ClientBuilder_new config))).
Definition start_with_mtls runtime config identity :=
  ClientBuilder_start runtime (with_identity identity (ClientBuilder_new config)).
Definition start_with_mtls_and_connector runtime config identity connector :=
  ClientBuilder_start runtime (with_identity identity (with_connector connector (ClientBuilder_new config))).
End client.

(** ** client/reconnect.rs: establishing a transport *)

Inductive OutboundConnectErrorKind := ProxyAuthentication | ProxyPolicy | ProxyTimeout | ProxyOther.

Definition proxy_error (k : OutboundConnectErrorKind) : TunnelError :=
  match k with
  | ProxyAuthentication => TE_Authentication
  | ProxyPolicy => TE_Authorization
  | ProxyTimeout => TE_Timeout
  | ProxyOther => TE_Disconnected
  end.

(** What the network answers: [proxied] is the proxy connector's answer,
    [direct] that of [TcpStream::connect] within the timeout. *)
Record Network := mkNetwork
  { nw_proxied : result OutboundConnectErrorKind unit; nw_direct : poll (result ErrorKind unit) }.

Definition connect_tcp (via_proxy : bool) (n : Network) : result TunnelError unit :=
  if via_proxy then map_err proxy_error (nw_proxied n)
  else match nw_direct n with
       | Pending => Err TE_Timeout
       | Ready r => map_err TE_Io r
       end.

(** Each wait of [establish] may be cut short by cancellation. *)
Record EstablishIo := mkEstablishIo
  { es_cancelled : bool; es_network : Network; es_tls : Stage unit unit; es_websocket : poll (result unit unit) }.

Definition establish_stream (via_proxy websocket : bool) (io : EstablishIo) : result TunnelError unit :=
  _ ← (if es_cancelled io then Err TE_Cancelled else connect_tcp via_proxy (es_network io));
  _ ← run_stage (fun _ => TE_Tls) (es_tls io);
  if websocket then
    match es_websocket io with
    | Pending => Err TE_Timeout
    | Ready r => map_err (fun _ => TE_Tls) r
    end
  else Ok tt.

(** [QuicTransport]: the connection it owns, and the handle's slot. *)
Record QuicState := mkQuicState { qt_active : option nat; qt_slot : option nat }.

(** Where the connect block of [establish] ends: the client, the connection and
    the control stream each may fail, and the whole is under one timeout. *)
Inductive QuicDial :=
| DialTimeout (client : option nat)
| DialFailed
| DialNoConnection (client : nat)
| DialNoStream (client : nat)
| Dialled (client : nat).

Definition establish_quic (max_concurrent_streams : Z) (dial : QuicDial) (q : QuicState)
    : result TunnelError unit * QuicState :=
  match try_into 32 max_concurrent_streams with
  | None => (Err (TE_Configuration "QUIC stream limit exceeds protocol range"), q)
  | Some _ =>
      let own c := mkQuicState (Some c) (Some c) in
      match dial with
      | DialTimeout None => (Err TE_Timeout, q)
      | DialTimeout (Some c) => (Err TE_Timeout, own c)
      | DialFailed => (Err TE_Tls, q)
      | DialNoConnection c => (Err TE_Tls, own c)
      | DialNoStream c => (Err TE_Disconnected, own c)
      | Dialled c => (Ok tt, own c)
      end
  end.

(** The clients closed, and the state after. *)
Definition close_quic (q : QuicState) : list nat * QuicState :=
  (option_list (qt_active q), mkQuicState None None).

(** ** server/config.rs *)

Record ServerConfig := mkServerConfig
  { sc_listen_addr : SocketAddr; sc_certificate_pem : Pem; sc_private_key_pem : Pem;
    sc_token : SecretToken; sc_allow_public_service_binds : bool }.

Inductive ServerTransportProfile := ServerTcpTls | ServerQuic | ServerWebSocket.

Record ServerBuilder := mkServerBuilder
  { sb_config : ServerConfig; sb_bind_policy : BindPolicy; sb_profile : ServerTransportProfile;
    sb_runtime_policy : RuntimePolicy; sb_trusted_client_ca : option Pem }.

Definition set_allow_public v (c : ServerConfig) : ServerConfig :=
  mkServerConfig (sc_listen_addr c) (sc_certificate_pem c) (sc_private_key_pem c) (sc_token c) v.

Definition ServerBuilder_new (config : ServerConfig) : ServerBuilder :=
  mkServerBuilder config
    (mkBindPolicy (sc_allow_public_service_binds config) (allowed_addresses BindPolicy_default)
       (allowed_port_ranges BindPolicy_default) (allow_ephemeral_ports BindPolicy_default)
       (max_services_per_session BindPolicy_default))
    ServerTcpTls RuntimePolicy_default None.

Definition with_bind_policy (policy : BindPolicy) (b : ServerBuilder) : ServerBuilder :=
  mkServerBuilder (set_allow_public (allow_public_addresses policy) (sb_config b)) policy (sb_profile b)
    (sb_runtime_policy b) (sb_trusted_client_ca b).
Definition server_transport (profile : ServerTransportProfile) (b : ServerBuilder) : ServerBuilder :=
  mkServerBuilder (sb_config b) (sb_bind_policy b) profile (sb_runtime_policy b) (sb_trusted_client_ca b).
Definition server_runtime_policy (policy : RuntimePolicy) (b : ServerBuilder) : ServerBuilder :=
  mkServerBuilder (sb_config b) (sb_bind_policy b) (sb_profile b) policy (sb_trusted_client_ca b).
Definition client_ca_pem (pem : Pem) (b : ServerBuilder) : ServerBuilder :=
  mkServerBuilder (sb_config b) (sb_bind_policy b) (sb_profile b) (sb_runtime_policy b) (Some pem).

Definition server_validate_config (config : ServerConfig) : result TunnelError unit :=
  _ ← ensure (negb ((len (sc_certificate_pem config) =? 0) || (len (sc_private_key_pem config) =? 0)))
        (TE_Configuration "server certificate and key are required");
  ensure (negb ((MAX_FRAME_BYTES <? len (sc_certificate_pem config))
                || (MAX_FRAME_BYTES <? len (sc_private_key_pem config))))
    (TE_Configuration "server TLS material exceeds configured size limit").

Definition validate_server_profile (config : ServerConfig) (bind_policy : BindPolicy)
    (profile : ServerTransportProfile) (trusted_client_ca : option Pem) (runtime_policy : RuntimePolicy)
    : result TunnelError unit :=
  _ ← RuntimePolicy_validate runtime_policy;
  _ ← BindPolicy_validate bind_policy;
  _ ← ensure (eqb (allow_public_addresses bind_policy) (sc_allow_public_service_binds config))
        (TE_Configuration "bind policy public-address setting must match allow_public_service_binds");
  _ ← server_validate_config config;
  match trusted_client_ca with
  | None => Ok tt
  | Some ca =>
      _ ← ensure (negb (len ca =? 0)) (TE_Configuration "trusted client CA bundle must not be empty");
      ensure (match profile with ServerTcpTls => true | _ => false end)
        (TE_Configuration "mTLS is supported only with TCP/TLS")
  end.

Definition ServerBuilder_validate (b : ServerBuilder) : result TunnelError unit :=
  validate_server_profile (sb_config b) (sb_bind_policy b) (sb_profile b) (sb_trusted_client_ca b)
    (sb_runtime_policy b).

Section server.
Context `{Libraries}.

(** ** server/tls.rs *)

Definition build_server_tls (config : ServerConfig) : result TunnelError ServerConfigTls :=
  ok_or (server_tls (sc_certificate_pem config) (sc_private_key_pem config)) TE_Tls.

Definition build_mtls_server_config (config : ServerConfig) (trusted_client_ca : Pem)
    : result TunnelError ServerConfigTls :=
  certs ← read_certificates (sc_certificate_pem config);
  key ← map_err (fun _ => TE_Tls) (private_key (sc_private_key_pem config));
  client_ca ← read_certificates trusted_client_ca;
  roots ← add_roots no_roots client_ca;
  verifier ← ok_or (client_verifier roots) TE_Tls;
  ok_or (verified_tls verifier certs key) TE_Tls.

(** ** server.rs *)

Inductive Ingress :=
| TcpIngress (tls : ServerTls) (config : ServerConfigTls) (websocket : bool)
| QuicIngress (idle_timeout max_concurrent_streams : Z).

Definition listening (i : Ingress) : Listening :=
  match i with TcpIngress _ _ _ => OverTcp | QuicIngress _ _ => OverQuic end.

(** A bound server: where it listens, what its accept loop starts with. *)
Record BoundServer := mkBoundServer
  { bs_local_addr : SocketAddr; bs_ingress : Ingress; bs_token : SecretToken; bs_context : AcceptContext }.

(** [runtime]: is there a caller's runtime; [tcp] and [quic] are the outcomes of
    binding the listener and of reading its address. *)
Record BindIo := mkBindIo
  { bi_runtime : bool;
    bi_tcp : SocketAddr → result ErrorKind (result ErrorKind SocketAddr);
    bi_quic : SocketAddr → result unit (result unit SocketAddr) }.

Definition require_caller_runtime (runtime : bool) (message : string) : result TunnelError unit :=
  ensure runtime (TE_Configuration message).

Definition bind_with_tls_profile (io : BindIo) (config : ServerConfig) (bind_policy : BindPolicy)
    (tls : ServerTls) (tls_config : ServerConfigTls) (websocket : bool) (runtime_policy : RuntimePolicy)
    : result TunnelError BoundServer :=
  _ ← require_caller_runtime (bi_runtime io) "Server::bind requires a caller-owned Tokio runtime";
  _ ← server_validate_config config;
  _ ← BindPolicy_validate bind_policy;
  listener ← map_err TE_Io (bi_tcp io (sc_listen_addr config));
  local_addr ← map_err TE_Io listener;
  Ok (mkBoundServer local_addr (TcpIngress tls tls_config websocket) (sc_token config)
        (AcceptContext_new bind_policy runtime_policy)).

Definition bind_quic_profile (io : BindIo) (config : ServerConfig) (bind_policy : BindPolicy)
    (runtime_policy : RuntimePolicy) : result TunnelError BoundServer :=
  max_concurrent_streams ←
    ok_or (try_into 32 (saturating_add 64 (active_connections_per_session (limits runtime_policy)) 1))
      (TE_Configuration "connection ceiling exceeds the QUIC stream limit");
  listener ← map_err (fun _ => TE_Tls) (bi_quic io (sc_listen_addr config));
  local_addr ← map_err (fun _ => TE_Tls) listener;
  Ok (mkBoundServer local_addr (QuicIngress (control_idle (timeouts runtime_policy)) max_concurrent_streams)
        (sc_token config) (AcceptContext_new bind_policy runtime_policy)).

Definition bind_profile (io : BindIo) (config : ServerConfig) (bind_policy : BindPolicy)
    (profile : ServerTransportProfile) (trusted_client_ca : option Pem) (runtime_policy : RuntimePolicy)
    : result TunnelError BoundServer :=
  match profile with
  | ServerTcpTls =>
      match trusted_client_ca with
      | Some client_ca =>
          tls ← build_mtls_server_config config client_ca;
          bind_with_tls_profile io config bind_policy Mutual tls false runtime_policy
      | None =>
          tls ← build_server_tls config;
          bind_with_tls_profile io config bind_policy Eggress tls false runtime_policy
      end
  | ServerWebSocket =>
      tls ← build_server_tls config;
      bind_with_tls_profile io config bind_policy Eggress tls true runtime_policy
  | ServerQuic => bind_quic_profile io config bind_policy runtime_policy
  end.

Definition ServerBuilder_bind (io : BindIo) (b : ServerBuilder) : result TunnelError BoundServer :=
  _ ← ServerBuilder_validate b;
  bind_profile io (sb_config b) (sb_bind_policy b) (sb_profile b) (sb_trusted_client_ca b)
    (sb_runtime_policy b).

(** The convenience constructors of [Server]. *)
Definition Server_bind io config := ServerBuilder_bind io (ServerBuilder_new config).
Definition Server_bind_with_policy io config policy :=
  ServerBuilder_bind io (with_bind_policy policy (ServerBuilder_new config)).
Definition Server_bind_websocket io config :=
  ServerBuilder_bind io (server_transport ServerWebSocket (ServerBuilder_new config)).
Definition Server_bind_quic io config :=
  ServerBuilder_bind io (server_transport ServerQuic (ServerBuilder_new config)).
Definition Server_bind_quic_with_policy io config policy :=
  ServerBuilder_bind io (server_transport ServerQuic (with_bind_policy policy (ServerBuilder_new config))).
Definition Server_bind_mtls_with_policy io config ca policy :=
  ServerBuilder_bind io (client_ca_pem ca (with_bind_policy policy (ServerBuilder_new config))).
Definition Server_bind_mtls io config ca :=
  ServerBuilder_bind io (client_ca_pem ca
    (with_bind_policy (sb_bind_policy (ServerBuilder_new config)) (ServerBuilder_new config))).
End server.

(** ** The client's handle *)

(** How the two [select!]s of a request end: cancelled, the queue closed, or
    sent; then cancelled, the reply dropped, or answered. *)
Inductive Sending := SendCancelled | SendClosed | Sent.
Inductive Answer (A : Type) := AnswerCancelled | AnswerDropped | Answered (r : result TunnelError A).
Arguments AnswerCancelled {A}.
Arguments AnswerDropped {A}.
Arguments Answered {A} r.

Definition request {A} (sending : Sending) (answer : Answer A) : result TunnelError A :=
  match sending with
  | SendCancelled => Err TE_Cancelled
  | SendClosed => Err TE_Disconnected
  | Sent =>
      match answer with
      | AnswerCancelled => Err TE_Cancelled
      | AnswerDropped => Err TE_Disconnected
      | Answered r => r
      end
  end.

Definition handle_unregister_service (sending : Sending) (answer : Answer unit) : result TunnelError unit :=
  request sending answer.

Definition handle_register_service (c : Counters) (sending : Sending) (answer : Answer EffectiveBind)
    : result TunnelError EffectiveBind :=
  if load n_connected c =? 0 then Err TE_Disconnected else request sending answer.

(** ** PEM material *)

#[export] Instance Ok_inj {E A} : Inj (=) (=) (@Ok E A).
Proof. by intros ? ? [=]. Qed.

Lemma collect_ok {E A} (l : list (result E A)) k : collect l = Ok k ↔ l = Ok <$> k.
Proof.
  revert k. induction l as [|r l IH]; intros k; simpl.
  - split; [by intros [= <-]|]. by destruct k.
  - destruct r as [a|e]; simpl.
    + destruct (collect l) as [k'|e]; simpl; split.
      * intros [= <-]. simpl. f_equal. by apply IH.
      * destruct k as [|b k]; [done|]. intros [= -> Hl]. apply IH in Hl. by simplify_eq.
      * done.
      * destruct k as [|b k]; [done|]. intros [= -> Hl]. by apply IH in Hl.
    + split; [done|]. by destruct k.
Qed.

Lemma certificates_ok `{Libraries} pem certs :
  certificates pem = Ok certs ↔ pem_certs pem = Ok <$> certs ∧ 1 <= len certs <= 32.
Proof.
  unfold certificates. change (Z.to_nat (MAX_CERTS + 1)) with 33%nat.
  assert (∀ k : list Cert, 1 <= len k <= 32 ↔ (len k =? 0) || (MAX_CERTS <? len k) = false) as Hlen.
  { intros k. pose proof (len_nonneg k). unfold MAX_CERTS. rewrite orb_false_iff, Z.eqb_neq, Z.ltb_ge. lia. }
  assert (∀ k : list Cert, len k <= 32 → take 33 (pem_certs pem) = Ok <$> k ↔ pem_certs pem = Ok <$> k) as Htake.
  { intros k Hk. unfold len in Hk. split; intros E; [|rewrite E; apply take_ge; rewrite length_fmap; lia].
    rewrite <-E. symmetry. apply take_ge. apply (f_equal length) in E.
    rewrite length_take, length_fmap in E. lia. }
  destruct (collect (take 33 (pem_certs pem))) as [k|[]] eqn:Ec; simpl.
  - apply collect_ok in Ec. destruct (_ || _) eqn:Eb.
    + split; [done|]. intros [Hk Hb]. apply Htake in Hk; [|lia]. rewrite Hk in Ec.
      apply (inj (fmap Ok)) in Ec. subst. apply Hlen in Hb. congruence.
    + apply Hlen in Eb. split; [intros [= <-]; by rewrite <-Htake by lia|].
      intros [Hk Hb]. apply Htake in Hk; [|lia]. rewrite Hk in Ec. apply (inj (fmap Ok)) in Ec. by subst.
  - split; [done|]. intros [Hk Hb]. apply Htake, collect_ok in Hk; [|lia]. congruence.
Qed.

(** ** Validation *)

Lemma sn_value_inj a b : sn_value b = sn_value a → a = b.
Proof. destruct a, b. simpl. by intros ->. Qed.

Lemma unique_services_iff ids names l :
  unique_services ids names l = true ↔
  NoDup (cs_id <$> l) ∧ NoDup (cs_name <$> l) ∧
  Forall (fun s => ¬ (cs_id s ∈ ids) ∧ ¬ (sn_value (cs_name s) ∈ names)) l.
Proof.
  revert ids names. induction l as [|s l IH]; intros ids names; simpl.
  - split; [|done]. intros _. split_and!; [apply NoDup_nil_2..|apply Forall_nil_iff, I].
  - rewrite !list.NoDup_cons, Forall_cons_iff.
    destruct (bool_decide (cs_id s ∈ ids)) eqn:E1; simpl; bools; [naive_solver|].
    destruct (bool_decide (sn_value (cs_name s) ∈ names)) eqn:E2; bools; [naive_solver|].
    rewrite IH, !list.Forall_forall. setoid_rewrite not_elem_of_union. setoid_rewrite not_elem_of_singleton.
    rewrite !list_elem_of_fmap. split.
    + intros (? & ? & Hall). split_and!; try done; [..|naive_solver].
      * intros (y & He & Hy). destruct (Hall _ Hy) as [[Hne _] _]. by apply Hne.
      * intros (y & He & Hy). destruct (Hall _ Hy) as [_ [Hne _]]. apply Hne. by rewrite He.
    + intros ([Hi ?] & [Hn ?] & _ & Hall). split_and!; try done. intros y Hy. split; (split; [|by apply Hall]).
      * intros He. apply Hi. by exists y.
      * intros He. apply Hn. exists y. split; [|done]. by apply sn_value_inj.
Qed.

Lemma client_validate_config_ok config policy :
  client_validate_config config policy = Ok tt ↔
  (∃ endpoint, Endpoint_parse (cc_server_addr config) = Ok endpoint) ∧
  1 <= len (cc_tls_server_name config) ∧ str_len (cc_tls_server_name config) <= 253 ∧
  len (cc_services config) <= services_per_session (limits policy) ∧
  NoDup (cs_id <$> cc_services config) ∧ NoDup (cs_name <$> cc_services config) ∧
  (∀ pem, cc_ca_pem config = Some pem → len pem <= MAX_FRAME_BYTES).
Proof.
  unfold client_validate_config, parse_server_addr.
  pose proof (unique_services_iff ∅ ∅ (cc_services config)) as Hu.
  assert (Forall (fun s => ¬ (cs_id s ∈ (∅ : gset ServiceId)) ∧ ¬ (sn_value (cs_name s) ∈ (∅ : gset rstr)))
    (cc_services config)) as Hf by (apply list.Forall_forall; set_solver).
  pose proof (len_nonneg (cc_tls_server_name config)).
  destruct (Endpoint_parse _) as [endpoint|e]; simpl; [|split; [done|by intros [[? ?] _]]].
  destruct (len (cc_tls_server_name config) =? 0) eqn:E1; simpl; bools; [split; [done|lia]|].
  destruct (253 <? str_len _) eqn:E2; simpl; bools; [split; [done|lia]|].
  destruct (services_per_session _ <? _) eqn:E3; simpl; bools; [split; [done|lia]|].
  destruct (unique_services _ _ _); simpl; [|split; [done|intros (_ & _ & _ & _ & ? & ? & _); naive_solver]].
  destruct (proj1 Hu eq_refl) as (Hi & Hn & _). destruct (cc_ca_pem config) as [pem|]; simpl.
  - destruct (MAX_FRAME_BYTES <? len pem) eqn:E4; simpl; bools.
    + split; [done|]. intros (_ & _ & _ & _ & _ & _ & Hp). specialize (Hp pem eq_refl). lia.
    + split; [|done]. intros _. split_and!; try done; [eauto|lia|]. by intros ? [= <-].
  - split; [|done]. intros _. split_and!; try done; [eauto|lia].
Qed.

(** The machine integers of a policy are not negative. *)
Definition policy_typed (p : RuntimePolicy) : Prop :=
  Forall (fun v => 0 <= v) (limit_values (limits p)) ∧ Forall (fun v => 0 <= v) (timeout_values (timeouts p)).

Section start.
Context `{Libraries}.

Lemma validate_client_profile_ok config profile has_identity outbound policy :
  validate_client_profile config profile has_identity outbound policy = Ok tt →
  RuntimePolicy_validate policy = Ok tt ∧ client_validate_config config policy = Ok tt ∧
  (profile = ClientQuic → cc_ca_pem config = None ∧ has_identity = false ∧ outbound = None) ∧
  (has_identity = true → profile = ClientTcpTls ∧ outbound = None) ∧
  (∃ proxy, parse_optional_proxy outbound = Ok proxy).
Proof.
  unfold validate_client_profile, parse_optional_proxy.
  destruct (RuntimePolicy_validate policy) as [[]|]; [simpl|done].
  destruct (client_validate_config config policy) as [[]|]; [simpl|done].
  destruct outbound as [chain|], has_identity, profile; simpl; rewrite ?orb_true_r; try done;
    destruct (cc_ca_pem config); simpl; try done;
    try (destruct (parse_outbound_proxy chain) as [proxy|]; simpl; [|done]); naive_solver.
Qed.

(** What a builder asks for, as a transport. *)
Definition configured_transport (b : ClientBuilder) (t : Transport) : Prop :=
  let config := cb_config b in
  ∃ endpoint, Endpoint_parse (cc_server_addr config) = Ok endpoint ∧
  match cb_identity b, cb_profile b with
  | Some identity, _ =>
      cb_profile b = ClientTcpTls ∧ cb_outbound_proxy b = None ∧
      ∃ tls, build_mtls_tls_config config identity = Ok tls ∧
        t = StreamTransport endpoint (cc_tls_server_name config) tls false None
  | None, ClientQuic =>
      cc_ca_pem config = None ∧ cb_outbound_proxy b = None ∧
      t = QuicTransport endpoint (cc_tls_server_name config) false (client_open_tasks (limits (cb_policy b)))
  | None, profile =>
      ∃ tls proxy, build_tls_config (cc_ca_pem config) = Ok tls ∧
        parse_optional_proxy (cb_outbound_proxy b) = Ok proxy ∧
        t = StreamTransport endpoint (cc_tls_server_name config) tls
              (match profile with ClientWebSocket => true | _ => false end) proxy
  end.

Definition started (b : ClientBuilder) (t : Transport) : Client :=
  mkClient t (cb_connector b) (cc_token (cb_config b))
    (Supervisor_new (cc_services (cb_config b)) (reconnect_initial (timeouts (cb_policy b))))
    (with_policy (cb_policy b)) (client_command_queue (limits (cb_policy b))).

Lemma client_start_iff runtime b c :
  ClientBuilder_start runtime b = Ok c ↔
  ClientBuilder_validate b = Ok tt ∧ runtime = true ∧ ∃ t, configured_transport b t ∧ c = started b t.
Proof.
  unfold ClientBuilder_start, start_profile, ClientBuilder_validate, configured_transport.
  destruct b as [config connector profile policy identity outbound]. simpl.
  destruct (validate_client_profile _ _ _ _ _) as [[]|e] eqn:Ev; simpl; [|naive_solver].
  apply validate_client_profile_ok in Ev as (_ & Hc & Hq & Hi & Hp).
  unfold start_with_tls_config, start_quic_profile, parse_server_addr.
  pose proof Hc as ((endpoint & ->) & _)%client_validate_config_ok. rewrite Hc.
  destruct identity as [identity|].
  - destruct (Hi eq_refl) as [-> ->]. destruct (build_mtls_tls_config _ _); simpl; [|naive_solver].
    destruct runtime; simpl; [|naive_solver]. unfold started. simpl. naive_solver.
  - destruct profile; simpl.
    + destruct (build_tls_config _); simpl; [|naive_solver]. destruct Hp as [proxy ->]. simpl.
      destruct runtime; simpl; [|naive_solver]. unfold started. simpl. naive_solver.
    + destruct (Hq eq_refl) as (-> & _ & ->). destruct runtime; simpl; [|naive_solver].
      unfold started. simpl. naive_solver.
    + destruct (build_tls_config _); simpl; [|naive_solver]. destruct Hp as [proxy ->]. simpl.
      destruct runtime; simpl; [|naive_solver]. unfold started. simpl. naive_solver.
Qed.
End start.

(** The settings of a server builder, one at a time. *)
Inductive builder_step : ServerBuilder → ServerBuilder → Prop :=
| B_bind_policy b policy : builder_step b (with_bind_policy policy b)
| B_transport b profile : builder_step b (server_transport profile b)
| B_runtime b policy : builder_step b (server_runtime_policy policy b)
| B_client_ca b pem : builder_step b (client_ca_pem pem b).

(** Every builder keeps the public switch of its policy and its configuration
    equal. *)
Lemma builder_public config b :
  rtc builder_step (ServerBuilder_new config) b →
  allow_public_addresses (sb_bind_policy b) = sc_allow_public_service_binds (sb_config b).
Proof.
  intros Hr. refine (rtc_ind_r (fun b => allow_public_addresses (sb_bind_policy b) =
    sc_allow_public_service_binds (sb_config b)) _ _ _ _ Hr); [done|].
  intros x y _ Hs IH. by destruct Hs.
Qed.

Section bound.
Context `{Libraries}.

(** What a builder asks for, as an ingress. *)
Definition configured_ingress (b : ServerBuilder) (i : Ingress) : Prop :=
  match sb_trusted_client_ca b, sb_profile b with
  | Some ca, _ => sb_profile b = ServerTcpTls ∧ 1 <= len ca ∧
      ∃ tls, build_mtls_server_config (sb_config b) ca = Ok tls ∧ i = TcpIngress Mutual tls false
  | None, ServerQuic =>
      i = QuicIngress (control_idle (timeouts (sb_runtime_policy b)))
            (active_connections_per_session (limits (sb_runtime_policy b)) + 1)
  | None, profile => ∃ tls, build_server_tls (sb_config b) = Ok tls ∧
      i = TcpIngress Eggress tls (match profile with ServerWebSocket => true | _ => false end)
  end.

Lemma validate_server_profile_ok b :
  ServerBuilder_validate b = Ok tt →
  RuntimePolicy_validate (sb_runtime_policy b) = Ok tt ∧ BindPolicy_validate (sb_bind_policy b) = Ok tt ∧
  server_validate_config (sb_config b) = Ok tt ∧
  (∀ ca, sb_trusted_client_ca b = Some ca → 1 <= len ca ∧ sb_profile b = ServerTcpTls).
Proof.
  unfold ServerBuilder_validate, validate_server_profile.
  destruct (RuntimePolicy_validate _) as [[]|]; [simpl|done].
  destruct (BindPolicy_validate _) as [[]|]; [simpl|done].
  destruct (eqb _ _); simpl; [|done]. destruct (server_validate_config _) as [[]|]; simpl; [|done].
  destruct (sb_trusted_client_ca b) as [ca|]; simpl; [|done].
  pose proof (len_nonneg ca). destruct (len ca =? 0) eqn:E; simpl; bools; [done|].
  destruct (sb_profile b); simpl; try done. intros _. split_and!; try done. intros ? [= <-]. split; [lia|done].
Qed.

Lemma bind_with_tls_ok io config policy tls tls_config websocket runtime_policy srv :
  bind_with_tls_profile io config policy tls tls_config websocket runtime_policy = Ok srv →
  bs_ingress srv = TcpIngress tls tls_config websocket ∧ bs_token srv = sc_token config ∧
  bs_context srv = AcceptContext_new policy runtime_policy.
Proof.
  unfold bind_with_tls_profile, require_caller_runtime.
  destruct (bi_runtime io); simpl; [|done]. destruct (server_validate_config _); simpl; [|done].
  destruct (BindPolicy_validate _); simpl; [|done]. destruct (bi_tcp io _) as [[addr|]|]; simpl; try done.
  by intros [= <-].
Qed.

Lemma quic_stream_limit n : 1 <= n <= 65536 → try_into 32 (saturating_add 64 n 1) = Some (n + 1).
Proof.
  intros Hn. unfold saturating_add. rewrite Z.min_l by (unfold umax; lia).
  unfold try_into. by rewrite (proj2 (fits_iff 32 (n + 1))) by lia.
Qed.

Lemma bind_quic_ok io config policy runtime_policy srv :
  finite_policy runtime_policy → bind_quic_profile io config policy runtime_policy = Ok srv →
  bs_ingress srv = QuicIngress (control_idle (timeouts runtime_policy))
                     (active_connections_per_session (limits runtime_policy) + 1) ∧
  bs_token srv = sc_token config ∧ bs_context srv = AcceptContext_new policy runtime_policy.
Proof.
  intros [Hlim _]. unfold limit_values in Hlim. rewrite !Forall_cons_iff in Hlim.
  unfold bind_quic_profile. rewrite quic_stream_limit by tauto. simpl.
  destruct (bi_quic io _) as [[addr|]|]; simpl; try done. by intros [= <-].
Qed.

Lemma server_bind_ok io b srv :
  policy_typed (sb_runtime_policy b) → ServerBuilder_bind io b = Ok srv →
  finite_policy (sb_runtime_policy b) ∧ BindPolicy_validate (sb_bind_policy b) = Ok tt ∧
  configured_ingress b (bs_ingress srv) ∧ bs_token srv = sc_token (sb_config b) ∧
  bs_context srv = AcceptContext_new (sb_bind_policy b) (sb_runtime_policy b).
Proof.
  intros [Hl Ht]. unfold ServerBuilder_bind, configured_ingress.
  destruct (ServerBuilder_validate b) as [[]|] eqn:Ev; [simpl|done].
  apply validate_server_profile_ok in Ev as (Hr & Hb & _ & Hca).
  assert (finite_policy (sb_runtime_policy b)) as Hfin by (by apply validate_finite).
  intros Hs. split; [done|]. split; [done|]. unfold bind_profile in Hs.
  destruct (sb_trusted_client_ca b) as [ca|].
  - destruct (Hca ca eq_refl) as [Hlen Hprof]. rewrite Hprof in *.
    destruct (build_mtls_server_config _ _) as [tls|]; simpl in Hs; [|done].
    apply bind_with_tls_ok in Hs as (-> & -> & ->). naive_solver.
  - destruct (sb_profile b).
    + destruct (build_server_tls _) as [tls|]; simpl in Hs; [|done].
      apply bind_with_tls_ok in Hs as (-> & -> & ->). naive_solver.
    + by apply bind_quic_ok in Hs as (-> & -> & ->).
    + destruct (build_server_tls _) as [tls|]; simpl in Hs; [|done].
      apply bind_with_tls_ok in Hs as (-> & -> & ->). naive_solver.
Qed.
End bound.

(** ** Properties *)

(** C26. A client starts exactly as configured.  [ClientBuilder::start] succeeds
    if and only if [validate] accepts the builder, a runtime is there and the
    TLS material builds, and what it starts is what was asked for: with an
    identity, mutual TLS over TCP using that identity and nothing else; a
    proxy and a custom CA are in force whenever they are set, and QUIC is
    never started with an option it cannot honour; no setting is dropped
    silently.  From there on the supervisor is in a consistent state between
    any two Sessions, whatever happens. *)
Theorem client_starts_as_configured `{Libraries} runtime b :
  policy_typed (cb_policy b) →
  (∀ c, ClientBuilder_start runtime b = Ok c ↔
     ClientBuilder_validate b = Ok tt ∧ runtime = true ∧ ∃ t, configured_transport b t ∧ c = started b t) ∧
  (∀ c token closed d, ClientBuilder_start runtime b = Ok c →
     rtc (drive_step token closed) (Running (cl_supervisor c) (cl_counters c)) d →
     finite_policy (cb_policy b) ∧ between (cb_policy b) (drive_supervisor d) (drive_counters d)).
Proof.
  intros [Hl Ht]. split; [apply client_start_iff|].
  intros c token closed d (Hv & _ & t & _ & ->)%client_start_iff Hd.
  apply validate_client_profile_ok in Hv as (Hp & (_ & _ & _ & Hn & Hi & Hnm & _)%client_validate_config_ok & _).
  apply validate_finite in Hp; [|done..]. split; [done|]. eapply drive_between; [done..|].
  pose proof (policy_reconnect _ Hp). split; [split; try done; [by apply new_wf|simpl; lia]|done..].
Qed.

(** C27. A server binds exactly what its builder was told, and is sound from
    there.  However the builder's settings were made, a server that binds has
    a valid finite policy and a valid bind policy whose public switch is that
    of the configuration; when a client CA is set it accepts TCP connections
    only under mutual TLS with exactly those roots, and without one it never
    claims a peer identity; its accept loop starts with that policy, and every
    state it reaches satisfies the server's invariant (Sessions, services,
    pending connections and handshakes accounted for). *)
Theorem server_binds_as_configured `{Libraries} config b io srv :
  rtc builder_step (ServerBuilder_new config) b → policy_typed (sb_runtime_policy b) →
  ServerBuilder_bind io b = Ok srv →
  finite_policy (sb_runtime_policy b) ∧ BindPolicy_validate (sb_bind_policy b) = Ok tt ∧
  allow_public_addresses (sb_bind_policy b) = sc_allow_public_service_binds (sb_config b) ∧
  configured_ingress b (bs_ingress srv) ∧
  (∀ x, rtc (ingress_step (listening (bs_ingress srv))) (bs_context srv) x → ingress_inv (sb_bind_policy b) (sb_runtime_policy b) x).
Proof.
  intros Hb Ht (Hf & Hv & Hc & _ & Hx)%server_bind_ok; [|done]. split_and!; try done.
  - by eapply builder_public.
  - intros x. rewrite Hx. intros Hr. by destruct (ingress_reachable _ _ _ _ Hf Hr).
Qed.

(** Each constructor of [Client] runs what its name says.  The plain ones are
    those with a connector, at the default TCP connector; what they start uses
    the connector given, and speaks TCP, WebSocket or QUIC, through exactly the
    proxy parsed from the chain and under exactly the identity given. *)
Theorem constructors_as_named `{Libraries} runtime config connector chain identity :
  Client_start runtime config = start_with_connector runtime config TcpTargetConnector ∧
  start_websocket runtime config = start_websocket_with_connector runtime config TcpTargetConnector ∧
  start_quic runtime config = start_quic_with_connector runtime config TcpTargetConnector ∧
  start_with_outbound_proxy runtime config chain =
    start_with_outbound_proxy_and_connector runtime config chain TcpTargetConnector ∧
  start_websocket_with_outbound_proxy runtime config chain =
    start_websocket_with_outbound_proxy_and_connector runtime config chain TcpTargetConnector ∧
  start_with_mtls runtime config identity =
    start_with_mtls_and_connector runtime config identity TcpTargetConnector ∧
  ∀ c,
  let speaks kind proxied := cl_connector c = connector ∧ ∃ endpoint tls proxy,
    parse_optional_proxy proxied = Ok proxy ∧ build_tls_config (cc_ca_pem config) = Ok tls ∧
    cl_transport c = StreamTransport endpoint (cc_tls_server_name config) tls kind proxy in
  (start_with_connector runtime config connector = Ok c → speaks false None) ∧
  (start_websocket_with_connector runtime config connector = Ok c → speaks true None) ∧
  (start_with_outbound_proxy_and_connector runtime config chain connector = Ok c → speaks false (Some chain)) ∧
  (start_websocket_with_outbound_proxy_and_connector runtime config chain connector = Ok c →
     speaks true (Some chain)) ∧
  (start_quic_with_connector runtime config connector = Ok c → cl_connector c = connector ∧
     ∃ endpoint streams, cl_transport c = QuicTransport endpoint (cc_tls_server_name config) false streams) ∧
  (start_with_mtls_and_connector runtime config identity connector = Ok c → cl_connector c = connector ∧
     ∃ endpoint tls, build_mtls_tls_config config identity = Ok tls ∧
       cl_transport c = StreamTransport endpoint (cc_tls_server_name config) tls false None).
Proof.
  do 6 (split; [done|]). intros c. cbv zeta.
  split_and!; intros (_ & _ & t & (endpoint & _ & Ht) & ->)%client_start_iff; simpl in *; naive_solver.
Qed.

(** A client that cannot reach its server keeps trying.  For a TCP, TLS or
    WebSocket transport, a failed attempt to establish stops the client for
    good exactly when the outbound proxy refused its credentials or its policy;
    a QUIC transport under a valid policy never stops it, and closing it
    releases exactly the client it owns and empties the handle's slot. *)
Theorem establishment_retried p via_proxy websocket io dial q :
  finite_policy p →
  (∀ e, establish_stream via_proxy websocket io = Err e →
     terminal e = true ↔
     via_proxy = true ∧ es_cancelled io = false ∧
     (nw_proxied (es_network io) = Err ProxyAuthentication ∨ nw_proxied (es_network io) = Err ProxyPolicy)) ∧
  (∀ e q', establish_quic (client_open_tasks (limits p)) dial q = (Err e, q') → terminal e = false) ∧
  (close_quic (establish_quic (client_open_tasks (limits p)) dial q).2).2 = mkQuicState None None.
Proof.
  intros Hp. destruct (policy_limits p Hp) as (_ & Ho & _). split_and!; [| |done].
  - intros e. unfold establish_stream, connect_tcp.
    destruct (es_cancelled io); simpl; [intros [= <-]; naive_solver|].
    destruct via_proxy; [destruct (nw_proxied _) as [[]|[]]|destruct (nw_direct _) as [[[]|k]|]]; simpl;
      try (intros [= <-]; naive_solver);
      destruct (es_tls io) as [| |[[]|[]]]; simpl; try (intros [= <-]; naive_solver);
      destruct websocket; simpl; try done; destruct (es_websocket io) as [[[]|[]]|]; simpl;
      try done; intros [= <-]; naive_solver.
  - intros e q'. unfold establish_quic, try_into. rewrite (proj2 (fits_iff 32 _)) by lia.
    destruct dial as [[c|]| |c|c|c]; by intros [= <- _].
Qed.

(** PEM material is bounded and unambiguous: [certificates] accepts a text
    exactly when all its certificate sections parse and there are 1 to 32 of
    them, and returns all of them in order; [private_key] accepts a text
    exactly when it is within the size limit and holds one key section, which
    parses. *)
Theorem pem_material_exact `{Libraries} pem :
  (∀ certs, certificates pem = Ok certs ↔ pem_certs pem = Ok <$> certs ∧ 1 <= len certs <= 32) ∧
  (∀ key, private_key pem = Ok key ↔ len pem <= MAX_FRAME_BYTES ∧ pem_keys pem = [Ok key]).
Proof.
  split; [intros certs; apply certificates_ok|].
  intros key. unfold private_key. destruct (MAX_FRAME_BYTES <? len pem) eqn:E; simpl; bools; [split; [done|lia]|].
  destruct (pem_keys pem) as [|[k|[]] [|r l]]; naive_solver.
Qed.

(** ** Witnesses, over libraries that read each byte as one PEM section *)

Definition sample_libraries : Libraries :=
  {| Cert := byte; Key := byte; Roots := list byte; Verifier := list byte;
     ClientTls := option Pem; ServerConfigTls := list byte; Proxy := rstr;
     pem_certs pem := Ok <$> pem;
     pem_keys pem := Ok <$> pem;
     no_roots := []; platform_roots := [];
     add_root roots c := Some (roots ++ [c]);
     client_tls ca := Some ca;
     client_auth_tls roots certs _ := Some (Some (roots ++ certs));
     server_tls certs _ := Some certs;
     client_verifier roots := Some roots;
     verified_tls verifier _ _ := Some verifier;
     from_pproxy_uri chain := Some chain |}.

Definition sample_client_config : ClientConfig :=
  mkClientConfig (lit "tunnel.example:443") (lit "tunnel.example") (Some [Byte.x01])
    (mkSecretToken sample_token) [web].

Definition sample_builder : ClientBuilder :=
  with_identity (mkClientIdentity [Byte.x02] [Byte.x03]) (ClientBuilder_new sample_client_config).

Lemma default_typed : policy_typed RuntimePolicy_default.
Proof. split; repeat constructor; vm_compute; discriminate. Qed.

Lemma client_starts_as_configured_witness :
  ∃ c, @ClientBuilder_start sample_libraries true sample_builder = Ok c ∧
    @ClientBuilder_validate sample_libraries sample_builder = Ok tt.
Proof.
  assert (is_ok (@ClientBuilder_start sample_libraries true sample_builder) = true) as E by (vm_compute; reflexivity).
  destruct (@ClientBuilder_start sample_libraries true sample_builder) as [c|] eqn:Es; [|discriminate].
  exists c. split; [reflexivity|].
  pose proof (@client_starts_as_configured sample_libraries true sample_builder default_typed) as [H _].
  exact (proj1 (proj1 (H c) Es)).
Defined.

Definition sample_server_config : ServerConfig :=
  mkServerConfig (V4 [Byte.x7f; Byte.x00; Byte.x00; Byte.x01] 8443) [Byte.x01] [Byte.x02]
    (mkSecretToken sample_token) false.

Definition sample_bind_io : BindIo := mkBindIo true (fun addr => Ok (Ok addr)) (fun addr => Ok (Ok addr)).

Definition sample_server_builder : ServerBuilder :=
  client_ca_pem [Byte.x07] (ServerBuilder_new sample_server_config).

Lemma server_binds_as_configured_witness :
  ∃ srv, @ServerBuilder_bind sample_libraries sample_bind_io sample_server_builder = Ok srv ∧
    @configured_ingress sample_libraries sample_server_builder (bs_ingress srv).
Proof.
  assert (is_ok (@ServerBuilder_bind sample_libraries sample_bind_io sample_server_builder) = true) as E
    by (vm_compute; reflexivity).
  destruct (@ServerBuilder_bind sample_libraries sample_bind_io sample_server_builder) as [srv|] eqn:Es;
    [|discriminate].
  exists srv. split; [reflexivity|].
  refine (proj1 (proj2 (proj2 (proj2 (@server_binds_as_configured sample_libraries sample_server_config
    sample_server_builder sample_bind_io srv _ default_typed Es))))).
  apply rtc_once, B_client_ca.
Defined.

Lemma establishment_retried_witness :
  terminal TE_Authentication = true ↔
  true = true ∧ false = false ∧
  (Err ProxyAuthentication = (Err ProxyAuthentication : result _ unit) ∨
   Err ProxyAuthentication = (Err ProxyPolicy : result _ unit)).
Proof.
  apply (establishment_retried RuntimePolicy_default true false
    (mkEstablishIo false (mkNetwork (Err ProxyAuthentication) Pending) StageTimeout Pending) DialFailed
    (mkQuicState None None) default_finite). reflexivity.
Defined.

Lemma pem_material_exact_witness : @certificates sample_libraries [Byte.x01; Byte.x02] = Ok [Byte.x01; Byte.x02].
Proof.
  apply (@pem_material_exact sample_libraries [Byte.x01; Byte.x02]). split; [reflexivity|vm_compute; split; discriminate].
Defined.
