(* ===== verification/Lifecycle.v ===== *)
(** * Owners and handles: [Client], [Server] and their handles in
      crates/eggtunnel/src/client.rs and server.rs

    A started client or a bound server is a task, an owner that can wait for
    it and any number of cloned handles, which share one cancellation token and
    the counters.  The files below model the task; here it runs beside its
    owner, from the start to the end of [shutdown]. *)

From S2P Require Import Prelude Text Proto Codec Varint Frame Common WireIo AuthLimiter Session Control Registry Directory Accept Drain.
From S2P Require Import Quic ServiceState Heartbeat ClientSession Reconnect Config.

(** ** The owner *)

(** [Held]: nobody has shut it down.  [Awaiting]: in [task.await] of
    [shutdown].  [Done]: [shutdown] has returned.  [Dropped]: the owner, or the
    future of its [shutdown], was dropped. *)
Inductive Owner := Held | Awaiting | Done | Dropped.

#[export] Instance Owner_eq_dec : EqDecision Owner.
Proof. solve_decision. Defined.

(** ** A server over TCP *)

(** The task runs [server_loop]: the accept loop, the loop of [drain] with its
    deadline, the joins at its end, and the return. *)
Inductive ServerTask :=
| Listens (x : AcceptContext)
| Drains (deadline : Z) (d : Draining)
| Reaps (x : AcceptContext)
| Returned (x : AcceptContext).

(** [sv_now] is the runtime's clock, from the start of the server. *)
Record ServerLife := mkServerLife { sv_now : Z; sv_cancelled : bool; sv_task : ServerTask; sv_owner : Owner }.

Definition Server_start `{Libraries} (srv : BoundServer) : ServerLife := mkServerLife 0 false (Listens (bs_context srv)) Held.

Definition task_context (t : ServerTask) : AcceptContext :=
  match t with Listens x | Reaps x | Returned x => x | Drains _ d => dr_context d end.
Definition task_counters (t : ServerTask) : Counters := counters (w_server (ac_world (task_context t))).

(** Every handle sees the same counters and cancels the same token. *)
Definition ServerHandle_snapshot (now : Z) (v : ServerLife) : Snapshot := snapshot now (task_counters (sv_task v)).
Definition ServerHandle_effective_binds (v : ServerLife) : list BindEntry :=
  bind_table_shared (task_counters (sv_task v)).
Definition ServerHandle_shutdown (v : ServerLife) : ServerLife :=
  mkServerLife (sv_now v) true (sv_task v) (sv_owner v).

(** [Server::shutdown] up to its [await], and [Drop for Server]. *)
Definition Server_shutdown (v : ServerLife) : ServerLife := mkServerLife (sv_now v) true (sv_task v) Awaiting.
Definition Server_drop (v : ServerLife) : ServerLife := mkServerLife (sv_now v) true (sv_task v) Dropped.

(** The loop of [drain] begins: its deadline is fixed here. *)
Definition drain_begins (now : Z) (x : AcceptContext) : ServerTask :=
  Drains (now + shutdown_grace (timeouts (ctr_policy (counters (w_server (ac_world x)))))) (drain_start x).

(** What can happen next.  The loop of [drain] takes its own steps by the clock
    ([S_drains]), and the server around it goes on ([S_around]).  [S_gone] is
    the end of the service tasks that the drain has aborted with their
    Sessions. *)
Inductive server_life : ServerLife → ServerLife → Prop :=
| S_time t t' k w o : t <= t' → server_life (mkServerLife t k w o) (mkServerLife t' k w o)
| S_handle v : server_life v (ServerHandle_shutdown v)
| S_shutdown v : sv_owner v = Held → server_life v (Server_shutdown v)
| S_drop v : sv_owner v = Held ∨ sv_owner v = Awaiting → server_life v (Server_drop v)
| S_serves t k x x' o :
    ingress_step OverTcp x x' → server_life (mkServerLife t k (Listens x) o) (mkServerLife t k (Listens x') o)
| S_breaks t x o : server_life (mkServerLife t true (Listens x) o) (mkServerLife t true (drain_begins t x) o)
| S_drains t k deadline d room d' o :
    drain_next room (deadline <=? t) d = Some d' →
    server_life (mkServerLife t k (Drains deadline d) o) (mkServerLife t k (Drains deadline d') o)
| S_around t k deadline d d' o :
    drain_step OverTcp d d' → dr_steps d' = dr_steps d →
    server_life (mkServerLife t k (Drains deadline d) o) (mkServerLife t k (Drains deadline d') o)
| S_aborts t k deadline d o :
    dr_phase d = D_reap →
    server_life (mkServerLife t k (Drains deadline d) o) (mkServerLife t k (Reaps (reap_start (dr_context d))) o)
| S_reaps t k x x' o :
    reap_step x x' → server_life (mkServerLife t k (Reaps x) o) (mkServerLife t k (Reaps x') o)
| S_returns t k x o :
    handlers_left x = 0%nat → server_life (mkServerLife t k (Reaps x) o) (mkServerLife t k (Returned x) o)
| S_gone t k x o : server_life (mkServerLife t k (Returned x) o) (mkServerLife t k (Returned (tasks_gone x)) o)
| S_joined t k x : server_life (mkServerLife t k (Returned x) Awaiting) (mkServerLife t k (Returned x) Done).

(** *** Time

    An execution is a sequence of states, each one step (or none) after the
    last.  It is [responsive] when the runtime serves the task within [delay]:
    the accept loop sees the cancellation, the drain goes on when it is woken
    by a registration or by its timer, of the handlers it has aborted another
    one is over, [join_next] returns once none is left, and so does a caller
    that waits for the task. *)
Definition execution_of (e : nat → ServerLife) : Prop := ∀ n, stutters server_life (e n) (e (S n)).

Definition by_time (limit : Z) (e : nat → ServerLife) (n : nat) (Q : ServerLife → Prop) : Prop :=
  ∃ m, (n <= m)%nat ∧ sv_now (e m) <= limit ∧ Q (e m).

(** When the loop of the drain is woken, if nothing registers. *)
Definition wakes_at (now deadline : Z) (d : Draining) : Z :=
  match dr_phase d with
  | D_wait => if dr_changed d then now else Z.max now deadline
  | _ => now
  end.

Record responsive (delay : Z) (e : nat → ServerLife) : Prop :=
  { rs_accept n x : sv_task (e n) = Listens x → sv_cancelled (e n) = true →
      by_time (sv_now (e n) + delay) e n (fun v => ∀ y, sv_task v ≠ Listens y);
    rs_drain n deadline d : sv_task (e n) = Drains deadline d →
      by_time (wakes_at (sv_now (e n)) deadline d + delay) e n
        (fun v => ∀ deadline' d', sv_task v = Drains deadline' d' → (dr_steps d < dr_steps d')%nat);
    rs_reap n x : sv_task (e n) = Reaps x →
      by_time (sv_now (e n) + delay) e n
        (fun v => ∀ x', sv_task v = Reaps x' → (handlers_left x' < handlers_left x)%nat);
    rs_await n x : sv_task (e n) = Returned x → sv_owner (e n) = Awaiting →
      by_time (sv_now (e n) + delay) e n (fun v => sv_owner v ≠ Awaiting) }.

(** ** The end of a QUIC server *)

(** [drain] after its wait, over QUIC: the live Sessions are cancelled and the
    handlers aborted, but a control task is a task of its own, and aborting
    its handler only lets go of it. *)
Definition quic_drain_end (v : QuicServer) : QuicServer :=
  let x := qv_context v in
  let x1 := set_world (mkWorld (force_cancel (w_server (ac_world x))) (w_controls (ac_world x))) x in
  mkQuicServer (foldr abort_handler x1 (qv_handlers v)) [] ((qv_handlers v ≫= left_behind) ++ qv_detached v).

(** ** A client *)

Record ClientLife := mkClientLife { cf_cancelled : bool; cf_drive : Drive; cf_owner : Owner }.

Definition Client_begin `{Libraries} (c : Client) : ClientLife :=
  mkClientLife false (Running (cl_supervisor c) (cl_counters c)) Held.

Definition ClientHandle_snapshot (now : Z) (f : ClientLife) : Snapshot := snapshot now (drive_counters (cf_drive f)).
Definition ClientHandle_shutdown (f : ClientLife) : ClientLife := mkClientLife true (cf_drive f) (cf_owner f).
Definition Client_shutdown (f : ClientLife) : ClientLife := mkClientLife true (cf_drive f) Awaiting.
Definition Client_drop (f : ClientLife) : ClientLife := mkClientLife true (cf_drive f) Dropped.

Section client.
Variable token : SecretToken.
Variable closed : Sender → bool.

Inductive client_life : ClientLife → ClientLife → Prop :=
| C_handle f : client_life f (ClientHandle_shutdown f)
| C_shutdown f : cf_owner f = Held → client_life f (Client_shutdown f)
| C_drop f : cf_owner f = Held ∨ cf_owner f = Awaiting → client_life f (Client_drop f)
| C_drives k d d' o :
    drive_step token closed d d' → client_life (mkClientLife k d o) (mkClientLife k d' o)
| C_joined k v c : client_life (mkClientLife k (Stopped v c) Awaiting) (mkClientLife k (Stopped v c) Done).
End client.

(** *** Calls through a handle

    The receiver of the command queue is a local of the task, so it is dropped
    when the supervisor returns: a send fails from then on and not before. *)
Definition queue_closed (f : ClientLife) : bool :=
  match cf_drive f with Stopped _ _ => true | Running _ _ => false end.

(** The branches of the two [select!]s of a call that can be ready. *)
Definition sending_ready (f : ClientLife) (sending : Sending) : Prop :=
  match sending with
  | SendCancelled => cf_cancelled f = true
  | SendClosed => queue_closed f = true
  | Sent => queue_closed f = false
  end.
Definition answer_ready {A} (f : ClientLife) (answer : Answer A) : Prop :=
  match answer with
  | AnswerCancelled => cf_cancelled f = true
  | AnswerDropped | Answered _ => True
  end.

(** How a call can end that is made at [f] and, once it is sent, answered at
    [f1]. *)
Definition ClientHandle_unregister_service (f f1 : ClientLife) (r : result TunnelError unit) : Prop :=
  ∃ sending answer, sending_ready f sending ∧ answer_ready f1 answer ∧ r = handle_unregister_service sending answer.
Definition ClientHandle_register_service (f f1 : ClientLife) (r : result TunnelError EffectiveBind) : Prop :=
  ∃ sending answer, sending_ready f sending ∧ answer_ready f1 answer ∧
    r = handle_register_service (drive_counters (cf_drive f)) sending answer.

(** ** Lemmas: the server *)

(** What holds at every moment of a server's life. *)
Definition task_inv bp p (now : Z) (k : bool) (t : ServerTask) : Prop :=
  match t with
  | Listens x => rtc (ingress_step OverTcp) (AcceptContext_new bp p) x
  | Drains deadline d =>
      k = true ∧ deadline <= now + shutdown_grace (timeouts p) ∧
      ∃ x, rtc (ingress_step OverTcp) (AcceptContext_new bp p) x ∧ rtc (drain_step OverTcp) (drain_start x) d
  | Reaps x => k = true ∧ ingress_inv bp p x ∧ within_ceiling p (ac_world x)
  | Returned x => k = true ∧ ingress_inv bp p x ∧ w_controls (ac_world x) = ∅ ∧ ac_handshaking x = 0%nat
  end.

Definition life_inv bp p (v : ServerLife) : Prop :=
  task_inv bp p (sv_now v) (sv_cancelled v) (sv_task v) ∧ (sv_owner v ≠ Held → sv_cancelled v = true) ∧
  (sv_owner v = Done → ∃ x, sv_task v = Returned x).

Section server_lemmas.
Variables (bp : BindPolicy) (p : RuntimePolicy).
Hypothesis finite : finite_policy p.

Lemma cancelled_inv t k w : task_inv bp p t k w → task_inv bp p t true w.
Proof. destruct w; simpl; naive_solver. Qed.

Lemma later_inv t t' k w : t <= t' → task_inv bp p t k w → task_inv bp p t' k w.
Proof. intros Ht. destruct w; simpl; try done. intros (-> & Hd & H). split_and!; [done|lia|done]. Qed.

Lemma no_handlers x : handlers_left x = 0%nat → w_controls (ac_world x) = ∅ ∧ ac_handshaking x = 0%nat.
Proof. unfold handlers_left. intros H. split; [apply map_size_empty_inv; lia|lia]. Qed.

Lemma server_life_inv v v' : server_life v v' → life_inv bp p v → life_inv bp p v'.
Proof.
  intros Hs (Ht & Ho & Hd).
  destruct Hs as [t t' k w o Hle|v|v Hv|v Hv|t k x x' o Hs|t x o|t k dl d room d' o Hn|t k dl d d' o Hs _
    |t k dl d o Hp|t k x x' o Hs|t k x o Hl|t k x o|t k x]; simpl in *;
    (split_and!; simpl; [|try done; by intros; apply Ho|try done; intros Hd'; try (by destruct (Hd Hd')); by eexists]).
  - by eapply later_inv.
  - exact (cancelled_inv _ _ _ Ht).
  - exact (cancelled_inv _ _ _ Ht).
  - exact (cancelled_inv _ _ _ Ht).
  - by eapply rtc_r.
  - split_and!; [done| |by exists x]. destruct (ingress_reachable _ _ _ _ finite Ht) as [[_ [-> _ _ _ _] _ _ _ _ _] _]. lia.
  - destruct Ht as (-> & Hdl & x & Hx & Hr). split_and!; [done..|]. exists x. split; [done|].
    eapply rtc_r; [done|by eapply DR_own].
  - destruct Ht as (-> & Hdl & x & Hx & Hr). split_and!; [done..|]. exists x. split; [done|by eapply rtc_r].
  - destruct Ht as (-> & _ & x & Hx & Hr). destruct (drain_reachable _ _ _ _ _ finite Hx Hr) as ([Hi _ _ _ _ _] & _ & Hc).
    split_and!; [done|by apply reap_start_inv|]. apply (ingress_reachable_ceiling _ _ _ _ finite) in Hc.
    destruct (dr_context d) as [[s ks] lim bp0 n h]. eapply unseen_ceiling; [apply force_cancel_unseen|exact Hc].
  - destruct Ht as (-> & Hi & Hc). split_and!; [done|by eapply reap_step_inv|by eapply reap_step_ceiling].
  - destruct Ht as (-> & Hi & _). split_and!; [done..| |]; by apply no_handlers.
  - destruct Ht as (-> & Hi & Hc & Hh). split_and!; try done.
    apply rtc_arm_inv; [done|]. by apply reap_contexts_run.
  - exact Ht.
Qed.

Lemma server_life_reachable `{Libraries} v srv :
  bs_context srv = AcceptContext_new bp p → rtc server_life (Server_start srv) v → life_inv bp p v.
Proof.
  intros Hx Hr. refine (rtc_ind_r (life_inv bp p) _ _ _ _ Hr); [|intros; by eapply server_life_inv].
  unfold Server_start. rewrite Hx. split; [apply rtc_refl|by split].
Qed.
End server_lemmas.

(** ** Lemmas: time *)

(** What only moves one way: the clock, the token, the stages of the task, the
    deadline once it is fixed, the steps a drain has left, the owner. *)
Definition stage (t : ServerTask) : nat :=
  match t with Listens _ => 0 | Drains _ _ => 1 | Reaps _ => 2 | Returned _ => 3 end.

Record onward (v v' : ServerLife) : Prop :=
  { on_now : sv_now v <= sv_now v';
    on_cancelled : sv_cancelled v = true → sv_cancelled v' = true;
    on_stage : (stage (sv_task v) <= stage (sv_task v'))%nat;
    on_drain dl d dl' d' : sv_task v = Drains dl d → sv_task v' = Drains dl' d' →
      dl' = dl ∧ (dr_steps d' + drain_measure d' <= dr_steps d + drain_measure d)%nat;
    on_owner : sv_owner v ≠ Held → sv_owner v' ≠ Held }.

#[export] Instance onward_refl : Reflexive onward.
Proof. intros v. split; try done; try lia. intros dl d dl' d' E. rewrite E. by intros [= <- <-]. Qed.

#[export] Instance onward_trans : Transitive onward.
Proof.
  intros x y z [A1 A2 A3 A4 A5] [B1 B2 B3 B4 B5]. split; try lia; try tauto.
  intros dl d dl' d' Ex Ez. destruct (sv_task y) as [a|dly dy|a|a] eqn:Ey; rewrite Ex, Ez in *; simpl in *; try lia.
  destruct (A4 dl d dly dy) as [-> H1]; [done..|]. destruct (B4 dl dy dl' d') as [-> H2]; [done..|]. split; [done|lia].
Qed.

Lemma server_life_onward v v' : server_life v v' → onward v v'.
Proof.
  destruct 1 as [t t' k w o Hle|v|v Hv|v Hv|t k x x' o Hs|t x o|t k dl d room d' o Hn|t k dl d d' o Hs _
    |t k dl d o Hp|t k x x' o Hs|t k x o Hl|t k x o|t k x]; (split; simpl; [lia|done|lia| |naive_solver]);
    intros dl1 d1 dl2 d2 E1 E2; simplify_eq; try done; try (split; [done|lia]).
  - destruct (sv_task v); naive_solver.
  - destruct (sv_task v); naive_solver.
  - destruct (sv_task v); naive_solver.
  - apply drain_next_measure in Hn as (_ & Hs & Hm). split; [done|lia].
  - split; [done|]. by eapply drain_step_measure.
Qed.

Section time.
Variables (bp : BindPolicy) (p : RuntimePolicy) (delay : Z) (e : nat → ServerLife).
Hypothesis finite : finite_policy p.
Hypothesis delayed : 0 <= delay.
Hypothesis run : execution_of e.
Hypothesis start : life_inv bp p (e 0%nat).
Hypothesis prompt : responsive delay e.

Lemma life_inv_at n : life_inv bp p (e n).
Proof. induction n as [|n IH]; [done|]. destruct (run n) as [->|Hs]; [done|]. by eapply server_life_inv. Qed.

Lemma life_onward n m : (n <= m)%nat → onward (e n) (e m).
Proof.
  induction 1 as [|m _ IH]; [done|]. etransitivity; [exact IH|].
  destruct (run m) as [->|Hs]; [done|]. by apply server_life_onward.
Qed.

Lemma life_run n : rtc server_life (e 0%nat) (e n).
Proof. induction n as [|n IH]; [done|]. etransitivity; [exact IH|]. apply stutters_rtc, run. Qed.

(** The drain is over: every move it makes leaves it fewer. *)
Lemma drain_over k n dl d :
  sv_task (e n) = Drains dl d → (drain_measure d <= k)%nat →
  by_time (Z.max (sv_now (e n)) dl + delay * (Z.of_nat k + 1)) e n (fun v => (2 <= stage (sv_task v))%nat).
Proof.
  revert n d. induction k as [|k IH]; intros n d Et Hm;
    destruct (rs_drain _ _ prompt n dl d Et) as (m & Hnm & Ht & Hmove); pose proof (life_onward _ _ Hnm) as Ho;
    (assert (wakes_at (sv_now (e n)) dl d <= Z.max (sv_now (e n)) dl) as Hw
       by (unfold wakes_at; destruct (dr_phase d), (dr_changed d); lia));
    (destruct (sv_task (e m)) as [x|dl' d'|x|x] eqn:Em;
      [exfalso; pose proof (on_stage _ _ Ho) as Hst; rewrite Et, Em in Hst; simpl in Hst; lia
      | |exists m; rewrite Em; split_and!; [done|lia|simpl; lia]..]);
    destruct (on_drain _ _ Ho _ _ _ _ Et Em) as [-> Hle]; specialize (Hmove _ _ eq_refl); [lia|].
  destruct (IH m d' Em) as (m' & Hmm & Ht' & Hst); [lia|]. exists m'. split_and!; [lia| |done].
  lia.
Qed.

(** The joins are over. *)
Lemma reap_over k n x :
  sv_task (e n) = Reaps x → (handlers_left x <= k)%nat →
  by_time (sv_now (e n) + delay * (Z.of_nat k + 1)) e n (fun v => stage (sv_task v) = 3%nat).
Proof.
  revert n x. induction k as [|k IH]; intros n x Et Hm;
    destruct (rs_reap _ _ prompt n x Et) as (m & Hnm & Ht & Hmove);
    pose proof (on_stage _ _ (life_onward _ _ Hnm)) as Hst; rewrite Et in Hst; simpl in Hst;
    destruct (sv_task (e m)) as [y|dl d|y|y] eqn:Em; simpl in Hst; try lia;
    try (exists m; rewrite Em; split_and!; [done|lia|done]); specialize (Hmove _ eq_refl); [lia|].
  destruct (IH m y Em) as (m' & Hmm & Ht' & Hs); [lia|]. exists m'. split_and!; [lia|lia|done].
Qed.

Lemma accept_over n :
  sv_cancelled (e n) = true → by_time (sv_now (e n) + delay) e n (fun v => (1 <= stage (sv_task v))%nat).
Proof.
  intros Hk. destruct (sv_task (e n)) as [x|dl d|x|x] eqn:Et;
    [|exists n; rewrite Et; split_and!; [lia|lia|simpl; lia]..].
  destruct (rs_accept _ _ prompt n x Et Hk) as (m & Hnm & Ht & Hq). exists m. split_and!; [done..|].
  destruct (sv_task (e m)) as [y| | |]; [by destruct (Hq y)|simpl; lia..].
Qed.

(** From the start of the drain to its end. *)
Lemma drained n :
  (1 <= stage (sv_task (e n)))%nat →
  by_time (sv_now (e n) + shutdown_grace (timeouts p) + delay * (3 * accepted_handshakes (limits p) + 4)) e n
    (fun v => (2 <= stage (sv_task v))%nat).
Proof.
  intros Hst. destruct (life_inv_at n) as [Hi _].
  assert (0 <= shutdown_grace (timeouts p)) as Hg.
  { destruct finite as (_ & Ht & _). unfold timeout_values in Ht. rewrite !Forall_cons_iff in Ht.
    assert (1 <= shutdown_grace (timeouts p) <= from_secs 86400) by tauto. lia. }
  assert (0 <= delay * (3 * accepted_handshakes (limits p) + 4)) as Hd.
  { destruct finite as (Hl & _). unfold limit_values in Hl. rewrite !Forall_cons_iff in Hl.
    assert (1 <= accepted_handshakes (limits p) <= 65536) by tauto. apply Z.mul_nonneg_nonneg; lia. }
  destruct (sv_task (e n)) as [x|dl d|x|x] eqn:Et; simpl in Hst;
    [lia| |exists n; rewrite Et; split_and!; [lia|lia|simpl; lia]..].
  destruct Hi as (_ & Hdl & x & Hx & Hr). destruct (drain_reachable _ _ _ _ _ finite Hx Hr) as (_ & Hm & _).
  destruct (ingress_reachable _ _ _ _ finite Hx) as [[_ _ _ _ _ Ha Hf] _].
  destruct (drain_over (3 * ac_handshaking x + 3) n dl d Et) as (m & Hnm & Ht & Hs); [lia|].
  exists m. split_and!; [done| |done].
  assert (delay * (Z.of_nat (3 * ac_handshaking x + 3) + 1) <= delay * (3 * accepted_handshakes (limits p) + 4))
    by (apply Z.mul_le_mono_nonneg_l; lia). lia.
Qed.

Lemma reaped n :
  (2 <= stage (sv_task (e n)))%nat →
  by_time (sv_now (e n) + delay * (accepted_handshakes (limits p) + sessions_limit (limits p) + 1)) e n
    (fun v => stage (sv_task v) = 3%nat).
Proof.
  intros Hst. destruct (life_inv_at n) as [Hi _].
  assert (1 <= accepted_handshakes (limits p) ∧ 1 <= sessions_limit (limits p)) as [Hh Hs].
  { destruct finite as (Hl & _). unfold limit_values in Hl. rewrite !Forall_cons_iff in Hl. lia. }
  assert (0 <= delay * (accepted_handshakes (limits p) + sessions_limit (limits p) + 1)) as Hd
    by (apply Z.mul_nonneg_nonneg; lia).
  destruct (sv_task (e n)) as [x|dl d|x|x] eqn:Et; simpl in Hst; try lia;
    [|exists n; rewrite Et; split_and!; [lia|lia|done]].
  destruct Hi as (_ & Hi & Hc). pose proof (handlers_bound _ _ _ Hi Hc) as Hb.
  destruct (reap_over (handlers_left x) n x Et (le_n _)) as (m & Hnm & Ht & Hq). exists m. split_and!; [done| |done].
  assert (delay * (Z.of_nat (handlers_left x) + 1) <=
    delay * (accepted_handshakes (limits p) + sessions_limit (limits p) + 1)) by (apply Z.mul_le_mono_nonneg_l; lia).
  lia.
Qed.

(** A caller that waits is let go. *)
Lemma awaited n :
  stage (sv_task (e n)) = 3%nat →
  by_time (sv_now (e n) + delay) e n (fun v => stage (sv_task v) = 3%nat ∧ sv_owner v ≠ Awaiting).
Proof.
  intros Hst. destruct (decide (sv_owner (e n) = Awaiting)) as [Ho|Ho]; [|exists n; split_and!; [lia|lia|done..]].
  destruct (sv_task (e n)) as [x|dl d|x|x] eqn:Et; try done.
  destruct (rs_await _ _ prompt n x Et Ho) as (m & Hnm & Ht & Hq). exists m. split_and!; [done..| |done].
  pose proof (on_stage _ _ (life_onward _ _ Hnm)) as H. rewrite Et in H. destruct (sv_task (e m)); simpl in *; lia.
Qed.
End time.

(** ** Lemmas: the QUIC server *)

Section quic_lemmas.
Variables (again : PolledAgain) (max : Z) (bp : BindPolicy) (p : RuntimePolicy).
Hypothesis max_nonneg : 0 <= max.

Lemma abort_all_handlers l1 l x d :
  rtc (quic_server_step again max) (mkQuicServer x (l1 ++ l) d)
    (mkQuicServer (foldr abort_handler x l) l1 ((l ≫= left_behind) ++ d)).
Proof.
  revert l1. induction l as [|h l IH]; intros l1; simpl; [by rewrite app_nil_r|].
  eapply rtc_r; [rewrite (cons_middle h l1 l), (assoc_L (++)); apply IH|].
  pose proof (V_aborted again max (foldr abort_handler x l) h l1 [] ((l ≫= left_behind) ++ d)) as Hs.
  rewrite app_nil_r in Hs. by rewrite <-(assoc_L (++)).
Qed.

Lemma abort_handlers_tables l x :
  let y := foldr abort_handler x l in
  heap (w_server (ac_world y)) = heap (w_server (ac_world x)) ∧
  entries (w_server (ac_world y)) = entries (w_server (ac_world x)).
Proof. induction l as [|h l [IH1 IH2]]; simpl in *; [done|]. by destruct h. Qed.

Lemma quic_drain_end_inv v : quic_inv bp p max v → quic_inv bp p max (quic_drain_end v).
Proof.
  destruct v as [x l d]. intros Hq. unfold quic_drain_end. simpl. set (x1 := set_world _ x).
  assert (quic_inv bp p max (mkQuicServer x1 l d)) as H1.
  { apply (quic_inv_context bp p max x); [done|]. split; [|done|done].
    apply unseen_inv; [apply Hq|apply force_cancel_unseen]. }
  refine (rtc_ind_r (quic_inv bp p max) _ H1 _ _ (abort_all_handlers [] l x1 d)).
  intros. by eapply quic_server_step_inv.
Qed.

(** Every task can end: a handshake whose peer is gone fails, a loop that is
    told to stop returns. *)
Lemma task_can_end t x :
  Forall (fun sid => is_Some (w_controls (ac_world x) !! sid)) (task_sids t) → is_finished t = false →
  ∃ t' x', task_step t x t' x' ∧ is_finished t' = true.
Proof.
  intros Hs Hf. destruct t as [hello|sid|ended]; [| |done].
  - set (io := mkHandshakeIo (W_failed UnexpectedEof) Pending 0 W_timeout None true W_timeout).
    pose (a := base.fresh (dom (heap (w_server (ac_world x))))).
    eexists _, _. split.
    + apply (T_handshake hello x (fun _ _ => false) io [] (mkSecretToken []) 0 a). split; [|done].
      apply not_elem_of_dom, is_fresh.
    + unfold control_handshake, handshake. by destruct (negb _).
  - apply Forall_cons_iff in Hs as [[k Hk] _]. eexists _, _. split; [apply (T_return sid x None)|].
    unfold control_return. rewrite Hk. by destruct (teardown k _) as [[r l] s].
Qed.

Lemma detached_end d1 d2 x :
  quic_inv bp p max (mkQuicServer x [] (d1 ++ d2)) → Forall (fun t => is_finished t = true) d1 →
  ∃ x' d', rtc (quic_server_step again max) (mkQuicServer x [] (d1 ++ d2)) (mkQuicServer x' [] d') ∧
    Forall (fun t => is_finished t = true) d'.
Proof.
  revert d1 x. induction d2 as [|t d2 IH]; intros d1 x Hq Hd.
  - exists x, d1. rewrite app_nil_r. by split.
  - destruct (is_finished t) eqn:Ht.
    + rewrite (cons_middle t d1 d2), (assoc_L (++)) in *. apply IH; [done|]. by apply Forall_app_2; [|constructor].
    + destruct (task_can_end t x) as (t' & x' & Hs & Ht'); [|done|].
      { apply list.Forall_forall. intros sid Hsid. apply elem_of_running. rewrite (qi_sids _ _ _ _ Hq). simpl.
        apply list_elem_of_bind. exists t. split; [done|]. apply elem_of_app. right. by left. }
      pose proof (V_detached again max x [] t t' d1 d2 x' Hs) as Hstep.
      pose proof (quic_server_step_inv _ _ _ _ _ _ max_nonneg Hstep Hq) as Hq'.
      rewrite (cons_middle t' d1 d2), (assoc_L (++)) in Hq', Hstep.
      destruct (IH (d1 ++ [t']) x') as (y & d' & Hr & Hf); [done|by apply Forall_app_2; [|constructor]|].
      exists y, d'. split; [|done]. by eapply rtc_l.
Qed.

(** A server all of whose tasks are over. *)
Lemma quic_over_idle v :
  quic_inv bp p max v → qv_handlers v = [] → Forall (fun t => is_finished t = true) (qv_detached v) →
  w_controls (ac_world (qv_context v)) = ∅ ∧ ac_handshaking (qv_context v) = 0%nat.
Proof.
  destruct v as [x l d]. simpl. intros [_ Hn Hs _] -> Hf. simpl in *.
  assert (sum_list_with task_slots d = 0%nat ∧ d ≫= task_sids = []) as [E1 E2].
  { clear Hn Hs. induction Hf as [|t d Ht _ [IH1 IH2]]; [done|]. rewrite bind_cons, IH2. by destruct t. }
  rewrite E1 in Hn. rewrite E2 in Hs. split; [|done]. apply Permutation_nil_r in Hs.
  apply map_to_list_empty_iff. unfold running in Hs. by destruct (map_to_list _).
Qed.
End quic_lemmas.

(** ** Lemmas: the client *)

Definition client_inv p (f : ClientLife) : Prop :=
  between p (drive_supervisor (cf_drive f)) (drive_counters (cf_drive f)) ∧
  (cf_owner f ≠ Held → cf_cancelled f = true) ∧
  (cf_owner f = Done → ∃ v c, cf_drive f = Stopped v c).

Lemma client_life_reachable token closed p :
  finite_policy p → ∀ f f', rtc (client_life token closed) f f' → client_inv p f → client_inv p f'.
Proof.
  intros Hp f f' Hr Hf. refine (rtc_ind_r (client_inv p) _ Hf _ _ Hr).
  intros y z _ Hs (Hy & Hk & Hy'). destruct Hs as [g|g Hg|g Hg|k d d' o Hs|k v c]; simpl in *;
    try (split_and!; simpl; [done|done|naive_solver]).
  - split_and!; simpl; [by eapply (drive_step_between token closed _ Hp)|done|].
    intros Ho. destruct (Hy' Ho) as (v & c & ->). inversion Hs.
  - split_and!; simpl; [done|intros _; by apply Hk|by eexists _, _].
Qed.

Lemma client_stays_done token closed f f' v c :
  rtc (client_life token closed) f f' → cf_owner f = Done → cf_drive f = Stopped v c →
  cf_owner f' = Done ∧ cf_drive f' = Stopped v c.
Proof.
  intros Hr Hd Ed. refine (rtc_ind_r (fun f' => cf_owner f' = Done ∧ cf_drive f' = Stopped v c) _ (conj Hd Ed) _ _ Hr).
  intros y z _ Hs [Hy Hy']. destruct Hs as [g|g Hg|g Hg|k d d' o Hs|k v1 c1]; simpl in *; try naive_solver congruence.
  subst d. inversion Hs.
Qed.

(** Calls to a supervisor that has stopped. *)
Lemma stopped_register_calls f f1 r v c :
  cf_drive f = Stopped v c → load n_connected c = 0 →
  ClientHandle_register_service f f1 r ↔ r = Err TE_Disconnected.
Proof.
  intros Ed Hc. unfold ClientHandle_register_service, handle_register_service, sending_ready, queue_closed.
  rewrite Ed. simpl. rewrite Hc. split; [by intros (sending & answer & _ & _ & ->)|].
  intros ->. by exists SendClosed, AnswerDropped.
Qed.

Lemma stopped_unregister_calls f f1 r v c :
  cf_drive f = Stopped v c → cf_cancelled f = true →
  ClientHandle_unregister_service f f1 r ↔ r = Err TE_Cancelled ∨ r = Err TE_Disconnected.
Proof.
  intros Ed Hk. unfold ClientHandle_unregister_service, handle_unregister_service, sending_ready, queue_closed.
  rewrite Ed. split.
  - intros ([] & answer & Hs & _ & ->); [by left|by right|done].
  - intros [-> | ->]; [by exists SendCancelled, AnswerDropped|by exists SendClosed, AnswerDropped].
Qed.

(** ** Properties *)

(** C10. [Server::shutdown] does what it promises.  Take a server bound over TCP
    or WebSocket, with any number of handles, and let anybody cancel it, wait
    for it or drop it at any time.  The accept loop is left only after a
    cancellation; when [shutdown] has returned, the task is over, and from then
    on every handle reports no Session, no service, no handshake and no
    published address.  At every moment [effective_binds] is what a full
    snapshot shows. *)
Theorem server_shutdown_clean `{Libraries} io b srv v :
  policy_typed (sb_runtime_policy b) → ServerBuilder_bind io b = Ok srv → listening (bs_ingress srv) = OverTcp →
  rtc server_life (Server_start srv) v →
  (sv_cancelled v = false → ∃ x, sv_task v = Listens x ∧ sv_owner v = Held) ∧
  (∀ now, ServerHandle_effective_binds v = sn_effective_binds (ServerHandle_snapshot now v)) ∧
  (sv_owner v = Done → ∀ v' now, rtc server_life v v' →
     sv_owner v' = Done ∧ sv_cancelled v' = true ∧
     let shown := ServerHandle_snapshot now v' in
     sn_active_sessions shown = 0 ∧ sn_registered_services shown = 0 ∧ sn_active_handshakes shown = 0 ∧
     sn_effective_binds shown = []).
Proof.
  intros Ht Hb _ Hr. destruct (server_bind_ok _ _ _ Ht Hb) as (Hf & _ & _ & _ & Hx).
  pose proof (server_life_reachable _ _ Hf v srv Hx Hr) as (Hi & Ho & _). split_and!; [|done|].
  - intros Hk. rewrite Hk in *. destruct (sv_task v) as [x|dl d|x|x]; [|by destruct Hi..]. exists x. split; [done|].
    destruct (decide (sv_owner v = Held)); [done|]. by specialize (Ho ltac:(done)).
  - intros Hd v' now Hr'. assert (sv_owner v' = Done) as Hd'.
    { refine (rtc_ind_r (fun v' => sv_owner v' = Done) _ Hd _ _ Hr'). intros y z _ Hs Hy.
      destruct Hs; simpl in *; naive_solver congruence. }
    destruct (server_life_reachable _ _ Hf v' srv Hx) as (Hi' & Ho' & Hret); [by etransitivity|].
    destruct (Hret Hd') as [x Ex]. split_and!; [done|apply Ho'; by rewrite Hd'|..];
      unfold ServerHandle_snapshot, task_counters; rewrite Ex in *; simpl in *;
      destruct Hi' as (_ & Hx' & Hc & Hh); destruct (idle_clean _ _ _ Hx' Hc) as (_ & H2 & H3 & H4 & _); try done.
    by rewrite (gi_slots _ _ _ Hx'), Hh.
Qed.

(** C11. A cancelled server comes to its end, and in time.  Take any execution of
    a server bound over TCP or WebSocket in which the runtime serves the task
    within some [delay] ([responsive]): whatever peers, handlers and Sessions
    do, and at whatever stage the cancellation finds the task, it has returned
    at most [shutdown_grace] later, plus [delay] for each of its moves, whose
    number the policy bounds: three for each handshake that may still end and
    register a Session, one for each handler to be joined, and seven.  A caller
    that waits in [shutdown] is let go by then. *)
Theorem server_shutdown_completes `{Libraries} io b srv e delay n :
  policy_typed (sb_runtime_policy b) → ServerBuilder_bind io b = Ok srv → listening (bs_ingress srv) = OverTcp →
  e 0%nat = Server_start srv → execution_of e → 0 <= delay → responsive delay e →
  sv_cancelled (e n) = true →
  let p := sb_runtime_policy b in
  ∃ m x, (n <= m)%nat ∧ sv_task (e m) = Returned x ∧
    sv_now (e m) <= sv_now (e n) + shutdown_grace (timeouts p) +
      delay * (4 * accepted_handshakes (limits p) + sessions_limit (limits p) + 7) ∧
    sv_owner (e m) ≠ Awaiting ∧
    (sv_owner (e n) = Awaiting → sv_owner (e m) = Done ∨ sv_owner (e m) = Dropped).
Proof.
  intros Ht Hb _ H0 Hrun Hd Hp Hk p. destruct (server_bind_ok _ _ _ Ht Hb) as (Hf & _ & _ & _ & Hx).
  assert (life_inv (sb_bind_policy b) p (e 0%nat)) as Hi by (rewrite H0; by eapply server_life_reachable).
  destruct (accept_over _ _ Hd Hp n Hk) as (n1 & L1 & T1 & S1).
  destruct (drained _ p delay e Hf Hd Hrun Hi Hp n1 S1) as (n2 & L2 & T2 & S2).
  destruct (reaped _ p delay e Hf Hd Hrun Hi Hp n2 S2) as (n3 & L3 & T3 & S3).
  destruct (awaited delay e Hd Hrun Hp n3 S3) as (m & L4 & T4 & S4 & Ho).
  destruct (sv_task (e m)) as [x|dl d|x|x] eqn:Em; try done. exists m, x. split_and!; [lia|done|fold p in T2, T3; lia|done|].
  intros Hn. pose proof (on_owner _ _ (life_onward e Hrun n m ltac:(lia))) as Hh. rewrite Hn in Hh.
  destruct (sv_owner (e m)); [by destruct Hh|done|by left|by right].
Qed.

(** C14. What the shutdown of a QUIC server leaves, and how it ends.  Its drain
    aborts the handlers, but not the control tasks: exactly their Sessions
    still run when the drain returns, each of them told to stop.  Those tasks
    can always end, and once they have ended, no Session runs, the registry and
    the bind table are empty, and every handshake permit is back. *)
Theorem quic_shutdown_settles again bp p max v :
  finite_policy p → 0 <= max → rtc (quic_server_step again max) (QuicServer_new bp p) v →
  let v1 := quic_drain_end v in
  let s1 := w_server (ac_world (qv_context v1)) in
  let over v := qv_handlers v = [] ∧ Forall (fun t => is_finished t = true) (qv_detached v) in
  (∀ sid, is_Some (w_controls (ac_world (qv_context v1)) !! sid) ↔ Looping sid ∈ qv_detached v1) ∧
  (∀ sid a c, entries s1 !! sid = Some a → heap s1 !! a = Some c → sc_cancelled c = true) ∧
  (∃ v2, rtc (quic_server_step again max) v1 v2 ∧ over v2) ∧
  (∀ v2, rtc (quic_server_step again max) v1 v2 → over v2 →
     let s2 := w_server (ac_world (qv_context v2)) in
     w_controls (ac_world (qv_context v2)) = ∅ ∧ entries s2 = ∅ ∧ ctr_binds (counters s2) = [] ∧
     load n_sessions (counters s2) = 0 ∧ load n_handshakes (counters s2) = 0 ∧
     ac_admission (qv_context v2) = accepted_handshakes (limits p)).
Proof.
  intros Hp Hmax Hr v1 s1 over.
  pose proof (quic_drain_end_inv again max bp p Hmax v (quic_reachable _ _ _ _ _ Hp Hmax Hr)) as Hq. fold v1 in Hq.
  split_and!.
  - intros sid. rewrite <-elem_of_running, (qi_sids _ _ _ _ Hq). simpl. rewrite list_elem_of_bind. split.
    + intros (t & Ht & Hin). destruct t; simpl in Ht; try by apply elem_of_nil in Ht.
      by apply list_elem_of_singleton in Ht as ->.
    + intros Hin. exists (Looping sid). split; [by left|done].
  - intros sid a c Ha Hc. destruct v as [x l d]. unfold s1, v1 in *. simpl in Ha, Hc.
    destruct (abort_handlers_tables l (set_world (mkWorld (force_cancel (w_server (ac_world x))) (w_controls (ac_world x))) x))
      as [E1 E2]. rewrite E1 in Hc. rewrite E2 in Ha. simpl in *.
    eapply force_cancel_live; [|exact Hc]. rewrite force_cancel_entries in Ha. apply elem_of_values. by exists sid.
  - destruct (detached_end again max bp p Hmax [] (qv_detached v1) (qv_context v1)) as (x' & d' & Hrun & Hf); [done..|].
    eexists. split; [exact Hrun|]. by split.
  - intros v2 Hrun [Hl Hf].
    assert (quic_inv bp p max v2) as Hq2.
    { refine (rtc_ind_r (quic_inv bp p max) _ Hq _ _ Hrun). intros. by eapply quic_server_step_inv. }
    destruct (quic_over_idle max bp p v2 Hq2 Hl Hf) as [Hc Hh]. pose proof (qi_ingress _ _ _ _ Hq2) as Hi.
    destruct (idle_clean _ _ _ Hi Hc) as (H1 & H2 & H3 & _). cbv zeta.
    pose proof (gi_slots _ _ _ Hi) as Hs. pose proof (gi_admission _ _ _ Hi) as Ha. rewrite Hh in Hs, Ha.
    split_and!; try done. lia.
Qed.

(** C12. [Client::shutdown] leaves a client that does nothing and says so.  Take
    a client that has started, with any number of handles, and let anybody
    cancel it, wait for it or drop it.  When [shutdown] has returned, the
    supervisor has stopped for good, and its command queue is closed; from then
    on every handle reports a disconnected client without a Session, a service
    or a published address, and every call made through a handle returns: a
    registration with [Disconnected], a removal with [Cancelled] or
    [Disconnected], as its [select!] falls. *)
Theorem client_shutdown_clean `{Libraries} runtime b c closed f :
  policy_typed (cb_policy b) → ClientBuilder_start runtime b = Ok c →
  rtc (client_life (cl_token c) closed) (Client_begin c) f → cf_owner f = Done →
  ∀ f' now, rtc (client_life (cl_token c) closed) f f' →
  cf_owner f' = Done ∧ cf_drive f' = cf_drive f ∧ queue_closed f' = true ∧
  (let shown := ClientHandle_snapshot now f' in
   sn_connected shown = false ∧ sn_active_sessions shown = 0 ∧ sn_registered_services shown = 0 ∧
   sn_effective_binds shown = []) ∧
  (∀ f1 r, ClientHandle_register_service f' f1 r ↔ r = Err TE_Disconnected) ∧
  (∀ f1 r, ClientHandle_unregister_service f' f1 r ↔ r = Err TE_Cancelled ∨ r = Err TE_Disconnected).
Proof.
  intros Ht Hs Hr Hd f' now Hr'. apply client_start_iff in Hs as (Hv & _ & t & _ & ->).
  apply validate_client_profile_ok in Hv as (Hp & (_ & _ & _ & Hn & Hi & Hnm & _)%client_validate_config_ok & _).
  destruct Ht as [Hl Ht]. apply validate_finite in Hp; [|done..].
  assert (client_inv (cb_policy b) (Client_begin (started b t))) as H0.
  { pose proof (policy_reconnect _ Hp). split_and!; [|done..]. split; [split; try done; [by apply new_wf|simpl; lia]|done..]. }
  destruct (client_life_reachable (cl_token (started b t)) closed _ Hp _ _ Hr H0) as (_ & _ & Hst).
  destruct (Hst Hd) as (v & c & Ed). destruct (client_stays_done _ _ _ _ v c Hr' Hd Ed) as [Ho' Ed'].
  destruct (client_life_reachable (cl_token (started b t)) closed _ Hp _ _ (transitivity Hr Hr') H0)
    as (Hb & Hk & _). rewrite Ed' in Hb. simpl in Hb. destruct Hb as [[Ha1 Ha2 Ha3 Ha4 Ha5 Ha6] Hb1 Hb2 Hb3].
  specialize (Hk ltac:(by rewrite Ho')).
  unfold ClientHandle_snapshot, queue_closed. rewrite Ed, Ed'. simpl. split_and!; try done.
  - by rewrite Hb2.
  - intros f1 r. by apply stopped_register_calls with v c.
  - intros f1 r. by apply stopped_unregister_calls with v c.
Qed.

(** ** Witnesses *)

(** A server that accepts a connection and is then shut down and waited for. *)
Section sample_run.
Variables x0 x1 : AcceptContext.
Hypothesis accepts : ingress_step OverTcp x0 x1.
Hypothesis one_handler : ac_handshaking x1 = 1%nat.
Hypothesis no_session : w_controls (ac_world x1) = ∅.

Definition grace_of (x : AcceptContext) : Z := shutdown_grace (timeouts (ctr_policy (counters (w_server (ac_world x))))).
Hypothesis grace_nonneg : 0 <= grace_of x1.

Definition armed : Draining := drain_arm (drain_start x1).
Definition waiting_drain : Draining := drain_enumerate (fun _ => true) armed.
Definition woken : Draining :=
  mkDraining (dr_context waiting_drain) D_reap (dr_notified waiting_drain) (dr_sent waiting_drain)
    (dr_changed waiting_drain) (dr_passes waiting_drain) (S (dr_steps waiting_drain)).
Definition last_moment : ServerLife :=
  mkServerLife (0 + grace_of x1) true (Returned (abort_handshake (reap_start (dr_context woken)))) Done.

Definition sample_states : list ServerLife :=
  let waits t w := mkServerLife t true w Awaiting in
  let deadline := 0 + grace_of x1 in
  [mkServerLife 0 false (Listens x0) Held; mkServerLife 0 false (Listens x1) Held; waits 0 (Listens x1);
   waits 0 (Drains deadline (drain_start x1)); waits 0 (Drains deadline armed); waits 0 (Drains deadline waiting_drain);
   waits deadline (Drains deadline waiting_drain); waits deadline (Drains deadline woken);
   waits deadline (Reaps (reap_start (dr_context woken)));
   waits deadline (Reaps (abort_handshake (reap_start (dr_context woken))));
   waits deadline (Returned (abort_handshake (reap_start (dr_context woken))))].
Definition sample_life (n : nat) : ServerLife := default last_moment (sample_states !! n).

Lemma waiting_drain_facts :
  dr_phase waiting_drain = D_wait ∧ dr_changed waiting_drain = false ∧ dr_steps waiting_drain = 2%nat ∧
  dr_context waiting_drain = x1.
Proof. unfold waiting_drain, drain_enumerate. by destruct (drain_pass _ _ _). Qed.

Lemma sample_handlers :
  handlers_left (reap_start (dr_context woken)) = 1%nat ∧
  handlers_left (abort_handshake (reap_start (dr_context woken))) = 0%nat.
Proof.
  unfold handlers_left. destruct waiting_drain_facts as (_ & _ & _ & E). cbn [woken dr_context]. rewrite E. simpl.
  by rewrite one_handler, no_session, map_size_empty.
Qed.

Lemma sample_life_runs : execution_of sample_life.
Proof.
  destruct waiting_drain_facts as (Hp & Hc & _ & E). destruct sample_handlers as [H1 H0].
  intros n. destruct n as [|[|[|[|[|[|[|[|[|[|[|n]]]]]]]]]]]; [right..|by left].
  - by apply S_serves.
  - by apply S_shutdown.
  - exact (S_breaks 0 x1 Awaiting).
  - by apply (S_drains _ _ _ _ (fun _ => true)).
  - by apply (S_drains _ _ _ _ (fun _ => true)).
  - apply S_time. lia.
  - apply (S_drains _ _ _ _ (fun _ => true)). unfold drain_next, drain_await. rewrite Hp, Hc.
    rewrite (proj2 (Z.leb_le _ _)) by done. by rewrite <-Hc.
  - by apply S_aborts.
  - apply S_reaps, RP_handshake. cbn [woken dr_context]. rewrite E. simpl. lia.
  - by apply S_returns.
  - apply S_joined.
Qed.

Lemma sample_life_prompt : responsive 0 sample_life.
Proof.
  destruct waiting_drain_facts as (Hp & Hc & Hs & E). destruct sample_handlers as [H1 H0]. split.
  - intros n x. destruct n as [|[|[|[|[|[|[|[|[|[|[|n]]]]]]]]]]]; try done. intros _ _. exists 3%nat.
    split_and!; [lia|done..].
  - intros n dl d. destruct n as [|[|[|[|[|[|[|[|[|[|[|n]]]]]]]]]]]; try done; intros [= <- <-].
    + exists 4%nat. split_and!; [lia|done|]. intros dl' d' [= <- <-]. simpl. lia.
    + exists 5%nat. split_and!; [lia|done|]. intros dl' d' [= <- <-]. rewrite Hs. simpl. lia.
    + exists 7%nat. split_and!; [lia| |].
      * unfold wakes_at. rewrite Hp, Hc. simpl. lia.
      * intros dl' d' [= <- <-]. simpl. lia.
    + exists 7%nat. split_and!; [lia| |].
      * unfold wakes_at. rewrite Hp, Hc. simpl. lia.
      * intros dl' d' [= <- <-]. simpl. lia.
    + exists 8%nat. split_and!; [lia|unfold wakes_at; simpl; lia|done].
  - intros n x. destruct n as [|[|[|[|[|[|[|[|[|[|[|n]]]]]]]]]]]; try done; intros [= <-].
    + exists 9%nat. split_and!; [lia|simpl; lia|]. intros x' [= <-].
      change (handlers_left (abort_handshake (reap_start (dr_context woken))) < handlers_left (reap_start (dr_context woken)))%nat.
      rewrite H0, H1. lia.
    + exists 10%nat. split_and!; [lia|simpl; lia|done].
  - intros n x. destruct n as [|[|[|[|[|[|[|[|[|[|[|n]]]]]]]]]]]; try done. intros _ _. exists 11%nat.
    split_and!; [lia|simpl; lia|done].
Qed.
End sample_run.

(** The server of [sample_server_builder] in that execution. *)
Definition sample_server_run : nat → ServerLife :=
  sample_life (AcceptContext_new (sb_bind_policy sample_server_builder) (sb_runtime_policy sample_server_builder))
    (on_accept true (AcceptContext_new (sb_bind_policy sample_server_builder) (sb_runtime_policy sample_server_builder))).

Lemma sample_server_run_ok srv :
  @ServerBuilder_bind sample_libraries sample_bind_io sample_server_builder = Ok srv →
  sample_server_run 0%nat = @Server_start sample_libraries srv ∧
  execution_of sample_server_run ∧ responsive 0 sample_server_run.
Proof.
  intros Hb. destruct (@server_bind_ok sample_libraries sample_bind_io sample_server_builder srv default_typed Hb)
    as (_ & _ & _ & _ & Hx).
  set (x := AcceptContext_new (sb_bind_policy sample_server_builder) (sb_runtime_policy sample_server_builder)) in *.
  assert (ac_handshaking (on_accept true x) = 1%nat) as H1 by (vm_compute; reflexivity).
  assert (w_controls (ac_world (on_accept true x)) = ∅) as H2 by (vm_compute; reflexivity).
  assert (0 <= grace_of (on_accept true x)) as H3 by (vm_compute; discriminate).
  split_and!.
  - unfold Server_start. by rewrite Hx.
  - by apply sample_life_runs; [apply I_accept|..].
  - by apply sample_life_prompt.
Qed.

Lemma server_shutdown_clean_witness :
  ∃ srv v, @ServerBuilder_bind sample_libraries sample_bind_io sample_server_builder = Ok srv ∧ sv_owner v = Done ∧
    sn_active_sessions (ServerHandle_snapshot 0 v) = 0.
Proof.
  assert (is_ok (@ServerBuilder_bind sample_libraries sample_bind_io sample_server_builder) = true) as E
    by (vm_compute; reflexivity).
  destruct (@ServerBuilder_bind sample_libraries sample_bind_io sample_server_builder) as [srv|] eqn:Es; [|discriminate].
  destruct (sample_server_run_ok srv Es) as (H0 & Hrun & _).
  exists srv, (sample_server_run 11%nat). split; [reflexivity|]. split; [reflexivity|].
  destruct (@server_shutdown_clean sample_libraries sample_bind_io sample_server_builder srv (sample_server_run 11%nat)
    default_typed Es) as (_ & _ & H).
  - revert Es. vm_compute. intros [= <-]. reflexivity.
  - rewrite <-H0. exact (life_run _ Hrun 11%nat).
  - destruct (H eq_refl _ 0 (rtc_refl _ _)) as (_ & _ & Hn & _). exact Hn.
Defined.

Lemma server_shutdown_completes_witness :
  ∃ srv, @ServerBuilder_bind sample_libraries sample_bind_io sample_server_builder = Ok srv ∧
    sample_server_run 0%nat = @Server_start sample_libraries srv ∧
    sv_owner (sample_server_run 2%nat) = Awaiting ∧
    ∃ m, sv_now (sample_server_run m) <= from_secs 1 ∧ sv_owner (sample_server_run m) ≠ Awaiting ∧
      ∃ x, sv_task (sample_server_run m) = Returned x.
Proof.
  assert (is_ok (@ServerBuilder_bind sample_libraries sample_bind_io sample_server_builder) = true) as E
    by (vm_compute; reflexivity).
  destruct (@ServerBuilder_bind sample_libraries sample_bind_io sample_server_builder) as [srv|] eqn:Es; [|discriminate].
  destruct (sample_server_run_ok srv Es) as (H0 & Hrun & Hp).
  exists srv. split; [reflexivity|]. split; [exact H0|]. split; [reflexivity|].
  destruct (@server_shutdown_completes sample_libraries sample_bind_io sample_server_builder srv sample_server_run 0 2%nat
    default_typed Es) as (m & x & _ & Hx & Ht & Ho & _); [|exact H0|exact Hrun|lia|exact Hp|reflexivity|].
  - revert Es. vm_compute. intros [= <-]. reflexivity.
  - exists m. split; [exact Ht|]. split; [exact Ho|]. exists x. exact Hx.
Defined.

Lemma quic_shutdown_settles_witness :
  let v := quic_drain_end (sample_quic (H_loop sample_quic_connection)) in
  qv_detached v = [Looping sample_sid] ∧ is_Some (w_controls (ac_world (qv_context v)) !! sample_sid) ∧
  ∃ v2, rtc (quic_server_step PanicsAgain 1) v v2 ∧ w_controls (ac_world (qv_context v2)) = ∅.
Proof.
  cbv zeta. split; [reflexivity|].
  destruct (quic_shutdown_settles PanicsAgain BindPolicy_default RuntimePolicy_default 1
    (sample_quic (H_loop sample_quic_connection)) default_finite ltac:(lia) (sample_quic_serving _))
    as (H1 & _ & (v2 & Hr & Ho) & H2).
  split; [apply H1; by left|]. exists v2. split; [exact Hr|]. exact (proj1 (H2 v2 Hr Ho)).
Defined.

Lemma client_shutdown_clean_witness :
  ∃ c f, @ClientBuilder_start sample_libraries true sample_builder = Ok c ∧ cf_owner f = Done ∧
    sn_connected (ClientHandle_snapshot 0 f) = false.
Proof.
  assert (is_ok (@ClientBuilder_start sample_libraries true sample_builder) = true) as E by (vm_compute; reflexivity).
  destruct (@ClientBuilder_start sample_libraries true sample_builder) as [c|] eqn:Es; [|discriminate].
  set (f := mkClientLife true (Stopped (cl_supervisor c) (cl_counters c)) Done).
  exists c, f. split; [reflexivity|]. split; [reflexivity|].
  refine (proj1 (proj1 (proj2 (proj2 (proj2 (@client_shutdown_clean sample_libraries true sample_builder c (fun _ => false) f
    default_typed Es _ eq_refl f 0 (rtc_refl _ _))))))).
  eapply rtc_l; [by apply C_shutdown|]. eapply rtc_l; [apply C_drives, D_cancelled|]. apply rtc_once, C_joined.
Defined.
