(* ===== verification/Redaction.v ===== *)
(** * What [Debug] shows: the [fmt::Debug] implementations of
      crates/eggtunnel-proto/src/lib.rs and of common.rs, client.rs,
      client/config.rs and server/config.rs in crates/eggtunnel/src

    Identifiers that are capabilities, tokens and keys are redacted by hand;
    everything else is derived.  A value's [Debug] is the calls it makes on the
    formatter ([Debugged]); [render] is the text the standard library makes of
    them. *)

From S2P Require Import Prelude Text Proto Codec Varint Frame Common WireIo Endpoint AuthLimiter ServiceState Session.
From S2P Require Import Control Registry Accept Heartbeat ClientSession Reconnect Config.

(** ** The formatter *)

Inductive Debugged :=
| D_word (s : string)                                  (* [write_str] *)
| D_text (t : rstr)                                    (* [Debug for str] *)
| D_num (z : Z)
| D_bool (b : bool)
| D_socket (a : SocketAddr)
| D_struct (name : string) (fields : list (string * Debugged))
| D_tuple (name : string) (fields : list Debugged)
| D_list (l : list Debugged).

(** The compact form; how numbers, addresses and quoted text look is the
    standard library's. *)
Section render.
Variables (number : Z → rstr) (socket : SocketAddr → rstr) (quoted : rstr → rstr).

Definition separated (l : list rstr) : rstr :=
  match l with
  | [] => []
  | t :: rest => t ++ (rest ≫= fun u => lit ", " ++ u)
  end.

Fixpoint render (d : Debugged) : rstr :=
  match d with
  | D_word s => lit s
  | D_text t => quoted t
  | D_num z => number z
  | D_bool b => lit (if b then "true" else "false")
  | D_socket a => socket a
  | D_struct name fields =>
      lit name ++ lit " { " ++ separated ((fun f => lit f.1 ++ lit ": " ++ render f.2) <$> fields) ++ lit " }"
  | D_tuple name fields => lit name ++ lit "(" ++ separated (render <$> fields) ++ lit ")"
  | D_list l => lit "[" ++ separated (render <$> l) ++ lit "]"
  end.
End render.

(** ** The wire types *)

Definition bytes_fmt (l : list byte) : Debugged := D_list ((fun b => D_num (byte_val b)) <$> l).

Definition SessionId_debug (s : SessionId) : string := "SessionId([REDACTED])".
Definition SessionId_fmt (s : SessionId) : Debugged := D_word (SessionId_debug s).
Definition ConnectionId_fmt (_ : ConnectionId) : Debugged := D_word "ConnectionId([REDACTED])".
Definition Auth_fmt (_ : Auth) : Debugged := D_struct "Auth" [("token", D_text (lit "[REDACTED]"))].
Definition ServiceName_fmt (n : ServiceName) : Debugged := D_text (sn_value n).

(** The derived ones. *)
Definition ServiceId_fmt (i : ServiceId) : Debugged := D_tuple "ServiceId" [D_num (svc_id i)].
Definition ProtocolVersion_fmt (v : ProtocolVersion) : Debugged :=
  D_struct "ProtocolVersion" [("major", D_num (pv_major v)); ("minor", D_num (pv_minor v))].
Definition Capabilities_fmt (c : Capabilities) : Debugged := D_tuple "Capabilities" [D_list (D_num <$> cap_ids c)].
Definition BoundedDiagnostic_fmt (d : BoundedDiagnostic) : Debugged := D_tuple "BoundedDiagnostic" [D_text (bd_text d)].
Definition RequestedBind_fmt (b : RequestedBind) : Debugged :=
  match b with
  | Loopback port => D_struct "Loopback" [("port", D_num port)]
  | Ip address port => D_struct "Ip" [("address", bytes_fmt address); ("port", D_num port)]
  end.
Definition EffectiveBind_fmt (b : EffectiveBind) : Debugged :=
  D_struct "EffectiveBind" [("address", bytes_fmt (eb_address b)); ("port", D_num (eb_port b))].
Definition TcpTarget_fmt (t : TcpTarget) : Debugged :=
  D_struct "TcpTarget" [("host", D_text (tt_host t)); ("port", D_num (tt_port t))].

Definition Message_fmt (m : Message) : Debugged :=
  match m with
  | M_ClientHello v =>
      D_tuple "ClientHello" [D_struct "ClientHello" [("version", ProtocolVersion_fmt (ch_version v));
        ("capabilities", Capabilities_fmt (ch_capabilities v))]]
  | M_ServerHello v =>
      D_tuple "ServerHello" [D_struct "ServerHello" [("version", ProtocolVersion_fmt (sh_version v));
        ("capabilities", Capabilities_fmt (sh_capabilities v))]]
  | M_Auth v => D_tuple "Auth" [Auth_fmt v]
  | M_AuthOk v => D_tuple "AuthOk" [D_struct "AuthOk" [("session_id", SessionId_fmt (ao_session_id v))]]
  | M_RegisterService v =>
      D_tuple "RegisterService" [D_struct "RegisterService" [("service_id", ServiceId_fmt (rs_service_id v));
        ("name", ServiceName_fmt (rs_name v)); ("requested_bind", RequestedBind_fmt (rs_requested_bind v));
        ("target", TcpTarget_fmt (rs_target v))]]
  | M_RegisterAck v =>
      D_tuple "RegisterAck" [D_struct "RegisterAck" [("service_id", ServiceId_fmt (ra_service_id v));
        ("effective_bind", EffectiveBind_fmt (ra_effective_bind v))]]
  | M_UnregisterService v =>
      D_tuple "UnregisterService" [D_struct "UnregisterService" [("service_id", ServiceId_fmt (us_service_id v))]]
  | M_Open v =>
      D_tuple "Open" [D_struct "Open" [("service_id", ServiceId_fmt (op_service_id v));
        ("connection_id", ConnectionId_fmt (op_connection_id v))]]
  | M_OpenReject v =>
      D_tuple "OpenReject" [D_struct "OpenReject" [("connection_id", ConnectionId_fmt (or_connection_id v));
        ("code", D_num (or_code v))]]
  | M_Ping v => D_tuple "Ping" [D_struct "Ping" [("nonce", D_num (ping_nonce v))]]
  | M_Pong v => D_tuple "Pong" [D_struct "Pong" [("nonce", D_num (pong_nonce v))]]
  | M_Drain v => D_tuple "Drain" [D_struct "Drain" [("deadline_ms", D_num (drain_deadline_ms v))]]
  | M_Error v =>
      D_tuple "Error" [D_struct "ErrorMessage" [("code", D_num (em_code v));
        ("diagnostic", BoundedDiagnostic_fmt (em_diagnostic v))]]
  | M_DataHello v =>
      D_tuple "DataHello" [D_struct "DataHello" [("session_id", SessionId_fmt (dh_session_id v));
        ("service_id", ServiceId_fmt (dh_service_id v)); ("connection_id", ConnectionId_fmt (dh_connection_id v))]]
  | M_RegisterReject v =>
      D_tuple "RegisterReject" [D_struct "RegisterReject" [("service_id", ServiceId_fmt (rj_service_id v));
        ("code", D_num (rj_code v)); ("diagnostic", BoundedDiagnostic_fmt (rj_diagnostic v))]]
  end.

(** ** Tokens, keys and configurations *)

Definition SecretToken_fmt (_ : SecretToken) : Debugged := D_word "SecretToken([REDACTED])".

Definition option_fmt (o : option Debugged) : Debugged :=
  match o with Some d => D_tuple "Some" [d] | None => D_word "None" end.

Definition ClientIdentity_fmt (_ : ClientIdentity) : Debugged :=
  D_struct "ClientIdentity" [("certificate_pem", D_text (lit "[configured]"));
    ("private_key_pem", D_text (lit "[REDACTED]"))].

Definition ClientConfig_fmt (c : ClientConfig) : Debugged :=
  D_struct "ClientConfig" [("server_addr", D_text (cc_server_addr c));
    ("tls_server_name", D_text (cc_tls_server_name c));
    ("ca_pem", option_fmt ((fun _ => D_text (lit "[configured]")) <$> cc_ca_pem c));
    ("token", SecretToken_fmt (cc_token c)); ("services", D_num (len (cc_services c)))].

Definition ServerConfig_fmt (c : ServerConfig) : Debugged :=
  D_struct "ServerConfig" [("listen_addr", D_socket (sc_listen_addr c));
    ("certificate_pem", D_text (lit "[configured]")); ("private_key_pem", D_text (lit "[REDACTED]"));
    ("token", SecretToken_fmt (sc_token c));
    ("allow_public_service_binds", D_bool (sc_allow_public_service_binds c))].

(** ** Secrets *)

(** A message without its capabilities and credentials. *)
Definition without_secrets (m : Message) : Message :=
  let no_session := mkSessionId [] in
  let no_connection := mkConnectionId [] in
  match m with
  | M_Auth _ => M_Auth (mkAuth [])
  | M_AuthOk _ => M_AuthOk (mkAuthOk no_session)
  | M_Open v => M_Open (mkOpen (op_service_id v) no_connection)
  | M_OpenReject v => M_OpenReject (mkOpenReject no_connection (or_code v))
  | M_DataHello v => M_DataHello (mkDataHello no_session (dh_service_id v) no_connection)
  | _ => m
  end.

(** ** Lemmas: what is derived shows everything *)

#[export] Instance bytes_fmt_inj : Inj (=) (=) bytes_fmt.
Proof.
  intros l l' [= E]. revert E. apply list_fmap_eq_inj. intros b b' [= E].
  by apply byte_val_inj.
Qed.

#[export] Instance D_num_inj : Inj (=) (=) D_num.
Proof. by intros ? ? [=]. Qed.

#[export] Instance ServiceId_fmt_inj : Inj (=) (=) ServiceId_fmt.
Proof. intros [] [] [=]. by f_equal. Qed.

#[export] Instance ServiceName_fmt_inj : Inj (=) (=) ServiceName_fmt.
Proof. intros [] [] [=]. by f_equal. Qed.

#[export] Instance ProtocolVersion_fmt_inj : Inj (=) (=) ProtocolVersion_fmt.
Proof. intros [] [] [=]. by f_equal. Qed.

#[export] Instance Capabilities_fmt_inj : Inj (=) (=) Capabilities_fmt.
Proof. intros [l] [l'] [= E]. f_equal. by apply (inj (fmap D_num)) in E. Qed.

#[export] Instance BoundedDiagnostic_fmt_inj : Inj (=) (=) BoundedDiagnostic_fmt.
Proof. intros [] [] [=]. by f_equal. Qed.

#[export] Instance TcpTarget_fmt_inj : Inj (=) (=) TcpTarget_fmt.
Proof. intros [] [] [=]. by f_equal. Qed.

#[export] Instance EffectiveBind_fmt_inj : Inj (=) (=) EffectiveBind_fmt.
Proof. intros [a p] [a' p'] [= E1 E2]. f_equal; [|done]. apply (inj bytes_fmt). unfold bytes_fmt. by rewrite E1. Qed.

#[export] Instance RequestedBind_fmt_inj : Inj (=) (=) RequestedBind_fmt.
Proof.
  intros [p|a p] [p'|a' p']; try done; [by intros [= ->]|]. intros [= E1 ->]. f_equal.
  apply (inj bytes_fmt). unfold bytes_fmt. by rewrite E1.
Qed.

(** Fields that are shown are equal when their formats are. *)
Ltac shown_fields :=
  repeat f_equal; first
    [ apply (inj ServiceId_fmt) | apply (inj ServiceName_fmt) | apply (inj ProtocolVersion_fmt)
    | apply (inj Capabilities_fmt) | apply (inj BoundedDiagnostic_fmt) | apply (inj RequestedBind_fmt)
    | apply (inj EffectiveBind_fmt) | apply (inj TcpTarget_fmt) | idtac ]; congruence.

Lemma message_fmt_iff m m' : Message_fmt m = Message_fmt m' ↔ without_secrets m = without_secrets m'.
Proof.
  split.
  - intros E. destruct m as [v|v|v|v|v|v|v|v|v|v|v|v|v|v|v], m' as [v'|v'|v'|v'|v'|v'|v'|v'|v'|v'|v'|v'|v'|v'|v'];
      try discriminate E; destruct v, v'; cbn [without_secrets]; try reflexivity; cbn in E |- *; shown_fields.
  - intros E. assert (∀ m, Message_fmt m = Message_fmt (without_secrets m)) as H by (by intros []).
    by rewrite H, E, <-H.
Qed.

(** ** Property *)

(** C29. [Debug] output reveals no secret, and hides nothing else.  The [Debug] of
    two messages is the same exactly when they differ in Session identifiers,
    ConnectionIds and tokens only; tokens and client identities all look alike;
    a client configuration shows its server, its name, whether there is a CA
    and how many services there are, and a server configuration its address
    and its policy switch, and nothing besides.  So no log line can tell two
    values apart that differ only in what is secret, whatever the layout. *)
Theorem debug_reveals_no_secret :
  (∀ m m', Message_fmt m = Message_fmt m' ↔ without_secrets m = without_secrets m') ∧
  (∀ t t', SecretToken_fmt t = SecretToken_fmt t') ∧ (∀ i i', ClientIdentity_fmt i = ClientIdentity_fmt i') ∧
  (∀ c c', ClientConfig_fmt c = ClientConfig_fmt c' ↔
     cc_server_addr c = cc_server_addr c' ∧ cc_tls_server_name c = cc_tls_server_name c' ∧
     (is_Some (cc_ca_pem c) ↔ is_Some (cc_ca_pem c')) ∧ len (cc_services c) = len (cc_services c')) ∧
  (∀ c c', ServerConfig_fmt c = ServerConfig_fmt c' ↔
     sc_listen_addr c = sc_listen_addr c' ∧ sc_allow_public_service_binds c = sc_allow_public_service_binds c') ∧
  (∀ number socket quoted m m', without_secrets m = without_secrets m' →
     render number socket quoted (Message_fmt m) = render number socket quoted (Message_fmt m')).
Proof.
  split_and!; [apply message_fmt_iff|done|done|..].
  - intros [a n ca t s] [a' n' ca' t' s']. unfold ClientConfig_fmt. simpl. rewrite !is_Some_alt. split.
    + intros E. injection E as -> -> E ->. destruct ca, ca'; by simplify_eq/=.
    + intros (-> & -> & E & ->). destruct ca, ca'; simpl in E; try done; tauto.
  - intros [a c k t b] [a' c' k' t' b']. unfold ServerConfig_fmt. simpl. split; [by intros [= -> ->]|by intros [-> ->]].
  - intros number socket quoted m m' E. by rewrite (proj2 (message_fmt_iff m m') E).
Qed.

(** ** Witness: two credentials *)

Lemma debug_reveals_no_secret_witness :
  let text m := render (fun _ => []) (fun _ => []) (fun t => lit "'" ++ t ++ lit "'") (Message_fmt m) in
  text (M_Auth (mkAuth [Byte.x61])) = lit "Auth(Auth { token: '[REDACTED]' })" ∧
  text (M_Auth (mkAuth [Byte.x61])) = text (M_Auth (mkAuth [Byte.x62; Byte.x63])).
Proof.
  split; [vm_compute; reflexivity|].
  destruct debug_reveals_no_secret as (_ & _ & _ & _ & _ & H). apply H. reflexivity.
Defined.
