(* ===== verification/EndToEnd.v ===== *)
(** * Both peers together

    The client's and the server's definitions run against each other: what
    one side writes is what the other reads.  The theorems are about the
    protocol: the handshake, the registration of a service and the correlation
    of a data connection. *)

From S2P Require Import Prelude Text Proto Codec Varint Frame Common WireIo AuthLimiter Session Control.
From S2P Require Import ServiceState Heartbeat ClientSession.

(** What the peer's [n]-th message makes of a read: no message, no answer. *)
Definition delivered (m : option Message) : poll (result TunnelError Message) :=
  match m with Some m => Ready (Ok m) | None => Pending end.

(** ** The handshake *)

Lemma auth_new_token bytes token : SecretToken_new bytes = Ok token → Auth_new (expose token) = Ok (mkAuth bytes).
Proof.
  unfold SecretToken_new, Auth_new. destruct (_ || _) eqn:E; [done|]. intros [= <-]. simpl.
  apply orb_false_iff in E as [_ ->]. done.
Qed.

(** A server handshake that has read [Auth] either establishes and has written
    [AuthOk], or fails; a refused credential is answered. *)
Lemma handshake_outcome ct_eq sio peer bytes token hello now a lim s auth :
  (∀ x y, length x = length y → ct_eq x y = true ↔ x = y) →
  SecretToken_new bytes = Ok token →
  pv_major (ch_version hello) = pv_major CURRENT →
  hello_write sio = W_done → refusal_write sio = W_done → auth_ok_write sio = W_done →
  auth_read sio = Ready (Ok (M_Auth auth)) →
  let h := handshake ct_eq sio peer token hello now a lim s in
  let caps := intersect supported (ch_capabilities hello) in
  hs_out h !! 0%nat = Some (M_ServerHello (mkServerHello CURRENT caps)) ∧
  ((∃ k, hs_result h = Ok k ∧ auth_token auth = bytes ∧ (is_blocked_at lim (peer_source peer) now).1 = false ∧
         ct_negotiated k = caps ∧ hs_out h !! 1%nat = Some (M_AuthOk (mkAuthOk (ct_session k)))) ∨
   (∃ d, hs_result h = Err TE_Authentication ∧ hs_out h !! 1%nat = Some (M_Error (mkErrorMessage AUTH_FAILURE_CODE d))) ∨
   (∃ e, hs_result h = Err e ∧ hs_out h !! 1%nat = None ∧ auth_token auth = bytes ∧
         (is_blocked_at lim (peer_source peer) now).1 = false)).
Proof.
  intros Hct Htok Hv Hw1 Hw2 Hw3 Hr h caps. unfold h, handshake.
  rewrite Hv, Z.eqb_refl, Hw1, Hr. cbn [negb write_bounded read_bounded app].
  destruct (is_blocked_at lim (peer_source peer) now) as [blocked lim1]. cbn [fst].
  destruct (negb _ || blocked) eqn:Hb.
  { unfold refuse_peer, reject_authentication. rewrite Hw2. split; [done|]. right; left. by eexists. }
  apply orb_false_iff in Hb as [Hver%negb_false_iff ->].
  apply (verify_token_iff ct_eq token bytes) in Hver; [|done..].
  unfold establish. destruct (SessionId_generate _) as [sid|].
  2: { split; [done|]. right; right. by eexists. }
  destruct (server_cancelled sio); [split; [done|]; right; right; by eexists|].
  destruct (Session.register _ _ _ _) as [[[]|e] s3]; [|split; [done|]; right; right; by eexists].
  rewrite Hw3. split; [done|]. left. eexists. by split_and!.
Qed.

(** The server's hello is written before anything depends on the client. *)
Lemma server_hello_first ct_eq sio peer token hello now a lim s :
  pv_major (ch_version hello) = pv_major CURRENT → hello_write sio = W_done →
  hs_out (handshake ct_eq sio peer token hello now a lim s) !! 0%nat =
  Some (M_ServerHello (mkServerHello CURRENT (intersect supported (ch_capabilities hello)))).
Proof.
  intros Hv Hw. unfold handshake. rewrite Hv, Z.eqb_refl, Hw. cbn [negb write_bounded app].
  assert (∀ lim', hs_out (refuse_peer sio peer [M_ServerHello (mkServerHello CURRENT (intersect supported (ch_capabilities hello)))] lim' s)
    !! 0%nat = Some (M_ServerHello (mkServerHello CURRENT (intersect supported (ch_capabilities hello))))) as Href.
  { intros lim'. unfold refuse_peer, reject_authentication. destruct authentication_failed; [|done].
    by destruct (refusal_write sio). }
  destruct (read_bounded _) as [m|]; [|done]. destruct m; try apply Href.
  destruct (is_blocked_at _ _ _) as [blocked lim1]. destruct (_ || _); [apply Href|].
  unfold establish. destruct (SessionId_generate _); [|done]. destruct (server_cancelled sio); [done|].
  destruct (Session.register _ _ _ _) as [[[]|e] s3]; [|done]. by destruct (auth_ok_write sio).
Qed.

(** C1. The two handshakes agree.  When each side's writes complete and each
    reads what the other wrote, the client sends its hello and then its token;
    it ends up with a Session exactly if the server has one, and then it is
    the same Session with the same negotiated capabilities, the tokens are
    equal and the source is not blocked.  Whenever the tokens differ or the
    source is blocked, both sides end with [Authentication]. *)
Theorem handshake_agreement ct_eq sio cio peer cbytes sbytes ctoken stoken now a lim s :
  (∀ x y, length x = length y → ct_eq x y = true ↔ x = y) →
  SecretToken_new cbytes = Ok ctoken → SecretToken_new sbytes = Ok stoken →
  hello_write sio = W_done → refusal_write sio = W_done → auth_ok_write sio = W_done →
  ci_hello_write cio = W_done → ci_auth_write cio = W_done →
  let h := handshake ct_eq sio peer stoken (mkClientHello CURRENT supported) now a lim s in
  let '(r, out) := client_handshake cio ctoken in
  auth_read sio = delivered (out !! 1%nat) →
  ci_hello_read cio = delivered (hs_out h !! 0%nat) → ci_auth_read cio = delivered (hs_out h !! 1%nat) →
  out = [M_ClientHello (mkClientHello CURRENT supported); M_Auth (mkAuth cbytes)] ∧
  match r with
  | Ok (session, capabilities) =>
      cbytes = sbytes ∧ (is_blocked_at lim (peer_source peer) now).1 = false ∧
      ∃ k, hs_result h = Ok k ∧ ct_session k = session ∧ ct_negotiated k = capabilities
  | Err _ => ∃ e, hs_result h = Err e
  end ∧
  (cbytes ≠ sbytes ∨ (is_blocked_at lim (peer_source peer) now).1 = true →
   r = Err TE_Authentication ∧ hs_result h = Err TE_Authentication).
Proof.
  intros Hct Hc Hs Hw1 Hw2 Hw3 Hw4 Hw5 h.
  pose proof (server_hello_first ct_eq sio peer stoken (mkClientHello CURRENT supported) now a lim s eq_refl Hw1) as Hfirst.
  fold h in Hfirst. unfold client_handshake, authenticate.
  rewrite Hw4, (auth_new_token _ _ Hc), Hw5. cbn [write_bounded app].
  destruct (ci_hello_read cio) as [[m|e]|]; cbn [read_bounded]; [destruct m; try (rewrite Hfirst; done)|rewrite Hfirst; done..].
  destruct (_ =? _) eqn:Hmaj; [|intros _; rewrite Hfirst; intros [= ->]; done].
  cbn [lookup list_lookup]. intros Hauth Hhello Hok. rewrite Hfirst in Hhello. injection Hhello as ->.
  split; [done|].
  destruct (handshake_outcome ct_eq sio peer sbytes stoken (mkClientHello CURRENT supported) now a lim s
    (mkAuth cbytes) Hct Hs eq_refl Hw1 Hw2 Hw3 Hauth) as [_ Hout]. fold h in Hout. rewrite Hok.
  destruct Hout as [(k & Hk & Heq & Hnb & Hcaps & ->)|[(d & Hk & ->)|(e & Hk & -> & Heq & Hnb)]]; cbn [delivered read_bounded].
  - split; [|rewrite Hnb; by intros [|]]. split_and!; [done..|]. exists k. by split_and!.
  - split; [by eexists|done].
  - split; [by eexists|]. cbn in Heq. rewrite Hnb. by intros [|].
Qed.

(** ** Registration *)

(** The wire mode a ready Session runs in is the negotiated one. *)
Definition mode_matches (l : Loop) : Prop :=
  match st_mode (sl_state l) with
  | LegacySerial => correlated l = false
  | CorrelatedBounded _ => correlated l = true
  end.

(** A transaction just begun and written is the one its answer finds. *)
Lemma begun_transaction service g reply deadline s s' :
  wf_state s → begin service g reply s = (Ok tt, s') →
  ∃ s'', take_transaction (cs_id service) (arm_deadline (cs_id service) deadline s') =
         (Found (mkPending service g (Some reply) (Some deadline)), s'') ∧
         st_active s'' = st_active s ∧ st_mode s' = st_mode s ∧
         (st_mode s = LegacySerial →
          st_pending (arm_deadline (cs_id service) deadline s') = Some (mkPending service g (Some reply) (Some deadline))).
Proof.
  intros Hw. unfold begin. destruct (already_known service s); [done|]. cbn [set_abandoned st_mode st_pending st_in_flight].
  pose proof (wf_mode _ Hw) as Hm. destruct (st_mode s) as [|m] eqn:Hmode.
  - destruct (st_pending s) as [q|] eqn:Hp; [done|]. intros [= <-].
    unfold arm_deadline, take_transaction. simpl. rewrite Hmode. simpl. rewrite decide_True by done.
    eexists. by split_and!.
  - destruct Hm as [Hp _]. destruct (_ <=? _); [done|]. intros [= <-].
    unfold arm_deadline, take_transaction. simpl. rewrite Hmode. simpl. rewrite Hp, lookup_alter_eq, lookup_insert_eq. simpl.
    eexists. by split_and!.
Qed.

(** The client's state right after a registration was written. *)
Lemma registered_loop closed now service reply l s1 :
  services_per_session (limits (policy_of l)) >
    saturating_add 64 (len (st_desired (sl_state l))) (unacknowledged (sl_state l)) →
  closed reply = false → begin service (sl_generation l) reply (sl_state l) = (Ok tt, s1) →
  on_register closed W_done now service reply l =
  (Continue, set_sl_state (arm_deadline (cs_id service) (now + handshake_timeout (timeouts (policy_of l))) s1)
               (set_sl_out (sl_out l ++ [registration service]) (set_sl_state s1 l))).
Proof.
  intros Hroom Hc Hb. unfold on_register. rewrite (proj2 (Z.leb_gt _ _)) by lia.
  by rewrite Hc, Hb.
Qed.

(** The answer to a registration, on the client's side. *)
Lemma ack_commits closed now w service g reply deadline bind l1 s'' :
  take_transaction (cs_id service) (sl_state l1) = (Found (mkPending service g (Some reply) (Some deadline)), s'') →
  g = sl_generation l1 → closed reply = false →
  on_message closed now w (Ok (M_RegisterAck (mkRegisterAck (cs_id service) bind))) l1 =
  (Continue, committed (mkRegisterAck (cs_id service) bind) service (Some reply) (set_sl_state s'' l1)).
Proof.
  intros Ht Hg Hc. cbn [on_message]. unfold on_ack, take_ack. cbn [ra_service_id]. rewrite Ht.
  cbn [pr_generation pr_reply pr_service]. by rewrite Hg, Z.eqb_refl, Hc.
Qed.

Lemma reject_answers closed now w service g reply deadline code d l1 s'' :
  take_transaction (cs_id service) (sl_state l1) = (Found (mkPending service g (Some reply) (Some deadline)), s'') →
  g = sl_generation l1 → correlated l1 = true →
  on_message closed now w (Ok (M_RegisterReject (mkRegisterReject (cs_id service) code d))) l1 =
  (Continue, reply_with [(reply, Err (registration_error_code code))] (set_sl_state s'' l1)).
Proof.
  intros Ht Hg Hc. cbn [on_message]. unfold on_reject, take_reject. rewrite Hc. cbn [negb rj_service_id rj_code]. rewrite Ht.
  cbn [pr_generation pr_reply]. by rewrite Hg, Z.eqb_refl.
Qed.

Lemma error_answers closed now w service g reply deadline code d l1 :
  st_pending (sl_state l1) = Some (mkPending service g (Some reply) (Some deadline)) →
  on_message closed now w (Ok (M_Error (mkErrorMessage code d))) l1 =
  (Continue, reply_with [(reply, Err (registration_error_code code))]
               (set_sl_state (set_pending None (sl_state l1)) l1)).
Proof. intros Hp. cbn [on_message]. unfold on_error, reject. by rewrite Hp. Qed.

(** A registration ends the same way on both sides.  A client whose
    registration reaches the server and who reads the server's answer, in
    either registration mode, answers its caller exactly once and stays in the
    Session: with the effective address after [RegisterAck], and then the
    service is active on the client and registered on the server and both bind
    tables have gained the same entry; with an error after a refusal, and then
    neither side's services and bind table have changed. *)
Theorem registration_agreement closed now now' w listen policy service reply l s1 k s :
  wf_state (sl_state l) → mode_matches l →
  sl_session l = ct_session k → sl_negotiated l = ct_negotiated k →
  services_per_session (limits (policy_of l)) >
    saturating_add 64 (len (st_desired (sl_state l))) (unacknowledged (sl_state l)) →
  closed reply = false → begin service (sl_generation l) reply (sl_state l) = (Ok tt, s1) →
  let '(f1, l1) := on_register closed W_done now service reply l in
  let '(f2, k', s') := on_incoming listen W_done policy (Ok (registration service)) k s in
  f1 = Continue ∧ f2 = Continue ∧ sl_out l1 = sl_out l ++ [registration service] ∧
  ∃ answer, ct_out k' = ct_out k ++ [answer] ∧
  let '(f3, l2) := on_message closed now' w (Ok answer) l1 in
  f3 = Continue ∧
  ((∃ bind entry, sl_answers l2 = sl_answers l ++ [(reply, Ok bind)] ∧
      entry = mkBindEntry (sl_session l) (cs_id service) bind ∧
      st_active (sl_state l2) !! cs_id service = Some service ∧
      se_name <$> ct_services k' !! cs_id service = Some (cs_name service) ∧
      ctr_binds (sl_counters l2) = ctr_binds (sl_counters l) ++ [entry] ∧
      ctr_binds (counters s') = ctr_binds (counters s) ++ [entry]) ∨
   (∃ e, sl_answers l2 = sl_answers l ++ [(reply, Err e)] ∧
      st_active (sl_state l2) = st_active (sl_state l) ∧ ct_services k' = ct_services k ∧
      ctr_binds (sl_counters l2) = ctr_binds (sl_counters l) ∧
      ctr_binds (counters s') = ctr_binds (counters s))).
Proof.
  intros Hw Hmode Hsid Hneg Hroom Hc Hb. rewrite (registered_loop _ _ _ _ _ s1) by done.
  set (deadline := now + _). destruct (begun_transaction _ _ _ deadline _ _ Hw Hb) as (s'' & Ht & Hact & Hm & Hpend).
  set (l1 := set_sl_state (arm_deadline _ _ _) _).
  pose proof (register_service_answer listen policy
    (mkRegisterService (cs_id service) (cs_name service) (cs_requested_bind service) (cs_target service)) k s) as Hans.
  unfold registration at 1. cbn [on_incoming]. cbn [on_incoming].
  destruct (register_service _ _ _ _ _ _) as [[f2 k'] s'].
  destruct Hans as (-> & m & Hout & Hcases). split_and!; try done. exists m. split; [done|].
  assert (sl_state l1 = arm_deadline (cs_id service) deadline s1) as Hst by done.
  destruct Hcases as [(addr & local & effective & _ & _ & _ & _ & _ & -> & Hserv & Hbinds)
    |(code & d & _ & -> & _ & Hserv & _ & _ & Hbinds & _)]; cbn [rs_service_id rs_name] in *.
  - rewrite (ack_commits closed now' w service (sl_generation l) reply deadline effective l1 s'') by done.
    split; [done|]. left. exists effective, (mkBindEntry (sl_session l) (cs_id service) effective).
    split_and!; try done; [by apply lookup_insert_eq|]. by rewrite Hbinds, Hsid.
  - destruct (has (ct_negotiated k) CAPABILITY_REGISTER_REJECT) eqn:Hcap.
    + rewrite (reject_answers closed now' w service (sl_generation l) reply deadline code d l1 s'');
        [|done|done|unfold correlated; simpl; by rewrite Hneg].
      split; [done|]. right. eexists. by split_and!.
    + assert (st_mode (sl_state l) = LegacySerial) as Hleg.
      { unfold mode_matches, correlated in Hmode. rewrite Hneg, Hcap in Hmode. by destruct (st_mode _). }
      rewrite (error_answers closed now' w service (sl_generation l) reply deadline code d l1) by (by apply Hpend).
      split; [done|]. right. eexists. split_and!; try done.
      destruct (begin_more service (sl_generation l) reply _ Hw) as (Hw1 & _ & Ha1 & _).
      rewrite Hb in Hw1, Ha1. transitivity (st_active (sl_state l1)); [done|].
      rewrite Hst, (fw_active _ _ (arm_fewer _ _ _ Hw1)). exact Ha1.
Qed.

(** ** Data connections *)

(** Every stage of [handle_open] up to the [DataHello] succeeds. *)
Definition dial_succeeds (io : OpenIo) : Prop :=
  run_stage target_error (oi_target io) = Ok tt ∧ connect_data (oi_data io) = Ok tt ∧ oi_hello io = W_done.

(** C8. A data connection reaches the relay that asked for it.  An external
    connection the server offers as [Open], taken up by a client that has the
    service active and a permit left and whose dial succeeds, comes back as a
    [DataHello] that the server accepts while the relay task still waits for
    it: the stream goes to the very relay task of
    that external connection, from a peer with the Session's principal and
    within the pending deadline; presenting the same [DataHello] once more is
    refused. *)
Theorem open_agreement closed waiting io a x sid service tx now now' fill connection s s1 l svc :
  heap s !! a = Some x → entries s !! sid = Some a → sl_session l = sid →
  accept_external a service fill now tx s = (Offered connection, s1) →
  wf_state (sl_state l) → st_active (sl_state l) !! service = Some svc → 0 < sl_permits l →
  dial_succeeds io →
  now' < now + pending_connection (timeouts (ctr_policy (counters s))) → waiting tx = false →
  let open := mkOpen service connection in
  let '(f, l1) := on_message closed now' W_done (Ok (M_Open open)) l in
  let '(sent, l2) := handle_open io open svc l1 in
  f = Continue ∧ sl_running l1 = sl_running l ++ [open] ∧
  ∃ hello, sent = [M_DataHello hello] ∧
  let '(r, s2) := accept_data_hello waiting now' hello (sc_principal x) s1 in
  r = Ok tx ∧ (accept_data_hello waiting now' hello (sc_principal x) s2).1 = Err TE_Authorization.
Proof.
  intros Hx He Hsid Ha Hw Hact Hperm (Ht & Hd & Hh) Hnow Hwait open.
  cbn [on_message]. unfold on_open. cbn [op_service_id open]. rewrite Hact, (proj2 (Z.leb_gt _ _)) by lia.
  unfold handle_open. rewrite Ht, Hd, Hh. cbn [mbind result_bind write_bounded fst].
  split; [done|]. split; [done|]. eexists. split; [done|].
  destruct (wf_active _ Hw _ _ Hact) as [_ ->].
  unfold accept_external in Ha. rewrite Hx in Ha. destruct (_ <=? 0); [done|].
  destruct (ConnectionId_generate fill) as [c|]; [|done]. cbv zeta in Ha. destruct (_ <=? _); [done|].
  injection Ha as <- <-.
  unfold accept_data_hello, claim, upgrade. simpl. rewrite Hsid, He. simpl.
  rewrite lookup_alter_eq, Hx. simpl. rewrite bool_decide_eq_true_2 by done. simpl.
  rewrite lookup_alter_eq, Hx. simpl. rewrite lookup_insert_eq. simpl.
  rewrite bool_decide_eq_true_2 by done. rewrite (proj2 (Z.leb_gt _ _)) by done. simpl. rewrite Hwait. simpl.
  split; [done|]. rewrite He. simpl. rewrite !lookup_alter_eq, Hx. simpl.
  rewrite bool_decide_eq_true_2 by done. simpl. rewrite !lookup_alter_eq, Hx. simpl. by rewrite lookup_delete_eq.
Qed.

(** *** Witnesses *)

Definition agreeing_server : HandshakeIo := sample_io sample_token.
Definition agreeing_client : ConnectIo :=
  mkConnectIo W_done (delivered (hs_out (handshake sample_ct_eq agreeing_server sample_peer
      (mkSecretToken sample_token) (mkClientHello CURRENT supported) 5 0%nat (Limiter_new 10 60 1024)
      (new_session_registry RuntimePolicy_default)) !! 0%nat)) W_done
    (delivered (hs_out (handshake sample_ct_eq agreeing_server sample_peer
      (mkSecretToken sample_token) (mkClientHello CURRENT supported) 5 0%nat (Limiter_new 10 60 1024)
      (new_session_registry RuntimePolicy_default)) !! 1%nat)) sample_ack.

Lemma handshake_agreement_witness :
  (client_handshake agreeing_client (mkSecretToken sample_token)).1 = Ok (sample_sid, supported) ∧
  (client_handshake agreeing_client (mkSecretToken sample_token)).2 =
    [M_ClientHello (mkClientHello CURRENT supported); M_Auth (mkAuth sample_token)].
Proof.
  assert (client_handshake agreeing_client (mkSecretToken sample_token) =
    (Ok (sample_sid, supported), [M_ClientHello (mkClientHello CURRENT supported); M_Auth (mkAuth sample_token)]))
    as E by (vm_compute; reflexivity).
  split; [by rewrite E|].
  pose proof (handshake_agreement sample_ct_eq agreeing_server agreeing_client sample_peer sample_token
    sample_token (mkSecretToken sample_token) (mkSecretToken sample_token) 5 0%nat (Limiter_new 10 60 1024)
    (new_session_registry RuntimePolicy_default) sample_ct_eq_spec
    eq_refl eq_refl eq_refl eq_refl eq_refl eq_refl eq_refl) as H.
  rewrite E in H |- *. refine (proj1 (H _ _ _)); vm_compute; reflexivity.
Defined.

(** The client's sample Session and a server loop that shares its identity. *)
Definition agreeing_control : Control :=
  mkControl 0%nat (sl_session sample_loop) (sl_negotiated sample_loop) ∅ ∅ [] 0 ∅ [] None false.

Lemma sample_loop_wf : wf_state (sl_state sample_loop).
Proof.
  apply (activate_wf (clear_active (set_mode (CorrelatedBounded 32) (State_new [web])).2)).
  pose proof (set_mode_wf (CorrelatedBounded 32) (State_new [web]) (new_wf _ (proj1 web_nodup) (proj2 web_nodup))) as H.
  by destruct H; split.
Qed.

Lemma registration_agreement_witness :
  sl_out (on_register all_open W_done 5 ssh 3%nat sample_loop).2 = sl_out sample_loop ++ [registration ssh].
Proof.
  pose proof (registration_agreement all_open 5 6 W_done sample_listen BindPolicy_default ssh 3%nat sample_loop
    (begin ssh (sl_generation sample_loop) 3%nat (sl_state sample_loop)).2 agreeing_control
    (new_session_registry RuntimePolicy_default) sample_loop_wf eq_refl eq_refl eq_refl eq_refl eq_refl eq_refl) as H.
  destruct (on_register all_open W_done 5 ssh 3%nat sample_loop) as [f1 l1].
  destruct (on_incoming _ _ _ _ _ _) as [[f2 k'] s']. exact (proj1 (proj2 (proj2 H))).
Defined.

Definition offering_server : Server := hs_server (sample_handshake sample_token).
Definition offered : Accepted * Server :=
  accept_external 0%nat (cs_id web) (Some (replicate 16 Byte.x05)) 100 42%nat offering_server.
Definition offered_connection : ConnectionId := mkConnectionId (replicate 16 Byte.x05).
Definition offering_context : SessionContext :=
  match heap offering_server !! 0%nat with
  | Some x => x
  | None => new_context sample_sid None (counters offering_server)
  end.
Definition dialled : OpenIo :=
  mkOpenIo (StageDone (Ok tt)) (TcpTls (StageDone (Ok tt)) (StageDone (Ok tt)) None) W_done (3, 4).

Lemma open_agreement_witness :
  sl_running (on_message all_open 150 W_done (Ok (M_Open (mkOpen (cs_id web) offered_connection))) sample_loop).2 =
  sl_running sample_loop ++ [mkOpen (cs_id web) offered_connection].
Proof.
  assert (heap offering_server !! 0%nat = Some offering_context) as H1 by (vm_compute; reflexivity).
  assert (entries offering_server !! sl_session sample_loop = Some 0%nat) as H2 by (vm_compute; reflexivity).
  assert (offered = (Offered offered_connection, offered.2)) as H3 by (vm_compute; reflexivity).
  assert (st_active (sl_state sample_loop) !! cs_id web = Some web) as H4 by (vm_compute; reflexivity).
  assert (150 < 100 + pending_connection (timeouts (ctr_policy (counters offering_server)))) as H5
    by (vm_compute; reflexivity).
  pose proof (open_agreement all_open (fun _ => false) dialled 0%nat offering_context (sl_session sample_loop)
    (cs_id web) 42%nat 100 150 (Some (replicate 16 Byte.x05)) offered_connection offering_server offered.2
    sample_loop web H1 H2 eq_refl H3 sample_loop_wf H4 eq_refl (conj eq_refl (conj eq_refl eq_refl)) H5 eq_refl) as H.
  cbv zeta in H. destruct (on_message _ _ _ _ sample_loop) as [f l1].
  destruct (handle_open dialled _ web l1) as [sent l2]. exact (proj1 (proj2 H)).
Defined.
