(* ===== verification/System.v ===== *)
(** * A Session as a system: the client's loop and the server's loop

    The two control loops of one Session run side by side, each reading what
    the other has written, in order, while the other Sessions of the server go
    on.  Registrations, removals, heartbeats and offered connections are in
    flight in both directions at once.  [session_agreement] says that the two
    sides never misunderstand each other and agree on the published services
    whenever nothing is in flight. *)

From S2P Require Import Prelude Text Proto Codec Varint Frame Common WireIo AuthLimiter Session Control Registry Directory.
From S2P Require Import ServiceState Heartbeat ClientSession EndToEnd.

(** ** The system *)

(** [sy_up] and [sy_down] count the messages each side has read of what the
    other wrote. *)
Record System := mkSystem { sy_client : Loop; sy_world : World; sy_up : nat; sy_down : nat }.

Definition unread_up (y : System) : list Message := drop (sy_up y) (sl_out (sy_client y)).
Definition unread_down (k : Control) (y : System) : list Message := drop (sy_down y) (ct_out k).

Section system.
Variables (policy : BindPolicy) (sid : SessionId).

(** One arm of one of the two loops, with its write completed, or a step of
    another Session.  No deadline expires, and callers wait for the answer to
    a registration before they remove the service or go away. *)
Inductive system_step : System → System → Prop :=
| Y_register l w i j now service reply :
    system_step (mkSystem l w i j) (mkSystem (on_register (fun _ => false) W_done now service reply l).2 w i j)
| Y_unregister l w i j id reply :
    st_in_flight (sl_state l) !! id = None →
    system_step (mkSystem l w i j) (mkSystem (on_unregister W_done id reply l).2 w i j)
| Y_tick l w i j now : system_step (mkSystem l w i j) (mkSystem (on_tick now l).2 w i j)
| Y_outgoing l w i j : system_step (mkSystem l w i j) (mkSystem (on_outgoing W_done l).2 w i j)
| Y_opened l w i j n io open service :
    sl_running l !! n = Some open →
    system_step (mkSystem l w i j) (mkSystem (release_open n (handle_open io open service l).2) w i j)
| Y_client_reads l w i j k m now l' :
    w_controls w !! sid = Some k → ct_out k !! j = Some m →
    on_message (fun _ => false) now W_done (Ok m) l = (Continue, l') →
    system_step (mkSystem l w i j) (mkSystem l' w i (S j))
| Y_server_reads l s ks i j k m listen k' s' :
    ks !! sid = Some k → sl_out l !! i = Some m →
    on_incoming listen W_done policy (Ok m) k s = (Continue, k', s') →
    system_step (mkSystem l (mkWorld s ks) i j) (mkSystem l (mkWorld s' (<[sid := k']> ks)) (S i) j)
| Y_queued l s ks i j k m :
    ks !! sid = Some k → (∃ open, m = M_Open open) ∨ (∃ drain, m = M_Drain drain) →
    system_step (mkSystem l (mkWorld s ks) i j) (mkSystem l (mkWorld s (<[sid := (on_queued W_done m k).2]> ks)) i j)
| Y_world l w i j w' k k' :
    world_step policy w w' → w_controls w !! sid = Some k → w_controls w' !! sid = Some k' →
    ct_out k' = ct_out k → ct_services k' = ct_services k → ct_negotiated k' = ct_negotiated k →
    system_step (mkSystem l w i j) (mkSystem l w' i j).
End system.

(** The registrations a client makes before its loop: the server reads them
    one after the other, and each is answered before the next. *)
Fixpoint serve_initial (listen : SocketAddr → option (option SocketAddr)) (policy : BindPolicy)
    (desired : list ClientService) (k : Control) (s : Server) : Control * Server :=
  match desired with
  | [] => (k, s)
  | service :: rest =>
      let '(_, k1, s1) := on_incoming listen W_done policy (Ok (registration service)) k s in
      serve_initial listen policy rest k1 s1
  end.

Fixpoint answered_by (listen : SocketAddr → option (option SocketAddr)) (policy : BindPolicy)
    (io : ServiceId → WriteOutcome * poll (result TunnelError Message))
    (desired : list ClientService) (k : Control) (s : Server) : Prop :=
  match desired with
  | [] => True
  | service :: rest =>
      let '(_, k1, s1) := on_incoming listen W_done policy (Ok (registration service)) k s in
      io (cs_id service) = (W_done, delivered (list.last (ct_out k1))) ∧ answered_by listen policy io rest k1 s1
  end.

(** ** What the two sides know of a service *)

Abbreviation view := (option (ServiceName * option EffectiveBind)).

Definition client_view (l : Loop) (id : ServiceId) : view :=
  (fun service => (cs_name service, bind_of (sl_session l) id (ctr_binds (sl_counters l)))) <$> st_active (sl_state l) !! id.

Definition server_view (sid : SessionId) (k : Control) (s : Server) (id : ServiceId) : view :=
  (fun e => (se_name e, bind_of sid id (binds s))) <$> ct_services k !! id.

(** The service a message is about. *)
Definition service_of (m : Message) : option ServiceId :=
  match m with
  | M_RegisterService r => Some (rs_service_id r)
  | M_UnregisterService u => Some (us_service_id u)
  | M_RegisterAck a => Some (ra_service_id a)
  | M_RegisterReject r => Some (rj_service_id r)
  | _ => None
  end.

Definition about (id : ServiceId) (l : list Message) : list Message := filter (fun m => service_of m = Some id) l.

Definition removal (id : ServiceId) : Message := M_UnregisterService (mkUnregisterService id).

(** ** The story of one service

    What is in flight about it in each direction, what the server and the
    client know, and the registration the client waits for. *)
Inductive story (id : ServiceId) : list Message → list Message → view → view → option ClientService → Prop :=
| St_settled n m a :
    (n = 0%nat → m = a) → (n ≠ 0%nat → a = None) →
    story id (replicate n (removal id)) [] m a None
| St_asked n m service :
    cs_id service = id → (n = 0%nat → m = None) →
    story id (replicate n (removal id) ++ [registration service]) [] m None (Some service)
| St_acked bind service :
    cs_id service = id →
    story id [] [M_RegisterAck (mkRegisterAck id bind)] (Some (cs_name service, Some bind)) None (Some service)
| St_refused code diagnostic service :
    cs_id service = id →
    story id [] [M_RegisterReject (mkRegisterReject id code diagnostic)] None None (Some service).

(** What travels in each direction. *)
Definition upward (m : Message) : bool :=
  match m with
  | M_RegisterService _ | M_UnregisterService _ | M_OpenReject _ | M_Ping _ => true
  | _ => false
  end.
Definition downward (m : Message) : bool :=
  match m with
  | M_RegisterAck _ | M_RegisterReject _ | M_Open _ | M_Pong _ | M_Drain _ => true
  | _ => false
  end.

(** The protocol state: the unread messages, the two views and the
    registrations in flight. *)
Record protocol (up down : list Message) (server client : ServiceId → view)
    (waiting : ServiceId → option ClientService) : Prop :=
  { pt_story id : story id (about id up) (about id down) (server id) (client id) (waiting id);
    pt_up : Forall (fun m => upward m = true) up;
    pt_down : Forall (fun m => downward m = true) down }.

(** ** Moves of the protocol *)

Lemma about_app id l l' : about id (l ++ l') = about id l ++ about id l'.
Proof. apply list.filter_app. Qed.

Lemma about_other id m l : service_of m ≠ Some id → about id (m :: l) = about id l.
Proof. intros Hm. unfold about. by rewrite filter_cons_False. Qed.

Lemma about_this id m l : service_of m = Some id → about id (m :: l) = m :: about id l.
Proof. intros Hm. unfold about. by rewrite filter_cons_True. Qed.

Lemma about_snoc_other id m l : service_of m ≠ Some id → about id (l ++ [m]) = about id l.
Proof. intros Hm. rewrite about_app, about_other by done. apply app_nil_r. Qed.

Lemma about_snoc_this id m l : service_of m = Some id → about id (l ++ [m]) = about id l ++ [m].
Proof. intros Hm. rewrite about_app, about_this by done. done. Qed.

(** *** The story of one service goes on *)

Lemma story_ask id U D m service :
  cs_id service = id → story id U D m None None → story id (U ++ [registration service]) D m None (Some service).
Proof. intros Hid H. inversion H as [n m' a H0 H1| | |]; subst. by apply St_asked. Qed.

Lemma story_remove id U D m a : story id U D m a None → story id (U ++ [removal id]) D m None None.
Proof. intros H. inversion H as [n m' a' H0 H1| | |]; subst. rewrite <-replicate_S_end. by apply St_settled. Qed.

Lemma story_removed id U D m a P : story id (removal id :: U) D m a P → story id U D None a P.
Proof.
  intros H. inversion H as [n m' a' H0 H1 E|n m' service Hid H0 E| |]; subst; destruct n as [|n]; simplify_eq/=.
  - apply St_settled; [|intros _; by apply H1]. intros _. symmetry. by apply H1.
  - by apply St_asked.
Qed.

(** The server has read a registration: the client waits for this one, and
    the server does not know the service. *)
Lemma story_request id r U D m a P :
  story id (M_RegisterService r :: U) D m a P →
  ∃ service, M_RegisterService r = registration service ∧ cs_id service = id ∧
    U = [] ∧ D = [] ∧ m = None ∧ a = None ∧ P = Some service.
Proof.
  intros H. inversion H as [n m' a' H0 H1 E|n m' service Hid H0 E| |]; subst; destruct n as [|n]; simplify_eq/=.
  exists service. split_and!; try done. by apply H0.
Qed.

(** An answer the client reads is to the registration it waits for. *)
Lemma story_ack id bind U D m a P :
  story id U (M_RegisterAck (mkRegisterAck id bind) :: D) m a P →
  ∃ service, cs_id service = id ∧ U = [] ∧ D = [] ∧ m = Some (cs_name service, Some bind) ∧ a = None ∧ P = Some service.
Proof. intros H. inversion H as [| |bind' service Hid|]; subst. by exists service. Qed.

Lemma story_reject id r U D m a P :
  story id U (M_RegisterReject r :: D) m a P →
  ∃ service, cs_id service = id ∧ U = [] ∧ D = [] ∧ m = None ∧ a = None ∧ P = Some service.
Proof. intros H. inversion H as [| | |code d service Hid]; subst. by exists service. Qed.

Lemma story_agreed id m : story id [] [] m m None.
Proof. by apply (St_settled id 0). Qed.

(** Nothing in flight, nothing awaited, and the same views. *)
Lemma story_quiet id m a P : story id [] [] m a P → m = a ∧ P = None.
Proof.
  intros H. inversion H as [n m' a' H0 H1 E|n m' service Hid H0 E| |]; subst.
  - destruct n; [|done]. split; [by apply H0|done].
  - by destruct n.
Qed.

(** A registration that is awaited is on its way, or its answer is. *)
Lemma story_waiting id U D m a service : story id U D m a (Some service) → U ++ D ≠ [].
Proof. inversion 1; subst; [|done..]. by destruct n. Qed.

Ltac at_service id :=
  let i := fresh "i" in let Hi := fresh "Hi" in
  intros i; destruct (decide (i = id)) as [Hi|Hi]; [subst i|].

Section moves.
Variables (up down : list Message) (server client : ServiceId → view) (waiting : ServiceId → option ClientService).
Hypothesis inv : protocol up down server client waiting.

(** The views and the registrations matter only service by service. *)
Lemma protocol_ext server' client' waiting' :
  (∀ id, server' id = server id) → (∀ id, client' id = client id) → (∀ id, waiting' id = waiting id) →
  protocol up down server' client' waiting'.
Proof. intros Hs Hc Hw. destruct inv as [H1 H2 H3]. split; [|done..]. intros id. by rewrite Hs, Hc, Hw. Qed.

(** Messages about no service come and go. *)
Lemma protocol_up_other m : service_of m = None → upward m = true → protocol (up ++ [m]) down server client waiting.
Proof.
  intros Hm Hu. destruct inv as [H1 H2 H3]. split; [|by apply Forall_app_2; [|constructor]|done].
  intros id. by rewrite about_snoc_other by (by rewrite Hm).
Qed.

Lemma protocol_down_other m : service_of m = None → downward m = true → protocol up (down ++ [m]) server client waiting.
Proof.
  intros Hm Hu. destruct inv as [H1 H2 H3]. split; [|done|by apply Forall_app_2; [|constructor]].
  intros id. by rewrite about_snoc_other by (by rewrite Hm).
Qed.

(** The client asks for a service it does not have. *)
Lemma protocol_ask service waiting' :
  client (cs_id service) = None → waiting (cs_id service) = None →
  waiting' (cs_id service) = Some service → (∀ i, i ≠ cs_id service → waiting' i = waiting i) →
  protocol (up ++ [registration service]) down server client waiting'.
Proof.
  intros Hc Hw Hw' Ho. destruct inv as [H1 H2 H3]. split; [|by apply Forall_app_2; [|constructor]|done].
  at_service (cs_id service).
  - rewrite about_snoc_this, Hw', Hc by done. apply story_ask; [done|]. specialize (H1 (cs_id service)). by rewrite Hc, Hw in H1.
  - rewrite about_snoc_other by (simpl; congruence). rewrite Ho by done. apply H1.
Qed.

(** The client removes a service it does not wait for. *)
Lemma protocol_remove id client' :
  waiting id = None → client' id = None → (∀ i, i ≠ id → client' i = client i) →
  protocol (up ++ [removal id]) down server client' waiting.
Proof.
  intros Hw Hc Ho. destruct inv as [H1 H2 H3]. split; [|by apply Forall_app_2; [|constructor]|done].
  at_service id.
  - rewrite about_snoc_this, Hw, Hc by done. apply (story_remove _ _ _ _ (client id)). rewrite <-Hw. apply H1.
  - rewrite about_snoc_other by (simpl; congruence). rewrite Ho by done. apply H1.
Qed.
End moves.

Lemma protocol_up_read m up down server client waiting :
  service_of m = None → protocol (m :: up) down server client waiting → protocol up down server client waiting.
Proof.
  intros Hm [H1 H2 H3]. apply Forall_cons_iff in H2 as [_ H2]. split; [|done..].
  intros id. specialize (H1 id). by rewrite about_other in H1 by (by rewrite Hm).
Qed.

Lemma protocol_down_read m up down server client waiting :
  service_of m = None → protocol up (m :: down) server client waiting → protocol up down server client waiting.
Proof.
  intros Hm [H1 H2 H3]. apply Forall_cons_iff in H3 as [_ H3]. split; [|done..].
  intros id. specialize (H1 id). by rewrite about_other in H1 by (by rewrite Hm).
Qed.

(** The server reads a removal. *)
Lemma protocol_removed id up down server client waiting server' :
  protocol (removal id :: up) down server client waiting →
  server' id = None → (∀ i, i ≠ id → server' i = server i) →
  protocol up down server' client waiting.
Proof.
  intros [H1 H2 H3] Hs Ho. apply Forall_cons_iff in H2 as [_ H2]. split; [|done..]. at_service id.
  - specialize (H1 id). rewrite about_this in H1 by done. rewrite Hs. by eapply story_removed.
  - specialize (H1 i). rewrite about_other in H1 by (simpl; congruence). by rewrite Ho.
Qed.

(** The server reads a registration and answers it. *)
Lemma protocol_answered r up down server client waiting answer server' :
  protocol (M_RegisterService r :: up) down server client waiting →
  (∀ i, i ≠ rs_service_id r → server' i = server i) →
  (∃ bind, answer = M_RegisterAck (mkRegisterAck (rs_service_id r) bind) ∧
     server' (rs_service_id r) = Some (rs_name r, Some bind)) ∨
  (∃ code d, answer = M_RegisterReject (mkRegisterReject (rs_service_id r) code d) ∧
     server' (rs_service_id r) = server (rs_service_id r)) →
  server (rs_service_id r) = None ∧ protocol up (down ++ [answer]) server' client waiting.
Proof.
  intros [H1 H2 H3] Ho Ha. apply Forall_cons_iff in H2 as [_ H2]. set (id := rs_service_id r) in *.
  pose proof (H1 id) as Hid. rewrite about_this in Hid by done.
  apply story_request in Hid as (service & Er & Eid & Eu & Ed & Em & Ea & Ew). split; [done|].
  assert (service_of answer = Some id ∧ downward answer = true) as [Hs Hd].
  { destruct Ha as [(bind & -> & _)|(code & d & -> & _)]; done. }
  split; [|done|by apply Forall_app_2; [|constructor]]. at_service id.
  - rewrite about_snoc_this, Eu, Ed, Ea, Ew by done. destruct Ha as [(bind & -> & ->)|(code & d & -> & ->)].
    + injection Er as En. replace (rs_name r) with (cs_name service) by (by rewrite En). by apply St_acked.
    + rewrite Em. by apply St_refused.
  - rewrite about_snoc_other by (rewrite Hs; congruence). specialize (H1 i).
    rewrite about_other in H1 by (simpl; fold id; congruence). by rewrite Ho.
Qed.

(** The client reads an acknowledgement, or a rejection. *)
Lemma protocol_acked id bind up down server client waiting client' waiting' :
  protocol up (M_RegisterAck (mkRegisterAck id bind) :: down) server client waiting →
  (∀ service, waiting id = Some service → client' id = Some (cs_name service, Some bind)) → waiting' id = None →
  (∀ i, i ≠ id → client' i = client i ∧ waiting' i = waiting i) →
  protocol up down server client' waiting'.
Proof.
  intros [H1 H2 H3] Hc Hw Ho. apply Forall_cons_iff in H3 as [_ H3]. split; [|done..]. at_service id.
  - specialize (H1 id). rewrite about_this in H1 by done.
    apply story_ack in H1 as (service & Eid & -> & -> & -> & _ & Ew). rewrite (Hc service), Hw by done. apply story_agreed.
  - specialize (H1 i). rewrite about_other in H1 by (simpl; congruence). by destruct (Ho i) as [-> ->].
Qed.

Lemma protocol_rejected r up down server client waiting waiting' :
  protocol up (M_RegisterReject r :: down) server client waiting →
  waiting' (rj_service_id r) = None → (∀ i, i ≠ rj_service_id r → waiting' i = waiting i) →
  protocol up down server client waiting'.
Proof.
  intros [H1 H2 H3] Hw Ho. apply Forall_cons_iff in H3 as [_ H3]. split; [|done..]. at_service (rj_service_id r).
  - specialize (H1 (rj_service_id r)). rewrite about_this in H1 by done.
    apply story_reject in H1 as (service & Eid & -> & -> & -> & -> & _). rewrite Hw. apply story_agreed.
  - specialize (H1 i). rewrite about_other in H1 by (simpl; congruence). by rewrite (Ho i).
Qed.

(** What an answer at the head of the line tells about the client. *)
Lemma protocol_ack_awaited id bind up down server client waiting :
  protocol up (M_RegisterAck (mkRegisterAck id bind) :: down) server client waiting →
  ∃ service, waiting id = Some service ∧ cs_id service = id ∧ client id = None.
Proof.
  intros [H1 _ _]. specialize (H1 id). rewrite about_this in H1 by done.
  apply story_ack in H1 as (service & ? & _ & _ & _ & ? & ?). by exists service.
Qed.

Lemma protocol_reject_awaited r up down server client waiting :
  protocol up (M_RegisterReject r :: down) server client waiting → ∃ service, waiting (rj_service_id r) = Some service.
Proof.
  intros [H1 _ _]. specialize (H1 (rj_service_id r)). rewrite about_this in H1 by done.
  apply story_reject in H1 as (service & _ & _ & _ & _ & _ & ?). by exists service.
Qed.

(** ** The client's side *)

Definition waiting_of (l : Loop) (id : ServiceId) : option ClientService :=
  pr_service <$> st_in_flight (sl_state l) !! id.

Section client.
Variables (pol : RuntimePolicy) (sid : SessionId).

(** A client in a correlated Session whose callers all wait. *)
Record client_ok (l : Loop) : Prop :=
  { co_loop : loop_inv pol l;
    co_session : sl_session l = sid;
    co_mode : ∃ n, st_mode (sl_state l) = CorrelatedBounded n;
    co_correlated : correlated l = true;
    co_abandoned : st_abandoned (sl_state l) = ∅;
    co_txns : map_Forall (fun _ t => pr_generation t = sl_generation l ∧ is_Some (pr_reply t))
                (st_in_flight (sl_state l));
    co_queue : Forall (fun m => upward m = true ∧ service_of m = None) (sl_queue l) }.

(** An arm that has nothing to do with services. *)
Record calm (l l' : Loop) : Prop :=
  { ca_state : sl_state l' = sl_state l;
    ca_binds : ctr_binds (sl_counters l') = ctr_binds (sl_counters l);
    ca_session : sl_session l' = sl_session l;
    ca_generation : sl_generation l' = sl_generation l;
    ca_negotiated : sl_negotiated l' = sl_negotiated l;
    ca_queue : Forall (fun m => upward m = true ∧ service_of m = None) (sl_queue l) →
               Forall (fun m => upward m = true ∧ service_of m = None) (sl_queue l') }.

Lemma calm_ok l l' : calm l l' → loop_inv pol l' → client_ok l → client_ok l'.
Proof.
  intros [Hs Hb Hse Hg Hn Hq] Hl [H1 H2 H3 H4 H5 H6 H7]. split; rewrite ?Hs, ?Hse, ?Hg; try done; [|by apply Hq].
  unfold correlated in *. by rewrite Hn.
Qed.

Lemma calm_view l l' id : calm l l' → client_view l' id = client_view l id ∧ waiting_of l' id = waiting_of l id.
Proof. intros [Hs Hb Hse _ _ _]. unfold client_view, waiting_of. by rewrite Hs, Hb, Hse. Qed.

Lemma calm_try_send m l : upward m = true → service_of m = None → calm l (try_send m l).2.
Proof.
  intros Hu Hm. unfold try_send. destruct (_ <? _); [|by split]. split; try done. simpl. intros Hq.
  by apply Forall_app_2; [|constructor].
Qed.

#[local] Instance calm_trans : Transitive calm.
Proof. intros x y z [? ? ? ? ? ?] [? ? ? ? ? ?]. split; try congruence. auto. Qed.

Lemma calm_count f l : ctr_binds (f (sl_counters l)) = ctr_binds (sl_counters l) → calm l (count f l).
Proof. by split. Qed.

Lemma calm_tick now l : calm l (on_tick now l).2 ∧ sl_out (on_tick now l).2 = sl_out l.
Proof.
  unfold on_tick. destruct (has_outstanding _); [by split|]. simpl.
  match goal with |- context [try_send ?m ?l1] =>
    pose proof (calm_try_send m l1 eq_refl eq_refl) as Hc;
    assert (sl_out (try_send m l1).2 = sl_out l1) as Ho by (unfold try_send; by destruct (_ <? _));
    destruct (try_send m l1) as [[] l2] end; simpl in *; (split; [|exact Ho]); destruct Hc; by split.
Qed.

Lemma calm_opened io n open service l :
  let l' := release_open n (handle_open io open service l).2 in calm l l' ∧ sl_out l' = sl_out l.
Proof.
  assert (∀ l', calm l' (release_open n l') ∧ sl_out (release_open n l') = sl_out l') as Hr by done.
  assert (calm l (handle_open io open service l).2 ∧ sl_out (handle_open io open service l).2 = sl_out l) as [H1 H2].
  { unfold handle_open. destruct (_ ≫= _); simpl; [by split|]. destruct (sl_cancelled l); [by split|].
    match goal with |- context [try_send ?m l] =>
      pose proof (calm_try_send m l eq_refl eq_refl) as Hc;
      assert (sl_out (try_send m l).2 = sl_out l) as Ho by (unfold try_send; by destruct (_ <? _));
      destruct (try_send m l) as [[] l2] end; simpl in *; (split; [|exact Ho]); destruct Hc; by split. }
  destruct (Hr (handle_open io open service l).2) as [H3 H4]. split; [by etransitivity|]. by rewrite H4.
Qed.

Lemma calm_open open l : calm l (on_open open l) ∧ sl_out (on_open open l) = sl_out l.
Proof.
  unfold on_open. assert (∀ code category,
    let l' := (try_send (M_OpenReject (mkOpenReject (op_connection_id open) code))
       (count (fun c => record_termination category (fetch_add n_rejected 1 c)) l)).2 in
    calm l l' ∧ sl_out l' = sl_out l) as Href.
  { intros code category. split; [|unfold try_send; by destruct (_ <? _)].
    etransitivity; [|by apply calm_try_send]. by apply calm_count. }
  destruct (st_active _ !! _); [|apply Href]. destruct (_ <=? 0); [apply Href|]. by split.
Qed.

(** *** Registration and removal *)

Lemma begin_in_flight service g reply s :
  wf_state s → st_abandoned s = ∅ → (∃ n, st_mode s = CorrelatedBounded n) →
  let '(r, s') := begin service g reply s in
  st_active s' = st_active s ∧ st_mode s' = st_mode s ∧ st_abandoned s' = ∅ ∧
  match r with
  | Ok _ => st_in_flight s' = <[cs_id service := mkPending service g (Some reply) None]> (st_in_flight s) ∧
            st_in_flight s !! cs_id service = None ∧ st_active s !! cs_id service = None
  | Err _ => st_in_flight s' = st_in_flight s
  end.
Proof.
  intros Hw Ha [n Hm]. unfold begin. destruct (already_known service s) eqn:Hk; [done|].
  rewrite already_known_false in Hk. simpl. rewrite Hm. simpl. rewrite Ha, delete_empty.
  destruct (_ <=? _); [done|]. split_and!; try done.
  - apply eq_None_not_Some. intros [t Ht]. pose proof (wf_keys _ Hw _ _ Ht) as Hkey. destruct (Hk (pr_service t)) as [Hne _]; [|done].
    unfold services, txns. apply elem_of_app. right. apply list_elem_of_fmap_2, elem_of_app. right.
    apply elem_of_values. by eexists.
  - apply eq_None_not_Some. intros [x Hx]. destruct (wf_active _ Hw _ _ Hx) as [Hin Hid].
    destruct (Hk x) as [Hne _]; [|done]. unfold services. apply elem_of_app. by left.
Qed.

Lemma client_register now service reply l :
  client_ok l → let l' := (on_register (fun _ => false) W_done now service reply l).2 in
  client_ok l' ∧ (∀ id, client_view l' id = client_view l id) ∧
  ((sl_out l' = sl_out l ∧ ∀ id, waiting_of l' id = waiting_of l id) ∨
   (sl_out l' = sl_out l ++ [registration service] ∧ client_view l (cs_id service) = None ∧
    waiting_of l (cs_id service) = None ∧ waiting_of l' (cs_id service) = Some service ∧
    ∀ id, id ≠ cs_id service → waiting_of l' id = waiting_of l id)).
Proof.
  intros Hok l'. pose proof Hok as [H1 H2 H3 H4 H5 H6 H7].
  assert (loop_inv pol l') as Hl by (by apply on_register_inv). unfold l', on_register in *. clear l'.
  destruct (_ <=? _); [split_and!; [by split|done|by left]|].
  pose proof (begin_in_flight service (sl_generation l) reply _ (li_wf _ _ H1) H5 H3) as Hb.
  destruct (begin _ _ _ _) as [[[]|[e r]] s] eqn:E; destruct Hb as (Ha & Hm & Hab & Hf); simpl in *.
  - destruct Hf as (Hf & Hn & Hna). destruct H3 as [n Hn3].
    assert (st_mode s = CorrelatedBounded n) as Hms by congruence.
    unfold arm_deadline in *. rewrite Hms in *. split_and!.
    + split; simpl; try done; [by exists n|]. rewrite Hf, alter_insert_eq. simpl.
      apply map_Forall_insert_2; [by split|done].
    + intros id. unfold client_view. simpl. by rewrite Ha.
    + right. unfold waiting_of, client_view. simpl. rewrite Hf, Hn, Hna, alter_insert_eq. split_and!; try done.
      * by rewrite lookup_insert_eq.
      * intros id Hne. by rewrite lookup_insert_ne.
  - split_and!.
    + split; simpl; try done; [by rewrite Hm|by rewrite Hf].
    + intros id. unfold client_view. simpl. by rewrite Ha.
    + left. split; [done|]. intros id. unfold waiting_of. simpl. by rewrite Hf.
Qed.

Lemma client_unregister id reply l :
  client_ok l → st_in_flight (sl_state l) !! id = None →
  let l' := (on_unregister W_done id reply l).2 in
  client_ok l' ∧ sl_out l' = sl_out l ++ [removal id] ∧ client_view l' id = None ∧
  (∀ i, i ≠ id → client_view l' i = client_view l i) ∧ (∀ i, waiting_of l' i = waiting_of l i).
Proof.
  intros Hok Hn l'. pose proof Hok as [H1 H2 H3 H4 H5 H6 H7].
  assert (loop_inv pol l') as Hl by (by apply on_unregister_inv). unfold l', on_unregister in *. clear l'.
  destruct H3 as [n Hm]. pose proof (wf_mode _ (li_wf _ _ H1)) as Hw. rewrite Hm in Hw. destruct Hw as [Hp _].
  unfold unregister in *. rewrite Hp, Hn in *. cbn zeta in *. simpl in *.
  destruct (bool_decide _); simpl in *.
  - split_and!; try done.
    + split; simpl; try done; [by exists n|]. by rewrite delete_id.
    + unfold client_view. simpl. by rewrite lookup_delete_eq.
    + intros i Hi. unfold client_view. simpl. rewrite lookup_delete_ne by done.
      destruct (st_active (sl_state l) !! i); [|done]. simpl. do 2 f_equal. apply bind_of_filter. congruence.
    + intros i. unfold waiting_of. simpl. by rewrite delete_id.
  - split_and!; try done.
    + split; simpl; try done; [by exists n|]. by rewrite delete_id.
    + unfold client_view. simpl. by rewrite lookup_delete_eq.
    + intros i Hi. unfold client_view. simpl. by rewrite lookup_delete_ne by done.
    + intros i. unfold waiting_of. simpl. by rewrite delete_id.
Qed.
(** *** Reading an answer *)

Lemma take_awaited id l :
  client_ok l → is_Some (waiting_of l id) →
  ∃ txn r s, take_transaction id (sl_state l) = (Found txn, s) ∧ waiting_of l id = Some (pr_service txn) ∧
    pr_generation txn = sl_generation l ∧ pr_reply txn = Some r ∧
    st_active s = st_active (sl_state l) ∧ st_mode s = st_mode (sl_state l) ∧ st_abandoned s = ∅ ∧
    st_in_flight s = delete id (st_in_flight (sl_state l)).
Proof.
  intros [H1 H2 [n Hm] H4 H5 H6 H7] [service Hw]. unfold waiting_of in *. apply fmap_Some in Hw as (txn & Ht & ->).
  destruct (H6 _ _ Ht) as [Hg [r Hr]]. pose proof (wf_mode _ (li_wf _ _ H1)) as Hp. rewrite Hm in Hp. destruct Hp as [Hp _].
  unfold take_transaction. rewrite Hp, Ht. eexists txn, r, _. by split_and!.
Qed.

Lemma client_acked now id bind l :
  client_ok l → is_Some (waiting_of l id) → client_view l id = None →
  ∃ l', on_message (fun _ => false) now W_done (Ok (M_RegisterAck (mkRegisterAck id bind))) l = (Continue, l') ∧
  client_ok l' ∧ sl_out l' = sl_out l ∧
  (∀ service, waiting_of l id = Some service → client_view l' id = Some (cs_name service, Some bind)) ∧
  waiting_of l' id = None ∧
  (∀ i, i ≠ id → client_view l' i = client_view l i ∧ waiting_of l' i = waiting_of l i).
Proof.
  intros Hok Hw Hv. destruct (take_awaited id l Hok Hw) as (txn & r & s & Ht & Ew & Hg & Hr & Ha & Hm & Hab & Hf).
  pose proof Hok as [H1 H2 H3 H4 H5 H6 H7].
  pose proof (on_message_inv _ (fun _ => false) now W_done (Ok (M_RegisterAck (mkRegisterAck id bind))) l H1) as Hl.
  destruct (take_transaction_wf _ _ _ _ (li_wf _ _ H1) Ht) as (_ & _ & _ & Hid).
  assert (¬ (id ∈ binds_of (sl_session l) (ctr_binds (sl_counters l)))) as Hnb.
  { intros (b & -> & [_ Hb]%list_elem_of_filter)%list_elem_of_fmap. apply (list_elem_of_fmap_2 be_service) in Hb.
    rewrite (li_binds _ _ H1) in Hb. unfold active_ids in Hb. apply list_elem_of_fmap in Hb as ([i x] & E & Hx%elem_of_map_to_list).
    simpl in E. subst i. unfold client_view in Hv. by rewrite Hx in Hv. }
  cbn [on_message] in Hl |- *. unfold on_ack, take_ack in *. cbn [ra_service_id] in *. rewrite Ht in *.
  rewrite Hg, Z.eqb_refl, Hr in *. cbn [negb] in *. eexists. split; [done|]. cbn [snd] in Hl. split_and!.
  - split; simpl; try done; [by rewrite Hm|]. rewrite Hf. by apply map_Forall_delete.
  - done.
  - intros service Es. rewrite Ew in Es. injection Es as <-. unfold client_view. simpl. rewrite Hid, lookup_insert_eq. simpl.
    by rewrite bind_of_app_new.
  - unfold waiting_of. simpl. by rewrite Hf, lookup_delete_eq.
  - intros i Hi. unfold client_view, waiting_of. simpl. rewrite Hid, Hf, Ha, lookup_delete_ne, lookup_insert_ne by done.
    split; [|done]. destruct (st_active (sl_state l) !! i); [|done]. simpl. do 2 f_equal. apply bind_of_app_other. right. simpl. congruence.
Qed.

Lemma client_rejected now r l :
  client_ok l → is_Some (waiting_of l (rj_service_id r)) →
  ∃ l', on_message (fun _ => false) now W_done (Ok (M_RegisterReject r)) l = (Continue, l') ∧
  client_ok l' ∧ sl_out l' = sl_out l ∧ (∀ i, client_view l' i = client_view l i) ∧
  waiting_of l' (rj_service_id r) = None ∧ (∀ i, i ≠ rj_service_id r → waiting_of l' i = waiting_of l i).
Proof.
  intros Hok Hw. destruct (take_awaited _ l Hok Hw) as (txn & r' & s & Ht & Ew & Hg & Hr & Ha & Hm & Hab & Hf).
  pose proof Hok as [H1 H2 H3 H4 H5 H6 H7].
  pose proof (on_message_inv _ (fun _ => false) now W_done (Ok (M_RegisterReject r)) l H1) as Hl.
  cbn [on_message] in Hl |- *. unfold on_reject, take_reject in *. rewrite H4, Ht in *. cbn [negb] in *.
  rewrite Hg, Z.eqb_refl, Hr in *. cbn [negb] in *. eexists. split; [done|]. cbn [snd] in Hl. split_and!.
  - split; simpl; try done; [by rewrite Hm|]. rewrite Hf. by apply map_Forall_delete.
  - done.
  - intros i. unfold client_view. simpl. by rewrite Ha.
  - unfold waiting_of. simpl. by rewrite Hf, lookup_delete_eq.
  - intros i Hi. unfold waiting_of. simpl. by rewrite Hf, lookup_delete_ne.
Qed.

(** Whatever the client reads next, it understands. *)
Lemma system_client_reads now m up down server l :
  client_ok l → protocol up (m :: down) server (client_view l) (waiting_of l) →
  ∃ f l', on_message (fun _ => false) now W_done (Ok m) l = (f, l') ∧ (f = Continue ∨ f = Break) ∧
  (f = Continue → client_ok l' ∧ sl_out l' = sl_out l ∧ protocol up down server (client_view l') (waiting_of l')).
Proof.
  intros Hok Hp. pose proof (pt_down _ _ _ _ _ Hp) as [Hd _]%Forall_cons_iff.
  pose proof (on_message_inv _ (fun _ => false) now W_done (Ok m) l (co_loop _ Hok)) as Hl.
  assert (∀ l', service_of m = None → calm l l' → sl_out l' = sl_out l → loop_inv pol l' →
    client_ok l' ∧ sl_out l' = sl_out l ∧ protocol up down server (client_view l') (waiting_of l')) as Hcalm.
  { intros l' Hm Hc Ho Hl'. split_and!; [by eapply calm_ok|done|]. apply protocol_down_read in Hp; [|done].
    eapply protocol_ext; [exact Hp|done|intros id; by apply calm_view..]. }
  destruct m; try done.
  - destruct v as [id bind]. destruct (protocol_ack_awaited _ _ _ _ _ _ _ Hp) as (service & Hw & _ & Hv).
    destruct (client_acked now id bind l Hok) as (l' & E & Hok' & Ho & H1 & H2 & H3); [by rewrite Hw|done|].
    exists Continue, l'. split_and!; [done|by left|]. intros _. split_and!; [done..|]. by eapply protocol_acked.
  - eexists _, _. split_and!; [done|by left|]. intros _. destruct (calm_open v l) as [Hc Ho]. by apply Hcalm.
  - eexists _, _. split_and!; [done|by left|]. intros _. cbn [on_message snd] in Hl. unfold on_pong in *.
    destruct (matching_pong _ _) as [[sent|] h]; by apply Hcalm.
  - eexists _, _. split_and!; [done|by right|done].
  - destruct (protocol_reject_awaited _ _ _ _ _ _ Hp) as (service & Hw).
    destruct (client_rejected now v l Hok) as (l' & E & Hok' & Ho & H1 & H2 & H3); [by rewrite Hw|].
    exists Continue, l'. split_and!; [done|by left|]. intros _. split_and!; [done..|].
    eapply protocol_ext; [by eapply protocol_rejected|done..].
Qed.
End client.

(** ** The server's side *)

Section server.
Variables (policy : BindPolicy) (p : RuntimePolicy) (max : Z) (sid : SessionId).
Variables (s : Server) (ks : gmap SessionId Control) (k : Control).
Hypothesis winv : world_inv p max (mkWorld s ks).
Hypothesis found : ks !! sid = Some k.
Hypothesis negotiated : has (ct_negotiated k) CAPABILITY_REGISTER_REJECT = true.

Lemma register_negotiated listen r :
  let '(_, k', _) := register_service listen W_done policy r k s in ct_negotiated k' = ct_negotiated k.
Proof.
  assert (∀ code f, let '(_, k', _) := (write_registration_response W_done (rs_service_id r) code k, on_counters f s) in
    ct_negotiated k' = ct_negotiated k) as Href.
  { intros code f. destruct (response_written (rs_service_id r) code k) as (d & _ & ->). done. }
  unfold register_service. destruct (_ <=? _) eqn:E1; [apply (Href _ (fun c => c))|]. destruct (_ || _) eqn:E2; [apply (Href _ (fun c => c))|].
  destruct (bind_to_socket _ _) as [addr|e]; [|apply (Href _ (fun c => c))]. destruct (listen addr) as [[local|]|]; [done|apply (Href _ (fun c => c))..].
Qed.

(** A registration is answered with the truth about the server's tables. *)
Lemma server_registers listen r :
  ∃ k' s' answer, register_service listen W_done policy r k s = (Continue, k', s') ∧
  ct_out k' = ct_out k ++ [answer] ∧ ct_negotiated k' = ct_negotiated k ∧
  (∀ i, i ≠ rs_service_id r → server_view sid k' s' i = server_view sid k s i) ∧
  ((∃ bind, answer = M_RegisterAck (mkRegisterAck (rs_service_id r) bind) ∧
      server_view sid k' s' (rs_service_id r) = Some (rs_name r, Some bind)) ∨
   (∃ code d, answer = M_RegisterReject (mkRegisterReject (rs_service_id r) code d) ∧
      server_view sid k' s' (rs_service_id r) = server_view sid k s (rs_service_id r))).
Proof.
  destruct (wi_control _ _ _ winv _ _ found) as (Hsid & _).
  pose proof (register_service_answer listen policy r k s) as Ha.
  pose proof (register_service_change listen W_done policy r k s) as Hc.
  pose proof (register_negotiated listen r) as Hn.
  destruct (register_service _ _ _ _ _ _) as [[f k'] s']. destruct Ha as (-> & m & Ho & Ha).
  exists k', s', m. split_and!; [done..| |].
  - intros i Hi. unfold server_view. destruct Hc as [[-> ->]|(tok & bind & _ & _ & _ & -> & ->)]; [done|].
    rewrite lookup_insert_ne by done. destruct (ct_services k !! i); [|done]. simpl. do 2 f_equal.
    apply bind_of_app_other. right. simpl. congruence.
  - destruct Ha as [(addr & local & effective & _ & Hk & _ & _ & _ & -> & Hs & Hb)|(code & d & _ & -> & _ & Hs & _ & _ & Hb & _)].
    + left. exists effective. split; [done|]. unfold server_view. apply fmap_Some in Hs as (e & -> & ->). simpl.
      rewrite Hb, Hsid. do 2 f_equal. apply bind_of_app_new. rewrite (bind_known _ _ _ _ winv sid k) by done. tauto.
    + right. exists code, d. rewrite negotiated. split; [done|]. unfold server_view. by rewrite Hs, Hb.
Qed.

Lemma server_unregisters id :
  let '(k', s') := unregister_service id k s in
  ct_out k' = ct_out k ∧ ct_negotiated k' = ct_negotiated k ∧ server_view sid k' s' id = None ∧
  (∀ i, i ≠ id → server_view sid k' s' i = server_view sid k s i).
Proof.
  destruct (wi_control _ _ _ winv _ _ found) as (Hsid & _).
  unfold unregister_service, server_view. destruct (ct_services k !! id) as [e|] eqn:E.
  - set (s1 := on_counters _ s). destruct (data_step_view _ _ (S_remove_service s1 (ct_address k) id)) as (Hb & _).
    rewrite Hb. simpl. split_and!; [done..|by rewrite lookup_delete_eq|]. intros i Hi. rewrite lookup_delete_ne by done.
    destruct (ct_services k !! i); [|done]. simpl. do 2 f_equal. apply bind_of_filter. naive_solver.
  - by rewrite E.
Qed.

(** Whatever the server reads next, it understands. *)
Lemma system_server_reads listen m up down client waiting :
  protocol (m :: up) down (server_view sid k s) client waiting →
  ∃ k' s' out, on_incoming listen W_done policy (Ok m) k s = (Continue, k', s') ∧
  ct_out k' = ct_out k ++ out ∧ ct_negotiated k' = ct_negotiated k ∧
  protocol up (down ++ out) (server_view sid k' s') client waiting.
Proof.
  intros Hp. pose proof (pt_up _ _ _ _ _ Hp) as [Hu _]%Forall_cons_iff. unfold on_incoming. destruct m; try done.
  - destruct (server_registers listen v) as (k' & s' & answer & E & Ho & Hn & Hi & Ha).
    exists k', s', [answer]. split_and!; [done..|]. by eapply protocol_answered.
  - pose proof (server_unregisters (us_service_id v)) as Hu'. destruct (unregister_service _ k s) as [k' s'].
    destruct Hu' as (Ho & Hn & H1 & H2). exists k', s', []. rewrite !app_nil_r. split_and!; [done..|].
    destruct v as [id]. by eapply protocol_removed.
  - eexists _, _, []. rewrite !app_nil_r. split_and!; [done..|]. apply protocol_up_read in Hp; [|done].
    eapply protocol_ext; [exact Hp| |done..]. intros id. unfold server_view.
    by destruct (claim_view (ct_address k) (or_connection_id v) s) as (-> & _).
  - simpl. eexists _, _, [_]. split_and!; [done..|]. apply protocol_up_read in Hp; [|done].
    by eapply (protocol_down_other _ _ _ _ _ Hp).
Qed.
End server.

(** ** Both sides *)

Definition in_order (k : Control) (y : System) : Prop :=
  (sy_up y <= length (sl_out (sy_client y)))%nat ∧ (sy_down y <= length (ct_out k))%nat.

Section both.
Variables (pol : RuntimePolicy) (policy : BindPolicy) (p : RuntimePolicy) (sid : SessionId).

Definition system_inv (y : System) : Prop :=
  ∃ k, w_controls (sy_world y) !! sid = Some k ∧ has (ct_negotiated k) CAPABILITY_REGISTER_REJECT = true ∧
    client_ok pol sid (sy_client y) ∧ world_inv p (service_bound policy p) (sy_world y) ∧ in_order k y ∧
    protocol (unread_up y) (unread_down k y) (server_view sid k (w_server (sy_world y)))
      (client_view (sy_client y)) (waiting_of (sy_client y)).

(** The client has stepped on its own. *)
Lemma client_moved l w i j k l' new :
  w_controls w !! sid = Some k → has (ct_negotiated k) CAPABILITY_REGISTER_REJECT = true →
  world_inv p (service_bound policy p) w → in_order k (mkSystem l w i j) →
  client_ok pol sid l' → sl_out l' = sl_out l ++ new →
  protocol (unread_up (mkSystem l w i j) ++ new) (unread_down k (mkSystem l w i j)) (server_view sid k (w_server w))
    (client_view l') (waiting_of l') →
  system_inv (mkSystem l' w i j).
Proof.
  intros Hk Hn Hw [Hi Hj] Hok Ho Hp. exists k. unfold unread_up, in_order in *. simpl in *. split_and!; try done.
  - rewrite Ho, length_app. lia.
  - by rewrite Ho, drop_app_le.
Qed.

Lemma calm_moved l w i j k l' :
  w_controls w !! sid = Some k → has (ct_negotiated k) CAPABILITY_REGISTER_REJECT = true →
  world_inv p (service_bound policy p) w → in_order k (mkSystem l w i j) →
  client_ok pol sid l → loop_inv pol l' → calm l l' → sl_out l' = sl_out l →
  protocol (unread_up (mkSystem l w i j)) (unread_down k (mkSystem l w i j)) (server_view sid k (w_server w))
    (client_view l) (waiting_of l) →
  system_inv (mkSystem l' w i j).
Proof.
  intros Hk Hn Hw Ho Hok Hl Hc Hout Hp. apply (client_moved l w i j k l' []); try done.
  - by eapply calm_ok.
  - by rewrite app_nil_r.
  - rewrite app_nil_r. eapply protocol_ext; [exact Hp|done|intros id; by apply calm_view..].
Qed.

(** Another Session's step, or one of this Session that leaves its tables
    alone. *)
Lemma world_step_view w w' k k' id :
  world_step policy w w' → world_inv p (service_bound policy p) w →
  w_controls w !! sid = Some k → w_controls w' !! sid = Some k' → ct_services k' = ct_services k →
  server_view sid k' (w_server w') id = server_view sid k (w_server w) id.
Proof.
  intros Hs Hi Hk Hk' Hserv. unfold server_view. rewrite Hserv. destruct (ct_services k !! id) as [e|] eqn:Ee; [|done].
  simpl. do 2 f_equal.
  destruct Hs as [s ks ct_eq io peer token hello now a lim k0 h Hh Hres Hk0 Ha
    |s ks ct_eq io peer token hello now a lim e0 h Hh Hres Hf Ha|w w' Hs]; simpl in *.
  - pose proof (handshake_binds ct_eq io peer token hello now a lim s) as Hb. rewrite Hh in Hb. cbv zeta in Hb.
    destruct Hb as [->|(bytes & _ & [e0 He] & _)]; [done|]. congruence.
  - pose proof (handshake_binds ct_eq io peer token hello now a lim s) as Hb. rewrite Hh in Hb. cbv zeta in Hb.
    destruct Hb as [->|(bytes & Hrand & _ & ->)]; [done|]. apply bind_of_filter. intros b <- _ Heq.
    rewrite Heq, (Hf _ Hrand) in Hk. done.
  - destruct Hs as [s ks listen w0 incoming sid' k0 f k1 s' Hk0 Hs
      |s ks w0 m sid' k0 Hk0|s ks sid' k0 Hk0|s ks sid' k0 i r k1 s' Hk0 Hs|s ks sid' k0 Hk0|s ks sid' k0 e0 Hk0|s ks a Ha|s ks s' Hd];
      simpl in *; try done.
    + destruct (wi_control _ _ _ Hi _ _ Hk0) as (Hsid & _). simpl in Hsid.
      pose proof (on_incoming_change listen w0 policy incoming k0 s) as Hc. rewrite Hs in Hc.
      destruct Hc as [[_ ->]|[(i & name & tok & bind & _ & Hn & _ & Hv & ->)|(i & He & Hv & ->)]]; [done|..].
      * apply bind_of_app_other. left. simpl. rewrite Hsid. intros ->.
        rewrite Hk0 in Hk. injection Hk as <-. rewrite lookup_insert_eq in Hk'. injection Hk' as <-.
        apply (f_equal (fun m => m !! i)) in Hserv. by rewrite Hv, lookup_insert_eq, Hn in Hserv.
      * apply bind_of_filter. intros b Hb _. left. rewrite Hsid, Hb. intros <-.
        rewrite Hk0 in Hk. injection Hk as <-. rewrite lookup_insert_eq in Hk'. injection Hk' as <-.
        apply (f_equal (fun m => m !! i)) in Hserv. rewrite Hv, lookup_delete_eq in Hserv. destruct He. congruence.
    + injection Hs as <- <-. by destruct r.
    + destruct (wi_control _ _ _ Hi _ _ Hk0) as (Hsid & _). simpl in Hsid. apply lookup_delete_Some in Hk' as [Hne _].
      rewrite Hsid. destruct (data_step_view _ _ (S_remove_all s (ct_address k0))) as (-> & _).
      apply bind_of_filter. congruence.
    + destruct (wi_control _ _ _ Hi _ _ Hk0) as (Hsid & _). simpl in Hsid. apply lookup_delete_Some in Hk' as [Hne _].
      rewrite Hsid. apply bind_of_filter. congruence.
    + by destruct (context_drop_view a s) as (-> & _).
    + by destruct (data_step_view _ _ Hd) as (-> & _).
Qed.

(** The next message of a side. *)
Lemma next_unread (out : list Message) n m : out !! n = Some m → drop n out = m :: drop (S n) out.
Proof. apply drop_S. Qed.

Lemma client_step_inv l w i j k l' :
  w_controls w !! sid = Some k → system_inv (mkSystem l w i j) →
  (∃ now service reply, l' = (on_register (fun _ => false) W_done now service reply l).2) ∨
  (∃ id reply, st_in_flight (sl_state l) !! id = None ∧ l' = (on_unregister W_done id reply l).2) ∨
  (calm l l' ∧ loop_inv pol l' ∧ sl_out l' = sl_out l) ∨
  (∃ m, upward m = true ∧ service_of m = None ∧ calm l l' ∧ loop_inv pol l' ∧ sl_out l' = sl_out l ++ [m]) →
  system_inv (mkSystem l' w i j).
Proof.
  intros Hk (k' & Hk' & Hn & Hok & Hw & Ho & Hp) Hcase. simpl in *. rewrite Hk in Hk'. injection Hk' as <-.
  destruct Hcase as [(now & service & reply & ->)|[(id & reply & Hf & ->)|[(Hc & Hl & Hout)|(m & Hu & Hm & Hc & Hl & Hout)]]].
  - destruct (client_register _ _ now service reply l Hok) as (Hok' & Hv & [[Hout Hwt]|(Hout & H1 & H2 & H3 & H4)]).
    + apply (client_moved l w i j k _ []); try done; [by rewrite app_nil_r|]. rewrite app_nil_r.
      by eapply protocol_ext.
    + eapply (client_moved l w i j k _ [_]); try done. eapply protocol_ext; [|done|exact Hv|done].
      by eapply (protocol_ask _ _ _ _ _ Hp).
  - destruct (client_unregister _ _ id reply l Hok Hf) as (Hok' & Hout & H1 & H2 & H3).
    eapply (client_moved l w i j k _ [_]); try done. eapply protocol_ext; [|done|done|exact H3].
    eapply (protocol_remove _ _ _ _ _ Hp); [|done..]. unfold waiting_of. by rewrite Hf.
  - by apply (calm_moved l w i j k).
  - apply (client_moved l w i j k _ [m]); try done; [by eapply calm_ok|].
    eapply protocol_ext; [by apply (protocol_up_other _ _ _ _ _ Hp)|done|intros id; by apply calm_view..].
Qed.

Lemma outgoing_cases l :
  loop_inv pol l → Forall (fun m => upward m = true ∧ service_of m = None) (sl_queue l) →
  let l' := (on_outgoing W_done l).2 in
  (calm l l' ∧ loop_inv pol l' ∧ sl_out l' = sl_out l) ∨
  (∃ m, upward m = true ∧ service_of m = None ∧ calm l l' ∧ loop_inv pol l' ∧ sl_out l' = sl_out l ++ [m]).
Proof.
  intros Hl Hq l'. assert (loop_inv pol l') as Hl' by (by apply on_outgoing_inv). unfold l', on_outgoing in *. clear l'.
  destruct (sl_queue l) as [|m q] eqn:E; [left; by split_and!|]. right. exists m.
  apply Forall_cons_iff in Hq as [[Hu Hm] Hq]. split_and!; try done.
Qed.

Lemma system_step_inv y y' : system_step policy sid y y' → system_inv y → system_inv y'.
Proof.
  intros Hs Hy. pose proof Hy as (k & Hk & Hn & Hok & Hw & Ho & Hp).
  destruct Hs as [l w i j now service reply|l w i j id reply Hf|l w i j now|l w i j|l w i j n io open service Hr
    |l w i j k0 m now l' Hk0 Hm Hon|l s ks i j k0 m listen k' s' Hk0 Hm Hon|l s ks i j k0 m Hk0 Hm
    |l w i j w' k0 k' Hstep Hk0 Hk' Hout Hserv Hneg]; simpl in Hk, Hok, Hw.
  - apply (client_step_inv l w i j k); [done..|]. left. eauto.
  - apply (client_step_inv l w i j k); [done..|]. right; left. eauto.
  - apply (client_step_inv l w i j k); [done..|]. right; right; left. destruct (calm_tick now l) as [Hc Hout].
    split_and!; [done|by apply on_tick_inv, Hok|done].
  - apply (client_step_inv l w i j k); [done..|]. right; right. apply outgoing_cases; apply Hok.
  - apply (client_step_inv l w i j k); [done..|]. right; right; left.
    destruct (calm_opened io n open service l) as [Hc Hout]. split_and!; [done| |done].
    eapply (loop_step_inv pol (fun _ => false)); [by apply L_open_done|apply Hok].
  - rewrite Hk in Hk0. injection Hk0 as <-. destruct Ho as [Hi Hj]. unfold unread_down in Hp. simpl in Hi, Hj, Hp.
    rewrite (next_unread _ _ _ Hm) in Hp. destruct (system_client_reads _ _ now m _ _ _ l Hok Hp) as (f & l1 & E & _ & Hc).
    rewrite Hon in E. injection E as <- <-. destruct (Hc eq_refl) as (Hok' & Hout & Hp').
    exists k. unfold unread_up, unread_down, in_order in *. simpl in *. rewrite Hout. split_and!; try done.
    by apply lookup_lt_Some in Hm.
  - rewrite Hk in Hk0. injection Hk0 as <-. destruct Ho as [Hi Hj]. unfold unread_up in Hp. simpl in Hi, Hj, Hp.
    rewrite (next_unread _ _ _ Hm) in Hp.
    destruct (system_server_reads policy p _ sid s ks k Hw Hk Hn listen m _ _ _ _ Hp) as (k1 & s1 & out & E & Hout & Hneg & Hp').
    rewrite Hon in E. injection E as <- <-. exists k'. unfold unread_up, unread_down, in_order in *. simpl in *.
    split_and!; [by rewrite lookup_insert_eq|by rewrite Hneg|done| |by apply lookup_lt_Some in Hm|rewrite Hout, length_app; lia|].
    + exact (on_incoming_inv policy p listen W_done (Ok m) k s ks sid Continue k' s' Hw Hk Hon).
    + by rewrite Hout, drop_app_le.
  - rewrite Hk in Hk0. injection Hk0 as <-. destruct Ho as [Hi Hj].
    pose proof (arm_step_inv policy p _ _ (W_queued policy s ks W_done m sid k Hk) Hw) as Hw'.
    assert (ct_out (on_queued W_done m k).2 = ct_out k ++ [m] ∧ ct_negotiated (on_queued W_done m k).2 = ct_negotiated k ∧
      ct_services (on_queued W_done m k).2 = ct_services k) as (Hout & Hneg & Hserv) by done.
    generalize dependent (on_queued W_done m k).2. intros k1 Hw' Hout Hneg Hserv. exists k1.
    unfold unread_up, unread_down, in_order in *. simpl in *.
    split_and!; [by rewrite lookup_insert_eq|by rewrite Hneg|done|done|done|rewrite Hout, length_app; lia|].
    rewrite Hout, drop_app_le by done. eapply (protocol_ext _ _ (server_view sid k s)); [| |done|done].
    + apply (protocol_down_other _ _ _ _ _ Hp); by destruct Hm as [[? ->]|[? ->]].
    + intros id. unfold server_view. by rewrite Hserv.
  - rewrite Hk in Hk0. injection Hk0 as <-. exists k'. unfold unread_up, unread_down, in_order in *. simpl in *.
    rewrite Hout. split_and!; try done; [by rewrite Hneg|by eapply world_step_inv|apply Ho|apply Ho|].
    eapply protocol_ext; [exact Hp| |done..]. intros id. by eapply world_step_view.
Qed.
End both.

(** ** The start of a Session *)

Section start.
Variables (policy : BindPolicy) (p : RuntimePolicy) (sid : SessionId).
Variable listen : SocketAddr → option (option SocketAddr).

(** The services registered so far, on both sides. *)
Definition same_so_far (acc : gmap ServiceId ClientService) (c : Counters) (k : Control) (s : Server) : Prop :=
  (∀ id, server_view sid k s id = (fun x => (cs_name x, bind_of sid id (ctr_binds c))) <$> acc !! id) ∧
  (∀ id, id ∈ binds_of sid (ctr_binds c) → is_Some (acc !! id)).

Lemma initial_agreement io desired : ∀ out c out' c' acc k s ks,
  world_inv p (service_bound policy p) (mkWorld s ks) → ks !! sid = Some k →
  has (ct_negotiated k) CAPABILITY_REGISTER_REJECT = true →
  NoDup (cs_id <$> desired) → (∀ x, x ∈ desired → acc !! cs_id x = None) →
  same_so_far acc c k s → answered_by listen policy io desired k s →
  register_initial io sid desired out c = (Ok tt, out', c') →
  let '(k', s') := serve_initial listen policy desired k s in
  world_inv p (service_bound policy p) (mkWorld s' (<[sid := k']> ks)) ∧
  has (ct_negotiated k') CAPABILITY_REGISTER_REJECT = true ∧
  same_so_far (foldl (fun m service => <[cs_id service := service]> m) acc desired) c' k' s'.
Proof.
  induction desired as [|service rest IH]; intros out c out' c' acc k s ks Hw Hk Hn Hnd Hacc Hs Ha Hr; simpl in *.
  { injection Hr as <- <-. split_and!; [|done|done]. by rewrite insert_id. }
  apply list.NoDup_cons in Hnd as [Hni Hnd].
  destruct (server_registers policy p _ sid s ks k Hw Hk Hn listen
    (mkRegisterService (cs_id service) (cs_name service) (cs_requested_bind service) (cs_target service)))
    as (k1 & s1 & answer & E & Hout & Hneg & Hother & Hans).
  pose proof (register_service_inv policy p listen W_done _ k s ks sid _ _ _ Hw Hk E) as Hw1.
  rewrite E in Ha |- *. cbn [rs_service_id rs_name] in *. destruct Ha as [Hio Ha].
  rewrite Hio, Hout, last_snoc in Hr. cbn [write_bounded delivered read_bounded] in Hr.
  destruct Hans as [(bind & -> & Hview)|(code & d & -> & _)]; [|done]. cbn [ra_service_id ra_effective_bind] in Hr.
  rewrite decide_True in Hr by done. destruct Hs as [Hs1 Hs2].
  assert (¬ (cs_id service ∈ binds_of sid (ctr_binds c))) as Hnb.
  { intros Hin. apply Hs2 in Hin as [x Hx]. rewrite Hacc in Hx; [done|by left]. }
  destruct (serve_initial _ _ rest k1 s1) as [k' s'] eqn:Eserve.
  pose proof (fun H2 H3 H4 H5 H6 => IH _ _ _ _ (<[cs_id service := service]> acc) k1 s1 (<[sid := k1]> ks) Hw1 H2 H3 H4 H5 H6 Ha Hr) as IH'.
  rewrite Eserve, insert_insert_eq in IH'. apply IH'; clear IH IH'.
  - apply lookup_insert_eq.
  - by rewrite Hneg.
  - done.
  - intros x Hx. rewrite lookup_insert_ne; [apply Hacc; by right|]. intros Heq. apply Hni. rewrite Heq. by apply list_elem_of_fmap_2.
  - split.
    + intros id. simpl. rewrite lookup_insert. case_decide as Hid.
      * subst id. rewrite Hview. simpl. by rewrite bind_of_app_new.
      * rewrite Hother, Hs1 by congruence. destruct (acc !! id); [|done]. simpl. do 2 f_equal. symmetry.
        apply bind_of_app_other. right. simpl. congruence.
    + intros id. simpl. rewrite binds_of_app, elem_of_app, lookup_insert. case_decide as Hid; [done|].
      intros [Hin|Hin]; [by apply Hs2|]. unfold binds_of in Hin. rewrite filter_cons_True in Hin by done. simpl in Hin.
      by apply list_elem_of_singleton in Hin.
Qed.
End start.

(** What a started client looks like, up to its registrations. *)
Lemma started_shape io token st c delay l :
  sa_result (start_session io token st c delay) = Ok l → correlated l = true →
  ∃ out c1 c2 n,
    register_initial (ci_register io) (sl_session l) (st_desired st) out c1 = (Ok tt, sl_out l, c2) ∧
    ctr_binds c1 = ctr_binds c ∧ ctr_binds (sl_counters l) = ctr_binds c2 ∧
    st_active (sl_state l) = foldl (fun m service => <[cs_id service := service]> m) ∅ (st_desired st) ∧
    st_mode (sl_state l) = CorrelatedBounded n ∧ st_abandoned (sl_state l) = ∅ ∧ st_in_flight (sl_state l) = ∅ ∧
    sl_queue l = [].
Proof.
  unfold start_session. destruct (client_handshake io token) as [[[session negotiated]|] out]; [|done].
  unfold begin_session. destruct (checked_add 64 _ 1) as [next|]; cbn [ok_or mbind result_bind]; [|done].
  set (c1 := set_heartbeat _ _). destruct (has negotiated CAPABILITY_REGISTER_REJECT) eqn:Hn.
  - unfold set_mode, finish_pending. cbn [fst snd].
    destruct (register_initial _ _ _ _ _) as [[[[]|e] out1] c2] eqn:Hr; [|done].
    intros [= <-] _. exists out, c1, c2, (client_command_queue (limits (ctr_policy c1))). split_and!; try done.
  - unfold set_mode, finish_pending. cbn [fst snd].
    destruct (register_initial _ _ _ _ _) as [[[[]|e] out1] c2]; [|done]. intros [= <-]. unfold correlated. simpl. by rewrite Hn.
Qed.

(** The system right after the start: both sides have read everything. *)
Definition session_begun (sid : SessionId) (l : Loop) (ks : gmap SessionId Control) (k : Control) (s : Server) : System :=
  mkSystem l (mkWorld s (<[sid := k]> ks)) (length (sl_out l)) (length (ct_out k)).

(** A client and a server at the start of a Session: the client was between two
    Sessions, the server in any reachable state; they have authenticated and
    negotiated correlated registrations, and the server has answered the
    registrations the client begins with. *)
Record session_opened policy p sid listen io token st c delay l s ks k : Prop :=
  { so_state : wf_state st;
    so_policy : finite_policy (ctr_policy c);
    so_desired : len (st_desired st) <= services_per_session (limits (ctr_policy c));
    so_binds : ctr_binds c = [];
    so_tasks : load n_open_tasks c = 0;
    so_started : sa_result (start_session io token st c delay) = Ok l;
    so_session : sl_session l = sid;
    so_correlated : correlated l = true;
    so_server : rtc (world_step policy) (idle_world p) (mkWorld s ks);
    so_control : ks !! sid = Some k;
    so_services : ct_services k = ∅;
    so_negotiated : ct_negotiated k = sl_negotiated l;
    so_answered : answered_by listen policy (ci_register io) (st_desired st) k s }.

Definition opened_system (listen : SocketAddr → option (option SocketAddr)) (policy : BindPolicy) (sid : SessionId)
    (st : ServiceState) (l : Loop) (s : Server) (ks : gmap SessionId Control) (k : Control) : System :=
  let '(k', s') := serve_initial listen policy (st_desired st) k s in session_begun sid l ks k' s'.

Lemma session_opened_inv policy p sid listen io token st c delay l s ks k :
  session_opened policy p sid listen io token st c delay l s ks k →
  system_inv (ctr_policy c) policy p sid (opened_system listen policy sid st l s ks k).
Proof.
  intros [Hwf Hpol Hd Hb Ht Hst Hsid Hcor Hr Hk Hserv Hneg Ha]. unfold opened_system.
  pose proof (start_loop_inv _ io token st c delay l Hwf Hd Hpol eq_refl Hb Ht Hst) as Hl.
  destruct (started_shape _ _ _ _ _ _ Hst Hcor) as (out & c1 & c2 & n & Hreg & Hb1 & Hb2 & Hact & Hmode & Hab & Hfl & Hq).
  destruct (world_reachable _ _ _ Hr) as [Hw _].
  assert (has (ct_negotiated k) CAPABILITY_REGISTER_REJECT = true) as Hn by (by rewrite Hneg).
  assert (NoDup (cs_id <$> st_desired st)) as Hnd.
  { pose proof (wf_ids _ Hwf) as H. unfold services in H. rewrite fmap_app in H. by apply list.NoDup_app in H as [? _]. }
  rewrite Hsid in Hreg.
  pose proof (initial_agreement policy p sid listen (ci_register io) (st_desired st) out c1 (sl_out l) c2 ∅ k s ks Hw Hk Hn Hnd) as Hi.
  specialize (Hi ltac:(done)). destruct (serve_initial _ _ _ k s) as [k' s'].
  destruct (Hi ltac:(split; [intros id; unfold server_view; by rewrite Hserv, lookup_empty|rewrite Hb1, Hb; by intros id ?%elem_of_nil]) Ha Hreg)
    as (Hw' & Hn' & Hs1 & _).
  exists k'. unfold session_begun, unread_up, unread_down, in_order. simpl. rewrite !drop_all. split_and!; try done.
  - apply lookup_insert_eq.
  - split; try done; [by exists n|by rewrite Hfl|by rewrite Hq].
  - split; [|done..]. intros id. rewrite Hs1. unfold client_view, waiting_of. rewrite Hfl, lookup_empty, Hsid, Hb2, Hact.
    apply story_agreed.
Qed.

Lemma system_reachable policy p sid listen io token st c delay l s ks k y :
  session_opened policy p sid listen io token st c delay l s ks k →
  rtc (system_step policy sid) (opened_system listen policy sid st l s ks k) y → system_inv (ctr_policy c) policy p sid y.
Proof.
  intros Ho Hr. refine (rtc_ind_r (system_inv (ctr_policy c) policy p sid) _ (session_opened_inv _ _ _ _ _ _ _ _ _ _ _ _ _ Ho) _ _ Hr).
  intros. by eapply system_step_inv.
Qed.

(** ** Properties *)

(** C3. The two ends of a Session agree.  Take a client that has connected and
    registered its configured services with a server, both with correlated
    registrations, and let both loops run on, each reading in order what the
    other writes, with registrations, removals, heartbeats, offered
    connections and the other Sessions of the server interleaved in any way;
    nothing times out and callers wait for their answers.  Then, at every
    moment: neither side ever reads a message it does not expect; every
    registration a caller waits for is on its way to the server or its answer
    is on its way back; and when nothing is in flight, no caller waits, and
    the services active on the client are exactly those registered on the
    server, with the same names and the same effective addresses. *)
Theorem session_agreement policy p sid listen io token st c delay l s ks k y :
  session_opened policy p sid listen io token st c delay l s ks k →
  rtc (system_step policy sid) (opened_system listen policy sid st l s ks k) y →
  ∃ k1, w_controls (sy_world y) !! sid = Some k1 ∧
  (∀ m now, ct_out k1 !! sy_down y = Some m →
     (on_message (fun _ => false) now W_done (Ok m) (sy_client y)).1 = Continue ∨
     (on_message (fun _ => false) now W_done (Ok m) (sy_client y)).1 = Break) ∧
  (∀ m listen', sl_out (sy_client y) !! sy_up y = Some m →
     (on_incoming listen' W_done policy (Ok m) k1 (w_server (sy_world y))).1.1 = Continue) ∧
  (∀ id txn, st_in_flight (sl_state (sy_client y)) !! id = Some txn →
     ∃ m, m ∈ unread_up y ++ unread_down k1 y ∧ service_of m = Some id) ∧
  (unread_up y = [] → unread_down k1 y = [] →
     st_in_flight (sl_state (sy_client y)) = ∅ ∧
     ∀ id, client_view (sy_client y) id = server_view sid k1 (w_server (sy_world y)) id).
Proof.
  intros Ho Hrun. pose proof (system_reachable _ _ _ _ _ _ _ _ _ _ _ _ _ _ Ho Hrun) as Hy.
  destruct Hy as (k1 & Hk1 & Hn & Hok & Hw & _ & Hp). exists k1. split_and!; [done|..].
  - intros m now Hm. unfold unread_down in Hp. rewrite (next_unread _ _ _ Hm) in Hp.
    destruct (system_client_reads _ _ now m _ _ _ _ Hok Hp) as (f & l' & -> & Hf & _). exact Hf.
  - intros m listen' Hm. unfold unread_up in Hp. rewrite (next_unread _ _ _ Hm) in Hp. destruct (sy_world y) as [s1 ks1].
    destruct (system_server_reads policy p _ sid s1 ks1 k1 Hw Hk1 Hn listen' m _ _ _ _ Hp) as (k2 & s2 & out & E & _).
    cbn [w_server]. by rewrite E.
  - intros id txn Hf. pose proof (pt_story _ _ _ _ _ Hp id) as Hs. unfold waiting_of in Hs. rewrite Hf in Hs.
    apply story_waiting in Hs. rewrite <-about_app in Hs. destruct (about id _) as [|m ms] eqn:E; [done|]. exists m.
    assert (m ∈ about id (unread_up y ++ unread_down k1 y)) as Hin by (rewrite E; by left).
    by apply list_elem_of_filter in Hin as [? ?].
  - intros Hu Hd. rewrite Hu, Hd in Hp. assert (∀ id, server_view sid k1 (w_server (sy_world y)) id = client_view (sy_client y) id ∧
      waiting_of (sy_client y) id = None) as Hq by (intros id; apply (story_quiet id), Hp). split; [|intros id; symmetry; apply Hq].
    apply map_eq. intros id. rewrite lookup_empty. destruct (Hq id) as [_ Hwt]. unfold waiting_of in Hwt.
    by destruct (_ !! id).
Qed.

(** ** Witness: a client with one configured service registers another *)

Definition greeted_server : Server := hs_server (sample_handshake sample_token).
Definition first_served : Flow * Control * Server :=
  on_incoming sample_listen W_done BindPolicy_default (Ok (registration web)) sample_control greeted_server.
Definition served_connect : ConnectIo :=
  mkConnectIo W_done (Ready (Ok (M_ServerHello (mkServerHello CURRENT (mkCapabilities [1]))))) W_done
    (Ready (Ok (M_AuthOk (mkAuthOk sample_sid))))
    (fun _ => (W_done, delivered (list.last (ct_out first_served.1.2)))).
Definition served_start : Started :=
  start_session served_connect (mkSecretToken [Byte.x73]) (State_new [web])
    (with_policy RuntimePolicy_default) (from_millis 500).
Definition served_loop : Loop :=
  match sa_result served_start with
  | Ok l => l
  | Err _ => ready (mkSessionId []) 0 supported [] [] (State_new []) (with_policy RuntimePolicy_default)
  end.

Definition asking : Loop := (on_register (fun _ => false) W_done 5 ssh 3%nat served_loop).2.
Definition second_served : Flow * Control * Server :=
  on_incoming sample_listen W_done BindPolicy_default (Ok (registration ssh)) first_served.1.2 first_served.2.
Definition second_answer : Message := default (M_Ping (mkPing 0)) (list.last (ct_out second_served.1.2)).
Definition told : Flow * Loop := on_message (fun _ => false) 6 W_done (Ok second_answer) asking.
Definition greeted_controls : gmap SessionId Control := <[ct_session sample_control := sample_control]> ∅.
Definition first_world : World := mkWorld first_served.2 (<[sample_sid := first_served.1.2]> greeted_controls).
Definition second_world : World :=
  mkWorld second_served.2 (<[sample_sid := second_served.1.2]> (w_controls first_world)).
Definition sent_before : nat := length (sl_out served_loop).
Definition answered_before : nat := length (ct_out first_served.1.2).
Definition agreed_system : System := mkSystem told.2 second_world (S sent_before) (S answered_before).

#[local] Strategy expand [first_served second_served told asking first_world second_world greeted_controls
  session_begun sent_before answered_before].

Lemma pair_flow {B} (r : Flow * B) f : r.1 = f → r = (f, r.2).
Proof. by intros <-; destruct r. Qed.

Lemma triple_flow {B C} (r : Flow * B * C) f : r.1.1 = f → r = (f, r.1.2, r.2).
Proof. by intros <-; destruct r as [[? ?] ?]. Qed.

Lemma first_answered :
  answered_by sample_listen BindPolicy_default (ci_register served_connect) [web] sample_control greeted_server.
Proof.
  assert (first_served.1.1 = Continue) as E by (vm_compute; reflexivity).
  pose proof (triple_flow first_served Continue E) as Ef. unfold first_served at 1 in Ef.
  unfold answered_by. rewrite Ef. split; [reflexivity|exact I].
Qed.

Lemma first_served_initial :
  serve_initial sample_listen BindPolicy_default [web] sample_control greeted_server = (first_served.1.2, first_served.2).
Proof.
  assert (first_served.1.1 = Continue) as E by (vm_compute; reflexivity).
  pose proof (triple_flow first_served Continue E) as Ef. unfold first_served at 1 in Ef.
  unfold serve_initial. rewrite Ef. reflexivity.
Qed.

Lemma asked_step :
  system_step BindPolicy_default sample_sid (mkSystem served_loop first_world sent_before answered_before)
    (mkSystem asking first_world sent_before answered_before).
Proof. exact (Y_register BindPolicy_default sample_sid served_loop first_world sent_before answered_before 5 ssh 3%nat). Qed.

Lemma served_step :
  system_step BindPolicy_default sample_sid (mkSystem asking first_world sent_before answered_before)
    (mkSystem asking second_world (S sent_before) answered_before).
Proof.
  assert (second_served.1.1 = Continue) as E1 by (vm_compute; reflexivity).
  assert (sl_out asking !! sent_before = Some (registration ssh)) as E3 by (vm_compute; reflexivity).
  exact (Y_server_reads BindPolicy_default sample_sid asking first_served.2 (w_controls first_world) sent_before
    answered_before first_served.1.2 (registration ssh) sample_listen second_served.1.2 second_served.2
    (lookup_insert_eq greeted_controls sample_sid first_served.1.2) E3 (triple_flow second_served Continue E1)).
Qed.

Lemma told_step :
  system_step BindPolicy_default sample_sid (mkSystem asking second_world (S sent_before) answered_before) agreed_system.
Proof.
  assert (told.1 = Continue) as E2 by (vm_compute; reflexivity).
  assert (ct_out second_served.1.2 !! answered_before = Some second_answer) as E4 by (vm_compute; reflexivity).
  exact (Y_client_reads BindPolicy_default sample_sid asking second_world (S sent_before) answered_before
    second_served.1.2 second_answer 6 told.2
    (lookup_insert_eq (w_controls first_world) sample_sid second_served.1.2) E4 (pair_flow told Continue E2)).
Qed.

Lemma greeted_reachable :
  rtc (world_step BindPolicy_default) (idle_world RuntimePolicy_default) (mkWorld greeted_server greeted_controls).
Proof.
  apply rtc_once. unfold greeted_server, greeted_controls.
  apply (W_start BindPolicy_default (new_session_registry RuntimePolicy_default) ∅ sample_ct_eq (sample_io sample_token)
    sample_peer (mkSecretToken sample_token) sample_client 5 0%nat (Limiter_new 10 60 1024) sample_control
    (sample_handshake sample_token)); vm_compute; reflexivity.
Qed.

Lemma sample_opened_session :
  session_opened BindPolicy_default RuntimePolicy_default sample_sid sample_listen served_connect
    (mkSecretToken [Byte.x73]) (State_new [web]) (with_policy RuntimePolicy_default) (from_millis 500) served_loop
    greeted_server greeted_controls sample_control.
Proof.
  split.
  - apply new_wf; apply web_nodup.
  - apply default_policy_finite.
  - vm_compute. discriminate.
  - reflexivity.
  - reflexivity.
  - vm_compute. reflexivity.
  - vm_compute. reflexivity.
  - vm_compute. reflexivity.
  - apply greeted_reachable.
  - reflexivity.
  - reflexivity.
  - vm_compute. reflexivity.
  - exact first_answered.
Qed.

Lemma sample_opened_system :
  opened_system sample_listen BindPolicy_default sample_sid (State_new [web]) served_loop greeted_server greeted_controls
    sample_control = mkSystem served_loop first_world sent_before answered_before.
Proof.
  unfold opened_system. change (st_desired (State_new [web])) with [web]. rewrite first_served_initial. reflexivity.
Qed.

Lemma session_agreement_witness :
  (st_active (sl_state (sy_client agreed_system)) !! cs_id ssh) = Some ssh ∧
  st_in_flight (sl_state (sy_client agreed_system)) = ∅ ∧
  ∃ k, w_controls (sy_world agreed_system) !! sample_sid = Some k ∧
  ∀ id, client_view (sy_client agreed_system) id = server_view sample_sid k (w_server (sy_world agreed_system)) id.
Proof.
  assert (unread_up agreed_system = []) as E1 by (vm_compute; reflexivity).
  assert (unread_down second_served.1.2 agreed_system = []) as E2 by (vm_compute; reflexivity).
  split; [vm_compute; reflexivity|].
  destruct (session_agreement BindPolicy_default RuntimePolicy_default sample_sid sample_listen served_connect
    (mkSecretToken [Byte.x73]) (State_new [web]) (with_policy RuntimePolicy_default) (from_millis 500) served_loop
    greeted_server greeted_controls sample_control agreed_system) as (k & Hk & _ & _ & _ & H).
  - exact sample_opened_session.
  - rewrite sample_opened_system.
    exact (rtc_l _ _ _ _ asked_step (rtc_l _ _ _ _ served_step (rtc_once _ _ told_step))).
  - assert (second_served.1.2 = k) as <-.
    { exact (inj Some _ _ (eq_trans (eq_sym (lookup_insert_eq (w_controls first_world) sample_sid second_served.1.2)) Hk)). }
    destruct H as [H1 H2]; [exact E1|exact E2|].
    split; [exact H1|]. exists second_served.1.2. split; [exact Hk|exact H2].
Defined.
