(* ===== verification/Progress.v ===== *)
(** * Progress of a Session: no caller waits for ever

    The system of [System] over time.  An execution is a sequence of states,
    each one step (or none) after the last; it is fair when each side, as long
    as there is something for it to read, reads on at some point.  In every fair
    execution a registration that is in flight is answered, however many other
    registrations, removals, heartbeats and connections come in between. *)

From S2P Require Import Prelude Text Proto Codec Varint Frame Common WireIo AuthLimiter Session Control Registry Directory.
From S2P Require Import ServiceState Heartbeat ClientSession EndToEnd System.

(** ** Executions *)

Section execution.
Variables (policy : BindPolicy) (sid : SessionId).

Definition execution (e : nat → System) : Prop := ∀ n, stutters (system_step policy sid) (e n) (e (S n)).

Definition server_reads_on (e : nat → System) : Prop :=
  ∀ n, unread_up (e n) ≠ [] → ∃ n', (n <= n')%nat ∧ (sy_up (e n) < sy_up (e n'))%nat.

(** Reading a [Drain] ends the Session, which is no step of the system: a
    client that reads on is not sent one. *)
Definition client_reads_on (e : nat → System) : Prop :=
  ∀ n k, w_controls (sy_world (e n)) !! sid = Some k → unread_down k (e n) ≠ [] →
    ∃ n', (n <= n')%nat ∧ (sy_down (e n) < sy_down (e n'))%nat.
End execution.

(** The registration [txn] of the service [id] is in flight. *)
Definition in_flight (y : System) (id : ServiceId) (txn : PendingRegistration) : Prop :=
  st_in_flight (sl_state (sy_client y)) !! id = Some txn.

(** ** The story of a service that is awaited *)

Lemma story_shape id U D m a service :
  story id U D m a (Some service) → (U ≠ [] ∧ D = []) ∨ (U = [] ∧ ∃ x, D = [x]).
Proof. inversion 1; subst; [left; by destruct n|right; eauto..]. Qed.

Lemma story_asked id U D m a service :
  story id U D m a (Some service) → U ≠ [] → ∃ n, U = replicate n (removal id) ++ [registration service].
Proof. inversion 1; subst; [eauto|done..]. Qed.

(** While it is awaited, the client says nothing more about it. *)
Lemma story_nothing_new id U N D X m a m' a' s s' :
  story id U D m a (Some s) → story id (U ++ N) (D ++ X) m' a' (Some s') → N = [] ∧ (U = [] → X = []).
Proof.
  intros H H'. destruct (story_shape _ _ _ _ _ _ H) as [[Hu ->]|[-> [x ->]]];
    destruct (story_shape _ _ _ _ _ _ H') as [[Hu' Hd]|[Hn [x' Hd]]].
  - split; [|done]. destruct (story_asked _ _ _ _ _ _ H Hu) as [n ->]. destruct (story_asked _ _ _ _ _ _ H' Hu') as [n' E].
    destruct N as [|z N _] using rev_ind; [done|]. exfalso. rewrite (assoc_L (++)) in E. apply app_inj_tail in E as [E _].
    assert (registration s ∈ replicate n' (removal id)) as Hin.
    { rewrite <-E. apply elem_of_app. left. apply elem_of_app. right. by left. }
    by apply elem_of_replicate in Hin as [Hin _].
  - by destruct (app_eq_nil _ _ Hn).
  - done.
  - simpl in Hn. split; [done|]. intros _. by injection Hd as _ ->.
Qed.

(** ** One step *)

Section step.
Variables (pol : RuntimePolicy) (policy : BindPolicy) (p : RuntimePolicy) (sid : SessionId).

(** What both sides write only grows, and at most one of them reads. *)
Record grows (y y' : System) (k k' : Control) (new out : list Message) : Prop :=
  { gr_control : w_controls (sy_world y') !! sid = Some k';
    gr_up : sl_out (sy_client y') = sl_out (sy_client y) ++ new;
    gr_down : ct_out k' = ct_out k ++ out;
    gr_read : (sy_up y' = sy_up y ∧ sy_down y' = sy_down y) ∨
              (sy_up y' = sy_up y ∧ sy_down y' = S (sy_down y) ∧ new = [] ∧ out = []) ∨
              (sy_up y' = S (sy_up y) ∧ sy_down y' = sy_down y ∧ new = []) }.

Lemma client_grows l l' w i j k new :
  w_controls w !! sid = Some k → sl_out l' = sl_out l ++ new →
  grows (mkSystem l w i j) (mkSystem l' w i j) k k new [].
Proof. intros Hk Ho. split; simpl; [done..|by rewrite app_nil_r|by left]. Qed.

Lemma system_step_grows y y' k :
  system_step policy sid y y' → system_inv pol policy p sid y → w_controls (sy_world y) !! sid = Some k →
  ∃ k' new out, grows y y' k k' new out.
Proof.
  intros Hs (k1 & Hk1 & Hn & Hok & Hw & Ho & Hp) Hk. rewrite Hk in Hk1. injection Hk1 as <-.
  destruct Hs as [l w i j now service reply|l w i j id reply Hf|l w i j now|l w i j|l w i j n io open service Hr
    |l w i j k0 m now l' Hk0 Hm Hon|l s ks i j k0 m listen k' s' Hk0 Hm Hon|l s ks i j k0 m Hk0 Hm
    |l w i j w' k0 k' Hstep Hk0 Hk' Hout Hserv Hneg]; simpl in Hk, Hok, Hw.
  - destruct (client_register _ _ now service reply l Hok) as (_ & _ & [[Hout _]|(Hout & _)]).
    + exists k, [], []. apply client_grows; [done|]. by rewrite app_nil_r.
    + eexists k, _, []. by apply client_grows.
  - destruct (client_unregister _ _ id reply l Hok Hf) as (_ & Hout & _). eexists k, _, []. by apply client_grows.
  - exists k, [], []. apply client_grows; [done|]. rewrite app_nil_r. apply calm_tick.
  - destruct (outgoing_cases pol l (co_loop _ _ _ Hok) (co_queue _ _ _ Hok)) as [(_ & _ & Hout)|(m & _ & _ & _ & _ & Hout)].
    + exists k, [], []. apply client_grows; [done|]. by rewrite app_nil_r.
    + eexists k, _, []. by apply client_grows.
  - exists k, [], []. apply client_grows; [done|]. rewrite app_nil_r. apply calm_opened.
  - rewrite Hk in Hk0. injection Hk0 as <-. unfold unread_down in Hp. simpl in Hp. rewrite (next_unread _ _ _ Hm) in Hp.
    destruct (system_client_reads _ _ now m _ _ _ l Hok Hp) as (f & l1 & E & _ & Hc).
    rewrite Hon in E. injection E as <- <-. destruct (Hc eq_refl) as (_ & Hout & _).
    exists k, [], []. split; simpl; rewrite ?app_nil_r; [done..|]. right; left. done.
  - rewrite Hk in Hk0. injection Hk0 as <-. unfold unread_up in Hp. simpl in Hp. rewrite (next_unread _ _ _ Hm) in Hp.
    destruct (system_server_reads policy p _ sid s ks k Hw Hk Hn listen m _ _ _ _ Hp) as (k1 & s1 & out & E & Hout & _).
    rewrite Hon in E. injection E as <- <-. exists k', [], out. split; simpl; rewrite ?app_nil_r; [|done..|].
    + by rewrite lookup_insert_eq.
    + right; right. done.
  - rewrite Hk in Hk0. injection Hk0 as <-. exists (on_queued W_done m k).2, [], [m]. split; simpl; rewrite ?app_nil_r; [|done|done|by left].
    by rewrite lookup_insert_eq.
  - rewrite Hk in Hk0. injection Hk0 as <-. exists k', [], []. split; simpl; rewrite ?app_nil_r; [done..|by left].
Qed.

Lemma about_drop_nil id n n' (l new : list Message) :
  about id (drop n l) = [] → (n <= n')%nat → about id new = [] → about id (drop n' (l ++ new)) = [].
Proof.
  intros Hl Hn Hnew. rewrite drop_app, about_app.
  assert (∀ m (l : list Message), about id l = [] → about id (drop m l) = []) as Hd.
  { clear. intros m l Hl. rewrite <-(take_drop m l), about_app in Hl. by apply app_eq_nil in Hl as [_ ?]. }
  replace n' with (n + (n' - n))%nat at 1 by lia. rewrite <-drop_drop, !Hd by done. done.
Qed.

(** While a registration is in flight, the client says nothing about its
    service, and the server neither once it has read the request. *)
Lemma quiet_step y y' k k' new out id s s' :
  grows y y' k k' new out → in_order k y →
  protocol (unread_up y) (unread_down k y) (server_view sid k (w_server (sy_world y))) (client_view (sy_client y))
    (waiting_of (sy_client y)) →
  protocol (unread_up y') (unread_down k' y') (server_view sid k' (w_server (sy_world y'))) (client_view (sy_client y'))
    (waiting_of (sy_client y')) →
  waiting_of (sy_client y) id = Some s → waiting_of (sy_client y') id = Some s' →
  about id new = [] ∧ (about id (unread_up y) = [] → about id out = []).
Proof.
  intros [_ Hu Hd Hr] [Hi Hj] Hp Hp' Hw Hw'. pose proof (pt_story _ _ _ _ _ Hp id) as H.
  pose proof (pt_story _ _ _ _ _ Hp' id) as H'. rewrite Hw in H. rewrite Hw' in H'.
  unfold unread_up, unread_down in *. rewrite Hu, Hd in H'.
  destruct Hr as [[E1 E2]|[(_ & _ & -> & ->)|(E1 & E2 & ->)]]; [|done|].
  - rewrite E1, E2, !drop_app_le, !about_app in H' by done. by apply (story_nothing_new _ _ _ _ _ _ _ _ _ _ _ H H').
  - split; [done|]. intros Hn. rewrite E1, E2, (drop_app_le _ out), about_app in H' by done.
    rewrite (about_drop_nil id (sy_up y) (S (sy_up y)) _ []) in H' by (done || lia).
    rewrite Hn in H. by destruct (story_nothing_new _ [] [] _ _ _ _ _ _ _ _ H H') as [_ ->].
Qed.
End step.

(** ** Answers *)

(** A registration in flight stays in flight, or its caller has its answer;
    answers are never taken back. *)
Definition kept_or_answered (id : ServiceId) (txn : PendingRegistration) (r : Sender) (l l' : Loop) : Prop :=
  ∃ new, sl_answers l' = sl_answers l ++ new ∧
    (st_in_flight (sl_state l') !! id = Some txn ∨ ∃ result, (r, result) ∈ new).

Lemma open_answers open l : sl_answers (on_open open l) = sl_answers l.
Proof.
  unfold on_open, try_send. destruct (st_active _ !! _); [|by destruct (_ <? _)].
  destruct (_ <=? 0); [|done]. by destruct (_ <? _).
Qed.

Lemma tick_answers now l : sl_answers (on_tick now l).2 = sl_answers l.
Proof. unfold on_tick, try_send. destruct (has_outstanding _); [done|]. simpl. by destruct (_ <? _). Qed.

Lemma opened_answers n io open service l : sl_answers (release_open n (handle_open io open service l).2) = sl_answers l.
Proof.
  unfold handle_open, try_send. destruct (_ ≫= _); [done|]. destruct (sl_cancelled l); [done|]. by destruct (_ <? _).
Qed.

(** What [take_transaction] finds in a correlated Session was in flight. *)
Lemma taken_in_flight pol sid id l txn s :
  client_ok pol sid l → take_transaction id (sl_state l) = (Found txn, s) → st_in_flight (sl_state l) !! id = Some txn.
Proof.
  intros [H1 H2 [n Hm] H4 H5 H6 H7]. pose proof (wf_mode _ (li_wf _ _ H1)) as Hp. rewrite Hm in Hp. destruct Hp as [Hp _].
  unfold take_transaction. rewrite Hp. destruct (st_in_flight (sl_state l) !! id) as [t|]; [by intros [= <- _]|done].
Qed.

Section answers.
Variables (pol : RuntimePolicy) (sid : SessionId) (id : ServiceId) (txn : PendingRegistration) (r : Sender).
Hypothesis reply : pr_reply txn = Some r.

Lemma same_kept l l' :
  st_in_flight (sl_state l) !! id = Some txn → sl_state l' = sl_state l → sl_answers l' = sl_answers l →
  kept_or_answered id txn r l l'.
Proof. intros Hf Hs Ha. exists []. rewrite app_nil_r, Hs. by split; [|left]. Qed.

Lemma register_kept now service reply' l :
  client_ok pol sid l → st_in_flight (sl_state l) !! id = Some txn →
  kept_or_answered id txn r l (on_register (fun _ => false) W_done now service reply' l).2.
Proof.
  intros [H1 H2 H3 H4 H5 H6 H7] Hf. unfold on_register. destruct (_ <=? _); [by eexists; split; [|left]|].
  pose proof (begin_in_flight service (sl_generation l) reply' _ (li_wf _ _ H1) H5 H3) as Hb.
  destruct (begin _ _ _ _) as [[[]|[e r']] s]; destruct Hb as (_ & Hm & _ & Hb); simpl.
  - destruct Hb as (Hb & Hn & _). destruct H3 as [n H3]. rewrite H3 in Hm. unfold arm_deadline. rewrite Hm.
    exists []. rewrite app_nil_r. split; [done|left]. simpl. rewrite Hb.
    assert (cs_id service ≠ id) as Hne by (intros <-; congruence). by rewrite lookup_alter_ne, lookup_insert_ne.
  - eexists. split; [done|left]. simpl. by rewrite Hb.
Qed.

Lemma unregister_kept id' reply' l :
  client_ok pol sid l → st_in_flight (sl_state l) !! id = Some txn → st_in_flight (sl_state l) !! id' = None →
  kept_or_answered id txn r l (on_unregister W_done id' reply' l).2.
Proof.
  intros [H1 H2 [n Hm] H4 H5 H6 H7] Hf Hn. unfold on_unregister, unregister.
  pose proof (wf_mode _ (li_wf _ _ H1)) as Hw. rewrite Hm in Hw. destruct Hw as [Hp _].
  rewrite Hp, Hn. cbn zeta. simpl. assert (id' ≠ id) as Hne by congruence.
  destruct (bool_decide _); (exists []; split; [done|left]); simpl; by rewrite delete_id.
Qed.

Lemma answer_kept id' l s a :
  st_in_flight (sl_state l) !! id = Some txn →
  sl_answers s = sl_answers l ++ a → st_in_flight (sl_state s) = delete id' (st_in_flight (sl_state l)) →
  (∀ txn' r', st_in_flight (sl_state l) !! id' = Some txn' → pr_reply txn' = Some r' → ∃ result, a = [(r', result)]) →
  kept_or_answered id txn r l s.
Proof.
  intros Hf Ha Hs Hr. exists a. split; [done|]. rewrite Hs. destruct (decide (id' = id)) as [->|Hne].
  - right. destruct (Hr txn r Hf reply) as [result ->]. exists result. by left.
  - left. by rewrite lookup_delete_ne.
Qed.

Lemma read_kept now m up down server l l' :
  client_ok pol sid l → protocol up (m :: down) server (client_view l) (waiting_of l) →
  on_message (fun _ => false) now W_done (Ok m) l = (Continue, l') →
  st_in_flight (sl_state l) !! id = Some txn → kept_or_answered id txn r l l'.
Proof.
  intros Hok Hp Hon Hf. pose proof (pt_down _ _ _ _ _ Hp) as [Hd _]%Forall_cons_iff. destruct m; try done; simpl in Hon.
  - destruct v as [id' bind]. destruct (protocol_ack_awaited _ _ _ _ _ _ _ Hp) as (service & Hw & _).
    destruct (take_awaited pol sid id' l Hok) as (t & r' & s & Ht & Ew & Hg & Hr & Ha & Hm & Hab & Hfl); [by rewrite Hw|].
    unfold on_ack, take_ack in Hon. cbn [ra_service_id] in Hon. rewrite Ht, Hg, Z.eqb_refl, Hr in Hon. injection Hon as <-.
    eapply (answer_kept id'); [done|simpl; reflexivity|done|].
    intros t' r1 Ht' Hr1. rewrite (taken_in_flight _ _ _ _ _ _ Hok Ht) in Ht'. injection Ht' as <-. rewrite Hr in Hr1.
    injection Hr1 as <-. by eexists.
  - injection Hon as <-. by apply same_kept; [|apply calm_open|apply open_answers].
  - injection Hon as <-. apply same_kept; [done|unfold on_pong; by destruct (matching_pong _ _) as [[]]..].
  - destruct (protocol_reject_awaited _ _ _ _ _ _ Hp) as (service & Hw).
    destruct (take_awaited pol sid (rj_service_id v) l Hok) as (t & r' & s & Ht & Ew & Hg & Hr & Ha & Hm & Hab & Hfl); [by rewrite Hw|].
    unfold on_reject, take_reject in Hon. rewrite (co_correlated _ _ _ Hok), Ht in Hon. cbn [negb] in Hon.
    rewrite Hg, Z.eqb_refl, Hr in Hon. injection Hon as <-.
    eapply (answer_kept (rj_service_id v)); [done|simpl; reflexivity|done|].
    intros t' r1 Ht' Hr1. rewrite (taken_in_flight _ _ _ _ _ _ Hok Ht) in Ht'. injection Ht' as <-. rewrite Hr in Hr1.
    injection Hr1 as <-. by eexists.
Qed.
End answers.

(** Answers are only added. *)
Lemma message_answers closed now w m l : ∃ a, sl_answers (on_message closed now w m l).2 = sl_answers l ++ a.
Proof.
  assert (∀ l' : Loop, sl_answers l' = sl_answers l → ∃ a, sl_answers l' = sl_answers l ++ a) as Hsame
    by (intros l' ->; exists []; by rewrite app_nil_r).
  destruct m as [m|e]; [|by apply Hsame]. destruct m; simpl; try by apply Hsame.
  - unfold on_ack. destruct (take_ack _ _ _ _) as [[] s]; simpl; try (by apply Hsame); try by eexists.
    unfold write_control. destruct (write_bounded _ _ _). by apply Hsame.
  - apply Hsame, open_answers.
  - apply Hsame. unfold try_send. by destruct (_ <? _).
  - apply Hsame. unfold on_pong. by destruct (matching_pong _ _) as [[]].
  - unfold on_error. destruct (reject _) as [[]]; simpl; [by eexists|by apply Hsame].
  - unfold on_reject. destruct (negb _); [by apply Hsame|]. destruct (take_reject _ _ _) as [[] ?]; simpl; try (by eexists); by apply Hsame.
Qed.

Lemma step_answers policy sid y y' :
  system_step policy sid y y' → ∃ a, sl_answers (sy_client y') = sl_answers (sy_client y) ++ a.
Proof.
  assert (∀ l l' : Loop, sl_answers l' = sl_answers l → ∃ a, sl_answers l' = sl_answers l ++ a) as Hsame
    by (intros l l' ->; exists []; by rewrite app_nil_r).
  destruct 1 as [l w i j now service reply'|l w i j id' reply' Hf'|l w i j now|l w i j|l w i j n io open service Hr
    |l w i j k0 m now l' Hk0 Hm Hon|l s ks i j k0 m listen k' s' Hk0 Hm Hon|l s ks i j k0 m Hk0 Hm
    |l w i j w' k0 k' Hstep Hk0 Hk' Hout Hserv Hneg]; cbn [sy_client]; try by apply Hsame.
  - unfold on_register. destruct (_ <=? _); [by eexists|]. destruct (begin _ _ _ _) as [[[]|[]] s]; simpl; [by apply Hsame|by eexists].
  - unfold on_unregister. destruct (unregister _ _) as [[[] out] s]; simpl; by eexists.
  - apply Hsame, tick_answers.
  - apply Hsame. unfold on_outgoing. by destruct (sl_queue l).
  - apply Hsame, opened_answers.
  - pose proof (message_answers (fun _ => false) now W_done (Ok m) l) as Ha. by rewrite Hon in Ha.
Qed.

Lemma run_answers policy sid y y' :
  rtc (system_step policy sid) y y' → ∃ a, sl_answers (sy_client y') = sl_answers (sy_client y) ++ a.
Proof.
  induction 1 as [y|y y1 y2 Hs _ [a2 IH]]; [exists []; by rewrite app_nil_r|].
  destruct (step_answers _ _ _ _ Hs) as [a1 Ha]. exists (a1 ++ a2). by rewrite IH, Ha, (assoc_L (++)).
Qed.

(** ** Runs *)

Section run.
Variables (pol : RuntimePolicy) (policy : BindPolicy) (p : RuntimePolicy) (sid : SessionId).
Variables (id : ServiceId) (txn : PendingRegistration) (r : Sender).
Hypothesis reply : pr_reply txn = Some r.

Lemma step_kept y y' :
  system_step policy sid y y' → system_inv pol policy p sid y → in_flight y id txn →
  kept_or_answered id txn r (sy_client y) (sy_client y').
Proof.
  intros Hs (k & Hk & Hn & Hok & Hw & Ho & Hp) Hf. unfold in_flight in Hf.
  destruct Hs as [l w i j now service reply'|l w i j id' reply' Hf'|l w i j now|l w i j|l w i j n io open service Hr
    |l w i j k0 m now l' Hk0 Hm Hon|l s ks i j k0 m listen k' s' Hk0 Hm Hon|l s ks i j k0 m Hk0 Hm
    |l w i j w' k0 k' Hstep Hk0 Hk' Hout Hserv Hneg]; simpl in *.
  - by eapply register_kept.
  - by eapply unregister_kept.
  - apply same_kept; [done|apply calm_tick|apply tick_answers].
  - apply same_kept; [done|unfold on_outgoing; by destruct (sl_queue l)..].
  - apply same_kept; [done|apply calm_opened|apply opened_answers].
  - rewrite Hk in Hk0. injection Hk0 as <-. unfold unread_down in Hp. simpl in Hp. rewrite (next_unread _ _ _ Hm) in Hp.
    by eapply read_kept.
  - by apply same_kept.
  - by apply same_kept.
  - by apply same_kept.
Qed.

(** From [y] on: the caller is answered, or still waits and neither side has
    said anything new about its service. *)
Record since (y : System) (k : Control) (y' : System) : Prop :=
  { si_inv : system_inv pol policy p sid y';
    si_up : (sy_up y <= sy_up y')%nat;
    si_down : (sy_down y <= sy_down y')%nat;
    si_out : ∃ new, sl_out (sy_client y') = sl_out (sy_client y) ++ new;
    si_answers : ∃ a, sl_answers (sy_client y') = sl_answers (sy_client y) ++ a ∧
      ((∃ result, (r, result) ∈ a) ∨
       (in_flight y' id txn ∧
        (∃ new, sl_out (sy_client y') = sl_out (sy_client y) ++ new ∧ about id new = []) ∧
        (about id (unread_up y) = [] → ∃ k' out, w_controls (sy_world y') !! sid = Some k' ∧
           ct_out k' = ct_out k ++ out ∧ about id out = []))) }.

Lemma in_flight_waiting y : in_flight y id txn → waiting_of (sy_client y) id = Some (pr_service txn).
Proof. unfold in_flight, waiting_of. by intros ->. Qed.

Lemma since_step y k y1 y2 :
  w_controls (sy_world y) !! sid = Some k → since y k y1 → system_step policy sid y1 y2 → since y k y2.
Proof.
  intros Hk [Hi Hu Hd [new0 Ho0] (a & Ha & Hcase)] Hs.
  pose proof (system_step_inv _ _ _ _ _ _ Hs Hi) as Hi2.
  pose proof Hi as (k1 & Hk1 & _ & _ & _ & Hord & Hp). pose proof Hi2 as (k2' & Hk2' & _ & _ & _ & _ & Hp2).
  destruct (system_step_grows _ _ _ _ _ _ _ Hs Hi Hk1) as (k2 & new & out & Hg).
  pose proof Hg as [Hk2 Hup Hdown Hread]. rewrite Hk2 in Hk2'. injection Hk2' as <-.
  split; [done|lia|lia|exists (new0 ++ new); by rewrite Hup, Ho0, (assoc_L (++))|].
  destruct Hcase as [Hans|(Hf & (new1 & Hn1 & Hq1) & Hout)].
  - assert (∃ a', sl_answers (sy_client y2) = sl_answers (sy_client y1) ++ a') as [a' Ha'] by (by eapply step_answers).
    exists (a ++ a'). rewrite Ha', Ha, (assoc_L (++)). split; [done|left]. destruct Hans as [result Hr].
    exists result. apply elem_of_app. by left.
  - destruct (step_kept _ _ Hs Hi Hf) as (a' & Ha' & [Hf2|[result Hr]]).
    2: { exists (a ++ a'). rewrite Ha', Ha, (assoc_L (++)). split; [done|left]. exists result. apply elem_of_app. by right. }
    destruct (quiet_step _ _ _ _ _ _ _ _ _ _ Hg Hord Hp Hp2 (in_flight_waiting _ Hf) (in_flight_waiting _ Hf2)) as [Hq Hqo].
    exists (a ++ a'). rewrite Ha', Ha, (assoc_L (++)). split; [done|right]. split_and!; [done|..].
    + exists (new1 ++ new). by rewrite Hup, Hn1, (assoc_L (++)), about_app, Hq1, Hq.
    + intros Hz. destruct (Hout Hz) as (k' & out' & Hk' & Hct & Hab). rewrite Hk1 in Hk'. injection Hk' as <-.
      exists k2, (out' ++ out). split_and!; [done|by rewrite Hdown, Hct, (assoc_L (++))|].
      rewrite about_app, Hab. simpl. apply Hqo. unfold unread_up in *. rewrite Hn1. by eapply about_drop_nil.
Qed.

Lemma since_run y k y' :
  w_controls (sy_world y) !! sid = Some k → system_inv pol policy p sid y → in_flight y id txn →
  rtc (system_step policy sid) y y' → since y k y'.
Proof.
  intros Hk Hi Hf Hr. refine (rtc_ind_r (since y k) _ _ _ _ Hr); [|intros; by eapply since_step].
  split; [done..|by exists []; rewrite app_nil_r|]. exists []. rewrite app_nil_r. split; [done|right]. split_and!; [done|..].
  - exists []. by rewrite app_nil_r.
  - intros _. exists k, []. by rewrite app_nil_r.
Qed.

(** Once the server has read all that was sent, and the client then all that
    the server had written, the caller has its answer. *)
Lemma answered_by_reading y y1 k1 y2 :
  system_inv pol policy p sid y → in_flight y id txn →
  rtc (system_step policy sid) y y1 → (length (sl_out (sy_client y)) <= sy_up y1)%nat →
  w_controls (sy_world y1) !! sid = Some k1 →
  rtc (system_step policy sid) y1 y2 → (length (ct_out k1) <= sy_down y2)%nat →
  ∃ a result, sl_answers (sy_client y2) = sl_answers (sy_client y) ++ a ∧ (r, result) ∈ a.
Proof.
  intros Hi Hf Hr1 Hu Hk1 Hr2 Hd. pose proof Hi as (k & Hk & _).
  destruct (since_run y k y1 Hk Hi Hf Hr1) as [Hi1 _ _ _ (a1 & Ha1 & Hc1)].
  destruct Hc1 as [[result Hr]|(Hf1 & (new & Hn & Hq) & _)].
  { destruct (run_answers _ _ _ _ Hr2) as [a2 Ha2]. exists (a1 ++ a2), result. rewrite Ha2, Ha1, (assoc_L (++)).
    split; [done|]. apply elem_of_app. by left. }
  assert (about id (unread_up y1) = []) as Hq1.
  { unfold unread_up. rewrite Hn. apply (about_drop_nil id (length (sl_out (sy_client y)))); [by rewrite drop_all|done..]. }
  destruct (since_run y1 k1 y2 Hk1 Hi1 Hf1 Hr2) as [Hi2 Hup _ _ (a2 & Ha2 & Hc2)].
  destruct Hc2 as [[result Hr]|(Hf2 & (new2 & Hn2 & Hq2) & Hout)].
  { exists (a1 ++ a2), result. rewrite Ha2, Ha1, (assoc_L (++)). split; [done|]. apply elem_of_app. by right. }
  exfalso. destruct (Hout Hq1) as (k2 & out & Hk2 & Hct & Hqo). destruct Hi2 as (k2' & Hk2' & _ & _ & _ & _ & Hp).
  rewrite Hk2 in Hk2'. injection Hk2' as <-. pose proof (pt_story _ _ _ _ _ Hp id) as Hs.
  rewrite (in_flight_waiting _ Hf2) in Hs. apply (story_waiting _ _ _ _ _ _ Hs). unfold unread_up, unread_down in *.
  rewrite Hn2, Hct, (about_drop_nil id _ _ _ _ Hq1 Hup Hq2). simpl.
  apply (about_drop_nil id (length (ct_out k1))); [by rewrite drop_all|done..].
Qed.
End run.

Lemma run_writes pol policy p sid y y' :
  system_inv pol policy p sid y → rtc (system_step policy sid) y y' →
  (∀ k, w_controls (sy_world y) !! sid = Some k → ∃ k' out, w_controls (sy_world y') !! sid = Some k' ∧ ct_out k' = ct_out k ++ out) ∧
  ∃ new, sl_out (sy_client y') = sl_out (sy_client y) ++ new.
Proof.
  intros Hi Hr. induction Hr as [y|y y1 y2 Hs _ IH].
  - split; [intros k Hk; exists k, []|exists []]; by rewrite app_nil_r.
  - destruct (IH (system_step_inv _ _ _ _ _ _ Hs Hi)) as [IHk [new' Hn']]. pose proof Hi as (k & Hk & _).
    destruct (system_step_grows _ _ _ _ _ _ _ Hs Hi Hk) as (k1 & new & out & [Hk1 Hu Hd _]). split.
    + intros k0 Hk0. rewrite Hk in Hk0. injection Hk0 as <-. destruct (IHk k1 Hk1) as (k' & out' & Hk' & Ho).
      exists k', (out ++ out'). by rewrite Ho, Hd, (assoc_L (++)).
    + exists (new ++ new'). by rewrite Hn', Hu, (assoc_L (++)).
Qed.

(** ** Fair executions *)

Section fair.
Variables (pol : RuntimePolicy) (policy : BindPolicy) (p : RuntimePolicy) (sid : SessionId) (e : nat → System).
Hypothesis runs : execution policy sid e.
Hypothesis start : system_inv pol policy p sid (e 0%nat).

Lemma execution_run n n' : (n <= n')%nat → rtc (system_step policy sid) (e n) (e n').
Proof.
  induction 1 as [|n' _ IH]; [done|]. destruct (runs n') as [->|Hs]; [done|]. by eapply rtc_r.
Qed.

Lemma execution_inv n : system_inv pol policy p sid (e n).
Proof.
  refine (rtc_ind_r (system_inv pol policy p sid) _ start _ _ (execution_run 0 n ltac:(lia))).
  intros. by eapply system_step_inv.
Qed.

(** Reading on, a side gets past everything that has been written. *)
Lemma server_catches_up n N :
  server_reads_on e → (N <= length (sl_out (sy_client (e n))))%nat → ∃ n', (n <= n')%nat ∧ (N <= sy_up (e n'))%nat.
Proof.
  intros Hfair. remember (N - sy_up (e n))%nat as d eqn:Ed. revert n Ed.
  induction d as [d IH] using lt_wf_ind; intros n -> HN.
  destruct (decide (N <= sy_up (e n))%nat) as [Hle|Hlt]; [by exists n|].
  destruct (Hfair n) as (n1 & H1 & Hr).
  { unfold unread_up. intros E. apply (f_equal length) in E. rewrite length_drop in E. simpl in E. lia. }
  destruct (IH (N - sy_up (e n1))%nat ltac:(lia) n1 eq_refl) as (n' & H2 & H3); [|exists n'; split; [lia|done]].
  destruct (run_writes _ _ _ _ _ _ (execution_inv n) (execution_run n n1 H1)) as (_ & new & ->). rewrite length_app. lia.
Qed.

Lemma client_catches_up n k :
  client_reads_on sid e → w_controls (sy_world (e n)) !! sid = Some k →
  ∃ n', (n <= n')%nat ∧ (length (ct_out k) <= sy_down (e n'))%nat.
Proof.
  intros Hfair Hk. set (N := length (ct_out k)). assert (N <= length (ct_out k))%nat as HN by done. clearbody N.
  remember (N - sy_down (e n))%nat as d eqn:Ed. revert n k Hk HN Ed.
  induction d as [d IH] using lt_wf_ind; intros n k Hk HN ->.
  destruct (decide (N <= sy_down (e n))%nat) as [Hle|Hlt]; [by exists n|].
  destruct (Hfair n k Hk) as (n1 & H1 & Hr).
  { unfold unread_down. intros E. apply (f_equal length) in E. rewrite length_drop in E. simpl in E. lia. }
  destruct (run_writes _ _ _ _ _ _ (execution_inv n) (execution_run n n1 H1)) as (Hd & _).
  destruct (Hd k Hk) as (k1 & out & Hk1 & Ho).
  destruct (IH (N - sy_down (e n1))%nat ltac:(lia) n1 k1 Hk1) as (n' & H2 & H3); [rewrite Ho, length_app; lia|done|].
  exists n'. split; [lia|done].
Qed.
End fair.

(** ** Property *)

(** C4. Every registration is answered.  Take a Session that has begun as in
    [session_opened] and goes on for ever, with registrations, removals,
    heartbeats, offered connections and other Sessions in any order, as long
    as the two loops keep reading: whenever one of them has something to read,
    it has read on at some later time.  Then for every registration that is in
    flight at any time, there is a later time at which its caller has been
    given an answer it did not have before. *)
Theorem registrations_answered policy p sid listen io token st c delay l s ks k (e : nat → System) :
  session_opened policy p sid listen io token st c delay l s ks k →
  e 0%nat = opened_system listen policy sid st l s ks k → execution policy sid e →
  server_reads_on e → client_reads_on sid e →
  ∀ n id txn r, in_flight (e n) id txn → pr_reply txn = Some r →
  ∃ n' new result, (n <= n')%nat ∧
    sl_answers (sy_client (e n')) = sl_answers (sy_client (e n)) ++ new ∧ (r, result) ∈ new.
Proof.
  intros Ho He Hx Hs Hc n id txn r Hf Hr.
  assert (system_inv (ctr_policy c) policy p sid (e 0%nat)) as H0 by (rewrite He; by eapply session_opened_inv).
  destruct (server_catches_up _ _ _ _ _ Hx H0 n _ Hs (le_n _)) as (n1 & H1 & Hup).
  pose proof (execution_inv _ _ _ _ _ Hx H0 n1) as (k1 & Hk1 & _).
  destruct (client_catches_up _ _ _ _ _ Hx H0 n1 k1 Hc Hk1) as (n2 & H2 & Hdown).
  destruct (answered_by_reading _ _ _ _ _ _ _ Hr _ _ _ _ (execution_inv _ _ _ _ _ Hx H0 n) Hf
    (execution_run _ _ _ Hx n n1 H1) Hup Hk1 (execution_run _ _ _ Hx n1 n2 H2) Hdown) as (a & result & Ha & Hin).
  exists n2, a, result. split_and!; [lia|done..].
Qed.

(** ** Witness: the run of [session_agreement_witness], which then rests *)

Definition sample_execution (n : nat) : System :=
  match n with
  | 0 => mkSystem served_loop first_world sent_before answered_before
  | 1 => mkSystem asking first_world sent_before answered_before
  | 2 => mkSystem asking second_world (S sent_before) answered_before
  | _ => agreed_system
  end%nat.

Lemma sample_execution_runs : execution BindPolicy_default sample_sid sample_execution.
Proof.
  intros [|[|[|n]]]; [right; exact asked_step|right; exact served_step|right; exact told_step|left; exact eq_refl].
Qed.

#[local] Strategy expand [first_world second_world agreed_system].

Lemma sample_server_reads : server_reads_on sample_execution.
Proof.
  assert (unread_up (sample_execution 0) = []) as E0 by (vm_compute; reflexivity).
  assert (unread_up (sample_execution 2) = []) as E2 by (vm_compute; reflexivity).
  assert (unread_up (sample_execution 3) = []) as E3 by (vm_compute; reflexivity).
  intros [|[|[|n]]] Hn; [destruct (Hn E0)| |destruct (Hn E2)|destruct (Hn E3)].
  exists 2%nat. split; [lia|]. change (sent_before < S sent_before)%nat. lia.
Qed.

Lemma sample_client_reads : client_reads_on sample_sid sample_execution.
Proof.
  assert (unread_down first_served.1.2 (sample_execution 0) = []) as E0 by (vm_compute; reflexivity).
  assert (unread_down first_served.1.2 (sample_execution 1) = []) as E1 by (vm_compute; reflexivity).
  assert (unread_down second_served.1.2 (sample_execution 3) = []) as E3 by (vm_compute; reflexivity).
  assert (w_controls first_world !! sample_sid = Some first_served.1.2) as F1 by apply lookup_insert_eq.
  assert (w_controls second_world !! sample_sid = Some second_served.1.2) as F2 by apply lookup_insert_eq.
  intros [|[|[|n]]] k Hk Hn.
  - change (w_controls first_world !! sample_sid = Some k) in Hk. rewrite <-(inj Some _ _ (eq_trans (eq_sym F1) Hk)) in Hn. destruct (Hn E0).
  - change (w_controls first_world !! sample_sid = Some k) in Hk. rewrite <-(inj Some _ _ (eq_trans (eq_sym F1) Hk)) in Hn. destruct (Hn E1).
  - exists 3%nat. split; [lia|]. change (answered_before < S answered_before)%nat. lia.
  - change (w_controls second_world !! sample_sid = Some k) in Hk. rewrite <-(inj Some _ _ (eq_trans (eq_sym F2) Hk)) in Hn. destruct (Hn E3).
Qed.

Lemma registrations_answered_witness :
  ∃ txn n result, in_flight (sample_execution 1) (cs_id ssh) txn ∧ (1 <= n)%nat ∧
    (3%nat, result) ∈ sl_answers (sy_client (sample_execution n)).
Proof.
  assert (is_Some (st_in_flight (sl_state asking) !! cs_id ssh)) as [txn Hf] by (vm_compute; eexists; reflexivity).
  assert (pr_reply <$> st_in_flight (sl_state asking) !! cs_id ssh = Some (Some 3%nat)) as Hr by (vm_compute; reflexivity).
  rewrite Hf in Hr. injection Hr as Hr.
  destruct (registrations_answered BindPolicy_default RuntimePolicy_default sample_sid sample_listen served_connect
    (mkSecretToken [Byte.x73]) (State_new [web]) (with_policy RuntimePolicy_default) (from_millis 500) served_loop
    greeted_server greeted_controls sample_control sample_execution sample_opened_session (eq_sym sample_opened_system)
    sample_execution_runs sample_server_reads sample_client_reads 1%nat (cs_id ssh) txn 3%nat Hf Hr)
    as (n & new & result & Hn & Ha & Hin).
  exists txn, n, result. split; [exact Hf|]. split; [exact Hn|]. rewrite Ha. apply elem_of_app. right. exact Hin.
Defined.
