(* ===== verification/CliConfig.v ===== *)
(** * The command line: configuration, resolution and [check]

    The stages of crates/eggtunnel-cli/src/main.rs that turn a TOML file, the
    command-line overrides, environment variables and files into a resolved
    configuration, its lowering into the library's builders, and the [check]
    command with its report.

    The operating system is the record [Env] (what each read answers), and a
    computation of type [io] records every read and every printed line next to
    its result.  The TOML parser and the text of an I/O error are the class
    [Platform]; argument parsing is clap's and starts from its result, the
    override records. *)

From stdpp Require Import pretty.
From S2P Require Import Prelude Text Proto Common Endpoint Config.

Abbreviation Path := rstr.

(** ** Errors *)

Inductive ErrorCategory :=
| ConfigParse | ConfigResolution | MissingSecretReference | TlsMaterial | ProfileValidation
| BindValidation | RuntimeStart | TransportError | AuthenticationError.

Definition ErrorCategory_as_str (c : ErrorCategory) : string :=
  match c with
  | ConfigParse => "config_parse"
  | ConfigResolution => "config_resolution"
  | MissingSecretReference => "missing_secret_reference"
  | TlsMaterial => "tls_material"
  | ProfileValidation => "profile_validation"
  | BindValidation => "bind_validation"
  | RuntimeStart => "runtime_start"
  | TransportError => "transport"
  | AuthenticationError => "authentication"
  end.

Record CliError := mkCliError { ce_category : ErrorCategory; ce_message : rstr }.

Definition CliError_display (e : CliError) : rstr :=
  lit (ErrorCategory_as_str (ce_category e)) ++ lit ": " ++ ce_message e.

(** ** The configuration file and the overrides *)

Record FileService := mkFileService
  { fs_id : Z; fs_name : rstr; fs_target_host : rstr; fs_target_port : Z; fs_bind_port : Z }.

Record FileConfig := mkFileConfig
  { fc_mode : rstr; fc_transport : rstr; fc_token_env : rstr; fc_listen_addr : option rstr;
    fc_tls_cert : option Path; fc_tls_key : option Path; fc_allow_public_service_binds : bool;
    fc_server_addr : option rstr; fc_tls_server_name : option rstr; fc_ca_cert : option Path;
    fc_outbound_proxy_env : option rstr; fc_client_cert : option Path; fc_client_key : option Path;
    fc_client_ca : option Path; fc_services : list FileService }.

Record ClientOverrides := mkClientOverrides
  { co_server_addr : option rstr; co_tls_server_name : option rstr; co_transport : option rstr;
    co_ca_cert : option Path; co_token_env : option rstr; co_outbound_proxy_env : option rstr;
    co_client_cert : option Path; co_client_key : option Path; co_bind_port : option Z }.

Record ServerOverrides := mkServerOverrides
  { so_listen_addr : option rstr; so_transport : option rstr; so_tls_cert : option Path;
    so_tls_key : option Path; so_client_ca : option Path; so_token_env : option rstr;
    so_allow_public_service_binds : bool }.

Definition no_client_overrides : ClientOverrides :=
  mkClientOverrides None None None None None None None None None.
Definition no_server_overrides : ServerOverrides :=
  mkServerOverrides None None None None None None false.

Class Platform :=
  { toml_from_str : rstr → option FileConfig;
    io_error_display : ErrorKind → rstr }.

(** ** Output *)

(** A JSON value; an address stands for its text. *)
Inductive Json :=
| J_null
| J_bool (b : bool)
| J_num (z : Z)
| J_str (s : rstr)
| J_ip (address : list byte)
| J_socket (addr : SocketAddr)
| J_arr (l : list Json)
| J_obj (fields : list (string * Json)).

Inductive Line :=
| L_json (value : Json)
| L_text (text : rstr)
| L_listening (addr : SocketAddr)
| L_service (service : Z) (session : string) (address : list byte) (port : Z).

(** ** Effects *)

(** [en_text] is [fs::read_to_string], [en_var] is [env::var], [en_metadata]
    whether a path is a directory and its size, [en_read] is [fs::read]. *)
Record Env := mkEnv
  { en_text : Path → option rstr; en_var : rstr → option rstr;
    en_metadata : Path → option (bool * Z); en_read : Path → option (list byte) }.

Inductive Event :=
| E_text (path : Path) | E_var (name : rstr) | E_metadata (path : Path) | E_read (path : Path)
| E_print (line : Line).

Definition io (A : Type) : Type := Env → list Event * result CliError A.

#[export] Instance io_ret : MRet io := fun A a env => ([], Ok a).
#[export] Instance io_bind : MBind io := fun A B f m env =>
  match m env with
  | (t, Ok a) => let '(t', r) := f a env in (t ++ t', r)
  | (t, Err e) => (t, Err e)
  end.

Definition lift {A} (r : result CliError A) : io A := fun env => ([], r).
Definition fail {A} (c : ErrorCategory) (message : rstr) : io A := lift (Err (mkCliError c message)).
Definition require (b : bool) (c : ErrorCategory) (message : rstr) : io unit :=
  if b then mret tt else fail c message.
Definition or_fail {A} (o : option A) (c : ErrorCategory) (message : rstr) : io A :=
  match o with Some a => mret a | None => fail c message end.

Definition read_text (path : Path) : io (option rstr) := fun env => ([E_text path], Ok (en_text env path)).
Definition env_var (name : rstr) : io (option rstr) := fun env => ([E_var name], Ok (en_var env name)).
Definition metadata (path : Path) : io (option (bool * Z)) :=
  fun env => ([E_metadata path], Ok (en_metadata env path)).
Definition read_file (path : Path) : io (option (list byte)) :=
  fun env => ([E_read path], Ok (en_read env path)).
Definition print (line : Line) : io unit := fun env => ([E_print line], Ok tt).

(** ** [SocketAddr::from_str]

    The parser of [core::net::parser]; the scope of an IPv6 socket is read and
    not kept. *)

Definition read_port (s : list Z) : option (Z * list Z) :=
  r ← read_given_char 58 s; read_number 16 10 (length r) true r.

Definition read_socket_addr_v4 (s : list Z) : option (SocketAddr * list Z) :=
  '(octets, r) ← read_ipv4_addr s;
  '(port, r') ← read_port r;
  Some (V4 (byte_of <$> octets) port, r').

Definition read_scope_id (s : list Z) : list Z :=
  match read_given_char 37 s with
  | Some r => match read_number 32 10 (length r) true r with Some (_, r') => r' | None => s end
  | None => s
  end.

Definition read_socket_addr_v6 (s : list Z) : option (SocketAddr * list Z) :=
  r ← read_given_char 91 s;
  '(groups, r1) ← read_ipv6_addr r;
  r2 ← read_given_char 93 (read_scope_id r1);
  '(port, r3) ← read_port r2;
  Some (V6 (groups ≫= to_be 2) port, r3).

Definition parse_socket_addr (s : rstr) : option SocketAddr :=
  match read_socket_addr_v4 (str_bytes s) with
  | Some (addr, rest) => match rest with [] => Some addr | _ => None end
  | None =>
      match read_socket_addr_v6 (str_bytes s) with
      | Some (addr, []) => Some addr
      | _ => None
      end
  end.

(** ** Stage 2: overrides *)

(** [if let Some(value) = &over { field = Some(value.clone()) }]. *)
Definition over {A} (value field : option A) : option A :=
  match value with Some v => Some v | None => field end.

Definition set_bind_port (port : Z) (s : FileService) : FileService :=
  mkFileService (fs_id s) (fs_name s) (fs_target_host s) (fs_target_port s) port.

Definition apply_client_overrides (c : FileConfig) (o : ClientOverrides) : result CliError FileConfig :=
  services ← match co_bind_port o with
             | None => Ok (fc_services c)
             | Some port =>
                 match fc_services c with
                 | [service] => Ok [set_bind_port port service]
                 | _ => Err (mkCliError ConfigResolution
                               (lit "--bind-port requires exactly one configured service"))
                 end
             end;
  Ok (mkFileConfig (fc_mode c) (default (fc_transport c) (co_transport o))
        (default (fc_token_env c) (co_token_env o)) (fc_listen_addr c) (fc_tls_cert c) (fc_tls_key c)
        (fc_allow_public_service_binds c) (over (co_server_addr o) (fc_server_addr c))
        (over (co_tls_server_name o) (fc_tls_server_name c)) (over (co_ca_cert o) (fc_ca_cert c))
        (over (co_outbound_proxy_env o) (fc_outbound_proxy_env c))
        (over (co_client_cert o) (fc_client_cert c)) (over (co_client_key o) (fc_client_key c))
        (fc_client_ca c) services).

Definition apply_server_overrides (c : FileConfig) (o : ServerOverrides) : result CliError FileConfig :=
  Ok (mkFileConfig (fc_mode c) (default (fc_transport c) (so_transport o))
        (default (fc_token_env c) (so_token_env o)) (over (so_listen_addr o) (fc_listen_addr c))
        (over (so_tls_cert o) (fc_tls_cert c)) (over (so_tls_key o) (fc_tls_key c))
        (if so_allow_public_service_binds o then true else fc_allow_public_service_binds c)
        (fc_server_addr c) (fc_tls_server_name c) (fc_ca_cert c) (fc_outbound_proxy_env c)
        (fc_client_cert c) (fc_client_key c) (over (so_client_ca o) (fc_client_ca c)) (fc_services c)).

(** ** Stage 3: environment variables and files *)

Definition load_token_with (env_name : rstr) (var : rstr → io (option rstr)) : io SecretToken :=
  _ ← require (negb (bool_decide (env_name = []))) ConfigResolution
        (lit "token_env must name an environment variable");
  answer ← var env_name;
  value ← or_fail answer MissingSecretReference
            (lit "required environment variable " ++ env_name ++ lit " is not set");
  lift (map_err (fun _ => mkCliError ConfigResolution
                   (lit "environment variable " ++ env_name ++ lit " holds an unusable token"))
          (SecretToken_new (byte_of <$> str_bytes value))).

Definition MAX_MATERIAL_BYTES : Z := 1024 * 1024.

Definition read_material (path : option Path) (what : string) : io (option Pem) :=
  match path with
  | None => mret None
  | Some path =>
      let unreadable := lit what ++ lit " file is missing or unreadable" in
      let too_large := lit what ++ lit " file exceeds size limit" in
      answer ← metadata path;
      '(is_dir, size) ← or_fail answer ConfigResolution unreadable;
      _ ← require (negb is_dir) ConfigResolution unreadable;
      _ ← require (negb (MAX_MATERIAL_BYTES <? size)) TlsMaterial too_large;
      contents ← read_file path;
      bytes ← or_fail contents ConfigResolution unreadable;
      _ ← require (negb (MAX_MATERIAL_BYTES <? len bytes)) TlsMaterial too_large;
      _ ← require (negb (len bytes =? 0)) TlsMaterial (lit what ++ lit " file must not be empty");
      mret (Some bytes)
  end.

Definition read_required_material (path : option Path) (what : string) : io Pem :=
  answer ← read_material path what;
  or_fail answer ConfigResolution (lit what ++ lit " is required but not configured").

(** ** The resolved configuration *)

Record ResolvedClient := mkResolvedClient
  { rc_server_addr : Endpoint; rc_tls_server_name : rstr; rc_ca_pem : option Pem; rc_token : SecretToken;
    rc_services : list ClientService; rc_transport : ClientTransportProfile;
    rc_outbound_proxy : option rstr; rc_identity : option ClientIdentity }.

Record ResolvedServer := mkResolvedServer
  { rs_listen_addr : SocketAddr; rs_certificate_pem : Pem; rs_private_key_pem : Pem; rs_token : SecretToken;
    rs_transport : ServerTransportProfile; rs_allow_public_service_binds : bool; rs_client_ca : option Pem }.

Definition bad_transport : CliError :=
  mkCliError TransportError (lit "transport must be 'tcp_tls', 'quic', or 'websocket_tls'").

Definition client_transport_named (name : rstr) : result CliError ClientTransportProfile :=
  if bool_decide (name = lit "tcp_tls") then Ok ClientTcpTls
  else if bool_decide (name = lit "quic") then Ok ClientQuic
  else if bool_decide (name = lit "websocket_tls") then Ok ClientWebSocket
  else Err bad_transport.

Definition server_transport_named (name : rstr) : result CliError ServerTransportProfile :=
  if bool_decide (name = lit "tcp_tls") then Ok ServerTcpTls
  else if bool_decide (name = lit "quic") then Ok ServerQuic
  else if bool_decide (name = lit "websocket_tls") then Ok ServerWebSocket
  else Err bad_transport.

Definition resolve_service (s : FileService) : result CliError ClientService :=
  name ← map_err (fun _ => mkCliError ConfigResolution (lit "service name is invalid"))
           (ServiceName_new (fs_name s));
  target ← map_err (fun _ => mkCliError ConfigResolution (lit "service target is invalid"))
             (TcpTarget_new (fs_target_host s) (fs_target_port s));
  Ok (mkClientService (mkServiceId (fs_id s)) name (Loopback (fs_bind_port s)) target).

Definition resolve_client_services (config : FileConfig) : result CliError (list ClientService) :=
  match fc_services config with
  | [] => Err (mkCliError ConfigResolution (lit "client config requires at least one service"))
  | services => collect (resolve_service <$> services)
  end.

Definition is_set {A} (o : option A) : bool := match o with Some _ => true | None => false end.

Definition resolve_proxy (proxy_name : option rstr) (var : rstr → io (option rstr)) : io (option rstr) :=
  match proxy_name with
  | None => mret None
  | Some name =>
      answer ← var name;
      value ← or_fail answer MissingSecretReference
                (lit "outbound proxy variable " ++ name ++ lit " is missing");
      _ ← require (negb (forallb is_whitespace value)) ConfigResolution
            (lit "outbound proxy variable " ++ name ++ lit " is empty");
      mret (Some value)
  end.

(** The pairing is checked before, so the last arm is unreachable. *)
Definition resolve_identity (config : FileConfig) : io (option ClientIdentity) :=
  match fc_client_cert config, fc_client_key config with
  | Some cert, Some key =>
      certificate ← read_required_material (Some cert) "client certificate";
      private ← read_required_material (Some key) "client key";
      mret (Some (mkClientIdentity certificate private))
  | _, _ => mret None
  end.

Definition resolve_client_with (config : FileConfig) (var : rstr → io (option rstr)) : io ResolvedClient :=
  _ ← require (bool_decide (fc_mode config = lit "client")) ConfigResolution
        (lit "mode must be 'client' for the client command");
  _ ← require (negb (is_set (fc_listen_addr config) || is_set (fc_tls_cert config)
                     || is_set (fc_tls_key config) || is_set (fc_client_ca config)
                     || fc_allow_public_service_binds config)) ConfigResolution
        (lit "server-only fields are not valid in client mode");
  transport ← lift (client_transport_named (fc_transport config));
  text ← or_fail (fc_server_addr config) ConfigResolution (lit "missing server_addr");
  server_addr ← lift (map_err (fun _ => mkCliError BindValidation (lit "server_addr is invalid"))
                        (Endpoint_parse text));
  tls_server_name ← or_fail (name ← fc_tls_server_name config;
                             if bool_decide (name = []) then None else Some name)
                      ConfigResolution (lit "client config requires tls_server_name");
  _ ← require (eqb (is_set (fc_client_cert config)) (is_set (fc_client_key config))) ConfigResolution
        (lit "client_cert and client_key must be configured together");
  _ ← require (negb (bool_decide (fc_outbound_proxy_env config = Some []))) ConfigResolution
        (lit "outbound_proxy_env must name an environment variable");
  token ← load_token_with (fc_token_env config) var;
  ca_pem ← read_material (fc_ca_cert config) "CA bundle";
  proxy ← resolve_proxy (fc_outbound_proxy_env config) var;
  identity ← resolve_identity config;
  services ← lift (resolve_client_services config);
  mret (mkResolvedClient server_addr tls_server_name ca_pem token services transport proxy identity).

Definition resolve_server_with (config : FileConfig) (var : rstr → io (option rstr)) : io ResolvedServer :=
  _ ← require (bool_decide (fc_mode config = lit "server")) ConfigResolution
        (lit "mode must be 'server' for the server command");
  _ ← require (negb (is_set (fc_outbound_proxy_env config))) ConfigResolution
        (lit "outbound_proxy is only valid in client mode");
  _ ← require (negb (is_set (fc_server_addr config) || is_set (fc_tls_server_name config)
                     || is_set (fc_ca_cert config) || is_set (fc_client_cert config)
                     || is_set (fc_client_key config) || negb (bool_decide (fc_services config = [])))) ConfigResolution
        (lit "client-only fields are not valid in server mode");
  transport ← lift (server_transport_named (fc_transport config));
  text ← or_fail (fc_listen_addr config) ConfigResolution (lit "server config requires listen_addr");
  listen_addr ← or_fail (parse_socket_addr text) BindValidation
                  (lit "listen_addr must be a socket address such as 127.0.0.1:443");
  token ← load_token_with (fc_token_env config) var;
  certificate_pem ← read_required_material (fc_tls_cert config) "TLS certificate";
  private_key_pem ← read_required_material (fc_tls_key config) "TLS key";
  client_ca ← read_material (fc_client_ca config) "client CA";
  mret (mkResolvedServer listen_addr certificate_pem private_key_pem token transport
          (fc_allow_public_service_binds config) client_ca).

Definition resolve_client (config : FileConfig) : io ResolvedClient := resolve_client_with config env_var.
Definition resolve_server (config : FileConfig) : io ResolvedServer := resolve_server_with config env_var.

(** ** Stage 4: the builders *)

Definition client_builder (r : ResolvedClient) : ClientBuilder :=
  let config := mkClientConfig (ep_text (rc_server_addr r)) (rc_tls_server_name r) (rc_ca_pem r)
                  (rc_token r) (rc_services r) in
  let builder := client_runtime_policy RuntimePolicy_default
                   (client_transport (rc_transport r) (ClientBuilder_new config)) in
  let builder := match rc_outbound_proxy r with Some proxy => outbound_proxy proxy builder | None => builder end in
  match rc_identity r with Some identity => with_identity identity builder | None => builder end.

Definition server_builder (r : ResolvedServer) : ServerBuilder :=
  let server := mkServerConfig (rs_listen_addr r) (rs_certificate_pem r) (rs_private_key_pem r) (rs_token r)
                  (rs_allow_public_service_binds r) in
  let policy := mkBindPolicy (rs_allow_public_service_binds r) (allowed_addresses BindPolicy_default)
                  (allowed_port_ranges BindPolicy_default) (allow_ephemeral_ports BindPolicy_default)
                  (max_services_per_session BindPolicy_default) in
  let builder := with_bind_policy policy
                   (server_runtime_policy RuntimePolicy_default
                      (server_transport (rs_transport r) (ServerBuilder_new server))) in
  match rs_client_ca r with Some ca => client_ca_pem ca builder | None => builder end.

Definition transport_name_client (p : ClientTransportProfile) : string :=
  match p with ClientTcpTls => "tcp_tls" | ClientQuic => "quic" | ClientWebSocket => "websocket_tls" end.
Definition transport_name_server (p : ServerTransportProfile) : string :=
  match p with ServerTcpTls => "tcp_tls" | ServerQuic => "quic" | ServerWebSocket => "websocket_tls" end.

(** The [Debug] of a snapshot, field by field; an absent option is [J_null]. *)
Definition configured {A} (o : option A) : Json :=
  match o with Some _ => J_str (lit "[configured]") | None => J_null end.

Definition ResolvedClient_debug (r : ResolvedClient) : list (string * Json) :=
  [("server_addr", J_str (ep_text (rc_server_addr r))); ("tls_server_name", J_str (rc_tls_server_name r));
   ("ca_pem", configured (rc_ca_pem r)); ("token", J_str (lit "[REDACTED]"));
   ("services", J_num (len (rc_services r)));
   ("transport", J_str (lit (match rc_transport r with
                             | ClientTcpTls => "tcp_tls" | ClientQuic => "quic" | ClientWebSocket => "websocket_tls"
                             end)));
   ("outbound_proxy", configured (rc_outbound_proxy r)); ("identity", configured (rc_identity r))].

Definition ResolvedServer_debug (r : ResolvedServer) : list (string * Json) :=
  [("listen_addr", J_socket (rs_listen_addr r)); ("certificate_pem", J_str (lit "[configured]"));
   ("private_key_pem", J_str (lit "[REDACTED]")); ("token", J_str (lit "[REDACTED]"));
   ("transport", J_str (lit (match rs_transport r with
                             | ServerTcpTls => "tcp_tls" | ServerQuic => "quic" | ServerWebSocket => "websocket_tls"
                             end)));
   ("allow_public_service_binds", J_bool (rs_allow_public_service_binds r));
   ("client_ca", configured (rs_client_ca r))].

(** ** The report of [check] *)

Record CheckReport := mkCheckReport
  { cr_ok : bool; cr_mode : rstr; cr_transport : rstr; cr_services : Z; cr_custom_ca : bool; cr_mtls : bool;
    cr_outbound_proxy : bool; cr_error : option (string * rstr) }.

Definition CHECK_SCHEMA : string := "eggtunnel.check/v1".

(** The derived serialisation. *)
Definition CheckReport_json (r : CheckReport) : Json :=
  J_obj [("schema", J_str (lit CHECK_SCHEMA)); ("ok", J_bool (cr_ok r)); ("mode", J_str (cr_mode r));
         ("transport", J_str (cr_transport r)); ("services", J_num (cr_services r));
         ("custom_ca", J_bool (cr_custom_ca r)); ("mtls", J_bool (cr_mtls r));
         ("outbound_proxy", J_bool (cr_outbound_proxy r));
         ("error", match cr_error r with
                   | Some (category, message) =>
                       J_obj [("category", J_str (lit category)); ("message", J_str message)]
                   | None => J_null
                   end)].

Definition check_report_ok (config : FileConfig) (transport : string) : CheckReport :=
  let '(custom_ca, mtls) :=
    if bool_decide (fc_mode config = lit "client") then
      (is_set (fc_ca_cert config), is_set (fc_client_cert config) || is_set (fc_client_key config))
    else if bool_decide (fc_mode config = lit "server") then (false, is_set (fc_client_ca config))
    else (is_set (fc_ca_cert config) || is_set (fc_client_ca config),
          is_set (fc_client_cert config) || is_set (fc_client_ca config)) in
  mkCheckReport true (fc_mode config) (lit transport) (len (fc_services config)) custom_ca mtls
    (is_set (fc_outbound_proxy_env config)) None.

Definition check_report_err (config : option FileConfig) (error : CliError) : CheckReport :=
  let on {A} (f : FileConfig → option A) := from_option (fun c => is_set (f c)) false config in
  let mode := from_option fc_mode [] config in
  let '(custom_ca, mtls) :=
    if is_set config && bool_decide (mode = lit "client") then
      (on fc_ca_cert, on fc_client_cert || on fc_client_key)
    else if is_set config && bool_decide (mode = lit "server") then (false, on fc_client_ca)
    else (on fc_ca_cert || on fc_client_ca, on fc_client_cert || on fc_client_ca) in
  mkCheckReport false mode (from_option fc_transport [] config)
    (from_option (fun c => len (fc_services c)) 0 config) custom_ca mtls (on fc_outbound_proxy_env)
    (Some (ErrorCategory_as_str (ce_category error), ce_message error)).

Section commands.
Context `{Libraries} `{Platform}.

(** The [Display] of a [TunnelError]. *)
Definition ProtocolError_display (e : ProtocolError) : rstr :=
  match e with
  | InvalidMagic => lit "invalid protocol magic"
  | UnsupportedVersion major minor =>
      lit "unsupported protocol version " ++ lit (pretty major) ++ lit "." ++ lit (pretty minor)
  | UnknownMessage id => lit "unknown message type " ++ lit (pretty id)
  | TruncatedFrame => lit "truncated frame"
  | FrameTooLarge => lit "frame exceeds maximum size"
  | InvalidPayload => lit "malformed protocol payload"
  | InvalidName => lit "invalid service name"
  | InvalidBind => lit "invalid bind specification"
  | InvalidTarget => lit "invalid target descriptor"
  | UnexpectedMessage => lit "unexpected message for protocol state"
  end.

Definition TunnelError_display (e : TunnelError) : rstr :=
  match e with
  | TE_Configuration reason => lit "invalid configuration: " ++ lit reason
  | TE_Io k => lit "I/O operation failed: " ++ io_error_display k
  | TE_Tls => lit "TLS setup or handshake failed"
  | TE_Protocol e => lit "protocol error: " ++ ProtocolError_display e
  | TE_Authentication => lit "server authentication failed"
  | TE_Authorization => lit "service was rejected by server policy"
  | TE_Disconnected => lit "server connection ended"
  | TE_Cancelled => lit "operation was cancelled"
  | TE_Timeout => lit "operation timed out"
  | TE_Target => lit "local target rejected or failed the connection"
  | TE_ResourceExhausted => lit "runtime resource limit was reached"
  | TE_ServiceAlreadyExists => lit "service identifier or name is already registered"
  | TE_PeerClosed => lit "peer closed the connection"
  end.

Definition from_tunnel_error (error : TunnelError) : CliError :=
  mkCliError
    (match error with
     | TE_Tls => TlsMaterial
     | TE_Configuration _ => ProfileValidation
     | TE_Authentication => AuthenticationError
     | TE_Authorization => AuthenticationError
     | TE_ServiceAlreadyExists => ProfileValidation
     | TE_ResourceExhausted => RuntimeStart
     | _ => RuntimeStart
     end)
    (TunnelError_display error).

(** Stage 1. *)
Definition read_config (path : Path) : io FileConfig :=
  answer ← read_text path;
  text ← or_fail answer ConfigParse (lit "configuration file is missing or unreadable");
  or_fail (toml_from_str text) ConfigParse (lit "configuration is not valid TOML").

Definition check_client (config : FileConfig) : io string :=
  resolved ← resolve_client config;
  _ ← lift (map_err from_tunnel_error (ClientBuilder_validate (client_builder resolved)));
  mret (transport_name_client (rc_transport resolved)).

Definition check_server (config : FileConfig) : io string :=
  resolved ← resolve_server config;
  _ ← lift (map_err from_tunnel_error (ServerBuilder_validate (server_builder resolved)));
  mret (transport_name_server (rs_transport resolved)).

Definition check_mode (config : FileConfig) : io string :=
  if bool_decide (fc_mode config = lit "client") then check_client config
  else if bool_decide (fc_mode config = lit "server") then check_server config
  else fail ConfigResolution (lit "mode must be 'client' or 'server'").

(** [match outcome]: the computation goes on with its result as a value. *)
Definition outcome {A} (m : io A) : io (result CliError A) :=
  fun env => let '(t, r) := m env in (t, Ok r).

Definition run_check (path : Path) (json : bool) : io unit :=
  config ← read_config path;
  r ← outcome (check_mode config);
  match r with
  | Ok transport =>
      print (if json then L_json (CheckReport_json (check_report_ok config transport))
             else L_text (lit "configuration is structurally valid"))
  | Err error =>
      _ ← (if json then print (L_json (CheckReport_json (check_report_err (Some config) error))) else mret tt);
      lift (Err error)
  end.

(** The [client] and [server] commands up to a started runtime; [main] runs
    them inside a Tokio runtime. *)
Definition MIN_SNAPSHOT_INTERVAL_SECS : Z := 5.

Definition validate_snapshot_interval (value : option Z) : result CliError (option Z) :=
  match value with
  | None => Ok None
  | Some secs =>
      if secs <? MIN_SNAPSHOT_INTERVAL_SECS then
        Err (mkCliError ConfigResolution
               (lit "snapshot interval must be at least " ++ lit (pretty MIN_SNAPSHOT_INTERVAL_SECS)
                ++ lit " seconds"))
      else Ok (Some (secs * 1000000000))
  end.

Record StartedClient := mkStartedClient
  { st_client : Client; st_transport : string; st_services : Z; st_snapshot_every : option Z }.

Definition start_client (path : Path) (overrides : ClientOverrides) (interval : option Z) : io StartedClient :=
  snapshot_every ← lift (validate_snapshot_interval interval);
  parsed ← read_config path;
  config ← lift (apply_client_overrides parsed overrides);
  resolved ← resolve_client config;
  client ← lift (map_err from_tunnel_error (ClientBuilder_start true (client_builder resolved)));
  mret (mkStartedClient client (transport_name_client (rc_transport resolved)) (len (rc_services resolved))
          snapshot_every).

Record StartedServer := mkStartedServer
  { st_server : BoundServer; st_server_transport : string; st_server_snapshot_every : option Z }.

Definition start_server (sockets : BindIo) (path : Path) (overrides : ServerOverrides) (interval : option Z)
    : io StartedServer :=
  snapshot_every ← lift (validate_snapshot_interval interval);
  parsed ← read_config path;
  config ← lift (apply_server_overrides parsed overrides);
  resolved ← resolve_server config;
  server ← lift (map_err from_tunnel_error (ServerBuilder_bind sockets (server_builder resolved)));
  mret (mkStartedServer server (transport_name_server (rs_transport resolved)) snapshot_every).
End commands.

Example socket_addr_accepts :
  forallb (fun s => is_set (parse_socket_addr (lit s)))
    ["127.0.0.1:443"; "0.0.0.0:0"; "[::1]:443"; "[::ffff:10.0.0.1]:65535"; "[fe80::1%2]:22"; "1.2.3.4:0080"] = true.
Proof. vm_compute. reflexivity. Qed.

Example socket_addr_rejects :
  existsb (fun s => is_set (parse_socket_addr (lit s)))
    ["localhost:443"; "127.0.0.1"; "127.0.0.1:65536"; "127.0.0.1:"; "::1:443"; "[::1]"; "[::1]:443 "; "01.2.3.4:1";
     "[::1%eth0]:443"; ":443"] = false.
Proof. vm_compute. reflexivity. Qed.

(** ** Two runs side by side

    [agree R e1 e2 m n]: [m] under [e1] and [n] under [e2] read and print the
    same, fail with the same error or succeed with results related by [R]. *)

Definition agree {A B} (R : A → B → Prop) (e1 e2 : Env) (m : io A) (n : io B) : Prop :=
  (m e1).1 = (n e2).1 ∧
  match (m e1).2, (n e2).2 with
  | Ok a, Ok b => R a b
  | Err e, Err e' => e = e'
  | _, _ => False
  end.

Create HintDb agree.

Section agree.
Context (e1 e2 : Env).

Lemma agree_ret {A B} (R : A → B → Prop) a b : R a b → agree R e1 e2 (mret a) (mret b).
Proof. done. Qed.

Lemma agree_lift {A} (R : A → A → Prop) `{!Reflexive R} r : agree R e1 e2 (lift r) (lift r).
Proof. split; [done|]. by destruct r; simpl. Qed.

Lemma agree_bind {A B C D} (R : A → B → Prop) (S : C → D → Prop) m n f g :
  agree R e1 e2 m n → (∀ a b, R a b → agree S e1 e2 (f a) (g b)) → agree S e1 e2 (m ≫= f) (n ≫= g).
Proof.
  unfold agree, mbind, io_bind. intros [Ht Hr] Hf.
  destruct (m e1) as [t [a|e]], (n e2) as [t' [b|e']]; simpl in *; subst; try done.
  destruct (Hf _ _ Hr) as [Ht' Hr']. destruct (f a e1), (g b e2); simpl in *; by subst.
Qed.

Lemma agree_require b c message : agree eq e1 e2 (require b c message) (require b c message).
Proof. by destruct b. Qed.

Lemma agree_or_fail {A B} (R : A → B → Prop) o o' c message :
  option_Forall2 R o o' → agree R e1 e2 (or_fail o c message) (or_fail o' c message).
Proof. by destruct 1. Qed.

Lemma agree_outcome {A} (m n : io A) : agree eq e1 e2 m n → agree eq e1 e2 (outcome m) (outcome n).
Proof.
  unfold agree, outcome. intros [Ht Hr]. destruct (m e1) as [t [a|e]], (n e2) as [t' [b|e']]; simpl in *; by subst.
Qed.

Lemma agree_print line : agree eq e1 e2 (print line) (print line).
Proof. done. Qed.
End agree.

#[export] Hint Resolve agree_ret agree_lift agree_require agree_outcome agree_print : agree.

(** ** What is read

    [spells env t m]: under [env] the computation [m] performs a prefix of [t],
    and all of it when it succeeds. *)

Definition spells {A} (env : Env) (t : list Event) (m : io A) : Prop :=
  (m env).1 `prefix_of` t ∧ ∀ a, (m env).2 = Ok a → (m env).1 = t.

Create HintDb spells.

Section spells.
Context (env : Env).

Lemma spells_trace {A} t (m : io A) : (m env).1 = t → spells env t m.
Proof. by intros <-. Qed.

Lemma spells_bind {A B} t t' (m : io A) (f : A → io B) :
  spells env t m → (∀ a, (m env).2 = Ok a → spells env t' (f a)) → spells env (t ++ t') (m ≫= f).
Proof.
  unfold spells, mbind, io_bind. intros [Hp Ht] Hf.
  destruct (m env) as [u [a|e]]; simpl in *; [|split; [by apply prefix_app_r|done]].
  rewrite (Ht a eq_refl). destruct (Hf a eq_refl) as [Hp' Ht']. destruct (f a env) as [u' r]; simpl in *.
  split; [by apply prefix_app|]. intros b Hb. by rewrite (Ht' b).
Qed.

(** A computation with a quiet first part. *)
Lemma spells_bind_quiet {A B} t (m : io A) (f : A → io B) :
  spells env [] m → (∀ a, (m env).2 = Ok a → spells env t (f a)) → spells env t (m ≫= f).
Proof. apply spells_bind. Qed.

Lemma spells_ret {A} (a : A) : spells env [] (mret a : io A).
Proof. by apply spells_trace. Qed.
Lemma spells_lift {A} (r : result CliError A) : spells env [] (lift r).
Proof. by apply spells_trace. Qed.
Lemma spells_require b c message : spells env [] (require b c message).
Proof. apply spells_trace. by destruct b. Qed.
Lemma spells_or_fail {A} (o : option A) c message : spells env [] (or_fail o c message).
Proof. apply spells_trace. by destruct o. Qed.
End spells.
#[export] Hint Resolve spells_ret spells_lift spells_require spells_or_fail : spells.

Definition material_reads (path : option Path) : list Event :=
  match path with Some p => [E_metadata p; E_read p] | None => [] end.

(** The reads of a resolution, in order: one per reference of the file. *)
Definition client_reads (c : FileConfig) : list Event :=
  [E_var (fc_token_env c)] ++ material_reads (fc_ca_cert c) ++
  (E_var <$> option_list (fc_outbound_proxy_env c)) ++
  match fc_client_cert c, fc_client_key c with
  | Some cert, Some key => material_reads (Some cert) ++ material_reads (Some key)
  | _, _ => []
  end.

Definition server_reads (c : FileConfig) : list Event :=
  [E_var (fc_token_env c)] ++ material_reads (fc_tls_cert c) ++ material_reads (fc_tls_key c) ++
  material_reads (fc_client_ca c).

(** Steps over the reads that do nothing before the next one. *)
Ltac quiet := repeat (apply spells_bind_quiet; [solve [auto with spells]|intros ? _]).

Lemma spells_app_nil {A} env t (m : io A) : spells env (t ++ []) m → spells env t m.
Proof. by rewrite app_nil_r. Qed.

Lemma spells_token env name : spells env [E_var name] (load_token_with name env_var).
Proof.
  unfold load_token_with. quiet. apply spells_app_nil, spells_bind; [by apply spells_trace|].
  intros ? _. quiet. auto with spells.
Qed.

Lemma spells_material env path what : spells env (material_reads path) (read_material path what).
Proof.
  destruct path as [path|]; simpl; [|auto with spells].
  apply (spells_bind _ [_] [_]); [by apply spells_trace|]. intros ? _.
  apply spells_bind_quiet; [auto with spells|]. intros [is_dir size] _. quiet.
  apply (spells_bind _ [_] []); [by apply spells_trace|]. intros ? _. quiet. auto with spells.
Qed.

Lemma spells_required env path what : spells env (material_reads path) (read_required_material path what).
Proof. apply spells_app_nil, spells_bind; [apply spells_material|auto with spells]. Qed.

Lemma spells_proxy env name : spells env (E_var <$> option_list name) (resolve_proxy name env_var).
Proof.
  destruct name as [name|]; simpl; [|auto with spells].
  apply (spells_bind _ [_] []); [by apply spells_trace|]. intros ? _. quiet. auto with spells.
Qed.

Lemma spells_identity env c :
  spells env (match fc_client_cert c, fc_client_key c with
          | Some cert, Some key => material_reads (Some cert) ++ material_reads (Some key)
          | _, _ => []
          end) (resolve_identity c).
Proof.
  unfold resolve_identity. destruct (fc_client_cert c), (fc_client_key c); auto with spells.
  apply spells_bind; [apply spells_required|]. intros ? _. apply spells_app_nil, spells_bind; [apply spells_required|].
  auto with spells.
Qed.

Lemma spells_client env c : spells env (client_reads c) (resolve_client c).
Proof.
  unfold resolve_client, resolve_client_with, client_reads. quiet.
  apply spells_bind; [apply spells_token|]. intros ? _. apply spells_bind; [apply spells_material|]. intros ? _.
  apply spells_bind; [apply spells_proxy|]. intros ? _.
  apply spells_app_nil, spells_bind; [apply spells_identity|]. intros ? _. quiet. auto with spells.
Qed.

Lemma spells_server env c : spells env (server_reads c) (resolve_server c).
Proof.
  unfold resolve_server, resolve_server_with, server_reads. quiet.
  apply spells_bind; [apply spells_token|]. intros ? _. apply spells_bind; [apply spells_required|]. intros ? _.
  apply spells_bind; [apply spells_required|]. intros ? _.
  apply spells_app_nil, spells_bind; [apply spells_material|]. auto with spells.
Qed.

Section runs.
Context `{Libraries} `{Platform}.

Definition parsed (env : Env) (path : Path) : option FileConfig := en_text env path ≫= toml_from_str.

(** What [check] prints about an outcome. *)
Definition report (json : bool) (c : FileConfig) (r : result CliError string) : list Line :=
  match r with
  | Ok transport =>
      [if json then L_json (CheckReport_json (check_report_ok c transport))
       else L_text (lit "configuration is structurally valid")]
  | Err e => if json then [L_json (CheckReport_json (check_report_err (Some c) e))] else []
  end.

Lemma read_config_some env path c : parsed env path = Some c → read_config path env = ([E_text path], Ok c).
Proof.
  intros (text & Ht & Hc)%bind_Some. unfold read_config, mbind, io_bind, read_text. simpl. rewrite Ht. simpl.
  by rewrite Hc.
Qed.

Lemma run_check_parsed env path json c :
  parsed env path = Some c →
  run_check path json env =
    (E_text path :: (check_mode c env).1 ++ (E_print <$> report json c (check_mode c env).2),
     match (check_mode c env).2 with Ok _ => Ok tt | Err e => Err e end).
Proof.
  intros Hc. unfold run_check. unfold mbind at 1, io_bind at 1. rewrite (read_config_some _ _ _ Hc).
  unfold mbind at 1, io_bind at 1, outcome. destruct (check_mode c env) as [t [transport|e]]; simpl; [done|].
  by destruct json.
Qed.

Lemma spells_config env path c : parsed env path = Some c → spells env [E_text path] (read_config path).
Proof. intros Hc. apply spells_trace. by rewrite (read_config_some _ _ _ Hc). Qed.

Lemma spells_start_client env path o i c c' :
  parsed env path = Some c → apply_client_overrides c o = Ok c' →
  spells env (E_text path :: client_reads c') (start_client path o i).
Proof.
  intros Hc Ho. unfold start_client. quiet.
  apply (spells_bind env [_]); [by eapply spells_config|]. intros ?. rewrite (read_config_some _ _ _ Hc).
  intros [= <-]. apply spells_bind_quiet; [auto with spells|]. simpl. rewrite Ho. intros ? [= <-].
  apply spells_app_nil, spells_bind; [apply spells_client|]. intros ? _. quiet. auto with spells.
Qed.

Lemma spells_start_server env sockets path o i c c' :
  parsed env path = Some c → apply_server_overrides c o = Ok c' →
  spells env (E_text path :: server_reads c') (start_server sockets path o i).
Proof.
  intros Hc Ho. unfold start_server. quiet.
  apply (spells_bind env [_]); [by eapply spells_config|]. intros ?. rewrite (read_config_some _ _ _ Hc).
  intros [= <-]. apply spells_bind_quiet; [auto with spells|]. simpl. rewrite Ho. intros ? [= <-].
  apply spells_app_nil, spells_bind; [apply spells_server|]. intros ? _. quiet. auto with spells.
Qed.

Definition mode_reads (c : FileConfig) : list Event :=
  if bool_decide (fc_mode c = lit "client") then client_reads c
  else if bool_decide (fc_mode c = lit "server") then server_reads c else [].

Lemma spells_check_mode env c : spells env (mode_reads c) (check_mode c).
Proof.
  unfold check_mode, mode_reads, check_client, check_server. repeat case_bool_decide; [..|apply spells_lift];
    (apply spells_app_nil, spells_bind; [apply spells_client || apply spells_server|]);
    intros ? _; quiet; auto with spells.
Qed.

(** ** What can still fail after validation *)

Lemma bind_err {E A B} (r : result E A) (f : A → result E B) e :
  r ≫= f = Err e → r = Err e ∨ ∃ a, r = Ok a ∧ f a = Err e.
Proof. destruct r; simpl; [eauto|intros [= ->]; auto]. Qed.

Lemma map_err_err {E F A} (g : E → F) (r : result E A) e : map_err g r = Err e → ∃ e', r = Err e' ∧ e = g e'.
Proof. destruct r; [done|]. intros [= <-]. eauto. Qed.

Lemma ok_or_err {E A} (o : option A) (e e' : E) : ok_or o e = Err e' → e' = e.
Proof. destruct o; [done|]. by intros [= ->]. Qed.

Lemma add_roots_err roots certs e : add_roots roots certs = Err e → e = TE_Tls.
Proof.
  revert roots. induction certs as [|cert certs IH]; intros roots; simpl; [done|].
  intros [?%ok_or_err|(? & _ & ?)]%bind_err; eauto.
Qed.

Lemma read_certificates_err pem e : read_certificates pem = Err e → e = TE_Tls.
Proof. by intros (? & _ & ->)%map_err_err. Qed.

Lemma build_mtls_client_err config identity e : build_mtls_tls_config config identity = Err e → e = TE_Tls.
Proof.
  unfold build_mtls_tls_config. intros [Hr|(? & _ & Hr)]%bind_err.
  - destruct (cc_ca_pem config); [|done].
    apply bind_err in Hr as [?|(? & _ & ?)]; eauto using read_certificates_err, add_roots_err.
  - apply bind_err in Hr as [?|(? & _ & Hr)]; [by eapply read_certificates_err|].
    apply bind_err in Hr as [(? & _ & ->)%map_err_err|(? & _ & ?%ok_or_err)]; done.
Qed.

Lemma build_mtls_server_err config ca e : build_mtls_server_config config ca = Err e → e = TE_Tls.
Proof.
  unfold build_mtls_server_config. intros [?|(? & _ & Hr)]%bind_err; [by eapply read_certificates_err|].
  apply bind_err in Hr as [(? & _ & ->)%map_err_err|(? & _ & Hr)]; [done|].
  apply bind_err in Hr as [?|(? & _ & Hr)]; [by eapply read_certificates_err|].
  apply bind_err in Hr as [?|(? & _ & Hr)]; [by eapply add_roots_err|].
  apply bind_err in Hr as [?%ok_or_err|(? & _ & ?%ok_or_err)]; done.
Qed.

Lemma client_start_err b e :
  ClientBuilder_validate b = Ok tt → ClientBuilder_start true b = Err e → e = TE_Tls.
Proof.
  unfold ClientBuilder_start, start_profile, ClientBuilder_validate. intros Hv. rewrite Hv. simpl.
  apply validate_client_profile_ok in Hv as (_ & Hc & Hq & Hi & [proxy Hp]).
  pose proof Hc as ((endpoint & He) & _)%client_validate_config_ok.
  unfold start_with_tls_config, start_quic_profile, parse_server_addr. rewrite Hc, He, Hp. simpl.
  destruct (cb_identity b) as [identity|]; simpl.
  - intros [?|(? & _ & ?)]%bind_err; [by eapply build_mtls_client_err|done].
  - destruct (cb_profile b); simpl.
    + by intros [?%ok_or_err|(? & _ & ?)]%bind_err.
    + destruct (Hq eq_refl) as (-> & _). done.
    + by intros [?%ok_or_err|(? & _ & ?)]%bind_err.
Qed.

Lemma server_bind_err io b e :
  bi_runtime io = true → sb_runtime_policy b = RuntimePolicy_default → ServerBuilder_validate b = Ok tt →
  ServerBuilder_bind io b = Err e → e = TE_Tls ∨ ∃ k, e = TE_Io k.
Proof.
  intros Hr Hp Hv. unfold ServerBuilder_bind. rewrite Hv. simpl.
  assert (∀ tls config websocket, bind_with_tls_profile io (sb_config b) (sb_bind_policy b) tls config websocket
    (sb_runtime_policy b) = Err e → ∃ k, e = TE_Io k) as Htcp.
  { intros tls config websocket. unfold bind_with_tls_profile, require_caller_runtime. rewrite Hr.
    destruct (validate_server_profile_ok b Hv) as (_ & -> & -> & _). simpl.
    destruct (bi_tcp io _) as [[addr|k]|k]; simpl; intros [= <-]; eauto. }
  unfold bind_profile. destruct (sb_profile b).
  - destruct (sb_trusted_client_ca b).
    + intros [?%build_mtls_server_err|(? & _ & ?)]%bind_err; eauto.
    + intros [?%ok_or_err|(? & _ & ?)]%bind_err; eauto.
  - rewrite Hp. unfold bind_quic_profile. rewrite quic_stream_limit by (vm_compute; split; congruence). simpl.
    destruct (bi_quic io _) as [[addr|[]]|[]]; simpl; intros [= <-]; eauto.
  - intros [?%ok_or_err|(? & _ & ?)]%bind_err; eauto.
Qed.
End runs.

(** ** Results of the commands *)

Lemma io_bind_result {A B} (m : io A) (f : A → io B) env :
  ((m ≫= f) env).2 = match (m env).2 with Ok a => (f a env).2 | Err e => Err e end.
Proof. unfold mbind, io_bind. destruct (m env) as [t [a|e]]; [|done]. simpl. by destruct (f a env). Qed.

Lemma no_client_overrides_same c : apply_client_overrides c no_client_overrides = Ok c.
Proof. by destruct c. Qed.
Lemma no_server_overrides_same c : apply_server_overrides c no_server_overrides = Ok c.
Proof. by destruct c. Qed.

Section results.
Context `{Libraries} `{Platform} (env : Env) (path : Path) (c : FileConfig).
Hypothesis Hparsed : parsed env path = Some c.

Lemma run_check_result json :
  ((run_check path json) env).2 = match (check_mode c env).2 with Ok _ => Ok tt | Err e => Err e end.
Proof. by rewrite (run_check_parsed _ _ _ _ Hparsed). Qed.

Lemma start_client_result i every o c' :
  validate_snapshot_interval i = Ok every → apply_client_overrides c o = Ok c' →
  (start_client path o i env).2 =
  match (resolve_client c' env).2 with
  | Ok r =>
      match ClientBuilder_start true (client_builder r) with
      | Ok client => Ok (mkStartedClient client (transport_name_client (rc_transport r)) (len (rc_services r)) every)
      | Err e => Err (from_tunnel_error e)
      end
  | Err e => Err e
  end.
Proof.
  intros Hi Ho. unfold start_client. rewrite !io_bind_result, Hi. simpl.
  rewrite io_bind_result, (read_config_some _ _ _ Hparsed). simpl. rewrite io_bind_result, Ho. simpl.
  rewrite io_bind_result. destruct (resolve_client c' env).2 as [r|e]; [|done].
  rewrite io_bind_result. simpl. by destruct (ClientBuilder_start true _).
Qed.

Lemma start_server_result sockets i every o c' :
  validate_snapshot_interval i = Ok every → apply_server_overrides c o = Ok c' →
  (start_server sockets path o i env).2 =
  match (resolve_server c' env).2 with
  | Ok r =>
      match ServerBuilder_bind sockets (server_builder r) with
      | Ok server => Ok (mkStartedServer server (transport_name_server (rs_transport r)) every)
      | Err e => Err (from_tunnel_error e)
      end
  | Err e => Err e
  end.
Proof.
  intros Hi Ho. unfold start_server. rewrite !io_bind_result, Hi. simpl.
  rewrite io_bind_result, (read_config_some _ _ _ Hparsed). simpl. rewrite io_bind_result, Ho. simpl.
  rewrite io_bind_result. destruct (resolve_server c' env).2 as [r|e]; [|done].
  rewrite io_bind_result. simpl. by destruct (ServerBuilder_bind sockets _).
Qed.

Lemma check_client_result :
  (check_client c env).2 =
  match (resolve_client c env).2 with
  | Ok r =>
      match ClientBuilder_validate (client_builder r) with
      | Ok _ => Ok (transport_name_client (rc_transport r))
      | Err e => Err (from_tunnel_error e)
      end
  | Err e => Err e
  end.
Proof.
  unfold check_client. rewrite io_bind_result. destruct (resolve_client c env).2; [|done].
  rewrite io_bind_result. simpl. by destruct (ClientBuilder_validate _).
Qed.

Lemma check_server_result :
  (check_server c env).2 =
  match (resolve_server c env).2 with
  | Ok r =>
      match ServerBuilder_validate (server_builder r) with
      | Ok _ => Ok (transport_name_server (rs_transport r))
      | Err e => Err (from_tunnel_error e)
      end
  | Err e => Err e
  end.
Proof.
  unfold check_server. rewrite io_bind_result. destruct (resolve_server c env).2; [|done].
  rewrite io_bind_result. simpl. by destruct (ServerBuilder_validate _).
Qed.
End results.

Lemma server_builder_policy r : sb_runtime_policy (server_builder r) = RuntimePolicy_default.
Proof. unfold server_builder. by destruct (rs_client_ca r). Qed.

(** ** Similar environments

    They differ in the values of variables and the contents of files only:
    the same variables are set, to values that are equally usable as a token
    and as a proxy, and the same files exist with the same sizes. *)

Section similar.
Context `{Libraries}.

Definition similar_value (v w : rstr) : Prop :=
  is_ok (SecretToken_new (byte_of <$> str_bytes v)) = is_ok (SecretToken_new (byte_of <$> str_bytes w)) ∧
  forallb is_whitespace v = forallb is_whitespace w ∧
  is_set (from_pproxy_uri v) = is_set (from_pproxy_uri w).

Definition same_size (a b : Pem) : Prop := len a = len b.

Record similar (e1 e2 : Env) : Prop :=
  { similar_text path : en_text e1 path = en_text e2 path;
    similar_var name : option_Forall2 similar_value (en_var e1 name) (en_var e2 name);
    similar_metadata path : en_metadata e1 path = en_metadata e2 path;
    similar_read path : option_Forall2 same_size (en_read e1 path) (en_read e2 path) }.

Record similar_client (r s : ResolvedClient) : Prop :=
  { sm_server_addr : rc_server_addr r = rc_server_addr s;
    sm_tls_server_name : rc_tls_server_name r = rc_tls_server_name s;
    sm_ca : option_Forall2 same_size (rc_ca_pem r) (rc_ca_pem s);
    sm_services : rc_services r = rc_services s;
    sm_transport : rc_transport r = rc_transport s;
    sm_proxy : option_Forall2 similar_value (rc_outbound_proxy r) (rc_outbound_proxy s);
    sm_identity : option_Forall2 (fun _ _ => True) (rc_identity r) (rc_identity s) }.

Record similar_server (r s : ResolvedServer) : Prop :=
  { sv_listen_addr : rs_listen_addr r = rs_listen_addr s;
    sv_certificate : same_size (rs_certificate_pem r) (rs_certificate_pem s);
    sv_private_key : same_size (rs_private_key_pem r) (rs_private_key_pem s);
    sv_transport : rs_transport r = rs_transport s;
    sv_public : rs_allow_public_service_binds r = rs_allow_public_service_binds s;
    sv_client_ca : option_Forall2 same_size (rs_client_ca r) (rs_client_ca s) }.

Lemma similar_client_validate r s :
  similar_client r s → ClientBuilder_validate (client_builder r) = ClientBuilder_validate (client_builder s).
Proof.
  destruct r as [addr name ca token services transport proxy identity],
    s as [addr' name' ca' token' services' transport' proxy' identity'].
  intros [?? Hca ?? Hproxy Hid]; simpl in *; subst.
  assert (∀ p, client_validate_config (mkClientConfig (ep_text addr') name' ca token services') p =
    client_validate_config (mkClientConfig (ep_text addr') name' ca' token' services') p) as Hc.
  { intros p. unfold client_validate_config, parse_server_addr. simpl.
    destruct Hca as [a b Hab|]; simpl; [|done]. by rewrite Hab. }
  unfold ClientBuilder_validate, validate_client_profile, client_builder.
  destruct Hproxy as [v w (_ & _ & Hvw)|], Hid; simpl; rewrite Hc;
    destruct Hca; simpl; try done; unfold parse_outbound_proxy;
    destruct (from_pproxy_uri v), (from_pproxy_uri w); done.
Qed.

Lemma similar_server_validate r s :
  similar_server r s → ServerBuilder_validate (server_builder r) = ServerBuilder_validate (server_builder s).
Proof.
  destruct r as [addr cert key token transport public ca], s as [addr' cert' key' token' transport' public' ca'].
  intros [? Hcert Hkey ?? Hca]; simpl in *; subst. unfold same_size in *.
  unfold ServerBuilder_validate, validate_server_profile, server_validate_config, server_builder.
  destruct Hca as [a b Hab|]; simpl; rewrite Hcert, Hkey; [by rewrite Hab|done].
Qed.
End similar.

Section reads_agree.
Context `{Libraries} `{Platform} (e1 e2 : Env) (Hsim : similar e1 e2).

(** Steps that do not look at the environment. *)
Ltac same := repeat (apply (agree_bind _ _ eq); [solve [auto with agree]|intros ? ? <-]).

Lemma agree_var name : agree (option_Forall2 similar_value) e1 e2 (env_var name) (env_var name).
Proof. split; [done|apply Hsim]. Qed.

Lemma agree_token name : agree (fun _ _ => True) e1 e2 (load_token_with name env_var) (load_token_with name env_var).
Proof.
  unfold load_token_with. same. apply (agree_bind _ _ (option_Forall2 similar_value)); [apply agree_var|].
  intros o o' Ho. apply (agree_bind _ _ similar_value); [by apply agree_or_fail|].
  intros v w (Hok & _). split; [done|]. simpl.
  destruct (SecretToken_new (byte_of <$> str_bytes v)), (SecretToken_new (byte_of <$> str_bytes w)); done.
Qed.

Lemma agree_material path what :
  agree (option_Forall2 same_size) e1 e2 (read_material path what) (read_material path what).
Proof.
  destruct path as [path|]; simpl; [|apply agree_ret; constructor].
  apply (agree_bind _ _ eq); [split; [done|apply Hsim]|]. intros answer _ <-.
  apply (agree_bind _ _ eq); [apply agree_or_fail; by destruct answer; constructor|].
  intros [is_dir size] _ <-. same.
  apply (agree_bind _ _ (option_Forall2 same_size)); [split; [done|apply Hsim]|]. intros o o' Ho.
  apply (agree_bind _ _ same_size); [by apply agree_or_fail|]. intros bytes bytes' Hab. unfold same_size in Hab.
  rewrite Hab. same. apply agree_ret. by constructor.
Qed.

Lemma agree_required path what :
  agree same_size e1 e2 (read_required_material path what) (read_required_material path what).
Proof.
  apply (agree_bind _ _ (option_Forall2 same_size)); [apply agree_material|]. intros. by apply agree_or_fail.
Qed.

Lemma agree_proxy name :
  agree (option_Forall2 similar_value) e1 e2 (resolve_proxy name env_var) (resolve_proxy name env_var).
Proof.
  destruct name as [name|]; simpl; [|apply agree_ret; constructor].
  apply (agree_bind _ _ (option_Forall2 similar_value)); [apply agree_var|]. intros o o' Ho.
  apply (agree_bind _ _ similar_value); [by apply agree_or_fail|]. intros v w Hvw.
  rewrite (proj1 (proj2 Hvw)). same. apply agree_ret. by constructor.
Qed.

Lemma agree_identity c :
  agree (option_Forall2 (fun _ _ => True)) e1 e2 (resolve_identity c) (resolve_identity c).
Proof.
  unfold resolve_identity. destruct (fc_client_cert c), (fc_client_key c); [|by apply agree_ret; constructor..].
  apply (agree_bind _ _ same_size); [apply agree_required|]. intros ???.
  apply (agree_bind _ _ same_size); [apply agree_required|]. intros ???. apply agree_ret. by constructor.
Qed.

Lemma agree_resolve_client c : agree similar_client e1 e2 (resolve_client c) (resolve_client c).
Proof.
  unfold resolve_client, resolve_client_with. same.
  apply (agree_bind _ _ eq); [apply agree_or_fail; destruct (fc_server_addr c); by constructor|]. intros ? _ <-. same.
  apply (agree_bind _ _ eq); [apply agree_or_fail; destruct (_ ≫= _); by constructor|]. intros ? _ <-. same.
  apply (agree_bind _ _ (fun _ _ => True)); [apply agree_token|]. intros token token' _.
  apply (agree_bind _ _ (option_Forall2 same_size)); [apply agree_material|]. intros ca ca' Hca.
  apply (agree_bind _ _ (option_Forall2 similar_value)); [apply agree_proxy|]. intros proxy proxy' Hproxy.
  apply (agree_bind _ _ (option_Forall2 (fun _ _ => True))); [apply agree_identity|]. intros ?? Hid. same.
  by apply agree_ret.
Qed.

Lemma agree_resolve_server c : agree similar_server e1 e2 (resolve_server c) (resolve_server c).
Proof.
  unfold resolve_server, resolve_server_with. same.
  apply (agree_bind _ _ eq); [apply agree_or_fail; destruct (fc_listen_addr c); by constructor|]. intros ? _ <-.
  apply (agree_bind _ _ eq); [apply agree_or_fail; destruct (parse_socket_addr _); by constructor|]. intros ? _ <-.
  apply (agree_bind _ _ (fun _ _ => True)); [apply agree_token|]. intros token token' _.
  apply (agree_bind _ _ same_size); [apply agree_required|]. intros cert cert' Hcert.
  apply (agree_bind _ _ same_size); [apply agree_required|]. intros key key' Hkey.
  apply (agree_bind _ _ (option_Forall2 same_size)); [apply agree_material|]. intros ca ca' Hca.
  by apply agree_ret.
Qed.

Lemma agree_check_mode c : agree eq e1 e2 (check_mode c) (check_mode c).
Proof.
  unfold check_mode, check_client, check_server. repeat case_bool_decide; [..|by apply agree_lift].
  - apply (agree_bind _ _ similar_client); [apply agree_resolve_client|]. intros r s Hrs.
    rewrite (similar_client_validate _ _ Hrs), (sm_transport _ _ Hrs). same. by apply agree_ret.
  - apply (agree_bind _ _ similar_server); [apply agree_resolve_server|]. intros r s Hrs.
    rewrite (similar_server_validate _ _ Hrs), (sv_transport _ _ Hrs). same. by apply agree_ret.
Qed.

Lemma agree_run_check path json : agree eq e1 e2 (run_check path json) (run_check path json).
Proof.
  unfold run_check. apply (agree_bind _ _ eq).
  - unfold read_config. apply (agree_bind _ _ eq); [split; [done|apply Hsim]|]. intros answer _ <-.
    apply (agree_bind _ _ eq); [apply agree_or_fail; destruct answer; by constructor|]. intros text _ <-.
    apply agree_or_fail. destruct (toml_from_str text); by constructor.
  - intros c _ <-. apply (agree_bind _ _ eq); [apply agree_outcome, agree_check_mode|]. intros r _ <-.
    destruct r; [auto with agree|]. apply (agree_bind _ _ eq); [|auto with agree].
    destruct json; auto with agree.
Qed.
End reads_agree.

Lemma agree_eq {A} (e1 e2 : Env) (m n : io A) : agree eq e1 e2 m n → m e1 = n e2.
Proof.
  intros [Ht Hr]. destruct (m e1) as [t [a|e]], (n e2) as [t' [b|e']]; simpl in *; by subst.
Qed.

(** ** What resolution accepts *)

Lemma require_ok b c message env u : (require b c message env).2 = Ok u ↔ b = true.
Proof. destruct u, b; naive_solver. Qed.

Lemma or_fail_ok {A} (o : option A) c message env a : (or_fail o c message env).2 = Ok a ↔ o = Some a.
Proof. destruct o; simpl; naive_solver. Qed.

Lemma io_bind_ok {A B} (m : io A) (f : A → io B) env b :
  ((m ≫= f) env).2 = Ok b ↔ ∃ a, (m env).2 = Ok a ∧ (f a env).2 = Ok b.
Proof. rewrite io_bind_result. destruct (m env).2; naive_solver. Qed.

(** A file that can be used as TLS material. *)
Definition material (env : Env) (path : Path) (pem : Pem) : Prop :=
  ∃ size, en_metadata env path = Some (false, size) ∧ size <= MAX_MATERIAL_BYTES ∧
    en_read env path = Some pem ∧ 1 <= len pem <= MAX_MATERIAL_BYTES.

(** An optional reference of the file and what it resolves to. *)
Definition resolves {A B} (R : A → B → Prop) (reference : option A) (value : option B) : Prop :=
  option_Forall2 R reference value.

Lemma require_bind_ok {B} b c message (f : unit → io B) env r :
  ((require b c message ≫= f) env).2 = Ok r ↔ b = true ∧ (f tt env).2 = Ok r.
Proof. rewrite io_bind_ok. setoid_rewrite require_ok. split; [by intros ([] & ? & ?)|eauto]. Qed.

Lemma or_fail_bind_ok {A B} (o : option A) c message (f : A → io B) env r :
  ((or_fail o c message ≫= f) env).2 = Ok r ↔ ∃ a, o = Some a ∧ (f a env).2 = Ok r.
Proof. rewrite io_bind_ok. by setoid_rewrite or_fail_ok. Qed.

Lemma read_material_ok env path what m :
  (read_material path what env).2 = Ok m ↔ resolves (material env) path m.
Proof.
  unfold resolves. destruct path as [path|]; cbn [read_material].
  - rewrite io_bind_result. cbn [metadata snd]. rewrite or_fail_bind_ok. split.
    + intros ([is_dir size] & Hm & Hr). rewrite !require_bind_ok, io_bind_result in Hr. cbn [read_file snd] in Hr.
      destruct Hr as (Hd & Hs & Hr). apply or_fail_bind_ok in Hr as (bytes & Hb & Hr).
      rewrite !require_bind_ok in Hr. destruct Hr as (Hl & H0 & Hr). simpl in Hr. simplify_eq.
      pose proof (len_nonneg bytes). bools. constructor. exists size. destruct is_dir; [done|].
      split_and!; try done; lia.
    + inversion 1 as [? pem (size & Hm & Hs & Hr & Hl)|]; subst. exists (false, size). split; [done|].
      rewrite !require_bind_ok, io_bind_result. cbn [read_file snd]. split; [done|].
      split; [apply negb_true_iff, Z.ltb_ge; lia|]. apply or_fail_bind_ok. exists pem. split; [done|].
      rewrite !require_bind_ok. split; [apply negb_true_iff, Z.ltb_ge; lia|].
      split; [apply negb_true_iff, Z.eqb_neq; lia|done].
  - simpl. split; [intros [= <-]; constructor|]. by inversion 1.
Qed.

Lemma read_required_ok env path what pem :
  (read_required_material path what env).2 = Ok pem ↔ ∃ p, path = Some p ∧ material env p pem.
Proof.
  unfold read_required_material. rewrite io_bind_ok. setoid_rewrite read_material_ok. setoid_rewrite or_fail_ok.
  split.
  - intros (m & Hm & ->). inversion Hm; subst. eauto.
  - intros (p & -> & Hp). eexists. split; [by constructor|done].
Qed.

(** The value of a variable, usable as a token. *)
Definition token_value (env : Env) (name : rstr) (token : SecretToken) : Prop :=
  name ≠ [] ∧ ∃ v, en_var env name = Some v ∧ SecretToken_new (byte_of <$> str_bytes v) = Ok token.

Lemma load_token_ok env name token :
  (load_token_with name env_var env).2 = Ok token ↔ token_value env name token.
Proof.
  unfold load_token_with, token_value. rewrite require_bind_ok, negb_true_iff, bool_decide_eq_false.
  rewrite io_bind_result. cbn [env_var snd]. rewrite or_fail_bind_ok. cbn [lift snd].
  by setoid_rewrite map_err_ok.
Qed.

Definition proxy_value (env : Env) (name value : rstr) : Prop :=
  en_var env name = Some value ∧ forallb is_whitespace value = false.

Lemma resolve_proxy_ok env name proxy :
  (resolve_proxy name env_var env).2 = Ok proxy ↔ resolves (proxy_value env) name proxy.
Proof.
  unfold resolves, proxy_value. destruct name as [name|]; cbn [resolve_proxy].
  - rewrite io_bind_result. cbn [env_var snd]. rewrite or_fail_bind_ok. setoid_rewrite require_bind_ok.
    setoid_rewrite negb_true_iff. split.
    + intros (v & Hv & Hb & [= <-]). by constructor.
    + inversion 1 as [? v [Hv Hb]|]; subst. eauto.
  - simpl. split; [intros [= <-]; constructor|]. by inversion 1.
Qed.

Definition identity_value (env : Env) (c : FileConfig) (identity : option ClientIdentity) : Prop :=
  match fc_client_cert c, fc_client_key c with
  | Some cert, Some key =>
      ∃ i, identity = Some i ∧ material env cert (id_certificate_pem i) ∧ material env key (id_private_key_pem i)
  | None, None => identity = None
  | _, _ => False
  end.

Lemma resolve_identity_ok env c identity :
  is_set (fc_client_cert c) = is_set (fc_client_key c) ∧ (resolve_identity c env).2 = Ok identity ↔
  identity_value env c identity.
Proof.
  unfold resolve_identity, identity_value. destruct (fc_client_cert c), (fc_client_key c); simpl; [|naive_solver..].
  rewrite io_bind_ok. split.
  - intros (_ & pem & Hp & (pem' & Hp' & Hr)%io_bind_ok).
    apply read_required_ok in Hp as (? & [= <-] & ?), Hp' as (? & [= <-] & ?). simpl in Hr. simplify_eq. eauto.
  - intros ([pem pem'] & -> & ? & ?). split; [done|]. exists pem. split; [apply read_required_ok; eauto|].
    apply io_bind_ok. exists pem'. split; [apply read_required_ok; eauto|done].
Qed.

Lemma client_transport_named_ok name p :
  client_transport_named name = Ok p ↔ name = lit (transport_name_client p).
Proof.
  unfold client_transport_named. split.
  - repeat case_bool_decide; by intros [= <-].
  - intros ->. by destruct p.
Qed.

Lemma server_transport_named_ok name p :
  server_transport_named name = Ok p ↔ name = lit (transport_name_server p).
Proof.
  unfold server_transport_named. split.
  - repeat case_bool_decide; by intros [= <-].
  - intros ->. by destruct p.
Qed.

Lemma resolve_client_services_ok c services :
  resolve_client_services c = Ok services ↔
  fc_services c ≠ [] ∧ resolve_service <$> fc_services c = Ok <$> services.
Proof.
  unfold resolve_client_services. destruct (fc_services c) as [|s l]; [naive_solver|].
  rewrite collect_ok. naive_solver.
Qed.

Lemma is_set_false {A} (o : option A) : is_set o = false ↔ o = None.
Proof. by destruct o. Qed.

(** The references of a client file and what they resolve to. *)
Record client_resolution (env : Env) (c : FileConfig) (r : ResolvedClient) : Prop :=
  { cres_mode : fc_mode c = lit "client";
    cres_no_server : fc_listen_addr c = None ∧ fc_tls_cert c = None ∧ fc_tls_key c = None ∧
                     fc_client_ca c = None ∧ fc_allow_public_service_binds c = false;
    cres_transport : fc_transport c = lit (transport_name_client (rc_transport r));
    cres_addr : ∃ text, fc_server_addr c = Some text ∧ Endpoint_parse text = Ok (rc_server_addr r);
    cres_name : fc_tls_server_name c = Some (rc_tls_server_name r) ∧ rc_tls_server_name r ≠ [];
    cres_token : token_value env (fc_token_env c) (rc_token r);
    cres_ca : resolves (material env) (fc_ca_cert c) (rc_ca_pem r);
    cres_proxy : fc_outbound_proxy_env c ≠ Some [] ∧
                 resolves (proxy_value env) (fc_outbound_proxy_env c) (rc_outbound_proxy r);
    cres_identity : identity_value env c (rc_identity r);
    cres_services : fc_services c ≠ [] ∧ resolve_service <$> fc_services c = Ok <$> rc_services r }.

Record server_resolution (env : Env) (c : FileConfig) (r : ResolvedServer) : Prop :=
  { sres_mode : fc_mode c = lit "server";
    sres_no_client : fc_outbound_proxy_env c = None ∧ fc_server_addr c = None ∧ fc_tls_server_name c = None ∧
                     fc_ca_cert c = None ∧ fc_client_cert c = None ∧ fc_client_key c = None ∧ fc_services c = [];
    sres_transport : fc_transport c = lit (transport_name_server (rs_transport r));
    sres_addr : ∃ text, fc_listen_addr c = Some text ∧ parse_socket_addr text = Some (rs_listen_addr r);
    sres_token : token_value env (fc_token_env c) (rs_token r);
    sres_cert : ∃ p, fc_tls_cert c = Some p ∧ material env p (rs_certificate_pem r);
    sres_key : ∃ p, fc_tls_key c = Some p ∧ material env p (rs_private_key_pem r);
    sres_public : rs_allow_public_service_binds r = fc_allow_public_service_binds c;
    sres_ca : resolves (material env) (fc_client_ca c) (rs_client_ca r) }.

Lemma name_filter_ok (o : option rstr) name :
  (n ← o; if bool_decide (n = []) then None else Some n) = Some name ↔ o = Some name ∧ name ≠ [].
Proof. destruct o as [n|]; simpl; [|naive_solver]. case_bool_decide; naive_solver. Qed.

Lemma lift_bind_ok {A B} (m : result CliError A) (f : A → io B) env r :
  ((lift m ≫= f) env).2 = Ok r ↔ ∃ a, m = Ok a ∧ (f a env).2 = Ok r.
Proof. by rewrite io_bind_ok. Qed.

Lemma resolve_server_iff env c r : (resolve_server c env).2 = Ok r ↔ server_resolution env c r.
Proof.
  unfold resolve_server, resolve_server_with.
  rewrite !require_bind_ok, !negb_true_iff, !orb_false_iff, !is_set_false, negb_false_iff, !bool_decide_eq_true,
    lift_bind_ok.
  setoid_rewrite server_transport_named_ok. setoid_rewrite or_fail_bind_ok. setoid_rewrite or_fail_bind_ok.
  setoid_rewrite io_bind_ok. setoid_rewrite load_token_ok.
  setoid_rewrite io_bind_ok. setoid_rewrite read_required_ok.
  setoid_rewrite io_bind_ok. setoid_rewrite read_required_ok.
  setoid_rewrite io_bind_ok. setoid_rewrite read_material_ok. split.
  - intros (? & ? & ? & transport & ? & text & ? & addr & ? & token & ? & cert & ? & key & ? & ca & ? & Hr).
    simpl in Hr. simplify_eq. split; simpl; naive_solver.
  - destruct r as [addr cert key token transport public ca]. intros [? ? ? (text & ? & ?) ? ? ? <- ?]. simpl in *.
    split; [done|]. split; [naive_solver|]. split; [naive_solver|]. naive_solver.
Qed.

Lemma resolve_client_iff env c r : (resolve_client c env).2 = Ok r ↔ client_resolution env c r.
Proof.
  unfold resolve_client, resolve_client_with.
  rewrite !require_bind_ok, !negb_true_iff, !orb_false_iff, !is_set_false, !bool_decide_eq_true, lift_bind_ok.
  setoid_rewrite client_transport_named_ok. setoid_rewrite or_fail_bind_ok. setoid_rewrite lift_bind_ok.
  setoid_rewrite map_err_ok. setoid_rewrite or_fail_bind_ok. setoid_rewrite name_filter_ok.
  do 2 setoid_rewrite require_bind_ok. setoid_rewrite eqb_true_iff. setoid_rewrite negb_true_iff.
  setoid_rewrite bool_decide_eq_false.
  setoid_rewrite io_bind_ok. setoid_rewrite load_token_ok.
  setoid_rewrite io_bind_ok. setoid_rewrite read_material_ok.
  setoid_rewrite io_bind_ok. setoid_rewrite resolve_proxy_ok.
  setoid_rewrite io_bind_ok. setoid_rewrite lift_bind_ok. setoid_rewrite resolve_client_services_ok. split.
  - intros (? & ? & transport & ? & text & ? & addr & ? & name & ? & ? & ? & token & ? & ca & ? & proxy & ? &
      identity & ? & services & ? & Hr). simpl in Hr. simplify_eq.
    split; simpl; try naive_solver. by apply resolve_identity_ok.
  - destruct r as [addr name ca token services transport proxy identity].
    intros [? ? ? (text & ? & ?) ? ? ? ? Hid ?]. simpl in *. apply resolve_identity_ok in Hid as [? ?].
    split; [done|]. split; [tauto|]. exists transport. split; [done|]. exists text. split; [done|].
    exists addr. split; [done|]. exists name. split; [done|]. split; [done|]. split; [naive_solver|].
    exists token. split; [done|]. exists ca. split; [done|]. exists proxy. split; [naive_solver|].
    exists identity. split; [done|]. exists services. by split.
Qed.

(** ** Properties *)

(** Resolution takes a file exactly as it is written.  The client command
    accepts a configuration if and only if it is of mode [client], has no
    server-only key set, names a known transport, an endpoint that parses, a
    TLS server name, a token variable that is set to a usable token, material
    files that exist and hold 1 byte to 1 MiB, a certificate together with its
    key or neither, a proxy variable that is set and not blank if one is named,
    and at least one service, all of them valid; the snapshot then holds the
    referenced values, each in its place.  The server command likewise. *)
Theorem resolution_exact env c :
  (∀ r, (resolve_client c env).2 = Ok r ↔ client_resolution env c r) ∧
  (∀ r, (resolve_server c env).2 = Ok r ↔ server_resolution env c r).
Proof. split; [apply resolve_client_iff|apply resolve_server_iff]. Qed.

(** C30. [check] predicts the start.  When [check] rejects a file, the command
    of its mode fails on the same inputs with the very same error; when [check]
    accepts it, the client starts unless its TLS material does not build, and
    the server binds unless its TLS material does not build or a socket
    operation fails.  Nothing that validation could have caught is left. *)
Theorem check_predicts_start `{Libraries} `{Platform} env path c json i every sockets :
  parsed env path = Some c → validate_snapshot_interval i = Ok every → bi_runtime sockets = true →
  (fc_mode c = lit "client" →
     match (run_check path json env).2 with
     | Err e => (start_client path no_client_overrides i env).2 = Err e
     | Ok _ => (∃ st, (start_client path no_client_overrides i env).2 = Ok st) ∨
               (start_client path no_client_overrides i env).2 = Err (from_tunnel_error TE_Tls)
     end) ∧
  (fc_mode c = lit "server" →
     match (run_check path json env).2 with
     | Err e => (start_server sockets path no_server_overrides i env).2 = Err e
     | Ok _ => (∃ st, (start_server sockets path no_server_overrides i env).2 = Ok st) ∨
               ∃ e, (start_server sockets path no_server_overrides i env).2 = Err (from_tunnel_error e) ∧
                    (e = TE_Tls ∨ ∃ k, e = TE_Io k)
     end).
Proof.
  intros Hc Hi Hs. rewrite (run_check_result _ _ _ Hc).
  rewrite (start_client_result _ _ _ Hc _ _ _ _ Hi (no_client_overrides_same c)).
  rewrite (start_server_result _ _ _ Hc _ _ _ _ _ Hi (no_server_overrides_same c)).
  unfold check_mode. split; intros Hm; rewrite Hm; simpl.
  - rewrite check_client_result. destruct (resolve_client c env).2 as [r|e]; [|done].
    destruct (ClientBuilder_validate (client_builder r)) as [[]|e] eqn:Ev.
    + destruct (ClientBuilder_start true (client_builder r)) as [client|e] eqn:Es; [left; eauto|right].
      by rewrite (client_start_err _ _ Ev Es).
    + unfold ClientBuilder_start, start_profile. unfold ClientBuilder_validate in Ev. by rewrite Ev.
  - rewrite check_server_result. destruct (resolve_server c env).2 as [r|e]; [|done].
    destruct (ServerBuilder_validate (server_builder r)) as [[]|e] eqn:Ev.
    + destruct (ServerBuilder_bind sockets (server_builder r)) as [server|e] eqn:Es; [left; eauto|right].
      exists e. split; [done|]. by eapply (server_bind_err sockets (server_builder r)); [|apply server_builder_policy|..].
    + unfold ServerBuilder_bind. by rewrite Ev.
Qed.

(** C28. Secrets do not reach the output.  Take two environments that differ
    only in the values of variables and the contents of files, with the same
    variables set, values equally usable as a token and as a proxy, and files
    of the same sizes: [check] reads, prints and answers the same under both,
    character for character, and the [Debug] of the resolved configurations is
    the same.  So neither the report, nor an error message, nor a log of the
    snapshot can carry any part of a token, a key or a proxy address. *)
Theorem secrets_not_reported `{Libraries} `{Platform} e1 e2 :
  similar e1 e2 →
  (∀ path json, run_check path json e1 = run_check path json e2) ∧
  (∀ c r s, (resolve_client c e1).2 = Ok r → (resolve_client c e2).2 = Ok s →
     ResolvedClient_debug r = ResolvedClient_debug s) ∧
  (∀ c r s, (resolve_server c e1).2 = Ok r → (resolve_server c e2).2 = Ok s →
     ResolvedServer_debug r = ResolvedServer_debug s).
Proof.
  intros Hsim. split_and!.
  - intros path json. by apply agree_eq, agree_run_check.
  - intros c r s Hr Hs. pose proof (agree_resolve_client _ _ Hsim c) as [_ Ha]. rewrite Hr, Hs in Ha.
    destruct Ha as [Ha Hb Hca Hse Ht Hp Hi]. unfold ResolvedClient_debug. rewrite Ha, Hb, Hse, Ht.
    by destruct Hca, Hp, Hi.
  - intros c r s Hr Hs. pose proof (agree_resolve_server _ _ Hsim c) as [_ Ha]. rewrite Hr, Hs in Ha.
    destruct Ha as [Ha _ _ Ht Hp Hca]. unfold ResolvedServer_debug. rewrite Ha, Ht, Hp. by destruct Hca.
Qed.

(** Inputs are read once, in a fixed order.  A start that succeeds has read
    the configuration file once and then each variable and each file the
    effective configuration refers to, once per reference and nothing else; a
    start that fails has read a prefix of that and printed nothing; [check]
    reads no more than that and prints at most one line, exactly one with
    [--json]. *)
Theorem inputs_read_once `{Libraries} `{Platform} env path c :
  parsed env path = Some c →
  (∀ o i c', apply_client_overrides c o = Ok c' →
     spells env (E_text path :: client_reads c') (start_client path o i)) ∧
  (∀ sockets o i c', apply_server_overrides c o = Ok c' →
     spells env (E_text path :: server_reads c') (start_server sockets path o i)) ∧
  (∀ json, ∃ reads lines,
     (run_check path json env).1 = E_text path :: reads ++ (E_print <$> lines) ∧
     reads `prefix_of` mode_reads c ∧ (length lines <= 1)%nat ∧ (json = true → length lines = 1%nat) ∧
     ((run_check path json env).2 = Ok tt → reads = mode_reads c ∧ length lines = 1%nat)).
Proof.
  intros Hc. split_and!; [intros; by eapply spells_start_client|intros; by eapply spells_start_server|].
  intros json. rewrite (run_check_parsed _ _ _ _ Hc). destruct (spells_check_mode env c) as [Hp Hf].
  exists (check_mode c env).1, (report json c (check_mode c env).2). simpl. split_and!; [done|done|..].
  - unfold report. destruct (check_mode c env).2, json; simpl; lia.
  - unfold report. by intros ->; destruct (check_mode c env).2.
  - destruct (check_mode c env).2 as [a|e]; [|done]. intros _. by rewrite (Hf a).
Qed.

(** ** Witnesses: one file, two environments with different tokens *)

Definition sample_file : FileConfig :=
  mkFileConfig (lit "client") (lit "tcp_tls") (lit "TOKEN") None None None false (Some (lit "tunnel.example:443"))
    (Some (lit "tunnel.example")) None None None None None
    [mkFileService 1 (lit "ssh") (lit "127.0.0.1") 22 0].

Definition sample_platform : Platform :=
  {| toml_from_str _ := Some sample_file; io_error_display _ := lit "os error" |}.

Definition sample_env (token : string) : Env :=
  mkEnv (fun _ => Some (lit "...")) (fun name => if bool_decide (name = lit "TOKEN") then Some (lit token) else None)
    (fun _ => None) (fun _ => None).

Definition sample_sockets : BindIo := mkBindIo true (fun a => Ok (Ok a)) (fun a => Ok (Ok a)).

Lemma sample_parsed token : @parsed sample_platform (sample_env token) (lit "tunnel.toml") = Some sample_file.
Proof. done. Qed.

Lemma sample_similar : @similar sample_libraries (sample_env "first") (sample_env "other").
Proof.
  split; try done.
  - intros name. simpl. case_bool_decide; constructor. vm_compute. split_and!; reflexivity.
  - intros path. constructor.
Qed.

Lemma check_predicts_start_witness :
  (∃ st, (@start_client sample_libraries sample_platform (lit "tunnel.toml") no_client_overrides None
            (sample_env "first")).2 = Ok st) ∨
  (@start_client sample_libraries sample_platform (lit "tunnel.toml") no_client_overrides None
     (sample_env "first")).2 = Err (@from_tunnel_error sample_platform TE_Tls).
Proof.
  pose proof (proj1 (@check_predicts_start sample_libraries sample_platform (sample_env "first") (lit "tunnel.toml")
    sample_file true None None sample_sockets (sample_parsed _) eq_refl eq_refl) eq_refl) as Hw.
  assert ((@run_check sample_libraries sample_platform (lit "tunnel.toml") true (sample_env "first")).2 = Ok tt)
    as Hok by (vm_compute; reflexivity).
  rewrite Hok in Hw. exact Hw.
Defined.

Lemma secrets_not_reported_witness :
  (@run_check sample_libraries sample_platform (lit "tunnel.toml") true (sample_env "first")).2 = Ok tt ∧
  @run_check sample_libraries sample_platform (lit "tunnel.toml") true (sample_env "first") =
  @run_check sample_libraries sample_platform (lit "tunnel.toml") true (sample_env "other").
Proof.
  split; [vm_compute; reflexivity|].
  apply (@secrets_not_reported sample_libraries sample_platform _ _ sample_similar).
Defined.

Lemma inputs_read_once_witness :
  (@start_client sample_libraries sample_platform (lit "tunnel.toml") no_client_overrides None
     (sample_env "first")).1 = [E_text (lit "tunnel.toml"); E_var (lit "TOKEN")].
Proof.
  pose proof (proj1 (@inputs_read_once sample_libraries sample_platform (sample_env "first") (lit "tunnel.toml")
    sample_file (sample_parsed _)) no_client_overrides None sample_file eq_refl) as [_ Hw].
  destruct ((@start_client sample_libraries sample_platform (lit "tunnel.toml") no_client_overrides None
    (sample_env "first")).2) as [st|e] eqn:E; [exact (Hw st eq_refl)|]. vm_compute in E. discriminate E.
Defined.
