(* ===== verification/CliRun.v ===== *)
(** * The command line: the running commands

    The loops of [run_server] and [run_client] of
    crates/eggtunnel-cli/src/main.rs: what they print while the runtime of
    [CliConfig] is up.  The snapshots and the bind table a tick polls are those
    of the shared counters ([Common.snapshot], [Common.bind_table_shared]); the
    order of ticks and of the signal is an argument, and an arm of [select!]
    that the options disable never completes. *)

From stdpp Require Import pretty.
From S2P Require Import Prelude Text Proto Common Endpoint Config Redaction CliConfig.

Definition EVENT_SCHEMA : string := "eggtunnel.events/v1".

Definition event (name : string) (fields : list (string * Json)) : Line :=
  L_json (J_obj (("schema", J_str (lit EVENT_SCHEMA)) :: ("event", J_str (lit name)) :: fields)).

(** The [Debug] of a termination category. *)
Definition TerminationCategory_debug (c : TerminationCategory) : string :=
  match c with
  | TC_Clean => "Clean" | TC_Cancelled => "Cancelled" | TC_Timeout => "Timeout"
  | TC_Authentication => "Authentication" | TC_Authorization => "Authorization" | TC_Protocol => "Protocol"
  | TC_Transport => "Transport" | TC_Target => "Target" | TC_ResourceExhausted => "ResourceExhausted"
  | TC_PeerClosed => "PeerClosed" | TC_Internal => "Internal"
  end.

Definition termination_json (t : option TerminationCategory) : Json :=
  from_option (fun c => J_str (lit (TerminationCategory_debug c))) J_null t.

Definition bind_fields (e : BindEntry) : list (string * Json) :=
  [("session", J_str (lit (SessionId_debug (be_session e)))); ("service_id", J_num (svc_id (be_service e)));
   ("address", J_ip (eb_address (be_bind e))); ("port", J_num (eb_port (be_bind e)))].

Definition snapshot_event (s : Snapshot) : Line :=
  event "snapshot"
    [("connected", J_bool (sn_connected s)); ("active_sessions", J_num (sn_active_sessions s));
     ("registered_services", J_num (sn_registered_services s));
     ("pending_connections", J_num (sn_pending_connections s));
     ("active_connections", J_num (sn_active_connections s));
     ("active_client_open_tasks", J_num (sn_active_client_open_tasks s));
     ("active_handshakes", J_num (sn_active_handshakes s)); ("reconnects", J_num (sn_reconnects s));
     ("rejected_connections", J_num (sn_rejected_connections s));
     ("bytes_upstream", J_num (sn_bytes_upstream s)); ("bytes_downstream", J_num (sn_bytes_downstream s));
     ("task_panics", J_num (sn_task_panics s)); ("last_termination", termination_json (sn_last_termination s));
     ("missed_heartbeats", J_num (hs_missed_heartbeats (sn_heartbeat s)));
     ("session_generation", J_num (hs_session_generation (sn_heartbeat s)));
     ("effective_binds", J_arr ((fun e => J_obj (bind_fields e)) <$> sn_effective_binds s))].

Definition shutdown_lines (json : bool) : list Line :=
  if json then [event "shutdown" [("reason", J_str (lit "signal"))]] else [].

(** What completes first in a round of the loop. *)
Inductive Round := CtrlC | Refresh (s : Snapshot) | SnapshotTick (s : Snapshot).

(** ** The server's loop *)

(** The key of [printed]. *)
Definition BindKey : Type := SessionId * ServiceId * list byte * Z.
Definition bind_key (e : BindEntry) : BindKey :=
  (be_session e, be_service e, eb_address (be_bind e), eb_port (be_bind e)).

Definition bind_line (json : bool) (e : BindEntry) : Line :=
  if json then event "service_bind" (bind_fields e)
  else L_service (svc_id (be_service e)) (SessionId_debug (be_session e)) (eb_address (be_bind e))
         (eb_port (be_bind e)).

(** The [for] loop of a refresh: [HashSet::insert] answers whether the key is
    new. *)
Fixpoint announce (json : bool) (binds : list BindEntry) (printed : gset BindKey) : list Line * gset BindKey :=
  match binds with
  | [] => ([], printed)
  | e :: binds' =>
      if bool_decide (bind_key e ∈ printed) then announce json binds' printed
      else let '(lines, printed') := announce json binds' ({[bind_key e]} ∪ printed) in
           (bind_line json e :: lines, printed')
  end.

Definition on_server_refresh (json : bool) (binds : list BindEntry) (printed : gset BindKey)
    : list Line * gset BindKey :=
  let live : gset BindKey := list_to_set (bind_key <$> binds) in
  announce json binds (printed ∩ live).

(** The lines of the loop and whether it has ended; without a signal it goes
    on. *)
Fixpoint server_loop (json : bool) (every : option Z) (printed : gset BindKey) (rounds : list Round)
    : list Line * bool :=
  match rounds with
  | [] => ([], false)
  | CtrlC :: _ => (shutdown_lines json, true)
  | Refresh s :: rounds' =>
      let '(lines, printed') := on_server_refresh json (sn_effective_binds s) printed in
      let '(rest, ended) := server_loop json every printed' rounds' in (lines ++ rest, ended)
  | SnapshotTick s :: rounds' =>
      let '(rest, ended) := server_loop json every printed rounds' in
      (match every with Some _ => snapshot_event s :: rest | None => rest end, ended)
  end.

Definition server_startup (json : bool) (version transport : string) (addr : SocketAddr) : list Line :=
  if json then
    [event "startup" [("version", J_str (lit version)); ("mode", J_str (lit "server"));
                      ("transport", J_str (lit transport))];
     event "server_listening" [("addr", J_socket addr)]]
  else [L_listening addr].

(** ** The client's loop *)

Definition on_client_refresh (s : Snapshot) (was_connected : bool) : list Line * bool :=
  (if sn_connected s && negb was_connected then
     [event "session_ready"
        [("generation", J_num (hs_session_generation (sn_heartbeat s)));
         ("registered_services", J_num (sn_registered_services s))]]
   else if negb (sn_connected s) && was_connected then
     [event "session_lost"
        [("termination", termination_json (sn_last_termination s)); ("reconnects", J_num (sn_reconnects s))]]
   else [],
   sn_connected s).

(** [refresh] exists under [--json] only. *)
Fixpoint client_loop (json : bool) (every : option Z) (was_connected : bool) (rounds : list Round)
    : list Line * bool :=
  match rounds with
  | [] => ([], false)
  | CtrlC :: _ => (shutdown_lines json, true)
  | Refresh s :: rounds' =>
      if json then
        let '(lines, was_connected') := on_client_refresh s was_connected in
        let '(rest, ended) := client_loop json every was_connected' rounds' in (lines ++ rest, ended)
      else client_loop json every was_connected rounds'
  | SnapshotTick s :: rounds' =>
      let '(rest, ended) := client_loop json every was_connected rounds' in
      (match every with Some _ => snapshot_event s :: rest | None => rest end, ended)
  end.

Definition client_startup (json : bool) (version transport : string) (services : Z) : list Line :=
  if json then
    [event "startup" [("version", J_str (lit version)); ("mode", J_str (lit "client"));
                      ("transport", J_str (lit transport)); ("services", J_num services)]]
  else [L_text (lit "client started; waiting for authenticated session")].

(** ** The commands *)

Section commands.
Context `{Libraries} `{Platform}.

Fixpoint print_all (lines : list Line) : io unit :=
  match lines with
  | [] => mret tt
  | line :: lines' => _ ← print line; print_all lines'
  end.

(** A command's answer says whether it returned; the runtime is then shut
    down. *)
Definition run_server (version : string) (sockets : BindIo) (path : Path) (overrides : ServerOverrides)
    (json : bool) (interval : option Z) (rounds : list Round) : io bool :=
  st ← start_server sockets path overrides interval;
  _ ← print_all (server_startup json version (st_server_transport st) (bs_local_addr (st_server st)));
  let '(lines, ended) := server_loop json (st_server_snapshot_every st) ∅ rounds in
  _ ← print_all lines;
  mret ended.

Definition run_client (version : string) (path : Path) (overrides : ClientOverrides) (json : bool)
    (interval : option Z) (rounds : list Round) : io bool :=
  st ← start_client path overrides interval;
  _ ← print_all (client_startup json version (st_transport st) (st_services st));
  let '(lines, ended) := client_loop json (st_snapshot_every st) false rounds in
  _ ← print_all lines;
  mret ended.

Inductive Command :=
| Version
| CheckFile (config : Path) (json : bool)
| RunClient (config : Path) (overrides : ClientOverrides) (json : bool) (interval : option Z)
| RunServer (config : Path) (overrides : ServerOverrides) (json : bool) (interval : option Z).

Definition run_command (version : string) (sockets : BindIo) (rounds : list Round) (command : Command) : io bool :=
  match command with
  | Version => _ ← print (L_text (lit "eggtunnel " ++ lit version)); mret true
  | CheckFile config json => _ ← run_check config json; mret true
  | RunServer config overrides json interval => run_server version sockets config overrides json interval rounds
  | RunClient config overrides json interval => run_client version config overrides json interval rounds
  end.

(** [main] returns its error, and the runtime of Rust exits with 1 on any. *)
Definition exit_status (r : result CliError bool) : Z := match r with Ok _ => 0 | Err _ => 1 end.
End commands.

(** ** The server's announcements *)

Lemma announce_spec json binds printed :
  (announce json binds printed).2 = list_to_set (bind_key <$> binds) ∪ printed ∧
  ∃ new, (announce json binds printed).1 = bind_line json <$> new ∧ new `sublist_of` binds ∧
    NoDup (bind_key <$> new) ∧
    (∀ k, k ∈ bind_key <$> new ↔ k ∈ bind_key <$> binds ∧ ¬ (k ∈ printed)).
Proof.
  revert printed. induction binds as [|e binds IH]; intros printed; cbn [announce].
  - split; [simpl; set_solver|]. exists []. split_and!; [done|done|apply NoDup_nil_2|set_solver].
  - case_bool_decide as He.
    + destruct (IH printed) as [H2 (new & H1 & Hs & Hn & Hk)]. rewrite H2. split; [simpl; set_solver|].
      exists new. split_and!; [done|by apply sublist_cons|done|]. set_solver.
    + destruct (IH ({[bind_key e]} ∪ printed)) as [H2 (new & H1 & Hs & Hn & Hk)].
      destruct (announce json binds ({[bind_key e]} ∪ printed)) as [lines printed'] eqn:Ea. simpl in *.
      subst. split; [set_solver|]. exists (e :: new). split_and!; [done|by apply sublist_skip| |].
      * apply list.NoDup_cons. split; [|done]. intros Hin. apply Hk in Hin as [_ Hin]. set_solver.
      * intros k. simpl. rewrite !elem_of_cons, Hk. destruct (decide (k = bind_key e)); set_solver.
Qed.

Lemma server_refresh_printed json binds printed :
  (on_server_refresh json binds printed).2 = list_to_set (bind_key <$> binds).
Proof. unfold on_server_refresh. rewrite (proj1 (announce_spec _ _ _)). set_solver. Qed.

Lemma server_refresh_spec json binds printed :
  ∃ new, (on_server_refresh json binds printed).1 = bind_line json <$> new ∧ new `sublist_of` binds ∧
    NoDup (bind_key <$> new) ∧
    (∀ k, k ∈ bind_key <$> new ↔ k ∈ bind_key <$> binds ∧ ¬ (k ∈ printed)).
Proof.
  unfold on_server_refresh. destruct (announce_spec json binds (printed ∩ list_to_set (bind_key <$> binds)))
    as [_ (new & H1 & Hs & Hn & Hk)]. exists new. split_and!; try done. intros k. rewrite Hk. set_solver.
Qed.

(** ** The client's events *)

(** The connectivity each refresh before the signal polled. *)
Fixpoint polled (rounds : list Round) : list bool :=
  match rounds with
  | Refresh s :: rounds' => sn_connected s :: polled rounds'
  | SnapshotTick _ :: rounds' => polled rounds'
  | _ => []
  end.

(** A sequence with its repetitions left out, from an initial value. *)
Fixpoint changes (was : bool) (l : list bool) : list bool :=
  match l with
  | [] => []
  | b :: l' => if eqb b was then changes was l' else b :: changes b l'
  end.

(** [session_ready] as [true], [session_lost] as [false]. *)
Definition session_flag (line : Line) : list bool :=
  match line with
  | L_json (J_obj (_ :: (_, J_str name) :: _)) =>
      if bool_decide (name = lit "session_ready") then [true]
      else if bool_decide (name = lit "session_lost") then [false] else []
  | _ => []
  end.

Lemma session_flags_loop every was rounds :
  (client_loop true every was rounds).1 ≫= session_flag = changes was (polled rounds).
Proof.
  revert was. induction rounds as [|[|s|s] rounds IH]; intros was; try done; cbn [client_loop polled changes].
  - unfold on_client_refresh. specialize (IH (sn_connected s)).
    destruct (client_loop true every (sn_connected s) rounds) as [rest ended]. simpl in *.
    rewrite bind_app, IH. by destruct (sn_connected s), was.
  - specialize (IH was). destruct (client_loop true every was rounds) as [rest ended]. simpl in *. by destruct every.
Qed.

(** ** Properties *)

(** A listener is announced when it appears, once.  What a refresh of the
    server command prints is one line for each distinct bind that is in the
    table now and was not in the table the previous refresh saw (or ever
    before, for the first), in table order; and the memory it keeps for this is
    exactly the keys of the table it just saw, so it does not grow with the
    Sessions that have come and gone. *)
Theorem binds_announced json previous printed binds :
  let memory := (on_server_refresh json previous printed).2 in
  (on_server_refresh json binds memory).2 = list_to_set (bind_key <$> binds) ∧
  (∃ new, (on_server_refresh json binds memory).1 = bind_line json <$> new ∧ new `sublist_of` binds ∧
     NoDup (bind_key <$> new) ∧
     ∀ k, k ∈ bind_key <$> new ↔ k ∈ bind_key <$> binds ∧ ¬ (k ∈ bind_key <$> previous)) ∧
  (∃ new, (on_server_refresh json binds ∅).1 = bind_line json <$> new ∧ NoDup (bind_key <$> new) ∧
     ∀ k, k ∈ bind_key <$> new ↔ k ∈ bind_key <$> binds).
Proof.
  simpl. rewrite !server_refresh_printed. split_and!; [done|..].
  - destruct (server_refresh_spec json binds (list_to_set (bind_key <$> previous))) as (new & ? & ? & ? & Hk).
    exists new. split_and!; try done. intros k. by rewrite Hk, elem_of_list_to_set.
  - destruct (server_refresh_spec json binds ∅) as (new & ? & ? & ? & Hk). exists new. split_and!; try done.
    intros k. rewrite Hk. set_solver.
Qed.

(** The client command reports every change of connectivity it sees, and
    only changes: under [--json] the [session_ready] and [session_lost] events
    are the polled connectivity with repetitions left out, starting from
    disconnected, whatever snapshots are interleaved; so they alternate and the
    first is [session_ready]. *)
Theorem session_events_are_changes every rounds :
  (client_loop true every false rounds).1 ≫= session_flag = changes false (polled rounds).
Proof. apply session_flags_loop. Qed.
